(* ===== verification/_CoqProject ===== *)
-Q . S2P
Prelude.v
Utils.v
Bitonic.v
OrCompact.v
TwoWay.v
EdgeRec.v
StaticSort.v
Interleave.v
MergeSplit.v
Heap.v
MergeSort.v
Routing.v
Butterfly.v
ButterflyNet.v
ButterflyCorrect.v
ButterflySort.v
ParamSelect.v
CaBucket.v
CaBucketSort.v
ShellSort.v
Inner.v
Hash.v
Hmac.v
HmacDrbg.v
Simd.v
ObliMove.v
ObliCmp.v
Aes.v
AesCtr.v
AesCtrDrbg.v
Gf2.v
Ghash.v
Gcm.v
EncUtils.v
Allocator.v
PageStore.v
NonCachedVector.v
SysRng.v
Primes.v
Curve25519.v
SgxsdKeys.v
SgxsdEnclave.v
SgxsdCorrect.v
SgxsdServer.v
SgxsdInvariant.v
