(* ===== verification/Prelude.v ===== *)
(** * oblsort: a verification library

    oblsort sorts and shuffles data that is larger than a trusted enclave's
    memory, in a way whose memory accesses do not depend on the data.  The
    repository has three layers, and so has this development.

    - The oblivious algorithms (src/osort/external_memory/algorithm): sorting
      networks, compaction, interleaving, the nodes and the layers of the
      flex-way butterfly network, the solver that chooses its parameters, and
      external merge sort.
    - The storage below them (src/osort/external_memory, src/osort/common):
      encrypted pages on an untrusted server, an allocator, a cache and
      vectors.
    - The cryptography and the attested server of the enclave
      (src/applications/sorting/Enclave/bearssl): hashes, HMAC, AES, GHASH, GCM,
      generators, Curve25519, and the server that uses them.

    ** Conventions

    Definitions keep the names of the source and are executable.  An integer of
    [w] bits is a [Z] with its wrap-around written out ([wrap], [w8] .. [w128]);
    sizes and indices whose bounds are hypotheses are [nat].  Memory is a list
    of bytes.  A function that writes through pointers returns what it wrote; a
    global or a member is a field of a record that is threaded through.
    [abort()], a failed assertion and an access out of bounds are [None] or a
    constructor of their own; null pointers are [None].  Loops whose bound is
    not structural take fuel, the number of elements, bytes or rounds that the
    loop consumes at most.  The theorems are about the functions without fuel,
    or about every fuel that is at least that number, so that running out of
    fuel never helps a proof.  The recursion of [ExtMergeSort] gets a step more
    than there are ranges, that of the bucket shuffles 63 steps, more than the
    logarithm of any number of buckets.

    Assertions are those of a debug build; where the difference matters,
    [ndebug] says whether they are compiled out ([OrCompact], [newWriter], the
    bucket sort and shuffle).  The assertion of [processBatch] that a chunk lies
    in its batch follows from the sizes its theorems assume and is left out.

    ** Files, and what they model

    Algorithms (file of the library: file under src/osort).
    - [Utils]: common/utils.hpp.  Logarithms and powers of two at 64 bits,
      rounding division, bounded random numbers over any generator [RandGen],
      the Fisher-Yates shuffle.
    - [Bitonic]: algorithm/bitonic.hpp.  It sorts every list under every strict
      weak order; fuel is the length of the range.
    - [OrCompact]: algorithm/or_compact_shuffle.hpp.  Compaction moves the marked
      elements to the front in their order, the shuffle permutes.
    - [TwoWay], [Interleave], [EdgeRec]: interleaving in
      algorithm/sort_building_blocks.hpp and the orientation of the mark graph
      in edge_rec.hpp.  [EdgeRec] shows that the Euler walk balances every
      vertex; [Interleave] uses this to split the marks in two equal halves at
      each level.
    - [StaticSort]: algorithm/static_sort.hpp, the networks on 3 to 8 inputs, by
      the zero-one principle.
    - [MergeSplit]: the two nodes of the butterfly network, with counters in the
      eight signed 32-bit lanes of a vector register.  A node aborts exactly
      when a bucket would overflow.
    - [Routing]: what a node promises (the interface [Router]) and how nodes
      compose when a layer applies them to columns of buckets.
    - [Butterfly], [ButterflyNet], [ButterflyCorrect], [ButterflySort]:
      algorithm/kway_butterfly_sort.hpp.  The model, the routing of the layers,
      the last layer, and the entry points.
    - [Heap], [MergeSort]: [std::make_heap] and [std::pop_heap] as libstdc++
      has them, the partition of dummies, external merge sort.
    - [ParamSelect]: algorithm/param_select.hpp, and the sort with the parameters
      it finds, end to end.
    - [CaBucket], [CaBucketSort]: algorithm/ca_bucket_sort.hpp.  The routing, and
      the shuffles and sorts, in builds with and without assertions.
    - [ShellSort]: algorithm/randomized_shell_sort.hpp.
    - [ObliMove], [ObliCmp]: common/mov_intrinsics.hpp and cmp_intrinsics.hpp.
      The branch-free moves, swaps and comparisons on the bytes of the objects.

    Storage.
    - [Allocator]: server/serverAllocator.hpp, as a step relation on the free
      list and the slots in use.
    - [PageStore]: server/serverBackend.hpp, serverFrontend.hpp, cached.hpp,
      common/dmcache.hpp, extemvector.hpp.  Pages are sealed under the interface
      [PageCipher]; the wrapper [FreshEncrypted] implements it.
    - [NonCachedVector]: noncachedvector.hpp.  Ranges copied to and from
      authenticated pages, and the sequential reader and writer.
    - [EncUtils]: common/encutils.cpp, encrypted.hpp.  GCM and counter mode on
      buffers, the wrappers, the buffered random generator.

    Cryptography (files under Enclave/bearssl/src/bearssl unless said
    otherwise).
    - [Inner]: inner.h, codec/.  Codecs and constant-time primitives.
    - [Hash], [Hmac], [HmacDrbg]: hash/sha1.c, hash/sha2small.c, mac/hmac.c,
      rand/hmac_drbg.c, against FIPS 180-4, RFC 2104 and SP 800-90A.
    - [Simd], [Aes], [AesCtr], [AesCtrDrbg]: the vector instructions,
      symcipher/aes_x86ni.c, aes_x86ni_ctr.c, rand/aesctr_drbg.c, against
      FIPS 197 and the counter mode of SP 800-38A.
    - [Gf2], [Ghash], [Gcm]: hash/ghash_pclmul.c, aead/gcm.c, against
      SP 800-38D.
    - [SysRng]: rand/sysrng.c.
    - [Primes], [Curve25519]: ../curve25519-donna-c64.c, against RFC 7748; the
      primality of [2^255 - 19] by Pocklington's criterion.
    - [SgxsdKeys], [SgxsdEnclave], [SgxsdCorrect], [SgxsdServer],
      [SgxsdInvariant]: ../sgxsd-enclave.c.  Keys, the globals and entry points,
      the table of pending requests, negotiation, replies and servers, and the
      invariant over every sequence of calls.

    ** Interfaces

    A component is proved against what the components below it promise.
    [HashOk] (a hash class computes a hash), [CtrOk] (a counter-mode class xors a
    key stream), [GhashOk], [Router] (a node routes), [StdSort] (what
    [std::sort] does), [RandGen] and [RandGenOk] (a generator of 64-bit words),
    [Double] and [DoubleOk] (the floating-point operations that the solver
    uses), [StrictWeakOrder] (a comparison), [PageCipher] and [PageCipherOk] (a
    page that is sealed opens again).  Each has an implementation in the
    development: the modelled code, or for code outside the repository a
    concrete function that a witness uses.

    ** What the theorems show

    - Sorting: [BitonicSort_correct] for every list.  [ExtMergeSort_correct]
      says for which memory and number of ranges external merge sort sorts, and
      that it has no result for all others.  [KWayButterflySorting_correct] and
      [KWayButterflyOShuffle_correct], in [ParamSelect]: up to 512 elements the
      flex-way sort and shuffle always return; above, they do when the memory
      holds the buffers of the smallest bucket size, a network was found and the
      random tags let none of its buckets overflow, and, for the sort, when
      three readers fit and no batch is empty if batches are merged.
      [bestKWayButterflyParams_correct] shows that the solver ends, for which
      memory it aborts, and that its network fits in memory and holds the input,
      except when the memory is too small even for the buffers.
      [CABucketShuffle_correct] describes the layers of a bucket shuffle by a
      shape ([net]), says by the elements alone when a packing overflows
      ([no_overflow]) and where the elements go and how many are lost
      ([routed]), and what is written in builds with and without assertions;
      [CABucketSort_correct] says what this means for the sort.
      [RandomizedShellSort_safe] says for which sizes Shellsort stays in its
      range.
    - Building blocks: compaction, interleaving, the two nodes, the Euler
      orientation, the static networks.  [obliSwap] and [obliMove] on objects of
      any size are the conditional swap and assignment that the algorithms use
      ([obliSwap_condSwap]), and [obliCheckLess] is an order that they may sort
      by ([obliCheck_total_order]).
    - Storage: a cached vector of encrypted pages is an array, but for its first
      page when the default is not the value-initialised item
      ([ExtVector_refines]); what is written to a range of a vector, through a
      copy or a writer, is read back ([vector_round_trip]); slots of the
      allocator never overlap ([allocator_safe]).
    - Cryptography: each algorithm equals its standard on every input and in
      every sequence of pieces; encryption and decryption are inverse, and a
      wrong tag is refused; the limbs of the field stay in their bounds.  The
      AES-CTR generator is the documented one as long as requests are whole
      blocks, and its bytes are known for all others
      ([aesctr_drbg_refines]).
    - The server: a request id opens its request exactly once, callbacks see
      authentic messages only, but for what is behind the size modulo 2^32 of a
      message of 4 GiB or more ([server_call_authentic]), a reply is sent at most once, keys are those of
      the protocol, and nothing works before the node is initialised.

    ** Parameters of the model

    The enclave SDK (random numbers, reports, allocation, calls out of the
    enclave), the callbacks of a server, the layout of types declared in a
    header that the repository lacks, the words of [cpuid], the outcomes of
    [rdrand] and of reads of /dev/urandom, [std::sort] and the mathematical
    library.  The bytes behind a 16-byte key that is read as 32, and the
    uninitialised bytes of stack buffers, are arguments of the definitions that
    read them.

    ** What modelling showed

    Each is recorded at the definition or the theorem that shows it.  A request
    that ends inside a block leaves the AES-CTR generator at this block, and its
    hash starts from another constant than the comment says
    ([documented_differs]).  The /dev/urandom seeder spins on empty reads.
    The AES-256 key constant has 16 bytes.  Sizes of 4 GiB and more are narrowed
    to 32 bits, so that the rest of a buffer is sent in the clear or is accepted
    without authentication.  The reply header has an uninitialised field, and a
    page 16 uninitialised bytes.  Pages are rewritten under the same nonce.  A
    fresh cache slot claims page 0 ([fresh_vector_reads_zero]).  Stopping a
    server clears its lock while the lock is held.  [partitionDummy] loses an
    element when there is no dummy.  [ExtMergeSort] with two ways and three
    ranges does not end, nor does the parameter solver on some options
    ([solver_diverges]); its memory budget wraps around ([internalSpace_wraps]),
    and [lowerBound] does not find the smallest value it promises
    ([lowerBound_not_smallest]).  The bound documented for [fmul] is too large.
    Of two ranges copied out one after the other, the second can be refused
    ([second_range_refused]).  Bucket sort in a release build loses the elements
    of a full bucket ([overflow_loses]), the assertion on its output accepts any
    order ([orderAssert_unordered]), and with a small heap it does not end
    ([externalButterflyRouting_needs_heap]).

    ** Not modelled

    - kway_distri_sort.hpp (another schedule of the same nodes), waks_on_off.hpp
      (an alternative for comparison), and the part of param_select.hpp that
      serves the former.
    - virtualvector.hpp, dynamicvector.hpp and stdvector.hpp: the sorts read
      them as sequences, through readers and writers; the prefetching readers of
      noncachedvector.hpp in the build with disk I/O; lrucache.hpp, which is
      compiled out.
    - Obliviousness itself.  The definitions are functions on values, without a
      trace of addresses; the branch-free code is translated as such.
    - The OpenSSL build of encutils.cpp and the Windows seeder, which only call
      a library.
    - The untrusted servers, the applications, drivers, tests and tracing: input
      and output, and benchmarks.
    - The headers of BearSSL for TLS, X.509, RSA, EC and PEM: declarations
      whose code is not in the repository. *)
From Stdlib Require Export ZArith Lia Bool ZifyBool ZifyNat.
From Stdlib Require Export Sorted.
From stdpp Require Export base list numbers sets.

Declare Scope osort_scope.
Delimit Scope osort_scope with osort.
Global Open Scope Z_scope.
Global Open Scope nat_scope.

(** ** Machine-width integers *)

(** A value of a [w]-bit unsigned type: the residue modulo [2^w]. *)
Definition wrap (w : Z) (z : Z) : Z := (z mod 2 ^ w)%Z.
Abbreviation w8 := (wrap 8).
Abbreviation w16 := (wrap 16).
Abbreviation w32 := (wrap 32).
Abbreviation w64 := (wrap 64).

Definition in_width (w : Z) (z : Z) : Prop := (0 <= z < 2 ^ w)%Z.

Lemma wrap_small w z : in_width w z -> wrap w z = z.
Proof. intros H. apply Z.mod_small, H. Qed.

Lemma wrap_in_width w z : (0 <= w)%Z -> in_width w (wrap w z).
Proof. intros H. apply Z.mod_pos_bound. lia. Qed.

Lemma wrap_idemp w z : wrap w (wrap w z) = wrap w z.
Proof. apply Z.mod_mod_divide, Z.divide_refl. Qed.

Lemma wrap_testbit w z i :
  (0 <= w)%Z -> (0 <= i)%Z ->
  Z.testbit (wrap w z) i = (i <? w)%Z && Z.testbit z i.
Proof.
  intros Hw Hi. unfold wrap. destruct (Z.ltb_spec i w) as [H|H].
  - rewrite Z.mod_pow2_bits_low by lia. done.
  - rewrite Z.mod_pow2_bits_high by lia. done.
Qed.

(** Bitwise extensionality on non-negative integers. *)
Lemma Z_bits_inj_nonneg a b :
  (forall i, (0 <= i)%Z -> Z.testbit a i = Z.testbit b i) -> a = b.
Proof.
  intros H. apply Z.bits_inj'. intros i Hi. apply H, Hi.
Qed.

Lemma in_width_high_bits w z i :
  in_width w z -> (w <= i)%Z -> Z.testbit z i = false.
Proof.
  intros [H0 H1] Hi. destruct (decide (z = 0%Z)) as [->|Hz].
  - apply Z.bits_0.
  - apply Z.bits_above_log2; [lia|].
    apply Z.log2_lt_pow2 in H1; lia.
Qed.

Lemma in_width_of_bits w z :
  (0 <= w)%Z -> (0 <= z)%Z ->
  (forall i, (w <= i)%Z -> Z.testbit z i = false) -> in_width w z.
Proof.
  intros Hw Hz H. split; [done|]. destruct (decide (z = 0%Z)) as [->|Hnz]; [lia|].
  destruct (Z.lt_ge_cases z (2 ^ w)) as [Hlt|Hge]; [done|].
  assert (w <= Z.log2 z)%Z by (apply Z.log2_le_pow2; lia).
  assert (Hb := Z.bit_log2 z ltac:(lia)). rewrite H in Hb by lia. done.
Qed.

Section width_closure.
Context (w : Z) (Hw : (0 <= w)%Z).

Lemma lor_in_width a b : in_width w a -> in_width w b -> in_width w (Z.lor a b).
Proof using Hw.
  intros Ha Hb. apply in_width_of_bits; [done| |].
  - apply Z.lor_nonneg. destruct Ha, Hb. lia.
  - intros i Hi. rewrite Z.lor_spec, (in_width_high_bits w a), (in_width_high_bits w b); done.
Qed.

Lemma land_in_width_l a b : in_width w a -> (0 <= b)%Z -> in_width w (Z.land a b).
Proof using Hw.
  intros Ha Hb. apply in_width_of_bits; [done| |].
  - apply Z.land_nonneg. destruct Ha. lia.
  - intros i Hi. rewrite Z.land_spec, (in_width_high_bits w a); done.
Qed.

Lemma lxor_in_width a b : in_width w a -> in_width w b -> in_width w (Z.lxor a b).
Proof using Hw.
  intros Ha Hb. apply in_width_of_bits; [done| |].
  - apply Z.lxor_nonneg. destruct Ha, Hb. lia.
  - intros i Hi. rewrite Z.lxor_spec, (in_width_high_bits w a), (in_width_high_bits w b); done.
Qed.

Lemma shiftr_in_width a k : in_width w a -> (0 <= k)%Z -> in_width w (Z.shiftr a k).
Proof using Hw.
  intros Ha Hk. apply in_width_of_bits; [done| |].
  - apply Z.shiftr_nonneg. destruct Ha. lia.
  - intros i Hi. rewrite Z.shiftr_spec by lia. apply (in_width_high_bits w); [done|lia].
Qed.
End width_closure.

Create HintDb width discriminated.
#[export] Hint Resolve wrap_in_width lor_in_width land_in_width_l lxor_in_width
  shiftr_in_width : width.
#[export] Hint Extern 2 (0 <= _)%Z => lia : width.

(** ** Conditional swap at the level of values

    [condSwap] of sort_def.hpp (lines 50-57).  The performance counter it
    increments is not part of the model. *)
Definition condSwap {A} (cond : bool) (v1 v2 : A) : A * A :=
  if cond then (v2, v1) else (v1, v2).

(** The loop shape of the library's networks: two iterators advance in
    lockstep over disjoint ranges and each pair is swapped under a condition.
    [flag i x y] is the condition of iteration [i]; the loop ends when the
    second range does. *)
Fixpoint condSwapLoop {A} (flag : nat -> A -> A -> bool) (i : nat)
    (l r : list A) : list A * list A :=
  match l, r with
  | x :: l', y :: r' =>
      let xy := condSwap (flag i x y) x y in
      let lr := condSwapLoop flag (S i) l' r' in
      (xy.1 :: lr.1, xy.2 :: lr.2)
  | _, _ => (l, r)
  end.

Section condSwap_facts.
Context {A : Type}.
Implicit Types (l r : list A) (flag : nat -> A -> A -> bool).

Lemma condSwapLoop_length flag l : forall i r,
  length (condSwapLoop flag i l r).1 = length l /\
  length (condSwapLoop flag i l r).2 = length r.
Proof.
  induction l as [|x l IH]; intros i [|y r]; simpl; try done.
  destruct (IH (S i) r) as [-> ->]. done.
Qed.

Lemma condSwapLoop_perm flag l : forall i r,
  (condSwapLoop flag i l r).1 ++ (condSwapLoop flag i l r).2 ≡ₚ l ++ r.
Proof.
  induction l as [|x l IH]; intros i [|y r]; simpl; try done.
  specialize (IH (S i) r). unfold condSwap.
  destruct (flag i x y); simpl;
    rewrite <-!Permutation_middle, IH; [apply perm_swap|done].
Qed.

Lemma condSwapLoop_lookup flag l : forall i r j x y,
  l !! j = Some x -> r !! j = Some y ->
  (condSwapLoop flag i l r).1 !! j = Some (condSwap (flag (i + j) x y) x y).1 /\
  (condSwapLoop flag i l r).2 !! j = Some (condSwap (flag (i + j) x y) x y).2.
Proof.
  induction l as [|a l IH]; intros i [|b r] [|j] x y Hx Hy; simplify_eq/=.
  - by rewrite Nat.add_0_r.
  - destruct (IH (S i) r j x y Hx Hy) as [-> ->].
    by rewrite <-Nat.add_succ_comm.
Qed.

Lemma condSwapLoop_lookup_rest flag l : forall i r j,
  length r <= j -> (condSwapLoop flag i l r).1 !! j = l !! j.
Proof.
  induction l as [|a l IH]; intros i [|b r] [|j] Hj; simpl in *; try done; try lia.
  apply IH; lia.
Qed.

(** A map that agrees with the swap conditions commutes with the loop. *)
Lemma condSwapLoop_fmap {B} (f : A -> B) flag (flag' : nat -> B -> B -> bool) l :
  (forall i x y, prod_map f f (condSwap (flag i x y) x y)
                 = condSwap (flag' i (f x) (f y)) (f x) (f y)) ->
  forall i r,
  prod_map (fmap f) (fmap f) (condSwapLoop flag i l r)
  = condSwapLoop flag' i (f <$> l) (f <$> r).
Proof.
  intros H. induction l as [|x l IH]; intros i [|y r]; simpl; try done.
  rewrite <-IH, <-H. by destruct (condSwapLoop flag (S i) l r), (condSwap (flag i x y) x y).
Qed.
End condSwap_facts.

(** ** Automation *)

(** Case split on every comparison of the goal. *)
Ltac case_cmp :=
  repeat match goal with
  | |- context [Nat.ltb ?a ?b] => destruct (Nat.ltb_spec a b)
  | |- context [Nat.leb ?a ?b] => destruct (Nat.leb_spec a b)
  | |- context [Nat.eqb ?a ?b] => destruct (Nat.eqb_spec a b)
  | |- context [Z.ltb ?a ?b] => destruct (Z.ltb_spec a b)
  | |- context [Z.leb ?a ?b] => destruct (Z.leb_spec a b)
  | |- context [Z.eqb ?a ?b] => destruct (Z.eqb_spec a b)
  end.

(** Equality of bitwise expressions, bit by bit. *)
Ltac bitwise :=
  apply Z.bits_inj'; let i := fresh "i" in let Hi := fresh in intros i Hi;
  repeat first [rewrite Z.lxor_spec | rewrite Z.land_spec | rewrite Z.lor_spec | rewrite Z.lnot_spec by exact Hi];
  repeat match goal with |- context [Z.testbit ?x i] => destruct (Z.testbit x i) end; reflexivity.

(** ** Lists *)

Lemma StronglySorted_app_iff {A} (R : A -> A -> Prop) (l1 l2 : list A) :
  StronglySorted R (l1 ++ l2) <->
  StronglySorted R l1 /\ StronglySorted R l2 /\
  (forall x y, x ∈ l1 -> y ∈ l2 -> R x y).
Proof.
  induction l1 as [|a l1 IH]; simpl.
  - split; [intros H; repeat split; [constructor|done|set_solver]|naive_solver].
  - split.
    + inversion_clear 1 as [|? ? Hs Hf]. apply IH in Hs as (H1 & H2 & H3).
      rewrite Forall_app in Hf. destruct Hf as [Hf1 Hf2].
      repeat split; [by constructor|done|].
      intros x y Hx Hy. rewrite Forall_forall in Hf2. set_solver.
    + intros (H1 & H2 & H3). inversion_clear H1 as [|? ? Hs Hf].
      constructor.
      * apply IH. repeat split; [done..|set_solver].
      * apply Forall_app. split; [done|]. apply Forall_forall. set_solver.
Qed.

(** Pairwise ordering of a list by position. *)
Lemma StronglySorted_lookup {A} (R : A -> A -> Prop) (l : list A) :
  (forall i j x y, i < j -> l !! i = Some x -> l !! j = Some y -> R x y) ->
  StronglySorted R l.
Proof.
  induction l as [|a l IH]; intros H; constructor.
  - apply IH. intros i j x y Hij Hi Hj. apply (H (S i) (S j)); [lia|done..].
  - apply Forall_lookup. intros i x Hi. apply (H 0 (S i)); [lia|done..].
Qed.

Lemma StronglySorted_lookup_2 {A} (R : A -> A -> Prop) (l : list A) i j x y :
  StronglySorted R l -> i < j -> l !! i = Some x -> l !! j = Some y -> R x y.
Proof.
  intros HS. revert i j. induction HS as [|a l HS IH Hf]; intros i j Hij Hi Hj; [done|].
  destruct j as [|j]; [lia|]. destruct i as [|i]; simplify_eq/=.
  - rewrite Forall_lookup in Hf. by eapply Hf.
  - apply (IH i j); [lia|done..].
Qed.

Lemma filter_fmap {A B} (f : A -> B) (P : B -> Prop) `{forall x, Decision (P x)} (l : list A) :
  filter P (f <$> l) = f <$> filter (fun x => P (f x)) l.
Proof.
  induction l as [|x l IH]; [done|]. rewrite fmap_cons, !filter_cons, IH. by destruct (decide (P (f x))).
Qed.

Fixpoint product (l : list nat) : nat := match l with [] => 1 | x :: l => x * product l end.

Lemma product_app l k : product (l ++ k) = product l * product k.
Proof. induction l as [|x l IH]; simpl; [lia|]. rewrite IH. lia. Qed.

(** The range [[o, o + n)] of an array. *)
Definition slice {A} (o n : nat) (l : list A) : list A := take n (drop o l).

Lemma slice_length {A} o n (l : list A) : o + n <= length l -> length (slice o n l) = n.
Proof. intros H. unfold slice. rewrite length_take, length_drop. lia. Qed.

Lemma slice_slice {A} o n o' n' (l : list A) : o' + n' <= n -> slice o' n' (slice o n l) = slice (o + o') n' l.
Proof.
  intros H. unfold slice. rewrite skipn_firstn_comm, take_take, drop_drop. f_equal. lia.
Qed.

Lemma slice_app {A} o n m (l : list A) : slice o (n + m) l = slice o n l ++ slice (o + n) m l.
Proof. unfold slice. by rewrite <-take_take_drop, drop_drop. Qed.

Lemma slice_lookup {A} o n (l : list A) i : i < n -> slice o n l !! i = l !! (o + i).
Proof. intros H. unfold slice. by rewrite lookup_take_lt, lookup_drop by done. Qed.

Lemma slice_lookup_ge {A} o n (l : list A) i : n <= i -> slice o n l !! i = None.
Proof. intros H. unfold slice. by rewrite lookup_take_ge. Qed.

Lemma slice_all {A} (l : list A) : slice 0 (length l) l = l.
Proof. unfold slice. by rewrite drop_0, firstn_all. Qed.

Lemma slice_0_all {A} (l : list A) n : length l = n -> slice 0 n l = l.
Proof. intros <-. apply slice_all. Qed.

Lemma slice_fmap {A B} (f : A -> B) o n (l : list A) : f <$> slice o n l = slice o n (f <$> l).
Proof. unfold slice. by rewrite fmap_take, fmap_drop. Qed.

(** Write [xs] at offset [o]. *)
Definition write_at {A} (o : nat) (xs l : list A) : option (list A) :=
  if o + length xs <=? length l then Some (take o l ++ xs ++ drop (o + length xs) l) else None.

Lemma write_at_Some {A} o (xs l : list A) : o + length xs <= length l ->
  exists l', write_at o xs l = Some l' /\ length l' = length l /\ slice o (length xs) l' = xs /\
    (forall q, (q < o \/ o + length xs <= q) -> l' !! q = l !! q).
Proof.
  intros H. unfold write_at. rewrite (proj2 (Nat.leb_le _ _)) by done. eexists. split; [reflexivity|].
  assert (Ht : length (take o l) = o) by (rewrite length_take; lia). split_and!.
  - rewrite !length_app, length_drop, Ht. lia.
  - unfold slice. rewrite drop_app_length' by done. by rewrite take_app_length.
  - intros q [Hq|Hq].
    + rewrite lookup_app_l by lia. by apply lookup_take_lt.
    + rewrite lookup_app_r by lia. rewrite lookup_app_r by lia. rewrite lookup_drop. f_equal. lia.
Qed.

Lemma write_at_Forall {A} (P : A -> Prop) o (xs l l' : list A) :
  write_at o xs l = Some l' -> Forall P xs -> Forall P l -> Forall P l'.
Proof.
  unfold write_at. destruct (_ <=? _); [|done]. intros [= <-] H1 H2. rewrite !Forall_app. split_and!; [by apply Forall_take|done|by apply Forall_drop].
Qed.

(** [k] consecutive ranges of length [n]. *)
Definition blocks {A} (n k : nat) (l : list A) : list (list A) := (fun i => slice (i * n) n l) <$> seq 0 k.

Lemma blocks_S {A} n k (l : list A) : blocks n (S k) l = blocks n k l ++ [slice (k * n) n l].
Proof. unfold blocks. by rewrite seq_S, fmap_app. Qed.

Lemma blocks_concat {A} n k (l : list A) : concat (blocks n k l) = slice 0 (k * n) l.
Proof.
  induction k as [|k IH]; [done|]. rewrite blocks_S, concat_app, IH. simpl. rewrite app_nil_r.
  rewrite (Nat.add_comm n), slice_app. done.
Qed.

Lemma blocks_length {A} n k (l : list A) : length (blocks n k l) = k.
Proof. unfold blocks. by rewrite length_fmap, length_seq. Qed.

Lemma blocks_lookup {A} n k (l : list A) i : i < k -> blocks n k l !! i = Some (slice (i * n) n l).
Proof. intros H. unfold blocks. by rewrite list_lookup_fmap, lookup_seq_lt. Qed.

Lemma concat_length_eq {A} n (bs : list (list A)) : Forall (fun b => length b = n) bs -> length (concat bs) = length bs * n.
Proof. induction 1 as [|b bs Hb _ IH]; [done|]. rewrite concat_cons, length_app, Hb, IH. simpl. lia. Qed.

Lemma blocks_of_concat {A} n (bs : list (list A)) : Forall (fun b => length b = n) bs -> blocks n (length bs) (concat bs) = bs.
Proof.
  intros H. apply list_eq_same_length with (length bs); [done|by rewrite blocks_length|].
  intros i x y Hi Hx Hy. rewrite blocks_lookup in Hx by done. injection Hx as <-. revert i Hi Hy.
  induction H as [|b bs Hb Hbs IH]; intros i Hi Hy; [done|]. rewrite concat_cons. destruct i as [|i].
  - injection Hy as <-. unfold slice. rewrite Nat.mul_0_l, drop_0, <-Hb. apply take_app_length.
  - simpl in Hi. unfold slice in *. rewrite drop_app_ge by nia. rewrite <-(IH i ltac:(lia) Hy). do 2 f_equal. lia.
Qed.

Lemma concat_Permutation {A} (ls ks : list (list A)) : Forall2 (≡ₚ) ls ks -> concat ls ≡ₚ concat ks.
Proof. induction 1 as [|l k ls ks H _ IH]; [done|]. rewrite !concat_cons. by rewrite H, IH. Qed.

Lemma concat_fmap_concat {A} (ls : list (list (list A))) : concat ((@concat A) <$> ls) = concat (concat ls).
Proof. induction ls as [|l ls IH]; [done|]. rewrite fmap_cons, !concat_cons, concat_app. by rewrite IH. Qed.

Lemma blocks_whole {A} n k (l : list A) : length l = k * n -> concat (blocks n k l) = l.
Proof. intros H. by rewrite blocks_concat, <-H, slice_all. Qed.

Lemma blocks_slice {A} n k q p (l : list A) :
  q + p <= k -> slice q p (blocks n k l) = blocks n p (slice (q * n) (p * n) l).
Proof.
  intros H. apply list_eq_same_length with p; [by rewrite blocks_length|apply slice_length; rewrite blocks_length; lia|].
  intros i x y Hi Hx Hy. rewrite slice_lookup, blocks_lookup in Hx by lia. rewrite blocks_lookup in Hy by done.
  rewrite slice_slice in Hy by nia. injection Hx as <-. injection Hy as <-. f_equal. lia.
Qed.

Lemma filter_none {A} (P : A -> Prop) `{forall x, Decision (P x)} (l : list A) :
  (forall x, x ∈ l -> ~ P x) -> filter P l = [].
Proof.
  induction l as [|x l IH]; intros Hl; [done|]. rewrite filter_cons_False by (apply Hl; left).
  apply IH. intros y Hy. apply Hl. by right.
Qed.

Lemma filter_every {A} (P : A -> Prop) `{forall x, Decision (P x)} (l : list A) :
  (forall x, x ∈ l -> P x) -> filter P l = l.
Proof.
  induction l as [|x l IH]; intros Hl; [done|]. rewrite filter_cons_True by (apply Hl; left).
  f_equal. apply IH. intros y Hy. apply Hl. by right.
Qed.

Lemma filter_ext_in {A} (P Q : A -> Prop) `{forall x, Decision (P x)} `{forall x, Decision (Q x)} (l : list A) :
  (forall x, x ∈ l -> P x <-> Q x) -> filter P l = filter Q l.
Proof.
  induction l as [|x l IH]; intros Hl; [done|]. rewrite !filter_cons, IH by (intros y Hy; apply Hl; by right).
  specialize (Hl x ltac:(left)). destruct (decide (P x)), (decide (Q x)); tauto.
Qed.

(** ** Parts listed by an index *)

Lemma StronglySorted_weaken {A} (R S : A -> A -> Prop) l : (forall x y, x ∈ l -> y ∈ l -> R x y -> S x y) ->
  StronglySorted R l -> StronglySorted S l.
Proof.
  intros H. induction 1 as [|x l Hs IH Hx]; constructor.
  - apply IH. intros a b Ha Hb. apply H; by right.
  - rewrite Forall_forall in Hx |- *. intros y Hy. apply H; [by left|by right|by apply Hx].
Qed.

(** Of parts that are empty but for one, that one is left. *)
Lemma concat_only {A} (h : nat -> list A) n : forall g0 g, (forall i, i <> g -> h i = []) -> g0 <= g < g0 + n ->
  concat (h <$> seq g0 n) = h g.
Proof.
  induction n as [|n IH]; intros g0 g H Hg; [lia|]. cbn [seq fmap list_fmap]. rewrite concat_cons. destruct (decide (g = g0)) as [->|Hne].
  - assert (concat (h <$> seq (S g0) n) = []) as ->; [|by rewrite app_nil_r].
    clear IH Hg. assert (E : forall q, S g0 <= q -> concat (h <$> seq q n) = []).
    { induction n as [|n IH]; intros q Hq; [done|]. cbn [seq fmap list_fmap]. rewrite concat_cons, H, IH by lia. done. }
    by apply E.
  - rewrite H by congruence. apply IH; [done|lia].
Qed.

Lemma concat_length_const {A} (h : nat -> list A) c n : forall g0, (forall i, g0 <= i < g0 + n -> length (h i) = c) ->
  length (concat (h <$> seq g0 n)) = n * c.
Proof.
  induction n as [|n IH]; intros g0 H; [done|]. cbn [seq fmap list_fmap]. rewrite concat_cons, length_app, H, IH by (intros; apply H; lia) || lia.
  lia.
Qed.

Lemma concat_length_below {A} (h : nat -> list A) c g n : (forall i, i < n -> length (h i) = if decide (i < g) then c else 0) ->
  length (concat (h <$> seq 0 n)) = Nat.min g n * c.
Proof.
  induction n as [|n IH]; intros H; [by rewrite Nat.min_0_r|]. rewrite seq_S, fmap_app, concat_app, length_app, IH by (intros; apply H; lia).
  cbn [fmap list_fmap concat Nat.add]. rewrite app_nil_r, H by lia. destruct (decide (n < g)).
  - rewrite !Nat.min_r by lia. lia.
  - rewrite !Nat.min_l by lia. lia.
Qed.

Lemma filter_concat {A} (P : A -> Prop) `{forall x, Decision (P x)} (ls : list (list A)) : filter P (concat ls) = concat (filter P <$> ls).
Proof. induction ls as [|l ls IH]; [done|]. rewrite fmap_cons, !concat_cons, filter_app. by rewrite IH. Qed.

Lemma concat_has {A} (h : nat -> list A) n g : g < n -> h g ⊆+ concat (h <$> seq 0 n).
Proof.
  intros Hg. replace n with (g + S (n - S g)) by lia. rewrite seq_app, fmap_app, concat_app. cbn [seq fmap list_fmap Nat.add concat].
  apply submseteq_inserts_l. by apply submseteq_inserts_r.
Qed.

Lemma choose_upto {B} (d : B) (P : nat -> B -> Prop) n : (forall i, i < n -> exists y, P i y) -> exists y : nat -> B, forall i, i < n -> P i (y i).
Proof.
  induction n as [|n IH]; intros H; [exists (fun _ => d); lia|]. destruct IH as [y Hy]; [intros i Hi; apply H; lia|].
  destruct (H n ltac:(lia)) as [z Hz]. exists (fun i => if decide (i = n) then z else y i). intros i Hi.
  destruct (decide (i = n)) as [->|Hne]; [done|]. apply Hy. lia.
Qed.

Lemma mapM_fmap {A B} (f : A -> option B) (y : A -> B) l : (forall x, x ∈ l -> f x = Some (y x)) -> mapM f l = Some (y <$> l).
Proof.
  intros H. apply mapM_Some. induction l as [|x l IH]; [constructor|]. constructor; [apply H; by left|]. apply IH. intros; apply H; by right.
Qed.

(** Every element has a result, or one has none. *)
Lemma mapM_if {A B} (f : A -> option B) (y : A -> B) (c : A -> bool) l :
  (forall x, x ∈ l -> f x = if c x then Some (y x) else None) -> mapM f l = if forallb c l then Some (y <$> l) else None.
Proof.
  induction l as [|x l IH]; intros H; [done|]. cbn [mapM forallb]. rewrite H by (by left). rewrite IH by (intros; apply H; by right).
  by destruct (c x), (forallb c l).
Qed.

Lemma forallb_ext_seq (f g : nat -> bool) n : (forall i, i < n -> f i = g i) -> forallb f (seq 0 n) = forallb g (seq 0 n).
Proof.
  intros H. apply eq_true_iff_eq. rewrite !forallb_forall. split; intros F i Hi; pose proof Hi as [_ Hi']%in_seq; specialize (F i Hi);
    specialize (H i ltac:(lia)); congruence.
Qed.

Lemma forallb_seq (f : nat -> bool) n : forallb f (seq 0 n) = true <-> forall i, i < n -> f i = true.
Proof. rewrite forallb_forall. split; intros F i Hi; apply F; [apply in_seq; lia|by apply in_seq in Hi as [_ Hi]]. Qed.

(** A concatenation in rows. *)
Lemma concat_seq_rows {A} (f : nat -> list A) c n :
  concat (f <$> seq 0 (n * c)) = concat ((fun i => concat ((fun j => f (i * c + j)) <$> seq 0 c)) <$> seq 0 n).
Proof.
  induction n as [|n IH]; [done|]. rewrite seq_S, Nat.mul_succ_l, seq_app, !fmap_app, !concat_app, IH. f_equal.
  cbn [fmap list_fmap concat Nat.add]. rewrite app_nil_r. f_equal. apply list_eq_same_length with c; [by rewrite length_fmap, length_seq..|].
  intros i x y Hi. rewrite !list_lookup_fmap, !lookup_seq_lt by done. cbn. congruence.
Qed.

Lemma mapM_ext_in {A B} (f g : A -> option B) l : (forall x, x ∈ l -> f x = g x) -> mapM f l = mapM g l.
Proof.
  induction l as [|x l IH]; intros H; [done|]. cbn [mapM]. rewrite H by (by left). rewrite IH; [done|]. intros; apply H; by right.
Qed.

Lemma slice_concat_seq {A} (y : nat -> list A) c n i : (forall i, i < n -> length (y i) = c) -> i < n ->
  slice (i * c) c (concat (y <$> seq 0 n)) = y i.
Proof.
  intros H Hi. assert (B : blocks c n (concat (y <$> seq 0 n)) = y <$> seq 0 n).
  { rewrite <-(length_seq n 0) at 1. rewrite <-(length_fmap y). apply blocks_of_concat, Forall_fmap, Forall_forall.
    intros j Hj%elem_of_seq. cbn [compose]. apply H. lia. }
  apply (f_equal (fun l => l !! i)) in B. unfold blocks in B. rewrite !list_lookup_fmap, lookup_seq_lt in B by done. by injection B.
Qed.

Lemma submseteq_filter {A} (P : A -> Prop) `{forall x, Decision (P x)} l l' : l ⊆+ l' -> filter P l ⊆+ filter P l'.
Proof.
  intros [k Hk]%submseteq_Permutation. rewrite Hk, filter_app. by apply submseteq_inserts_r.
Qed.

Lemma submseteq_concat {A B} (y z : A -> list B) l : (forall x, x ∈ l -> y x ⊆+ z x) -> concat (y <$> l) ⊆+ concat (z <$> l).
Proof.
  induction l as [|x l IH]; intros H; [done|]. rewrite !fmap_cons, !concat_cons. apply submseteq_app; [apply H; by left|].
  apply IH. intros; apply H; by right.
Qed.

Lemma perm_concat {A B} (y z : A -> list B) l : (forall x, x ∈ l -> y x ≡ₚ z x) -> concat (y <$> l) ≡ₚ concat (z <$> l).
Proof.
  induction l as [|x l IH]; intros H; [done|]. rewrite !fmap_cons, !concat_cons. f_equiv; [apply H; by left|].
  apply IH. intros; apply H; by right.
Qed.

(** Parts that make up the whole are whole themselves. *)
Lemma submseteq_concat_perm {A B} (y z : A -> list B) l : (forall x, x ∈ l -> y x ⊆+ z x) ->
  length (concat (z <$> l)) <= length (concat (y <$> l)) -> forall x, x ∈ l -> y x ≡ₚ z x.
Proof.
  induction l as [|a l IH]; intros H Hl x Hx; [by apply not_elem_of_nil in Hx|]. rewrite !fmap_cons, !concat_cons, !length_app in Hl.
  assert (La : length (y a) <= length (z a)) by (apply submseteq_length, H; by left).
  assert (Ll : length (concat (y <$> l)) <= length (concat (z <$> l))) by (apply submseteq_length, submseteq_concat; intros; apply H; by right).
  apply elem_of_cons in Hx as [->|Hx].
  - apply submseteq_length_Permutation; [apply H; by left|lia].
  - apply IH; [intros; apply H; by right|lia|done].
Qed.

Lemma StronglySorted_concat {A} (R : A -> A -> Prop) (h : nat -> list A) n : (forall i, i < n -> StronglySorted R (h i)) ->
  (forall i j x y, i < j < n -> x ∈ h i -> y ∈ h j -> R x y) -> StronglySorted R (concat (h <$> seq 0 n)).
Proof.
  induction n as [|n IH]; intros Hs Hc; [constructor|]. rewrite seq_S, fmap_app, concat_app. cbn [fmap list_fmap concat Nat.add]. rewrite app_nil_r.
  apply StronglySorted_app_iff. split_and!; [apply IH; [intros; apply Hs; lia|intros i j x y Hij; apply Hc; lia]|apply Hs; lia|].
  intros x y Hx Hy. apply list_elem_of_In, in_concat in Hx as (c & Hc' & Hx). apply list_elem_of_In, list_elem_of_fmap in Hc' as (i & -> & Hi%elem_of_seq).
  apply (Hc i n); [lia|by apply list_elem_of_In|done].
Qed.

(** ** Loops *)

(** [for (i = j; i < j + n; ++i)] over a state, with abort. *)
Fixpoint loopM {St : Type} (f : nat -> St -> option St) (j n : nat) (s : St) : option St :=
  match n with
  | O => Some s
  | S n => match f j s with Some s => loopM f (S j) n s | None => None end
  end.

Lemma loopM_inv {St : Type} (I : nat -> St -> Prop) (f : nat -> St -> option St) n : forall j s,
  I j s -> (forall i s, j <= i < j + n -> I i s -> exists s', f i s = Some s' /\ I (S i) s') ->
  exists s', loopM f j n s = Some s' /\ I (j + n) s'.
Proof.
  induction n as [|n IH]; intros j s HI Hs; cbn [loopM].
  - exists s. by rewrite Nat.add_0_r.
  - destruct (Hs j s ltac:(lia) HI) as (s1 & -> & H1).
    destruct (IH (S j) s1 H1) as (s' & -> & H'); [intros; apply Hs; [lia|done]|].
    exists s'. split; [done|]. by rewrite Nat.add_succ_r.
Qed.

(** The same function on every element, the state passed along. *)
Fixpoint mapS {A B St : Type} (f : A -> St -> option (B * St)) (l : list A) (s : St) : option (list B * St) :=
  match l with
  | [] => Some ([], s)
  | x :: l =>
      match f x s with
      | Some (y, s) => match mapS f l s with Some (ys, s) => Some (y :: ys, s) | None => None end
      | None => None
      end
  end.

(** A run of [mapS] whose step keeps an invariant and relates argument and
    result at every position. *)
Lemma mapS_inv {A B St : Type} (I : nat -> St -> Prop) (R : nat -> B -> Prop) (f : A -> St -> option (B * St)) l :
  forall i s, I i s ->
  (forall j x s, l !! j = Some x -> I (i + j) s -> exists y s', f x s = Some (y, s') /\ I (i + S j) s' /\ R (i + j) y) ->
  exists ys s', mapS f l s = Some (ys, s') /\ I (i + length l) s' /\ length ys = length l /\
    (forall j y, ys !! j = Some y -> R (i + j) y).
Proof.
  induction l as [|x l IH]; intros i s HI Hf; cbn [mapS].
  - exists [], s. rewrite Nat.add_0_r. done.
  - destruct (Hf 0 x s eq_refl) as (y & s1 & -> & H1 & HR); [by rewrite Nat.add_0_r|].
    rewrite Nat.add_1_r in H1. rewrite Nat.add_0_r in HR.
    destruct (IH (S i) s1 H1) as (ys & s' & -> & H2 & H3 & H4).
    + intros j x' s2 Hx HI2. specialize (Hf (S j) x' s2 Hx). rewrite !Nat.add_succ_r in Hf.
      rewrite !Nat.add_succ_r. apply Hf. exact HI2.
    + exists (y :: ys), s'. split; [done|]. split; [by rewrite length_cons, Nat.add_succ_r|]. split; [by rewrite !length_cons, H3|].
      intros [|j] z Hz; [rewrite Nat.add_0_r; by injection Hz as <-|]. rewrite Nat.add_succ_r. by apply H4.
Qed.
