(* ===== verification/Utils.v ===== *)
(** * Integer helpers and random selection (osort/common/utils.hpp)

    The 64-bit helpers the algorithms size themselves with
    ([GetNextPowerOfTwo], [GetLogBaseTwo], [CeilLog2], [divRoundUp],
    [getVecProduct]) kept at their width, and the selection functions on top of
    the generator [default_rand], of which they know the interface [RandGen]
    only. *)
From S2P Require Import Prelude.
Local Open Scope Z_scope.

(** ** Definitions *)

(** [n |= n >> k] *)
Definition smear (k n : Z) : Z := Z.lor n (Z.shiftr n k).

Definition GetNextPowerOfTwo (n : Z) : Z :=
  let n := w64 (n - 1) in
  let n := smear 1 n in
  let n := smear 2 n in
  let n := smear 4 n in
  let n := smear 8 n in
  let n := smear 16 n in
  let n := smear 32 n in
  w64 (n + 1).

Definition log_masks : list Z :=
  [0x2; 0xC; 0xF0; 0xFF00; 0xFFFF0000; 0xFFFFFFFF00000000].

(** One round of the loop of [GetLogBaseTwo]: the state is [(n, r, c)]. *)
Definition GetLogBaseTwo_step (mask : Z) (st : Z * Z * Z) : Z * Z * Z :=
  let '(n, r, c) := st in
  let cond := negb (Z.land n mask =? 0) in
  let n' := if cond then Z.shiftr n c else n in
  let r' := if cond then Z.lor r c else r in
  (n', r', Z.shiftr c 1).

Definition GetLogBaseTwo (n : Z) : Z :=
  let '(_, r, _) := fold_left (fun st m => GetLogBaseTwo_step m st) (rev log_masks) (n, 0, 32) in r.

(** One round of the loop of [CeilLog2]: the state is [(x, y, j)]. *)
Definition CeilLog2_step (t : Z) (st : Z * Z * Z) : Z * Z * Z :=
  let '(x, y, j) := st in
  let k := if Z.land x t =? 0 then 0 else j in
  (Z.shiftr x k, w64 (y + k), Z.shiftr j 1).

Definition CeilLog2 (x : Z) : Z :=
  let y := if Z.land x (w64 (x - 1)) =? 0 then 0 else 1 in
  let '(_, y, _) := fold_left (fun st m => CeilLog2_step m st) (rev log_masks) (x, y, 32) in y.

Definition divRoundUp (x y : Z) : Z := w64 (w64 (x + y) - 1) / y.

Definition getVecProduct (v : list Z) : Z := fold_left (fun p x => w64 (p * x)) v 1.

(** The interface of the generator (class [RandGen] of encutils.hpp): a state
    with the draws [rand64], [rand32] and [rand1]. *)
Class RandGen (G : Type) := {
  rand64 : G -> Z * G;
  rand32 : G -> Z * G;
  rand1 : G -> Z * G;
}.

(** What its clients rely on: draws stay in the type they are returned in. *)
Class RandGenOk (G : Type) `{!RandGen G} : Prop := {
  rand64_width g : in_width 64 (rand64 g).1;
  rand32_width g : in_width 32 (rand32 g).1;
  rand1_bit g : (rand1 g).1 = 0 \/ (rand1 g).1 = 1;
}.

(** [UniformRandom(left, right)], in [left, right]. *)
Definition UniformRandom `{RandGen G} (left right : Z) (g : G) : Z * G :=
  let '(draw, g) := rand64 g in
  (w64 (draw mod (w64 (w64 (right - left) + 1)) + left), g).

Definition UniformRandomBit `{RandGen G} (g : G) : bool * G :=
  let '(b, g) := rand1 g in (negb (b =? 0), g).

(** [std::swap( *(begin + i), *(begin + j) )] *)
Definition swap_at {A} (i j : nat) (l : list A) : list A :=
  match l !! i, l !! j with
  | Some x, Some y => <[j := x]> (<[i := y]> l)
  | _, _ => l
  end.

(** The loop of [fisherYatesShuffle]: [n] counts down from [N - 1] and [end]
    walks down with it, so the slot swapped with is always [n]. *)
Fixpoint fisherYates_loop `{RandGen G} {A} (n : nat) (l : list A) (g : G) : list A * G :=
  match n with
  | O => (l, g)
  | S n' =>
      let '(randPos, g) := UniformRandom 0 (Z.of_nat n) g in
      fisherYates_loop n' (swap_at (Z.to_nat randPos) n l) g
  end.

Definition fisherYatesShuffle `{RandGen G} {A} (l : list A) (g : G) : list A * G :=
  fisherYates_loop (pred (length l)) l g.

(** ** Next power of two *)

(** [smear] doubles the window of higher bits that each bit has absorbed. *)
Definition window_or (m : Z) (k : Z) (x : Z) : Prop :=
  0 <= x /\ forall i, 0 <= i ->
    (Z.testbit x i = true <-> exists j, i <= j < i + k /\ Z.testbit m j = true).

Lemma window_or_start m : 0 <= m -> window_or m 1 m.
Proof.
  intros Hm. split; [done|]. intros i Hi. split.
  - intros H. exists i. split; [lia|done].
  - intros (j & Hj & H). by replace i with j by lia.
Qed.

Lemma window_or_smear m k x :
  0 < k -> window_or m k x -> window_or m (2 * k) (smear k x).
Proof.
  intros Hk [Hx H]. split.
  - apply Z.lor_nonneg. split; [done|]. by apply Z.shiftr_nonneg.
  - intros i Hi. unfold smear. rewrite Z.lor_spec, Z.shiftr_spec, orb_true_iff by lia.
    rewrite !H by lia. split.
    + intros [(j & Hj & ?)|(j & Hj & ?)]; exists j; (split; [lia|done]).
    + intros (j & Hj & ?). destruct (Z.lt_ge_cases j (i + k)).
      * left. exists j. split; [lia|done].
      * right. exists j. split; [lia|done].
Qed.

Lemma window_or_full m k x :
  0 < m < 2 ^ k -> 0 <= k -> window_or m k x -> x = 2 ^ (Z.log2 m + 1) - 1.
Proof.
  intros Hm Hk [Hx H]. pose proof (Z.log2_nonneg m). rewrite Z.sub_1_r, <-Z.ones_equiv. apply Z_bits_inj_nonneg. intros i Hi.
  destruct (Z.le_gt_cases i (Z.log2 m)) as [Hle|Hgt].
  - rewrite Z.ones_spec_low by lia. apply H; [done|]. exists (Z.log2 m).
    assert (Z.log2 m < k) by (apply Z.log2_lt_pow2; lia).
    split; [lia|]. apply Z.bit_log2; lia.
  - rewrite Z.ones_spec_high by lia. apply not_true_iff_false. rewrite H by done.
    intros (j & Hj & Hb). rewrite Z.bits_above_log2 in Hb by lia. done.
Qed.

Lemma GetNextPowerOfTwo_spec n :
  1 <= n <= 2 ^ 63 -> GetNextPowerOfTwo n = 2 ^ (Z.log2_up n).
Proof.
  intros Hn. unfold GetNextPowerOfTwo.
  rewrite (wrap_small 64 (n - 1)) by (unfold in_width; lia).
  destruct (decide (n = 1)) as [->|Hn1]; [done|].
  set (m := n - 1).
  assert (H1 : window_or m 64 (smear 32 (smear 16 (smear 8 (smear 4 (smear 2 (smear 1 m))))))).
  { apply (window_or_smear m 32), (window_or_smear m 16), (window_or_smear m 8),
      (window_or_smear m 4), (window_or_smear m 2), (window_or_smear m 1), window_or_start; lia. }
  apply window_or_full in H1; [|lia|lia]. rewrite H1.
  rewrite Z.log2_up_eqn by lia. rewrite <-Z.sub_1_r. fold m.
  replace (2 ^ (Z.log2 m + 1) - 1 + 1) with (2 ^ (Z.succ (Z.log2 m))) by (rewrite <-Z.add_1_r; lia).
  apply wrap_small. split; [lia|]. apply Z.pow_lt_mono_r; try lia.
  assert (Z.log2 m < 63) by (apply Z.log2_lt_pow2; lia). lia.
Qed.

(** ** Logarithms *)

Lemma land_mask_test c n :
  0 < c -> 0 <= n < 2 ^ (2 * c) ->
  (Z.land n (Z.shiftl (Z.ones c) c) =? 0) = (n <? 2 ^ c).
Proof.
  intros Hc Hn.
  assert (Hl : Z.land n (Z.shiftl (Z.ones c) c) = Z.shiftl (Z.shiftr n c) c).
  { apply Z_bits_inj_nonneg. intros i Hi.
    rewrite Z.land_spec, !Z.shiftl_spec by done.
    destruct (Z.lt_ge_cases i c) as [H|H].
    - rewrite !(Z.testbit_neg_r _ (i - c)) by lia. apply andb_false_r.
    - rewrite Z.shiftr_spec by lia. replace (i - c + c) with i by lia.
      destruct (Z.lt_ge_cases i (2 * c)) as [H'|H'].
      + rewrite Z.ones_spec_low by lia. apply andb_true_r.
      + rewrite (in_width_high_bits (2 * c) n) by (unfold in_width; lia). done. }
  rewrite Hl, Z.shiftr_div_pow2, Z.shiftl_mul_pow2 by lia.
  destruct (Z.ltb_spec n (2 ^ c)) as [H|H].
  - rewrite Z.div_small by lia. done.
  - assert (1 <= n / 2 ^ c) by (apply Z.div_le_lower_bound; lia).
    apply Z.eqb_neq. nia.
Qed.

Lemma log2_shiftr c n : 0 <= c -> 2 ^ c <= n -> Z.log2 n = c + Z.log2 (Z.shiftr n c).
Proof.
  intros Hc Hn. rewrite Z.log2_shiftr by lia.
  assert (c <= Z.log2 n) by (apply Z.log2_le_pow2; lia). lia.
Qed.

(** The invariant of the halving search both logarithms use: the part of the
    argument still to be measured has [2 * c] bits. *)
Lemma halving_round c n :
  0 < c -> 0 < n < 2 ^ (2 * c) ->
  let big := negb (Z.land n (Z.shiftl (Z.ones c) c) =? 0) in
  let n' := if big then Z.shiftr n c else n in
  let k := if big then c else 0 in
  0 < n' < 2 ^ c /\ Z.log2 n = k + Z.log2 n'.
Proof.
  intros Hc Hn. rewrite land_mask_test by lia.
  destruct (Z.ltb_spec n (2 ^ c)) as [H|H]; simpl; [lia|].
  split; [|by apply log2_shiftr; lia].
  rewrite Z.shiftr_div_pow2 by lia. split.
  - apply Z.div_str_pos. lia.
  - apply Z.div_lt_upper_bound; [lia|]. rewrite <-Z.pow_add_r by lia.
    replace (c + c) with (2 * c) by lia. lia.
Qed.

Lemma lor_disjoint_add e r c :
  0 <= e -> c = 2 ^ e -> 0 <= r -> (2 * c | r) -> Z.lor r c = r + c.
Proof.
  intros He -> Hr [q ->].
  assert (Hl : Z.land (q * (2 * 2 ^ e)) (2 ^ e) = 0).
  { apply Z_bits_inj_nonneg. intros i Hi. rewrite Z.bits_0, Z.land_spec.
    replace (q * (2 * 2 ^ e)) with (q * 2 ^ (e + 1)) by (rewrite Z.pow_add_r by lia; lia).
    destruct (Z.eq_dec i e) as [->|Hne].
    - by rewrite Z.mul_pow2_bits_low by lia.
    - rewrite Z.pow2_bits_false by lia. apply andb_false_r. }
  by rewrite Z.add_nocarry_lxor, Z.lxor_lor.
Qed.

Lemma GetLogBaseTwo_round e c m n r :
  0 <= e -> c = 2 ^ e -> m = Z.shiftl (Z.ones c) c ->
  0 < n < 2 ^ (2 * c) -> 0 <= r -> (2 * c | r) ->
  exists n' r', GetLogBaseTwo_step m (n, r, c) = (n', r', Z.shiftr c 1) /\
    0 < n' < 2 ^ c /\ 0 <= r' /\ (c | r') /\ r + Z.log2 n = r' + Z.log2 n'.
Proof.
  intros He Hc -> Hn Hr Hd.
  destruct (halving_round c n ltac:(lia) Hn) as [H1 H2].
  assert (Hd' : (c | r)) by (destruct Hd as [q ->]; exists (q * 2); lia).
  unfold GetLogBaseTwo_step.
  destruct (negb (Z.land n (Z.shiftl (Z.ones c) c) =? 0)).
  - do 2 eexists. split; [reflexivity|]. rewrite (lor_disjoint_add e) by (done || lia).
    repeat split; try lia. apply Z.divide_add_r; [done|apply Z.divide_refl].
  - do 2 eexists. split; [reflexivity|]. repeat split; try lia. done.
Qed.

Ltac log_round e :=
  match goal with
  | |- context [GetLogBaseTwo_step ?m (?n, ?r, ?c)] =>
      let E := fresh "E" in let n' := fresh "n" in let r' := fresh "r" in
      destruct (GetLogBaseTwo_round e c m n r ltac:(lia) eq_refl eq_refl
                  ltac:(assumption) ltac:(assumption) ltac:(assumption))
        as (n' & r' & E & ? & ? & ? & ?);
      rewrite E; clear E
  end.

Lemma GetLogBaseTwo_spec n : 0 < n < 2 ^ 64 -> GetLogBaseTwo n = Z.log2 n.
Proof.
  intros Hn. unfold GetLogBaseTwo, log_masks. cbn [rev app fold_left].
  assert (0 <= 0) by lia. assert (64 | 0) by (exists 0; lia).
  log_round 5. log_round 4. log_round 3. log_round 2. log_round 1. log_round 0.
  match goal with H : 0 < ?k < 2 ^ ?c |- _ =>
    change (2 ^ c) with 2 in H; assert (k = 1) as -> by lia end.
  change (Z.log2 1) with 0 in *. lia.
Qed.

(** [x & (x - 1)] is zero exactly for powers of two. *)
Lemma land_pred_pow2 x : 0 < x -> (Z.land x (x - 1) =? 0) = (x =? 2 ^ Z.log2 x).
Proof.
  intros Hx. destruct (Z.log2_spec x Hx) as [Hl Hu]. rewrite Z.pow_succ_r in Hu by apply Z.log2_nonneg.
  assert (0 <= Z.log2 x) by apply Z.log2_nonneg. remember (Z.log2 x) as k eqn:Hk.
  destruct (Z.eqb_spec x (2 ^ k)) as [He|Hne].
  - rewrite He. rewrite Z.sub_1_r, <-Z.ones_equiv, Z.land_ones, Z.mod_same by lia. done.
  - apply Z.eqb_neq. intros H0.
    assert (Hb : Z.testbit (Z.land x (x - 1)) k = true).
    { rewrite Z.land_spec. apply andb_true_iff. split; [subst k; by apply Z.bit_log2|].
      replace k with (Z.log2 (x - 1)); [apply Z.bit_log2; lia|].
      apply Z.log2_unique; [done|]. rewrite Z.pow_succ_r by done. lia. }
    rewrite H0, Z.bits_0 in Hb. done.
Qed.

Lemma CeilLog2_round e c m x y :
  0 <= e -> c = 2 ^ e -> m = Z.shiftl (Z.ones c) c ->
  0 < x < 2 ^ (2 * c) -> 0 <= y < 2 ^ 32 - c ->
  exists x' y', CeilLog2_step m (x, y, c) = (x', y', Z.shiftr c 1) /\
    0 < x' < 2 ^ c /\ 0 <= y' <= y + c /\ y + Z.log2 x = y' + Z.log2 x'.
Proof.
  intros He Hc -> Hx Hy.
  destruct (halving_round c x ltac:(lia) Hx) as [H1 H2].
  unfold CeilLog2_step.
  destruct (Z.land x (Z.shiftl (Z.ones c) c) =? 0); simpl in *;
    do 2 eexists; (split; [reflexivity|]); rewrite wrap_small by (unfold in_width; lia).
  - rewrite Z.shiftr_0_r. lia.
  - lia.
Qed.

Ltac ceil_round e :=
  match goal with
  | |- context [CeilLog2_step ?m (?x, ?y, ?c)] =>
      let E := fresh "E" in let x' := fresh "x" in let y' := fresh "y" in
      destruct (CeilLog2_round e c m x y ltac:(lia) eq_refl eq_refl
                  ltac:(assumption) ltac:(change c with (2 ^ e); lia))
        as (x' & y' & E & ? & ? & ?);
      rewrite E; clear E;
      match goal with H : context [y + c] |- _ => change c with (2 ^ e) in H end
  end.

Lemma CeilLog2_spec x : 0 < x < 2 ^ 64 -> CeilLog2 x = Z.log2_up x.
Proof.
  intros Hx. unfold CeilLog2, log_masks. cbn [rev app fold_left].
  rewrite (wrap_small 64 (x - 1)), land_pred_pow2 by (unfold in_width; lia).
  assert (Hup : Z.log2_up x = (if x =? 2 ^ Z.log2 x then 0 else 1) + Z.log2 x).
  { destruct (Z.eqb_spec x (2 ^ Z.log2 x)) as [He|Hne].
    - rewrite He at 1. rewrite Z.log2_up_pow2 by apply Z.log2_nonneg. done.
    - pose proof (Z.le_log2_up_succ_log2 x).
      destruct (decide (x = 1)) as [->|]; [done|].
      destruct (Z.lt_ge_cases (Z.log2 x) (Z.log2_up x)) as [|Hge]; [lia|].
      destruct (Z.log2_up_spec x ltac:(lia)) as [_ Hle].
      destruct (Z.log2_spec x ltac:(lia)) as [Hl _].
      assert (2 ^ Z.log2_up x <= 2 ^ Z.log2 x) by (apply Z.pow_le_mono_r; lia). lia. }
  set (y := if x =? 2 ^ Z.log2 x then 0 else 1) in *.
  assert (0 <= y <= 1) by (subst y; destruct (_ =? _); lia).
  ceil_round 5. ceil_round 4. ceil_round 3. ceil_round 2. ceil_round 1. ceil_round 0.
  match goal with H : 0 < ?k < 2 ^ ?c |- _ =>
    change (2 ^ c) with 2 in H; assert (k = 1) as -> by lia end.
  change (Z.log2 1) with 0 in *. lia.
Qed.

Lemma divRoundUp_spec x y :
  0 <= x -> 0 < y -> x + y <= 2 ^ 64 ->
  x <= y * divRoundUp x y < x + y.
Proof.
  intros Hx Hy Hs. unfold divRoundUp.
  assert (wrap 64 (wrap 64 (x + y) - 1) = x + y - 1) as ->.
  { unfold wrap. destruct (decide (x + y = 2 ^ 64)) as [->|].
    - rewrite Z.mod_same by lia. done.
    - rewrite (Z.mod_small (x + y)), Z.mod_small by lia. done. }
  pose proof (Z.div_mod (x + y - 1) y ltac:(lia)).
  pose proof (Z.mod_pos_bound (x + y - 1) y Hy). lia.
Qed.

(** ** Random selection *)

Lemma UniformRandom_range `{RandGenOk G} left right (g : G) :
  0 <= left <= right -> right < 2 ^ 64 -> right - left < 2 ^ 64 - 1 ->
  left <= (UniformRandom left right g).1 <= right.
Proof.
  intros H1 H2 H3. unfold UniformRandom. pose proof (rand64_width g) as Hd.
  destruct (rand64 g) as [draw g']. simpl in *.
  rewrite (wrap_small 64 (right - left)) by (unfold in_width; lia).
  rewrite (wrap_small 64 (right - left + 1)) by (unfold in_width; lia).
  pose proof (Z.mod_pos_bound draw (right - left + 1) ltac:(lia)).
  rewrite wrap_small by (unfold in_width; lia). lia.
Qed.

Section swap_at.
Context {A : Type}.
Implicit Types l : list A.

Lemma swap_at_length i j l : length (swap_at i j l) = length l.
Proof.
  unfold swap_at. destruct (l !! i), (l !! j); rewrite ?length_insert; done.
Qed.

Lemma swap_at_perm i j l : swap_at i j l ≡ₚ l.
Proof.
  unfold swap_at. destruct (l !! i) as [x|] eqn:Hi; [|done].
  destruct (l !! j) as [y|] eqn:Hj; [|done].
  apply Permutation_inj. rewrite !length_insert. split; [done|].
  exists (fun k => if decide (k = j) then i else if decide (k = i) then j else k).
  assert (i < length l)%nat by (eapply lookup_lt_Some; eauto).
  assert (j < length l)%nat by (eapply lookup_lt_Some; eauto).
  split.
  - intros a b. repeat case_decide; congruence.
  - intros k. repeat case_decide; subst.
    + rewrite list_lookup_insert_eq by (rewrite length_insert; lia). done.
    + rewrite list_lookup_insert_ne, list_lookup_insert_eq by (done || lia). done.
    + rewrite !list_lookup_insert_ne by done. done.
Qed.
End swap_at.

Lemma fisherYatesShuffle_perm `{RandGen G} {A} (l : list A) (g : G) :
  (fisherYatesShuffle l g).1 ≡ₚ l.
Proof.
  unfold fisherYatesShuffle. generalize (pred (length l)) as n. intros n. revert l g.
  induction n as [|n IH]; intros l g; cbn [fisherYates_loop]; [done|].
  destruct (UniformRandom 0 (Z.of_nat (S n)) g) as [p g']. by rewrite IH, swap_at_perm.
Qed.
