(* ===== verification/Bitonic.v ===== *)
(** * Bitonic sort (osort/external_memory/algorithm/bitonic.hpp)

    The sorting network the library falls back to for small inputs and inside
    every bucket.  A range [begin, end) is a list; a call on a sub-range works
    on the corresponding segment.  The recursion is bounded by the length of
    the range, which the theorems show to be enough. *)
From S2P Require Import Prelude Utils.

(** ** Definitions *)

(** The comparator step: [condSwap(dire != cmp( *l, *r ), *l, *r)]. *)
Definition cmpFlag {A} (cmp : A -> A -> bool) (dire : bool) (_ : nat) (x y : A) : bool :=
  xorb dire (cmp x y).

Fixpoint BitonicMergePow2_fuel {A} (fuel : nat) (cmp : A -> A -> bool) (dire : bool)
    (l : list A) : list A :=
  match fuel with
  | O => l
  | S fuel =>
      let size := length l in
      if 1 <? size then
        let halfSize := size / 2 in
        let lr := condSwapLoop (cmpFlag cmp dire) 0 (take halfSize l) (drop halfSize l) in
        BitonicMergePow2_fuel fuel cmp dire lr.1 ++ BitonicMergePow2_fuel fuel cmp dire lr.2
      else l
  end.

Definition BitonicMergePow2 {A} (cmp : A -> A -> bool) (dire : bool) (l : list A) : list A :=
  BitonicMergePow2_fuel (length l) cmp dire l.

(** The size the merge splits at: [GetNextPowerOfTwo(size) / 2]. *)
Definition mergeHalf (size : nat) : nat :=
  Z.to_nat (GetNextPowerOfTwo (Z.of_nat size) / 2).

Fixpoint BitonicMerge_fuel {A} (fuel : nat) (cmp : A -> A -> bool) (dire : bool)
    (l : list A) : list A :=
  match fuel with
  | O => l
  | S fuel =>
      let size := length l in
      if 1 <? size then
        let halfSize := mergeHalf size in
        let lr := condSwapLoop (cmpFlag cmp dire) 0 (take halfSize l) (drop halfSize l) in
        BitonicMergePow2 cmp dire lr.1 ++ BitonicMerge_fuel fuel cmp dire lr.2
      else l
  end.

Definition BitonicMerge {A} (cmp : A -> A -> bool) (dire : bool) (l : list A) : list A :=
  BitonicMerge_fuel (length l) cmp dire l.

Fixpoint BitonicSort_fuel {A} (fuel : nat) (cmp : A -> A -> bool) (dire : bool)
    (l : list A) : list A :=
  match fuel with
  | O => l
  | S fuel =>
      let size := length l in
      if 1 <? size then
        let halfSize := size / 2 in
        BitonicMerge cmp dire
          (BitonicSort_fuel fuel cmp (negb dire) (take halfSize l) ++
           BitonicSort_fuel fuel cmp dire (drop halfSize l))
      else l
  end.

Definition BitonicSort_dire {A} (cmp : A -> A -> bool) (dire : bool) (l : list A) : list A :=
  BitonicSort_fuel (length l) cmp dire l.

Definition BitonicSort {A} (cmp : A -> A -> bool) (l : list A) : list A :=
  BitonicSort_dire cmp true l.

(** [BitonicShuffle]: tag every element with a fresh random word, sort by tag,
    and drop the tags.  Both branches of the source (in-memory and external
    vector) compute this. *)
Fixpoint tagAll `{RandGen G} {A} (l : list A) (g : G) : list (Z * A) * G :=
  match l with
  | [] => ([], g)
  | x :: l =>
      let '(tag, g) := rand64 g in
      let '(l', g) := tagAll l g in
      ((tag, x) :: l', g)
  end.

Definition BitonicShuffle `{RandGen G} {A} (l : list A) (g : G) : list A * G :=
  let '(tagged, g) := tagAll l g in
  (snd <$> BitonicSort (fun a b => (a.1 <? b.1)%Z) tagged, g).

(** What the library's comparison functions provide: a strict weak order. *)
Class StrictWeakOrder {A} (cmp : A -> A -> bool) : Prop := {
  swo_asym a b : cmp a b = true -> cmp b a = false;
  swo_negtrans a b c : cmp a b = false -> cmp b c = false -> cmp a c = false;
}.

(** [a] may stand before [b]. *)
Definition cmp_le {A} (cmp : A -> A -> bool) (a b : A) : Prop := cmp b a = false.

(** ** Permutation *)

Section perm.
Context {A : Type} (cmp : A -> A -> bool).

Lemma BitonicMergePow2_fuel_perm fuel : forall dire l,
  BitonicMergePow2_fuel fuel cmp dire l ≡ₚ l.
Proof.
  induction fuel as [|fuel IH]; intros dire l; simpl; [done|].
  destruct (1 <? length l); [|done].
  by rewrite !IH, condSwapLoop_perm, take_drop.
Qed.

Lemma BitonicMerge_fuel_perm fuel : forall dire l,
  BitonicMerge_fuel fuel cmp dire l ≡ₚ l.
Proof.
  induction fuel as [|fuel IH]; intros dire l; cbn [BitonicMerge_fuel]; [done|].
  destruct (1 <? length l); [|done]. unfold BitonicMergePow2.
  by rewrite IH, BitonicMergePow2_fuel_perm, condSwapLoop_perm, take_drop.
Qed.

Lemma BitonicSort_fuel_perm fuel : forall dire l,
  BitonicSort_fuel fuel cmp dire l ≡ₚ l.
Proof.
  induction fuel as [|fuel IH]; intros dire l; cbn [BitonicSort_fuel]; [done|].
  destruct (1 <? length l); [|done]. unfold BitonicMerge.
  by rewrite BitonicMerge_fuel_perm, !IH, take_drop.
Qed.

Lemma BitonicSort_fuel_length fuel dire l :
  length (BitonicSort_fuel fuel cmp dire l) = length l.
Proof. apply Permutation_length, BitonicSort_fuel_perm. Qed.

Lemma BitonicSort_dire_perm dire l : BitonicSort_dire cmp dire l ≡ₚ l.
Proof. apply BitonicSort_fuel_perm. Qed.
End perm.

(** ** The network commutes with maps that respect its comparators *)

Section transport.
Context {A B : Type} (f : A -> B) (cmp : A -> A -> bool) (cmp' : B -> B -> bool).
Context (g : bool -> bool) (Hg : forall d, g (negb d) = negb (g d)).
Hypothesis Hce : forall d x y,
  prod_map f f (condSwap (xorb d (cmp x y)) x y)
  = condSwap (xorb (g d) (cmp' (f x) (f y))) (f x) (f y).

Lemma layer_fmap d l r :
  f <$> (condSwapLoop (cmpFlag cmp d) 0 l r).1
    = (condSwapLoop (cmpFlag cmp' (g d)) 0 (f <$> l) (f <$> r)).1 /\
  f <$> (condSwapLoop (cmpFlag cmp d) 0 l r).2
    = (condSwapLoop (cmpFlag cmp' (g d)) 0 (f <$> l) (f <$> r)).2.
Proof using Hce.
  rewrite <-(condSwapLoop_fmap f (cmpFlag cmp d)) by (intros; apply Hce).
  by destruct (condSwapLoop _ 0 l r).
Qed.

Lemma BitonicMergePow2_fuel_fmap fuel : forall d l,
  f <$> BitonicMergePow2_fuel fuel cmp d l
  = BitonicMergePow2_fuel fuel cmp' (g d) (f <$> l).
Proof using Hce.
  induction fuel as [|fuel IH]; intros d l; cbn [BitonicMergePow2_fuel]; [done|].
  rewrite length_fmap. destruct (1 <? length l); [|done].
  rewrite fmap_app, !IH. destruct (layer_fmap d (take (length l / 2) l) (drop (length l / 2) l))
    as [-> ->]. by rewrite fmap_take, fmap_drop.
Qed.

Lemma BitonicMerge_fuel_fmap fuel : forall d l,
  f <$> BitonicMerge_fuel fuel cmp d l = BitonicMerge_fuel fuel cmp' (g d) (f <$> l).
Proof using Hce.
  induction fuel as [|fuel IH]; intros d l; cbn [BitonicMerge_fuel]; [done|].
  rewrite length_fmap. destruct (1 <? length l); [|done].
  unfold BitonicMergePow2.
  rewrite fmap_app, IH, BitonicMergePow2_fuel_fmap.
  set (h := mergeHalf (length l)).
  destruct (layer_fmap d (take h l) (drop h l)) as [E1 E2].
  rewrite <-(length_fmap f), E1, E2. by rewrite fmap_take, fmap_drop.
Qed.

Lemma BitonicSort_fuel_fmap fuel : forall d l,
  f <$> BitonicSort_fuel fuel cmp d l = BitonicSort_fuel fuel cmp' (g d) (f <$> l).
Proof using Hce Hg.
  induction fuel as [|fuel IH]; intros d l; cbn [BitonicSort_fuel]; [done|].
  rewrite length_fmap. destruct (1 <? length l); [|done].
  unfold BitonicMerge. rewrite BitonicMerge_fuel_fmap, fmap_app, !IH, Hg, fmap_take, fmap_drop.
  f_equal. rewrite <-!fmap_take, <-!fmap_drop, <-Hg, <-!IH, <-fmap_app, length_fmap. done.
Qed.
End transport.

(** ** Zero-one sequences *)

(** Membership in an interval of positions, or in its complement. *)
Definition ind (p : bool) (a b i : nat) : bool :=
  if p then negb ((a <=? i) && (i <? b)) else (a <=? i) && (i <? b).

Definition bool_lt (x y : bool) : bool := negb x && y.
Definition bool_le (x y : bool) : Prop := x = true -> y = true.

(** A 0-1 list is bitonic when its ones (or its zeros) form an interval; it is
    a valley when its zeros do. *)
Definition bitonic01 (l : list bool) : Prop :=
  exists p a b, forall i x, l !! i = Some x -> x = ind p a b i.
Definition valley01 (l : list bool) : Prop :=
  exists a b, forall i x, l !! i = Some x -> x = ind true a b i.

Lemma half_clean_inside a b h :
  exists p1 a1 b1 a2 b2,
    (forall i, i < h -> ind true a b i && ind true a b (i + h) = ind p1 a1 b1 i) /\
    (forall i, i < h -> ind true a b i || ind true a b (i + h) = ind true a2 b2 i) /\
    ((forall i, i < h -> ind true a b i && ind true a b (i + h) = false) \/
     (forall i, i < h -> ind true a b i || ind true a b (i + h) = true)).
Proof.
  unfold ind. destruct (Nat.le_gt_cases h a), (Nat.le_gt_cases b h).
  - exists true, (a - h), (b - h), 0, 0. repeat split; [intros; lia..|right; intros; lia].
  - exists true, (a - h), (b - h), 0, 0. repeat split; [intros; lia..|right; intros; lia].
  - exists true, a, b, 0, 0. repeat split; [intros; lia..|right; intros; lia].
  - destruct (Nat.le_gt_cases a (b - h)).
    + exists true, 0, h, a, (b - h). repeat split; [intros; lia..|left; intros; lia].
    + exists false, (b - h), a, a, (b - h). repeat split; [intros; lia..|right; intros; lia].
Qed.

Lemma half_clean_outside a b h :
  exists a1 b1 p2 a2 b2,
    (forall i, i < h -> ind false a b i && ind false a b (i + h) = ind false a1 b1 i) /\
    (forall i, i < h -> ind false a b i || ind false a b (i + h) = ind p2 a2 b2 i) /\
    ((forall i, i < h -> ind false a b i && ind false a b (i + h) = false) \/
     (forall i, i < h -> ind false a b i || ind false a b (i + h) = true)).
Proof.
  unfold ind. destruct (Nat.le_gt_cases h a), (Nat.le_gt_cases b h).
  - exists 0, 0, false, (a - h), (b - h). repeat split; [intros; lia..|left; intros; lia].
  - exists 0, 0, false, (a - h), (b - h). repeat split; [intros; lia..|left; intros; lia].
  - exists 0, 0, false, a, b. repeat split; [intros; lia..|left; intros; lia].
  - destruct (Nat.le_gt_cases a (b - h)).
    + exists a, (b - h), false, 0, h. repeat split; [intros; lia..|right; intros; lia].
    + exists a, (b - h), true, (b - h), a. repeat split; [intros; lia..|left; intros; lia].
Qed.

(** One ascending comparator layer on 0-1 values is pointwise and / or. *)
Lemma layer01_lookup (l r : list bool) i x y :
  l !! i = Some x -> r !! i = Some y ->
  (condSwapLoop (cmpFlag bool_lt true) 0 l r).1 !! i = Some (x && y) /\
  (condSwapLoop (cmpFlag bool_lt true) 0 l r).2 !! i = Some (x || y).
Proof.
  intros Hx Hy. destruct (condSwapLoop_lookup (cmpFlag bool_lt true) l 0 r i x y Hx Hy) as [-> ->].
  by destruct x, y.
Qed.

(** The layer over both halves of [l], read by position: the left half takes
    the minima (with ones assumed past the end), the right half the maxima. *)
Lemma layer01_split (F : nat -> bool) (l : list bool) h :
  (forall i x, l !! i = Some x -> x = F i) ->
  (forall i, length l <= i -> F i = true) ->
  length l <= 2 * h ->
  let lr := condSwapLoop (cmpFlag bool_lt true) 0 (take h l) (drop h l) in
  (forall i x, lr.1 !! i = Some x -> i < h /\ x = F i && F (i + h)) /\
  (forall i x, lr.2 !! i = Some x -> i < h /\ x = F i || F (i + h)).
Proof.
  intros HF Hout Hlen lr. subst lr.
  destruct (condSwapLoop_length (cmpFlag bool_lt true) (take h l) 0 (drop h l)) as [Hl1 Hl2].
  rewrite length_take in Hl1. rewrite length_drop in Hl2.
  split; intros i x Hx; pose proof (lookup_lt_Some _ _ _ Hx) as Hi.
  - assert (Hi' : i < length l) by lia. apply lookup_lt_is_Some in Hi' as [a Ha].
    assert (Ht : take h l !! i = Some a) by (rewrite lookup_take_lt by lia; done).
    destruct (decide (i + h < length l)) as [Hd|Hd].
    + destruct (lookup_lt_is_Some_2 l (i + h) Hd) as [b Hb].
      assert (Hdr : drop h l !! i = Some b) by (rewrite lookup_drop, Nat.add_comm; done).
      destruct (layer01_lookup _ _ _ _ _ Ht Hdr) as [E _]. rewrite E in Hx.
      apply HF in Ha, Hb. simplify_eq. split; [lia|done].
    + rewrite condSwapLoop_lookup_rest in Hx by (rewrite length_drop; lia).
      rewrite Ht in Hx. apply HF in Ha. simplify_eq.
      split; [lia|]. rewrite (Hout (i + h)) by lia. by rewrite andb_true_r.
  - destruct (lookup_lt_is_Some_2 l (i + h) ltac:(lia)) as [b Hb].
    destruct (lookup_lt_is_Some_2 l i ltac:(lia)) as [a Ha].
    assert (Ht : take h l !! i = Some a) by (rewrite lookup_take_lt by lia; done).
    assert (Hdr : drop h l !! i = Some b) by (rewrite lookup_drop, Nat.add_comm; done).
    destruct (layer01_lookup _ _ _ _ _ Ht Hdr) as [_ E]. rewrite E in Hx.
    apply HF in Ha, Hb. simplify_eq. split; [lia|done].
Qed.

(** ** Sorting 0-1 sequences *)

Lemma sorted01_app (l r l' r' : list bool) :
  l' ≡ₚ l -> r' ≡ₚ r ->
  (Forall (.= false) l \/ Forall (.= true) r) ->
  StronglySorted bool_le l' -> StronglySorted bool_le r' -> StronglySorted bool_le (l' ++ r').
Proof.
  intros Hl Hr Hc Sl Sr. apply StronglySorted_app_iff. repeat split; [done..|].
  intros x y Hx Hy. rewrite Hl in Hx. rewrite Hr in Hy. rewrite !Forall_forall in Hc.
  destruct Hc as [Hc|Hc]; [by rewrite (Hc x)|]. intros _. by apply Hc.
Qed.

Lemma bitonic_half_clean (l : list bool) h :
  length l = 2 * h -> bitonic01 l ->
  let lr := condSwapLoop (cmpFlag bool_lt true) 0 (take h l) (drop h l) in
  bitonic01 lr.1 /\ bitonic01 lr.2 /\ (Forall (.= false) lr.1 \/ Forall (.= true) lr.2).
Proof.
  intros Hlen (p & a & b & HF) lr.
  set (F := fun i => if i <? 2 * h then ind p a b i else true).
  assert (HS := layer01_split F l h). cbv zeta in HS. fold lr in HS.
  destruct HS as [H1 H2]; [ | |lia|].
  { intros i x Hx. pose proof (lookup_lt_Some _ _ _ Hx). subst F; cbv beta.
    rewrite (proj2 (Nat.ltb_lt i (2 * h))) by lia. by apply HF. }
  { intros i Hi. subst F; cbv beta. by rewrite (proj2 (Nat.ltb_ge i (2 * h))) by lia. }
  assert (HFF : forall i, i < h -> F i = ind p a b i /\ F (i + h) = ind p a b (i + h)).
  { intros i Hi. subst F; cbv beta.
    rewrite (proj2 (Nat.ltb_lt i (2 * h))), (proj2 (Nat.ltb_lt (i + h) (2 * h))) by lia. done. }
  assert (exists p1 a1 b1 p2 a2 b2,
    (forall i, i < h -> ind p a b i && ind p a b (i + h) = ind p1 a1 b1 i) /\
    (forall i, i < h -> ind p a b i || ind p a b (i + h) = ind p2 a2 b2 i) /\
    ((forall i, i < h -> ind p a b i && ind p a b (i + h) = false) \/
     (forall i, i < h -> ind p a b i || ind p a b (i + h) = true)))
    as (p1 & a1 & b1 & p2 & a2 & b2 & C1 & C2 & C3).
  { destruct p.
    - destruct (half_clean_inside a b h) as (p1 & a1 & b1 & a2 & b2 & ?). by exists p1, a1, b1, true, a2, b2.
    - destruct (half_clean_outside a b h) as (a1 & b1 & p2 & a2 & b2 & ?). by exists false, a1, b1, p2, a2, b2. }
  repeat split.
  - exists p1, a1, b1. intros i x Hx. apply H1 in Hx as [Hi ->]. destruct (HFF i Hi) as [-> ->]. auto.
  - exists p2, a2, b2. intros i x Hx. apply H2 in Hx as [Hi ->]. destruct (HFF i Hi) as [-> ->]. auto.
  - destruct C3 as [C3|C3]; [left|right]; apply Forall_lookup; intros i x Hx;
      [apply H1 in Hx as [Hi ->]|apply H2 in Hx as [Hi ->]]; destruct (HFF i Hi) as [-> ->]; auto.
Qed.

Lemma valley_half_clean (l : list bool) h :
  h <= length l -> length l <= 2 * h -> valley01 l ->
  let lr := condSwapLoop (cmpFlag bool_lt true) 0 (take h l) (drop h l) in
  bitonic01 lr.1 /\ valley01 lr.2 /\ (Forall (.= false) lr.1 \/ Forall (.= true) lr.2).
Proof.
  intros Hlo Hhi (a & b & HF) lr.
  set (b' := b `min` length l).
  assert (HS := layer01_split (ind true a b') l h). cbv zeta in HS. fold lr in HS.
  destruct HS as [H1 H2]; [ | |lia|].
  { intros i x Hx. pose proof (lookup_lt_Some _ _ _ Hx). rewrite (HF i x Hx).
    unfold ind. lia. }
  { intros i Hi. unfold ind. lia. }
  destruct (half_clean_inside a b' h) as (p1 & a1 & b1 & a2 & b2 & C1 & C2 & C3).
  repeat split.
  - exists p1, a1, b1. intros i x Hx. apply H1 in Hx as [Hi ->]. auto.
  - exists a2, b2. intros i x Hx. apply H2 in Hx as [Hi ->]. auto.
  - destruct C3 as [C3|C3]; [left|right]; apply Forall_lookup; intros i x Hx;
      [apply H1 in Hx as [Hi ->]|apply H2 in Hx as [Hi ->]]; auto.
Qed.

Lemma sorted_short {A} (R : A -> A -> Prop) (l : list A) :
  length l <= 1 -> StronglySorted R l.
Proof. destruct l as [|x [|y l]]; simpl; [|repeat constructor|lia]; constructor. Qed.

Lemma BitonicMergePow2_sorted01 m : forall fuel l,
  length l = 2 ^ m -> length l <= fuel -> bitonic01 l ->
  StronglySorted bool_le (BitonicMergePow2_fuel fuel bool_lt true l).
Proof.
  induction m as [|m IH]; intros fuel l Hlen Hfuel Hb.
  - destruct fuel as [|fuel]; cbn [BitonicMergePow2_fuel]; rewrite ?Hlen;
      apply sorted_short; simpl in *; lia.
  - rewrite Nat.pow_succ_r' in Hlen. pose proof (Nat.pow_nonzero 2 m ltac:(lia)).
    destruct fuel as [|fuel]; [lia|]. cbn [BitonicMergePow2_fuel].
    rewrite (proj2 (Nat.ltb_lt 1 (length l))) by lia.
    assert (length l / 2 = 2 ^ m) as -> by (rewrite Hlen, Nat.mul_comm, Nat.div_mul; lia).
    destruct (bitonic_half_clean l (2 ^ m) Hlen Hb) as (B1 & B2 & B3).
    destruct (condSwapLoop_length (cmpFlag bool_lt true) (take (2 ^ m) l) 0 (drop (2 ^ m) l)) as [L1 L2].
    rewrite length_take in L1. rewrite length_drop in L2.
    eapply sorted01_app; [apply BitonicMergePow2_fuel_perm..|exact B3| |];
      apply IH; [lia|lia|done|lia|lia|done].
Qed.

Lemma mergeHalf_spec n : 1 < n -> (Z.of_nat n <= 2 ^ 63)%Z ->
  exists m, mergeHalf n = 2 ^ m /\ 2 ^ m < n <= 2 * 2 ^ m.
Proof.
  intros Hn Hmax. unfold mergeHalf. rewrite GetNextPowerOfTwo_spec by lia.
  assert (Hup := Z.log2_up_spec (Z.of_nat n) ltac:(lia)).
  assert (0 < Z.log2_up (Z.of_nat n))%Z by (apply Z.log2_up_pos; lia).
  set (u := Z.log2_up (Z.of_nat n)) in *.
  exists (Z.to_nat (Z.pred u)).
  assert (Hp : (2 ^ u = 2 * 2 ^ Z.pred u)%Z) by (rewrite <-Z.pow_succ_r by lia; f_equal; lia).
  assert (Hq : Z.of_nat (2 ^ Z.to_nat (Z.pred u)) = (2 ^ Z.pred u)%Z)
    by (rewrite Nat2Z.inj_pow, Z2Nat.id by lia; done).
  rewrite Hp, Z.mul_comm, Z.div_mul by lia. split; [|lia].
  apply Nat2Z.inj. rewrite Hq, Z2Nat.id; lia.
Qed.

Lemma BitonicMerge_sorted01 fuel : forall l,
  (Z.of_nat (length l) <= 2 ^ 63)%Z -> length l <= fuel -> valley01 l ->
  StronglySorted bool_le (BitonicMerge_fuel fuel bool_lt true l).
Proof.
  induction fuel as [|fuel IH]; intros l Hmax Hfuel Hv; cbn [BitonicMerge_fuel];
    [apply sorted_short; lia|].
  destruct (Nat.ltb_spec 1 (length l)) as [Hl|Hl]; [|by apply sorted_short].
  destruct (mergeHalf_spec (length l) Hl Hmax) as (m & -> & Hm).
  destruct (valley_half_clean l (2 ^ m) ltac:(lia) ltac:(lia) Hv) as (B1 & B2 & B3).
  destruct (condSwapLoop_length (cmpFlag bool_lt true) (take (2 ^ m) l) 0 (drop (2 ^ m) l)) as [L1 L2].
  rewrite length_take in L1. rewrite length_drop in L2.
  pose proof (Nat.pow_nonzero 2 m ltac:(lia)).
  eapply sorted01_app; [apply BitonicMergePow2_fuel_perm|apply BitonicMerge_fuel_perm|exact B3| |].
  - apply (BitonicMergePow2_sorted01 m); [lia|lia|done].
  - apply IH; [lia|lia|done].
Qed.

(** Sorted 0-1 lists are a block of zeros followed by a block of ones. *)
Lemma sorted01_shape (l : list bool) :
  StronglySorted bool_le l -> exists c, forall i x, l !! i = Some x -> x = negb (i <? c).
Proof.
  induction 1 as [|x l Hs (c & IH) Hf]; [by exists 0|].
  destruct x.
  - exists 0. intros [|i] y Hy; simplify_eq/=; [done|].
    rewrite Forall_lookup in Hf. by apply (Hf i y Hy).
  - exists (S c). intros [|i] y Hy; simplify_eq/=; [done|]. rewrite (IH i y Hy). lia.
Qed.

Lemma valley_of_sorted_halves (l r : list bool) :
  StronglySorted bool_le (negb <$> l) -> StronglySorted bool_le r -> valley01 (l ++ r).
Proof.
  intros (c & Hc)%sorted01_shape (d & Hd)%sorted01_shape.
  exists (c `min` length l), (length l + d). intros i x [Hx|[Hlen Hx]]%lookup_app_Some.
  - pose proof (lookup_lt_Some _ _ _ Hx).
    assert (negb x = negb (i <? c)) by (apply Hc; rewrite list_lookup_fmap, Hx; done).
    unfold ind. lia.
  - apply Hd in Hx as ->. unfold ind. lia.
Qed.

(** Sorting in the other direction is sorting the complements. *)
Lemma BitonicSort_fuel_negb fuel d (l : list bool) :
  negb <$> BitonicSort_fuel fuel bool_lt d l = BitonicSort_fuel fuel bool_lt (negb d) (negb <$> l).
Proof.
  apply (BitonicSort_fuel_fmap negb bool_lt bool_lt negb); [done|].
  by intros [] [] [].
Qed.

Lemma BitonicSort_sorted01 fuel : forall l,
  (Z.of_nat (length l) <= 2 ^ 63)%Z -> length l <= fuel ->
  StronglySorted bool_le (BitonicSort_fuel fuel bool_lt true l).
Proof.
  induction fuel as [|fuel IH]; intros l Hmax Hfuel; cbn [BitonicSort_fuel];
    [apply sorted_short; lia|].
  destruct (Nat.ltb_spec 1 (length l)) as [Hl|Hl]; [|by apply sorted_short].
  assert (length l / 2 < length l) by (apply Nat.div_lt; lia).
  assert (0 < length l / 2) by (apply Nat.div_str_pos; lia).
  apply BitonicMerge_sorted01; [|done|].
  - rewrite length_app.
    rewrite !BitonicSort_fuel_length, length_take, length_drop. lia.
  - apply valley_of_sorted_halves.
    + rewrite BitonicSort_fuel_negb. apply IH; rewrite length_fmap, length_take; lia.
    + apply IH; rewrite length_drop; lia.
Qed.

(** ** From zero-one sequences to arbitrary keys *)

(** Comparison against a threshold is monotone, so it commutes with every
    comparator of the network. *)
Lemma threshold_comparator {A} (cmp : A -> A -> bool) `{!StrictWeakOrder cmp} (t : A) d x y :
  let f := fun z => negb (cmp z t) in
  prod_map f f (condSwap (xorb d (cmp x y)) x y)
  = condSwap (xorb d (bool_lt (f x) (f y))) (f x) (f y).
Proof.
  simpl. unfold bool_lt. destruct (cmp x y) eqn:Hxy.
  - assert (H : cmp x t = false -> cmp y t = false).
    { intros Hx. destruct (cmp y t) eqn:Hy; [|done].
      rewrite (swo_negtrans x t y) in Hxy; [done|done|]. by apply swo_asym. }
    revert H; destruct d; simpl; destruct (cmp x t), (cmp y t); simpl; intros H; try done; by discriminate (H eq_refl).
  - assert (H : cmp y t = false -> cmp x t = false) by (intros; by apply (swo_negtrans x y t)).
    revert H; destruct d; simpl; destruct (cmp x t), (cmp y t); simpl; intros H; try done; by discriminate (H eq_refl).
Qed.

Lemma BitonicSort_dire_sorted {A} (cmp : A -> A -> bool) `{!StrictWeakOrder cmp} (l : list A) :
  (Z.of_nat (length l) <= 2 ^ 63)%Z ->
  StronglySorted (cmp_le cmp) (BitonicSort_dire cmp true l).
Proof.
  intros Hmax. apply StronglySorted_lookup. intros i j x y Hij Hx Hy.
  set (f := fun z => negb (cmp z x)).
  assert (Hs : StronglySorted bool_le (f <$> BitonicSort_dire cmp true l)).
  { unfold BitonicSort_dire.
    rewrite (BitonicSort_fuel_fmap f cmp bool_lt id); [|done|].
    - apply BitonicSort_sorted01; rewrite length_fmap; done.
    - intros d a b. by apply threshold_comparator. }
  assert (Hxx : cmp x x = false).
  { destruct (cmp x x) eqn:E; [|done]. by rewrite (swo_asym x x) in E. }
  assert (Hle := StronglySorted_lookup_2 _ _ i j (f x) (f y) Hs Hij).
  rewrite !list_lookup_fmap, Hx, Hy in Hle. specialize (Hle eq_refl eq_refl).
  unfold f, bool_le in Hle. rewrite Hxx in Hle. unfold cmp_le.
  specialize (Hle eq_refl). by destruct (cmp y x).
Qed.

(** ** Properties *)

(** C1: [BitonicSort(v, cmp)] on a range of any length up to [2^63] — not only
    powers of two — returns a rearrangement of its input in which no element
    precedes a smaller one, for every comparison that is a strict weak order. *)
Theorem BitonicSort_correct {A} (cmp : A -> A -> bool) (l : list A) :
  StrictWeakOrder cmp -> (Z.of_nat (length l) <= 2 ^ 63)%Z ->
  StronglySorted (cmp_le cmp) (BitonicSort cmp l) /\ BitonicSort cmp l ≡ₚ l.
Proof.
  intros Hcmp Hmax. split; [by apply BitonicSort_dire_sorted|apply BitonicSort_dire_perm].
Qed.

#[export] Instance nat_ltb_swo : StrictWeakOrder Nat.ltb.
Proof. split; intros; lia. Qed.

#[export] Instance Z_ltb_swo : StrictWeakOrder Z.ltb.
Proof. split; intros; lia. Qed.

Lemma BitonicSort_correct_witness :
  BitonicSort Nat.ltb [5; 3; 8; 1; 9; 3; 7] = [1; 3; 3; 5; 7; 8; 9] /\
  StronglySorted (cmp_le Nat.ltb) (BitonicSort Nat.ltb [5; 3; 8; 1; 9; 3; 7]).
Proof.
  split; [reflexivity|]. apply (BitonicSort_correct Nat.ltb [5; 3; 8; 1; 9; 3; 7]).
  - apply nat_ltb_swo.
  - simpl. lia.
Defined.

Lemma tagAll_snd `{RandGen G} {A} (l : list A) : forall g, snd <$> (tagAll l g).1 = l.
Proof.
  induction l as [|x l IH]; intros g; cbn [tagAll]; [done|].
  destruct (rand64 g) as [tag g1]. specialize (IH g1).
  destruct (tagAll l g1) as [l' g2]. cbn [fst] in *. by rewrite fmap_cons, IH.
Qed.

Lemma BitonicShuffle_perm `{RandGen G} {A} (l : list A) (g : G) :
  (BitonicShuffle l g).1 ≡ₚ l.
Proof.
  unfold BitonicShuffle. pose proof (tagAll_snd l g) as E.
  destruct (tagAll l g) as [tagged g']. simpl in *. unfold BitonicSort.
  by rewrite BitonicSort_dire_perm, E.
Qed.
