(* ===== verification/OrCompact.v ===== *)
(** * Oblivious compaction and shuffling
    (osort/external_memory/algorithm/or_compact_shuffle.hpp)

    [OrCompact] moves the marked elements of a range to its front;
    [OrOffCompactSeparateMark] is its building block for ranges whose size is a
    power of two, which rotates the block of marked elements to an offset.  The
    marks are the array of prefix sums the source passes around; a sub-range
    sees the suffix of that array that starts at its first element. *)
From S2P Require Import Prelude Utils.

(** ** Definitions *)

(** A read of the prefix-sum array. *)
Definition markAt (marks : list Z) (i : nat) : Z := nth i marks 0%Z.

(** [*markMid - *markBegin] as a [size_t]. *)
Definition markDiff (marks : list Z) (i j : nat) : Z := w64 (markAt marks j - markAt marks i).

Fixpoint OrOffCompact_fuel {A} (fuel : nat) (l : list A) (marks : list Z) (z : nat) : list A :=
  match fuel with
  | O => l
  | S fuel =>
      let n := length l in
      let h := n / 2 in
      let m := Z.to_nat (markDiff marks 0 h) in
      if n =? 2 then
        let swapFlag :=
          negb (Z.land (Z.b2z (m =? 0)%nat) (markDiff marks h (h + 1)%nat) =? Z.of_nat z)%Z in
        let lr := condSwapLoop (fun _ _ _ => swapFlag) 0 (take h l) (drop h l) in
        lr.1 ++ lr.2
      else
        let zLeft := z mod h in
        let zRight := (z + m) mod h in
        let l1 := OrOffCompact_fuel fuel (take h l) marks zLeft in
        let l2 := OrOffCompact_fuel fuel (drop h l) (drop h marks) zRight in
        let s := xorb (h <=? zLeft + m) (h <=? z) in
        let lr := condSwapLoop (fun i _ _ => xorb s (zRight <=? i)) 0 l1 l2 in
        lr.1 ++ lr.2
  end.

Definition OrOffCompactSeparateMark {A} (l : list A) (marks : list Z) (z : nat) : list A :=
  OrOffCompact_fuel (length l) l marks z.

Fixpoint OrCompact_fuel {A} (fuel : nat) (l : list A) (marks : list Z) : list A :=
  match fuel with
  | O => l
  | S fuel =>
      let n := length l in
      if n <=? 1 then l else
      let n1 := Z.to_nat (Z.shiftl 1 (GetLogBaseTwo (Z.of_nat n))) in
      let n2 := n - n1 in
      if n2 =? 0 then OrOffCompactSeparateMark l marks 0 else
      let m := Z.to_nat (markDiff marks 0 n2) in
      let l1 := OrCompact_fuel fuel (take n2 l) marks in
      let l2 := OrOffCompactSeparateMark (drop n2 l) (drop n2 marks) ((n1 - n2 + m) mod n1) in
      let all := l1 ++ l2 in
      let lr := condSwapLoop (fun i _ _ => m <=? i) 0 (take n1 all) (drop n1 all) in
      lr.1 ++ lr.2
  end.

Definition OrCompactSeparateMark {A} (l : list A) (marks : list Z) : list A :=
  OrCompact_fuel (length l) l marks.

(** The loop that fills [markPrefix], in [uint32_t]. *)
Fixpoint markPrefix_from {A} (isMarked : A -> bool) (sum : Z) (l : list A) : list Z :=
  sum :: match l with
         | [] => []
         | x :: l => markPrefix_from isMarked (w32 (sum + Z.b2z (isMarked x))) l
         end.

Definition UINT32_MAX : Z := 4294967295.

(** [None] is the failed assertion of a build without NDEBUG. *)
Definition OrCompact (ndebug : bool) {A} (isMarked : A -> bool) (l : list A) : option (list A) :=
  if negb ndebug && negb (Z.of_nat (length l) <? UINT32_MAX)%Z then None else
  Some (if length l <=? 1 then l else OrCompactSeparateMark l (markPrefix_from isMarked 0%Z l)).

(** The prefix sums of a uniformly random subset of size [k] of [N] positions:
    the loop of [OrShuffle], one draw per position. *)
Fixpoint chooseMarks `{RandGen G} (N k : nat) (currsum : Z) (g : G) : list Z * G :=
  match N with
  | O => ([currsum], g)
  | S N' =>
      let '(r, g) := UniformRandom 0 (Z.of_nat N - 1)%Z g in
      let chooseFlag := (r <? Z.of_nat k)%Z in
      let k := if chooseFlag then k - 1 else k in
      let next := if chooseFlag then (currsum + 1)%Z else currsum in
      let '(marks, g) := chooseMarks N' k next g in
      (currsum :: marks, g)
  end.

Fixpoint OrShuffle_fuel `{RandGen G} {A} (fuel : nat) (l : list A) (g : G) : list A * G :=
  match fuel with
  | O => (l, g)
  | S fuel =>
      let n := length l in
      if n <=? 1 then (l, g)
      else if n =? 2 then
        let '(flag, g) := UniformRandomBit g in
        let lr := condSwapLoop (fun _ _ _ => flag) 0 (take 1 l) (drop 1 l) in
        (lr.1 ++ lr.2, g)
      else
        let halfSize := n / 2 in
        let '(marks, g) := chooseMarks n halfSize 0%Z g in
        let l' := OrCompactSeparateMark l marks in
        let '(a, g) := OrShuffle_fuel fuel (take halfSize l') g in
        let '(b, g) := OrShuffle_fuel fuel (drop halfSize l') g in
        (a ++ b, g)
  end.

Definition OrShuffle `{RandGen G} {A} (l : list A) (g : G) : list A * G :=
  OrShuffle_fuel (length l) l g.

(** ** Permutation and length *)

Section perm.
Context {A : Type}.
Implicit Types l : list A.

Lemma OrOffCompact_fuel_perm fuel : forall l marks z,
  OrOffCompact_fuel fuel l marks z ≡ₚ l.
Proof.
  induction fuel as [|fuel IH]; intros l marks z; cbn [OrOffCompact_fuel]; [done|].
  destruct (length l =? 2); rewrite condSwapLoop_perm; rewrite ?IH; by rewrite take_drop.
Qed.

Lemma OrCompact_fuel_perm fuel : forall l marks, OrCompact_fuel fuel l marks ≡ₚ l.
Proof.
  induction fuel as [|fuel IH]; intros l marks; cbn [OrCompact_fuel]; [done|].
  destruct (length l <=? 1); [done|]. cbv zeta.
  set (n1 := Z.to_nat _). destruct (length l - n1 =? 0); [apply OrOffCompact_fuel_perm|].
  unfold OrOffCompactSeparateMark.
  by rewrite condSwapLoop_perm, take_drop, IH, OrOffCompact_fuel_perm, take_drop.
Qed.

Lemma OrOffCompact_fuel_length fuel l marks z :
  length (OrOffCompact_fuel fuel l marks z) = length l.
Proof. apply Permutation_length, OrOffCompact_fuel_perm. Qed.

Lemma OrCompact_fuel_length fuel l marks : length (OrCompact_fuel fuel l marks) = length l.
Proof. apply Permutation_length, OrCompact_fuel_perm. Qed.
End perm.

(** ** Marks *)

Section marks.
Context {A : Type} (f : A -> bool).
Implicit Types l : list A.

Definition cnt l : nat := length (List.filter f l).

(** [marks] holds the prefix sums of the marks of [l], up to a constant. *)
Definition marks_ok (marks : list Z) l : Prop :=
  forall i, i <= length l -> markAt marks i = (markAt marks 0 + Z.of_nat (cnt (take i l)))%Z.

Lemma cnt_app l1 l2 : cnt (l1 ++ l2) = cnt l1 + cnt l2.
Proof. unfold cnt. by rewrite List.filter_app, length_app. Qed.

Lemma cnt_le l : cnt l <= length l.
Proof. apply List.filter_length_le. Qed.

Lemma markAt_drop k marks i : markAt (drop k marks) i = markAt marks (k + i).
Proof.
  unfold markAt. revert marks. induction k as [|k IH]; intros [|x marks]; simpl; try done.
  by destruct i.
Qed.

Lemma marks_ok_take k marks l : marks_ok marks l -> marks_ok marks (take k l).
Proof.
  intros H i Hi. rewrite length_take in Hi. rewrite take_take, H by lia.
  by rewrite Nat.min_l by lia.
Qed.

Lemma marks_ok_drop k marks l :
  k <= length l -> marks_ok marks l -> marks_ok (drop k marks) (drop k l).
Proof.
  intros Hk H i Hi. rewrite length_drop in Hi. rewrite !markAt_drop, Nat.add_0_r, (H (k + i)), (H k) by lia.
  assert (take (k + i) l = take k l ++ take i (drop k l)) as ->.
  { rewrite <-(take_drop k (take (k + i) l)), take_take, take_drop_commute, Nat.min_l by lia. done. }
  rewrite cnt_app. lia.
Qed.

Lemma markDiff_ok marks l i j :
  marks_ok marks l -> i <= j -> j <= length l -> (Z.of_nat (length l) < 2 ^ 64)%Z ->
  markDiff marks i j = Z.of_nat (cnt (take (j - i) (drop i l))).
Proof.
  intros H Hij Hj Hw. unfold markDiff. rewrite (H i), (H j) by lia.
  assert (take j l = take i l ++ take (j - i) (drop i l)) as ->.
  { rewrite <-(take_drop i (take j l)), take_take, Nat.min_l by lia. f_equal.
    replace j with (i + (j - i)) at 1 by lia. by rewrite take_drop_commute. }
  rewrite cnt_app. pose proof (cnt_le (take (j - i) (drop i l))) as Hc.
  rewrite length_take, length_drop in Hc. rewrite wrap_small by (unfold in_width; lia). lia.
Qed.

Lemma markDiff_nat marks l h :
  marks_ok marks l -> h <= length l -> (Z.of_nat (length l) < 2 ^ 64)%Z ->
  Z.to_nat (markDiff marks 0 h) = cnt (take h l).
Proof.
  intros H Hh Hw. rewrite (markDiff_ok marks l) by (done || lia).
  by rewrite drop_0, Nat.sub_0_r, Nat2Z.id.
Qed.
End marks.

(** ** The rotation [OrOffCompact] computes *)

(** The [k]-th marked element of [l] ends up at position [z + k], cyclically. *)
Definition rotated {A} (f : A -> bool) (l : list A) (z : nat) (out : list A) : Prop :=
  forall k x, List.filter f l !! k = Some x -> out !! ((z + k) mod length l) = Some x.

Lemma mod_once a h : h <= a -> a < 2 * h -> a mod h = a - h.
Proof. intros. symmetry. apply (Nat.mod_unique a h 1); lia. Qed.

Lemma mod_cases a h : a < 2 * h -> a mod h = if a <? h then a else a - h.
Proof.
  intros. destruct (Nat.ltb_spec a h); [by apply Nat.mod_small|by apply mod_once; lia].
Qed.

(** The arithmetic of one combining layer: where item [k] of the left (resp.
    right) half is, and which swap brings it to its place. *)
Lemma layer_left h z m k :
  z < 2 * h -> m <= h -> k < m ->
  let i := (z mod h + k) mod h in
  let flag := xorb (xorb (h <=? z mod h + m) (h <=? z)) ((z + m) mod h <=? i) in
  (z + k) mod (2 * h) = if flag then i + h else i.
Proof.
  intros Hz Hm Hk. cbv zeta.
  assert (E : (z + m) mod h = (z mod h + m) mod h) by (by rewrite Nat.Div0.add_mod_idemp_l).
  rewrite E, (mod_cases z h Hz). clear E.
  rewrite (mod_cases (z + k) (2 * h)) by lia.
  destruct (Nat.ltb_spec z h);
    (match goal with |- context [(?a + m) mod h] => rewrite (mod_cases (a + m) h) by lia;
      destruct (Nat.ltb_spec (a + m) h) end);
    (match goal with |- context [(?a + k) mod h] => rewrite (mod_cases (a + k) h) by lia;
      destruct (Nat.ltb_spec (a + k) h) end);
    case_cmp; simpl; lia.
Qed.

Lemma layer_right h z m m' k :
  z < 2 * h -> m <= h -> m' <= h -> k < m' ->
  let i := ((z + m) mod h + k) mod h in
  let flag := xorb (xorb (h <=? z mod h + m) (h <=? z)) ((z + m) mod h <=? i) in
  (z + (m + k)) mod (2 * h) = if flag then i else i + h.
Proof.
  intros Hz Hm Hm' Hk. cbv zeta.
  assert (E : (z + m) mod h = (z mod h + m) mod h) by (by rewrite Nat.Div0.add_mod_idemp_l).
  assert (E2 : (z + (m + k)) mod (2 * h)
    = ((z + (m + k)) - (if z + (m + k) <? 2 * h then 0 else 2 * h))).
  { destruct (Nat.ltb_spec (z + (m + k)) (2 * h)).
    - rewrite Nat.mod_small; lia.
    - apply mod_once; lia. }
  rewrite E, E2, (mod_cases z h Hz). clear E E2.
  destruct (Nat.ltb_spec z h);
    (match goal with |- context [(?a + m) mod h] => rewrite (mod_cases (a + m) h) by lia;
      destruct (Nat.ltb_spec (a + m) h) end);
    (match goal with |- context [(?a + k) mod h] => rewrite (mod_cases (a + k) h) by lia;
      destruct (Nat.ltb_spec (a + k) h) end);
    case_cmp; simpl; lia.
Qed.

Section compact.
Context {A : Type} (f : A -> bool).
Implicit Types l : list A.

(** Reading the result of one combining layer over two halves of equal size. *)
Lemma combine_lookup (flag : nat -> bool) (l1 l2 : list A) h i x :
  length l1 = h -> length l2 = h -> i < h ->
  (l1 !! i = Some x ->
   let lr := condSwapLoop (fun i _ _ => flag i) 0 l1 l2 in
   (lr.1 ++ lr.2) !! (if flag i then i + h else i) = Some x) /\
  (l2 !! i = Some x ->
   let lr := condSwapLoop (fun i _ _ => flag i) 0 l1 l2 in
   (lr.1 ++ lr.2) !! (if flag i then i else i + h) = Some x).
Proof.
  intros H1 H2 Hi. cbv zeta.
  destruct (lookup_lt_is_Some_2 l1 i ltac:(lia)) as [a Ha].
  destruct (lookup_lt_is_Some_2 l2 i ltac:(lia)) as [b Hb].
  destruct (condSwapLoop_lookup (fun i _ _ => flag i) l1 0 l2 i a b Ha Hb) as [E1 E2].
  destruct (condSwapLoop_length (fun i _ _ => flag i) l1 0 l2) as [L1 L2].
  simpl in E1, E2. split; intros Hx; simplify_eq.
  - destruct (flag i); simpl in E1, E2.
    + rewrite lookup_app_r by lia. replace (length l1) with (length l2) in * by lia.
      rewrite L1, Nat.add_sub || rewrite L1, <-H2, Nat.add_sub. done.
    + rewrite lookup_app_l by lia. done.
  - destruct (flag i); simpl in E1, E2.
    + rewrite lookup_app_l by lia. done.
    + rewrite lookup_app_r by lia. replace (length l1) with (length l2) in * by lia.
      rewrite L1, Nat.add_sub || rewrite L1, <-H2, Nat.add_sub. done.
Qed.

(** The last layer of [OrCompact]: the first [n2] elements against the last. *)
Lemma final_layer (all : list A) n1 n2 m q x :
  length all = n1 + n2 -> n2 < n1 -> all !! q = Some x ->
  let lr := condSwapLoop (fun i _ _ => m <=? i) 0 (take n1 all) (drop n1 all) in
  (lr.1 ++ lr.2) !! (if n1 <=? q then (if m <=? q - n1 then q - n1 else q)
                     else if (q <? n2) && (m <=? q) then n1 + q else q) = Some x.
Proof.
  intros Hl Hn Hq. cbv zeta. pose proof (lookup_lt_Some _ _ _ Hq).
  destruct (condSwapLoop_length (fun i _ _ => m <=? i) (take n1 all) 0 (drop n1 all)) as [L1 L2].
  rewrite length_take in L1. rewrite length_drop in L2.
  set (i := if n1 <=? q then q - n1 else q).
  destruct (decide (i < n2)) as [Hi|Hi].
  - destruct (lookup_lt_is_Some_2 all i ltac:(subst i; destruct (n1 <=? q); lia)) as [a Ha].
    destruct (lookup_lt_is_Some_2 all (n1 + i) ltac:(lia)) as [b Hb].
    assert (Ht : take n1 all !! i = Some a) by (rewrite lookup_take_lt by lia; done).
    assert (Hd : drop n1 all !! i = Some b) by (rewrite lookup_drop; done).
    destruct (condSwapLoop_lookup (fun i _ _ => m <=? i) _ 0 _ i a b Ht Hd) as [E1 E2].
    simpl in E1, E2. subst i. destruct (Nat.leb_spec n1 q).
    + replace (n1 + (q - n1)) with q in Hb by lia. simplify_eq.
      destruct (m <=? q - n1); simpl in E1, E2.
      * rewrite lookup_app_l by lia. done.
      * rewrite lookup_app_r by lia. rewrite L1, Nat.min_l by lia. done.
    + simplify_eq. rewrite (proj2 (Nat.ltb_lt q n2)) by lia. simpl.
      destruct (m <=? q); simpl in E1, E2.
      * rewrite lookup_app_r by lia. rewrite L1, Nat.min_l by lia.
        replace (n1 + q - n1) with q by lia. done.
      * rewrite lookup_app_l by lia. done.
  - subst i. destruct (Nat.leb_spec n1 q); [lia|].
    rewrite (proj2 (Nat.ltb_ge q n2)) by lia. simpl.
    rewrite lookup_app_l by lia. rewrite condSwapLoop_lookup_rest by (rewrite length_drop; lia).
    rewrite lookup_take_lt by lia. done.
Qed.

Lemma OrOffCompact_base fuel l marks z :
  length l = 2 -> z < 2 -> marks_ok f marks l ->
  rotated f l z (OrOffCompact_fuel (S fuel) l marks z).
Proof.
  intros Hl Hz Hm. destruct l as [|x [|y [|? ?]]]; simpl in Hl; try lia.
  cbn [OrOffCompact_fuel]. change (length [x; y]) with 2. cbn [Nat.eqb].
  change (2 / 2) with 1.
  rewrite (markDiff_nat f marks [x; y]) by (done || simpl; lia).
  rewrite (markDiff_ok f marks [x; y] 1 (1 + 1)) by (done || simpl; lia).
  unfold cnt. cbn [take drop]. intros k w Hk. simpl length.
  destruct (f x) eqn:Fx, (f y) eqn:Fy; simpl in *; rewrite ?Fx, ?Fy in *; simpl in *;
    destruct z as [|[|?]]; try lia; destruct k as [|[|k]]; simplify_eq/=; done.
Qed.

Lemma OrOffCompact_rotated e : forall fuel l marks z,
  length l = 2 ^ S e -> length l <= fuel -> z < length l ->
  (Z.of_nat (length l) < 2 ^ 64)%Z -> marks_ok f marks l ->
  rotated f l z (OrOffCompact_fuel fuel l marks z).
Proof.
  induction e as [|e IH]; intros fuel l marks z Hl Hf Hz Hw Hm.
  { destruct fuel as [|fuel]; [simpl in *; lia|].
    apply OrOffCompact_base; [done|simpl in *; lia|done]. }
  set (h := 2 ^ S e). assert (Hl2 : length l = 2 * h) by (subst h; rewrite Hl; simpl; lia).
  assert (Hh : 2 <= h) by (subst h; pose proof (Nat.pow_nonzero 2 e); simpl; lia).
  destruct fuel as [|fuel]; [lia|]. cbn [OrOffCompact_fuel].
  rewrite (proj2 (Nat.eqb_neq (length l) 2)) by lia.
  assert (length l / 2 = h) as -> by (rewrite Hl2, Nat.mul_comm, Nat.div_mul; lia).
  rewrite (markDiff_nat f marks l) by (done || lia).
  set (m := cnt f (take h l)). cbv zeta.
  assert (Lt : length (take h l) = h) by (rewrite length_take; lia).
  assert (Ld : length (drop h l) = h) by (rewrite length_drop; lia).
  assert (Hm1 : m <= h) by (pose proof (cnt_le f (take h l)); subst m; lia).
  pose proof (Nat.mod_upper_bound z h ltac:(lia)).
  pose proof (Nat.mod_upper_bound (z + m) h ltac:(lia)).
  assert (R1 := IH fuel (take h l) marks (z mod h) ltac:(done) ltac:(lia) ltac:(lia) ltac:(lia)
                  (marks_ok_take f h marks l Hm)).
  assert (R2 := IH fuel (drop h l) (drop h marks) ((z + m) mod h) ltac:(done) ltac:(lia) ltac:(lia)
                  ltac:(lia) (marks_ok_drop f h marks l ltac:(lia) Hm)).
  unfold rotated in *. rewrite Lt in R1. rewrite Ld in R2. rewrite Hl2.
  set (flag := fun i => xorb (xorb (h <=? z mod h + m) (h <=? z)) ((z + m) mod h <=? i)).
  intros k x Hk. rewrite <-(take_drop h l), List.filter_app in Hk.
  apply lookup_app_Some in Hk as [Hk|[Hge Hk]].
  - pose proof (lookup_lt_Some _ _ _ Hk). apply R1 in Hk.
    rewrite (layer_left h z m k) by (lia || done).
    apply (combine_lookup flag _ _ h); [by rewrite OrOffCompact_fuel_length..| |exact Hk].
    apply Nat.mod_upper_bound. lia.
  - change (length (List.filter f (take h l))) with m in *.
    pose proof (lookup_lt_Some _ _ _ Hk). apply R2 in Hk.
    replace k with (m + (k - m)) at 1 by lia.
    pose proof (cnt_le f (drop h l)).
    rewrite (layer_right h z m (cnt f (drop h l)) (k - m)) by (lia || done).
    apply (combine_lookup flag _ _ h); [by rewrite OrOffCompact_fuel_length..| |exact Hk].
    apply Nat.mod_upper_bound. lia.
Qed.

(** ** Compaction of ranges of any size *)

Definition compacted l (out : list A) : Prop :=
  forall k x, List.filter f l !! k = Some x -> out !! k = Some x.

Lemma floor_pow2 n : 1 < n -> (Z.of_nat n < 2 ^ 64)%Z ->
  exists e, Z.to_nat (Z.shiftl 1 (GetLogBaseTwo (Z.of_nat n))) = 2 ^ S e /\
            2 ^ S e <= n < 2 * 2 ^ S e.
Proof.
  intros Hn Hw. rewrite GetLogBaseTwo_spec by lia.
  assert (Hs := Z.log2_spec (Z.of_nat n) ltac:(lia)).
  assert (0 < Z.log2 (Z.of_nat n))%Z by (apply Z.log2_pos; lia).
  set (u := Z.log2 (Z.of_nat n)) in *. rewrite Z.shiftl_1_l.
  exists (Z.to_nat (Z.pred u)).
  assert (Hq : Z.of_nat (2 ^ S (Z.to_nat (Z.pred u))) = (2 ^ u)%Z).
  { rewrite Nat2Z.inj_pow. f_equal. lia. }
  rewrite Z.pow_succ_r in Hs by lia. split; [|lia].
  apply Nat2Z.inj. rewrite Hq, Z2Nat.id; lia.
Qed.

Lemma compact_position n1 n2 m m2 k :
  n2 < n1 -> m <= n2 -> m2 <= n1 -> k < m2 -> 0 < n2 ->
  let j := ((n1 - n2 + m) mod n1 + k) mod n1 in
  (m + k < n2 /\ n2 + j = n1 + (m + k)) \/
  (n2 <= m + k /\ n2 + j = m + k /\ (n1 <= m + k -> m + k - n1 < m)).
Proof.
  intros ? ? ? ? ?. cbv zeta. rewrite Nat.Div0.add_mod_idemp_l.
  rewrite (mod_cases (n1 - n2 + m + k) n1) by lia.
  destruct (Nat.ltb_spec (n1 - n2 + m + k) n1); lia.
Qed.

Lemma OrCompact_fuel_compacted fuel : forall l marks,
  length l <= fuel -> (Z.of_nat (length l) < 2 ^ 64)%Z -> marks_ok f marks l ->
  compacted l (OrCompact_fuel fuel l marks).
Proof.
  induction fuel as [|fuel IH]; intros l marks Hf Hw Hm.
  { destruct l; simpl in *; [done|lia]. }
  cbn [OrCompact_fuel]. destruct (Nat.leb_spec (length l) 1) as [H1|H1].
  { destruct l as [|x [|? ?]]; simpl in *; [done| |lia]. intros [|k] y; simpl;
      destruct (f x); simpl; done. }
  destruct (floor_pow2 (length l) H1 Hw) as (e & -> & Hn1). cbv zeta.
  set (n1 := 2 ^ S e) in *. set (n2 := length l - n1).
  destruct (Nat.eqb_spec n2 0) as [H2|H2].
  { assert (length l = n1) by lia. intros k x Hk.
    assert (R := OrOffCompact_rotated e (length l) l marks 0 ltac:(done) ltac:(lia) ltac:(lia) Hw Hm k x Hk).
    pose proof (lookup_lt_Some _ _ _ Hk). pose proof (cnt_le f l). unfold cnt in *.
    rewrite Nat.add_0_l, Nat.mod_small in R by lia. done. }
  rewrite (markDiff_nat f marks l) by (done || lia).
  set (m := cnt f (take n2 l)).
  assert (Lt : length (take n2 l) = n2) by (rewrite length_take; lia).
  assert (Ld : length (drop n2 l) = n1) by (rewrite length_drop; lia).
  assert (R1 := IH (take n2 l) marks ltac:(lia) ltac:(lia) (marks_ok_take f n2 marks l Hm)).
  assert (R2 := OrOffCompact_rotated e (length (drop n2 l)) (drop n2 l) (drop n2 marks) ((n1 - n2 + m) mod n1)
    ltac:(done) ltac:(lia) ltac:(rewrite Ld; apply Nat.mod_upper_bound; lia) ltac:(lia)
    (marks_ok_drop f n2 marks l ltac:(lia) Hm)).
  fold (OrOffCompactSeparateMark (drop n2 l) (drop n2 marks) ((n1 - n2 + m) mod n1)) in R2.
  unfold rotated in R2. rewrite Ld in R2. unfold compacted in *.
  set (l1 := OrCompact_fuel fuel (take n2 l) marks) in *.
  set (l2 := OrOffCompactSeparateMark _ _ _) in *.
  assert (L1 : length l1 = n2) by (subst l1; by rewrite OrCompact_fuel_length).
  assert (L2 : length l2 = n1) by (subst l2; unfold OrOffCompactSeparateMark; by rewrite OrOffCompact_fuel_length).
  assert (Hmn : m <= n2) by (pose proof (cnt_le f (take n2 l)); subst m; lia).
  pose proof (cnt_le f (drop n2 l)) as Hm2. rewrite Ld in Hm2.
  assert (La : length (l1 ++ l2) = n1 + n2) by (rewrite length_app; lia).
  intros k x Hk. rewrite <-(take_drop n2 l), List.filter_app in Hk.
  apply lookup_app_Some in Hk as [Hk|[Hge Hk]].
  - pose proof (lookup_lt_Some _ _ _ Hk) as Hkm. fold (cnt f (take n2 l)) in Hkm. fold m in Hkm.
    apply R1 in Hk.
    assert (Ha : (l1 ++ l2) !! k = Some x) by (rewrite lookup_app_l by lia; done).
    assert (F := final_layer (l1 ++ l2) n1 n2 m k x La ltac:(lia) Ha). cbv zeta in F.
    rewrite (proj2 (Nat.leb_gt n1 k)), (proj2 (Nat.leb_gt m k)), andb_false_r in F by lia. done.
  - fold (cnt f (take n2 l)) in Hge, Hk. fold m in Hge, Hk.
    pose proof (lookup_lt_Some _ _ _ Hk) as Hkm. fold (cnt f (drop n2 l)) in Hkm.
    apply R2 in Hk.
    set (j := ((n1 - n2 + m) mod n1 + (k - m)) mod n1) in *.
    assert (Ha : (l1 ++ l2) !! (n2 + j) = Some x).
    { rewrite lookup_app_r by lia. rewrite L1. replace (n2 + j - n2) with j by lia. done. }
    assert (F := final_layer (l1 ++ l2) n1 n2 m (n2 + j) x La ltac:(lia) Ha). cbv zeta in F.
    destruct (compact_position n1 n2 m (cnt f (drop n2 l)) (k - m)) as [[C1 C2]|(C1 & C2 & C3)]; try lia;
      fold j in C2; rewrite C2 in F.
    + rewrite (proj2 (Nat.leb_le n1 (n1 + (m + (k - m))))) in F by lia.
      replace (n1 + (m + (k - m)) - n1) with k in F by lia.
      rewrite (proj2 (Nat.leb_le m k)) in F by lia. done.
    + replace (m + (k - m)) with k in * by lia.
      destruct (Nat.leb_spec n1 k).
      * rewrite (proj2 (Nat.leb_gt m (k - n1))) in F by lia. done.
      * rewrite (proj2 (Nat.ltb_ge k n2)) in F by lia. done.
Qed.
End compact.

Lemma filter_split_perm {A} (f : A -> bool) (l : list A) :
  l ≡ₚ List.filter f l ++ List.filter (fun x => negb (f x)) l.
Proof.
  induction l as [|x l IH]; simpl; [done|].
  destruct (f x); simpl; rewrite <-?Permutation_middle, <-IH; done.
Qed.

Lemma compacted_perm_shape {A} (f : A -> bool) (l out : list A) :
  out ≡ₚ l -> compacted f l out ->
  exists rest, out = List.filter f l ++ rest /\ rest ≡ₚ List.filter (fun x => negb (f x)) l.
Proof.
  intros Hp Hc. exists (drop (cnt f l) out).
  assert (E : take (cnt f l) out = List.filter f l).
  { apply list_eq. intros i. destruct (List.filter f l !! i) as [x|] eqn:Hx.
    - pose proof (lookup_lt_Some _ _ _ Hx). rewrite lookup_take_lt by (unfold cnt; lia).
      by apply Hc.
    - apply lookup_ge_None in Hx. rewrite lookup_take_ge; [done|]. done. }
  assert (E2 : out = List.filter f l ++ drop (cnt f l) out) by (rewrite <-E at 1; by rewrite take_drop).
  split; [done|]. apply (Permutation_app_inv_l (List.filter f l)).
  rewrite <-E2, Hp. apply filter_split_perm.
Qed.

Lemma markPrefix_from_lookup {A} (f : A -> bool) (l : list A) : forall s i,
  i <= length l -> (0 <= s)%Z -> (s + Z.of_nat (length l) < 2 ^ 32)%Z ->
  markAt (markPrefix_from f s l) i = (s + Z.of_nat (cnt f (take i l)))%Z.
Proof.
  induction l as [|x l IH]; intros s [|i] Hi Hs Hw; simpl in *; try lia; unfold markAt in *; simpl.
  - unfold cnt. simpl. lia.
  - unfold cnt. simpl. lia.
  - assert (E : w32 (s + Z.b2z (f x)) = (s + Z.b2z (f x))%Z).
    { apply wrap_small. unfold in_width. destruct (f x); simpl; lia. }
    rewrite E, IH by (destruct (f x); simpl; lia).
    unfold cnt. simpl. destruct (f x); simpl; lia.
Qed.

Lemma OrShuffle_fuel_perm `{RandGen G} {A} fuel : forall (l : list A) (g : G),
  (OrShuffle_fuel fuel l g).1 ≡ₚ l.
Proof.
  induction fuel as [|fuel IH]; intros l g; cbn [OrShuffle_fuel]; [done|].
  destruct (length l <=? 1); [done|].
  destruct (length l =? 2).
  - destruct (UniformRandomBit g) as [flag g']. simpl. rewrite condSwapLoop_perm. by rewrite take_drop.
  - destruct (chooseMarks _ _ _ g) as [marks g1]. cbv zeta.
    set (l' := OrCompactSeparateMark l marks).
    assert (Hl' : l' ≡ₚ l) by apply OrCompact_fuel_perm.
    pose proof (IH (take (length l / 2) l') g1) as P1.
    destruct (OrShuffle_fuel fuel (take _ l') g1) as [a g2].
    pose proof (IH (drop (length l / 2) l') g2) as P2.
    destruct (OrShuffle_fuel fuel (drop _ l') g2) as [b g3]. simpl in *.
    by rewrite P1, P2, take_drop.
Qed.

(** What [OrCompact] computes behind its assertion. *)
Lemma compacted_range {A} (isMarked : A -> bool) (l : list A) : (Z.of_nat (length l) < 2 ^ 32)%Z ->
  exists rest, (if length l <=? 1 then l else OrCompactSeparateMark l (markPrefix_from isMarked 0%Z l)) = List.filter isMarked l ++ rest /\
    rest ≡ₚ List.filter (fun x => negb (isMarked x)) l.
Proof.
  intros Hw. apply compacted_perm_shape.
  - destruct (_ <=? _); [done|]. apply OrCompact_fuel_perm.
  - destruct (Nat.leb_spec (length l) 1) as [H|H].
    + destruct l as [|x [|? ?]]; simpl in H; [by intros k y| |lia]. intros [|k] y; simpl;
        destruct (isMarked x); simpl; done.
    + apply OrCompact_fuel_compacted; [done|lia|].
      intros i Hi. rewrite !markPrefix_from_lookup by lia. unfold cnt. simpl. lia.
Qed.

(** ** Properties *)

(** C11: [OrCompact] moves the marked elements to the front of the range, in
    their original order, followed by a rearrangement of the unmarked ones.  A
    build with assertions does so for fewer than [UINT32_MAX] elements and
    aborts on every longer range; without them, one more element, the most the
    [uint32_t] prefix sums can count, is compacted as well. *)
Theorem OrCompact_correct (ndebug : bool) {A} (isMarked : A -> bool) (l : list A) :
  ((Z.of_nat (length l) < UINT32_MAX)%Z \/ ndebug = true /\ Z.of_nat (length l) = UINT32_MAX ->
   exists rest, OrCompact ndebug isMarked l = Some (List.filter isMarked l ++ rest) /\
     rest ≡ₚ List.filter (fun x => negb (isMarked x)) l) /\
  (ndebug = false -> (UINT32_MAX <= Z.of_nat (length l))%Z -> OrCompact ndebug isMarked l = None).
Proof.
  unfold OrCompact, UINT32_MAX. split.
  - intros Hw. assert (Ha : negb ndebug && negb (Z.of_nat (length l) <? 4294967295)%Z = false).
    { destruct Hw as [Hw|[-> _]]; [|done]. by rewrite (proj2 (Z.ltb_lt _ _) Hw), andb_false_r. }
    rewrite Ha. destruct (compacted_range isMarked l) as (rest & -> & Hr); [lia|by exists rest].
  - intros -> Hw. by rewrite (proj2 (Z.ltb_ge _ _) Hw).
Qed.

Lemma OrCompact_correct_witness :
  exists rest, OrCompact false Nat.even [1; 2; 3; 4; 5; 6; 8] = Some ([2; 4; 6; 8] ++ rest) /\ rest ≡ₚ [1; 3; 5].
Proof. apply (OrCompact_correct false Nat.even [1; 2; 3; 4; 5; 6; 8]). left. reflexivity. Defined.

(** [OrOffCompactSeparateMark] on a range whose size is a power of two, at
    offset [z], rotates the block of marked elements to start at position [z]:
    the [k]-th marked element ends at [(z + k) mod n]. *)
Theorem OrOffCompact_correct {A} (isMarked : A -> bool) (l : list A) (marks : list Z) (z e : nat) :
  length l = 2 ^ S e -> (Z.of_nat (length l) < 2 ^ 64)%Z -> z < length l ->
  marks_ok isMarked marks l ->
  OrOffCompactSeparateMark l marks z ≡ₚ l /\
  (forall k x, List.filter isMarked l !! k = Some x ->
     OrOffCompactSeparateMark l marks z !! ((z + k) mod length l) = Some x).
Proof.
  intros Hl Hw Hz Hm. split; [apply OrOffCompact_fuel_perm|].
  by apply (OrOffCompact_rotated isMarked e).
Qed.

Lemma OrOffCompact_correct_witness :
  OrOffCompactSeparateMark [1; 2; 3; 4] [0; 0; 1; 1; 2]%Z 3 ≡ₚ [1; 2; 3; 4] /\
  OrOffCompactSeparateMark [1; 2; 3; 4] [0; 0; 1; 1; 2]%Z 3 !! 0 = Some 4.
Proof.
  destruct (OrOffCompact_correct Nat.even [1; 2; 3; 4] [0; 0; 1; 1; 2]%Z 3 1) as [H1 H2].
  - reflexivity.
  - simpl. lia.
  - simpl. lia.
  - intros i Hi. simpl in Hi. do 5 (destruct i as [|i]; [reflexivity|]). lia.
  - split; [exact H1|]. exact (H2 1 4 eq_refl).
Defined.

(** [OrShuffle] returns a rearrangement of its input for every generator. *)
Theorem OrShuffle_perm `{RandGen G} {A} (l : list A) (g : G) : (OrShuffle l g).1 ≡ₚ l.
Proof. apply OrShuffle_fuel_perm. Qed.
