(* ===== verification/TwoWay.v ===== *)
(** * Two-way interleaving and partition
    (osort/external_memory/algorithm/sort_building_blocks.hpp, lines 17-98 and
    279-316)

    [InterleaveTwoWay] rearranges a range in which exactly half of the elements
    are marked so that marked and unmarked elements alternate, without any
    data-dependent control flow; the partition built on it moves the marked half
    to the front. *)
From S2P Require Import Prelude Utils OrCompact.

(** ** Definitions *)

(** The swap loop: [targetBit] is the tag the left element must get the next
    time the two tags differ. *)
Fixpoint tagSwapLoop {A} (isMarked : A -> bool) (targetBit : bool) (l r : list A)
    : list A * list A :=
  match l, r with
  | x :: l, y :: r =>
      let leftTag := isMarked x in
      let rightTag := isMarked y in
      let swapFlag := xorb leftTag targetBit in
      let targetBit := xorb rightTag swapFlag in
      let xy := condSwap swapFlag x y in
      let lr := tagSwapLoop isMarked targetBit l r in
      (xy.1 :: lr.1, xy.2 :: lr.2)
  | _, _ => (l, r)
  end.

(** [isMarked] of the first element of a range. *)
Definition headMarked {A} (isMarked : A -> bool) (l : list A) : bool :=
  match l with x :: _ => isMarked x | [] => false end.

Fixpoint InterleaveTwoWay_fuel {A} (fuel : nat) (isMarked : A -> bool) (l : list A) : list A :=
  match fuel with
  | O => l
  | S fuel =>
      let size := length l in
      if size =? 2 then
        let swapFlag := negb (headMarked isMarked l) in
        let lr := condSwapLoop (fun _ _ _ => swapFlag) 0 (take 1 l) (drop 1 l) in
        lr.1 ++ lr.2
      else
        let leftHalfSize := (size + 2) / 4 * 2 in
        let targetBit := negb (headMarked isMarked l) in
        let L := take leftHalfSize l in
        let R := drop leftHalfSize l in
        let leftSkip := if size mod 4 =? 0 then 1 else if size mod 4 =? 2 then 2 else 0 in
        let rightSkip := if size mod 4 =? 0 then 1 else 0 in
        let lr := tagSwapLoop isMarked targetBit (drop leftSkip L) (drop rightSkip R) in
        InterleaveTwoWay_fuel fuel isMarked (take leftSkip L ++ lr.1) ++
        InterleaveTwoWay_fuel fuel isMarked (take rightSkip R ++ lr.2)
  end.

Definition InterleaveTwoWay {A} (isMarked : A -> bool) (l : list A) : list A :=
  InterleaveTwoWay_fuel (length l) isMarked l.

(** The overload on two separate buckets of size [Z]. *)
Definition InterleaveTwoWayBuckets {A} (isMarked : A -> bool) (L R : list A) : list A * list A :=
  let targetBit := headMarked isMarked R in
  let lr := tagSwapLoop isMarked targetBit (drop 1 L) (drop 1 R) in
  (InterleaveTwoWay isMarked (take 1 L ++ lr.1), InterleaveTwoWay isMarked (take 1 R ++ lr.2)).

(** [for (it1 = a, it2 = b; it2 < end; it1 += 2, it2 += 2) swap( *it1, *it2 )],
    [count] iterations. *)
Fixpoint swapStrided {A} (count a b : nat) (l : list A) : list A :=
  match count with
  | O => l
  | S count => swapStrided count (a + 2) (b + 2) (swap_at a b l)
  end.

Definition InterleaveTwoWayPartition {A} (isMarked : A -> bool) (l : list A) : list A :=
  let size := length l in
  let Z := size / 2 in
  let l := InterleaveTwoWay isMarked l in
  let it2 := Z + Z mod 2 in
  swapStrided ((size - it2 + 1) / 2) 1 it2 l.

Definition InterleaveTwoWayPartitionBuckets {A} (isMarked : A -> bool) (L R : list A)
    : list A * list A :=
  let Z := length R in
  let '(L, R) := InterleaveTwoWayBuckets isMarked L R in
  let it2 := Z mod 2 in
  let l := swapStrided ((Z - it2 + 1) / 2) 1 (length L + it2) (L ++ R) in
  (take (length L) l, drop (length L) l).

(** ** The balancing pass *)

Section balance.
Context {A : Type} (isMarked : A -> bool).
Implicit Types l r : list A.
Local Abbreviation cnt := (cnt isMarked).

Lemma tagSwapLoop_length l : forall t r,
  length (tagSwapLoop isMarked t l r).1 = length l /\
  length (tagSwapLoop isMarked t l r).2 = length r.
Proof.
  induction l as [|x l IH]; intros t [|y r]; simpl; try done.
  destruct (IH (xorb (isMarked y) (xorb (isMarked x) t)) r) as [-> ->]. done.
Qed.

Lemma tagSwapLoop_perm l : forall t r,
  (tagSwapLoop isMarked t l r).1 ++ (tagSwapLoop isMarked t l r).2 ≡ₚ l ++ r.
Proof.
  induction l as [|x l IH]; intros t [|y r]; simpl; try done.
  specialize (IH (xorb (isMarked y) (xorb (isMarked x) t)) r). unfold condSwap.
  destruct (xorb (isMarked x) t); simpl in *;
    rewrite <-!Permutation_middle, IH; [apply perm_swap|done].
Qed.

Lemma cnt_cons x l : cnt (x :: l) = Nat.b2n (isMarked x) + cnt l.
Proof. unfold OrCompact.cnt. simpl. by destruct (isMarked x). Qed.

Lemma cnt_perm l r : l ≡ₚ r -> cnt l = cnt r.
Proof. induction 1; rewrite ?cnt_cons in *; lia. Qed.

(** The left range ends up with half of the marks, rounded towards the target. *)
Lemma tagSwapLoop_cnt l : forall t r, length l = length r ->
  let c := cnt (tagSwapLoop isMarked t l r).1 in
  cnt l + cnt r + Nat.b2n t <= 2 * c + 1 /\ 2 * c <= cnt l + cnt r + Nat.b2n t.
Proof.
  induction l as [|x l IH]; intros t [|y r] Hl; simpl in Hl; try lia.
  { simpl. unfold OrCompact.cnt. simpl. destruct t; simpl; lia. }
  cbn [tagSwapLoop]. cbv zeta.
  specialize (IH (xorb (isMarked y) (xorb (isMarked x) t)) r ltac:(lia)). cbv zeta in IH.
  cbn [fst]. rewrite !cnt_cons. unfold condSwap.
  destruct t, (isMarked x) eqn:Hx, (isMarked y) eqn:Hy; simpl in *; rewrite ?Hx, ?Hy; simpl; lia.
Qed.
End balance.

(** ** Alternation *)

(** Marked elements at even positions, unmarked ones at odd positions. *)
Definition alternating {A} (isMarked : A -> bool) (l : list A) : Prop :=
  forall i x, l !! i = Some x -> isMarked x = Nat.even i.

Section alternate.
Context {A : Type} (isMarked : A -> bool).
Implicit Types l : list A.
Local Abbreviation cnt := (cnt isMarked).

Lemma InterleaveTwoWay_fuel_perm fuel : forall l,
  InterleaveTwoWay_fuel fuel isMarked l ≡ₚ l.
Proof.
  induction fuel as [|fuel IH]; intros l; cbn [InterleaveTwoWay_fuel]; [done|].
  destruct (length l =? 2); cbv zeta.
  { by rewrite condSwapLoop_perm, take_drop. }
  set (h := (length l + 2) / 4 * 2). set (ls := if _ =? 0 then 1 else _).
  set (rs := if _ =? 0 then 1 else 0). rewrite !IH.
  match goal with |- context [tagSwapLoop _ ?t ?a ?b] =>
    pose proof (tagSwapLoop_perm isMarked a t b) as P;
    set (lr := tagSwapLoop isMarked t a b) in * end.
  rewrite <-!app_assoc. rewrite (Permutation_app_swap_app lr.1), P.
  rewrite (Permutation_app_swap_app (take rs _)), (take_drop rs), app_assoc, (take_drop ls).
  by rewrite take_drop.
Qed.

Lemma InterleaveTwoWay_perm l : InterleaveTwoWay isMarked l ≡ₚ l.
Proof. apply InterleaveTwoWay_fuel_perm. Qed.

Lemma InterleaveTwoWay_length l : length (InterleaveTwoWay isMarked l) = length l.
Proof. apply Permutation_length, InterleaveTwoWay_perm. Qed.

Lemma alternating_app l1 l2 :
  Nat.even (length l1) = true -> alternating isMarked l1 -> alternating isMarked l2 ->
  alternating isMarked (l1 ++ l2).
Proof.
  intros He H1 H2 i x [Hx|[Hge Hx]]%lookup_app_Some; [by apply H1|].
  apply H2 in Hx. rewrite Hx.
  assert (E : Nat.even (length l1 + (i - length l1)) = Nat.even i) by (f_equal; lia).
  rewrite <-E, Nat.even_add, He. by destruct (Nat.even (i - length l1)).
Qed.

(** The balancing pass splits the marks evenly between the two sub-ranges. *)
Lemma split_balanced l h ls rs lr :
  length l mod 2 = 0 -> 4 <= length l -> cnt l = length l / 2 ->
  h = (length l + 2) / 4 * 2 ->
  ls = (if length l mod 4 =? 0 then 1 else if length l mod 4 =? 2 then 2 else 0) ->
  rs = (if length l mod 4 =? 0 then 1 else 0) ->
  lr = tagSwapLoop isMarked (negb (headMarked isMarked l)) (drop ls (take h l)) (drop rs (drop h l)) ->
  let a := take ls (take h l) ++ lr.1 in
  let b := take rs (drop h l) ++ lr.2 in
  length a = h /\ length b = length l - h /\ 2 * cnt a = h /\ 2 * cnt b = length l - h.
Proof.
  intros He H4 Hc Hh Hls Hrs Hlr. cbv zeta.
  set (L := take h l). set (R := drop h l). set (t := negb (headMarked isMarked l)) in *.
  assert (HLR : l = L ++ R) by (subst L R; by rewrite take_drop).
  assert (Hh' : h mod 2 = 0 /\ h < length l /\ 2 <= h /\ (
    (length l mod 4 = 0 /\ ls = 1 /\ rs = 1 /\ length l = 2 * h) \/
    (length l mod 4 = 2 /\ ls = 2 /\ rs = 0 /\ length l = 2 * h - 2))).
  { destruct (Nat.eqb_spec (length l mod 4) 0), (Nat.eqb_spec (length l mod 4) 2); lia. }
  destruct Hh' as (Hhe & Hhl & Hh2 & Hcase).
  assert (LL : length L = h) by (subst L; rewrite length_take; lia).
  assert (LR : length R = length l - h) by (subst R; rewrite length_drop; lia).
  destruct (tagSwapLoop_length isMarked (drop ls L) t (drop rs R)) as [T1 T2].
  assert (TC := tagSwapLoop_cnt isMarked (drop ls L) t (drop rs R)
    ltac:(rewrite !length_drop; lia)). cbv zeta in TC.
  pose proof (cnt_perm isMarked _ _ (tagSwapLoop_perm isMarked (drop ls L) t (drop rs R))) as TP.
  fold L R in Hlr. rewrite <-Hlr in *. rewrite length_drop in T1, T2.
  assert (C1 : cnt L = cnt (take ls L) + cnt (drop ls L)) by (rewrite <-cnt_app; by rewrite take_drop).
  assert (C2 : cnt R = cnt (take rs R) + cnt (drop rs R)) by (rewrite <-cnt_app; by rewrite take_drop).
  assert (C3 : cnt l = cnt L + cnt R) by (rewrite HLR at 1; apply cnt_app).
  rewrite !cnt_app, !length_app, !length_take in *.
  assert (Ht : t = negb (headMarked isMarked L)).
  { subst t L. destruct l, h; simpl in *; try lia; done. }
  assert (Hc2 : 2 * cnt l = length l) by lia.
  assert (exists q, h = 2 * q) as [q Hq] by (exists (h / 2); lia).
  clearbody t L R. clear Hlr Hh Hls Hrs Hc He Hhe.
  destruct Hcase as [(_ & -> & -> & Hl)|(_ & -> & -> & Hl)].
  - destruct L as [|x L]; [simpl in LL; lia|]. destruct R as [|y R]; [simpl in LR; lia|].
    cbn [take] in *. rewrite !cnt_cons in *. subst t. simpl in *. change (cnt []) with 0 in *. rewrite ?drop_0 in *.
    destruct (isMarked x), (isMarked y); simpl in *; lia.
  - destruct L as [|x [|x' L]]; [simpl in LL; lia..|].
    cbn [take] in *. rewrite !cnt_cons in *. subst t. simpl in *. change (cnt []) with 0 in *. rewrite ?drop_0 in *.
    destruct (isMarked x), (isMarked x'); simpl in *; lia.
Qed.
End alternate.

Section correct.
Context {A : Type} (isMarked : A -> bool).
Implicit Types l : list A.
Local Abbreviation cnt := (cnt isMarked).

Lemma alternating_pair l :
  length l = 2 -> cnt l = 1 ->
  let lr := condSwapLoop (fun _ _ _ => negb (headMarked isMarked l)) 0 (take 1 l) (drop 1 l) in
  alternating isMarked (lr.1 ++ lr.2).
Proof.
  intros Hl Hc. destruct l as [|x [|y [|? ?]]]; simpl in Hl; try lia.
  rewrite !cnt_cons in Hc. change (cnt []) with 0 in Hc. simpl.
  intros i w Hw. destruct (isMarked x) eqn:Hx, (isMarked y) eqn:Hy; simpl in *; try lia;
    destruct i as [|[|i]]; simplify_eq/=; done.
Qed.

Lemma InterleaveTwoWay_fuel_alternating fuel : forall l,
  length l <= fuel -> 2 <= length l -> length l mod 2 = 0 -> 2 * cnt l = length l ->
  alternating isMarked (InterleaveTwoWay_fuel fuel isMarked l).
Proof.
  induction fuel as [|fuel IH]; intros l Hf H2 He Hc; [lia|]. cbn [InterleaveTwoWay_fuel].
  destruct (Nat.eqb_spec (length l) 2) as [Hl|Hl]; cbv zeta.
  { apply alternating_pair; lia. }
  assert (Hh : (length l + 2) / 4 * 2 mod 2 = 0 /\ 2 <= (length l + 2) / 4 * 2 <= length l - 2) by lia.
  assert (Hr : (length l - (length l + 2) / 4 * 2) mod 2 = 0) by lia.
  destruct (split_balanced isMarked l _ _ _ _ He ltac:(lia) ltac:(lia) eq_refl eq_refl eq_refl eq_refl)
    as (La & Lb & Ca & Cb).
  apply alternating_app.
  - rewrite (Permutation_length (InterleaveTwoWay_fuel_perm _ _ _)), La.
    apply Nat.even_spec. exists ((length l + 2) / 4). lia.
  - apply IH; rewrite ?La; lia.
  - apply IH; rewrite ?Lb; lia.
Qed.

Lemma InterleaveTwoWay_alternating l :
  2 <= length l -> length l mod 2 = 0 -> 2 * cnt l = length l ->
  alternating isMarked (InterleaveTwoWay isMarked l).
Proof. intros. by apply InterleaveTwoWay_fuel_alternating. Qed.

Lemma InterleaveTwoWayBuckets_alternating L R :
  length L = length R -> 2 <= length L -> length L mod 2 = 0 -> cnt L + cnt R = length L ->
  let lr := InterleaveTwoWayBuckets isMarked L R in
  length lr.1 = length L /\ length lr.2 = length R /\ lr.1 ++ lr.2 ≡ₚ L ++ R /\
  alternating isMarked lr.1 /\ alternating isMarked lr.2.
Proof.
  intros HLR H2 He Hc. unfold InterleaveTwoWayBuckets. cbv zeta. cbn [fst snd].
  destruct L as [|x L]; [simpl in *; lia|]. destruct R as [|y R]; [simpl in *; lia|].
  cbn [headMarked take drop]. rewrite !drop_0. set (t := isMarked y).
  assert (exists q, length (x :: L) = 2 * q) as [q Hq] by (exists (length (x :: L) / 2); lia).
  destruct (tagSwapLoop_length isMarked L t R) as [T1 T2].
  assert (TC := tagSwapLoop_cnt isMarked L t R ltac:(simpl in *; lia)). cbv zeta in TC.
  pose proof (tagSwapLoop_perm isMarked L t R) as TP.
  pose proof (cnt_perm isMarked _ _ TP) as TPc.
  rewrite !cnt_app in TPc. set (lr := tagSwapLoop isMarked t L R) in *.
  simpl app. rewrite 2!InterleaveTwoWay_length.
  cbn [length] in *. rewrite T1, T2.
  rewrite !cnt_cons in Hc. repeat split.
  - rewrite !InterleaveTwoWay_perm. simpl. rewrite <-!Permutation_middle. by rewrite TP.
  - apply InterleaveTwoWay_alternating; cbn [length]; rewrite ?T1, ?cnt_cons; try lia;
    subst t; destruct (isMarked x), (isMarked y); simpl in *; lia.
  - apply InterleaveTwoWay_alternating; cbn [length]; rewrite ?T2, ?cnt_cons; try lia;
    subst t; destruct (isMarked x), (isMarked y); simpl in *; lia.
Qed.

End correct.

(** ** From alternation to partition *)

Section strided.
Context {A : Type}.
Implicit Types l : list A.

Lemma swap_at_lookup i j l k :
  i < length l -> j < length l -> i <> j ->
  swap_at i j l !! k = if decide (k = i) then l !! j else if decide (k = j) then l !! i else l !! k.
Proof.
  intros Hi Hj Hij. unfold swap_at.
  destruct (lookup_lt_is_Some_2 l i Hi) as [x Hx], (lookup_lt_is_Some_2 l j Hj) as [y Hy].
  rewrite Hx, Hy. repeat case_decide; subst.
  - rewrite list_lookup_insert_ne by done. by rewrite list_lookup_insert_eq.
  - by rewrite list_lookup_insert_eq by (rewrite length_insert; lia).
  - by rewrite !list_lookup_insert_ne by done.
Qed.

Lemma swapStrided_perm count : forall a b l, swapStrided count a b l ≡ₚ l.
Proof.
  induction count as [|n IH]; intros a b l; simpl; [done|]. by rewrite IH, swap_at_perm.
Qed.

(** Position [k] of the result: the odd positions below [b] were exchanged
    with the even positions from [b] on. *)
Lemma swapStrided_lookup count : forall a b l k,
  Nat.odd a = true -> Nat.even b = true -> a + 2 * count <= b + 1 ->
  (0 < count -> b + 2 * (count - 1) < length l) ->
  swapStrided count a b l !! k =
    l !! (if (a <=? k) && (k <? a + 2 * count) && Nat.odd k then k + b - a
          else if (b <=? k) && (k <? b + 2 * count) && Nat.even k then k + a - b else k).
Proof.
  induction count as [|n IH]; intros a b l k Ha Hb Hab Hl; cbn [swapStrided].
  { f_equal. destruct (Nat.leb_spec a k), (Nat.leb_spec b k); simpl; try done;
      rewrite ?(proj2 (Nat.ltb_ge k _)) by lia; done. }
  specialize (Hl ltac:(lia)).
  apply Nat.odd_spec in Ha as [a' ->]. apply Nat.even_spec in Hb as [b' ->].
  rewrite IH.
  2: { apply Nat.odd_spec. exists (a' + 1). lia. }
  2: { apply Nat.even_spec. exists (b' + 1). lia. }
  2: lia.
  2: { intros. rewrite swap_at_length. lia. }
  rewrite swap_at_lookup by lia.
  destruct (Nat.Even_or_Odd k) as [[k' ->]|[k' ->]].
  - assert (Nat.odd (2 * k') = false) as -> by (rewrite Nat.odd_mul; done).
    assert (Nat.even (2 * k') = true) as -> by (rewrite Nat.even_mul; done).
    rewrite !andb_false_r, !andb_true_r. case_cmp; simpl; repeat case_decide; try lia; f_equal; lia.
  - assert (Nat.odd (2 * k' + 1) = true) as -> by (apply Nat.odd_spec; by exists k').
    assert (Nat.even (2 * k' + 1) = false) as -> by (rewrite <-Nat.negb_odd; apply negb_false_iff, Nat.odd_spec; by exists k').
    rewrite !andb_false_r, !andb_true_r. case_cmp; simpl; repeat case_decide; try lia; f_equal; lia.
Qed.
End strided.

(** ** Properties *)

(** [InterleaveTwoWay] on a non-empty range of even size, half of whose
    elements are marked, returns a rearrangement in which marked and unmarked
    elements alternate, starting with a marked one. *)
Theorem InterleaveTwoWay_correct {A} (isMarked : A -> bool) (l : list A) :
  2 <= length l -> length l mod 2 = 0 -> 2 * cnt isMarked l = length l ->
  InterleaveTwoWay isMarked l ≡ₚ l /\
  (forall i x, InterleaveTwoWay isMarked l !! i = Some x -> isMarked x = Nat.even i).
Proof.
  intros H2 He Hc. split; [apply InterleaveTwoWay_perm|by apply InterleaveTwoWay_alternating].
Qed.

Lemma InterleaveTwoWay_correct_witness :
  InterleaveTwoWay Nat.even [1; 3; 2; 5; 4; 6] ≡ₚ [1; 3; 2; 5; 4; 6] /\
  (forall i x, InterleaveTwoWay Nat.even [1; 3; 2; 5; 4; 6] !! i = Some x -> Nat.even x = Nat.even i).
Proof.
  apply (InterleaveTwoWay_correct Nat.even [1; 3; 2; 5; 4; 6]); vm_compute; [lia|reflexivity..].
Defined.

Lemma partition_marks {A} (isMarked : A -> bool) (l : list A) Z b i x :
  length l = 2 * Z -> 1 <= Z -> b = Z + Z mod 2 -> alternating isMarked l ->
  swapStrided ((2 * Z - b + 1) / 2) 1 b l !! i = Some x ->
  isMarked x = (i <? Z).
Proof.
  intros Hl HZ -> Ha Hx.
  pose proof (lookup_lt_Some _ _ _ Hx) as Hi.
  rewrite (Permutation_length (swapStrided_perm _ _ _ _)), Hl in Hi.
  assert (exists b', Z + Z mod 2 = 2 * b') as [b' Hb'] by (exists ((Z + 1) / 2); lia).
  rewrite swapStrided_lookup in Hx; [|done| |lia|lia].
  2: { apply Nat.even_spec. by exists b'. }
  apply Ha in Hx. rewrite Hx. clear Hx Ha.
  destruct (Nat.Even_or_Odd i) as [[k ->]|[k ->]].
  - assert (Nat.odd (2 * k) = false) as -> by (rewrite Nat.odd_mul; done).
    assert (Nat.even (2 * k) = true) as -> by (rewrite Nat.even_mul; done).
    rewrite andb_false_r, andb_true_r.
    destruct (Nat.ltb_spec (2 * k) Z).
    + rewrite (proj2 (Nat.leb_gt _ _)) by lia. cbn [andb]. rewrite Nat.even_mul. done.
    + rewrite (proj2 (Nat.leb_le _ _)), (proj2 (Nat.ltb_lt _ _)) by lia. cbn [andb].
      rewrite <-Nat.negb_odd. apply negb_false_iff, Nat.odd_spec. exists (k - b'). lia.
  - assert (Nat.odd (2 * k + 1) = true) as -> by (apply Nat.odd_spec; by exists k).
    assert (Hev : Nat.even (2 * k + 1) = false)
      by (rewrite <-Nat.negb_odd; apply negb_false_iff, Nat.odd_spec; by exists k).
    rewrite Hev, andb_false_r, andb_true_r.
    destruct (Nat.ltb_spec (2 * k + 1) Z).
    + rewrite (proj2 (Nat.leb_le 1 _)), (proj2 (Nat.ltb_lt _ _)) by lia. cbn [andb].
      apply Nat.even_spec. exists (k + b'). lia.
    + rewrite (proj2 (Nat.ltb_ge _ _)) by lia. rewrite andb_false_r. exact Hev.
Qed.

(** [InterleaveTwoWayPartition] moves the marked half of a range of even
    size into its first half. *)
Theorem InterleaveTwoWayPartition_correct {A} (isMarked : A -> bool) (l : list A) :
  2 <= length l -> length l mod 2 = 0 -> 2 * cnt isMarked l = length l ->
  InterleaveTwoWayPartition isMarked l ≡ₚ l /\
  (forall i x, InterleaveTwoWayPartition isMarked l !! i = Some x ->
     isMarked x = (i <? length l / 2)).
Proof.
  intros H2 He Hc. unfold InterleaveTwoWayPartition. split.
  - rewrite swapStrided_perm. apply InterleaveTwoWay_perm.
  - intros i x Hx. assert (Hl : length l = 2 * (length l / 2)) by lia.
    cbv zeta in Hx. rewrite Hl in Hx at 1.
    apply (partition_marks isMarked (InterleaveTwoWay isMarked l)) in Hx; [done|..].
    + by rewrite InterleaveTwoWay_length.
    + lia.
    + done.
    + by apply InterleaveTwoWay_alternating.
Qed.

Lemma InterleaveTwoWayPartition_correct_witness :
  InterleaveTwoWayPartition Nat.even [1; 3; 2; 5; 4; 6] ≡ₚ [1; 3; 2; 5; 4; 6] /\
  (forall i x, InterleaveTwoWayPartition Nat.even [1; 3; 2; 5; 4; 6] !! i = Some x ->
     Nat.even x = (i <? 6 / 2)).
Proof.
  apply (InterleaveTwoWayPartition_correct Nat.even [1; 3; 2; 5; 4; 6]); vm_compute;
    [lia|reflexivity..].
Defined.

(** The two-bucket partition: the marked elements fill the left bucket. *)
Lemma InterleaveTwoWayPartitionBuckets_correct {A} (isMarked : A -> bool) (L R : list A) :
  length L = length R -> 2 <= length L -> length L mod 2 = 0 ->
  cnt isMarked L + cnt isMarked R = length L ->
  let lr := InterleaveTwoWayPartitionBuckets isMarked L R in
  length lr.1 = length L /\ length lr.2 = length R /\ lr.1 ++ lr.2 ≡ₚ L ++ R /\
  Forall (fun x => isMarked x = true) lr.1 /\ Forall (fun x => isMarked x = false) lr.2.
Proof.
  intros HLR H2 He Hc. unfold InterleaveTwoWayPartitionBuckets.
  destruct (InterleaveTwoWayBuckets_alternating isMarked L R HLR H2 He Hc) as (L1 & L2 & P & A1 & A2).
  destruct (InterleaveTwoWayBuckets isMarked L R) as [L' R']. cbn [fst snd] in *.
  assert (Hmod : length R mod 2 = 0) by (by rewrite <-HLR).
  rewrite Hmod, Nat.add_0_r, Nat.sub_0_r, L1.
  assert (Halt : alternating isMarked (L' ++ R')).
  { apply alternating_app; [|done..]. apply Nat.even_spec. exists (length L / 2). lia. }
  set (out := swapStrided ((length R + 1) / 2) 1 (length L) (L' ++ R')).
  assert (Pm : forall i x, out !! i = Some x -> isMarked x = (i <? length L)).
  { intros i x Hx. apply (partition_marks isMarked (L' ++ R') (length L) (length L)); try done.
    - rewrite length_app. lia.
    - lia.
    - lia.
    - subst out. rewrite <-Hx. f_equal. f_equal. lia. }
  assert (Lo : length out = 2 * length L).
  { subst out. rewrite (Permutation_length (swapStrided_perm _ _ _ _)), length_app. lia. }
  rewrite length_take, length_drop, Lo. split_and!; [lia|lia| | |].
  - rewrite take_drop. subst out. by rewrite swapStrided_perm.
  - apply Forall_lookup. intros i x Hx. apply lookup_take_Some in Hx as [Hx Hi].
    apply Pm in Hx. lia.
  - apply Forall_lookup. intros i x Hx. rewrite lookup_drop in Hx. apply Pm in Hx. lia.
Qed.
