(* ===== verification/EdgeRec.v ===== *)
(** * Balanced orientation of the mark graph
    (osort/external_memory/algorithm/edge_rec.hpp)

    An [EdgeRec] is a graph on at most eight vertices kept in a 64-bit word:
    bit [8 * u + v] stands for the arc from [u] to [v].  [flipEdge] records a
    pair of marks (so an edge is set when the pair occurred an odd number of
    times), [EulerPath] orients the recorded edges along closed walks, and
    [retrieveAndFlipEdge] reads the direction of a pair and reverses it for its
    next occurrence.

    Shift counts follow the x86-64 shift instructions the code is compiled to,
    which use the low six bits: once all edges are walked, [countr_zero(0)] is
    64 and the source shifts [1UL] by it. *)
From S2P Require Import Prelude.
Local Open Scope Z_scope.

(** ** Definitions *)

Record EdgeRec := mkEdgeRec { edges : Z; vertices : Z }.

Definition newEdgeRec (k : Z) : EdgeRec := mkEdgeRec 0 k.

Definition getEdgeOffset (v0 v1 : Z) : Z := w16 (Z.lor (Z.shiftl v0 3) v1).

(** [1UL << n] *)
Definition bit64 (n : Z) : Z := Z.shiftl 1 (Z.land n 63).

Definition getEdgesMask (v0 v1 : Z) : Z :=
  Z.lor (bit64 (getEdgeOffset v0 v1)) (bit64 (getEdgeOffset v1 v0)).

Definition flipMask (mask : Z) (rec : EdgeRec) : EdgeRec :=
  mkEdgeRec (Z.lxor (edges rec) mask) (vertices rec).

Definition flipEdge (v0 v1 : Z) (rec : EdgeRec) : EdgeRec := flipMask (getEdgesMask v0 v1) rec.

Definition retrieveEdge (v0 v1 : Z) (rec : EdgeRec) : bool :=
  negb (Z.land (Z.shiftr (edges rec) (getEdgeOffset v0 v1)) 1 =? 0).

(** Retrieve the direction of [v0 -> v1] and flip it. *)
Definition retrieveAndFlipEdge (v0 v1 : Z) (rec : EdgeRec) : bool * EdgeRec :=
  let v0_to_v1_mask := bit64 (getEdgeOffset v0 v1) in
  let v1_to_v0_mask := bit64 (getEdgeOffset v1 v0) in
  let rec := flipMask (Z.lor v0_to_v1_mask v1_to_v0_mask) rec in
  (Z.land (edges rec) v0_to_v1_mask =? 0, rec).

(** [std::countr_zero] on 64 bits. *)
Fixpoint countr_zero_from (n : nat) (i : Z) (x : Z) : Z :=
  match n with
  | O => i
  | S n => if Z.testbit x i then i else countr_zero_from n (i + 1) x
  end.
Definition countr_zero (x : Z) : Z := countr_zero_from 64 0 x.

Definition lnot64 (x : Z) : Z := w64 (Z.lnot x).

(** One iteration of the walk; the state is [(edges, path, v8)]. *)
Definition EulerPath_step (st : Z * Z * Z) : Z * Z * Z :=
  let '(es, path, v8) := st in
  let choices := Z.land es (w64 (Z.shiftl (2 ^ 64 - 1) v8)) in
  let trailingZeros := countr_zero choices in
  let next := Z.land trailingZeros 7 in
  let v0 := Z.shiftr trailingZeros 3 in
  let v0_to_next_mask := bit64 trailingZeros in
  let v8 := Z.shiftl next 3 in
  let next_to_v0_mask := bit64 (Z.lor v8 v0) in
  let es := Z.land es (lnot64 (Z.lor v0_to_next_mask next_to_v0_mask)) in
  (es, Z.lor path v0_to_next_mask, v8).

Fixpoint EulerPath_loop (n : nat) (st : Z * Z * Z) : Z * Z * Z :=
  match n with
  | O => st
  | S n => EulerPath_loop n (EulerPath_step st)
  end.

Definition EulerPath (numEdge : Z) (rec : EdgeRec) : EdgeRec :=
  let k := vertices rec in
  let numEdge := Z.min numEdge (k * (k - 1) / 2) in
  let path := Z.land (lnot64 (edges rec)) 0xFF7F3F1F0F070301 in
  let es := Z.land (edges rec) (lnot64 0x8040201008040201) in
  let '(_, path, _) := EulerPath_loop (Z.to_nat numEdge) (es, path, 0) in
  mkEdgeRec path k.

(** ** Arcs as bits *)

(** A vertex number. *)
Definition vtx (v : Z) : Prop := 0 <= v < 8.
Definition all_vtx : list Z := [0; 1; 2; 3; 4; 5; 6; 7].

(** The arc [u -> v] is set in the word [x]. *)
Definition arc (x u v : Z) : bool := Z.testbit x (8 * u + v).

Lemma vtx_all v : vtx v <-> v ∈ all_vtx.
Proof.
  unfold vtx, all_vtx. rewrite !elem_of_cons, elem_of_nil. lia.
Qed.

Lemma getEdgeOffset_vtx u v : vtx u -> vtx v -> getEdgeOffset u v = 8 * u + v.
Proof.
  intros Hu Hv. apply vtx_all in Hu, Hv. unfold all_vtx in *.
  rewrite !elem_of_cons, elem_of_nil in Hu, Hv.
  destruct_or?; subst; done.
Qed.

Lemma bit64_testbit n i : 0 <= n < 64 -> 0 <= i -> Z.testbit (bit64 n) i = (i =? n).
Proof.
  intros Hn Hi. unfold bit64.
  assert (Z.land n 63 = n) as ->.
  { change 63 with (Z.ones 6). rewrite Z.land_ones by lia. by apply Z.mod_small. }
  rewrite Z.shiftl_1_l, Z.pow2_bits_eqb by lia. apply Z.eqb_sym.
Qed.

Lemma bit64_width n : in_width 64 (bit64 n).
Proof.
  unfold bit64. rewrite Z.shiftl_1_l. change 63 with (Z.ones 6). rewrite Z.land_ones by lia.
  pose proof (Z.mod_pos_bound n (2 ^ 6) ltac:(lia)). split; [lia|].
  apply Z.pow_lt_mono_r; lia.
Qed.

(** The mask of a pair touches exactly its two arcs. *)
Lemma getEdgesMask_arc a b u v :
  vtx a -> vtx b -> vtx u -> vtx v ->
  arc (getEdgesMask a b) u v = (u =? a) && (v =? b) || (u =? b) && (v =? a).
Proof.
  unfold vtx. intros Ha Hb Hu Hv. unfold arc, getEdgesMask.
  rewrite Z.lor_spec, !getEdgeOffset_vtx, !bit64_testbit by (unfold vtx; lia). lia.
Qed.

Lemma lnot64_testbit x i : 0 <= i -> Z.testbit (lnot64 x) i = (i <? 64) && negb (Z.testbit x i).
Proof. intros Hi. unfold lnot64. by rewrite wrap_testbit, Z.lnot_spec by lia. Qed.

Lemma countr_zero_from_spec n : forall i x,
  0 <= i ->
  let t := countr_zero_from n i x in
  (i <= t < i + Z.of_nat n /\ Z.testbit x t = true /\ (forall j, i <= j < t -> Z.testbit x j = false)) \/
  (t = i + Z.of_nat n /\ forall j, i <= j < i + Z.of_nat n -> Z.testbit x j = false).
Proof.
  induction n as [|n IH]; intros i x Hi; cbn [countr_zero_from].
  - right. split; [lia|]. intros. lia.
  - destruct (Z.testbit x i) eqn:Hb.
    + left. split; [lia|]. split; [done|]. intros. lia.
    + destruct (IH (i + 1) x ltac:(lia)) as [(H1 & H2 & H3)|(H1 & H2)].
      * left. split; [lia|]. split; [done|]. intros j Hj.
        destruct (decide (j = i)) as [->|]; [done|]. apply H3. lia.
      * right. split; [lia|]. intros j Hj.
        destruct (decide (j = i)) as [->|]; [done|]. apply H2. lia.
Qed.

(** ** Sums over the vertices *)

Definition sum8 (f : Z -> Z) : Z := foldr (fun v a => f v + a) 0 all_vtx.

Lemma sum8_ext f g : (forall v, vtx v -> f v = g v) -> sum8 f = sum8 g.
Proof. intros H. unfold sum8, all_vtx. simpl. rewrite !H by (unfold vtx; lia). done. Qed.

Lemma sum8_add f g : sum8 (fun v => f v + g v) = sum8 f + sum8 g.
Proof. unfold sum8, all_vtx. simpl. lia. Qed.

Lemma sum8_opp f : sum8 (fun v => - f v) = - sum8 f.
Proof. unfold sum8, all_vtx. simpl. lia. Qed.

Lemma sum8_delta a d : vtx a -> sum8 (fun v => if v =? a then d else 0) = d.
Proof.
  intros Ha. apply vtx_all in Ha. unfold all_vtx in Ha. rewrite !elem_of_cons, elem_of_nil in Ha.
  unfold sum8, all_vtx. simpl. destruct_or?; subst; simpl; lia.
Qed.

Lemma sum8_le f g : (forall v, vtx v -> f v <= g v) -> sum8 f <= sum8 g.
Proof.
  intros H. unfold sum8, all_vtx. simpl.
  pose proof (H 0 ltac:(unfold vtx; lia)). pose proof (H 1 ltac:(unfold vtx; lia)).
  pose proof (H 2 ltac:(unfold vtx; lia)). pose proof (H 3 ltac:(unfold vtx; lia)).
  pose proof (H 4 ltac:(unfold vtx; lia)). pose proof (H 5 ltac:(unfold vtx; lia)).
  pose proof (H 6 ltac:(unfold vtx; lia)). pose proof (H 7 ltac:(unfold vtx; lia)). lia.
Qed.

Lemma sum8_nonneg_zero f : (forall v, vtx v -> 0 <= f v) -> sum8 f <= 0 -> forall v, vtx v -> f v = 0.
Proof.
  intros H Hs v Hv.
  assert (sum8 (fun w => if w =? v then f v else 0) <= sum8 f) as Hd.
  { apply sum8_le. intros w Hw. destruct (Z.eqb_spec w v) as [->|]; [lia|by apply H]. }
  rewrite sum8_delta in Hd by done. pose proof (H v Hv). lia.
Qed.

(** Number of arcs leaving [w], and number of all arcs. *)
Definition deg (x w : Z) : Z := sum8 (fun v => Z.b2z (arc x w v)).
Definition size8 (x : Z) : Z := sum8 (deg x).

(** Out-degree minus in-degree of [w] among the arcs of [p] over edges of [e]. *)
Definition excess (e p w : Z) : Z :=
  sum8 (fun v => if arc e w v then Z.b2z (arc p w v) - Z.b2z (arc p v w) else 0).

Lemma deg_nonneg x w : 0 <= deg x w.
Proof.
  apply Z.le_trans with (sum8 (fun _ => 0)); [done|].
  apply sum8_le. intros v _. destruct (arc x w v); simpl; lia.
Qed.

(** A graph: symmetric, without loops. *)
Definition simple (e : Z) : Prop :=
  (forall u v, vtx u -> vtx v -> arc e u v = arc e v u) /\ (forall u, vtx u -> arc e u u = false).

(** [e'] is [e] without the edge between [a] and [b]. *)
Definition removes (e e' a b : Z) : Prop :=
  forall u v, vtx u -> vtx v ->
    arc e' u v = arc e u v && negb ((u =? a) && (v =? b) || (u =? b) && (v =? a)).

(** Case split on the vertex comparisons of the goal. *)
Ltac arc_cases :=
  repeat match goal with
  | |- context [(?x =? ?y)%Z] => destruct (Z.eqb_spec x y); subst; simpl; try done
  end.

Lemma removes_deg e e' a b w :
  simple e -> removes e e' a b -> vtx a -> vtx b -> arc e a b = true -> vtx w ->
  deg e' w = deg e w - Z.b2z (w =? a) - Z.b2z (w =? b).
Proof.
  intros [Hsym Hloop] Hr Ha Hb Hab Hw.
  assert (Hne : a <> b) by (intros ->; rewrite Hloop in Hab; done).
  assert (Hba : arc e b a = true) by (by rewrite Hsym).
  set (o := if w =? a then b else a).
  assert (E : deg e' w = sum8 (fun v => Z.b2z (arc e w v) +
    (if v =? o then (if (w =? a) || (w =? b) then -1 else 0) else 0))).
  { apply sum8_ext. intros v Hv. rewrite Hr by done. subst o.
    arc_cases; rewrite ?Hab, ?Hba, ?andb_true_r, ?andb_false_r; simpl; lia. }
  rewrite E, sum8_add. fold (deg e w). rewrite sum8_delta.
  - destruct (Z.eqb_spec w a), (Z.eqb_spec w b); simpl; lia.
  - subst o. by destruct (w =? a).
Qed.

Lemma removes_size e e' a b :
  simple e -> removes e e' a b -> vtx a -> vtx b -> arc e a b = true ->
  size8 e' = size8 e - 2.
Proof.
  intros Hs Hr Ha Hb Hab. unfold size8.
  assert (E : sum8 (deg e') = sum8 (fun w => deg e w + ((if w =? a then -1 else 0) + (if w =? b then -1 else 0)))).
  { apply sum8_ext. intros w Hw. rewrite (removes_deg e e' a b w) by done.
    destruct (w =? a), (w =? b); simpl; lia. }
  rewrite E, !sum8_add, !sum8_delta by done. change (sum8 (fun v => deg e v)) with (sum8 (deg e)). lia.
Qed.

Lemma excess_step e0 p p' a b w :
  simple e0 -> vtx a -> vtx b -> vtx w -> arc e0 a b = true ->
  arc p a b = false ->
  (forall u v, vtx u -> vtx v -> arc p' u v = arc p u v || (u =? a) && (v =? b)) ->
  excess e0 p' w = excess e0 p w + Z.b2z (w =? a) - Z.b2z (w =? b).
Proof.
  intros [Hsym Hloop] Ha Hb Hw Hab Hp Hp'.
  assert (Hne : a <> b) by (intros ->; rewrite Hloop in Hab; done).
  assert (Hba : arc e0 b a = true) by (by rewrite Hsym).
  set (o := if w =? a then b else a).
  assert (E : excess e0 p' w = sum8 (fun v =>
    (if arc e0 w v then Z.b2z (arc p w v) - Z.b2z (arc p v w) else 0) +
    (if v =? o then (if w =? a then 1 else if w =? b then -1 else 0) else 0))).
  { apply sum8_ext. intros v Hv. rewrite !Hp' by done. subst o.
    arc_cases; rewrite ?Hab, ?Hba, ?Hp, ?andb_true_r, ?andb_false_r, ?orb_false_r, ?orb_true_r; simpl;
      repeat match goal with |- context [arc ?q ?x ?y] => destruct (arc q x y); simpl end; lia. }
  rewrite E, sum8_add. fold (excess e0 p w). rewrite sum8_delta.
  - destruct (Z.eqb_spec w a), (Z.eqb_spec w b); simpl; lia.
  - subst o. by destruct (w =? a).
Qed.

(** ** One step of the walk *)


Lemma split_index t : 0 <= t < 64 ->
  Z.land t 7 = t mod 8 /\ Z.shiftr t 3 = t / 8 /\
  Z.lor (Z.shiftl (t mod 8) 3) (t / 8) = 8 * (t mod 8) + t / 8 /\ vtx (t mod 8) /\ vtx (t / 8).
Proof.
  intros Ht.
  assert (H1 : Z.land t 7 = t mod 8) by (change 7 with (Z.ones 3); by rewrite Z.land_ones).
  assert (H2 : Z.shiftr t 3 = t / 8) by (by rewrite Z.shiftr_div_pow2).
  assert (H3 : vtx (t mod 8) /\ vtx (t / 8)).
  { unfold vtx. split; [apply Z.mod_pos_bound; lia|].
    split; [apply Z.div_pos; lia|apply Z.div_lt_upper_bound; lia]. }
  destruct H3 as [H3 H4]. split; [done|]. split; [done|]. split; [|done].
  rewrite <-(getEdgeOffset_vtx (t mod 8) (t / 8)) by done. unfold getEdgeOffset.
  rewrite wrap_small; [done|]. split.
  - apply Z.lor_nonneg. unfold vtx in *. split; [apply Z.shiftl_nonneg; lia|lia].
  - assert (in_width 16 (Z.lor (Z.shiftl (t mod 8) 3) (t / 8))) as [_ Hw]; [|done].
    unfold vtx in *. apply lor_in_width; [lia| |unfold in_width; lia].
    rewrite Z.shiftl_mul_pow2 by lia. unfold in_width. lia.
Qed.

Lemma choices_testbit es c i :
  in_width 64 es -> vtx c -> 0 <= i ->
  Z.testbit (Z.land es (w64 (Z.shiftl (2 ^ 64 - 1) (8 * c)))) i = Z.testbit es i && (8 * c <=? i).
Proof.
  unfold vtx. intros Hw Hc Hi. rewrite Z.land_spec, wrap_testbit by lia.
  destruct (Z.ltb_spec i 64) as [Hlt|Hge].
  - rewrite Z.shiftl_spec by lia. change (2 ^ 64 - 1) with (Z.ones 64). cbn [andb].
    destruct (Z.leb_spec (8 * c) i).
    + by rewrite Z.ones_spec_low by lia.
    + by rewrite (Z.testbit_neg_r _ (i - 8 * c)) by lia.
  - by rewrite (in_width_high_bits 64 es) by (done || lia).
Qed.

Lemma arc_of_index x t : arc x (t / 8) (t mod 8) = Z.testbit x t.
Proof. unfold arc. f_equal. pose proof (Z.div_mod t 8 ltac:(lia)). lia. Qed.

(** What a step does: it walks the first edge at or after the current vertex,
    or finds no edge there. *)
Lemma EulerPath_step_spec es path c :
  in_width 64 es -> vtx c ->
  (exists u n es' path',
     EulerPath_step (es, path, 8 * c) = (es', path', 8 * n) /\
     vtx u /\ vtx n /\ c <= u /\ arc es u n = true /\
     (forall w v, c <= w < u -> vtx v -> arc es w v = false) /\
     in_width 64 es' /\ removes es es' u n /\
     (forall x y, vtx x -> vtx y -> arc path' x y = arc path x y || (x =? u) && (y =? n))) \/
  (exists es' path',
     EulerPath_step (es, path, 8 * c) = (es', path', 0) /\
     (forall w v, c <= w < 8 -> vtx v -> arc es w v = false) /\
     in_width 64 es' /\ (forall x y, vtx x -> vtx y -> arc es x y = false -> arc es' x y = false) /\
     (forall x y, vtx x -> vtx y -> x <> y -> arc path' x y = arc path x y)).
Proof.
  intros Hw Hc. unfold EulerPath_step.
  set (ch := Z.land es (w64 (Z.shiftl (2 ^ 64 - 1) (8 * c)))).
  assert (Hch : forall i, 0 <= i -> Z.testbit ch i = Z.testbit es i && (8 * c <=? i))
    by (intros; by apply choices_testbit).
  assert (Hland : forall m, in_width 64 (Z.land es (lnot64 m))).
  { intros m. apply land_in_width_l; [lia|done|]. apply wrap_in_width. lia. }
  destruct (countr_zero_from_spec 64 0 ch ltac:(lia)) as [(H1 & H2 & H3)|(H1 & H2)];
    fold (countr_zero ch) in *.
  - left. set (t := countr_zero ch) in *. assert (Ht : 0 <= t < 64) by lia.
    destruct (split_index t Ht) as (E1 & E2 & E3 & Hn & Hu). rewrite E1, E2, E3.
    exists (t / 8), (t mod 8). do 2 eexists. split.
    { rewrite Z.shiftl_mul_pow2, (Z.mul_comm _ (2 ^ 3)) by lia. reflexivity. }
    rewrite Hch in H2 by lia. apply andb_true_iff in H2 as [H2 H2'].
    assert (c <= t / 8) by (apply Z.div_le_lower_bound; lia).
    split_and!; try done.
    + by rewrite arc_of_index.
    + intros w v Hwv Hv. unfold vtx in *. unfold arc.
      assert (8 * w + v < t) by (pose proof (Z.div_mod t 8 ltac:(lia)); lia).
      specialize (H3 (8 * w + v) ltac:(lia)). rewrite Hch in H3 by lia.
      rewrite (proj2 (Z.leb_le _ _)), andb_true_r in H3 by lia. done.
    + intros x y Hx Hy. unfold arc, vtx in *.
      rewrite Z.land_spec, lnot64_testbit, Z.lor_spec by lia.
      rewrite (bit64_testbit t), bit64_testbit by lia.
      pose proof (Z.div_mod t 8 ltac:(lia)).
      rewrite (proj2 (Z.ltb_lt (8 * x + y) 64)) by lia. f_equal. cbn [andb]. f_equal. lia.
    + intros x y Hx Hy. unfold arc, vtx in *. rewrite Z.lor_spec, bit64_testbit by lia.
      f_equal. pose proof (Z.div_mod t 8 ltac:(lia)). lia.
  - right. rewrite H1. change (0 + Z.of_nat 64) with 64 in *.
    change (Z.land 64 7) with 0. change (Z.shiftl 0 3) with 0. do 2 eexists. split; [reflexivity|].
    split_and!; try done.
    + intros w v Hwv Hv. unfold arc, vtx in *. specialize (H2 (8 * w + v) ltac:(lia)).
      rewrite Hch in H2 by lia. rewrite (proj2 (Z.leb_le _ _)), andb_true_r in H2 by lia. done.
    + intros x y Hx Hy Hxy. unfold arc in *. by rewrite Z.land_spec, Hxy.
    + intros x y Hx Hy Hne. unfold arc, vtx in *. rewrite Z.lor_spec.
      change (bit64 64) with (bit64 0). rewrite bit64_testbit by lia.
      destruct (Z.eqb_spec (8 * x + y) 0); [lia|]. apply orb_false_r.
Qed.

(** ** The invariant of the walk *)

(** [e0] is the graph to orient, [es] the edges not yet walked; the current
    closed walk started at [s] and has reached [c]. *)
Record walk_inv (e0 es path s c : Z) : Prop := {
  wi_width : in_width 64 es;
  wi_s : vtx s;
  wi_c : vtx c;
  wi_simple : simple es;
  wi_sub : forall u v, vtx u -> vtx v -> arc es u v = true -> arc e0 u v = true;
  wi_low : forall u v, 0 <= u < s -> vtx v -> arc es u v = false;
  wi_parity : forall w, vtx w -> Z.odd (deg es w) = xorb (w =? s) (w =? c);
  wi_excess : forall w, vtx w -> excess e0 path w = Z.b2z (w =? s) - Z.b2z (w =? c);
  wi_todo : forall u v, vtx u -> vtx v -> arc es u v = true -> arc path u v = false;
  wi_done : forall u v, vtx u -> vtx v -> u <> v -> arc es u v = false ->
              arc path u v = negb (arc path v u);
}.

Lemma deg_zero es w : (forall v, vtx v -> arc es w v = false) -> deg es w = 0.
Proof.
  intros H. unfold deg. rewrite (sum8_ext _ (fun _ => 0)); [done|].
  intros v Hv. by rewrite H.
Qed.

(** When the walk is closed, it may be restarted at any later vertex below
    which no edge is left. *)
Lemma walk_restart e0 es path s u :
  walk_inv e0 es path s s -> vtx u ->
  (forall w v, s <= w < u -> vtx v -> arc es w v = false) ->
  walk_inv e0 es path u u.
Proof.
  intros [] Hu Hlow. split; try done.
  - intros w v Hw Hv. destruct (Z.lt_ge_cases w s); [apply wi_low0; [lia|done]|].
    apply Hlow; [lia|done].
  - intros w Hw. rewrite wi_parity0 by done. by rewrite !xorb_nilpotent.
  - intros w Hw. rewrite wi_excess0 by done. lia.
Qed.

(** Walking the edge from the current vertex [c] to [n]. *)
Lemma walk_edge e0 es path es' path' s c n :
  simple e0 -> walk_inv e0 es path s c -> vtx n -> arc es c n = true ->
  in_width 64 es' -> removes es es' c n ->
  (forall x y, vtx x -> vtx y -> arc path' x y = arc path x y || (x =? c) && (y =? n)) ->
  walk_inv e0 es' path' s n.
Proof.
  intros He0 [] Hn Hcn Hw' Hr Hp'.
  assert (Hne : c <> n) by (intros ->; destruct wi_simple0 as [_ Hl]; rewrite Hl in Hcn; done).
  assert (Hnc : arc es n c = true) by (destruct wi_simple0 as [Hsym _]; by rewrite Hsym).
  split; try done.
  - destruct wi_simple0 as [Hsym Hloop]. split.
    + intros u v Hu Hv. rewrite !Hr, (Hsym u v) by done. f_equal. lia.
    + intros u Hu. by rewrite Hr, Hloop.
  - intros u v Hu Hv. rewrite Hr, andb_true_iff by done. intros [? _]. by apply wi_sub0.
  - intros u v Hu Hv. rewrite Hr, wi_low0 by (done || unfold vtx in *; lia). done.
  - intros w Hw. rewrite (removes_deg es es' c n w) by done.
    rewrite !Z.odd_sub, wi_parity0 by done. destruct (w =? s), (w =? c), (w =? n); done.
  - intros w Hw. rewrite (excess_step e0 path path' c n w) by (auto; fail).
    rewrite wi_excess0 by done. lia.
  - intros u v Hu Hv. rewrite Hr, andb_true_iff, negb_true_iff by done. intros [Huv Hneq].
    rewrite Hp', wi_todo0 by done. simpl. destruct (Z.eqb_spec u c), (Z.eqb_spec v n); subst; try done;
      by rewrite !Z.eqb_refl in Hneq.
  - intros u v Hu Hv Huv. rewrite Hr by done. intros Hd. rewrite !Hp' by done.
    destruct (decide (u = c /\ v = n \/ u = n /\ v = c)) as [Hpair|Hpair].
    + destruct Hpair as [[-> ->]|[-> ->]]; rewrite (wi_todo0 c n), (wi_todo0 n c) by done;
        rewrite !Z.eqb_refl; simpl; destruct (Z.eqb_spec n c), (Z.eqb_spec c n); done.
    + assert (arc es u v = false) by (destruct (arc es u v); [simpl in Hd; lia|done]).
      rewrite (wi_done0 u v) by done.
      assert ((u =? c) && (v =? n) = false) as -> by lia.
      assert ((v =? c) && (u =? n) = false) as -> by lia.
      by rewrite !orb_false_r.
Qed.

(** An odd remaining degree means an edge is left at that vertex. *)
Lemma odd_has_edge es w : Z.odd (deg es w) = true -> exists v, vtx v /\ arc es w v = true.
Proof.
  intros H.
  destruct (decide (Exists (fun v => arc es w v = true) all_vtx)) as [He|He].
  - apply Exists_exists in He as (v & Hv & ?). exists v. split; [by apply vtx_all|done].
  - rewrite deg_zero in H; [done|]. intros v Hv. apply vtx_all in Hv.
    destruct (arc es w v) eqn:E; [|done]. exfalso. apply He, Exists_exists. eauto.
Qed.

Lemma walk_step e0 es path s c :
  simple e0 -> walk_inv e0 es path s c ->
  exists es' path' s' c', EulerPath_step (es, path, 8 * c) = (es', path', 8 * c') /\
    walk_inv e0 es' path' s' c' /\ (0 < size8 es -> size8 es' <= size8 es - 2) /\
    (size8 es <= 0 -> size8 es' <= 0).
Proof.
  intros He0 Hinv. pose proof Hinv as [].
  destruct (EulerPath_step_spec es path c wi_width0 wi_c0) as
    [(u & n & es' & path' & E & Hu & Hn & Hcu & Hun & Hgap & Hw' & Hr & Hp')
    |(es' & path' & E & Hgap & Hw' & Hes' & Hp')].
  - assert (Hinv' : exists s', walk_inv e0 es path s' u).
    { destruct (Z.eq_dec s c) as [->|Hne].
      - exists u. by apply (walk_restart e0 es path c u).
      - exists s. assert (u = c) as ->; [|done].
        destruct (odd_has_edge es c) as (v & Hv & Hcv).
        { rewrite wi_parity0 by done. rewrite Z.eqb_refl. by destruct (Z.eqb_spec c s). }
        destruct (Z.lt_ge_cases c u); [|lia]. by rewrite (Hgap c v) in Hcv by (done || lia). }
    destruct Hinv' as [s' Hinv'].
    exists es', path', s', n. split; [done|]. split; [by apply (walk_edge e0 es path es' path' s' u n)|].
    rewrite (removes_size es es' u n) by done. lia.
  - assert (Hz : forall x y, vtx x -> vtx y -> arc es x y = false).
    { assert (s = c) as ->.
      { destruct (Z.eq_dec s c) as [|Hne]; [done|]. exfalso.
        destruct (odd_has_edge es c) as (v & Hv & Hcv).
        { rewrite wi_parity0 by done. rewrite Z.eqb_refl. by destruct (Z.eqb_spec c s). }
        by rewrite (Hgap c v) in Hcv by (done || unfold vtx in *; lia). }
      intros x y Hx Hy. destruct (Z.lt_ge_cases x c).
      - apply wi_low0; [unfold vtx in *; lia|done].
      - apply Hgap; [unfold vtx in *; lia|done]. }
    assert (Hz' : forall x y, vtx x -> vtx y -> arc es' x y = false) by auto.
    assert (Hsize : forall e, (forall x y, vtx x -> vtx y -> arc e x y = false) -> size8 e = 0).
    { intros e He. unfold size8. rewrite (sum8_ext _ (fun _ => 0)); [done|].
      intros w Hw. apply deg_zero. auto. }
    assert (Hsc : s = c).
    { pose proof (wi_parity0 s wi_s0) as Hp. rewrite deg_zero, Z.eqb_refl in Hp by auto.
      destruct (Z.eqb_spec s c); done. }
    subst s. exists es', path', 0, 0. split; [done|]. split; [|rewrite !Hsize by auto; lia].
    split; try done; unfold vtx in *.
    + split; intros; rewrite !Hz' by done; done.
    + intros u v Hu Hv Huv. by rewrite Hz' in Huv.
    + intros u v Hu. lia.
    + intros w Hw. rewrite deg_zero by auto. by rewrite xorb_nilpotent.
    + intros w Hw. transitivity (excess e0 path w); [|rewrite wi_excess0 by done; lia].
      apply sum8_ext. intros v Hv. destruct (arc e0 w v) eqn:Ewv; [|done].
      assert (w <> v) by (intros ->; destruct He0 as [_ Hl]; rewrite Hl in Ewv; done).
      by rewrite !Hp' by done.
    + intros u v Hu Hv Huv. by rewrite Hz' in Huv.
    + intros u v Hu Hv Hne _. rewrite !Hp' by done. apply wi_done0; auto.
Qed.

Lemma walk_loop e0 n : forall es path s c,
  simple e0 -> walk_inv e0 es path s c -> size8 es <= 2 * Z.of_nat n ->
  exists es' path' s' c', EulerPath_loop n (es, path, 8 * c) = (es', path', 8 * c') /\
    walk_inv e0 es' path' s' c' /\ size8 es' <= 0.
Proof.
  induction n as [|n IH]; intros es path s c He0 Hinv Hn; cbn [EulerPath_loop].
  { exists es, path, s, c. split; [done|]. split; [done|lia]. }
  destruct (walk_step e0 es path s c He0 Hinv) as (es' & path' & s' & c' & -> & Hinv' & H1 & H2).
  apply (IH es' path' s' c'); [done..|]. lia.
Qed.

(** ** The orientation [EulerPath] returns *)

Ltac vtx_cases H :=
  apply vtx_all in H; unfold all_vtx in H; rewrite !elem_of_cons, elem_of_nil in H;
  destruct_or? H; subst; try done.

Lemma loop_mask_arc u v : vtx u -> vtx v -> arc 0x8040201008040201 u v = (u =? v).
Proof. intros Hu Hv. vtx_cases Hu; vtx_cases Hv. Qed.

Lemma down_mask_arc u v : vtx u -> vtx v -> arc 0xFF7F3F1F0F070301 u v = (v <=? u).
Proof. intros Hu Hv. vtx_cases Hu; vtx_cases Hv. Qed.

Lemma arc_land x y u v : arc (Z.land x y) u v = arc x u v && arc y u v.
Proof. apply Z.land_spec. Qed.

Lemma arc_lnot64 x u v : vtx u -> vtx v -> arc (lnot64 x) u v = negb (arc x u v).
Proof.
  unfold vtx, arc. intros Hu Hv. rewrite lnot64_testbit by lia.
  by rewrite (proj2 (Z.ltb_lt (8 * u + v) 64)) by lia.
Qed.

(** The number of arcs of a loop-free graph on [k] vertices. *)
Lemma size8_le_complete e k :
  0 <= k <= 8 -> simple e ->
  (forall u v, vtx u -> vtx v -> arc e u v = true -> u < k /\ v < k) ->
  size8 e <= k * (k - 1).
Proof.
  intros Hk [_ Hl] Hin.
  apply Z.le_trans with (sum8 (fun u => sum8 (fun v => Z.b2z ((u <? k) && (v <? k) && negb (u =? v))))).
  - apply sum8_le. intros u Hu. apply sum8_le. intros v Hv.
    destruct (arc e u v) eqn:E; simpl; [|destruct (_ && _); simpl; lia].
    destruct (Hin u v Hu Hv E). destruct (Z.eqb_spec u v) as [->|]; [by rewrite Hl in E|].
    rewrite !(proj2 (Z.ltb_lt _ _)) by lia. simpl. lia.
  - assert (k = 0 \/ k = 1 \/ k = 2 \/ k = 3 \/ k = 4 \/ k = 5 \/ k = 6 \/ k = 7 \/ k = 8) as Hc by lia.
    destruct_or! Hc; subst; vm_compute; done.
Qed.

(** The graph whose edges are those of [e] between distinct vertices. *)
Definition loopless (e : Z) : Z := Z.land e (lnot64 0x8040201008040201).

Lemma loopless_arc e u v : vtx u -> vtx v -> arc (loopless e) u v = arc e u v && negb (u =? v).
Proof. intros Hu Hv. unfold loopless. by rewrite arc_land, arc_lnot64, loop_mask_arc. Qed.

Lemma EulerPath_orients numEdge e k :
  in_width 64 e -> 1 <= k <= 8 ->
  (forall u v, vtx u -> vtx v -> arc e u v = arc e v u) ->
  (forall u v, vtx u -> vtx v -> arc e u v = true -> u < k /\ v < k) ->
  (forall w, vtx w -> Z.even (deg (loopless e) w) = true) ->
  0 <= numEdge -> size8 (loopless e) <= 2 * numEdge ->
  let p := edges (EulerPath numEdge (mkEdgeRec e k)) in
  (forall u v, vtx u -> vtx v -> u <> v -> arc p u v = negb (arc p v u)) /\
  (forall w, vtx w -> excess (loopless e) p w = 0).
Proof.
  intros Hw Hk Hsym Hin Heven Hn0 Hn. unfold EulerPath. cbn [edges vertices].
  fold (loopless e). set (p0 := Z.land (lnot64 e) _).
  assert (Hs : simple (loopless e)).
  { split.
    - intros u v Hu Hv. rewrite !loopless_arc, Hsym by done. f_equal. lia.
    - intros u Hu. rewrite loopless_arc, Z.eqb_refl by done. apply andb_false_r. }
  assert (Hp0 : forall u v, vtx u -> vtx v -> arc p0 u v = negb (arc e u v) && (v <=? u)).
  { intros u v Hu Hv. subst p0. by rewrite arc_land, arc_lnot64, down_mask_arc. }
  assert (Hinv : walk_inv (loopless e) (loopless e) p0 0 0).
  { split; try done; unfold vtx in *.
    - apply land_in_width_l; [lia|done|]. apply wrap_in_width. lia.
    - intros u v Hu Hv. lia.
    - intros w Hw'. rewrite <-Z.negb_even, Heven by done. by rewrite xorb_nilpotent.
    - intros w Hw'. rewrite Z.sub_diag. transitivity (sum8 (fun _ => 0)); [|done].
      apply sum8_ext. intros v Hv. destruct (arc (loopless e) w v) eqn:E; [|done].
      rewrite loopless_arc, andb_true_iff in E by done. destruct E as [E _].
      rewrite !Hp0, (Hsym v w), E by done. done.
    - intros u v Hu Hv E. rewrite loopless_arc, andb_true_iff in E by done. destruct E as [E _].
      by rewrite Hp0, E.
    - intros u v Hu Hv Hne E. rewrite loopless_arc in E by done.
      assert (Huv : arc e u v = false) by (destruct (arc e u v); [lia|done]).
      rewrite !Hp0, (Hsym v u), Huv by done. simpl. lia. }
  assert (Hsz : size8 (loopless e) <= k * (k - 1)).
  { apply size8_le_complete; [lia|done|]. intros u v Hu Hv E.
    rewrite loopless_arc, andb_true_iff in E by done. destruct E as [E _]. by apply Hin. }
  destruct (walk_loop (loopless e) (Z.to_nat (Z.min numEdge (k * (k - 1) / 2))) (loopless e) p0 0 0 Hs Hinv)
    as (es' & p & s & c & E & Hfin & Hzero).
  { rewrite Z2Nat.id; [|apply Z.min_glb; [done|apply Z.div_pos; nia]].
    assert (2 * (k * (k - 1) / 2) = k * (k - 1)).
    { assert (k = 1 \/ k = 2 \/ k = 3 \/ k = 4 \/ k = 5 \/ k = 6 \/ k = 7 \/ k = 8) as Hc by lia.
      destruct_or! Hc; subst; done. }
    lia. }
  change (8 * 0) with 0 in E. rewrite E. cbn [edges].
  assert (Hempty : forall u v, vtx u -> vtx v -> arc es' u v = false).
  { intros u v Hu Hv.
    pose proof (sum8_nonneg_zero _ (fun w _ => deg_nonneg es' w) Hzero u Hu) as Hd.
    assert (Hb : forall v, vtx v -> Z.b2z (arc es' u v) = 0).
    { apply (sum8_nonneg_zero (fun v => Z.b2z (arc es' u v))).
      - intros w _. destruct (arc es' u w); simpl; lia.
      - unfold deg in Hd. lia. }
    specialize (Hb v Hv). by destruct (arc es' u v). }
  destruct Hfin. split.
  - intros u v Hu Hv Hne. apply wi_done0; auto.
  - intros w Hw'. rewrite wi_excess0 by done.
    pose proof (wi_parity0 s wi_s0) as Hp. rewrite deg_zero, Z.eqb_refl in Hp by auto.
    destruct (Z.eqb_spec s c) as [->|]; [lia|done].
Qed.

(** ** Properties *)

(** C12: [EulerPath] orients the graph of the recorded pairs so that every
    vertex has as many outgoing as incoming arcs, and every edge between
    distinct vertices gets exactly one direction. *)
Theorem EulerPath_balanced numEdge e k :
  in_width 64 e -> 1 <= k <= 8 ->
  (forall u v, vtx u -> vtx v -> arc e u v = arc e v u) ->
  (forall u v, vtx u -> vtx v -> arc e u v = true -> u < k /\ v < k) ->
  (forall w, vtx w -> Z.even (deg (loopless e) w) = true) ->
  0 <= numEdge -> size8 (loopless e) <= 2 * numEdge ->
  let p := edges (EulerPath numEdge (mkEdgeRec e k)) in
  (forall u v, vtx u -> vtx v -> u <> v -> arc p u v = negb (arc p v u)) /\
  (forall w, vtx w -> excess (loopless e) p w = 0).
Proof. intros. by apply EulerPath_orients. Qed.

Lemma EulerPath_balanced_witness :
  let e := Z.lxor (getEdgesMask 0 1) (Z.lxor (getEdgesMask 1 2) (getEdgesMask 2 0)) in
  let p := edges (EulerPath 3 (mkEdgeRec e 3)) in
  (forall u v, vtx u -> vtx v -> u <> v -> arc p u v = negb (arc p v u)) /\
  (forall w, vtx w -> excess (loopless e) p w = 0).
Proof.
  apply (EulerPath_balanced 3 (Z.lxor (getEdgesMask 0 1) (Z.lxor (getEdgesMask 1 2) (getEdgesMask 2 0))) 3).
  - vm_compute. split; [discriminate|reflexivity].
  - lia.
  - intros u v Hu Hv. vtx_cases Hu; vtx_cases Hv.
  - intros u v Hu Hv. vtx_cases Hu; vtx_cases Hv; vm_compute; intros E; done.
  - intros w Hw. vtx_cases Hw.
  - lia.
  - vm_compute. discriminate.
Defined.
