(* ===== verification/StaticSort.v ===== *)
(** * Fixed-size sorting networks
    (osort/external_memory/algorithm/static_sort.hpp)

    [StaticSort<n>] is a Bose-Nelson network generated at compile time.  The
    templates [PS] and [PB] become functions that produce the sequence of
    [Swap] operations they instantiate, with template parameters as arguments;
    the array of elements and the array of marks, which every [Swap] permutes
    together, are one list of (mark, element) pairs. *)
From S2P Require Import Prelude.

(** ** Definitions *)

(** [Swap(a, i0, i1)]: exchange when the mark at [i0] is greater. *)
Definition Swap {A} (i0 i1 : nat) (a : list (Z * A)) : list (Z * A) :=
  match a !! i0, a !! i1 with
  | Some x, Some y =>
      let xy := condSwap (y.1 <? x.1)%Z x y in
      <[i1 := xy.2]> (<[i0 := xy.1]> a)
  | _, _ => a
  end.

(** The comparators of [PB<I, J, X, Y>]; positions are 0-based, as in [Swap]. *)
Fixpoint PB (fuel : nat) (I J X Y : nat) : list (nat * nat) :=
  match fuel with
  | O => []
  | S fuel =>
      match X, Y with
      | 1, 1 => [(I - 1, J - 1)]
      | 1, 2 => [(I - 1, J); (I - 1, J - 1)]
      | 2, 1 => [(I - 1, J - 1); (I, J - 1)]
      | _, _ =>
          let L := X / 2 in
          let M := (if Nat.odd X then Y else Y + 1) / 2 in
          PB fuel I J L M ++ PB fuel (I + L) (J + M) (X - L) (Y - M) ++ PB fuel (I + L) J (X - L) M
      end
  end.

(** The comparators of [PS<I, M, M <= 1>]. *)
Fixpoint PS (fuel : nat) (I M : nat) : list (nat * nat) :=
  match fuel with
  | O => []
  | S fuel =>
      if M <=? 1 then [] else
      let L := M / 2 in
      PS fuel I L ++ PS fuel (I + L) (M - L) ++ PB (M * M) I (I + L) L (M - L)
  end.

Definition StaticSort_network (n : nat) : list (nat * nat) := PS n 1 n.

Definition run_network {A} (net : list (nat * nat)) (a : list (Z * A)) : list (Z * A) :=
  fold_left (fun a ij => Swap ij.1 ij.2 a) net a.

Definition StaticSort {A} (n : nat) (a : list (Z * A)) : list (Z * A) :=
  run_network (StaticSort_network n) a.

(** ** Permutation *)

Lemma Swap_cases {A} i j (a : list (Z * A)) :
  Swap i j a = a \/ exists x y, a !! i = Some x /\ a !! j = Some y /\ Swap i j a = <[j := x]> (<[i := y]> a).
Proof.
  unfold Swap. destruct (a !! i) as [x|] eqn:Hi; [|by left].
  destruct (a !! j) as [y|] eqn:Hj; [|by left]. unfold condSwap.
  destruct (_ <? _)%Z; simpl; [right; eauto|left].
  rewrite (list_insert_id a i x) by done. by apply list_insert_id.
Qed.

Lemma exchange_perm {A} i j x y (a : list A) :
  a !! i = Some x -> a !! j = Some y -> <[j := x]> (<[i := y]> a) ≡ₚ a.
Proof.
  intros Hi Hj. apply Permutation_inj. rewrite !length_insert. split; [done|].
  exists (fun k => if decide (k = j) then i else if decide (k = i) then j else k).
  pose proof (lookup_lt_Some _ _ _ Hi). pose proof (lookup_lt_Some _ _ _ Hj). split.
  - intros k k'. repeat case_decide; congruence.
  - intros k. repeat case_decide; subst.
    + rewrite list_lookup_insert_eq by (rewrite length_insert; lia). done.
    + rewrite list_lookup_insert_ne, list_lookup_insert_eq by (done || lia). done.
    + by rewrite !list_lookup_insert_ne by done.
Qed.

Lemma Swap_perm {A} i j (a : list (Z * A)) : Swap i j a ≡ₚ a.
Proof.
  destruct (Swap_cases i j a) as [->|(x & y & Hx & Hy & ->)]; [done|]. by apply exchange_perm.
Qed.

Lemma run_network_perm {A} net : forall a : list (Z * A), run_network net a ≡ₚ a.
Proof.
  induction net as [|[i j] net IH]; intros a; unfold run_network in *; simpl; [done|].
  by rewrite IH, Swap_perm.
Qed.

(** ** The zero-one principle *)

(** The comparator on 0-1 lists. *)
Definition Swap01 (i j : nat) (a : list bool) : list bool :=
  match a !! i, a !! j with
  | Some x, Some y => <[j := x || y]> (<[i := x && y]> a)
  | _, _ => a
  end.

Definition run01 (net : list (nat * nat)) (a : list bool) : list bool :=
  fold_left (fun a ij => Swap01 ij.1 ij.2 a) net a.

Definition above {A} (t : Z) (x : Z * A) : bool := (t <=? x.1)%Z.

Lemma Swap_above {A} t i j (a : list (Z * A)) :
  i <> j -> above t <$> Swap i j a = Swap01 i j (above t <$> a).
Proof.
  intros Hij. unfold Swap, Swap01. rewrite !list_lookup_fmap.
  destruct (a !! i) as [[x u]|] eqn:Hi; simpl; [|done].
  destruct (a !! j) as [[y v]|] eqn:Hj; simpl; [|done].
  rewrite !list_fmap_insert. unfold condSwap, above. simpl.
  destruct (Z.ltb_spec y x); simpl; destruct (Z.leb_spec t x), (Z.leb_spec t y); simpl; try done; lia.
Qed.

Lemma run_network_above {A} t net : forall a : list (Z * A),
  Forall (fun ij => ij.1 <> ij.2) net ->
  above t <$> run_network net a = run01 net (above t <$> a).
Proof.
  induction net as [|[i j] net IH]; intros a Hd; unfold run_network, run01 in *; simpl; [done|].
  inversion_clear Hd. rewrite IH by done. by rewrite Swap_above.
Qed.

Fixpoint bool_lists (n : nat) : list (list bool) :=
  match n with
  | O => [[]]
  | S n => (cons true <$> bool_lists n) ++ (cons false <$> bool_lists n)
  end.

Lemma bool_lists_complete (l : list bool) : l ∈ bool_lists (length l).
Proof.
  induction l as [|b l IH]; simpl; [set_solver|].
  apply elem_of_app. destruct b; [left|right]; apply list_elem_of_fmap; eauto.
Qed.

Fixpoint sorted01b (l : list bool) : bool :=
  match l with
  | x :: (y :: _) as l' => implb x y && sorted01b l'
  | _ => true
  end.

(** The network sorts every 0-1 input and compares distinct positions. *)
Definition network_ok (n : nat) : bool :=
  forallb (fun ij => negb (ij.1 =? ij.2)) (StaticSort_network n) &&
  forallb (fun l => sorted01b (run01 (StaticSort_network n) l)) (bool_lists n).

Lemma networks_ok n : 3 <= n <= 8 -> network_ok n = true.
Proof.
  intros Hn. assert (n = 3 \/ n = 4 \/ n = 5 \/ n = 6 \/ n = 7 \/ n = 8) as Hc by lia.
  destruct_or! Hc; subst; vm_compute; reflexivity.
Qed.

Lemma sorted01b_lookup l : sorted01b l = true ->
  forall i x y, l !! i = Some x -> l !! S i = Some y -> implb x y = true.
Proof.
  induction l as [|a [|b l] IH]; intros Hs i x y Hx Hy.
  - done.
  - rewrite (lookup_ge_None_2 [a] (S i)) in Hy by (simpl; lia). done.
  - cbn [sorted01b] in Hs. apply andb_true_iff in Hs as [Hs1 Hs2]. destruct i as [|i]; simplify_eq/=; [done|].
    by apply (IH Hs2 i).
Qed.

Lemma StaticSort_sorted {A} (n : nat) (a : list (Z * A)) :
  3 <= n <= 8 -> length a = n ->
  StronglySorted (fun x y => (x.1 <= y.1)%Z) (StaticSort n a).
Proof.
  intros Hn Ha. pose proof (networks_ok n Hn) as Hok. unfold network_ok in Hok.
  apply andb_true_iff in Hok as [Hd Hs].
  assert (Hd' : Forall (fun ij => ij.1 <> ij.2) (StaticSort_network n)).
  { apply Forall_forall. intros ij Hij. rewrite forallb_forall in Hd.
    apply list_elem_of_In in Hij. apply Hd in Hij. lia. }
  apply Sorted_StronglySorted; [intros x y z; lia|].
  assert (Hadj : forall i x y, StaticSort n a !! i = Some x -> StaticSort n a !! S i = Some y -> (x.1 <= y.1)%Z).
  { intros i x y Hx Hy.
    destruct (Z.le_gt_cases x.1 y.1) as [|Hgt]; [done|]. exfalso.
    rewrite forallb_forall in Hs.
    specialize (Hs (above x.1 <$> a)). rewrite <-(run_network_above x.1 _ a Hd') in Hs.
    assert (Hs' : sorted01b (above x.1 <$> StaticSort n a) = true).
    { apply Hs. apply list_elem_of_In. rewrite <-Ha, <-(length_fmap (above x.1)). apply bool_lists_complete. }
    pose proof (sorted01b_lookup _ Hs' i (above x.1 x) (above x.1 y)) as Hi.
    rewrite !list_lookup_fmap, Hx, Hy in Hi. specialize (Hi eq_refl eq_refl).
    unfold above in Hi. rewrite (proj2 (Z.leb_le _ _)), (proj2 (Z.leb_gt _ _)) in Hi by lia. done. }
  clear -Hadj. revert Hadj. generalize (StaticSort n a) as l. induction l as [|x [|y l] IH]; intros Hadj.
  - constructor.
  - repeat constructor.
  - constructor; [|constructor; by apply (Hadj 0)].
    apply IH. intros i u v Hu Hv. by apply (Hadj (S i)).
Qed.

(** ** Properties *)

(** C35: for [n] from 3 to 8, [StaticSort<n>] rearranges an array of [n]
    (mark, element) pairs so that the marks are in ascending order. *)
Theorem StaticSort_correct {A} (n : nat) (a : list (Z * A)) :
  3 <= n <= 8 -> length a = n ->
  StaticSort n a ≡ₚ a /\ StronglySorted (fun x y => (x.1 <= y.1)%Z) (StaticSort n a).
Proof. intros Hn Ha. split; [apply run_network_perm|by apply StaticSort_sorted]. Qed.

Lemma StaticSort_correct_witness :
  StaticSort 4 [(3, 10); (0, 11); (2, 12); (0, 13)]%Z ≡ₚ [(3, 10); (0, 11); (2, 12); (0, 13)]%Z /\
  StronglySorted (fun x y => (x.1 <= y.1)%Z) (StaticSort 4 [(3, 10); (0, 11); (2, 12); (0, 13)]%Z).
Proof. apply (StaticSort_correct 4); [lia|reflexivity]. Defined.
