(* ===== verification/Interleave.v ===== *)
(** * K-way interleaving
    (osort/external_memory/algorithm/sort_building_blocks.hpp, lines 180-277)

    [Interleave] rearranges a range in which each of the marks [0 .. k-1]
    occurs equally often so that the marks read [0 1 .. k-1 0 1 .. k-1 ..].  At
    each level the pairs of marks facing each other across the middle form a
    graph; orienting it along closed walks tells which pairs to swap so that
    both halves have the same number of every mark.  Elements and marks are
    permuted together and are one list of (mark, element) pairs. *)
From stdpp Require Import sorting.
From S2P Require Import Prelude EdgeRec StaticSort.

(** ** Definitions *)

Abbreviation item A := (Z * A)%type.

(** [InterleaveBaseCase]: [None] is the [abort] of the default case. *)
Definition InterleaveBaseCase {A} (k : nat) (items : list (item A)) : option (list (item A)) :=
  if (3 <=? k) && (k <=? 8) then Some (StaticSort k items) else None.

(** [rec.flipEdge( *marksLeft, *marksRight )] over both halves. *)
Fixpoint recordEdges {A} (rec : EdgeRec) (L R : list (item A)) : EdgeRec :=
  match L, R with
  | x :: L, y :: R => recordEdges (flipEdge x.1 y.1 rec) L R
  | _, _ => rec
  end.

(** The swap pass along the path. *)
Fixpoint followPath {A} (path : EdgeRec) (L R : list (item A)) : list (item A) * list (item A) :=
  match L, R with
  | x :: L, y :: R =>
      let '(swapFlag, path) := retrieveAndFlipEdge x.1 y.1 path in
      let xy := condSwap swapFlag x y in
      let lr := followPath path L R in
      (xy.1 :: lr.1, xy.2 :: lr.2)
  | _, _ => (L, R)
  end.

(** The orientation of the first pair decides whether the path is reversed, so
    that the first pair is never swapped. *)
Definition balanceHalves {A} (k : nat) (items : list (item A)) : list (item A) * list (item A) :=
  let size := length items in
  let L := take (size / 2) items in
  let R := drop (size / 2) items in
  let rec := recordEdges (newEdgeRec (Z.of_nat k)) L R in
  let path := EulerPath (Z.of_nat (size / 2)) rec in
  match L, R with
  | x :: L, y :: R =>
      let '(reversePath, path) := retrieveAndFlipEdge x.1 y.1 path in
      let path := flipMask (w64 (- Z.b2z reversePath)) path in
      let lr := followPath path L R in
      (x :: lr.1, y :: lr.2)
  | _, _ => (L, R)
  end.

Fixpoint Interleave_fuel {A} (fuel k : nat) (items : list (item A)) : option (list (item A)) :=
  match fuel with
  | O => None
  | S fuel =>
      let size := length items in
      if size =? k then InterleaveBaseCase k items else
      let lr := balanceHalves k items in
      match Interleave_fuel fuel k lr.1, Interleave_fuel fuel k lr.2 with
      | Some a, Some b => Some (a ++ b)
      | _, _ => None
      end
  end.

Definition Interleave {A} (k : nat) (items : list (item A)) : option (list (item A)) :=
  Interleave_fuel (length items) k items.

(** ** Counting marks *)

Definition cntm {A} (w : Z) (l : list (item A)) : Z :=
  foldr (fun x a => (Z.b2z (x.1 =? w) + a)%Z) 0%Z l.

Section facts.
Context {A : Type}.
Implicit Types l L R : list (item A).
Local Open Scope Z_scope.

Lemma cntm_app w l1 l2 : cntm w (l1 ++ l2) = cntm w l1 + cntm w l2.
Proof. induction l1 as [|x l1 IH]; simpl; lia. Qed.

Lemma cntm_nonneg w l : 0 <= cntm w l.
Proof. induction l as [|x l IH]; simpl; [lia|]. destruct (x.1 =? w); simpl; lia. Qed.

Lemma cntm_perm w l1 l2 : l1 ≡ₚ l2 -> cntm w l1 = cntm w l2.
Proof. induction 1; simpl in *; lia. Qed.

Definition marks_vtx l : Prop := Forall (fun x => vtx x.1) l.

(** The word of the recorded pairs, as the fold of their masks. *)
Fixpoint pairWord L R : Z :=
  match L, R with
  | x :: L, y :: R => Z.lxor (getEdgesMask x.1 y.1) (pairWord L R)
  | _, _ => 0
  end.

Lemma recordEdges_word L : forall R rec,
  recordEdges rec L R = mkEdgeRec (Z.lxor (edges rec) (pairWord L R)) (vertices rec).
Proof.
  induction L as [|x L IH]; intros [|y R] rec; simpl; try (destruct rec; simpl; by rewrite Z.lxor_0_r).
  rewrite IH. unfold flipEdge, flipMask. simpl. by rewrite Z.lxor_assoc.
Qed.

Lemma arc_lxor a b u v : arc (Z.lxor a b) u v = xorb (arc a u v) (arc b u v).
Proof. apply Z.lxor_spec. Qed.

Lemma getEdgesMask_width a b : in_width 64 (getEdgesMask a b).
Proof. apply lor_in_width; [lia|apply bit64_width..]. Qed.

Lemma pairWord_width L : forall R, in_width 64 (pairWord L R).
Proof.
  induction L as [|x L IH]; intros [|y R]; simpl; try (split; lia).
  apply lxor_in_width; [lia|apply getEdgesMask_width|done].
Qed.

Lemma retrieveAndFlip_spec a b rec :
  vtx a -> vtx b ->
  retrieveAndFlipEdge a b rec
  = (arc (edges rec) a b, mkEdgeRec (Z.lxor (edges rec) (getEdgesMask a b)) (vertices rec)).
Proof.
  intros Ha Hb. unfold retrieveAndFlipEdge, flipMask. cbn [edges vertices].
  fold (getEdgesMask a b). f_equal.
  set (x := Z.lxor (edges rec) (getEdgesMask a b)).
  assert (Hx : arc x a b = negb (arc (edges rec) a b)).
  { subst x. rewrite arc_lxor, getEdgesMask_arc, !Z.eqb_refl by done. by destruct (arc _ a b). }
  rewrite getEdgeOffset_vtx by done.
  assert (Hbit : Z.land x (bit64 (8 * a + b)) = if arc x a b then bit64 (8 * a + b) else 0).
  { apply Z_bits_inj_nonneg. intros i Hi. unfold vtx in *.
    rewrite Z.land_spec, bit64_testbit by lia. unfold arc.
    destruct (Z.eqb_spec i (8 * a + b)) as [->|].
    - rewrite andb_true_r. destruct (Z.testbit x (8 * a + b)); [|by rewrite Z.bits_0].
      by rewrite bit64_testbit, Z.eqb_refl by lia.
    - rewrite andb_false_r. destruct (Z.testbit x (8 * a + b)); [|by rewrite Z.bits_0].
      rewrite bit64_testbit by lia. symmetry. by apply Z.eqb_neq. }
  rewrite Hbit, Hx. destruct (arc (edges rec) a b); simpl; [done|].
  apply Z.eqb_neq. intros E. pose proof (bit64_testbit (8 * a + b) (8 * a + b)) as Hbt.
  unfold vtx in *. rewrite E, Z.bits_0, Z.eqb_refl in Hbt by lia. specialize (Hbt ltac:(lia) ltac:(lia)). done.
Qed.

(** Flipping the pair [a, b] in a loop-free graph, read at one vertex. *)
Lemma loopless_flip e a b u v :
  vtx a -> vtx b -> vtx u -> vtx v ->
  arc (loopless (Z.lxor (getEdgesMask a b) e)) u v
  = xorb (arc (loopless e) u v)
         (negb (a =? b) && ((u =? a) && (v =? b) || (u =? b) && (v =? a))).
Proof.
  intros Ha Hb Hu Hv. rewrite !loopless_arc, arc_lxor, getEdgesMask_arc by done.
  destruct (Z.eqb_spec u v) as [->|Huv]; simpl; rewrite ?andb_false_r, ?andb_true_r.
  - destruct (Z.eqb_spec a b), (Z.eqb_spec v a), (Z.eqb_spec v b); subst; done.
  - destruct (Z.eqb_spec a b), (Z.eqb_spec u a), (Z.eqb_spec v b), (Z.eqb_spec u b), (Z.eqb_spec v a);
      subst; simpl; try done; destruct (arc e _ _); done.
Qed.

Lemma deg_flip e a b w :
  vtx a -> vtx b -> vtx w -> a <> b ->
  (forall u v, vtx u -> vtx v -> arc e u v = arc e v u) ->
  deg (loopless (Z.lxor (getEdgesMask a b) e)) w
  = deg (loopless e) w + (Z.b2z (w =? a) + Z.b2z (w =? b)) * (1 - 2 * Z.b2z (arc e a b)).
Proof.
  intros Ha Hb Hw Hne Hsym.
  set (o := if w =? a then b else a).
  set (d := (Z.b2z (w =? a) + Z.b2z (w =? b)) * (1 - 2 * Z.b2z (arc e a b))).
  transitivity (sum8 (fun v => Z.b2z (arc (loopless e) w v) + (if v =? o then d else 0))).
  - apply sum8_ext. intros v Hv. rewrite loopless_flip, loopless_arc by done. subst o d.
    rewrite (proj2 (Z.eqb_neq a b)) by done. simpl.
    pose proof (Hsym b a Hb Ha) as Hba.
    arc_cases; rewrite ?Hba; try lia;
      repeat match goal with |- context [arc e ?x ?y] => destruct (arc e x y); simpl end; lia.
  - rewrite sum8_add. fold (deg (loopless e) w). rewrite sum8_delta; [done|].
    subst o. by destruct (w =? a).
Qed.

Lemma deg_flip_loop e a w :
  vtx a -> vtx w -> deg (loopless (Z.lxor (getEdgesMask a a) e)) w = deg (loopless e) w.
Proof.
  intros Ha Hw. apply sum8_ext. intros v Hv.
  rewrite loopless_flip, Z.eqb_refl by done. by rewrite xorb_false_r.
Qed.
End facts.

(** ** The recorded graph *)

Section graph.
Context {A : Type}.
Implicit Types l L R : list (item A).
Local Open Scope Z_scope.

Lemma pairWord_sym L : forall R u v,
  marks_vtx L -> marks_vtx R -> vtx u -> vtx v -> arc (pairWord L R) u v = arc (pairWord L R) v u.
Proof.
  induction L as [|x L IH]; intros [|y R] u v HL HR Hu Hv; simpl;
    try (unfold arc; by rewrite !Z.bits_0).
  inversion_clear HL. inversion_clear HR.
  rewrite !arc_lxor, !getEdgesMask_arc, (IH R u v) by done. f_equal. lia.
Qed.

Lemma pairWord_below k L : forall R u v,
  marks_vtx L -> marks_vtx R -> Forall (fun x => x.1 < k) L -> Forall (fun x => x.1 < k) R ->
  vtx u -> vtx v -> arc (pairWord L R) u v = true -> u < k /\ v < k.
Proof.
  induction L as [|x L IH]; intros [|y R] u v HL HR KL KR Hu Hv; simpl;
    try (unfold arc; by rewrite !Z.bits_0).
  inversion_clear HL. inversion_clear HR. inversion_clear KL. inversion_clear KR.
  rewrite arc_lxor, getEdgesMask_arc by done.
  destruct (arc (pairWord L R) u v) eqn:E; [intros _; by apply (IH R)|].
  rewrite xorb_false_r. cbv beta in *. lia.
Qed.

(** The degree of a vertex has the parity of the number of its occurrences. *)
Lemma pairWord_parity L : forall R w,
  length L = length R -> marks_vtx L -> marks_vtx R -> vtx w ->
  Z.even (deg (loopless (pairWord L R)) w) = Z.even (cntm w L + cntm w R).
Proof.
  induction L as [|x L IH]; intros [|y R] w Hlen HL HR Hw; simpl in Hlen; try lia.
  { simpl. rewrite deg_zero; [done|]. intros v Hv. rewrite loopless_arc by done.
    unfold arc. by rewrite Z.bits_0. }
  inversion_clear HL. inversion_clear HR. cbn [pairWord cntm foldr].
  fold (cntm w L) (cntm w R).
  assert (E : Z.even (deg (loopless (Z.lxor (getEdgesMask x.1 y.1) (pairWord L R))) w)
              = xorb (Z.even (deg (loopless (pairWord L R)) w)) (xorb (x.1 =? w) (y.1 =? w))).
  { destruct (Z.eq_dec x.1 y.1) as [->|Hne].
    - rewrite deg_flip_loop by done. rewrite xorb_nilpotent. by rewrite xorb_false_r.
    - rewrite deg_flip by (done || (intros; by apply pairWord_sym)).
      rewrite Z.even_add, Z.even_mul, !Z.even_add.
      rewrite (Z.eqb_sym x.1 w), (Z.eqb_sym y.1 w).
      destruct (Z.even (deg _ _)), (w =? x.1), (w =? y.1), (arc _ _ _); done. }
  rewrite E, IH by (done || lia).
  replace (Z.b2z (x.1 =? w) + cntm w L + (Z.b2z (y.1 =? w) + cntm w R))
    with ((cntm w L + cntm w R) + (Z.b2z (x.1 =? w) + Z.b2z (y.1 =? w))) by lia.
  rewrite (Z.even_add (cntm w L + cntm w R)).
  destruct (Z.even (cntm w L + cntm w R)), (x.1 =? w), (y.1 =? w); done.
Qed.

Lemma pairWord_size L : forall R,
  marks_vtx L -> marks_vtx R -> size8 (loopless (pairWord L R)) <= 2 * Z.of_nat (length R).
Proof.
  assert (H0 : forall n : nat, size8 (loopless 0) <= 2 * Z.of_nat n) by (intros; vm_compute (size8 _); lia).
  induction L as [|x L IH]; intros [|y R] HL HR; cbn [pairWord]; try apply H0.
  inversion_clear HL. inversion_clear HR.
  specialize (IH R ltac:(done) ltac:(done)).
  destruct (Z.eq_dec x.1 y.1) as [E|Hne].
  - rewrite E. unfold size8 in *. rewrite (sum8_ext _ (deg (loopless (pairWord L R)))).
    + simpl length. lia.
    + intros w Hw. by apply deg_flip_loop.
  - assert (Hle : size8 (loopless (Z.lxor (getEdgesMask x.1 y.1) (pairWord L R)))
      <= sum8 (fun w => deg (loopless (pairWord L R)) w +
           ((if w =? x.1 then 1 else 0) + (if w =? y.1 then 1 else 0)))).
    { apply sum8_le. intros w Hw. rewrite deg_flip by (done || (intros; by apply pairWord_sym)).
      destruct (w =? x.1), (w =? y.1), (arc _ _ _); simpl; lia. }
    rewrite !sum8_add, !sum8_delta in Hle by done.
    fold (size8 (loopless (pairWord L R))) in Hle.
    cbn [length]. lia.
Qed.

(** ** Following an orientation *)

Definition antisym (p : Z) : Prop :=
  forall u v, vtx u -> vtx v -> u <> v -> arc p u v = negb (arc p v u).

Lemma antisym_flip p a b : vtx a -> vtx b -> antisym p -> antisym (Z.lxor p (getEdgesMask a b)).
Proof.
  intros Ha Hb Hp u v Hu Hv Hne. rewrite !arc_lxor, !getEdgesMask_arc, (Hp u v) by done.
  rewrite negb_xorb_l. f_equal. lia.
Qed.

Lemma excess_flip e p a b w :
  vtx a -> vtx b -> vtx w -> a <> b -> antisym p ->
  (forall u v, vtx u -> vtx v -> arc e u v = arc e v u) ->
  excess (loopless (Z.lxor (getEdgesMask a b) e)) p w
  = excess (loopless e) (Z.lxor p (getEdgesMask a b)) w
    + (Z.b2z (w =? a) - Z.b2z (w =? b)) * (if arc p a b then 1 else -1).
Proof.
  intros Ha Hb Hw Hne Hp Hsym.
  set (o := if w =? a then b else a).
  set (d := (Z.b2z (w =? a) - Z.b2z (w =? b)) * (if arc p a b then 1 else -1)).
  transitivity (sum8 (fun v =>
    (if arc (loopless e) w v then Z.b2z (arc (Z.lxor p (getEdgesMask a b)) w v)
       - Z.b2z (arc (Z.lxor p (getEdgesMask a b)) v w) else 0) + (if v =? o then d else 0))).
  - apply sum8_ext. intros v Hv. rewrite loopless_flip, loopless_arc, !arc_lxor, !getEdgesMask_arc by done.
    subst o d. rewrite (proj2 (Z.eqb_neq a b)) by done. simpl.
    pose proof (Hsym b a Hb Ha) as Hba. pose proof (Hp b a Hb Ha ltac:(done)) as Pba.
    arc_cases; rewrite ?Hba, ?Pba, ?andb_true_r, ?andb_false_r, ?xorb_false_r, ?xorb_true_r; try lia;
      repeat match goal with
      | |- context [arc e ?x ?y] => destruct (arc e x y); simpl
      | |- context [arc p ?x ?y] => destruct (arc p x y); simpl end; lia.
  - rewrite sum8_add. fold (excess (loopless e) (Z.lxor p (getEdgesMask a b)) w).
    rewrite sum8_delta; [done|]. subst o. by destruct (w =? a).
Qed.

Lemma excess_flip_loop e p a w :
  vtx a -> vtx w ->
  excess (loopless (Z.lxor (getEdgesMask a a) e)) p w
  = excess (loopless e) (Z.lxor p (getEdgesMask a a)) w.
Proof.
  intros Ha Hw. apply sum8_ext. intros v Hv.
  rewrite loopless_flip, Z.eqb_refl, xorb_false_r, !arc_lxor, !getEdgesMask_arc by done.
  destruct (arc (loopless e) w v) eqn:E; [|done].
  rewrite loopless_arc, andb_true_iff in E by done. destruct E as [_ E].
  assert (forall x y : Z, (x =? a) && (y =? a) || (x =? a) && (y =? a) = (x =? a) && (y =? a)) as H by lia.
  rewrite !H. assert ((w =? a) && (v =? a) = false) as -> by lia.
  assert ((v =? a) && (w =? a) = false) as -> by lia. by rewrite !xorb_false_r.
Qed.

(** After the pass, the surplus of a mark on the left is the opposite of the
    excess of its vertex in the orientation. *)
Lemma followPath_balance L : forall R p k w,
  length L = length R -> marks_vtx L -> marks_vtx R -> vtx w -> antisym p ->
  let lr := followPath (mkEdgeRec p k) L R in
  cntm w lr.1 - cntm w lr.2 = - excess (loopless (pairWord L R)) p w.
Proof.
  induction L as [|x L IH]; intros [|y R] p k w Hlen HL HR Hw Hp; simpl in Hlen; try lia.
  { simpl. transitivity (- (sum8 (fun _ => 0))); [done|]. f_equal. apply sum8_ext.
    intros v Hv. rewrite loopless_arc by done. unfold arc. by rewrite !Z.bits_0. }
  inversion_clear HL. inversion_clear HR. cbn [followPath pairWord].
  rewrite retrieveAndFlip_spec by done. cbn [edges vertices]. cbv zeta. cbn [fst snd].
  specialize (IH R (Z.lxor p (getEdgesMask x.1 y.1)) k w ltac:(lia) ltac:(done) ltac:(done) Hw
    ltac:(by apply antisym_flip)). cbv zeta in IH.
  cbn [cntm foldr].
  set (lr := followPath (mkEdgeRec (Z.lxor p (getEdgesMask x.1 y.1)) k) L R) in *.
  fold (cntm w lr.1) (cntm w lr.2).
  destruct (Z.eq_dec x.1 y.1) as [E|Hne].
  - rewrite E, excess_flip_loop in * by done. rewrite <-E at 1. unfold condSwap.
    rewrite E in *. destruct (arc p y.1 y.1); simpl; rewrite ?E; lia.
  - rewrite excess_flip by (done || (intros; by apply pairWord_sym)).
    rewrite (Z.eqb_sym w x.1), (Z.eqb_sym w y.1). unfold condSwap.
    destruct (arc p x.1 y.1); simpl; lia.
Qed.

Lemma followPath_length L : forall R path,
  length (followPath path L R).1 = length L /\ length (followPath path L R).2 = length R.
Proof.
  induction L as [|x L IH]; intros [|y R] path; cbn [followPath]; try done.
  destruct (retrieveAndFlipEdge x.1 y.1 path) as [f path']. cbn [fst snd length].
  destruct (IH R path') as [-> ->]. done.
Qed.

Lemma followPath_perm L : forall R path,
  (followPath path L R).1 ++ (followPath path L R).2 ≡ₚ L ++ R.
Proof.
  induction L as [|x L IH]; intros [|y R] path; cbn [followPath]; try done.
  destruct (retrieveAndFlipEdge x.1 y.1 path) as [f path']. cbn [fst snd].
  specialize (IH R path'). unfold condSwap. destruct f; simpl;
    rewrite <-!Permutation_middle, IH; [apply perm_swap|done].
Qed.
End graph.

(** ** Balancing *)

Section balance.
Context {A : Type}.
Implicit Types l L R items : list (item A).
Local Open Scope Z_scope.

Lemma arc_ones u v : vtx u -> vtx v -> arc (2 ^ 64 - 1) u v = true.
Proof. intros Hu Hv. vtx_cases Hu; vtx_cases Hv. Qed.

Lemma antisym_reverse p : antisym p -> antisym (Z.lxor p (2 ^ 64 - 1)).
Proof. intros Hp u v Hu Hv Hne. rewrite !arc_lxor, !arc_ones, (Hp u v) by done. by rewrite negb_xorb_l. Qed.

Lemma excess_reverse e p w :
  vtx w -> excess e (Z.lxor p (2 ^ 64 - 1)) w = - excess e p w.
Proof.
  intros Hw. unfold excess. rewrite <-sum8_opp. apply sum8_ext. intros v Hv.
  rewrite !arc_lxor, !arc_ones by done.
  destruct (arc e w v), (arc p w v), (arc p v w); simpl; lia.
Qed.

(** The pass with its special first pair is the plain pass along the path, or
    along the reversed path. *)
Lemma balanceHalves_follow k items x y L R :
  take (length items / 2) items = x :: L -> drop (length items / 2) items = y :: R ->
  vtx x.1 -> vtx y.1 ->
  let p := edges (EulerPath (Z.of_nat (length items / 2))
                    (mkEdgeRec (pairWord (x :: L) (y :: R)) (Z.of_nat k))) in
  let q := if arc p x.1 y.1 then Z.lxor p (2 ^ 64 - 1) else p in
  balanceHalves k items = followPath (mkEdgeRec q (Z.of_nat k)) (x :: L) (y :: R).
Proof.
  intros HL HR Hx Hy p q. unfold balanceHalves. rewrite HL, HR.
  rewrite recordEdges_word. cbn [newEdgeRec edges vertices]. rewrite Z.lxor_0_l.
  assert (EP : EulerPath (Z.of_nat (length items / 2)) (mkEdgeRec (pairWord (x :: L) (y :: R)) (Z.of_nat k))
          = mkEdgeRec p (Z.of_nat k)).
  { subst p. unfold EulerPath. cbn [edges vertices]. by destruct (EulerPath_loop _ _) as [[? ?] ?]. }
  rewrite EP. rewrite retrieveAndFlip_spec by done. cbn [edges vertices followPath].
  rewrite retrieveAndFlip_spec by done. cbn [edges vertices].
  unfold flipMask. cbn [edges vertices]. subst q.
  destruct (arc p x.1 y.1) eqn:E.
  - rewrite arc_lxor, E, arc_ones by done. cbn [xorb condSwap fst snd].
    change (w64 (- Z.b2z true)) with (2 ^ 64 - 1).
    rewrite Z.lxor_assoc, (Z.lxor_comm (getEdgesMask _ _)), <-Z.lxor_assoc. done.
  - rewrite E. cbn [condSwap fst snd]. change (w64 (- Z.b2z false)) with 0. by rewrite Z.lxor_0_r.
Qed.

Lemma balanceHalves_ok (k : nat) items :
  (1 <= k <= 8)%nat -> (1 < length items)%nat -> (length items mod 2 = 0)%nat ->
  Forall (fun x => 0 <= x.1 < Z.of_nat k) items ->
  (forall w, vtx w -> Z.even (cntm w items) = true) ->
  let lr := balanceHalves k items in
  length lr.1 = (length items / 2)%nat /\ length lr.2 = (length items / 2)%nat /\
  lr.1 ++ lr.2 ≡ₚ items /\ (forall w, vtx w -> cntm w lr.1 = cntm w lr.2).
Proof.
  intros Hk Hlen Heven Hmarks Hcnt lr. subst lr.
  set (h := (length items / 2)%nat).
  assert (Hh : (length items = 2 * h)%nat /\ (1 <= h)%nat) by (subst h; lia). destruct Hh as [Hh Hh1].
  assert (LT : length (take h items) = h) by (rewrite length_take; lia).
  assert (LD : length (drop h items) = h) by (rewrite length_drop; lia).
  assert (Hsplit : take h items ++ drop h items = items) by apply take_drop.
  destruct (take h items) as [|x L] eqn:HL; [simpl in LT; lia|].
  destruct (drop h items) as [|y R] eqn:HR; [simpl in LD; lia|].
  rewrite <-Hsplit, Forall_app in Hmarks. destruct Hmarks as [ML MR].
  assert (Hv : forall l, Forall (fun x => 0 <= x.1 < Z.of_nat k) l -> marks_vtx l).
  { intros l Hl. eapply Forall_impl; [exact Hl|]. intros z Hz. cbv beta in *. unfold vtx. lia. }
  assert (Hb : forall l, Forall (fun x => 0 <= x.1 < Z.of_nat k) l -> Forall (fun x => x.1 < Z.of_nat k) l).
  { intros l Hl. eapply Forall_impl; [exact Hl|]. intros z Hz. cbv beta in *. lia. }
  pose proof (Hv _ ML) as VL. pose proof (Hv _ MR) as VR.
  assert (vtx x.1) by (by inversion VL). assert (vtx y.1) by (by inversion VR).
  rewrite (balanceHalves_follow k items x y L R) by done. cbv zeta.
  fold h.
  destruct (EulerPath_orients (Z.of_nat h) (pairWord (x :: L) (y :: R)) (Z.of_nat k)) as [Hanti Hex].
  - apply pairWord_width.
  - lia.
  - intros u v Hu Hw. by apply pairWord_sym.
  - intros u v Hu Hw. apply pairWord_below; auto.
  - intros w Hw. rewrite pairWord_parity by (done || lia). rewrite <-cntm_app, Hsplit. auto.
  - lia.
  - rewrite <-LD. by apply pairWord_size.
  - set (p := edges (EulerPath _ _)) in *.
    set (q := if arc p x.1 y.1 then _ else _).
    assert (Hq : antisym q) by (subst q; destruct (arc p x.1 y.1); [by apply antisym_reverse|done]).
    assert (Hqx : forall w, vtx w -> excess (loopless (pairWord (x :: L) (y :: R))) q w = 0).
    { intros w Hw. subst q. destruct (arc p x.1 y.1); [rewrite excess_reverse by done|]; rewrite Hex by done; done. }
    destruct (followPath_length (x :: L) (y :: R) (mkEdgeRec q (Z.of_nat k))) as [E1 E2].
    split; [lia|]. split; [lia|]. split; [by rewrite followPath_perm, Hsplit|].
    intros w Hw. pose proof (followPath_balance (x :: L) (y :: R) q (Z.of_nat k) w
      ltac:(lia) VL VR Hw Hq) as HB. cbv zeta in HB. rewrite Hqx in HB by done. lia.
Qed.
End balance.

(** ** Correctness of [Interleave] *)

Lemma NoDup_sorted_seq (l : list Z) (k : nat) :
  StronglySorted Z.le l -> (forall w, (0 <= w < Z.of_nat k)%Z -> w ∈ l) -> length l = k ->
  Forall (fun w => (0 <= w < Z.of_nat k)%Z) l ->
  forall i w, l !! i = Some w -> w = Z.of_nat i.
Proof.
  intros Hs Hall Hlen Hrange.
  assert (Hperm : l ≡ₚ Z.of_nat <$> seq 0 k).
  { symmetry. apply submseteq_length_Permutation; [|by rewrite length_fmap, length_seq, Hlen].
    apply NoDup_submseteq; [apply NoDup_fmap_2; [apply _|apply NoDup_seq]|].
    intros w Hw. apply list_elem_of_fmap in Hw as (i & -> & Hi). apply elem_of_seq in Hi.
    apply Hall. lia. }
  assert (Hs2 : StronglySorted Z.le (Z.of_nat <$> seq 0 k)).
  { apply StronglySorted_lookup. intros i j x y Hij Hx Hy.
    rewrite list_lookup_fmap in Hx, Hy.
    apply fmap_Some in Hx as (a & Ha & ->). apply fmap_Some in Hy as (b & Hb & ->).
    apply lookup_seq in Ha, Hb. lia. }
  assert (l = Z.of_nat <$> seq 0 k) as ->.
  { eapply (StronglySorted_unique Z.le); done. }
  intros i w Hw. rewrite list_lookup_fmap in Hw. apply fmap_Some in Hw as (a & Ha & ->).
  apply lookup_seq in Ha. lia.
Qed.

Section interleave.
Context {A : Type}.
Implicit Types items : list (item A).

(** Each of the [k] marks occurs exactly [c] times. *)
Definition equal_counts (k : nat) (c : Z) items : Prop :=
  Forall (fun x => (0 <= x.1 < Z.of_nat k)%Z) items /\
  (forall w, (0 <= w < Z.of_nat k)%Z -> cntm w items = c).

Lemma cntm_pos_elem w items : (0 < cntm w items)%Z -> w ∈ (fst <$> items).
Proof.
  induction items as [|x items IH]; simpl; [lia|]. intros H.
  destruct (Z.eqb_spec x.1 w) as [<-|]; simpl in *; [by left|]. right. apply IH. lia.
Qed.

Lemma cntm_absent w items : Forall (fun x => x.1 <> w) items -> cntm w items = 0%Z.
Proof.
  induction 1 as [|x items Hx Hf IH]; simpl; [done|]. rewrite IH.
  by destruct (Z.eqb_spec x.1 w).
Qed.

Lemma base_marks (k : nat) items :
  3 <= k <= 8 -> length items = k -> equal_counts k 1 items ->
  forall i x, StaticSort k items !! i = Some x -> x.1 = Z.of_nat i.
Proof.
  intros Hk Hlen [Hr Hc]. assert (P := run_network_perm (StaticSort_network k) items).
  fold (StaticSort k items) in P.
  assert (Hs := StaticSort_sorted k items Hk Hlen).
  intros i x Hx. apply (NoDup_sorted_seq (fst <$> StaticSort k items) k).
  - apply StronglySorted_lookup. intros a b u v Hab Hu Hv. rewrite list_lookup_fmap in Hu, Hv.
    apply fmap_Some in Hu as (? & ? & ->). apply fmap_Some in Hv as (? & ? & ->).
    by eapply (StronglySorted_lookup_2 _ _ a b _ _ Hs).
  - intros w Hw. apply cntm_pos_elem. rewrite (cntm_perm w _ _ P), Hc by done. lia.
  - by rewrite length_fmap, (Permutation_length P).
  - apply Forall_fmap. rewrite P. done.
  - by rewrite list_lookup_fmap, Hx.
Qed.

(** Occurrences of the marks [s .. s + n - 1]. *)
Fixpoint sumc (s n : nat) items : Z :=
  match n with
  | O => 0%Z
  | S n => (cntm (Z.of_nat s) items + sumc (S s) n items)%Z
  end.

Lemma sumc_cons n x items : forall s,
  sumc s n (x :: items)
  = (sumc s n items + Z.b2z ((Z.of_nat s <=? x.1) && (x.1 <? Z.of_nat (s + n))))%Z.
Proof.
  induction n as [|n IH]; intros s; cbn [sumc].
  - destruct (Z.leb_spec (Z.of_nat s) x.1), (Z.ltb_spec x.1 (Z.of_nat (s + 0))); simpl; lia.
  - rewrite IH. cbn [cntm foldr]. fold (cntm (Z.of_nat s) items). case_cmp; simpl; lia.
Qed.

Lemma sumc_length k items :
  Forall (fun x => (0 <= x.1 < Z.of_nat k)%Z) items -> sumc 0 k items = Z.of_nat (length items).
Proof.
  induction 1 as [|x items Hx Hf IH].
  - generalize 0 as s. induction k as [|k IHk]; intros s; simpl; [done|]. by rewrite IHk.
  - rewrite sumc_cons, IH. cbn [length]. cbv beta in Hx.
    rewrite (proj2 (Z.leb_le _ _)), (proj2 (Z.ltb_lt _ _)) by lia. simpl. lia.
Qed.

Lemma equal_counts_length k c items :
  equal_counts k c items -> Z.of_nat (length items) = (Z.of_nat k * c)%Z.
Proof.
  intros [Hr Hc]. rewrite <-(sumc_length k) by done.
  assert (Hs : forall n s : nat, s + n <= k -> sumc s n items = (Z.of_nat n * c)%Z).
  { induction n as [|n IHn]; intros s Hs; cbn [sumc]; [done|]. rewrite IHn, Hc by lia. lia. }
  by apply Hs.
Qed.

Lemma Interleave_fuel_correct (k : nat) e : 3 <= k <= 8 -> forall fuel items,
  length items <= fuel -> equal_counts k (Z.of_nat (2 ^ e)) items ->
  exists out, Interleave_fuel fuel k items = Some out /\ out ≡ₚ items /\
    (forall i x, out !! i = Some x -> x.1 = Z.of_nat (i mod k)).
Proof.
  intros Hk. induction e as [|e IH]; intros fuel items Hf Hc.
  - pose proof (equal_counts_length k _ items Hc) as Hlen. change (2 ^ 0) with 1 in *.
    destruct fuel as [|fuel]; [lia|]. cbn [Interleave_fuel].
    rewrite (proj2 (Nat.eqb_eq (length items) k)) by lia. unfold InterleaveBaseCase.
    rewrite (proj2 (Nat.leb_le 3 k)), (proj2 (Nat.leb_le k 8)) by lia. simpl.
    eexists. split; [reflexivity|]. split; [apply run_network_perm|]. intros i x Hx.
    pose proof (lookup_lt_Some _ _ _ Hx) as Hi. unfold StaticSort in Hi.
    rewrite (Permutation_length (run_network_perm _ _)) in Hi.
    rewrite Nat.mod_small by lia. by apply (base_marks k items); [lia|lia|..].
  - pose proof (equal_counts_length k _ items Hc) as Hlen.
    set (c := 2 ^ e) in *. assert (Hc2 : 2 ^ S e = 2 * c) by (simpl; lia). rewrite Hc2 in *.
    assert (Hc1 : 1 <= c) by (subst c; pose proof (Nat.pow_nonzero 2 e); lia).
    assert (Hl : length items = 2 * (k * c)) by nia. clear Hlen.
    destruct fuel as [|fuel]; [nia|]. cbn [Interleave_fuel].
    rewrite (proj2 (Nat.eqb_neq (length items) k)) by nia.
    assert (Hh : length items / 2 = k * c) by (rewrite Hl, Nat.mul_comm, Nat.div_mul; lia).
    destruct (balanceHalves_ok k items) as (L1 & L2 & P & B); [lia|nia| |apply Hc| |].
    { rewrite Hl, Nat.mul_comm. apply Nat.Div0.mod_mul. }
    { intros w Hw. destruct Hc as [Hr Hcnt].
      destruct (Z.lt_ge_cases w (Z.of_nat k)).
      - rewrite Hcnt by (unfold vtx in *; lia). rewrite Nat2Z.inj_mul. by rewrite Z.even_mul.
      - rewrite cntm_absent; [done|]. eapply Forall_impl; [exact Hr|]. intros z Hz. cbv beta in *. lia. }
    rewrite Hh in L1, L2. set (lr := balanceHalves k items) in *. cbv zeta.
    assert (Hsub : equal_counts k (Z.of_nat c) lr.1 /\ equal_counts k (Z.of_nat c) lr.2).
    { destruct Hc as [Hr Hcnt]. rewrite <-P, Forall_app in Hr. destruct Hr as [Hr1 Hr2].
      assert (forall w, (0 <= w < Z.of_nat k)%Z -> cntm w lr.1 = Z.of_nat c /\ cntm w lr.2 = Z.of_nat c).
      { intros w Hw. pose proof (B w ltac:(unfold vtx; lia)). pose proof (cntm_perm w _ _ P) as Hp.
        rewrite cntm_app, Hcnt in Hp by done. lia. }
      split; (split; [done|]); intros w Hw; by apply H. }
    destruct Hsub as [C1 C2].
    destruct (IH fuel lr.1 ltac:(nia) C1) as (a & -> & Pa & Ma).
    destruct (IH fuel lr.2 ltac:(nia) C2) as (b & -> & Pb & Mb).
    exists (a ++ b). split; [done|]. split; [by rewrite Pa, Pb|].
    intros i x Hx. apply lookup_app_Some in Hx as [Hx|[Hge Hx]]; [by apply Ma|].
    apply Mb in Hx. rewrite Hx. f_equal.
    rewrite (Permutation_length Pa), L1 in *.
    assert (i = (i - k * c) + c * k) as Hi by lia. rewrite Hi at 2. by rewrite Nat.Div0.mod_add.
Qed.
End interleave.

(** ** Properties *)

(** C10: [Interleave] on a range in which each of the marks [0 .. k-1] occurs
    [2^e] times ([k] from 3 to 8) does not abort, and returns a rearrangement
    whose marks read [0 1 .. k-1 0 1 .. k-1 ..]. *)
Theorem Interleave_correct {A} (k e : nat) (items : list (item A)) :
  3 <= k <= 8 -> equal_counts k (Z.of_nat (2 ^ e)) items ->
  exists out, Interleave k items = Some out /\ out ≡ₚ items /\
    (forall i x, out !! i = Some x -> x.1 = Z.of_nat (i mod k)).
Proof. intros Hk Hc. by apply (Interleave_fuel_correct k e). Qed.

Lemma Interleave_correct_witness :
  exists out, Interleave 3 [(0, 10); (2, 11); (2, 12); (1, 13); (0, 14); (1, 15)]%Z = Some out /\
    out ≡ₚ [(0, 10); (2, 11); (2, 12); (1, 13); (0, 14); (1, 15)]%Z /\
    (forall i x, out !! i = Some x -> x.1 = Z.of_nat (i mod 3)).
Proof.
  apply (Interleave_correct 3 1); [lia|]. split.
  - repeat constructor; simpl; lia.
  - intros w Hw. assert (w = 0 \/ w = 1 \/ w = 2)%Z as Hc by lia. destruct_or! Hc; subst; reflexivity.
Defined.
