(* ===== verification/MergeSplit.v ===== *)
(** * Merge-split (osort/external_memory/algorithm/sort_building_blocks.hpp,
    lines 395-580, and the element wrapper [TaggedT] of sort_def.hpp)

    The node of the butterfly network: [k] buckets of [Z] slots, some of them
    holding dummies, are redistributed so that every real element goes to the
    bucket its tag names modulo [k], the dummies filling the rest.  The node
    aborts when a bucket would overflow. *)
From S2P Require Import Prelude OrCompact TwoWay EdgeRec StaticSort Interleave.
Local Open Scope Z_scope.

(** ** Tagged elements *)

(** [TaggedT<T>]: a 64-bit tag whose most significant bit says dummy. *)
Record TaggedT (T : Type) := mkTagged { tag : Z; v : T }.
Arguments mkTagged {T}. Arguments tag {T}. Arguments v {T}.

Section tagged.
Context {T : Type}.
Implicit Types x : TaggedT T.

Definition TAG_MASK : Z := 0x7fffffffffffffff.
Definition DUMMY_BIT : Z := 0x8000000000000000.

(** [x.tag = t] *)
Definition withTag (t : Z) x : TaggedT T := mkTagged t (v x).

(** [setTag] clears the dummy bit. *)
Definition setTag (t : Z) x : TaggedT T := withTag (Z.land t TAG_MASK) x.

Definition isDummy x : bool := negb (Z.shiftr (tag x) 63 =? 0).
Definition setDummy x : TaggedT T := withTag (Z.lor (tag x) DUMMY_BIT) x.
Definition isMarked (bitMask : Z) x : bool := Z.land (tag x) bitMask =? 0.
Definition condChangeMark (cond : bool) (bitMask : Z) x : TaggedT T :=
  if cond then withTag (Z.lxor (tag x) bitMask) x else x.

(** [getMarkAndUpdate(k)]: the lowest digit of the tag in base [k], which is
    removed from the tag. *)
Definition getMarkAndUpdate (k : Z) x : Z * TaggedT T :=
  let realTag := Z.land (tag x) TAG_MASK in
  (w8 (realTag mod k), withTag (Z.lor (Z.land (tag x) DUMMY_BIT) (realTag / k)) x).

(** [it->tag = (int64_t)it->tag >> 1] *)
Definition sar1 (t : Z) : Z := w64 (Z.shiftr (if t <? 2 ^ 63 then t else t - 2 ^ 64) 1).

(** ** Remaining counts *)

(** A signed 32-bit lane. *)
Definition s32 (z : Z) : Z := w32 (z + 2 ^ 31) - 2 ^ 31.

(** [mm256_decrement_epi32_var_indx]: the lane equal to [i], if any. *)
Definition decrementLane (i : Z) (counts : list Z) : list Z :=
  if i <? 8 then alter (fun c => s32 (c - 1)) (Z.to_nat i) counts else counts.

(** [mm256_extract_epi32_var_indx]: the permute uses the low three bits. *)
Definition extractLane (i : Z) (counts : list Z) : Z :=
  w32 (nth (Z.to_nat (i mod 8)) counts 0).

Definition containLeZero (counts : list Z) : bool := existsb (fun c => c <=? 0) counts.

(** The first loop: copy, read and consume the mark of every element (0xFF
    for a dummy), and count down the room left for each mark. *)
Fixpoint readMarks (k : Z) (es : list (TaggedT T)) (counts : list Z)
    : list (item (TaggedT T)) * list Z :=
  match es with
  | [] => ([], counts)
  | e :: es =>
      let me := getMarkAndUpdate k e in
      let mark := if isDummy e then 255 else me.1 in
      let '(items, counts) := readMarks k es (decrementLane mark counts) in
      ((mark, me.2) :: items, counts)
  end.

(** The second loop: give the dummies the marks that still have room. *)
Fixpoint fillDummies {E} (counts : list Z) (currMark currRemain : Z) (items : list (item E))
    : list (item E) :=
  match items with
  | [] => []
  | (mark, e) :: items =>
      let d := mark =? 255 in
      let mark := if d then w8 currMark else mark in
      let currRemain := w32 (currRemain - Z.b2z d) in
      let currMark := currMark + Z.b2z (currRemain =? 0) in
      let currRemain := if currRemain =? 0 then extractLane currMark counts else currRemain in
      (mark, e) :: fillDummies counts currMark currRemain items
  end.

(** Bucket [j] takes the elements at positions [i * k + j]. *)
Definition scatter {E} (k Zsize : nat) (out : list (item E)) : list (list E) :=
  (fun j => omap (fun i => snd <$> out !! (i * k + j)%nat) (seq 0 Zsize)) <$> seq 0 k.

(** [MergeSplitKWay] for [k >= 3]; [None] is [abort]. *)
Definition MergeSplitKWay_many (k Zsize : nat) (buckets : list (list (TaggedT T)))
    : option (list (list (TaggedT T))) :=
  let '(items, counts) := readMarks (Z.of_nat k) (concat buckets) (replicate 8 (s32 (Z.of_nat Zsize))) in
  if containLeZero counts then None else
  let items := fillDummies counts 0 (extractLane 0 counts) items in
  scatter k Zsize <$> Interleave k items.

(** ** The two-way case *)

(** The second loop of [MergeSplitTwoWay]: flip the mark of dummies until
    [diff] is used up; returns what is left of [diff]. *)
Fixpoint changeMarks (bitMask : Z) (dir : bool) (diff : Z) (es : list (TaggedT T))
    : list (TaggedT T) * Z :=
  match es with
  | [] => ([], diff)
  | e :: es =>
      let changeMark := isDummy e && negb (diff =? 0) && Bool.eqb (isMarked bitMask e) dir in
      let '(es, d) := changeMarks bitMask dir (w64 (diff - Z.b2z changeMark)) es in
      (condChangeMark changeMark bitMask e :: es, d)
  end.

(** [MergeSplitTwoWay] with [INTERLEAVE_PARTITION]. *)
Definition MergeSplitTwoWay (bitMask : Z) (L R : list (TaggedT T))
    : option (list (TaggedT T) * list (TaggedT T)) :=
  let Zs := Z.of_nat (length L) in
  let markCount := Z.of_nat (cnt (isMarked bitMask) (L ++ R)) in
  let dir := Zs <? markCount in
  let diff := w64 (Zs - markCount) in
  let diff := if dir then w64 (- diff) else diff in
  let '(es, d) := changeMarks bitMask dir diff (L ++ R) in
  if negb (d =? 0) then None else
  Some (InterleaveTwoWayPartitionBuckets (isMarked bitMask) (take (length L) es) (drop (length L) es)).

Definition MergeSplitKWay (k Zsize : nat) (buckets : list (list (TaggedT T)))
    : option (list (list (TaggedT T))) :=
  match buckets with
  | [L; R] =>
      match MergeSplitTwoWay 1 L R with
      | Some (L', R') =>
          Some [(fun x => withTag (sar1 (tag x)) x) <$> L'; (fun x => withTag (sar1 (tag x)) x) <$> R']
      | None => None
      end
  | _ => MergeSplitKWay_many k Zsize buckets
  end.
End tagged.

(** ** Marks and counts *)

Lemma s32_small z : - 2 ^ 31 <= z < 2 ^ 31 -> s32 z = z.
Proof. intros. unfold s32. rewrite wrap_small; unfold in_width; lia. Qed.

Lemma w8_small z : 0 <= z < 256 -> w8 z = z.
Proof. intros. apply wrap_small. unfold in_width. lia. Qed.

Lemma w32_small z : 0 <= z < 2 ^ 32 -> w32 z = z.
Proof. intros. apply wrap_small. unfold in_width. lia. Qed.

Section counts.
Context {E : Type}.
Implicit Types items : list (item E).

Lemma fillDummies_snd counts items : forall c r,
  (fillDummies counts c r items).*2 = items.*2.
Proof.
  induction items as [|[m e] items IH]; intros c r; [done|].
  cbn [fillDummies]. rewrite !fmap_cons. by rewrite IH.
Qed.

(** What is left of lane [j] before position [(c, r)] of the fill. *)
Definition room (counts : list Z) (c r : Z) (j : Z) : Z :=
  if j <? c then 0 else if j =? c then r else nth (Z.to_nat j) counts 0.

(** The sum of the room of the lanes below [k]. *)
Definition total (f : Z -> Z) (k : nat) : Z := foldr (fun j a => f (Z.of_nat j) + a) 0 (seq 0 k).

Lemma total_S f k : total f (S k) = total f k + f (Z.of_nat k).
Proof.
  unfold total. rewrite seq_S, foldr_app. simpl.
  generalize (seq 0 k). intros l. induction l; simpl; lia.
Qed.

Lemma total_ext f g k : (forall j, (j < k)%nat -> f (Z.of_nat j) = g (Z.of_nat j)) -> total f k = total g k.
Proof.
  induction k as [|k IH]; intros H; [done|]. rewrite !total_S, IH, H; [done|lia|].
  intros; apply H; lia.
Qed.

Lemma total_nonneg f k : (forall j, (j < k)%nat -> 0 <= f (Z.of_nat j)) -> 0 <= total f k.
Proof.
  induction k as [|k IH]; intros H; [done|]. rewrite total_S.
  pose proof (H k ltac:(lia)). assert (0 <= total f k) by (apply IH; intros; apply H; lia). lia.
Qed.

(** Changing [f] at one point changes the sum by the difference there. *)
Lemma total_upd f g k i :
  (i < k)%nat -> (forall j, (j < k)%nat -> j <> i -> f (Z.of_nat j) = g (Z.of_nat j)) ->
  total f k - f (Z.of_nat i) = total g k - g (Z.of_nat i).
Proof.
  induction k as [|k IH]; intros Hi H; [lia|]. rewrite !total_S.
  destruct (decide (i = k)) as [->|].
  - rewrite (total_ext f g); [lia|]. intros; apply H; lia.
  - assert (total f k - f (Z.of_nat i) = total g k - g (Z.of_nat i)) by (apply IH; [lia|]; intros; apply H; lia).
    pose proof (H k ltac:(lia) ltac:(lia)). lia.
Qed.

Lemma total_zero f k i : (forall j, (j < k)%nat -> 0 <= f (Z.of_nat j)) -> total f k = 0 -> (i < k)%nat ->
  f (Z.of_nat i) = 0.
Proof.
  intros Hp Ht Hi. pose proof (total_upd f (fun j => if j =? Z.of_nat i then 0 else f j) k i Hi) as Hu.
  cbv beta in Hu. rewrite Z.eqb_refl in Hu.
  assert (0 <= total (fun j => if j =? Z.of_nat i then 0 else f j) k).
  { apply total_nonneg. intros j Hj. case_cmp; [done|]. by apply Hp. }
  pose proof (Hp i Hi).
  assert (total f k - f (Z.of_nat i) = total (fun j => if j =? Z.of_nat i then 0 else f j) k - 0).
  { apply Hu. intros j Hj Hji. case_cmp; [lia|done]. }
  lia.
Qed.
End counts.

Section fill.
Context {E : Type} (k : nat) (counts : list Z).
Hypothesis Hk : (1 <= k <= 8)%nat.
Hypothesis Hlen : length counts = 8%nat.
Hypothesis Hpos : Forall (fun c => 1 <= c < 2 ^ 31) counts.
Implicit Types items : list (item E).

(** A mark read by the first loop. *)
Definition read_mark (m : Z) : Prop := 0 <= m < Z.of_nat k \/ m = 255.

Lemma count_pos i : (i < 8)%nat -> 1 <= nth i counts 0 < 2 ^ 31.
Proof.
  intros Hi. destruct (lookup_lt_is_Some_2 counts i) as [x Hx]; [lia|].
  rewrite (nth_lookup_Some _ _ _ _ Hx). exact (Forall_lookup_1 _ _ _ _ Hpos Hx).
Qed.

Lemma extractLane_pos i : 1 <= extractLane i counts < 2 ^ 31.
Proof.
  unfold extractLane. pose proof (count_pos (Z.to_nat (i mod 8)) ltac:(lia)).
  rewrite w32_small; lia.
Qed.

Lemma extractLane_lane i : 0 <= i < 8 -> extractLane i counts = nth (Z.to_nat i) counts 0.
Proof.
  intros Hi. unfold extractLane. rewrite Z.mod_small by lia.
  pose proof (count_pos (Z.to_nat i) ltac:(lia)). rewrite w32_small; lia.
Qed.

Lemma room_next c j :
  0 <= c -> 0 <= j < Z.of_nat k ->
  room counts (c + 1) (extractLane (c + 1) counts) j = if j =? c then 0 else room counts c 1 j.
Proof.
  intros Hc Hj. unfold room.
  destruct (Z.eqb_spec j (c + 1)) as [->|].
  - rewrite extractLane_lane by lia. case_cmp; lia || done.
  - case_cmp; lia || done.
Qed.

Lemma room_end r j : 0 <= j < Z.of_nat k -> room counts (Z.of_nat k) r j = 0.
Proof. intros. unfold room. case_cmp; lia. Qed.

Lemma fillDummies_counts items : forall c r,
  0 <= c <= Z.of_nat k -> 1 <= r < 2 ^ 31 -> Forall (fun x => read_mark x.1) items ->
  cntm 255 items = total (room counts c r) k ->
  Forall (fun x => 0 <= x.1 < Z.of_nat k) (fillDummies counts c r items) /\
  (forall m, 0 <= m < Z.of_nat k ->
     cntm m (fillDummies counts c r items) = cntm m items + room counts c r m).
Proof.
  induction items as [|[m e] items IH]; intros c r Hc Hr Hm Hd.
  - split; [constructor|]. intros m Hm'. simpl. simpl in Hd.
    rewrite <-(Z2Nat.id m) by lia. rewrite (total_zero (room counts c r) k (Z.to_nat m)); [done| |done|lia].
    intros j Hj. unfold room. pose proof (count_pos j ltac:(lia)). rewrite Nat2Z.id. case_cmp; lia.
  - apply Forall_cons in Hm as [Hm1 Hm]. cbn [fst] in Hm1. cbn [fillDummies].
    destruct (Z.eqb_spec m 255) as [->|Hne].
    + (* a dummy takes the current mark *)
      assert (Hck : c < Z.of_nat k).
      { destruct (decide (c = Z.of_nat k)) as [->|]; [|lia]. exfalso.
        rewrite (total_ext _ (fun _ => 0)) in Hd by (intros; apply room_end; lia).
        assert (total (fun _ => 0) k = 0) as HT by (clear; induction k; [done|]; rewrite total_S; lia).
        rewrite HT in Hd. simpl in Hd. pose proof (cntm_nonneg 255 items). lia. }
      rewrite w8_small by lia. cbn [Z.b2z].
      rewrite w32_small by lia.
      set (r' := if r - 1 =? 0 then extractLane (c + Z.b2z (r - 1 =? 0)) counts else r - 1).
      set (c' := c + Z.b2z (r - 1 =? 0)).
      assert (Hroom : forall j, 0 <= j < Z.of_nat k ->
        room counts c' r' j = if j =? c then r - 1 else room counts c r j).
      { intros j Hj. subst c' r'. destruct (Z.eqb_spec (r - 1) 0) as [Hr0|Hr0]; cbn [Z.b2z].
        - rewrite room_next by lia. replace r with 1 by lia. case_cmp; lia || done.
        - unfold room. case_cmp; lia. }
      assert (Hr' : 1 <= r' < 2 ^ 31).
      { subst r'. destruct (r - 1 =? 0) eqn:?; [apply extractLane_pos|lia]. }
      destruct (IH c' r') as [IH1 IH2]; [subst c'; case_cmp; simpl; lia|done|done| |].
      { pose proof (total_upd (room counts c' r') (room counts c r) k (Z.to_nat c) ltac:(lia)) as Hu.
        rewrite Z2Nat.id in Hu by lia. rewrite Hroom, Z.eqb_refl in Hu by lia.
        assert (room counts c r c = r) as Hcc by (unfold room; case_cmp; lia).
        rewrite Hcc in Hu. simpl in Hd. rewrite <-Hd in Hu. rewrite Z.add_comm in Hu.
        assert (total (room counts c' r') k - (r - 1) = cntm 255 items + 1 - r) as HT.
        { apply Hu. intros j Hj Hjc. rewrite Hroom by lia. case_cmp; [lia|done]. }
        lia. }
      split; [constructor; [simpl; lia|done]|].
      intros m Hm'. cbn [cntm foldr fst]. fold (cntm m (fillDummies counts c' r' items)). fold (cntm m items).
      rewrite IH2, Hroom by done.
      destruct (Z.eqb_spec m c) as [->|].
      * assert (room counts c r c = r) as -> by (unfold room; case_cmp; lia).
        rewrite Z.eqb_refl. case_cmp; simpl; lia.
      * case_cmp; simpl; lia.
    + cbn [Z.b2z]. rewrite Z.sub_0_r, w32_small by lia.
      rewrite (proj2 (Z.eqb_neq r 0)) by lia. cbn [Z.b2z]. rewrite Z.add_0_r.
      destruct (IH c r) as [IH1 IH2]; [done..| |].
      { simpl in Hd. rewrite (proj2 (Z.eqb_neq m 255)) in Hd by done. simpl in Hd. lia. }
      split; [constructor; [simpl; destruct Hm1; [lia|done]|done]|].
      intros m' Hm'. cbn [cntm foldr fst]. fold (cntm m' (fillDummies counts c r items)). fold (cntm m' items).
      rewrite IH2 by done. lia.
Qed.
End fill.

Section scatter.
Context {E : Type} (k n : nat).
Hypothesis Hk : (1 <= k)%nat.
Local Open Scope nat_scope.
Implicit Types out : list (item E).

Lemma column_index i j q : j < k -> q = i * k + j -> q / k = i /\ q mod k = j.
Proof. intros Hj ->. split; symmetry; [apply (Nat.div_unique _ _ _ j)|apply (Nat.mod_unique _ _ i)]; lia. Qed.

Lemma columns_perm : (seq 0 k ≫= fun j => (fun i => i * k + j) <$> seq 0 n) ≡ₚ seq 0 (n * k).
Proof.
  apply NoDup_Permutation; [|apply NoDup_seq|].
  - apply NoDup_bind; [|intros j _; apply NoDup_fmap_2_strong; [|apply NoDup_seq]|apply NoDup_seq].
    + intros j1 j2 q [_ H1]%elem_of_seq [_ H2]%elem_of_seq (i1 & E1 & _)%list_elem_of_fmap (i2 & E2 & _)%list_elem_of_fmap.
      apply column_index in E1, E2; lia.
    + intros i1 i2 _ _ He. nia.
  - intros q. rewrite list_elem_of_bind. split.
    + intros (j & (i & -> & Hi)%list_elem_of_fmap & Hj). apply elem_of_seq in Hi, Hj. apply elem_of_seq. nia.
    + intros Hq%elem_of_seq. pose proof (Nat.div_mod_eq q k). pose proof (Nat.mod_upper_bound q k ltac:(lia)).
      exists (q mod k). split; [|apply elem_of_seq; lia]. apply list_elem_of_fmap. exists (q / k).
      split; [lia|]. apply elem_of_seq. assert (q / k < n) by (apply Nat.Div0.div_lt_upper_bound; lia). lia.
Qed.

Lemma omap_lookup_seq {B} (l : list B) : omap (fun i => l !! i) (seq 0 (length l)) = l.
Proof.
  induction l as [|x l IH] using rev_ind; [done|].
  rewrite length_app, Nat.add_1_r, seq_S, omap_app. simpl.
  rewrite list_lookup_middle by done. simpl. f_equal.
  etransitivity; [|exact IH]. clear IH.
  assert (forall s m, s + m <= length l -> omap (fun i => (l ++ [x]) !! i) (seq s m) = omap (fun i => l !! i) (seq s m)) as H.
  { intros s m. revert s. induction m as [|m IH]; intros s Hs; [done|]. simpl.
    rewrite lookup_app_l by lia. rewrite IH by lia. done. }
  by apply H.
Qed.

Lemma bind_omap {B C D} (f : C -> option D) (g : B -> list C) (l : list B) :
  omap f (l ≫= g) = l ≫= fun b => omap f (g b).
Proof. induction l as [|b l IH]; [done|]. rewrite !bind_cons, omap_app. by rewrite IH. Qed.

Lemma omap_fmap_eq {B C D} (f : C -> option D) (g : B -> C) (h : B -> option D) (l : list B) :
  (forall b, f (g b) = h b) -> omap f (g <$> l) = omap h l.
Proof.
  intros H. induction l as [|b l IH]; [done|]. simpl. rewrite H.
  destruct (h b); [f_equal|]; exact IH.
Qed.

Lemma concat_bind {B C} (g : B -> list C) (l : list B) : concat (g <$> l) = l ≫= g.
Proof. induction l as [|b l IH]; [done|]. rewrite bind_cons. simpl. by rewrite <-IH. Qed.

Lemma scatter_perm out : length out = n * k -> concat (scatter k n out) ≡ₚ out.*2.
Proof.
  intros Hl. unfold scatter. rewrite concat_bind.
  transitivity (omap (fun q => out.*2 !! q) (seq 0 (n * k))).
  2: { rewrite <-Hl, <-(length_fmap snd). by rewrite omap_lookup_seq. }
  rewrite <-columns_perm, bind_omap. apply reflexive_eq. apply list_bind_ext; [|done].
  intros j. symmetry. apply omap_fmap_eq. intros i. apply list_lookup_fmap.
Qed.

Lemma scatter_length out : length (scatter k n out) = k.
Proof. unfold scatter. by rewrite length_fmap, length_seq. Qed.

Lemma scatter_bucket out j b :
  length out = n * k -> scatter k n out !! j = Some b ->
  length b = n /\ (forall x, x ∈ b -> exists i m, out !! (i * k + j) = Some (m, x)).
Proof.
  intros Hl Hb. unfold scatter in Hb. apply list_lookup_fmap_Some in Hb as (j' & -> & Hj).
  apply lookup_seq in Hj as [-> Hj]. simpl. split.
  - assert (forall s m, s + m <= n ->
      length (omap (fun i => snd <$> out !! (i * k + j)) (seq s m)) = m) as H.
    { intros s m. revert s. induction m as [|m IH]; intros s Hs; [done|]. simpl.
      destruct (lookup_lt_is_Some_2 out (s * k + j)) as [x ->]; [nia|]. simpl. rewrite IH; lia. }
    by apply H.
  - intros x (i & Hi & Hx)%list_elem_of_omap. destruct (out !! (i * k + j)) as [[m y]|] eqn:He; [|done].
    simpl in Hx. injection Hx as ->. by exists i, m.
Qed.
End scatter.

Lemma containLeZero_false counts : containLeZero counts = false <-> Forall (fun c => 1 <= c) counts.
Proof.
  unfold containLeZero. rewrite <-not_true_iff_false, existsb_exists, Forall_forall.
  split.
  - intros H c Hc. destruct (Z.leb_spec c 0); [|lia]. exfalso. apply H. exists c. split; [by apply list_elem_of_In|lia].
  - intros H (c & Hc%list_elem_of_In & Hle). specialize (H c Hc). lia.
Qed.

(** ** The k-way node *)

Section node.
Context {T : Type} (k : nat).
Hypothesis Hk : (3 <= k <= 8)%nat.
Implicit Types e x : TaggedT T.

(** The digit an element is routed by, and the element with it removed. *)
Definition digit e : Z := Z.land (tag e) TAG_MASK mod Z.of_nat k.
Definition consume e : TaggedT T := (getMarkAndUpdate (Z.of_nat k) e).2.

(** The mark the first loop stores. *)
Definition markOf e : Z := if isDummy e then 255 else digit e.

Definition marked e : item (TaggedT T) := (markOf e, consume e).

Lemma markOf_read e : read_mark k (markOf e).
Proof. unfold markOf, read_mark, digit. destruct (isDummy e); lia. Qed.

Lemma decrementLane_nth m j counts :
  0 <= m -> length counts = 8%nat -> (j < 8)%nat -> - 2 ^ 31 < nth j counts 0 < 2 ^ 31 ->
  nth j (decrementLane m counts) 0 = nth j counts 0 - Z.b2z (m =? Z.of_nat j).
Proof.
  intros Hm Hl Hj Hb. unfold decrementLane. rewrite !nth_lookup in *. destruct (lookup_lt_is_Some_2 counts j) as [c Hc]; [lia|].
  rewrite Hc in *. simpl in Hb. destruct (Z.ltb_spec m 8).
  - destruct (decide (Z.to_nat m = j)) as [<-|Hne].
    + rewrite list_lookup_alter_eq, Hc. simpl. rewrite s32_small by (simpl; lia). case_cmp; simpl; lia.
    + rewrite list_lookup_alter_ne, Hc by done. case_cmp; simpl; lia.
  - rewrite Hc. case_cmp; simpl; lia.
Qed.

Lemma decrementLane_length m counts : length (decrementLane m counts) = length counts.
Proof. unfold decrementLane. case_cmp; [apply length_alter|done]. Qed.

Lemma readMarks_spec es : forall counts,
  length counts = 8%nat ->
  (forall j, (j < 8)%nat -> - 2 ^ 31 + Z.of_nat (length es) < nth j counts 0 < 2 ^ 31) ->
  let ic := readMarks (Z.of_nat k) es counts in
  ic.1 = marked <$> es /\ length ic.2 = 8%nat /\
  (forall j, (j < 8)%nat -> nth j ic.2 0 = nth j counts 0 - cntm (Z.of_nat j) (marked <$> es)).
Proof.
  induction es as [|e es IH]; intros counts Hl Hb; cbv zeta.
  - simpl. split_and!; [done..|]. intros. lia.
  - cbn [readMarks]. cbv zeta.
    assert (Hmk : (if isDummy e then 255 else (getMarkAndUpdate (Z.of_nat k) e).1) = markOf e).
    { unfold markOf, getMarkAndUpdate, digit. cbv zeta. cbn [fst]. destruct (isDummy e); [done|]. apply w8_small. lia. }
    rewrite Hmk. pose proof (markOf_read e) as Hr.
    assert (0 <= markOf e) by (destruct Hr; lia). rewrite length_cons in Hb.
    destruct (IH (decrementLane (markOf e) counts)) as (I1 & I2 & I3).
    { by rewrite decrementLane_length. }
    { intros j Hj. specialize (Hb j Hj). rewrite decrementLane_nth by (assumption || lia). case_cmp; simpl; lia. }
    destruct (readMarks (Z.of_nat k) es (decrementLane (markOf e) counts)) as [items cs].
    cbn [fst snd] in *. split_and!; [by rewrite I1|done|].
    intros j Hj. rewrite I3 by done. specialize (Hb j Hj). rewrite decrementLane_nth by (assumption || lia).
    rewrite fmap_cons. cbn [cntm foldr fst marked]. fold (cntm (Z.of_nat j) (marked <$> es)). lia.
Qed.

(** Every element is either a dummy or carries one of the [k] marks. *)
Lemma marked_total (es : list (TaggedT T)) :
  Z.of_nat (length es) = cntm 255 (marked <$> es) + total (fun j => cntm j (marked <$> es)) k.
Proof.
  induction es as [|e es IH].
  - simpl. clear. induction k as [|k' IH]; [done|]. rewrite total_S. simpl in *. lia.
  - rewrite length_cons, fmap_cons.
    assert (Hc : forall w, cntm w (marked e :: (marked <$> es)) = Z.b2z (markOf e =? w) + cntm w (marked <$> es)) by done.
    rewrite Hc. rewrite (total_ext _ (fun j => Z.b2z (markOf e =? j) + cntm j (marked <$> es)) k) by (intros; apply Hc).
    destruct (markOf_read e) as [Hr|Hr].
    + pose proof (total_upd (fun j => Z.b2z (markOf e =? j) + cntm j (marked <$> es))
                            (fun j => cntm j (marked <$> es)) k (Z.to_nat (markOf e)) ltac:(lia)) as Hu.
      cbv beta in Hu. rewrite !Z2Nat.id, Z.eqb_refl in Hu by lia. change (Z.b2z true) with 1 in Hu.
      rewrite (proj2 (Z.eqb_neq (markOf e) 255)) by lia. change (Z.b2z false) with 0.
      assert (forall j, (j < k)%nat -> j <> Z.to_nat (markOf e) ->
        Z.b2z (markOf e =? Z.of_nat j) + cntm (Z.of_nat j) (marked <$> es) = cntm (Z.of_nat j) (marked <$> es)) as Hd.
      { intros j Hj Hne. rewrite (proj2 (Z.eqb_neq _ _)) by lia. apply Z.add_0_l. }
      specialize (Hu Hd). lia.
    + rewrite Hr. change (Z.b2z (255 =? 255)) with 1.
      rewrite (total_ext (fun j => Z.b2z (255 =? j) + cntm j (marked <$> es)) (fun j => cntm j (marked <$> es)) k); [lia|].
      intros j Hj. rewrite (proj2 (Z.eqb_neq _ _)) by lia. apply Z.add_0_l.
Qed.

Lemma fillDummies_keep {E} counts (items : list (item E)) : forall c r i (x : item E),
  fillDummies counts c r items !! i = Some x ->
  exists y, items !! i = Some y /\ y.2 = x.2 /\ (y.1 = 255 \/ y.1 = x.1).
Proof.
  induction items as [|[m e] items IH]; intros c r i x Hx; [done|]. cbn [fillDummies] in Hx.
  destruct i as [|i]; [|by eapply IH]. injection Hx as <-. exists (m, e). simpl.
  split_and!; [done..|]. case_cmp; [by left|by right].
Qed.

(** The number of real elements that go to bucket [j]. *)
Definition demand (j : nat) (es : list (TaggedT T)) : nat :=
  length (List.filter (fun e => negb (isDummy e) && (digit e =? Z.of_nat j)) es).

Lemma demand_cntm j es : (j < k)%nat -> cntm (Z.of_nat j) (marked <$> es) = Z.of_nat (demand j es).
Proof.
  intros Hj. unfold demand. induction es as [|e es IH]; [done|].
  rewrite fmap_cons. cbn [cntm foldr fst marked List.filter].
  fold (cntm (Z.of_nat j) (marked <$> es)). rewrite IH. unfold markOf.
  destruct (isDummy e); cbn [negb andb].
  - rewrite (proj2 (Z.eqb_neq 255 _)) by lia. apply Z.add_0_l.
  - destruct (digit e =? Z.of_nat j); [|apply Z.add_0_l].
    rewrite length_cons. change (Z.b2z true) with 1. lia.
Qed.

Lemma marked_absent j es : Z.of_nat k <= j < 255 -> cntm j (marked <$> es) = 0.
Proof.
  intros Hj. induction es as [|x l IH]; [done|]. rewrite fmap_cons. cbn [cntm foldr].
  fold (cntm j (marked <$> l)). rewrite IH. cbn [marked fst].
  destruct (markOf_read x); rewrite (proj2 (Z.eqb_neq _ _)) by lia; done.
Qed.
End node.

Section kway.
Context {T : Type} (k e : nat) (buckets : list (list (TaggedT T))).
Hypothesis Hk : (3 <= k <= 8)%nat.
Hypothesis He : (e <= 27)%nat.
Hypothesis Hb : length buckets = k.
Hypothesis Hz : Forall (fun b => length b = 2 ^ e)%nat buckets.

Let n : nat := (2 ^ e)%nat.
Let es := concat buckets.
Let rm := readMarks (Z.of_nat k) es (replicate 8 (s32 (Z.of_nat n))).

Lemma node_size_bound : 1 <= Z.of_nat n <= 2 ^ 27.
Proof.
  subst n. rewrite Nat2Z.inj_pow. split; [|apply Z.pow_le_mono_r; lia].
  pose proof (Z.pow_pos_nonneg 2 (Z.of_nat e)). lia.
Qed.

Lemma node_length : length es = (n * k)%nat.
Proof.
  subst es n. rewrite <-Hb. clear -Hz. induction Hz as [|b l H1 H2 IH]; [simpl; lia|].
  rewrite concat_cons, length_app, length_cons, IH, H1 by done. lia.
Qed.

Lemma node_read :
  rm.1 = marked k <$> es /\ length rm.2 = 8%nat /\
  (forall j, (j < 8)%nat -> nth j rm.2 0 = Z.of_nat n - cntm (Z.of_nat j) (marked k <$> es)).
Proof.
  pose proof node_size_bound as Hn. pose proof node_length as Hl.
  assert (Hr : forall j, (j < 8)%nat -> nth j (replicate 8 (s32 (Z.of_nat n))) 0 = Z.of_nat n).
  { intros j Hj. rewrite s32_small by lia. rewrite nth_lookup, lookup_replicate_2 by lia. done. }
  destruct (readMarks_spec k Hk es (replicate 8 (s32 (Z.of_nat n)))) as (R1 & R2 & R3); [done| |].
  - intros j Hj. rewrite Hr by done. rewrite Hl. nia.
  - split_and!; [done..|]. intros j Hj. subst rm. by rewrite R3, Hr.
Qed.

Lemma node_counts :
  (forall j, (j < k)%nat -> (demand k j es < n)%nat) <-> containLeZero rm.2 = false.
Proof.
  destruct node_read as (_ & R2 & R3). pose proof node_size_bound. rewrite containLeZero_false.
  split.
  - intros Hd. apply Forall_lookup. intros j c Hc. pose proof (lookup_lt_Some _ _ _ Hc) as Hj.
    rewrite R2 in Hj. specialize (R3 j Hj). rewrite (nth_lookup_Some _ _ _ _ Hc) in R3. rewrite R3.
    destruct (decide (j < k)%nat) as [Hjk|Hjk].
    + rewrite demand_cntm by done. specialize (Hd j Hjk). lia.
    + assert (cntm (Z.of_nat j) (marked k <$> es) = 0) as ->; [|lia].
      apply marked_absent; lia.
  - intros Hp j Hj. specialize (R3 j ltac:(lia)). rewrite demand_cntm in R3 by done.
    destruct (lookup_lt_is_Some_2 rm.2 j) as [c Hc]; [lia|]. rewrite (nth_lookup_Some _ _ _ _ Hc) in R3.
    pose proof (Forall_lookup_1 _ _ _ _ Hp Hc) as H1. cbv beta in H1. lia.
Qed.

Let filled := fillDummies rm.2 0 (extractLane 0 rm.2) (marked k <$> es).

Lemma node_filled : containLeZero rm.2 = false -> equal_counts k (Z.of_nat n) filled.
Proof.
  intros Hc. apply containLeZero_false in Hc. destruct node_read as (_ & R2 & R3).
  pose proof node_size_bound as Hn.
  assert (Hpos : Forall (fun c => 1 <= c < 2 ^ 31) rm.2).
  { apply Forall_lookup. intros j c Hj. pose proof (Forall_lookup_1 _ _ _ _ Hc Hj) as H1. cbv beta in H1.
    pose proof (lookup_lt_Some _ _ _ Hj) as Hl. rewrite R2 in Hl. specialize (R3 j Hl).
    rewrite (nth_lookup_Some _ _ _ _ Hj) in R3. pose proof (cntm_nonneg (Z.of_nat j) (marked k <$> es)). lia. }
  assert (Hroom : forall j, (j < k)%nat ->
    room rm.2 0 (extractLane 0 rm.2) (Z.of_nat j) = Z.of_nat n - cntm (Z.of_nat j) (marked k <$> es)).
  { intros j Hj. rewrite <-R3 by lia. unfold room.
    rewrite (extractLane_lane k rm.2) by (done || lia).
    rewrite Nat2Z.id. destruct j as [|j]; [done|]. case_cmp; lia || done. }
  assert (Hm : Forall (fun x => read_mark k x.1) (marked k <$> es)).
  { apply Forall_fmap, Forall_forall. intros x _. apply markOf_read, Hk. }
  destruct (fillDummies_counts k rm.2 ltac:(lia) R2 Hpos (marked k <$> es) 0 (extractLane 0 rm.2)) as [F1 F2];
    [lia|apply (extractLane_pos k); done || lia|done| |].
  - pose proof (marked_total k Hk es) as Ht. rewrite node_length in Ht.
    rewrite (total_ext _ (fun j => Z.of_nat n - cntm j (marked k <$> es)) k) by done.
    assert (forall k', total (fun j => Z.of_nat n - cntm j (marked k <$> es)) k' =
      Z.of_nat (n * k') - total (fun j => cntm j (marked k <$> es)) k') as ->; [|lia].
    intros k'. induction k' as [|k' IH]; [unfold total; simpl; lia|]. rewrite !total_S, IH. lia.
  - split; [done|]. intros w Hw. subst filled. rewrite F2 by done.
    replace w with (Z.of_nat (Z.to_nat w)) by lia. rewrite Hroom by lia. lia.
Qed.

(** The node runs exactly when no bucket is asked for too much; the items it
    scatters are the filled ones, every one at a position that names its mark. *)
Lemma node_out :
  (forall j, (j < k)%nat -> (demand k j es < n)%nat) ->
  exists out, MergeSplitKWay_many k n buckets = Some (scatter k n out) /\
    length out = (n * k)%nat /\ out ≡ₚ filled /\
    (forall i x, out !! i = Some x -> x.1 = Z.of_nat (i mod k)).
Proof.
  intros Hd. pose proof Hd as Hc. rewrite node_counts in Hc. destruct node_read as (R1 & _).
  destruct (Interleave_fuel_correct k e Hk _ _ (Nat.le_refl _) (node_filled Hc)) as (out & Ho & Hp & Hm).
  exists out. split; [|split_and!; [|done..]].
  - unfold MergeSplitKWay_many. fold es rm. destruct rm as [items counts] eqn:E. cbn [fst snd] in *. subst items.
    rewrite Hc. unfold filled in Ho. cbn [snd] in Ho. unfold Interleave. by rewrite Ho.
  - rewrite (Permutation_length Hp). unfold filled. rewrite <-(length_fmap snd), fillDummies_snd, !length_fmap.
    apply node_length.
Qed.

Lemma node_abort j : (j < k)%nat -> (n <= demand k j es)%nat -> MergeSplitKWay_many k n buckets = None.
Proof.
  intros Hj Hge. pose proof node_counts as Hcnt. unfold MergeSplitKWay_many. fold es rm.
  destruct rm as [items counts]. cbn [snd] in Hcnt. destruct (containLeZero counts); [done|].
  exfalso. pose proof (proj2 Hcnt eq_refl j Hj). lia.
Qed.
End kway.

Lemma MergeSplitKWay_is_many {T} k n (buckets : list (list (TaggedT T))) :
  length buckets <> 2%nat -> MergeSplitKWay k n buckets = MergeSplitKWay_many k n buckets.
Proof. by destruct buckets as [|? [|? [|? ?]]]. Qed.

(** ** The two-way node *)

Section twoway.
Context {T : Type} (b : Z).
Hypothesis Hb : 0 <= b < 63.
Implicit Types (x y : TaggedT T) (es : list (TaggedT T)).

(** A real element is untouched; a dummy stays one and keeps its payload. *)
Definition mark_only x y : Prop :=
  v y = v x /\ isDummy y = isDummy x /\ in_width 64 (tag y) /\ (isDummy x = false -> y = x).

Lemma isMarked_bit x : isMarked (2 ^ b) x = negb (Z.testbit (tag x) b).
Proof.
  unfold isMarked. destruct (Z.testbit (tag x) b) eqn:Hx; simpl.
  - apply Z.eqb_neq. intros H%(f_equal (fun z => Z.testbit z b)).
    rewrite Z.land_spec, Z.pow2_bits_true, Z.bits_0, Hx in H; [done|lia].
  - apply Z.eqb_eq, Z.bits_inj'. intros i Hi. rewrite Z.land_spec, Z.bits_0, Z.pow2_bits_eqb by lia.
    case_cmp; [subst; by rewrite Hx|apply andb_false_r].
Qed.

Lemma condChangeMark_flips x :
  isMarked (2 ^ b) (condChangeMark true (2 ^ b) x) = negb (isMarked (2 ^ b) x).
Proof.
  rewrite !isMarked_bit. unfold condChangeMark, withTag. cbn [tag].
  rewrite Z.lxor_spec, Z.pow2_bits_true by lia. by rewrite xorb_true_r.
Qed.

Lemma isDummy_bit x : in_width 64 (tag x) -> isDummy x = Z.testbit (tag x) 63.
Proof.
  intros [H0 H1]. unfold isDummy. rewrite Z.shiftr_div_pow2 by lia. rewrite Z.testbit_eqb by lia.
  assert (0 <= tag x / 2 ^ 63 < 2) by (split; [apply Z.div_pos; lia|apply Z.div_lt_upper_bound; lia]).
  rewrite Z.mod_small by lia. lia.
Qed.

Lemma condChangeMark_mark_only c x :
  in_width 64 (tag x) -> (c = true -> isDummy x = true) -> mark_only x (condChangeMark c (2 ^ b) x).
Proof.
  intros Hw Hc. unfold mark_only. destruct c; [|done]. specialize (Hc eq_refl).
  assert (Hw' : in_width 64 (tag (condChangeMark true (2 ^ b) x))).
  { apply lxor_in_width; [lia|done|]. split; [lia|apply Z.pow_lt_mono_r; lia]. }
  split_and!; [done| |done|congruence].
  rewrite !isDummy_bit by done. unfold condChangeMark, withTag. cbn [tag].
  rewrite Z.lxor_spec, Z.pow2_bits_false by lia. apply xorb_false_r.
Qed.

(** The dummies on the side that has too many. *)
Definition spare (dir : bool) es : Z :=
  Z.of_nat (cnt (fun e => isDummy e && Bool.eqb (isMarked (2 ^ b) e) dir) es).

Lemma changeMarks_spec dir es : forall diff,
  Forall (fun e => in_width 64 (tag e)) es -> in_width 64 diff ->
  let r := changeMarks (2 ^ b) dir diff es in
  Forall2 mark_only es r.1 /\ r.2 = Z.max 0 (diff - spare dir es) /\
  Z.of_nat (cnt (isMarked (2 ^ b)) r.1) =
    Z.of_nat (cnt (isMarked (2 ^ b)) es) + (if dir then -1 else 1) * Z.min diff (spare dir es).
Proof.
  induction es as [|e es IH]; intros diff Hw Hd; cbv zeta.
  - unfold spare, cnt. simpl. destruct Hd. destruct dir; split_and!; constructor || lia.
  - apply Forall_cons in Hw as [He Hw]. cbn [changeMarks].
    set (ch := isDummy e && negb (diff =? 0) && Bool.eqb (isMarked (2 ^ b) e) dir).
    assert (Hs : spare dir (e :: es) = Z.b2z (isDummy e && Bool.eqb (isMarked (2 ^ b) e) dir) + spare dir es).
    { unfold spare, cnt. cbn [List.filter]. destruct (isDummy e && Bool.eqb (isMarked (2 ^ b) e) dir); cbn [Z.b2z negb andb length]; lia. }
    assert (Hch : ch = (isDummy e && Bool.eqb (isMarked (2 ^ b) e) dir) && negb (diff =? 0)).
    { subst ch. by destruct (isDummy e), (diff =? 0), (Bool.eqb (isMarked (2 ^ b) e) dir). }
    assert (w64 (diff - Z.b2z ch) = diff - Z.b2z ch /\ in_width 64 (diff - Z.b2z ch)) as [Hw1 Hw2].
    { destruct Hd. assert (in_width 64 (diff - Z.b2z ch)).
      { rewrite Hch. destruct (isDummy e && Bool.eqb (isMarked (2 ^ b) e) dir), (Z.eqb_spec diff 0); cbn [Z.b2z negb andb length]; split; lia. }
      split; [by apply wrap_small|done]. }
    rewrite Hw1. destruct (IH (diff - Z.b2z ch) Hw Hw2) as (I1 & I2 & I3).
    destruct (changeMarks (2 ^ b) dir (diff - Z.b2z ch) es) as [es' d']. cbn [fst snd] in *.
    assert (Hsp : 0 <= spare dir es) by (unfold spare; lia). destruct Hd as [Hd0 _].
    assert (Hcnt : forall x l, Z.of_nat (cnt (isMarked (2 ^ b)) (x :: l)) =
      Z.b2z (isMarked (2 ^ b) x) + Z.of_nat (cnt (isMarked (2 ^ b)) l)).
    { intros x l. unfold cnt. cbn [List.filter]. destruct (isMarked (2 ^ b) x); cbn [Z.b2z negb andb length]; lia. }
    split_and!.
    + constructor; [|done]. apply condChangeMark_mark_only; [done|].
      rewrite Hch. intros H. by destruct (isDummy e).
    + rewrite I2, Hs, Hch. destruct (isDummy e && Bool.eqb (isMarked (2 ^ b) e) dir), (Z.eqb_spec diff 0); cbn [Z.b2z negb andb length]; lia.
    + rewrite !Hcnt, I3, Hs.
      assert (Z.b2z (isMarked (2 ^ b) (condChangeMark ch (2 ^ b) e)) =
        Z.b2z (isMarked (2 ^ b) e) + (if dir then -1 else 1) * Z.b2z ch) as ->.
      { destruct ch eqn:Ech; [|cbn [condChangeMark Z.b2z]; lia]. rewrite condChangeMark_flips.
        destruct (isMarked (2 ^ b) e), dir; cbn [negb Z.b2z Bool.eqb] in *; lia || (rewrite andb_false_r in Hch; done). }
      rewrite Hch. destruct (isDummy e && Bool.eqb (isMarked (2 ^ b) e) dir), (Z.eqb_spec diff 0), dir; cbn [Z.b2z negb andb length]; lia.
Qed.

(** The real elements on one side. *)
Definition reals (m : bool) es : nat :=
  cnt (fun e => negb (isDummy e) && Bool.eqb (isMarked (2 ^ b) e) m) es.

Lemma side_split m es :
  Z.of_nat (cnt (fun e => Bool.eqb (isMarked (2 ^ b) e) m) es) = Z.of_nat (reals m es) + spare m es.
Proof.
  unfold reals, spare, cnt. induction es as [|e es IH]; [done|]. cbn [List.filter].
  destruct (Bool.eqb (isMarked (2 ^ b) e) m), (isDummy e); cbn [negb andb length]; lia.
Qed.

Lemma sides es :
  Z.of_nat (cnt (isMarked (2 ^ b)) es) = Z.of_nat (cnt (fun e => Bool.eqb (isMarked (2 ^ b) e) true) es) /\
  Z.of_nat (length es) = Z.of_nat (cnt (isMarked (2 ^ b)) es) + Z.of_nat (cnt (fun e => Bool.eqb (isMarked (2 ^ b) e) false) es).
Proof.
  unfold cnt. induction es as [|e es [IH1 IH2]]; [done|]. cbn [List.filter].
  destruct (isMarked (2 ^ b) e); cbn [Bool.eqb length]; lia.
Qed.

(** The pass that balances the marks succeeds exactly when neither side has
    too many real elements, and then half of the elements are marked. *)
Lemma balance_marks es n :
  length es = (2 * n)%nat -> Z.of_nat n < 2 ^ 62 -> Forall (fun e => in_width 64 (tag e)) es ->
  let markCount := Z.of_nat (cnt (isMarked (2 ^ b)) es) in
  let dir := Z.of_nat n <? markCount in
  let diff := if dir then w64 (- w64 (Z.of_nat n - markCount)) else w64 (Z.of_nat n - markCount) in
  let r := changeMarks (2 ^ b) dir diff es in
  Forall2 mark_only es r.1 /\
  (r.2 = 0 <-> (reals true es <= n)%nat /\ (reals false es <= n)%nat) /\
  (r.2 = 0 -> cnt (isMarked (2 ^ b)) r.1 = n).
Proof.
  intros Hl Hn Hw markCount dir diff r.
  pose proof (side_split true es) as S1. pose proof (side_split false es) as S2.
  destruct (sides es) as [E1 E2]. fold markCount in E1, E2.
  assert (Hdiff : diff = Z.abs (Z.of_nat n - markCount)).
  { subst diff dir. destruct (Z.ltb_spec (Z.of_nat n) markCount).
    - unfold wrap. rewrite <-Z.sub_0_l, Zminus_mod_idemp_r, Z.mod_small; lia.
    - rewrite wrap_small; unfold in_width; lia. }
  assert (Hd : in_width 64 diff) by (rewrite Hdiff; unfold in_width; lia).
  destruct (changeMarks_spec dir es diff Hw Hd) as (C1 & C2 & C3). fold r in C1, C2, C3. fold markCount in C3.
  clear Hd. assert (Hdir : dir = (Z.of_nat n <? markCount)) by done.
  assert (0 <= spare true es /\ 0 <= spare false es) as [P1 P2] by (unfold spare; lia).
  split; [done|]. rewrite C2, Hdiff. clearbody dir diff r markCount.
  destruct dir; split; [split|..]; intros; lia.
Qed.
End twoway.

Lemma MergeSplitTwoWay_spec {T} (b : Z) (L R : list (TaggedT T)) :
  0 <= b < 63 -> length L = length R -> (2 <= length L)%nat -> (length L mod 2 = 0)%nat ->
  Z.of_nat (length L) < 2 ^ 62 -> Forall (fun e => in_width 64 (tag e)) (L ++ R) ->
  if ((reals b true (L ++ R) <=? length L)%nat && (reals b false (L ++ R) <=? length L)%nat)
  then exists L' R' es, MergeSplitTwoWay (2 ^ b) L R = Some (L', R') /\
    length L' = length L /\ length R' = length R /\
    Forall (fun x => isMarked (2 ^ b) x = true) L' /\ Forall (fun x => isMarked (2 ^ b) x = false) R' /\
    L' ++ R' ≡ₚ es /\ Forall2 mark_only (L ++ R) es
  else MergeSplitTwoWay (2 ^ b) L R = None.
Proof.
  intros Hb HLR H2 Heven Hn Hw. unfold MergeSplitTwoWay.
  assert (Hl : length (L ++ R) = (2 * length L)%nat) by (rewrite length_app; lia).
  destruct (balance_marks b Hb (L ++ R) (length L) Hl Hn Hw) as (B1 & B2 & B3).
  cbv zeta in *. destruct (changeMarks _ _ _ _) as [es d]. cbn [fst snd] in *.
  destruct (Z.eqb_spec d 0) as [Hd|Hd]; cbn [negb].
  - destruct (proj1 B2 Hd) as [R1 R2]. rewrite (proj2 (Nat.leb_le _ _) R1), (proj2 (Nat.leb_le _ _) R2). cbn [andb].
    pose proof (Forall2_length _ _ _ B1) as He. rewrite Hl in He.
    destruct (InterleaveTwoWayPartitionBuckets_correct (isMarked (2 ^ b)) (take (length L) es) (drop (length L) es))
      as (P1 & P2 & P3 & P4 & P5).
    + rewrite length_take, length_drop. lia.
    + rewrite length_take. lia.
    + rewrite length_take. replace (length L `min` length es)%nat with (length L) by lia. done.
    + rewrite <-cnt_app, take_drop, B3, length_take by done. lia.
    + destruct (InterleaveTwoWayPartitionBuckets _ _ _) as [L' R']. cbn [fst snd] in *.
      rewrite length_take in P1. rewrite length_drop in P2. rewrite take_drop in P3.
      exists L', R', es. split_and!; [done|lia|lia|done..].
  - destruct (Nat.leb_spec (reals b true (L ++ R)) (length L)); [|done].
    destruct (Nat.leb_spec (reals b false (L ++ R)) (length L)); [|done]. exfalso. tauto.
Qed.

(** ** Properties *)

(** C6: [MergeSplitKWay] with [k] buckets of [2^e] slots ([k] from 3 to 8).
    When every bucket is asked for by fewer than [2^e] real elements, the node
    returns [k] buckets of [2^e] slots that hold, together, exactly the input
    elements with the lowest base-[k] digit of their tag removed, and a real
    element ends in the bucket its digit names.  When some bucket is asked for
    by [2^e] real elements or more, the node aborts. *)
Theorem MergeSplitKWay_correct {T} (k e : nat) (buckets : list (list (TaggedT T))) :
  (3 <= k <= 8)%nat -> (e <= 27)%nat -> length buckets = k ->
  Forall (fun b => length b = 2 ^ e)%nat buckets ->
  ((forall j, (j < k)%nat -> (demand k j (concat buckets) < 2 ^ e)%nat) ->
   exists out, MergeSplitKWay k (2 ^ e) buckets = Some out /\
     length out = k /\ Forall (fun b => length b = 2 ^ e)%nat out /\
     concat out ≡ₚ consume k <$> concat buckets /\
     (forall j b x, out !! j = Some b -> x ∈ b ->
        exists y, y ∈ concat buckets /\ x = consume k y /\
          (isDummy y = true \/ digit k y = Z.of_nat j))) /\
  ((exists j, (j < k)%nat /\ (2 ^ e <= demand k j (concat buckets))%nat) ->
   MergeSplitKWay k (2 ^ e) buckets = None).
Proof.
  intros Hk He Hb Hz. rewrite MergeSplitKWay_is_many by lia. split.
  - intros Hd. destruct (node_out k e buckets Hk He Hb Hz Hd) as (out & -> & Hl & Hp & Hm).
    eexists. split; [done|]. split_and!.
    + apply scatter_length.
    + apply Forall_lookup. intros j b Hj. apply (scatter_bucket k) in Hj; [|lia|done]. apply Hj.
    + rewrite scatter_perm by (lia || done). rewrite Hp, fillDummies_snd.
      apply reflexive_eq. rewrite <-list_fmap_compose. done.
    + intros j b x Hj Hx. pose proof (lookup_lt_Some _ _ _ Hj) as Hjk. rewrite scatter_length in Hjk.
      apply (scatter_bucket k) in Hj as [_ Hx']; [|lia|done]. destruct (Hx' x Hx) as (i & m & Hi).
      pose proof (Hm _ _ Hi) as Hmark. cbn [fst] in Hmark.
      rewrite (Nat.add_comm (i * k)), Nat.Div0.mod_add, Nat.mod_small in Hmark by lia.
      apply list_elem_of_lookup_2 in Hi. rewrite Hp in Hi.
      apply list_elem_of_lookup_1 in Hi as [q Hq]. apply fillDummies_keep in Hq as (y & Hy & Hy2 & Hy1).
      apply list_lookup_fmap_Some in Hy as (z & -> & Hz'). exists z.
      split; [by eapply list_elem_of_lookup_2|]. split; [done|].
      cbn [marked fst snd] in *. unfold markOf in Hy1. destruct (isDummy z); [by left|right].
      pose proof (Z.mod_pos_bound (Z.land (tag z) TAG_MASK) (Z.of_nat k) ltac:(lia)).
      unfold digit in *. lia.
  - intros (j & Hj & Hge). by apply (node_abort k e buckets Hk He Hb Hz j).
Qed.

Lemma MergeSplitKWay_correct_witness :
  let r := fun t n : Z => mkTagged t n in
  let d := fun n : Z => mkTagged (2 ^ 63) n in
  let B := [[r 4 10; d 11]; [d 12; r 0 13]; [d 14; r 8 15]] in
  exists out, MergeSplitKWay 3 (2 ^ 1) B = Some out /\
     length out = 3%nat /\ Forall (fun b => length b = 2 ^ 1)%nat out /\
     concat out ≡ₚ consume 3 <$> concat B /\
     (forall j b x, out !! j = Some b -> x ∈ b ->
        exists y, y ∈ concat B /\ x = consume 3 y /\
          (isDummy y = true \/ digit 3 y = Z.of_nat j)).
Proof.
  intros r d B. apply (proj1 (MergeSplitKWay_correct 3 1 B ltac:(lia) ltac:(lia) eq_refl ltac:(repeat constructor))).
  intros j Hj. destruct j as [|[|[|j]]]; [vm_compute; lia..|lia].
Defined.

(** C22: [MergeSplitTwoWay] on two buckets of [n] elements and the indicator bit
    [b] below the dummy bit.  When neither side of the bit has more than [n]
    real elements, every element of the left bucket ends with the bit clear and
    every element of the right bucket with the bit set, and the buckets hold
    the input elements, the real ones untouched and the dummies with at most
    their mark changed.  Otherwise the node aborts. *)
Theorem MergeSplitTwoWay_correct {T} (b : Z) (L R : list (TaggedT T)) :
  0 <= b < 63 -> length L = length R -> (2 <= length L)%nat -> (length L mod 2 = 0)%nat ->
  Z.of_nat (length L) < 2 ^ 62 -> Forall (fun e => in_width 64 (tag e)) (L ++ R) ->
  if ((reals b true (L ++ R) <=? length L)%nat && (reals b false (L ++ R) <=? length L)%nat)
  then exists L' R' es, MergeSplitTwoWay (2 ^ b) L R = Some (L', R') /\
    length L' = length L /\ length R' = length R /\
    Forall (fun x => isMarked (2 ^ b) x = true) L' /\ Forall (fun x => isMarked (2 ^ b) x = false) R' /\
    L' ++ R' ≡ₚ es /\ Forall2 mark_only (L ++ R) es
  else MergeSplitTwoWay (2 ^ b) L R = None.
Proof. apply MergeSplitTwoWay_spec. Qed.

Lemma MergeSplitTwoWay_correct_witness :
  let r := fun t n : Z => mkTagged t n in
  let d := fun n : Z => mkTagged (2 ^ 63) n in
  let L := [r 1 10; r 3 11] in
  let R := [d 12; d 13] in
  exists L' R' es, MergeSplitTwoWay (2 ^ 0) L R = Some (L', R') /\
    length L' = length L /\ length R' = length R /\
    Forall (fun x => isMarked (2 ^ 0) x = true) L' /\ Forall (fun x => isMarked (2 ^ 0) x = false) R' /\
    L' ++ R' ≡ₚ es /\ Forall2 mark_only (L ++ R) es.
Proof.
  intros r d L R. apply (MergeSplitTwoWay_correct 0 L R);
    [lia|done|simpl; lia|done|simpl; lia|repeat constructor; simpl; lia].
Defined.
