(* ===== verification/Heap.v ===== *)
(** * Binary heaps of the C++ standard library

    [std::make_heap] and [std::pop_heap] as libstdc++ implements them
    (bits/stl_heap.h), which [ExtMergeSort] merges with.  The caller appends an
    element before it pops, so [std::pop_heap] runs on a range whose last
    element need not respect the heap order; [pop_heap_spec] shows that this
    implementation only needs the rest of the range to be a heap. *)
From S2P Require Import Prelude Utils Bitonic.

(** ** Operations *)

Section heap.
Context {A : Type} (cmp : A -> A -> bool).
Implicit Types l : list A.

(** [comp( *(first + i), *(first + j) )] *)
Definition cmpAt l i j : bool :=
  match l !! i, l !! j with Some x, Some y => cmp x y | _, _ => false end.

(** [*(first + i) = *(first + j)] *)
Definition moveAt i j l : list A := match l !! j with Some x => <[i := x]> l | None => l end.

(** The first loop of [__adjust_heap]: the hole moves down to a leaf. *)
Fixpoint sift_down (fuel : nat) l (hole len : nat) : list A * nat :=
  match fuel with
  | O => (l, hole)
  | S fuel =>
      if hole <? (len - 1) / 2 then
        let c := 2 * (hole + 1) in
        let c := if cmpAt l c (c - 1) then c - 1 else c in
        sift_down fuel (moveAt hole c l) c len
      else if Nat.even len && (2 <=? len) && (hole =? (len - 2) / 2) then
        (moveAt hole (2 * (hole + 1) - 1) l, 2 * (hole + 1) - 1)
      else (l, hole)
  end.

(** [__push_heap]: the hole moves up to where [value] fits. *)
Fixpoint sift_up (fuel : nat) l (hole top : nat) (value : A) : list A :=
  match fuel with
  | O => <[hole := value]> l
  | S fuel =>
      let parent := (hole - 1) / 2 in
      if (top <? hole) && match l !! parent with Some p => cmp p value | None => false end
      then sift_up fuel (moveAt hole parent l) parent top value
      else <[hole := value]> l
  end.

Definition adjust_heap l (hole len : nat) (value : A) : list A :=
  let '(l, h) := sift_down len l hole len in sift_up len l h hole value.

Definition pop_heap l : list A :=
  let n := length l in
  match l !! (n - 1) with
  | Some value => if 1 <? n then adjust_heap (moveAt (n - 1) 0 l) 0 (n - 1) value else l
  | None => l
  end.

(** [make_heap], from the last parent down to the root. *)
Fixpoint make_heap_from (parent : nat) l : list A :=
  let l := match l !! parent with Some value => adjust_heap l parent (length l) value | None => l end in
  match parent with O => l | S parent => make_heap_from parent l end.

Definition make_heap l : list A :=
  if length l <? 2 then l else make_heap_from ((length l - 2) / 2) l.
End heap.

(** ** The heap order *)

Section order.
Context {A : Type} (cmp : A -> A -> bool) `{!StrictWeakOrder cmp}.
Implicit Types l L : list A.

Definition parent (c : nat) : nat := (c - 1) / 2.

(** No child is above its parent, for the parents from [k] on and below [len]. *)
Definition pair_ok l p c : Prop := cmpAt cmp l p c = false.
Definition heap_from (k len : nat) l : Prop := forall c, 0 < c < len -> k <= parent c -> pair_ok l (parent c) c.
Definition is_heap l : Prop := heap_from 0 (length l) l.

(** The nodes below [k]. *)
Inductive below (k : nat) : nat -> Prop :=
  | below_refl : below k k
  | below_child c : 0 < c -> below k (parent c) -> below k c.

Lemma parent_lt c : 0 < c -> parent c < c.
Proof. unfold parent. intros H. apply Nat.Div0.div_lt_upper_bound. lia. Qed.

Lemma below_le k c : below k c -> k <= c.
Proof. induction 1 as [|c Hc _ IH]; [done|]. pose proof (parent_lt c Hc). lia. Qed.

Lemma below_parent k c : below k c -> c = k \/ (0 < c /\ below k (parent c)).
Proof. destruct 1; [by left|by right]. Qed.

Lemma parent_children c p : 0 < c -> parent c = p -> c = 2 * p + 1 \/ c = 2 * p + 2.
Proof. unfold parent. intros Hc <-. pose proof (Nat.div_mod_eq (c - 1) 2). pose proof (Nat.mod_upper_bound (c - 1) 2). lia. Qed.

Lemma parent_child p : parent (2 * p + 1) = p /\ parent (2 * p + 2) = p.
Proof.
  unfold parent. split; symmetry; [apply (Nat.div_unique _ _ _ 0)|apply (Nat.div_unique _ _ _ 1)]; lia.
Qed.

(** ** The hole

    The array with the value in the hole; a move of the loop is a swap in it. *)
Lemma hole_move l h c value : c < length l -> h < length l -> h <> c ->
  <[c := value]> (moveAt h c l) = swap_at h c (<[h := value]> l).
Proof.
  intros Hc Hh Hne. unfold moveAt, swap_at. destruct (lookup_lt_is_Some_2 l c Hc) as [x Hx].
  rewrite Hx, list_lookup_insert_eq, list_lookup_insert_ne, Hx by done. by rewrite list_insert_insert_eq.
Qed.

Lemma swap_lookup i j l q : i < length l -> j < length l ->
  swap_at i j l !! q = if decide (q = j) then l !! i else if decide (q = i) then l !! j else l !! q.
Proof.
  intros Hi Hj. unfold swap_at. destruct (lookup_lt_is_Some_2 l i Hi) as [x Hx], (lookup_lt_is_Some_2 l j Hj) as [y Hy].
  rewrite Hx, Hy. destruct (decide (q = j)) as [->|H1].
  - rewrite list_lookup_insert_eq by (by rewrite length_insert). done.
  - rewrite list_lookup_insert_ne by done. destruct (decide (q = i)) as [->|H2].
    + by rewrite list_lookup_insert_eq.
    + by rewrite list_lookup_insert_ne.
Qed.

Lemma cmpAt_swap i j l p q p' q' : i < length l -> j < length l ->
  p' = (if decide (p = j) then i else if decide (p = i) then j else p) ->
  q' = (if decide (q = j) then i else if decide (q = i) then j else q) ->
  cmpAt cmp (swap_at i j l) p q = cmpAt cmp l p' q'.
Proof.
  intros Hi Hj -> ->. unfold cmpAt. rewrite !swap_lookup by done.
  by destruct (decide (p = j)), (decide (p = i)), (decide (q = j)), (decide (q = i)).
Qed.

Lemma cmpAt_trans l a b c : b < length l -> pair_ok l a b -> pair_ok l b c -> pair_ok l a c.
Proof.
  unfold pair_ok, cmpAt. intros Hb. destruct (lookup_lt_is_Some_2 l b Hb) as [y ->].
  destruct (l !! a) as [x|], (l !! c) as [z|]; try done. apply swo_negtrans.
Qed.

Lemma cmpAt_asym l a b : cmpAt cmp l a b = true -> pair_ok l b a.
Proof. unfold pair_ok, cmpAt. destruct (l !! a), (l !! b); try done. apply swo_asym. Qed.

(** While the hole [h] moves down: everything away from it is in order, and
    its children are in order with its parent. *)
Record down_inv (k len h : nat) L : Prop := {
  down_below : below k h;
  down_len : h < len <= length L;
  down_pairs : forall c, 0 < c < len -> k <= parent c -> parent c <> h -> c <> h -> pair_ok L (parent c) c;
  down_grand : forall c, 0 < c < len -> parent c = h -> h <> k -> pair_ok L (parent h) c }.

(** While it moves up, its children are in order with the value too. *)
Record up_inv (k len h : nat) L : Prop := {
  up_below : below k h;
  up_len : h < len <= length L;
  up_pairs : forall c, 0 < c < len -> k <= parent c -> c <> h -> pair_ok L (parent c) c;
  up_grand : forall c, 0 < c < len -> parent c = h -> h <> k -> pair_ok L (parent h) c }.

Lemma down_step k len h c L : down_inv k len h L -> c < len -> 0 < c -> parent c = h ->
  (forall s, s < len -> 0 < s -> parent s = h -> s <> c -> pair_ok L c s) -> down_inv k len c (swap_at h c L).
Proof.
  intros [Hb [Hl HL] Hp Hg] Hc Hc0 Hpc Hs. pose proof (parent_lt c Hc0).
  split; [constructor; [done|by rewrite Hpc]|by rewrite swap_at_length| |].
  - intros q Hq Hkq Hpq Hqc. unfold pair_ok. destruct (decide (parent q = h)) as [E|E].
    + rewrite (cmpAt_swap h c L _ _ c q); [by apply Hs; lia|lia|lia| |].
      * rewrite decide_False by lia. by rewrite decide_True.
      * pose proof (parent_lt q). rewrite decide_False by lia. by rewrite decide_False by lia.
    + destruct (decide (q = h)) as [->|Hqh].
      * rewrite (cmpAt_swap h c L _ _ (parent h) c); [|lia|lia|by rewrite !decide_False by lia|rewrite decide_False by lia; by rewrite decide_True].
        apply Hg; [lia|done|]. intros ->. pose proof (parent_lt k). lia.
      * rewrite (cmpAt_swap h c L _ _ (parent q) q); [by apply Hp|lia|lia|by rewrite !decide_False|by rewrite !decide_False].
  - intros q Hq Hpq Hck. pose proof (parent_lt q ltac:(lia)). unfold pair_ok. rewrite Hpc.
    rewrite (cmpAt_swap h c L _ _ c q); [|lia|lia|rewrite decide_False by lia; by rewrite decide_True|by rewrite !decide_False by lia].
    rewrite <-Hpq. apply Hp; [lia| |lia|lia]. pose proof (below_le _ _ Hb). lia.
Qed.

Lemma up_step k len h L : up_inv k len h L -> k < h -> cmpAt cmp L (parent h) h = true ->
  up_inv k len (parent h) (swap_at h (parent h) L).
Proof.
  intros [Hb [Hl HL] Hp Hg] Hkh Hcmp. pose proof (parent_lt h ltac:(lia)) as Hlt.
  assert (Hbp : below k (parent h)) by (destruct (below_parent _ _ Hb) as [->|[_ ?]]; [lia|done]).
  pose proof (below_le _ _ Hbp) as Hkp. set (p := parent h) in *.
  assert (Hval : pair_ok L h p) by (by apply cmpAt_asym).
  split; [done|by rewrite swap_at_length; lia| |].
  - intros q Hq Hkq Hqp. unfold pair_ok. destruct (decide (parent q = p)) as [E|E].
    + destruct (decide (q = h)) as [->|Hqh].
      * rewrite (cmpAt_swap h p L _ _ h p); [done|lia|lia|by rewrite decide_True|rewrite decide_False by lia; by rewrite decide_True].
      * rewrite (cmpAt_swap h p L _ _ h q); [|lia|lia|by rewrite decide_True|by rewrite !decide_False].
        apply cmpAt_trans with p; [lia|done|]. rewrite <-E. by apply Hp.
    + destruct (decide (parent q = h)) as [E2|E2].
      * rewrite (cmpAt_swap h p L _ _ p q); [|lia|lia|rewrite decide_False by lia; by rewrite decide_True|].
        -- by apply Hg; [lia|done|lia].
        -- rewrite !decide_False; [done|pose proof (parent_lt q ltac:(lia)); lia|done].
      * assert (q <> h) by (intros ->; done).
        rewrite (cmpAt_swap h p L _ _ (parent q) q); [by apply Hp|lia|lia|by rewrite !decide_False|by rewrite !decide_False].
  - intros q Hq Hpq Hpk. assert (k < p) by lia. pose proof (parent_lt p ltac:(lia)) as Hpp.
    assert (Hbpp : k <= parent p) by (destruct (below_parent _ _ Hbp) as [->|[_ ?]]; [lia|by apply below_le]).
    assert (Hpair : pair_ok L (parent p) p) by (apply Hp; lia). unfold pair_ok.
    destruct (decide (q = h)) as [->|Hqh].
    + rewrite (cmpAt_swap h p L _ _ (parent p) p); [done|lia|lia|by rewrite !decide_False by lia|rewrite decide_False by lia; by rewrite decide_True].
    + pose proof (parent_lt q ltac:(lia)).
      rewrite (cmpAt_swap h p L _ _ (parent p) q); [|lia|lia|by rewrite !decide_False by lia|by rewrite !decide_False by lia].
      apply cmpAt_trans with p; [lia|done|]. rewrite <-Hpq. apply Hp; lia.
Qed.

Lemma moveAt_length i j l : length (moveAt i j l) = length l.
Proof. unfold moveAt. destruct (l !! j); [apply length_insert|done]. Qed.

Lemma moveAt_lookup_ne i j l q : q <> i -> moveAt i j l !! q = l !! q.
Proof. intros H. unfold moveAt. destruct (l !! j); [by rewrite list_lookup_insert_ne|done]. Qed.

Lemma down_leaf k len h L : down_inv k len h L -> len <= 2 * h + 1 -> up_inv k len h L.
Proof.
  intros [Hb Hl Hp Hg] Hleaf. split; [done..| |done]. intros c Hc Hk Hch. apply Hp; [done..| |done].
  intros E. apply parent_children in E; lia.
Qed.

Lemma sift_down_spec k len value fuel : forall l h,
  len <= fuel + h -> down_inv k len h (<[h := value]> l) ->
  let r := sift_down cmp fuel l h len in
  up_inv k len r.2 (<[r.2 := value]> r.1) /\ length r.1 = length l /\
  <[r.2 := value]> r.1 ≡ₚ <[h := value]> l /\ (forall q, len <= q -> r.1 !! q = l !! q).
Proof.
  induction fuel as [|fuel IH]; intros l h Hf HD; pose proof (down_len _ _ _ _ HD) as [Hh HL]; rewrite length_insert in HL; [lia|].
  cbn [sift_down]. cbv zeta. destruct (Nat.ltb_spec h ((len - 1) / 2)) as [Hlt|Hge].
  - set (c := if cmpAt cmp l (2 * (h + 1)) (2 * (h + 1) - 1) then 2 * (h + 1) - 1 else 2 * (h + 1)).
    assert (Hbound : 2 * h + 2 < len) by (pose proof (Nat.div_mod_eq (len - 1) 2); lia).
    destruct (parent_child h) as [P1 P2].
    assert (Hc : parent c = h /\ h < c < len).
    { unfold c. destruct (cmpAt _ _ _ _); [replace (2 * (h + 1) - 1) with (2 * h + 1) by lia|replace (2 * (h + 1)) with (2 * h + 2) by lia]; split; lia || done. }
    assert (HD' : down_inv k len c (<[c := value]> (moveAt h c l))).
    { rewrite hole_move by lia. apply down_step with len || apply (down_step k len h c); [done|lia|lia|apply Hc|].
      intros s Hs Hs0 Hps Hsc. apply parent_children in Hps; [|done].
      assert (E : pair_ok l c s).
      { unfold c in *. replace (2 * (h + 1) - 1) with (2 * h + 1) in * by lia. replace (2 * (h + 1)) with (2 * h + 2) in * by lia.
        destruct (cmpAt cmp l (2 * h + 2) (2 * h + 1)) eqn:Ec.
        - assert (s = 2 * h + 2) as -> by lia. by apply cmpAt_asym.
        - assert (s = 2 * h + 1) as -> by lia. exact Ec. }
      unfold pair_ok, cmpAt in *. rewrite !list_lookup_insert_ne by lia. exact E. }
    destruct (IH (moveAt h c l) c ltac:(lia) HD') as (R1 & R2 & R3 & R4). split; [done|]. split; [by rewrite R2, moveAt_length|].
    split; [by rewrite R3, hole_move, swap_at_perm by lia|]. intros q Hq. rewrite R4, moveAt_lookup_ne by lia. done.
  - destruct (Nat.even len && (2 <=? len) && (h =? (len - 2) / 2)) eqn:E.
    + apply andb_true_iff in E as [[Ev E2]%andb_true_iff E3]. apply Nat.leb_le in E2. apply Nat.eqb_eq in E3.
      apply Nat.even_spec in Ev as [m Hm]. assert (Hlen : len = 2 * h + 2) by (subst len; rewrite E3; replace (2 * m - 2) with ((m - 1) * 2) by lia; rewrite Nat.div_mul by lia; lia).
      replace (2 * (h + 1) - 1) with (2 * h + 1) by lia. cbn [fst snd]. destruct (parent_child h) as [P1 _].
      rewrite !hole_move by lia. split_and!.
      * apply down_leaf; [|lia]. apply (down_step k len h); [done|lia|lia|done|]. intros s Hs Hs0 Hps Hne.
        apply parent_children in Hps; lia.
      * by rewrite moveAt_length.
      * by rewrite swap_at_perm.
      * intros q Hq. by rewrite moveAt_lookup_ne by lia.
    + cbn [fst snd]. split; [|done]. apply down_leaf; [done|]. apply Nat.nlt_ge. intros Hlt.
      assert (len = 2 * h + 2) as Hlen by (pose proof (Nat.div_mod_eq (len - 1) 2); pose proof (Nat.mod_upper_bound (len - 1) 2); lia).
      apply not_true_iff_false in E. apply E. rewrite Hlen. replace (2 * h + 2 - 2) with (h * 2) by lia.
      rewrite Nat.div_mul, Nat.eqb_refl, andb_true_r by lia. apply andb_true_iff. split; [|apply Nat.leb_le; lia].
      apply Nat.even_spec. exists (h + 1). lia.
Qed.

Lemma sift_up_spec k len value fuel : forall l h,
  h < fuel -> up_inv k len h (<[h := value]> l) ->
  let r := sift_up cmp fuel l h k value in
  heap_from k len r /\ length r = length l /\ r ≡ₚ <[h := value]> l /\ (forall q, len <= q -> r !! q = l !! q).
Proof.
  induction fuel as [|fuel IH]; intros l h Hf HU; [lia|]. cbn [sift_up]. cbv zeta. fold (parent h).
  pose proof (up_len _ _ _ _ HU) as [Hh HL]. rewrite length_insert in HL.
  assert (Hdone : (k < h -> pair_ok (<[h := value]> l) (parent h) h) -> heap_from k len (<[h := value]> l)).
  { intros Hp c Hc Hkc. destruct (decide (c = h)) as [->|Hne]; [|by apply (up_pairs _ _ _ _ HU)].
    apply Hp. pose proof (parent_lt h). lia. }
  assert (Hkh : k <= h) by apply (below_le _ _ (up_below _ _ _ _ HU)).
  destruct (Nat.ltb_spec k h) as [Hlt|Hge]; cbn [andb].
  2: { split_and!; [apply Hdone; lia|apply length_insert|done|]. intros q Hq. by rewrite list_lookup_insert_ne by lia. }
  pose proof (parent_lt h ltac:(lia)) as Hp. destruct (lookup_lt_is_Some_2 l (parent h)) as [p Ep]; [lia|]. rewrite Ep.
  assert (Ecmp : cmpAt cmp (<[h := value]> l) (parent h) h = cmp p value).
  { unfold cmpAt. rewrite list_lookup_insert_ne, Ep, list_lookup_insert_eq by lia. done. }
  destruct (cmp p value) eqn:Ec.
  - assert (HU' : up_inv k len (parent h) (<[parent h := value]> (moveAt h (parent h) l))).
    { rewrite hole_move by lia. by apply up_step. }
    destruct (IH (moveAt h (parent h) l) (parent h) ltac:(lia) HU') as (R1 & R2 & R3 & R4).
    split_and!; [done|by rewrite R2, moveAt_length|by rewrite R3, hole_move, swap_at_perm by lia|].
    intros q Hq. rewrite R4, moveAt_lookup_ne by lia. done.
  - split_and!; [apply Hdone; intros _; exact Ecmp|apply length_insert|done|].
    intros q Hq. by rewrite list_lookup_insert_ne by lia.
Qed.

(** [__adjust_heap] restores the order below [hole]. *)
Lemma adjust_heap_spec l hole len value : hole < len <= length l -> heap_from (S hole) len l ->
  let r := adjust_heap cmp l hole len value in
  heap_from hole len r /\ length r = length l /\ r ≡ₚ <[hole := value]> l /\ (forall q, len <= q -> r !! q = l !! q).
Proof.
  intros Hl Hh. unfold adjust_heap.
  assert (HD : down_inv hole len hole (<[hole := value]> l)).
  { split; [constructor|by rewrite length_insert| |done]. intros c Hc Hk Hpc Hch. unfold pair_ok, cmpAt.
    rewrite !list_lookup_insert_ne by done. apply Hh; [done|lia]. }
  destruct (sift_down_spec hole len value len l hole ltac:(lia) HD) as (S1 & S2 & S3 & S4).
  destruct (sift_down cmp len l hole len) as [l' h]. cbn [fst snd] in *.
  destruct (sift_up_spec hole len value len l' h) as (U1 & U2 & U3 & U4); [apply (up_len _ _ _ _ S1)|done|].
  split_and!; [done|by rewrite U2|by rewrite U3|]. intros q Hq. by rewrite U4, S4.
Qed.

Lemma heap_from_ext k len l l' : (forall q, q < len -> l !! q = l' !! q) -> heap_from k len l -> heap_from k len l'.
Proof.
  intros He Hh c Hc Hk. pose proof (parent_lt c ltac:(lia)). unfold pair_ok, cmpAt. rewrite <-!He by lia. by apply Hh.
Qed.

(** [pop_heap] on a heap followed by any element [x]: the top goes to the end
    and the rest is a heap again. *)
Lemma pop_heap_spec top rest x : is_heap (top :: rest) ->
  exists r, pop_heap cmp ((top :: rest) ++ [x]) = r ++ [top] /\ r ≡ₚ rest ++ [x] /\ is_heap r.
Proof.
  intros Hh. unfold is_heap in Hh. unfold pop_heap. set (l := (top :: rest) ++ [x]). set (n := length (top :: rest)) in *.
  assert (Hlen : length l = n + 1) by (unfold l; rewrite length_app; done). assert (Hn : 0 < n) by (unfold n; simpl; lia).
  rewrite Hlen. replace (n + 1 - 1) with n by lia.
  assert (El : l !! n = Some x) by (by apply list_lookup_middle). rewrite El.
  rewrite (proj2 (Nat.ltb_lt 1 (n + 1))) by lia. change (moveAt n 0 l) with (<[n := top]> l).
  assert (Emid : <[n := top]> l = (top :: rest) ++ [top]).
  { unfold l. rewrite insert_app_r_alt by done. rewrite Nat.sub_diag. done. }
  rewrite Emid. set (m := (top :: rest) ++ [top]).
  assert (Hm : length m = n + 1) by (unfold m; rewrite length_app; done).
  destruct (adjust_heap_spec m 0 n x) as (A1 & A2 & A3 & A4); [lia| |].
  { intros c Hc Hk. apply (heap_from_ext 0 n (top :: rest)); [|exact Hh|done|lia].
    intros q Hq. unfold m. by rewrite lookup_app_l. }
  set (r := adjust_heap cmp m 0 n x) in *.
  assert (Er : r = take n r ++ [top]).
  { rewrite <-(take_drop n r) at 1. f_equal. specialize (A4 n (Nat.le_refl n)).
    unfold m in A4. rewrite (list_lookup_middle (top :: rest) [] top n eq_refl) in A4.
    apply list_eq. intros [|i]; rewrite lookup_drop; [rewrite Nat.add_0_r; exact A4|].
    rewrite (lookup_ge_None_2 r) by lia. done. }
  exists (take n r). split; [done|]. split.
  - apply (Permutation_app_inv_r [top]). rewrite <-Er, A3. unfold m. cbn [app]. change (<[0 := x]> (top :: rest ++ [top])) with (x :: rest ++ [top]).
    rewrite <-app_assoc. cbn [app]. rewrite !(Permutation_app_comm rest). simpl. apply perm_swap || (by rewrite perm_swap).
  - unfold is_heap. rewrite length_take, A2, Hm. replace (n `min` (n + 1)) with n by lia.
    apply (heap_from_ext 0 n r); [|done]. intros q Hq. by rewrite lookup_take_lt.
Qed.

Lemma heap_prefix l l' : is_heap (l ++ l') -> is_heap l.
Proof.
  unfold is_heap. intros H c Hc Hk. pose proof (parent_lt c ltac:(lia)). specialize (H c). rewrite length_app in H.
  unfold pair_ok, cmpAt in *. rewrite !lookup_app_l in H by lia. apply H; lia.
Qed.

(** The documented case: the whole range is a heap. *)
Lemma pop_heap_plain top rest : is_heap (top :: rest) ->
  exists r, pop_heap cmp (top :: rest) = r ++ [top] /\ r ≡ₚ rest /\ is_heap r.
Proof.
  intros Hh. destruct rest as [|x rest _] using rev_ind.
  - exists []. split_and!; [done..|]. intros c Hc. simpl in Hc. lia.
  - change (top :: rest ++ [x]) with ((top :: rest) ++ [x]). apply pop_heap_spec. by apply heap_prefix with [x].
Qed.

(** The root stands before everything. *)
Lemma heap_top top rest : is_heap (top :: rest) -> Forall (fun x => cmp top x = false) rest.
Proof.
  intros Hh. assert (Hr : cmp top top = false) by (destruct (cmp top top) eqn:E; [by rewrite (swo_asym _ _ E) in E|done]).
  apply Forall_lookup. intros i x Hx.
  assert (H : forall c, c < length (top :: rest) -> pair_ok (top :: rest) 0 c).
  { intros c. induction (lt_wf c) as [c _ IH]. intros Hc. destruct (decide (c = 0)) as [->|Hne]; [exact Hr|].
    pose proof (parent_lt c ltac:(lia)). apply cmpAt_trans with (parent c); [lia|by apply IH; lia|].
    apply Hh; lia. }
  pose proof (lookup_lt_Some _ _ _ Hx). specialize (H (S i) ltac:(simpl; lia)). unfold pair_ok, cmpAt in H. change ((top :: rest) !! S i) with (rest !! i) in H. change ((top :: rest) !! 0) with (Some top) in H.
  by rewrite Hx in H.
Qed.

Lemma heap_leaves l k : length l <= 2 * k + 1 -> heap_from k (length l) l.
Proof.
  intros Hk c Hc Hp. unfold parent in Hp. pose proof (Nat.div_mod_eq (c - 1) 2). lia.
Qed.

Lemma make_heap_from_spec p : forall l, p < length l -> heap_from (S p) (length l) l ->
  is_heap (make_heap_from cmp p l) /\ make_heap_from cmp p l ≡ₚ l.
Proof.
  induction p as [|p IH]; intros l Hp Hh; cbn [make_heap_from]; destruct (lookup_lt_is_Some_2 l _ Hp) as [x Ex]; rewrite Ex;
    destruct (adjust_heap_spec l _ (length l) x (conj Hp (Nat.le_refl _)) Hh) as (A1 & A2 & A3 & _);
    rewrite list_insert_id in A3 by done.
  - split; [|done]. unfold is_heap. by rewrite A2.
  - destruct (IH (adjust_heap cmp l (S p) (length l) x)) as [I1 I2]; [rewrite A2; lia|by rewrite A2|].
    split; [done|by rewrite I2].
Qed.

Lemma make_heap_spec l : is_heap (make_heap cmp l) /\ make_heap cmp l ≡ₚ l.
Proof.
  unfold make_heap. destruct (Nat.ltb_spec (length l) 2).
  - split; [|done]. intros c Hc. lia.
  - pose proof (Nat.div_mod_eq (length l - 2) 2). pose proof (Nat.mod_upper_bound (length l - 2) 2).
    apply make_heap_from_spec; [lia|]. apply heap_leaves. lia.
Qed.
End order.

Example pop_heap_test :
  pop_heap (fun x y => Nat.ltb y x) (make_heap (fun x y => Nat.ltb y x) [5; 3; 8; 1; 9; 3; 7]) = [3; 3; 7; 5; 9; 8; 1].
Proof. reflexivity. Qed.
