(* ===== verification/MergeSort.v ===== *)
(** * Partition of dummies and external merge sort

    [partitionDummy] and [ExtMergeSort] of sort_building_blocks.hpp, and the
    interface to [std::sort]. *)
From S2P Require Import Prelude Utils Bitonic MergeSplit Heap.
From stdpp Require Import sorting.

(** ** Interfaces *)

(** [std::sort(begin, end, cmp)] on elements of one type. *)
Class StdSort (A : Type) := std_sort : (A -> A -> bool) -> list A -> list A.

(** What the standard promises for a comparison that is a strict weak order. *)
Class StdSortOk (A : Type) `{!StdSort A} : Prop := {
  std_sort_perm (cmp : A -> A -> bool) l : StrictWeakOrder cmp -> std_sort cmp l ≡ₚ l;
  std_sort_sorted (cmp : A -> A -> bool) l : StrictWeakOrder cmp -> StronglySorted (cmp_le cmp) (std_sort cmp l) }.

Definition divUp (x y : nat) : nat := (x + y - 1) / y.

(** ** partitionDummy *)

(** How a scan of [partitionDummy] ends: it stops at an index, or it returns
    from the function. *)
Inductive scan := Stop (i : nat) | Return (i : nat).

Section partition.
Context {T : Type}.
Implicit Types l : list (TaggedT T).

(** [while (!left->isDummy())]; [None] is a read past the array. *)
Fixpoint scanLeft (fuel : nat) l (left right : nat) : option scan :=
  match fuel, l !! left with
  | S fuel, Some x =>
      if isDummy x then Some (Stop left)
      else if right <=? S left then Some (Return (S left)) else scanLeft fuel l (S left) right
  | _, _ => None
  end.

(** [while (right->isDummy())] *)
Fixpoint scanRight (fuel : nat) l (left right : nat) : option scan :=
  match fuel, l !! right with
  | S fuel, Some x =>
      if negb (isDummy x) then Some (Stop right)
      else if right - 1 <=? left then Some (Return left) else scanRight fuel l left (right - 1)
  | _, _ => None
  end.

Fixpoint partition_loop (fuel : nat) l (left right : nat) : option (list (TaggedT T) * nat) :=
  match fuel with
  | O => None
  | S fuel =>
      match scanLeft (length l) l left right with
      | Some (Stop i) =>
          match scanRight (length l) l i right with
          | Some (Stop j) => partition_loop fuel (swap_at i j l) i j
          | Some (Return r) => Some (l, r)
          | None => None
          end
      | Some (Return r) => Some (l, r)
      | None => None
      end
  end.

(** The array after the partition, and where the real elements end. *)
Definition partitionDummy l : option (list (TaggedT T) * nat) :=
  partition_loop (S (length l)) l 0 (length l - 1).
End partition.

(** ** ExtMergeSort *)

Section merge.
Context {T : Type} (ltb : T -> T -> bool).

(** A reader in the heap: the element it points to, and what follows. *)
Abbreviation entry := (T * list T)%type.

Definition cmpmerge (a b : entry) : bool := ltb b.1 a.1.

(** [reader.get()] of a range; an empty one has nothing to point to. *)
Definition get (r : list T) : option entry := match r with [] => None | v :: rest => Some (v, rest) end.

(** [while (!heap.empty())]: write the top, put its reader back at the end if
    it has more, pop the top and drop it. *)
Fixpoint merge_loop (fuel : nat) (heap : list entry) (out : list T) : option (list T) :=
  match heap with
  | [] => Some out
  | (v, rest) :: _ =>
      match fuel with
      | O => None
      | S fuel =>
          let heap := match get rest with Some e => heap ++ [e] | None => heap end in
          let heap := pop_heap cmpmerge heap in
          merge_loop fuel (take (length heap - 1) heap) (out ++ [v])
      end
  end.

(** The merge of the readers; [count] is [mergeRanges.size()]. *)
Definition merge_readers (count : nat) (readers : list (list T)) : option (list T) :=
  if count =? 1 then head readers
  else entries ← mapM get readers; merge_loop (length (concat readers)) (make_heap cmpmerge entries) [].

(** [(size_t)pow(rangeCount, 1.0 / passNeeded)], with [passNeeded] from the
    quotient of two logarithms; an assertion compares it with [maxWay],
    and a division by zero does not return. *)
Context (mergeWay : nat -> nat -> nat).

(** A range of a vector. *)
Definition range_of (vec : list T) (r : nat * nat) : list T := slice r.1 (r.2 - r.1) vec.

(** The state of the loop over the sub-merges: the intermediate vector as far
    as it is written, its ranges, [subBegin], and whether the loop broke. *)
Record sub_state := mkSub { temp : list T; newMergeRanges : list (nat * nat); subBegin : nat; stopped : bool }.

(** Merge [ranges] of [vec] into a writer of [size] elements. *)
Fixpoint ExtMergeSort (fuel : nat) (vec : list T) (ranges : list (nat * nat)) (size maxWay : nat) : option (list T) :=
  match fuel with
  | O => None
  | S fuel =>
      let rangeCount := length ranges in
      if maxWay <? rangeCount then
        let way := mergeWay rangeCount maxWay in
        if (maxWay <? way) || (way =? 0) then None else
        let subRangeCount := divUp rangeCount way in
        let way := divUp rangeCount subRangeCount in
        let body i s :=
          if stopped s then Some s else
          let subRanges := slice (i * subRangeCount) subRangeCount ranges in
          match head subRanges, last subRanges with
          | Some first, Some final =>
              let subEnd := subBegin s + (final.2 - first.1) in
              out ← ExtMergeSort fuel vec subRanges (subEnd - subBegin s) maxWay;
              Some (mkSub (temp s ++ out) (newMergeRanges s ++ [(subBegin s, subEnd)]) subEnd (subEnd =? size))
          | _, _ => None
          end in
        s ← loopM body 0 way (mkSub [] [] 0 false);
        merge_readers rangeCount (range_of (temp s) <$> newMergeRanges s)
      else merge_readers rangeCount (range_of vec <$> ranges)
  end.
End merge.

(** [ExtMergeSort(begin, end, heapSize, inAuth)]: sort batches that fit in
    memory, one after the other in [batchSorted], and merge them. *)
Section ext_sort.
Context {T : Type} `{!StdSort T} (ltb : T -> T -> bool) (mergeWay : nat -> nat -> nat) (sizeofT item_per_page : nat).

Definition batchLen (batchSize size batchIdx : nat) : nat := Nat.min batchSize (size - batchIdx * batchSize).
Definition sortedBatch (batchSize : nat) (input : list T) (batchIdx : nat) : list T :=
  std_sort ltb (slice (batchIdx * batchSize) (batchLen batchSize (length input) batchIdx) input).
Definition batchRange (batchSize size batchIdx : nat) : nat * nat :=
  (batchIdx * batchSize, batchIdx * batchSize + batchLen batchSize size batchIdx).

Definition ExtMergeSortBatches_fuel (fuel : nat) (input : list T) (heapSize : nat) : option (list T) :=
  let size := length input in
  let batchSize := heapSize / sizeofT in
  if batchSize =? 0 then None else
  let batchCount := divUp size batchSize in
  if batchCount =? 1 then Some (std_sort ltb input) else
  let batchSorted := concat (sortedBatch batchSize input <$> seq 0 batchCount) in
  let mergeRanges := batchRange batchSize size <$> seq 0 batchCount in
  ExtMergeSort ltb mergeWay fuel batchSorted mergeRanges size (batchSize / (2 * item_per_page)).

(** Every level of the recursion has fewer ranges. *)
Definition ExtMergeSortBatches (input : list T) (heapSize : nat) : option (list T) :=
  ExtMergeSortBatches_fuel (S (divUp (length input) (heapSize / sizeofT))) input heapSize.
End ext_sort.

(** ** partitionDummy: proofs *)

Section partition_correct.
Context {T : Type}.
Implicit Types (l : list (TaggedT T)) (i j q : nat).

Definition dummyAt l q : Prop := exists x, l !! q = Some x /\ isDummy x = true.
Definition realAt l q : Prop := exists x, l !! q = Some x /\ isDummy x = false.

Lemma scanLeft_spec l right fuel : forall lo, lo <= right < length l -> right - lo < fuel ->
  exists i, lo <= i /\ (forall q, lo <= q < i -> realAt l q) /\
    ((scanLeft fuel l lo right = Some (Stop i) /\ i <= right /\ dummyAt l i) \/
     (scanLeft fuel l lo right = Some (Return i) /\ i = Nat.max right (S lo))).
Proof.
  induction fuel as [|fuel IH]; intros lo Hlo Hf; [lia|]. cbn [scanLeft].
  destruct (lookup_lt_is_Some_2 l lo) as [x Hx]; [lia|]. rewrite Hx. destruct (isDummy x) eqn:Ex.
  - exists lo. split; [done|]. split; [lia|]. left. split_and!; [done|lia|by exists x].
  - assert (Hr : realAt l lo) by (by exists x). destruct (Nat.leb_spec right (S lo)).
    + exists (S lo). split; [lia|]. split; [intros q Hq; by replace q with lo by lia|]. right. split; [done|lia].
    + destruct (IH (S lo)) as (i & Hi & Hq & Hres); [lia|lia|]. exists i. split; [lia|]. split.
      * intros q Hq'. destruct (decide (q = lo)) as [->|]; [done|apply Hq; lia].
      * destruct Hres as [(? & ? & ?)|(? & ->)]; [by left|right]. split; [done|lia].
Qed.

Lemma scanRight_spec l i fuel : forall hi, i <= hi < length l -> hi - i < fuel -> dummyAt l i ->
  (exists j, scanRight fuel l i hi = Some (Stop j) /\ i < j <= hi /\ realAt l j /\ (forall q, j < q <= hi -> dummyAt l q)) \/
  (scanRight fuel l i hi = Some (Return i) /\ (forall q, i <= q <= hi -> dummyAt l q)).
Proof.
  induction fuel as [|fuel IH]; intros hi Hhi Hf Hi; [lia|]. cbn [scanRight].
  destruct (lookup_lt_is_Some_2 l hi) as [x Hx]; [lia|]. rewrite Hx. destruct (isDummy x) eqn:Ex; cbn [negb].
  - assert (Hd : dummyAt l hi) by (by exists x). destruct (Nat.leb_spec (hi - 1) i).
    + right. split; [done|]. intros q Hq. destruct (decide (q = hi)) as [->|]; [done|]. by replace q with i by lia.
    + destruct (IH (hi - 1)) as [(j & ? & ? & ? & Hq)|(? & Hq)]; [lia|lia|done|left; exists j|right]; split_and!; [done|lia|lia|done| |done|].
      * intros q Hq'. destruct (decide (q = hi)) as [->|]; [done|apply Hq; lia].
      * intros q Hq'. destruct (decide (q = hi)) as [->|]; [done|apply Hq; lia].
  - left. exists hi. split_and!; [done| |done|by exists x|lia].
    destruct Hi as (y & Hy & Ey). destruct (decide (i = hi)); [congruence|lia].
Qed.

(** Real up to [lo], dummy beyond [hi], and a dummy in between unless the
    range is a single element. *)
Record part_inv l lo hi : Prop := {
  part_range : lo <= hi < length l;
  part_real : forall q, q < lo -> realAt l q;
  part_dummy : forall q, hi < q < length l -> dummyAt l q;
  part_some : (exists q, lo <= q <= hi /\ dummyAt l q) \/ lo = hi }.

Definition partitioned l l' r : Prop :=
  l' ≡ₚ l /\ (forall q, q < r -> realAt l' q) /\ (forall q, r <= q < length l' -> dummyAt l' q).

Lemma real_not_dummy l q : realAt l q -> dummyAt l q -> False.
Proof. intros (x & Hx & Ex) (y & Hy & Ey). congruence. Qed.

Lemma part_swap l lo hi i j : part_inv l lo hi -> lo <= i < j -> j <= hi -> dummyAt l i -> realAt l j ->
  (forall q, lo <= q < i -> realAt l q) -> (forall q, j < q <= hi -> dummyAt l q) -> part_inv (swap_at i j l) i j.
Proof.
  intros [Hr Hre Hdu _] Hi Hj Hdi Hrj Hl Hh.
  assert (Hs : forall q, q <> i -> q <> j -> swap_at i j l !! q = l !! q).
  { intros q H1 H2. rewrite swap_lookup by lia. by rewrite !decide_False. }
  split.
  - rewrite swap_at_length. lia.
  - intros q Hq. unfold realAt. rewrite Hs by lia. destruct (decide (q < lo)); [by apply Hre|apply Hl; lia].
  - intros q Hq. rewrite swap_at_length in Hq. unfold dummyAt. rewrite Hs by lia.
    destruct (decide (q <= hi)); [apply Hh; lia|apply Hdu; lia].
  - left. exists j. split; [lia|]. unfold dummyAt. rewrite swap_lookup by lia. by rewrite decide_True.
Qed.

Lemma partition_loop_spec fuel : forall l lo hi, part_inv l lo hi ->
  (realAt l lo -> hi - lo < fuel) -> (dummyAt l lo -> S (hi - lo) < fuel) ->
  exists l' r, partition_loop fuel l lo hi = Some (l', r) /\ partitioned l l' r.
Proof.
  induction fuel as [|fuel IH]; intros l lo hi HI Hf1 Hf2; pose proof (part_range _ _ _ HI) as Hr.
  { exfalso. destruct (lookup_lt_is_Some_2 l lo) as [x Hx]; [lia|]. destruct (isDummy x) eqn:Ex.
    - specialize (Hf2 (ex_intro _ x (conj Hx Ex))). lia.
    - specialize (Hf1 (ex_intro _ x (conj Hx Ex))). lia. }
  cbn [partition_loop].
  destruct (scanLeft_spec l hi (length l) lo) as (i & Hi & Hreal & [(-> & Hih & Hdi)|(-> & Ei)]); [lia|lia| |].
  - destruct (scanRight_spec l i (length l) hi) as [(j & -> & Hj & Hrj & Hdum)|(-> & Hdum)]; [lia|lia|done| |].
    + assert (Hswap : part_inv (swap_at i j l) i j) by (eapply part_swap; eauto; lia).
      assert (Hnew : realAt (swap_at i j l) i).
      { destruct Hrj as (x & Hx & Ex). exists x. rewrite swap_lookup by lia. rewrite decide_False by lia. by rewrite decide_True. }
      destruct (IH _ _ _ Hswap) as (l' & r & E & H1 & H2 & H3).
      * intros _. destruct (decide (i = lo)) as [->|Hne]; [specialize (Hf2 Hdi); lia|].
        assert (realAt l lo) as H by (apply Hreal; lia). specialize (Hf1 H). lia.
      * intros Hd. by destruct (real_not_dummy _ _ Hnew Hd).
      * exists l', r. split; [done|]. split; [by rewrite H1, swap_at_perm|done].
    + exists l, i. split; [done|]. split; [done|]. split.
      * intros q Hq. destruct (decide (q < lo)); [by eapply part_real|apply Hreal; lia].
      * intros q Hq. destruct (decide (q <= hi)); [apply Hdum; lia|eapply part_dummy; [done|lia]].
  - exists l, i. split; [done|]. split; [done|].
    assert (Hbelow : forall q, q < i -> realAt l q).
    { intros q Hq. destruct (decide (q < lo)); [by eapply part_real|apply Hreal; lia]. }
    split; [done|]. intros q Hq. destruct (decide (q <= hi)); [|eapply part_dummy; [done|lia]].
    assert (q = hi) as -> by lia. destruct (part_some _ _ _ HI) as [(d & Hd & Hdd)|Heq]; [|lia].
    destruct (decide (d = hi)) as [->|]; [done|]. exfalso. apply (real_not_dummy l d); [apply Hbelow; lia|done].
Qed.

(** [partitionDummy] on a range with a dummy in it (or of one element). *)
Lemma partitionDummy_spec l : l <> [] -> (Exists (fun x => isDummy x = true) l \/ length l = 1) ->
  exists l' r, partitionDummy l = Some (l', r) /\ partitioned l l' r.
Proof.
  intros Hne Hd. assert (0 < length l) by (destruct l; [done|simpl; lia]).
  apply partition_loop_spec; [|lia|lia]. split; [lia|lia|lia|].
  destruct Hd as [Hd|Hd]; [left|right; lia]. apply Exists_exists in Hd as (x & [q Hq]%list_elem_of_lookup & Hx).
  exists q. pose proof (lookup_lt_Some _ _ _ Hq). split; [lia|]. by exists x.
Qed.

Lemma partitioned_live l l' r : partitioned l l' r ->
  Forall (fun x => isDummy x = false) (take r l') /\ filter (fun x => isDummy x = false) l ≡ₚ take r l'.
Proof.
  intros (H1 & H2 & H3).
  assert (Ht : Forall (fun x => isDummy x = false) (take r l')).
  { apply Forall_lookup. intros q x Hx. apply lookup_take_Some in Hx as [Hx Hq]. destruct (H2 q Hq) as (y & Hy & Ey). congruence. }
  split; [done|]. rewrite <-H1. rewrite <-(take_drop r l') at 1. rewrite filter_app.
  rewrite (filter_every _ (take r l')) by (by rewrite Forall_forall in Ht).
  rewrite filter_none; [by rewrite app_nil_r|]. intros x [q Hq]%list_elem_of_lookup. rewrite lookup_drop in Hq.
  pose proof (lookup_lt_Some _ _ _ Hq). destruct (H3 (r + q)) as (y & Hy & Ey); [lia|]. congruence.
Qed.
End partition_correct.

(** The function drops the last element of an array without dummies. *)
Example partitionDummy_drops :
  partitionDummy [mkTagged 1%Z 10; mkTagged 2%Z 20; mkTagged 3%Z 30] =
  Some ([mkTagged 1%Z 10; mkTagged 2%Z 20; mkTagged 3%Z 30], 2).
Proof. reflexivity. Qed.

(** ** ExtMergeSort: proofs *)

Section merge_correct.
Context {T : Type} (ltb : T -> T -> bool) `{!StrictWeakOrder ltb}.
Implicit Types (heap : list (T * list T)) (out : list T) (readers : list (list T)).
Let le : T -> T -> Prop := cmp_le ltb.

#[local] Instance cmpmerge_swo : StrictWeakOrder (cmpmerge ltb).
Proof.
  split; unfold cmpmerge; intros *; [apply swo_asym|]. intros H1 H2. by apply (swo_negtrans _ (b.1)).
Qed.

Lemma le_trans x y z : le x y -> le y z -> le x z.
Proof. unfold le, cmp_le. intros H1 H2. by apply (swo_negtrans _ y). Qed.

(** The elements still to be written. *)
Definition content (e : T * list T) : list T := e.1 :: e.2.
Definition flat heap : list T := concat (content <$> heap).

Lemma flat_perm heap heap' : heap ≡ₚ heap' -> flat heap ≡ₚ flat heap'.
Proof.
  unfold flat. induction 1 as [|e h h' _ IH|e1 e2 h|h1 h2 h3 _ IH1 _ IH2]; [done|..].
  - rewrite !fmap_cons, !concat_cons. by rewrite IH.
  - rewrite !fmap_cons, !concat_cons, !app_assoc. by rewrite (Permutation_app_comm (content e1)).
  - by rewrite IH1.
Qed.

Lemma get_content (rest : list T) : content <$> option_list (get rest) = option_list (get rest) ≫= (fun e => [content e]).
Proof. by destruct rest. Qed.

(** One round on a heap: the top [v] is a minimum, and what is left is a heap
    of the other elements. *)
Lemma merge_round v rest tl : is_heap (cmpmerge ltb) ((v, rest) :: tl) ->
  Forall (fun e => StronglySorted le (content e)) ((v, rest) :: tl) ->
  let heap1 := match get rest with Some e => ((v, rest) :: tl) ++ [e] | None => (v, rest) :: tl end in
  let heap2 := take (length (pop_heap (cmpmerge ltb) heap1) - 1) (pop_heap (cmpmerge ltb) heap1) in
  is_heap (cmpmerge ltb) heap2 /\ flat heap2 ≡ₚ rest ++ flat tl /\
  Forall (fun e => StronglySorted le (content e)) heap2 /\ Forall (le v) (rest ++ flat tl).
Proof.
  intros Hh Hs heap1 heap2. apply Forall_cons in Hs as [Hv Hs]. pose proof (heap_top _ _ _ Hh) as Ht.
  assert (Hmin : Forall (le v) (rest ++ flat tl)).
  { apply Forall_app. split; [by inversion_clear Hv|]. apply Forall_concat, Forall_fmap. rewrite Forall_forall in *.
    intros e He. pose proof (Ht e He) as H1. pose proof (Hs e He) as H2. cbn [compose].
    constructor; [exact H1|]. inversion_clear H2 as [|? ? _ H3]. eapply Forall_impl; [exact H3|].
    intros y Hy. by apply le_trans with e.1. }
  assert (Hcut : forall r (top : T * list T), take (length (r ++ [top]) - 1) (r ++ [top]) = r).
  { intros r top. rewrite length_app, Nat.add_sub. apply take_app_length. }
  subst heap1 heap2. destruct rest as [|v' rest]; cbn [get].
  - destruct (pop_heap_plain _ _ _ Hh) as (r & -> & Hp & Hr). rewrite Hcut. split_and!; [done|by rewrite (flat_perm _ _ Hp)| |done].
    by rewrite Hp.
  - destruct (pop_heap_spec _ _ _ (v', rest) Hh) as (r & -> & Hp & Hr). rewrite Hcut. split_and!; [done| | |done].
    + rewrite (flat_perm _ _ Hp). unfold flat. rewrite fmap_app, concat_app. simpl. rewrite app_nil_r.
      apply Permutation_app_comm.
    + rewrite Hp. apply Forall_app. split; [done|]. constructor; [|done]. by inversion_clear Hv.
Qed.

Lemma merge_loop_spec fuel : forall heap out,
  length (flat heap) <= fuel -> is_heap (cmpmerge ltb) heap -> Forall (fun e => StronglySorted le (content e)) heap ->
  StronglySorted le out -> (forall x y, x ∈ out -> y ∈ flat heap -> le x y) ->
  exists res, merge_loop ltb fuel heap out = Some res /\ res ≡ₚ out ++ flat heap /\ StronglySorted le res.
Proof.
  induction fuel as [|fuel IH]; intros [|[v rest] tl] out Hf Hh Hs Hso Hle.
  - exists out. cbn. by rewrite app_nil_r.
  - exfalso. unfold flat in Hf. simpl in Hf. lia.
  - exists out. cbn. by rewrite app_nil_r.
  - destruct (merge_round v rest tl Hh Hs) as (R1 & R2 & R3 & R4). cbn [merge_loop]. cbv zeta in *.
    set (heap2 := take _ _) in *.
    assert (Hflat : flat ((v, rest) :: tl) = v :: rest ++ flat tl) by done.
    assert (Hlen : length (flat heap2) = length (rest ++ flat tl)) by (by rewrite R2).
    destruct (IH heap2 (out ++ [v])) as (res & E & Hp & Hsort).
    + rewrite Hflat in Hf. simpl in Hf. lia.
    + done.
    + done.
    + apply StronglySorted_app_iff. split_and!; [done|by repeat constructor|]. intros x y Hx ->%list_elem_of_singleton.
      apply Hle; [done|]. rewrite Hflat. left.
    + intros x y [Hx| ->%list_elem_of_singleton]%elem_of_app Hy; rewrite R2 in Hy.
      * apply Hle; [done|]. rewrite Hflat. by right.
      * rewrite Forall_forall in R4. by apply R4.
    + exists res. split; [done|]. split; [|done]. rewrite Hp, R2, Hflat, <-app_assoc. done.
Qed.

(** Merging sorted, non-empty readers. *)
Lemma merge_readers_spec count readers : (count = 1 -> length readers = 1) ->
  Forall (fun r => r <> [] /\ StronglySorted le r) readers ->
  exists res, merge_readers ltb count readers = Some res /\ res ≡ₚ concat readers /\ StronglySorted le res.
Proof.
  intros Hc Hr. unfold merge_readers. destruct (Nat.eqb_spec count 1) as [->|_].
  - destruct readers as [|r [|? ?]]; try (specialize (Hc eq_refl); simpl in Hc; lia). apply Forall_cons in Hr as [[_ Hr] _].
    exists r. simpl. by rewrite app_nil_r.
  - assert (Hm : exists entries, mapM get readers = Some entries /\ content <$> entries = readers).
    { clear Hc. induction Hr as [|r readers [Hne _] _ (es & E1 & E2)]; [by exists []|]. destruct r as [|x r]; [done|].
      exists ((x, r) :: es). simpl. rewrite E1. split; [done|]. by rewrite <-E2. }
    destruct Hm as (entries & -> & He). cbn [mbind option_bind].
    destruct (make_heap_spec (cmpmerge ltb) entries) as [H1 H2].
    destruct (merge_loop_spec (length (concat readers)) (make_heap (cmpmerge ltb) entries) []) as (res & -> & Hp & Hs).
    + rewrite (flat_perm _ _ H2). unfold flat. by rewrite He.
    + done.
    + rewrite H2. apply (Forall_fmap content (StronglySorted le)). rewrite He. eapply Forall_impl; [exact Hr|]. by intros r [_ ?].
    + constructor.
    + intros x y Hx. by apply elem_of_nil in Hx.
    + exists res. split; [done|]. split; [|done]. rewrite Hp. simpl. rewrite (flat_perm _ _ H2). unfold flat. by rewrite He.
Qed.
End merge_correct.

(** ** Ranges that follow each other *)

Fixpoint contiguous (a : nat) (ranges : list (nat * nat)) (b : nat) : Prop :=
  match ranges with
  | [] => a = b
  | r :: ranges => r.1 = a /\ a < r.2 /\ contiguous r.2 ranges b
  end.

Section ranges.
Context {T : Type}.
Implicit Types (vec : list T) (rs : list (nat * nat)).

Lemma contiguous_app rs1 : forall a rs2 b,
  contiguous a (rs1 ++ rs2) b <-> exists c, contiguous a rs1 c /\ contiguous c rs2 b.
Proof.
  induction rs1 as [|r rs1 IH]; intros a rs2 b; simpl.
  - split; [intros H; by exists a|by intros (c & -> & H)].
  - rewrite IH. split; [intros (H1 & H2 & c & H3 & H4); by exists c|].
    intros (c & (H1 & H2 & H3) & H4). split_and!; [done..|by exists c].
Qed.

Lemma contiguous_le rs : forall a b, contiguous a rs b -> a <= b /\ (rs <> [] -> a < b).
Proof.
  induction rs as [|r rs IH]; intros a b; simpl; [intros ->; done|].
  intros (H1 & H2 & H3%IH). split; lia.
Qed.

Lemma contiguous_fun rs : forall a b b', contiguous a rs b -> contiguous a rs b' -> b = b'.
Proof.
  induction rs as [|r rs IH]; intros a b b'; simpl; [by intros <- <-|].
  intros (_ & _ & H1) (_ & _ & H2). by eapply IH.
Qed.

Lemma contiguous_ends rs a b : contiguous a rs b -> rs <> [] ->
  exists first final, head rs = Some first /\ last rs = Some final /\ first.1 = a /\ final.2 = b.
Proof.
  intros H Hne. destruct rs as [|first rs] using rev_ind; [done|]. clear IHrs.
  apply contiguous_app in H as (c & H1 & H2). destruct H2 as (<- & H2 & E). simpl in E.
  destruct rs as [|r rs]; simpl in *.
  - exists first, first. by subst.
  - destruct H1 as (<- & _). exists r, first. split_and!; [done|by rewrite app_comm_cons, last_snoc|done..].
Qed.

Lemma contiguous_concat vec rs : forall a b, contiguous a rs b ->
  concat (range_of vec <$> rs) = slice a (b - a) vec.
Proof.
  induction rs as [|r rs IH]; intros a b; cbn [contiguous].
  - intros ->. by rewrite Nat.sub_diag.
  - intros (H1 & H2 & H3). rewrite fmap_cons, concat_cons, (IH _ _ H3). unfold range_of. rewrite H1.
    pose proof (contiguous_le _ _ _ H3) as [Hle _]. replace (b - a) with ((r.2 - a) + (b - r.2)) by lia.
    rewrite slice_app. do 2 f_equal. lia.
Qed.

Lemma contiguous_range_app vec out rs : forall a b, contiguous a rs b -> b <= length vec ->
  range_of (vec ++ out) <$> rs = range_of vec <$> rs.
Proof.
  induction rs as [|r rs IH]; intros a b; cbn [contiguous]; [done|]. intros (H1 & H2 & H3) Hb. rewrite !fmap_cons.
  pose proof (contiguous_le _ _ _ H3) as [Hle _]. rewrite (IH _ _ H3 Hb). f_equal.
  unfold range_of, slice. rewrite drop_app_le by lia. rewrite take_app_le; [done|]. rewrite length_drop. lia.
Qed.

Lemma contiguous_nonempty vec rs : forall a b, contiguous a rs b -> b <= length vec ->
  Forall (fun r => r <> []) (range_of vec <$> rs).
Proof.
  induction rs as [|r rs IH]; intros a b; simpl; [constructor|]. intros (H1 & H2 & H3) Hb.
  pose proof (contiguous_le _ _ _ H3) as [Hle _]. constructor; [|by eapply IH].
  intros E%(f_equal length). unfold range_of in E. rewrite slice_length in E by lia. simpl in E. lia.
Qed.
End ranges.

(** ** Consecutive chunks *)

(** The ranges of consecutive chunks, from offset [o]. *)
Fixpoint chunk_ranges {A} (o : nat) (chunks : list (list A)) : list (nat * nat) :=
  match chunks with
  | [] => []
  | c :: chunks => (o, o + length c) :: chunk_ranges (o + length c) chunks
  end.

Lemma chunk_ranges_snoc {A} (chunks : list (list A)) c : forall o,
  chunk_ranges o (chunks ++ [c]) = chunk_ranges o chunks ++ [(o + length (concat chunks), o + length (concat (chunks ++ [c])))].
Proof.
  induction chunks as [|d chunks IH]; intros o.
  - simpl. by rewrite app_nil_r, Nat.add_0_r.
  - cbn [chunk_ranges app]. rewrite IH, !concat_cons, !length_app, !Nat.add_assoc. done.
Qed.

Lemma chunk_ranges_contiguous {A} (chunks : list (list A)) : Forall (fun c => c <> []) chunks -> forall o,
  contiguous o (chunk_ranges o chunks) (o + length (concat chunks)).
Proof.
  induction 1 as [|c chunks Hc _ IH]; intros o; cbn [chunk_ranges contiguous fst snd].
  - simpl. lia.
  - split; [done|]. split; [destruct c; [done|simpl; lia]|]. rewrite concat_cons, length_app, Nat.add_assoc. apply IH.
Qed.

Lemma chunk_ranges_cut {A} (chunks : list (list A)) : forall pre,
  range_of (pre ++ concat chunks) <$> chunk_ranges (length pre) chunks = chunks.
Proof.
  induction chunks as [|c chunks IH]; intros pre; [done|]. cbn [chunk_ranges]. rewrite fmap_cons. f_equal.
  - unfold range_of, slice. cbn [fst snd]. rewrite drop_app_length, Nat.add_comm, Nat.add_sub, concat_cons. apply take_app_length.
  - rewrite concat_cons, app_assoc, <-length_app. apply IH.
Qed.

(** ** ExtMergeSort, all layers *)

(** What the quotient of logarithms and the root give: between two ranges and
    the limit of readers. *)
Definition way_ok (mergeWay : nat -> nat -> nat) : Prop :=
  forall count maxWay, 3 <= maxWay < count -> 2 <= mergeWay count maxWay <= maxWay.

(** With two readers the root is below two, and is truncated to one. *)
Definition way_few (mergeWay : nat -> nat -> nat) : Prop := forall count, 2 < count -> mergeWay count 2 = 1.

Lemma divUp_bounds x y : 0 < y -> x <= divUp x y * y < x + y.
Proof.
  intros Hy. unfold divUp. pose proof (Nat.div_mod_eq (x + y - 1) y). pose proof (Nat.mod_upper_bound (x + y - 1) y). lia.
Qed.

Section ext_merge.
Context {T : Type} (ltb : T -> T -> bool) `{!StrictWeakOrder ltb} (mergeWay : nat -> nat -> nat) (Hway : way_ok mergeWay).
Context (vec : list T) (maxWay : nat).
Let le : T -> T -> Prop := cmp_le ltb.

Definition sorted_ranges (rs : list (nat * nat)) : Prop := Forall (fun r => StronglySorted le (range_of vec r)) rs.

Lemma merge_ranges_spec (v : list T) count rs a b : (count = 1 -> length rs = 1) -> contiguous a rs b -> b <= length v ->
  Forall (StronglySorted le) (range_of v <$> rs) ->
  exists res, merge_readers ltb count (range_of v <$> rs) = Some res /\ res ≡ₚ slice a (b - a) v /\ StronglySorted le res.
Proof.
  intros Hc H Hb Hs. destruct (merge_readers_spec ltb count (range_of v <$> rs)) as (res & E & Hp & Hres).
  - by rewrite length_fmap.
  - apply Forall_and. split; [by eapply contiguous_nonempty|exact Hs].
  - exists res. by rewrite <-(contiguous_concat v rs a b).
Qed.

(** The loop over the sub-merges after [i] of them, [sub] ranges each. *)
Record sub_inv (rs : list (nat * nat)) (a b sub i : nat) (s : sub_state (T := T)) : Prop := {
  sub_pos : contiguous a (take (i * sub) rs) (a + subBegin s);
  sub_temp : temp s ≡ₚ slice a (subBegin s) vec;
  sub_len : length (temp s) = subBegin s;
  sub_ranges : contiguous 0 (newMergeRanges s) (subBegin s);
  sub_count : length (newMergeRanges s) = i;
  sub_sorted : Forall (StronglySorted le) (range_of (temp s) <$> newMergeRanges s);
  sub_stop : stopped s = true -> length rs <= i * sub }.

(** One pass. *)
Lemma ExtMergeSort_one_pass fuel rs a b : length rs <= maxWay -> contiguous a rs b -> b <= length vec -> sorted_ranges rs ->
  exists res, ExtMergeSort ltb mergeWay (S fuel) vec rs (b - a) maxWay = Some res /\
    res ≡ₚ slice a (b - a) vec /\ StronglySorted le res.
Proof.
  clear Hway. intros Hge Hc Hb Hs. cbn [ExtMergeSort]. cbv zeta. rewrite (proj2 (Nat.ltb_ge _ _) Hge).
  apply merge_ranges_spec; [lia|done..|]. by apply Forall_fmap.
Qed.

(** A root of one hands all the ranges to the only sub-merge. *)
Lemma ExtMergeSort_few fuel : way_few mergeWay -> maxWay <= 2 -> forall rs size, maxWay < length rs ->
  ExtMergeSort ltb mergeWay fuel vec rs size maxWay = None.
Proof.
  clear Hway. intros Hfew Hm. induction fuel as [|fuel IH]; intros rs size Hlt; [done|]. cbn [ExtMergeSort]. cbv zeta.
  rewrite (proj2 (Nat.ltb_lt _ _) Hlt). destruct (_ || _) eqn:Ew; [done|]. apply orb_false_iff in Ew as [Ew1%Nat.ltb_ge Ew0%Nat.eqb_neq].
  assert (mergeWay (length rs) maxWay = 1) as ->.
  { destruct (decide (maxWay = 2)) as [->|]; [by apply Hfew|lia]. }
  replace (divUp (length rs) 1) with (length rs) by (unfold divUp; rewrite Nat.div_1_r; lia).
  replace (divUp (length rs) (length rs)) with 1 by (unfold divUp; apply (Nat.div_unique _ _ 1 (length rs - 1)); lia).
  cbn [loopM stopped Nat.mul subBegin]. unfold slice at 1 2. rewrite drop_0, take_ge by done.
  destruct (head rs) as [first|]; [|done]. destruct (last rs) as [final|]; [|done].
  unfold slice. rewrite drop_0, take_ge by done. by rewrite IH.
Qed.

Lemma ExtMergeSort_spec (Hmax : 3 <= maxWay) fuel : forall rs a b,
  length rs < fuel -> contiguous a rs b -> b <= length vec -> sorted_ranges rs ->
  exists res, ExtMergeSort ltb mergeWay fuel vec rs (b - a) maxWay = Some res /\
    res ≡ₚ slice a (b - a) vec /\ StronglySorted le res.
Proof.
  induction fuel as [|fuel IH]; intros rs a b Hf Hc Hb Hs; [lia|]. cbn [ExtMergeSort]. cbv zeta.
  destruct (Nat.ltb_spec maxWay (length rs)) as [Hlt|Hge].
  2: { apply merge_ranges_spec; [lia|done..|]. by apply Forall_fmap. }
  destruct (Hway (length rs) maxWay ltac:(lia)) as [Hw2 Hwm].
  set (way := mergeWay (length rs) maxWay) in *. rewrite (proj2 (Nat.ltb_ge maxWay way)), (proj2 (Nat.eqb_neq way 0)) by lia. cbn [orb]. set (sub := divUp (length rs) way).
  pose proof (divUp_bounds (length rs) way ltac:(lia)) as Hsub. fold sub in Hsub.
  assert (Hsub0 : 0 < sub) by nia. assert (Hsublt : sub < length rs) by nia.
  pose proof (divUp_bounds (length rs) sub Hsub0) as Hcount. set (n := divUp (length rs) sub) in *.
  pose proof (contiguous_le _ _ _ Hc) as [Hab _].
  edestruct (loopM_inv (sub_inv rs a b sub)) as (s & -> & HI).
  3: { cbn [Nat.add] in HI. destruct HI as [I1 I2 I3 I4 I5 I6 _]. rewrite take_ge in I1 by lia.
       pose proof (contiguous_fun _ _ _ _ Hc I1) as Eb. replace (subBegin s) with (b - a) in * by lia.
       cbn [mbind option_bind]. destruct (merge_ranges_spec (temp s) (length rs) (newMergeRanges s) 0 (b - a)) as (res & E & Hp & Hsort);
         [lia|done|lia|done|]. exists res. split; [exact E|]. split; [|done].
       rewrite Hp, Nat.sub_0_r, <-I3, slice_all, I3. exact I2. }
  - split; cbn [temp newMergeRanges subBegin stopped]; rewrite ?Nat.add_0_r; done.
  - intros i s Hi HI. cbn [Nat.add] in Hi. destruct HI as [I1 I2 I3 I4 I5 I6 I7]. assert (Hin : i * sub < length rs) by nia.
    destruct (stopped s); [specialize (I7 eq_refl); lia|].
    assert (Hsplit : rs = take (i * sub) rs ++ slice (i * sub) sub rs ++ drop (S i * sub) rs).
    { unfold slice. rewrite <-(take_drop (i * sub) rs) at 1. f_equal.
      rewrite <-(take_drop sub (drop (i * sub) rs)) at 1. rewrite drop_drop. do 2 f_equal. lia. }
    rewrite Hsplit in Hc. apply contiguous_app in Hc as (m & Hm & Hc). apply contiguous_app in Hc as (m' & Hm' & Hc).
    pose proof (contiguous_fun _ _ _ _ I1 Hm) as <-. pose proof (contiguous_le _ _ _ Hc) as [Hmb _].
    assert (Hne : slice (i * sub) sub rs <> []).
    { intros E%(f_equal length). unfold slice in E. rewrite length_take, length_drop in E. simpl in E. lia. }
    pose proof (contiguous_le _ _ _ Hm') as [_ Hlt']. specialize (Hlt' Hne).
    destruct (contiguous_ends _ _ _ Hm' Hne) as (first & final & -> & -> & -> & ->).
    set (d := m' - (a + subBegin s)). replace (subBegin s + d - subBegin s) with d by lia.
    destruct (IH (slice (i * sub) sub rs) (a + subBegin s) m') as (out & Eo & Ho & Hso);
      [unfold slice; rewrite length_take, length_drop; lia|done|lia| |].
    { unfold sorted_ranges, slice. by apply Forall_take, Forall_drop. }
    fold d in Eo, Ho. rewrite Eo. cbn [mbind option_bind]. eexists. split; [reflexivity|].
    assert (Hlo : length out = d) by (rewrite Ho; apply slice_length; lia).
    assert (Hnew : contiguous 0 (newMergeRanges s ++ [(subBegin s, subBegin s + d)]) (subBegin s + d)).
    { apply contiguous_app. exists (subBegin s). split; [done|]. simpl. split_and!; [done|lia|done]. }
    split; cbn [temp newMergeRanges subBegin stopped].
    + replace (S i * sub) with (i * sub + sub) by lia. rewrite <-take_take_drop. apply contiguous_app.
      exists (a + subBegin s). split; [done|]. replace (a + (subBegin s + d)) with m' by lia. exact Hm'.
    + by rewrite I2, Ho, slice_app.
    + rewrite length_app. lia.
    + exact Hnew.
    + rewrite length_app, I5. simpl. lia.
    + rewrite fmap_app. apply Forall_app. split.
      * by rewrite (contiguous_range_app _ _ _ _ _ I4) by lia.
      * apply Forall_cons_2; [|constructor]. unfold range_of, slice. cbn [fst snd].
        rewrite <-I3, drop_app_length, take_ge by lia. exact Hso.
    + intros E%Nat.eqb_eq. assert (m' = b) as -> by lia. destruct (drop (S i * sub) rs) eqn:Ed.
      * apply (f_equal length) in Ed. rewrite length_drop in Ed. simpl in Ed. lia.
      * apply contiguous_le in Hc as [_ Hc]. specialize (Hc ltac:(done)). lia.
Qed.
End ext_merge.

(** ** Sorting by batches *)

Section batches_correct.
Context {T : Type} `{!StdSort T} `{!StdSortOk T} (ltb : T -> T -> bool) `{!StrictWeakOrder ltb}.
Implicit Types input : list T.

Lemma batch_ranges batchSize input : forall n i, (i + n - 1) * batchSize < length input \/ n = 0 -> 0 < batchSize ->
  batchRange batchSize (length input) <$> seq i n = chunk_ranges (i * batchSize) (sortedBatch ltb batchSize input <$> seq i n) /\
  Forall (fun c => c <> []) (sortedBatch ltb batchSize input <$> seq i n) /\
  concat (sortedBatch ltb batchSize input <$> seq i n) ≡ₚ slice (i * batchSize) (n * batchSize) input.
Proof.
  induction n as [|n IH]; intros i Hi Hb; [by split_and!|]. cbn [seq]. rewrite !fmap_cons. cbn [chunk_ranges].
  assert (Hlt : i * batchSize < length input) by nia.
  assert (Hlen : length (sortedBatch ltb batchSize input i) = batchLen batchSize (length input) i).
  { unfold sortedBatch. rewrite std_sort_perm by done. apply slice_length. unfold batchLen. lia. }
  destruct (IH (S i)) as (H1 & H2 & H3); [destruct n; [by right|left; nia]|done|].
  assert (Hcut : slice (i * batchSize) (batchLen batchSize (length input) i) input = slice (i * batchSize) batchSize input).
  { unfold slice, batchLen. destruct (decide (batchSize <= length input - i * batchSize)); [by rewrite Nat.min_l|].
    rewrite Nat.min_r, !take_ge by (rewrite ?length_drop; lia). done. }
  split_and!.
  - unfold batchRange at 1. rewrite Hlen. f_equal. destruct n as [|n]; [done|].
    rewrite H1. f_equal. unfold batchLen. nia.
  - constructor; [|done]. intros E. rewrite E in Hlen. unfold batchLen in Hlen. simpl in Hlen. lia.
  - rewrite concat_cons, H3. unfold sortedBatch. rewrite std_sort_perm by done. rewrite Hcut.
    replace (S n * batchSize) with (batchSize + n * batchSize) by lia. rewrite slice_app. do 2 f_equiv. f_equal. lia.
Qed.

(** Within memory, or in passes of at least three readers, the batches are
    sorted and merged. *)
Lemma ExtMergeSortBatches_sorts mergeWay sizeofT item_per_page input heapSize : way_ok mergeWay ->
  let bs := heapSize / sizeofT in let maxWay := bs / (2 * item_per_page) in
  bs <> 0 -> 3 <= maxWay \/ divUp (length input) bs <= Nat.max 1 maxWay ->
  exists out, ExtMergeSortBatches ltb mergeWay sizeofT item_per_page input heapSize = Some out /\
    out ≡ₚ input /\ StronglySorted (cmp_le ltb) out.
Proof.
  intros Hway bs maxWay Hbs Hmax. unfold ExtMergeSortBatches, ExtMergeSortBatches_fuel. fold bs maxWay.
  rewrite (proj2 (Nat.eqb_neq bs 0)) by done. destruct (Nat.eqb_spec (divUp (length input) bs) 1) as [H1|H1].
  { eexists. split; [reflexivity|]. split; [by apply std_sort_perm|by apply std_sort_sorted]. }
  pose proof (divUp_bounds (length input) bs ltac:(lia)) as Hd. set (n := divUp (length input) bs) in *.
  destruct (batch_ranges bs input n 0) as (R1 & R2 & R3); [destruct n; [by right|left; nia]|lia|].
  rewrite !Nat.mul_0_l in *. set (chunks := sortedBatch ltb bs input <$> seq 0 n) in *.
  assert (Hall : concat chunks ≡ₚ input).
  { rewrite R3. unfold slice. rewrite drop_0, take_ge by lia. done. }
  pose proof (chunk_ranges_contiguous chunks R2 0) as Hc. cbn [Nat.add] in Hc. rewrite Hall in Hc. rewrite R1.
  assert (Hcount : length (chunk_ranges 0 chunks) = n) by (by rewrite <-R1, length_fmap, length_seq).
  assert (Hs : sorted_ranges ltb (concat chunks) (chunk_ranges 0 chunks)).
  { unfold sorted_ranges. apply (Forall_fmap (range_of (concat chunks))). pose proof (chunk_ranges_cut chunks []) as Hcut.
    cbn [app length] in Hcut. rewrite Hcut. apply Forall_fmap, Forall_forall. intros i _. by apply std_sort_sorted. }
  assert (Hrun : exists out, ExtMergeSort ltb mergeWay (S n) (concat chunks) (chunk_ranges 0 chunks) (length input - 0) maxWay = Some out /\
    out ≡ₚ slice 0 (length input - 0) (concat chunks) /\ StronglySorted (cmp_le ltb) out).
  { destruct Hmax as [Hmax|Hone].
    - apply ExtMergeSort_spec; try done; [lia|by rewrite Hall].
    - apply ExtMergeSort_one_pass; try done; [lia|by rewrite Hall]. }
  destruct Hrun as (out & E & Hp & Hso). rewrite Nat.sub_0_r in *. exists out. split; [exact E|]. split; [|done].
  rewrite Hp, <-(Permutation_length Hall), slice_all. exact Hall.
Qed.

(** C4: external merge sort sorts, or is known not to end.  Batches that fit in
    memory are sorted, and their ranges are merged in passes of at most
    [maxWay] readers, as many as fit in memory.  If memory holds an element and
    either three readers fit, or the batches are no more than the readers, or
    there is only one batch, then the output is the input rearranged in the
    order of the comparison.  In every other case there is no result, at any
    depth of the recursion: memory holds no element and the batch size is zero,
    or the batches are more than the readers, which are at most two, and the
    root that says how many sub-merges to make is one, so that the only
    sub-merge has all the ranges again, or it fails its assertion.  [way_ok] and
    [way_few] state what that root is: between two and the number of readers for
    three readers or more, and one for two. *)
Theorem ExtMergeSort_correct mergeWay sizeofT item_per_page input heapSize : way_ok mergeWay -> way_few mergeWay ->
  let bs := heapSize / sizeofT in let maxWay := bs / (2 * item_per_page) in
  if negb (bs =? 0) && ((3 <=? maxWay) || (divUp (length input) bs <=? Nat.max 1 maxWay)) then
    exists out, ExtMergeSortBatches ltb mergeWay sizeofT item_per_page input heapSize = Some out /\
      out ≡ₚ input /\ StronglySorted (cmp_le ltb) out
  else forall fuel, ExtMergeSortBatches_fuel ltb mergeWay sizeofT item_per_page fuel input heapSize = None.
Proof.
  intros Hway Hfew bs maxWay. destruct (Nat.eqb_spec bs 0) as [Hbs|Hbs]; cbn [negb andb].
  { intros fuel. unfold ExtMergeSortBatches_fuel. fold bs. by rewrite (proj2 (Nat.eqb_eq bs 0) Hbs). }
  destruct (Nat.leb_spec 3 maxWay) as [Hm|Hm]; cbn [orb]; [by apply ExtMergeSortBatches_sorts; [|done|left]|].
  destruct (Nat.leb_spec (divUp (length input) bs) (Nat.max 1 maxWay)) as [Hc|Hc]; [by apply ExtMergeSortBatches_sorts; [|done|right]|].
  intros fuel. unfold ExtMergeSortBatches_fuel. fold bs maxWay. rewrite (proj2 (Nat.eqb_neq bs 0) Hbs).
  rewrite (proj2 (Nat.eqb_neq (divUp (length input) bs) 1)) by lia.
  apply ExtMergeSort_few; [done|lia|]. rewrite length_fmap, length_seq. lia.
Qed.
End batches_correct.

#[local] Instance cmp_le_dec {A : Type} (cmp : A -> A -> bool) x y : Decision (cmp_le cmp x y).
Proof. unfold cmp_le. apply _. Defined.

(** An instance: [std::sort] as a merge sort. *)
Definition merge_std {A : Type} : StdSort A := fun cmp l => merge_sort (cmp_le cmp) l.

Lemma merge_std_ok {A : Type} : StdSortOk A (StdSort0 := merge_std).
Proof.
  split; intros cmp l H; unfold std_sort, merge_std; [apply merge_sort_Permutation|].
  assert (Transitive (cmp_le cmp)) by (intros x y z H1 H2; unfold cmp_le in *; by apply (swo_negtrans _ y)).
  assert (Total (cmp_le cmp)) by (intros x y; unfold cmp_le; destruct (cmp y x) eqn:E; [right; by apply swo_asym|by left]).
  apply (StronglySorted_merge_sort (cmp_le cmp)).
Qed.

#[local] Existing Instances merge_std merge_std_ok.

(** The root for batches of few elements. *)
Definition small_way (count maxWay : nat) : nat := if maxWay <=? 2 then 1 else 2.

(** Nineteen elements: four batches and three readers, or five batches and two
    readers. *)
Lemma ExtMergeSort_correct_witness :
  let l := [5; 3; 9; 1; 12; 7; 15; 2; 8; 4; 11; 6; 10; 14; 13; 18; 17; 16; 19] in
  (exists out, ExtMergeSortBatches Nat.ltb small_way 8 1 l 48 = Some out /\ out ≡ₚ l /\ StronglySorted (cmp_le Nat.ltb) out) /\
  forall fuel, ExtMergeSortBatches_fuel Nat.ltb small_way 8 1 fuel l 32 = None.
Proof.
  assert (Hw : way_ok small_way).
  { intros count maxWay H. unfold small_way. rewrite (proj2 (Nat.leb_gt maxWay 2)) by lia. lia. }
  assert (Hf : way_few small_way) by done.
  intros l. split; [exact (ExtMergeSort_correct Nat.ltb small_way 8 1 l 48 Hw Hf)|exact (ExtMergeSort_correct Nat.ltb small_way 8 1 l 32 Hw Hf)].
Defined.
