(* ===== verification/Routing.v ===== *)
(** * Routing by tags

    What a node of the butterfly network promises, independent of how it is
    implemented: the interface [Router], its implementation by [MergeSplitKWay],
    and how nodes compose when they are applied to the columns of an array of
    buckets, as the layers of kway_butterfly_sort.hpp do. *)
From S2P Require Import Prelude OrCompact TwoWay EdgeRec Interleave MergeSplit.
Local Open Scope Z_scope.

(** ** Real elements and residues of tags *)

Section residues.
Context {T : Type}.
Implicit Types (x : TaggedT T) (b src : list (TaggedT T)).

Definition slot_ok x : Prop := in_width 64 (tag x).
Definition bucket_ok (Zs : nat) b : Prop := length b = Zs /\ Forall slot_ok b.

(** The real elements of a range. *)
Definition live b : list (TaggedT T) := filter (fun x => isDummy x = false) b.

(** A real element whose tag is a value of its type. *)
Definition real_ok x : Prop := 0 <= tag x < 2 ^ 63.

(** The bucket, out of [P], that the tag names, and the rest of the tag. *)
Definition goes_to (P p : nat) x : Prop := tag x mod Z.of_nat P = Z.of_nat p.
Definition shifted (P : nat) x : TaggedT T := withTag (tag x / Z.of_nat P) x.

#[export] Instance goes_to_dec P p x : Decision (goes_to P p x).
Proof. unfold goes_to. apply _. Defined.

(** The elements of [src] that belong in bucket [p] of [P], as they arrive. *)
Definition share (P p : nat) src : list (TaggedT T) := shifted P <$> filter (goes_to P p) src.

Lemma real_ok_live x : slot_ok x -> isDummy x = false -> real_ok x.
Proof.
  unfold slot_ok, real_ok, in_width, isDummy. intros [H0 H1] H. rewrite Z.shiftr_div_pow2 in H by lia.
  apply negb_false_iff, Z.eqb_eq, Z.div_small_iff in H; lia.
Qed.

Lemma real_ok_not_dummy x : real_ok x -> isDummy x = false.
Proof.
  unfold real_ok, isDummy. intros H. rewrite Z.shiftr_div_pow2, Z.div_small by lia. done.
Qed.

Lemma live_ok b : Forall slot_ok b -> Forall real_ok (live b).
Proof.
  rewrite !Forall_forall. intros H x [Hx Hin]%list_elem_of_filter. apply real_ok_live; [by apply H|done].
Qed.

Lemma live_real x b : isDummy x = false -> live (x :: b) = x :: live b.
Proof. intros H. unfold live. by rewrite filter_cons_True. Qed.

Lemma live_dummy x b : isDummy x = true -> live (x :: b) = live b.
Proof. intros H. unfold live. rewrite filter_cons_False; [done|]. congruence. Qed.

Lemma live_app b1 b2 : live (b1 ++ b2) = live b1 ++ live b2.
Proof. apply filter_app. Qed.

Lemma live_concat bs : live (concat bs) = concat (live <$> bs).
Proof. induction bs as [|b bs IH]; [done|]. rewrite fmap_cons, !concat_cons, live_app. by rewrite IH. Qed.

#[export] Instance live_perm : Proper ((≡ₚ) ==> (≡ₚ)) live.
Proof. intros b b' H. unfold live. by rewrite H. Qed.

#[export] Instance share_perm P p : Proper ((≡ₚ) ==> (≡ₚ)) (share P p).
Proof. intros b b' H. unfold share. by rewrite H. Qed.

Lemma share_app P p a b : share P p (a ++ b) = share P p a ++ share P p b.
Proof. unfold share. by rewrite filter_app, fmap_app. Qed.

Lemma share_concat P p bs : share P p (concat bs) = concat (share P p <$> bs).
Proof. induction bs as [|b bs IH]; [done|]. rewrite fmap_cons, !concat_cons, share_app. by rewrite IH. Qed.

Lemma shifted_ok P x : (0 < P)%nat -> real_ok x -> real_ok (shifted P x).
Proof.
  intros HP [H0 H1]. unfold real_ok, shifted, withTag. cbn [tag]. split; [apply Z.div_pos; lia|].
  apply Z.div_lt_upper_bound; [lia|]. apply Z.lt_le_trans with (1 * 2 ^ 63); [lia|].
  apply Z.mul_le_mono_nonneg_r; lia.
Qed.

Lemma shifted_shifted P Q x : (0 < P)%nat -> (0 < Q)%nat -> shifted Q (shifted P x) = shifted (P * Q) x.
Proof.
  intros HP HQ. unfold shifted, withTag. cbn [tag v]. f_equal. rewrite Nat2Z.inj_mul. apply Z.div_div; lia.
Qed.

Lemma share_ok P p src : (0 < P)%nat -> Forall real_ok src -> Forall real_ok (share P p src).
Proof.
  intros HP H. unfold share. apply Forall_fmap, Forall_forall. intros x [_ Hx]%list_elem_of_filter.
  apply shifted_ok; [done|]. rewrite Forall_forall in H. by apply H.
Qed.

(** Going to bucket [j] of [W] and then to bucket [i] of [k] is going to bucket
    [i * W + j] of [W * k]: the layers read the tag digit by digit. *)
Lemma goes_to_mul W k i j x : (0 < W)%nat -> (0 < k)%nat -> (j < W)%nat ->
  goes_to W j x /\ goes_to k i (shifted W x) <-> goes_to (W * k) (i * W + j) x.
Proof.
  intros HW Hk Hj. unfold goes_to, shifted, withTag. cbn [tag]. rewrite Nat2Z.inj_mul, Nat2Z.inj_add, Nat2Z.inj_mul.
  rewrite Z.rem_mul_r by lia. set (a := tag x mod Z.of_nat W). set (b := (tag x / Z.of_nat W) mod Z.of_nat k).
  assert (0 <= a < Z.of_nat W) by (apply Z.mod_pos_bound; lia).
  split; [intros [-> ->]; ring|]. intros E.
  assert (b = Z.of_nat i).
  { transitivity ((Z.of_nat W * b + a) / Z.of_nat W).
    - rewrite Z.mul_comm, Z.div_add_l, Z.div_small by lia. lia.
    - rewrite (Z.add_comm _ a), E, Z.div_add_l, Z.div_small by lia. lia. }
  nia.
Qed.

Lemma share_share W k i j src : (0 < W)%nat -> (0 < k)%nat -> (j < W)%nat ->
  share k i (share W j src) = share (W * k) (i * W + j) src.
Proof.
  intros HW Hk Hj. unfold share. rewrite filter_fmap, <-list_fmap_compose.
  rewrite list_filter_filter. rewrite (list_filter_iff _ (goes_to (W * k) (i * W + j))).
  - apply list_fmap_ext. intros ? x _. by apply shifted_shifted.
  - intros x. rewrite <-(goes_to_mul W k i j) by done. unfold compose. tauto.
Qed.
End residues.


(** ** Routed arrays *)

Section routed.
Context {T : Type} (Zs : nat).
Implicit Types (src b : list (TaggedT T)) (bs ins outs : list (list (TaggedT T))).

(** [bs] is [P] buckets of [Zs] slots, and bucket [p] holds the real elements
    of [src] whose tag names [p], with that part of the tag removed. *)
Record routed (P : nat) src bs : Prop := {
  routed_length : length bs = P;
  routed_ok : Forall (bucket_ok Zs) bs;
  routed_live : forall p b, bs !! p = Some b -> live b ≡ₚ share P p src }.

(** No bucket out of [P] is asked for [Zs] elements or more. *)
Definition fits (P : nat) src : Prop := forall p, (p < P)%nat -> (length (share P p src) < Zs)%nat.

Lemma routed_perm P src src' bs : src ≡ₚ src' -> routed P src bs -> routed P src' bs.
Proof. intros H [H1 H2 H3]. split; [done..|]. intros p b Hp. by rewrite <-H, H3. Qed.

Lemma fits_perm P src src' : src ≡ₚ src' -> fits P src -> fits P src'.
Proof. intros H Hf p Hp. specialize (Hf p Hp). by rewrite <-H. Qed.

(** A node of [k] buckets: it routes whatever fits. *)
Class Router (k : nat) (node : list (list (TaggedT T)) -> option (list (list (TaggedT T)))) : Prop :=
  router : forall ins, length ins = k -> Forall (bucket_ok Zs) ins -> fits k (concat (live <$> ins)) ->
    exists outs, node ins = Some outs /\ routed k (concat (live <$> ins)) outs.

(** A single bucket is routed as it is. *)
Lemma routed_single b : bucket_ok Zs b -> routed 1 (live b) [b].
Proof.
  intros Hb. split; [done|by constructor|]. intros [|p] b' Hp; [|done]. injection Hp as <-.
  apply reflexive_eq. unfold share. rewrite (list_filter_iff _ (fun _ => True)).
  - assert (forall l : list (TaggedT T), filter (fun _ => True) l = l) as ->.
    { induction l as [|x l IH]; [done|]. by rewrite filter_cons_True, IH. }
    symmetry. etransitivity; [|apply list_fmap_id]. apply list_fmap_ext. intros i [t d] _. unfold shifted, withTag. cbn.
    by rewrite Z.div_1_r.
  - intros x. unfold goes_to. rewrite Z.mod_1_r. done.
Qed.
End routed.

(** ** Columns of an array of buckets *)

(** The buckets [i * W + j], for [i] below [k]. *)
Definition gather {B} (k W j : nat) (bs : list (list B)) : list (list B) :=
  (fun i => nth (i * W + j)%nat bs []) <$> seq 0 k.

(** Write [outs] to the buckets [i * W + j], [(i + 1) * W + j], ... *)
Fixpoint put {B} (W j i : nat) (outs bs : list (list B)) : list (list B) :=
  match outs with
  | [] => bs
  | o :: outs => put W j (S i) outs (<[(i * W + j)%nat := o]> bs)
  end.

Section columns.
Context {B : Type} (k W : nat).
Hypothesis HW : (0 < W)%nat.
Implicit Types bs outs : list (list B).
Local Open Scope nat_scope.

Lemma put_length j outs : forall i bs, length (put W j i outs bs) = length bs.
Proof. induction outs as [|o outs IH]; intros i bs; cbn [put]; [done|]. by rewrite IH, length_insert. Qed.

Lemma put_lookup_ne j outs q : forall i bs,
  (forall i', i <= i' < i + length outs -> q <> i' * W + j) -> put W j i outs bs !! q = bs !! q.
Proof.
  induction outs as [|o outs IH]; intros i bs H; cbn [put]; [done|]. rewrite length_cons in H.
  rewrite IH by (intros; apply H; lia). apply list_lookup_insert_ne. intros E. apply (H i); [lia|done].
Qed.

Lemma put_lookup j outs : forall i bs i',
  i' < length outs -> (i + i') * W + j < length bs -> put W j i outs bs !! ((i + i') * W + j) = outs !! i'.
Proof.
  induction outs as [|o outs IH]; intros i bs i' Hi Hb; [simpl in Hi; lia|]. cbn [put].
  destruct i' as [|i'].
  - rewrite Nat.add_0_r in *. rewrite put_lookup_ne by (intros; nia). by apply list_lookup_insert_eq.
  - rewrite <-Nat.add_succ_comm. rewrite IH; [done|simpl in Hi; lia|]. rewrite length_insert. by rewrite Nat.add_succ_comm.
Qed.

Lemma gather_length j bs : length (gather k W j bs) = k.
Proof. unfold gather. by rewrite length_fmap, length_seq. Qed.

Lemma gather_lookup j bs i b : length bs = k * W -> j < W -> i < k ->
  gather k W j bs !! i = Some b <-> bs !! (i * W + j) = Some b.
Proof.
  intros Hl Hj Hi. unfold gather. rewrite list_lookup_fmap, lookup_seq_lt by done. cbn [fmap option_fmap option_map].
  destruct (lookup_lt_is_Some_2 bs (i * W + j)) as [c Hc]; [nia|].
  rewrite Nat.add_0_l, (nth_lookup_Some _ _ _ _ Hc), Hc. done.
Qed.

Lemma gather_put j outs bs : length bs = k * W -> j < W -> length outs = k ->
  gather k W j (put W j 0 outs bs) = outs.
Proof.
  intros Hl Hj Ho. apply list_eq_same_length with k; [done|by rewrite gather_length|].
  intros i x y Hi Hx Hy. apply (gather_lookup j) in Hx; [|by rewrite put_length|done..].
  rewrite <-(Nat.add_0_l i), put_lookup in Hx by (rewrite ?Nat.add_0_l; nia). congruence.
Qed.

Lemma gather_put_ne j j' outs bs : length bs = k * W -> j < W -> j' < W -> j <> j' ->
  gather k W j (put W j' 0 outs bs) = gather k W j bs.
Proof.
  intros Hl Hj Hj' Hne. apply list_eq_same_length with k; [by rewrite gather_length..|].
  intros i x y Hi Hx Hy. apply (gather_lookup j) in Hx; [|by rewrite put_length|done..].
  apply (gather_lookup j) in Hy; [|done..]. rewrite put_lookup_ne in Hx; [congruence|].
  intros i' _ E. assert (j = j'); [|done].
  rewrite <-(Nat.mod_small j W), <-(Nat.mod_small j' W) by done.
  rewrite <-(Nat.Div0.mod_add j i W), <-(Nat.Div0.mod_add j' i' W). f_equal. lia.
Qed.
End columns.


(** ** From columns to the whole array *)

Section route_columns.
Context {T : Type} (Zs k W : nat) (srcs bs : list (list (TaggedT T))).
Hypothesis HW : (0 < W)%nat.
Hypothesis Hk : (0 < k)%nat.
Hypothesis Hs : length srcs = k.
Hypothesis Hb : length bs = (k * W)%nat.
Hypothesis Hr : forall i src, srcs !! i = Some src -> routed Zs W src (slice (i * W) W bs).
Local Open Scope nat_scope.

Lemma column_entry i j : i < k -> j < W -> exists src b,
  srcs !! i = Some src /\ bs !! (i * W + j) = Some b /\ gather k W j bs !! i = Some b /\
  bucket_ok Zs b /\ live b ≡ₚ share W j src.
Proof.
  intros Hi Hj. destruct (lookup_lt_is_Some_2 srcs i) as [src Hsrc]; [lia|].
  destruct (lookup_lt_is_Some_2 bs (i * W + j)) as [b Hbb]; [nia|].
  destruct (Hr i src Hsrc) as [R1 R2 R3].
  assert (E : slice (i * W) W bs !! j = Some b) by (by rewrite slice_lookup).
  exists src, b. split_and!; [done..|by apply gather_lookup|exact (Forall_lookup_1 _ _ _ _ R2 E)|by apply R3].
Qed.

Lemma column_ok j : j < W -> Forall (bucket_ok Zs) (gather k W j bs).
Proof.
  intros Hj. apply Forall_lookup. intros i b Hi. pose proof (lookup_lt_Some _ _ _ Hi) as Hik. rewrite gather_length in Hik.
  destruct (column_entry i j Hik Hj) as (src & b' & _ & _ & E & Hok & _). congruence.
Qed.

Lemma column_live j : j < W -> concat (live <$> gather k W j bs) ≡ₚ share W j (concat srcs).
Proof.
  intros Hj. rewrite share_concat. apply concat_Permutation, Forall2_same_length_lookup_2.
  - by rewrite !length_fmap, gather_length.
  - intros i x y Hx Hy. apply list_lookup_fmap_Some in Hx as (b & -> & Hx), Hy as (src & -> & Hy).
    pose proof (lookup_lt_Some _ _ _ Hy) as Hi. rewrite Hs in Hi.
    destruct (column_entry i j Hi Hj) as (src' & b' & E1 & _ & E2 & _ & H). congruence.
Qed.

Lemma column_fits j : j < W -> fits Zs (W * k) (concat srcs) -> fits Zs k (concat (live <$> gather k W j bs)).
Proof.
  intros Hj Hf. eapply fits_perm; [by rewrite column_live|]. intros i Hi. rewrite share_share by done. apply Hf. nia.
Qed.

Lemma column_bucket j i outs b : j < W -> i < k ->
  routed Zs k (concat (live <$> gather k W j bs)) outs -> outs !! i = Some b ->
  live b ≡ₚ share (W * k) (i * W + j) (concat srcs).
Proof.
  intros Hj Hi HR Hbi. rewrite (routed_live _ _ _ _ HR _ _ Hbi), column_live by done. by rewrite share_share.
Qed.

Lemma columns_routed bs' : length bs' = k * W ->
  (forall j, j < W -> routed Zs k (concat (live <$> gather k W j bs)) (gather k W j bs')) ->
  routed Zs (W * k) (concat srcs) bs'.
Proof.
  intros Hl HR.
  assert (Hq : forall q, q < k * W -> exists i j, i < k /\ j < W /\ q = i * W + j).
  { intros q Hq. exists (q / W), (q mod W). pose proof (Nat.div_mod_eq q W).
    split_and!; [apply Nat.Div0.div_lt_upper_bound; lia|by apply Nat.mod_upper_bound, Nat.neq_0_lt_0|lia]. }
  split; [lia| |].
  - apply Forall_lookup. intros q b Hqb. pose proof (lookup_lt_Some _ _ _ Hqb) as Hlt. rewrite Hl in Hlt.
    destruct (Hq q Hlt) as (i & j & Hi & Hj & ->). apply (gather_lookup k W) in Hqb; [|done..].
    exact (Forall_lookup_1 _ _ _ _ (routed_ok _ _ _ _ (HR j Hj)) Hqb).
  - intros q b Hqb. pose proof (lookup_lt_Some _ _ _ Hqb) as Hlt. rewrite Hl in Hlt.
    destruct (Hq q Hlt) as (i & j & Hi & Hj & ->). apply (gather_lookup k W) in Hqb; [|done..].
    eapply column_bucket; [done..|by apply HR|done].
Qed.
End route_columns.


(** ** Loads of a network *)

Section loads.
Context {T : Type} (Zs : nat).
Implicit Types (srcs : list (list (TaggedT T))) (ws : list nat).
Local Open Scope nat_scope.

(** The load of a network of ways [ws] (lowest layer first) on the real
    elements [srcs] of its input buckets: after the first [l] layers, in every
    group of buckets those layers mix, no bucket is asked for [Zs] elements. *)
Definition light ws srcs : Prop :=
  forall l q, 1 <= l <= length ws -> (q + 1) * product (take l ws) <= length srcs ->
    fits Zs (product (take l ws)) (concat (slice (q * product (take l ws)) (product (take l ws)) srcs)).

Lemma product_pos ws : Forall (fun w => 0 < w) ws -> 0 < product ws.
Proof. induction 1 as [|w ws Hw _ IH]; simpl; nia. Qed.

Lemma light_perm ws srcs srcs' : Forall2 (≡ₚ) srcs srcs' -> light ws srcs -> light ws srcs'.
Proof.
  intros H Hl l q Hlen Hq. eapply fits_perm; [|apply Hl; [done|by rewrite (Forall2_length _ _ _ H)]].
  apply concat_Permutation. by apply Forall2_take, Forall2_drop.
Qed.

(** Every block of [product ws1] buckets sees the load of the first layers. *)
Lemma light_block ws1 ws2 srcs i : (i + 1) * product ws1 <= length srcs -> Forall (fun w => 0 < w) ws1 ->
  light (ws1 ++ ws2) srcs -> light ws1 (slice (i * product ws1) (product ws1) srcs).
Proof.
  intros Hi Hpos H l q Hl Hq. rewrite slice_length in Hq by lia.
  set (P := product (take l ws1)) in *.
  assert (HP : product ws1 = P * product (drop l ws1)) by (unfold P; by rewrite <-product_app, take_drop).
  rewrite slice_slice by lia.
  specialize (H l (i * product (drop l ws1) + q)). rewrite take_app_le in H by lia. fold P in H.
  replace (i * product ws1 + q * P) with ((i * product (drop l ws1) + q) * P) by (rewrite HP; lia).
  apply H; [rewrite length_app; lia|]. nia.
Qed.

(** All layers together. *)
Lemma light_all ws srcs : ws <> [] -> length srcs = product ws -> light ws srcs -> fits Zs (product ws) (concat srcs).
Proof.
  intros Hne Hl H. specialize (H (length ws) 0). rewrite firstn_all in H.
  rewrite Nat.mul_0_l, <-Hl, slice_all, Hl in H. apply H; [|lia]. destruct ws; [done|simpl; lia].
Qed.

(** The upper layers on the buckets the lower ones have routed to column [j]. *)
Lemma light_column ws1 ws2 srcs j k : length srcs = k * product ws1 -> Forall (fun w => 0 < w) (ws1 ++ ws2) ->
  j < product ws1 -> light (ws1 ++ ws2) srcs ->
  light ws2 ((fun src => share (product ws1) j src) <$> (@concat _ <$> blocks (product ws1) k srcs)).
Proof.
  intros Hs Hpos Hj H l q Hl Hq. set (W := product ws1) in *. set (P := product (take l ws2)) in *.
  rewrite !length_fmap, blocks_length in Hq.
  apply Forall_app in Hpos as [Hp1 Hp2].
  assert (HP : 0 < P) by (by apply product_pos, Forall_take). assert (HW : 0 < W) by (by apply product_pos).
  assert (E : product (take (length ws1 + l) (ws1 ++ ws2)) = W * P) by (by rewrite take_app_add, product_app).
  specialize (H (length ws1 + l) q). rewrite E in H.
  rewrite <-!slice_fmap, <-share_concat, blocks_slice by lia. rewrite concat_fmap_concat, blocks_whole by (rewrite slice_length; nia).
  replace (q * P * W) with (q * (W * P)) by lia. replace (P * W) with (W * P) by lia.
  intros p Hp. rewrite share_share by done. apply H; [rewrite length_app; lia|nia|nia].
Qed.
End loads.


(** ** [MergeSplitKWay] is a router *)

Section tags.
Context {T : Type}.
Implicit Types x : TaggedT T.

Lemma tag_mask x : real_ok x -> Z.land (tag x) TAG_MASK = tag x.
Proof.
  intros [H0 H1]. change TAG_MASK with (Z.ones 63). rewrite Z.land_ones by lia. apply Z.mod_small. lia.
Qed.

Lemma tag_dummy_bit x : slot_ok x -> Z.land (tag x) DUMMY_BIT = if isDummy x then DUMMY_BIT else 0.
Proof.
  intros H. rewrite (isDummy_bit 0) by (lia || exact H). change DUMMY_BIT with (2 ^ 63). apply Z.bits_inj'. intros i Hi.
  rewrite Z.land_spec, Z.pow2_bits_eqb by lia. destruct (Z.eqb_spec 63 i) as [<-|Hne].
  - rewrite andb_true_r. destruct (Z.testbit (tag x) 63); [by rewrite Z.pow2_bits_true by lia|by rewrite Z.bits_0].
  - rewrite andb_false_r. destruct (Z.testbit (tag x) 63); [by rewrite Z.pow2_bits_false by lia|by rewrite Z.bits_0].
Qed.

Lemma digit_goes k j x : real_ok x -> digit k x = Z.of_nat j <-> goes_to k j x.
Proof. intros H. unfold digit, goes_to. by rewrite tag_mask. Qed.

Lemma rest_bound k x : (0 < k)%nat -> 0 <= Z.land (tag x) TAG_MASK / Z.of_nat k < 2 ^ 63.
Proof.
  intros Hk. change TAG_MASK with (Z.ones 63). rewrite Z.land_ones by lia.
  pose proof (Z.mod_pos_bound (tag x) (2 ^ 63) ltac:(lia)). split; [apply Z.div_pos; lia|].
  apply Z.div_lt_upper_bound; [lia|]. apply Z.lt_le_trans with (1 * 2 ^ 63); [lia|]. apply Z.mul_le_mono_nonneg_r; lia.
Qed.

Lemma consume_ok k x : (0 < k)%nat -> slot_ok x -> slot_ok (consume k x) /\ isDummy (consume k x) = isDummy x.
Proof.
  intros Hk H. pose proof (rest_bound k x Hk) as Hb.
  assert (Hs : slot_ok (consume k x)).
  { unfold consume, getMarkAndUpdate, withTag, slot_ok. cbn [snd tag]. rewrite tag_dummy_bit by done.
    apply (lor_in_width 64); [lia| |split; lia]. destruct (isDummy x); unfold DUMMY_BIT; split; lia. }
  split; [done|]. rewrite (isDummy_bit 0) by (lia || exact Hs). unfold consume, getMarkAndUpdate, withTag. cbn [snd tag].
  rewrite Z.lor_spec, tag_dummy_bit by done. rewrite (in_width_high_bits 63 (Z.land _ _ / _)) by (done || lia).
  rewrite orb_false_r. destruct (isDummy x); reflexivity.
Qed.

Lemma consume_shifted k x : real_ok x -> consume k x = shifted k x.
Proof.
  intros H. unfold consume, getMarkAndUpdate, shifted. cbn [snd]. rewrite tag_mask by done.
  rewrite tag_dummy_bit; [by rewrite real_ok_not_dummy by done|]. destruct H. split; lia.
Qed.
End tags.

(** The scattered buckets of items that lie where their marks say. *)
Lemma filter_position {E} (j : nat) (l : list (item E)) : forall c : nat,
  (forall i x, l !! i = Some x -> x.1 = Z.of_nat (c + i)) ->
  filter (fun x => x.1 = Z.of_nat (c + j)) l = option_list (l !! j).
Proof.
  revert j. induction l as [|x l IH]; intros j c H; [done|].
  assert (Hx : x.1 = Z.of_nat c) by (rewrite (H 0%nat x eq_refl); f_equal; lia).
  assert (Hl : forall i y, l !! i = Some y -> y.1 = Z.of_nat (S c + i)).
  { intros i y Hy. rewrite (H (S i) y Hy). f_equal. lia. }
  rewrite filter_cons. destruct j as [|j].
  - rewrite decide_True by (rewrite Hx; f_equal; lia). change (option_list _) with [x]. f_equal.
    apply filter_none. intros y [i Hi]%list_elem_of_lookup. rewrite (Hl i y Hi). lia.
  - rewrite decide_False by (rewrite Hx; lia). change ((x :: l) !! S j) with (l !! j). rewrite <-(IH j (S c) Hl).
    apply list_filter_iff. intros y. by rewrite Nat.add_succ_comm.
Qed.

Lemma scatter_filter {E} (k n : nat) (out : list (item E)) j : (0 < k)%nat ->
  length out = (n * k)%nat -> (forall i x, out !! i = Some x -> x.1 = Z.of_nat (i mod k)) -> (j < k)%nat ->
  omap (fun i => snd <$> out !! (i * k + j)%nat) (seq 0 n) = snd <$> filter (fun x => x.1 = Z.of_nat j) out.
Proof.
  intros Hk. revert out. induction n as [|n IH]; intros out Hl Hm Hj; [by destruct out|].
  transitivity (snd <$> filter (fun x => x.1 = Z.of_nat j) (take k out ++ drop k out)); [|by rewrite take_drop].
  rewrite filter_app, fmap_app.
  assert (F : filter (fun x => x.1 = Z.of_nat j) (take k out) = option_list (take k out !! j)).
  { apply (filter_position j (take k out) 0). intros i x Hi. pose proof (lookup_lt_Some _ _ _ Hi) as Hik. rewrite length_take in Hik.
       rewrite lookup_take_lt in Hi by lia. rewrite (Hm i x Hi), Nat.mod_small by lia. done. }
  rewrite F, lookup_take_lt by done. rewrite <-IH.
  - change (seq 0 (S n)) with (0%nat :: seq 1 n). rewrite <-fmap_S_seq.
    cbn [omap list_omap]. rewrite Nat.mul_0_l, Nat.add_0_l.
    assert (R : omap (fun i => snd <$> out !! (i * k + j)%nat) (S <$> seq 0 n) =
                omap (fun i => snd <$> drop k out !! (i * k + j)%nat) (seq 0 n)).
    { apply omap_fmap_eq. intros i. rewrite lookup_drop. f_equal. f_equal. lia. }
    rewrite R. by destruct (out !! j).
  - rewrite length_drop. lia.
  - intros i x Hi. rewrite lookup_drop in Hi. rewrite (Hm _ _ Hi). f_equal.
    rewrite Nat.add_comm. rewrite <-(Nat.mul_1_l k) at 1. apply Nat.Div0.mod_add.
  - done.
Qed.

(** What the fill leaves in bucket [j]: the real elements whose digit is [j]. *)
Lemma filled_live {T} (k j : nat) (counts : list Z) (es : list (TaggedT T)) : (0 < k <= 8)%nat -> (j < k)%nat ->
  Forall slot_ok es -> forall c r,
  live (snd <$> filter (fun x => x.1 = Z.of_nat j) (fillDummies counts c r (marked k <$> es))) = share k j (live es).
Proof.
  intros Hk Hj. induction es as [|x es IH]; intros Hok c r; [done|]. apply Forall_cons in Hok as [Hx Hok].
  rewrite fmap_cons. cbn [marked fillDummies].
  destruct (consume_ok k x ltac:(lia) Hx) as [_ Hd]. destruct (isDummy x) eqn:Ex.
  - rewrite (live_dummy x es Ex), filter_cons. destruct (decide _); [|apply (IH Hok)].
    rewrite fmap_cons. cbn [snd]. rewrite live_dummy by congruence. apply (IH Hok).
  - rewrite (live_real x es Ex). pose proof (real_ok_live _ Hx Ex) as Hreal.
    assert (Hdig : digit k x <> 255).
    { pose proof (Z.mod_pos_bound (Z.land (tag x) TAG_MASK) (Z.of_nat k) ltac:(lia)). unfold digit. lia. }
    assert (M : markOf k x = digit k x) by (unfold markOf; by rewrite Ex).
    rewrite M, (proj2 (Z.eqb_neq _ _) Hdig), filter_cons. cbn [fst].
    unfold share. rewrite (filter_cons (goes_to k j)). fold (share k j (live es)).
    destruct (decide (digit k x = Z.of_nat j)) as [E|E], (decide (goes_to k j x)) as [G|G];
      rewrite (digit_goes k j x Hreal) in E; try contradiction.
    + rewrite !fmap_cons. cbn [snd]. rewrite live_real, consume_shifted by done.
      f_equal. apply (IH Hok).
    + apply (IH Hok).
Qed.

Lemma share_cons {T} k j (x : TaggedT T) src :
  share k j (x :: src) = if decide (goes_to k j x) then shifted k x :: share k j src else share k j src.
Proof. unfold share. rewrite filter_cons. by destruct (decide _). Qed.

Lemma demand_share {T} k j (es : list (TaggedT T)) : Forall slot_ok es -> demand k j es = length (share k j (live es)).
Proof.
  unfold demand. induction 1 as [|x es Hx Hes IH]; [done|]. cbn [List.filter].
  destruct (isDummy x) eqn:Ex; cbn [negb andb]; [by rewrite live_dummy|].
  rewrite live_real, share_cons by done. pose proof (digit_goes k j x (real_ok_live x Hx Ex)) as D.
  destruct (Z.eqb_spec (digit k x) (Z.of_nat j)), (decide (goes_to k j x)); try tauto.
  rewrite !length_cons. by rewrite IH.
Qed.

Lemma buckets_slots {T} Zs (ins : list (list (TaggedT T))) : Forall (bucket_ok Zs) ins -> Forall slot_ok (concat ins).
Proof. intros H. apply Forall_concat. eapply Forall_impl; [exact H|]. by intros b [_ Hb]. Qed.

Section kway_router.
Context {T : Type} (k e : nat) (ins : list (list (TaggedT T))).
Hypothesis Hk : (3 <= k <= 8)%nat.
Hypothesis He : (e <= 27)%nat.
Hypothesis Hl : length ins = k.
Hypothesis Hin : Forall (bucket_ok (2 ^ e)) ins.

Lemma many_router : fits (2 ^ e) k (concat (live <$> ins)) ->
  exists outs, MergeSplitKWay k (2 ^ e) ins = Some outs /\ routed (2 ^ e) k (concat (live <$> ins)) outs.
Proof.
  intros Hf. rewrite MergeSplitKWay_is_many by lia. pose proof (buckets_slots _ _ Hin) as Hs.
  assert (Hz : Forall (fun b => length b = 2 ^ e)%nat ins) by (eapply Forall_impl; [exact Hin|intros b [H _]; exact H]).
  destruct (node_out k e ins Hk He Hl Hz) as (out & -> & Ho & Hp & Hm).
  { intros j Hj. rewrite demand_share by done. rewrite live_concat. by apply Hf. }
  eexists. split; [reflexivity|].
  assert (Hb : forall j b, scatter k (2 ^ e) out !! j = Some b ->
            (j < k)%nat /\ b = snd <$> filter (fun x => x.1 = Z.of_nat j) out).
  { intros j b Hj. pose proof (lookup_lt_Some _ _ _ Hj) as Hjk. rewrite scatter_length in Hjk. split; [done|].
    unfold scatter in Hj. rewrite list_lookup_fmap, lookup_seq_lt in Hj by done. injection Hj as <-.
    apply scatter_filter; done || lia. }
  split; [apply scatter_length| |].
  - apply Forall_lookup. intros j b Hj. split; [eapply (scatter_bucket k); [lia|done|exact Hj]|].
    apply Hb in Hj as [_ ->]. apply Forall_fmap, Forall_forall. intros [m x] [_ Hx]%list_elem_of_filter.
    rewrite Hp in Hx. apply list_elem_of_lookup_1 in Hx as [q Hq]. apply fillDummies_keep in Hq as (y & Hy & Hy2 & _).
    apply list_lookup_fmap_Some in Hy as (z & -> & Hz'). cbn [marked snd] in Hy2. cbn [compose snd]. subst x.
    apply consume_ok; [lia|]. exact (Forall_lookup_1 _ _ _ _ Hs Hz').
  - intros j b [Hj ->]%Hb. rewrite Hp, filled_live by (done || lia). by rewrite live_concat.
Qed.
End kway_router.

Section two_router.
Context {T : Type}.
Implicit Types (x : TaggedT T) (es : list (TaggedT T)).

Lemma isMarked_goes j x : (j < 2)%nat -> isMarked (2 ^ 0) x = Nat.eqb j 0 <-> goes_to 2 j x.
Proof.
  intros Hj. unfold goes_to. rewrite (isMarked_bit 0) by lia. rewrite Z.bit0_odd.
  pose proof (Zmod_odd (tag x)) as E. change (Z.of_nat 2) with 2. rewrite E.
  destruct (Z.odd (tag x)), j as [|[|j]]; cbn; split; lia || done.
Qed.

Lemma sar1_shift x : real_ok x -> withTag (sar1 (tag x)) x = shifted 2 x.
Proof.
  intros [H0 H1]. unfold sar1, shifted. rewrite (proj2 (Z.ltb_lt _ _) H1), Z.shiftr_div_pow2 by lia.
  change (Z.of_nat 2) with 2. change (2 ^ 1) with 2. rewrite wrap_small; [done|].
  split; [apply Z.div_pos; lia|]. apply Z.div_lt_upper_bound; lia.
Qed.

Lemma sar1_ok x : slot_ok x -> slot_ok (withTag (sar1 (tag x)) x) /\ isDummy (withTag (sar1 (tag x)) x) = isDummy x.
Proof.
  intros [H0 H1]. unfold slot_ok, withTag. cbn [tag]. unfold sar1. rewrite Z.shiftr_div_pow2 by lia. change (2 ^ 1) with 2.
  split; [apply wrap_in_width; lia|]. unfold isDummy. cbn [tag]. rewrite !Z.shiftr_div_pow2 by lia.
  destruct (Z.ltb_spec (tag x) (2 ^ 63)).
  - rewrite wrap_small by (unfold in_width; lia). rewrite !Z.div_small by lia. done.
  - assert (E : w64 ((tag x - 2 ^ 64) / 2) = (tag x - 2 ^ 64) / 2 + 2 ^ 64).
    { unfold wrap. rewrite <-(Z_mod_plus_full _ 1). apply Z.mod_small. lia. }
    rewrite E. assert (((tag x - 2 ^ 64) / 2 + 2 ^ 64) / 2 ^ 63 = 1) as -> by lia.
    assert (tag x / 2 ^ 63 = 1) as -> by lia. done.
Qed.

Lemma reals_share es m : Forall slot_ok es -> reals 0 m es = length (share 2 (if m then 0 else 1)%nat (live es)).
Proof.
  unfold reals, cnt. induction 1 as [|x es Hx Hes IH]; [done|]. cbn [List.filter].
  destruct (isDummy x) eqn:Ex; cbn [negb andb]; [by rewrite live_dummy|].
  rewrite live_real, share_cons by done.
  pose proof (isMarked_goes (if m then 0 else 1)%nat x ltac:(destruct m; lia)) as D.
  destruct (isMarked (2 ^ 0) x), m, (decide _) as [G|G]; cbn [Bool.eqb Nat.eqb] in *;
    rewrite ?length_cons, ?IH; first [done | exfalso; intuition congruence].
Qed.

Lemma mark_only_live es es' : Forall2 (mark_only (T := T)) es es' -> live es' = live es /\ Forall slot_ok es'.
Proof.
  induction 1 as [|x y es es' (_ & Hd & Hw & Hr) _ [IH1 IH2]]; [done|]. split; [|by constructor].
  destruct (isDummy x) eqn:Ex; [rewrite !live_dummy by congruence; done|].
  rewrite !live_real by congruence. rewrite IH1, Hr by done. done.
Qed.

(** A side of the partition, with the bit shifted out. *)
Lemma side_live (L es : list (TaggedT T)) j : (j < 2)%nat -> Forall slot_ok es ->
  Forall slot_ok L -> live L ≡ₚ filter (goes_to 2 j) (live es) ->
  live ((fun x => withTag (sar1 (tag x)) x) <$> L) ≡ₚ share 2 j (live es).
Proof.
  intros Hj Hes HL H. unfold share. rewrite <-H. apply reflexive_eq. clear H Hes.
  induction HL as [|x L Hx _ IH]; [done|]. rewrite fmap_cons. destruct (sar1_ok x Hx) as [_ E].
  destruct (isDummy x) eqn:Ex; [rewrite !live_dummy by congruence; done|].
  rewrite !live_real by congruence. rewrite fmap_cons, IH, sar1_shift by (by apply real_ok_live). done.
Qed.

Lemma marked_side (L : list (TaggedT T)) j j' : (j < 2)%nat -> (j' < 2)%nat ->
  Forall (fun x => isMarked (2 ^ 0) x = Nat.eqb j 0) L ->
  filter (goes_to 2 j') (live L) = if decide (j = j') then live L else [].
Proof.
  intros Hj Hj' H. rewrite Forall_forall in H.
  assert (G : forall x, x ∈ live L -> goes_to 2 j x).
  { intros x [_ Hx]%list_elem_of_filter. apply isMarked_goes; [done|by apply H]. }
  destruct (decide (j = j')) as [<-|Hne]; [by apply filter_every|].
  apply filter_none. intros x Hx. specialize (G x Hx). unfold goes_to in *. lia.
Qed.

Lemma two_router e (ins : list (list (TaggedT T))) : (1 <= e <= 27)%nat -> length ins = 2%nat ->
  Forall (bucket_ok (2 ^ e)) ins -> fits (2 ^ e) 2 (concat (live <$> ins)) ->
  exists outs, MergeSplitKWay 2 (2 ^ e) ins = Some outs /\ routed (2 ^ e) 2 (concat (live <$> ins)) outs.
Proof.
  intros He Hl Hin Hf. pose proof (buckets_slots _ _ Hin) as Hs.
  destruct ins as [|L [|R [|? ?]]]; try done. rewrite <-live_concat in *. cbn [concat] in *. rewrite app_nil_r in *.
  apply Forall_cons in Hin as [[HL _] Hin]. apply Forall_cons in Hin as [[HR _] _].
  assert (Hpow : (2 ^ e = 2 * 2 ^ (e - 1))%nat) by (rewrite <-Nat.pow_succ_r'; f_equal; lia).
  assert (Hpos : (0 < 2 ^ (e - 1))%nat) by (apply Nat.neq_0_lt_0, Nat.pow_nonzero; lia).
  assert (Hbig : Z.of_nat (2 ^ e) < 2 ^ 62).
  { rewrite Nat2Z.inj_pow. apply Z.pow_lt_mono_r; lia. }
  pose proof (MergeSplitTwoWay_spec 0 L R ltac:(lia) ltac:(lia) ltac:(lia)) as S. specialize (S ltac:(rewrite HL, Hpow, Nat.mul_comm; apply Nat.Div0.mod_mul)).
  specialize (S ltac:(by rewrite HL) Hs). rewrite HL, !reals_share in S by done. cbn [orb] in S.
  rewrite (proj2 (Nat.leb_le _ _)) in S by (specialize (Hf 0%nat); lia).
  rewrite (proj2 (Nat.leb_le _ _)) in S by (specialize (Hf 1%nat); lia).
  destruct S as (L' & R' & es & E & HL' & HR' & ML & MR & HP & HF). unfold MergeSplitKWay.
  change 1 with (2 ^ 0). rewrite E. eexists. split; [reflexivity|].
  destruct (mark_only_live _ _ HF) as [Hlive Hes]. rewrite <-HP, Forall_app in Hes. destruct Hes as [SL SR].
  assert (Hside : forall b, Forall slot_ok b -> length b = (2 ^ e)%nat ->
            bucket_ok (2 ^ e) ((fun x => withTag (sar1 (tag x)) x) <$> b)).
  { intros b Hb Hlb. split; [by rewrite length_fmap|]. apply Forall_fmap. eapply Forall_impl; [exact Hb|].
    intros x Hx. by apply sar1_ok. }
  assert (Hq : forall j, (j < 2)%nat -> filter (goes_to 2 j) (live (L ++ R)) ≡ₚ if decide (j = 0)%nat then live L' else live R').
  { intros j Hj. rewrite <-Hlive, <-HP, live_app, filter_app.
    rewrite (marked_side L' 0 j), (marked_side R' 1 j) by (done || lia).
    destruct j as [|[|j]]; [|done|lia]. by rewrite app_nil_r. }
  split; [done|apply Forall_cons_2; [|apply Forall_cons_2; [|apply Forall_nil_2]]; apply Hside; lia || done|].
  intros j b Hb. destruct j as [|[|j]]; [| |done]; injection Hb as <-.
  - apply side_live; [lia|done..|]. symmetry. apply (Hq 0%nat). lia.
  - apply side_live; [lia|done..|]. symmetry. apply (Hq 1%nat). lia.
Qed.
End two_router.

#[export] Instance MergeSplitKWay_router {T} k e : (2 <= k <= 8)%nat -> (1 <= e <= 27)%nat ->
  Router (T := T) (2 ^ e) k (MergeSplitKWay k (2 ^ e)).
Proof.
  intros Hk He ins Hl Hin Hf. destruct (decide (k = 2%nat)) as [->|Hne]; [by apply two_router|].
  apply many_router; [lia|lia|done..].
Qed.
