(* ===== verification/Butterfly.v ===== *)
(** * Flex-way butterfly sort and shuffle (kway_butterfly_sort.hpp)

    The class [ButterflySorter]: the layers of the butterfly network within a
    batch, the batches of a layer over the external array, and the last layer,
    which sorts every bucket and writes.  The external array and the batch are
    arrays of slots cut into buckets of [Z] slots; the readers and writers are
    lists of elements.  [None] is an abort or an access out of bounds. *)
From S2P Require Import Prelude Utils Bitonic OrCompact MergeSplit MergeSort Routing.

Inductive SortMethod :=
  | CABUCKETSORT | BITONICSORT | ORSHUFFLE | CABUCKETSHUFFLE | BITONICSHUFFLE | KWAYDISTRIBUTIONOSORT
  | KWAYDISTRIBUTIONOSORTSHUFFLED | KWAYBUTTERFLYOSORT | KWAYBUTTERFLYOSHUFFLE | UNOPTBITONICSORT
  | EXTMERGESORT | HISTOGRAM | DBJOIN | ORAMINIT | LOADBALANCE.

(** [struct KWayButterflyParams]; the bucket size is [Z] there. *)
Record KWayButterflyParams := mkParams { ways : list (list nat); bucketSize : nat; totalBucket : nat }.

(** The members of a [ButterflySorter] that change: what is left of the input
    reader, the generator, the batch, what has been written, and
    [mergeSortRanges] as positions in the output. *)
Record sorter (T G : Type) := mkSorter {
  inputReader : list T; gen : G; batch : list (TaggedT T); outputWriter : list T; mergeSortRanges : list (nat * nat) }.
Arguments mkSorter {T G}. Arguments inputReader {T G}. Arguments gen {T G}. Arguments batch {T G}.
Arguments outputWriter {T G}. Arguments mergeSortRanges {T G}.

Section butterfly.
Context {T G : Type} `{!RandGen G} `{!StdSort (TaggedT T)} (ltb : T -> T -> bool).
Abbreviation bucket := (list (TaggedT T)).
Implicit Type s : sorter T G.

(** [TaggedT::setData]: the element with a random tag. *)
Definition setData (data : T) (g : G) : TaggedT T * G :=
  let '(r, g) := rand64 g in (mkTagged (Z.land r TAG_MASK) data, g).

Context (KWayParams : KWayButterflyParams) (task : SortMethod) (singleBatch : bool).
Context (numRealPerBucket numElementFit : nat).
Let Z : nat := bucketSize KWayParams.
Let layers : list (list nat) := ways KWayParams.

(** Tag and pad one bucket: the slots from [offset] on. *)
Fixpoint fillBucket (offset : nat) (b : bucket) (inp : list T) (g : G) : bucket * list T * G :=
  match b with
  | [] => ([], inp, g)
  | x :: b =>
      let '(x, inp, g) :=
        match inp with
        | d :: inp' => if offset <? numRealPerBucket then let '(y, g) := setData d g in (y, inp', g) else (setDummy x, inp, g)
        | [] => (setDummy x, [], g)
        end in
      let '(b, inp, g) := fillBucket (S offset) b inp g in (x :: b, inp, g)
  end.

Fixpoint fillBuckets (bs : list bucket) (inp : list T) (g : G) : list bucket * list T * G :=
  match bs with
  | [] => ([], inp, g)
  | b :: bs =>
      let '(b, inp, g) := fillBucket 0 b inp g in
      let '(bs, inp, g) := fillBuckets bs inp g in (b :: bs, inp, g)
  end.

(** The layers [0..innerLayer] of [ioLayer] on a range of the batch. *)
Fixpoint KWayButterflySortBasic (ioLayer innerLayer : nat) (bs : list bucket) (inp : list T * G)
    : option (list bucket * (list T * G)) :=
  let way := nth innerLayer (nth ioLayer layers []) 0 in
  let wayBucket := length bs / way in
  '(bs, inp) ← match innerLayer with
    | S innerLayer =>
        '(parts, inp) ← mapS (KWayButterflySortBasic ioLayer innerLayer) (blocks wayBucket way bs) inp;
        Some (concat parts, inp)
    | O =>
        if ioLayer =? 0 then let '(bs, l, g) := fillBuckets bs inp.1 inp.2 in Some (bs, (l, g)) else Some (bs, inp)
    end;
  bs ← loopM (fun j bs =>
    outs ← MergeSplitKWay way Z (gather way wayBucket j bs);
    Some (put wayBucket j 0 outs bs)) 0 wayBucket bs;
  Some (bs, inp).

Definition numInternalWay (ioLayer : nat) : nat := product (nth ioLayer layers []).
Definition fetchInterval (ioLayer : nat) : nat := product (product <$> take ioLayer layers).
Definition isLastLayer (ioLayer : nat) : bool := ioLayer =? length layers - 1.

Definition cmpTag (a b : TaggedT T) : bool := (tag a <? tag b)%Z.
Definition cmpVal (a b : TaggedT T) : bool := ltb (v a) (v b).
Definition needsExtMerge : bool := negb singleBatch && match task with KWAYBUTTERFLYOSORT => true | _ => false end.

Definition batchPerEnclave (ioLayer : nat) : nat :=
  match task with
  | KWAYBUTTERFLYOSORT => if isLastLayer ioLayer then numElementFit / (numInternalWay ioLayer * Z) else 1
  | _ => 1
  end.

(** [if (!it->isDummy()) outputWriter.write(it->getData())] over a bucket. *)
Definition emit (b : bucket) : list T := v <$> live b.

(** The last layer of the sort: once a chunk of the batch is full, or at the
    end, partition the dummies off, sort by value and write. *)
Definition sortChunk (localBatchSize BNCountPerBatch : nat) s : option (sorter T G) :=
  '(arr, realEnd) ← partitionDummy (take (localBatchSize * BNCountPerBatch) (batch s));
  let sorted := std_sort cmpVal (take realEnd arr) in
  b ← write_at 0 (sorted ++ drop realEnd arr) (batch s);
  let out := outputWriter s ++ (v <$> sorted) in
  let ranges := if needsExtMerge then mergeSortRanges s ++ [(length (outputWriter s), length out)] else mergeSortRanges s in
  Some (mkSorter (inputReader s) (gen s) b out ranges).

(** One batch at [off] of the batch array: fetch its buckets, unless the first
    layer fills them, and run the network of the layer in place. *)
Definition runBatch (ioLayer off batchIdx : nat) (ext : list bucket) s : option (list bucket * sorter T G) :=
  let K := numInternalWay ioLayer in
  b ← match ioLayer with
      | O => if off + K * Z <=? length (batch s) then Some (batch s) else None
      | S _ => write_at off (concat (gather K (fetchInterval ioLayer) batchIdx ext)) (batch s)
      end;
  '(bs, (l, g)) ← KWayButterflySortBasic ioLayer (length (nth ioLayer layers []) - 1) (blocks Z K (drop off b)) (inputReader s, gen s);
  b ← write_at off (concat bs) b;
  Some (bs, mkSorter l g b (outputWriter s) (mergeSortRanges s)).

(** The rest of the body of the loop over batches: write the buckets back, or,
    in the last layer, sort every bucket by tag and write to the output. *)
Definition processBatch (ioLayer batchCount batchIdx : nat) (st : list bucket * sorter T G)
    : option (list bucket * sorter T G) :=
  let '(ext, s) := st in
  let localBatchSize := numInternalWay ioLayer * Z in
  let bpe := batchPerEnclave ioLayer in
  if bpe =? 0 then None else
  let intBatchIdx := batchIdx mod bpe in
  let off := intBatchIdx * localBatchSize in
  '(bs, s) ← runBatch ioLayer off batchIdx ext s;
  if isLastLayer ioLayer then
    let bs := BitonicSort cmpTag <$> bs in
    b ← write_at off (concat bs) (batch s);
    let s := mkSorter (inputReader s) (gen s) b (outputWriter s) (mergeSortRanges s) in
    match task with
    | KWAYBUTTERFLYOSHUFFLE =>
        Some (ext, mkSorter (inputReader s) (gen s) b (outputWriter s ++ concat (emit <$> bs)) (mergeSortRanges s))
    | KWAYBUTTERFLYOSORT =>
        if (intBatchIdx =? bpe - 1) || (batchIdx =? batchCount - 1) then
          s ← sortChunk localBatchSize (if batchIdx =? batchCount - 1 then batchIdx mod bpe + 1 else bpe) s; Some (ext, s)
        else Some (ext, s)
    | _ => Some (ext, s)
    end
  else Some (put (fetchInterval ioLayer) batchIdx 0 bs ext, s).

(** [KWayButterflySort(begin, end, ioLayer)] on a range of [n] buckets of the
    external array. *)
Fixpoint KWayButterflySort (ioLayer n : nat) (ext : list bucket) s : option (list bucket * sorter T G) :=
  let subSize := n / numInternalWay ioLayer in
  '(ext, s) ← match ioLayer with
    | S ioLayer' =>
        '(parts, s) ← mapS (KWayButterflySort ioLayer' subSize) (blocks subSize (numInternalWay ioLayer) ext) s;
        Some (concat parts, s)
    | O => Some (ext, s)
    end;
  let batchCount := divUp (n * Z) (numInternalWay ioLayer * Z) in
  loopM (processBatch ioLayer batchCount) 0 batchCount (ext, s).

(** [sort()]; the external array only exists when there are several batches. *)
Definition sort (ext : list bucket) s : option (sorter T G) :=
  '(_, s) ← KWayButterflySort (length layers - 1) (totalBucket KWayParams) (if singleBatch then [] else ext) s;
  Some s.
End butterfly.

(** ** The entry points on readers and writers *)

Section entry.
Context {T G : Type} `{!RandGen G} `{!StdSort (TaggedT T)} (ltb : T -> T -> bool).
(** [sizeof(T)], [sizeof(WrappedT)], and the items of a page of the vector. *)
Context (sizeofT sizeofWrapped item_per_page : nat).
(** [bestKWayButterflyParams(N, M, b)], the root of [ExtMergeSort], and the
    contents of freshly allocated memory. *)
Context (bestKWayButterflyParams : nat -> nat -> nat -> KWayButterflyParams) (mergeWay : nat -> nat -> nat)
  (fresh : nat -> list (TaggedT T)).

Definition capHeapSize (N heapSize : nat) : nat := Nat.min heapSize (Nat.max N 4096 * sizeofWrapped * 2).

(** The constructor of [ButterflySorter] and [sort()]. *)
Definition runSorter (task : SortMethod) (KWayParams : KWayButterflyParams) (heapSize : nat) (reader : list T) (g : G)
    : option (sorter T G) :=
  let Z := bucketSize KWayParams in
  let singleBatch := length (ways KWayParams) =? 1 in
  let numElementFit := (heapSize - 16 * Z) / sizeofWrapped - 8 * Z in
  let maxBatchBucket := foldr (fun ways m => Nat.max m (product ways)) 0 (ways KWayParams) in
  let batchSize := if singleBatch then maxBatchBucket * Z else numElementFit in
  let numRealPerBucket := 1 + (length reader - 1) / totalBucket KWayParams in
  sort ltb KWayParams task singleBatch numRealPerBucket numElementFit
    (blocks Z (totalBucket KWayParams) (fresh (totalBucket KWayParams * Z)))
    (mkSorter reader g (fresh batchSize) [] []).

Definition KWayButterflyOShuffle (reader : list T) (heapSize : nat) (g : G) : option (list T * G) :=
  let N := length reader in
  if N <=? 512 then Some (OrShuffle reader g) else
  let heapSize := capHeapSize N heapSize in
  let KWayParams := bestKWayButterflyParams N (heapSize / sizeofWrapped) sizeofT in
  s ← runSorter KWAYBUTTERFLYOSHUFFLE KWayParams heapSize reader g;
  Some (outputWriter s, gen s).

Definition KWayButterflySorting (reader : list T) (heapSize : nat) (g : G) : option (list T * G) :=
  let N := length reader in
  if N <=? 512 then Some (BitonicSort ltb reader, g) else
  let heapSize := capHeapSize N heapSize in
  let KWayParams := bestKWayButterflyParams N (heapSize / sizeofWrapped) sizeofT in
  s ← runSorter KWAYBUTTERFLYOSORT KWayParams heapSize reader g;
  if length (ways KWayParams) =? 1 then Some (outputWriter s, gen s) else
  let maxWay := heapSize / (sizeofT * item_per_page * 2) in
  out ← ExtMergeSort ltb mergeWay (S (length (mergeSortRanges s))) (outputWriter s) (mergeSortRanges s) N maxWay;
  Some (out, gen s).
End entry.
