(* ===== verification/ButterflyNet.v ===== *)
(** * The butterfly network: correctness

    The layers of [KWayButterflySort] route every element to the bucket its tag
    names ([ext_layers]); helper lemmas on filling, batches and columns. *)
From S2P Require Import Prelude Utils Bitonic OrCompact MergeSplit MergeSort Routing Butterfly.

(** ** Tagging and padding *)

Section fill.
Context {T G : Type} `{!RandGen G} (nrpb : nat).
Implicit Types (b : list (TaggedT T)) (d : T) (inp : list T) (g : G).

(** The input with the tags it will be given, in the order it is read. *)
Fixpoint tagged inp g : list (TaggedT T) :=
  match inp with
  | [] => []
  | d :: inp => let '(x, g) := setData d g in x :: tagged inp g
  end.

Lemma setData_spec d g : real_ok (setData d g).1 /\ v (setData d g).1 = d.
Proof.
  unfold setData. destruct (rand64 g) as [r g']. cbn [fst v]. split; [|done].
  unfold real_ok. cbn [tag]. change TAG_MASK with (Z.ones 63). rewrite Z.land_ones by lia. apply Z.mod_pos_bound. lia.
Qed.

Lemma tagged_v inp : forall g, v <$> tagged inp g = inp.
Proof.
  induction inp as [|d inp IH]; intros g; [done|]. cbn [tagged]. destruct (setData_spec d g) as [_ Hv].
  destruct (setData d g) as [x g']. rewrite fmap_cons, IH. cbn [fst] in Hv. by rewrite Hv.
Qed.

Lemma tagged_ok inp : forall g, Forall real_ok (tagged inp g).
Proof.
  induction inp as [|d inp IH]; intros g; cbn [tagged]; [done|]. destruct (setData_spec d g) as [Hr _].
  destruct (setData d g) as [x g']. by constructor.
Qed.

Lemma tagged_length inp g : length (tagged inp g) = length inp.
Proof. by rewrite <-(length_fmap v), tagged_v. Qed.

Lemma setDummy_ok (x : TaggedT T) : slot_ok x -> slot_ok (setDummy x) /\ isDummy (setDummy x) = true.
Proof.
  intros H. assert (Hs : slot_ok (setDummy x)).
  { unfold slot_ok, setDummy, withTag. cbn [tag]. apply lor_in_width; [lia|exact H|]. unfold DUMMY_BIT. split; lia. }
  split; [done|]. rewrite (isDummy_bit 0) by (lia || exact Hs). unfold setDummy, withTag. cbn [tag].
  rewrite Z.lor_spec. change (Z.testbit DUMMY_BIT 63) with true. apply orb_true_r.
Qed.

Lemma real_slot (x : TaggedT T) : real_ok x -> slot_ok x.
Proof. intros [H0 H1]. split; lia. Qed.

(** What filling leaves: the bucket with its real elements, the rest of the
    input, and a generator that tags the rest as before. *)
Definition filled_as (k : nat) (inp : list T) (g : G) (r : list T * G) : Prop :=
  r.1 = drop k inp /\ tagged r.1 r.2 = drop k (tagged inp g).

Lemma fillBucket_spec b : forall off inp g, Forall slot_ok b ->
  let '(b', inp', g') := fillBucket nrpb off b inp g in
  let k := Nat.min (length b) (nrpb - off) in
  bucket_ok (length b) b' /\ live b' = take k (tagged inp g) /\ filled_as k inp g (inp', g').
Proof.
  induction b as [|x b IH]; intros off inp g Hb; cbn [fillBucket]; [done|].
  apply Forall_cons in Hb as [Hx Hb]. destruct (setDummy_ok x Hx) as [Hd1 Hd2]. destruct inp as [|d inp].
  - specialize (IH (S off) [] g Hb). destruct (fillBucket nrpb (S off) b [] g) as [[b' inp'] g'].
    destruct IH as ([H1 H2] & H3 & H4 & H5). cbn [fst snd] in *. rewrite drop_nil in H4. cbn [tagged] in *. rewrite take_nil in H3. rewrite drop_nil in H5. rewrite take_nil.
    split; [split; [by rewrite length_cons, H1|by constructor]|]. split; [by rewrite live_dummy|].
    split; cbn [fst snd tagged]; rewrite drop_nil; done.
  - destruct (Nat.ltb_spec off nrpb) as [Hlt|Hge].
    + destruct (setData_spec d g) as [Hr _]. cbn [tagged]. destruct (setData d g) as [y g1] eqn:Es. cbn [fst] in Hr.
      specialize (IH (S off) inp g1 Hb). destruct (fillBucket nrpb (S off) b inp g1) as [[b' inp'] g'].
      destruct IH as ([H1 H2] & H3 & H4 & H5).
      assert (Hk : Nat.min (length (x :: b)) (nrpb - off) = S (Nat.min (length b) (nrpb - S off))) by (simpl length; lia).
      rewrite Hk. cbn [take drop]. split; [split; [by rewrite length_cons, H1|constructor; [by apply real_slot|done]]|].
      split; [by rewrite live_real, H3 by (by apply real_ok_not_dummy)|]. split; [done|]. cbn [tagged]. by rewrite Es.
    + specialize (IH (S off) (d :: inp) g Hb). destruct (fillBucket nrpb (S off) b (d :: inp) g) as [[b' inp'] g'].
      destruct IH as ([H1 H2] & H3 & H4).
      assert (Hk : Nat.min (length (x :: b)) (nrpb - off) = Nat.min (length b) (nrpb - S off)) by lia.
      rewrite Hk. split; [split; [by rewrite length_cons, H1|by constructor]|]. split; [by rewrite live_dummy|done].
Qed.

Lemma filled_as_trans k1 k2 inp g inp1 g1 r :
  filled_as k1 inp g (inp1, g1) -> filled_as k2 inp1 g1 r -> filled_as (k1 + k2) inp g r.
Proof. intros [H1 H2] [H3 H4]. cbn [fst snd] in *. split; [by rewrite H3, H1, drop_drop|by rewrite H4, H2, drop_drop]. Qed.

Context (Zs : nat) (Hn : nrpb <= Zs).

Lemma fillBuckets_spec bs : forall inp g, Forall (bucket_ok Zs) bs ->
  let '(bs', inp', g') := fillBuckets nrpb bs inp g in
  Forall (bucket_ok Zs) bs' /\ live <$> bs' = blocks nrpb (length bs) (tagged inp g) /\
  filled_as (length bs * nrpb) inp g (inp', g').
Proof.
  induction bs as [|b bs IH]; intros inp g Hb; cbn [fillBuckets]; [done|].
  apply Forall_cons in Hb as [[Hl Hs] Hb]. pose proof (fillBucket_spec b 0 inp g Hs) as F.
  destruct (fillBucket nrpb 0 b inp g) as [[b' inp1] g1]. cbv zeta in F. rewrite Hl, Nat.sub_0_r, Nat.min_r in F by done.
  destruct F as (F1 & F2 & F3). specialize (IH inp1 g1 Hb). destruct (fillBuckets nrpb bs inp1 g1) as [[bs' inp'] g'].
  destruct IH as (I1 & I2 & I3). split; [by constructor|]. split; [|by eapply filled_as_trans].
  rewrite fmap_cons, F2, I2, length_cons. destruct F3 as [_ F3]. cbn [fst snd] in F3. rewrite F3. unfold blocks.
  cbn [seq]. rewrite fmap_cons. f_equal.
  rewrite <-fmap_S_seq, <-list_fmap_compose. apply list_fmap_ext. intros _ i _. unfold compose, slice. by rewrite drop_drop.
Qed.
End fill.

(** ** One layer, and the layers of a batch *)

(** Two to eight ways. *)
Definition way_range (w : nat) : Prop := 2 <= w <= 8.

Lemma ways_pos ws : Forall way_range ws -> Forall (fun w => 0 < w) ws.
Proof. intros H. eapply Forall_impl; [exact H|]. intros w [Hw _]. lia. Qed.

Section layer.
Context {T : Type} (e : nat) (He : 1 <= e <= 27).
Implicit Types (bs : list (list (TaggedT T))).
Abbreviation Zs := (2 ^ e).

Lemma layer_spec way W srcs bs : way_range way -> 0 < W -> length srcs = way -> length bs = way * W ->
  (forall i src, srcs !! i = Some src -> routed Zs W src (slice (i * W) W bs)) -> fits Zs (W * way) (concat srcs) ->
  exists bs', loopM (fun j bs => outs ← MergeSplitKWay way Zs (gather way W j bs); Some (put W j 0 outs bs)) 0 W bs = Some bs' /\
    routed Zs (W * way) (concat srcs) bs'.
Proof using He.
  intros Hway HW Hs Hb Hr Hf. assert (Hway' : 0 < way) by (destruct Hway; lia).
  pose (I := fun j bs' => length bs' = way * W /\
    (forall i, i < j -> i < W -> routed Zs way (concat (live <$> gather way W i bs)) (gather way W i bs')) /\
    (forall i, j <= i < W -> gather way W i bs' = gather way W i bs)).
  destruct (loopM_inv I (fun j bs => outs ← MergeSplitKWay way Zs (gather way W j bs); Some (put W j 0 outs bs)) W 0 bs)
    as (bs' & E & H1 & H2 & _).
  - split; [done|]. split; [lia|done].
  - intros j cur Hj (I1 & I2 & I3). cbn [Nat.add] in Hj.
    destruct (MergeSplitKWay_router way e Hway He (gather way W j bs)) as (outs & Eo & Ro).
    + apply gather_length.
    + eapply column_ok; eauto; lia.
    + eapply column_fits; eauto; lia.
    + rewrite I3 by lia. rewrite Eo. cbn [mbind option_bind]. eexists. split; [reflexivity|].
      pose proof (routed_length _ _ _ _ Ro) as Hlo. split; [by rewrite put_length|]. split.
      * intros i Hi HiW. destruct (decide (i = j)) as [->|Hne].
        -- by rewrite (gather_put way W HW) by (done || lia).
        -- rewrite (gather_put_ne way W HW) by (done || lia). apply I2; lia.
      * intros i Hi. rewrite (gather_put_ne way W HW) by (done || lia). apply I3. lia.
  - exists bs'. split; [exact E|]. apply (columns_routed Zs way W srcs bs HW Hway' Hs Hb Hr bs' H1). intros j Hj. apply H2; lia.
Qed.

End layer.

(** Sources of blocks of [W] buckets, and the routed blocks put together. *)
Lemma blocks_routed {T} (Zs : nat) (srcs : list (list (TaggedT T))) W way parts i src :
  0 < W -> length parts = way -> (forall j y, parts !! j = Some y -> routed Zs W (concat (slice (j * W) W srcs)) y) ->
  length (concat parts) = way * W /\
  ((@concat _ <$> blocks W way srcs) !! i = Some src -> routed Zs W src (slice (i * W) W (concat parts))).
Proof.
  intros HW Hl Hp.
  assert (Hlen : Forall (fun y => length y = W) parts).
  { apply Forall_lookup. intros j y Hy. apply (routed_length _ _ _ _ (Hp j y Hy)). }
  assert (Hcut : forall j, slice (j * W) W (concat parts) = default [] (parts !! j)).
  { intros j. clear Hp Hl. revert j. induction Hlen as [|y parts Hy _ IH]; intros j; [by unfold slice; destruct (j * W), W|].
    rewrite concat_cons. destruct j as [|j]; unfold slice in *.
    - rewrite Nat.mul_0_l, drop_0. rewrite <-Hy. apply take_app_length.
    - rewrite drop_app_ge by nia. change ((y :: parts) !! S j) with (parts !! j). rewrite <-IH. do 2 f_equal. lia. }
  split.
  - rewrite <-Hl. clear Hp Hl Hcut. induction Hlen as [|y parts Hy _ IH]; [done|]. rewrite concat_cons, length_app, IH, length_cons. lia.
  - intros Hi. apply list_lookup_fmap_Some in Hi as (blk & -> & Hi). pose proof (lookup_lt_Some _ _ _ Hi) as Hlt.
    rewrite blocks_length in Hlt. rewrite blocks_lookup in Hi by done. injection Hi as <-.
    rewrite Hcut. destruct (lookup_lt_is_Some_2 parts i) as [y Hy]; [lia|]. rewrite Hy. by apply Hp.
Qed.
(** The layers of a batch, on any range of an array of buckets whose leaves
    come from [srcs]. *)
Section basic.
Context {T G : Type} `{!RandGen G} (p : KWayButterflyParams) (nrpb e : nat) (He : 1 <= e <= 27) (HZ : bucketSize p = 2 ^ e).
Context (io : nat) (all srcs : list (list (TaggedT T))) (J : nat -> list T * G -> Prop).
Let ws := nth io (ways p) [].
Hypothesis Hws : Forall way_range ws.
Hypothesis Hsrcs : length srcs = length all.

Definition leaf (bs : list (list (TaggedT T))) (inp : list T * G) : list (list (TaggedT T)) * (list T * G) :=
  if io =? 0 then let '(bs, l, g) := fillBuckets nrpb bs inp.1 inp.2 in (bs, (l, g)) else (bs, inp).

Hypothesis Hleaf : forall o n inp, o + n <= length all -> J o inp ->
  J (o + n) (leaf (slice o n all) inp).2 /\ Forall (bucket_ok (2 ^ e)) (leaf (slice o n all) inp).1 /\
  live <$> (leaf (slice o n all) inp).1 = slice o n srcs.

Lemma basic_spec m : forall o inp, m < length ws -> let P := product (take (S m) ws) in
  o + P <= length all -> light (2 ^ e) (take (S m) ws) (slice o P srcs) -> J o inp ->
  exists bs' inp', KWayButterflySortBasic p nrpb io m (slice o P all) inp = Some (bs', inp') /\
    J (o + P) inp' /\ routed (2 ^ e) P (concat (slice o P srcs)) bs'.
Proof using He HZ Hws Hsrcs Hleaf.
  induction m as [|m IH]; intros o inp Hm P Ho Hlight HJ; cbn [KWayButterflySortBasic]; fold ws; rewrite HZ.
  - destruct (lookup_lt_is_Some_2 ws 0 Hm) as [w Hw]. rewrite (nth_lookup_Some _ _ _ _ Hw).
    pose proof (Forall_lookup_1 _ _ _ _ Hws Hw) as Hwr. assert (EP : take 1 ws = [w]) by (destruct ws; [done|by injection Hw as ->]).
    assert (HP : P = w) by (subst P; rewrite EP; simpl; lia). rewrite HP in *. rewrite slice_length by done.
    rewrite Nat.div_same by (destruct Hwr; lia).
    destruct (Hleaf o w inp Ho HJ) as (L1 & L2 & L3).
    assert (Hlen : length (leaf (slice o w all) inp).1 = w).
    { rewrite <-(length_fmap live), L3, slice_length; [done|lia]. }
    destruct (layer_spec e He w 1 (slice o w srcs) (leaf (slice o w all) inp).1) as (bs' & E & R); [done|lia| | | | |].
    + apply slice_length. lia.
    + lia.
    + intros i src Hi. rewrite <-L3 in Hi. apply list_lookup_fmap_Some in Hi as (b & -> & Hi).
      rewrite Nat.mul_1_r. assert (slice i 1 (leaf (slice o w all) inp).1 = [b]) as ->.
      { unfold slice. by rewrite (drop_S _ b) by done. }
      apply routed_single. exact (Forall_lookup_1 _ _ _ _ L2 Hi).
    + rewrite Nat.mul_1_l. specialize (Hlight 1 0). rewrite EP in Hlight. cbn [take product] in Hlight.
      rewrite !Nat.mul_1_r, Nat.mul_0_l in Hlight. replace (slice 0 w (slice o w srcs)) with (slice o w srcs) in Hlight.
      * apply Hlight; [simpl; lia|]. rewrite slice_length; lia.
      * rewrite slice_slice by lia. f_equal. lia.
    + unfold leaf in *. exists bs', (if io =? 0 then (let '(bs, l, g) := fillBuckets nrpb (slice o w all) inp.1 inp.2 in (bs, (l, g))) else (slice o w all, inp)).2.
      destruct (io =? 0).
      * destruct (fillBuckets _ _ _ _) as [[bs0 l] g0]. cbn [fst snd mbind option_bind] in *. by rewrite E, Nat.mul_1_l in *.
      * cbn [fst snd mbind option_bind] in *. by rewrite E, Nat.mul_1_l in *.
  - destruct (lookup_lt_is_Some_2 ws (S m) Hm) as [w Hw]. rewrite (nth_lookup_Some _ _ _ _ Hw).
    pose proof (Forall_lookup_1 _ _ _ _ Hws Hw) as Hwr. set (W := product (take (S m) ws)).
    assert (EP : take (S (S m)) ws = take (S m) ws ++ [w]) by (by apply take_S_r).
    assert (HW : 0 < W) by (apply product_pos, ways_pos, Forall_take; done).
    assert (HP : P = w * W) by (subst P; rewrite EP, product_app; simpl; unfold W; lia).
    rewrite HP in *. rewrite slice_length by done. rewrite (Nat.mul_comm w W), Nat.div_mul by (destruct Hwr; lia).
    rewrite (Nat.mul_comm W w).
    destruct (mapS_inv (fun i inp => J (o + i * W) inp) (fun i y => routed (2 ^ e) W (concat (slice (i * W) W (slice o (w * W) srcs))) y)
      (KWayButterflySortBasic p nrpb io m) (blocks W w (slice o (w * W) all)) 0 inp) as (parts & inp' & -> & H1 & H2 & H3).
    + by rewrite Nat.mul_0_l, Nat.add_0_r.
    + intros j x inp1 Hj HJ1. cbn [Nat.add] in *. pose proof (lookup_lt_Some _ _ _ Hj) as Hlt. rewrite blocks_length in Hlt.
      rewrite blocks_lookup in Hj by done. injection Hj as <-. rewrite !slice_slice by nia.
      destruct (IH (o + j * W) inp1) as (y & inp2 & E & HJ2 & R); [lia|fold W; nia| |done|].
      * fold W. replace (slice (o + j * W) W srcs) with (slice (j * W) W (slice o (w * W) srcs)) by (apply slice_slice; nia).
        rewrite EP in Hlight. apply (light_block (2 ^ e) (take (S m) ws) [w]); [rewrite slice_length by lia; fold W; nia|by apply ways_pos, Forall_take|done].
      * exists y, inp2. split; [exact E|]. split; [by replace (o + S j * W) with (o + j * W + W) by lia|exact R].
    + rewrite blocks_length in H1, H2. cbn [Nat.add] in H1, H3. cbn [mbind option_bind].
      destruct (layer_spec e He w W (@concat _ <$> blocks W w (slice o (w * W) srcs)) (concat parts)) as (bs' & E & R); [done|done| | | | |].
      * by rewrite length_fmap, blocks_length.
      * by apply (blocks_routed (2 ^ e) (slice o (w * W) srcs) W w parts 0 []).
      * intros i src. by apply (blocks_routed (2 ^ e) (slice o (w * W) srcs) W w parts i src).
      * rewrite concat_fmap_concat, blocks_whole by (rewrite slice_length; lia).
        rewrite Nat.mul_comm, <-HP. apply light_all; [subst P; rewrite EP; by destruct (take (S m) ws)|rewrite slice_length; fold P; lia|].
        by rewrite HP.
      * rewrite E. cbn [mbind option_bind]. exists bs', inp'. split; [reflexivity|]. split; [done|].
        rewrite concat_fmap_concat, blocks_whole in R by (rewrite slice_length; lia). rewrite (Nat.mul_comm W w) in R. exact R.
Qed.
End basic.

(** ** The batches of a layer *)

Lemma blocks_cong {A} n k (l l' : list A) : slice 0 (k * n) l = slice 0 (k * n) l' -> blocks n k l = blocks n k l'.
Proof.
  intros H. unfold blocks. apply list_fmap_ext. intros j i Hj. apply lookup_seq in Hj as [-> Hj]. cbn [Nat.add].
  assert (E : forall m : list A, slice (j * n) n m = slice (j * n) n (slice 0 (k * n) m)) by (intros m; rewrite slice_slice by nia; f_equal; lia).
  by rewrite (E l), (E l'), H.
Qed.

Lemma pow2_pos e : 0 < 2 ^ e.
Proof. apply Nat.neq_0_lt_0, Nat.pow_nonzero. lia. Qed.

Section net.
Context {T G : Type} `{!RandGen G} `{!StdSort (TaggedT T)} (ltb : T -> T -> bool).
Context (p : KWayButterflyParams) (task : SortMethod) (singleBatch : bool) (nrpb fit e : nat).
Context (He : 1 <= e <= 27) (HZ : bucketSize p = 2 ^ e) (Hn : nrpb <= 2 ^ e).
Hypothesis Hways : Forall (fun ws => ws <> [] /\ Forall way_range ws) (ways p).
Implicit Types (bs ext : list (list (TaggedT T))) (s : sorter T G).
Abbreviation Zs := (2 ^ e).
Let K := numInternalWay p.
Let W := fetchInterval p.

Definition batch_ok s : Prop := Forall slot_ok (batch s).

Lemma layer_ways io ws : ways p !! io = Some ws -> ws <> [] /\ Forall way_range ws /\ nth io (ways p) [] = ws /\ K io = product ws.
Proof using He HZ Hn Hways.
  intros H. destruct (Forall_lookup_1 _ _ _ _ Hways H) as [H1 H2]. unfold K, numInternalWay.
  by rewrite (nth_lookup_Some _ _ _ _ H).
Qed.

Lemma K_pos io : 0 < K io.
Proof using He HZ Hn Hways.
  destruct (ways p !! io) as [ws|] eqn:E.
  - destruct (layer_ways io ws E) as (_ & H & _ & ->). by apply product_pos, ways_pos.
  - unfold K, numInternalWay. rewrite nth_overflow by (by apply lookup_ge_None_1). simpl. lia.
Qed.

(** All layers of [io] on buckets that are in the batch. *)
Lemma run_next io ws bs inp : ways p !! io = Some ws -> 0 < io -> length bs = K io -> Forall (bucket_ok Zs) bs ->
  light Zs ws (live <$> bs) ->
  exists bs', KWayButterflySortBasic p nrpb io (length ws - 1) bs inp = Some (bs', inp) /\ routed Zs (K io) (concat (live <$> bs)) bs'.
Proof using He HZ Hn Hways.
  intros Hio Hpos Hl Hok Hlight. destruct (layer_ways io ws Hio) as (Hne & Hwr & Hnth & HK).
  assert (Hlen : 0 < length ws) by (destruct ws; [done|simpl; lia]).
  assert (Et : take (S (length ws - 1)) ws = ws) by (apply take_ge; lia).
  pose proof (basic_spec p nrpb e He HZ io bs (live <$> bs) (fun _ i => i = inp)) as B. rewrite Hnth in B.
  specialize (B Hwr ltac:(by rewrite length_fmap)). destruct B with (m := length ws - 1) (o := 0) (inp := inp)
    as (bs' & inp' & E & -> & R); clear B; rewrite ?Et, <-?HK in *; [|lia|lia| |done|].
  - intros o n i Ho ->. unfold leaf. rewrite (proj2 (Nat.eqb_neq io 0)) by lia. cbn [fst snd]. split; [done|].
    split; [unfold slice; by apply Forall_take, Forall_drop|apply slice_fmap].
  - by rewrite slice_0_all by (by rewrite length_fmap).
  - exists bs'. rewrite (slice_0_all bs) in E by done.
    rewrite (slice_0_all (live <$> bs)) in R by (by rewrite length_fmap). done.
Qed.

(** All layers of the first pass, on buckets it fills from the input. *)
Lemma run_first ws bs (l : list T) (g : G) : ways p !! 0 = Some ws -> length bs = K 0 -> Forall (bucket_ok Zs) bs ->
  light Zs ws (blocks nrpb (K 0) (tagged l g)) ->
  exists bs' inp', KWayButterflySortBasic p nrpb 0 (length ws - 1) bs (l, g) = Some (bs', inp') /\
    filled_as (K 0 * nrpb) l g inp' /\ routed Zs (K 0) (concat (blocks nrpb (K 0) (tagged l g))) bs'.
Proof using He HZ Hn Hways.
  intros Hio Hl Hok Hlight. destruct (layer_ways 0 ws Hio) as (Hne & Hwr & Hnth & HK).
  assert (Hlen : 0 < length ws) by (destruct ws; [done|simpl; lia]).
  assert (Et : take (S (length ws - 1)) ws = ws) by (apply take_ge; lia).
  pose proof (basic_spec p nrpb e He HZ 0 bs (blocks nrpb (K 0) (tagged l g)) (fun o i => filled_as (o * nrpb) l g i)) as B.
  rewrite Hnth in B. specialize (B Hwr ltac:(by rewrite blocks_length)).
  destruct B with (m := length ws - 1) (o := 0) (inp := (l, g)) as (bs' & inp' & E & F & R);
    clear B; rewrite ?Et, <-?HK in *; [|lia|lia| |done|].
  - intros o n [l1 g1] Ho HF. rewrite Hl in Ho. unfold leaf. cbn [Nat.eqb fst snd].
    pose proof (fillBuckets_spec nrpb Zs Hn (slice o n bs) l1 g1 ltac:(unfold slice; by apply Forall_take, Forall_drop)) as B.
    rewrite slice_length in B by lia. destruct (fillBuckets nrpb (slice o n bs) l1 g1) as [[bs1 l2] g2]. cbn [fst snd].
    destruct B as (B1 & B2 & B3). split; [|split; [done|]].
    + rewrite Nat.mul_add_distr_r. by eapply filled_as_trans.
    + rewrite B2. destruct HF as [_ HF]. cbn [fst snd] in HF. rewrite HF. rewrite blocks_slice by done.
      apply blocks_cong. rewrite slice_slice by lia. unfold slice. rewrite drop_drop. done.
  - by rewrite slice_0_all by apply blocks_length.
  - exists bs', inp'. rewrite (slice_0_all bs) in E by done. rewrite slice_0_all in R by apply blocks_length. done.
Qed.

(** ** The layers over the external array *)

(** The ways of the layers below [io], lowest first. *)
Definition lows io : list nat := concat (take io (ways p)).

Lemma product_concat (ll : list (list nat)) : product (concat ll) = product (product <$> ll).
Proof using Type. induction ll as [|l ll IH]; [done|]. rewrite concat_cons, product_app, IH. done. Qed.

Lemma W_lows io : W io = product (lows io).
Proof using Type. unfold W, fetchInterval, lows. by rewrite product_concat. Qed.

Lemma lows_S io ws : ways p !! io = Some ws -> lows (S io) = lows io ++ ws.
Proof using Type. intros H. unfold lows. rewrite (take_S_r _ _ _ H), concat_app. simpl. by rewrite app_nil_r. Qed.

Lemma lows_range io : Forall way_range (lows io).
Proof using He HZ Hn Hways.
  apply Forall_concat, Forall_take. eapply Forall_impl; [exact Hways|]. by intros ws [_ H].
Qed.

Lemma W_pos io : 0 < W io.
Proof using He HZ Hn Hways. rewrite W_lows. apply product_pos, ways_pos, lows_range. Qed.

Lemma batchCount_eq io : divUp (W io * K io * Zs) (K io * Zs) = W io.
Proof using He HZ Hn Hways.
  pose proof (K_pos io). pose proof (pow2_pos e). pose proof (divUp_bounds (W io * K io * Zs) (K io * Zs) ltac:(nia)) as H1.
  set (d := divUp _ _) in *. nia.
Qed.

(** What a pass over the array leaves of the sorter: [k] elements are read,
    nothing is written to the output. *)
Record kept (k : nat) s s' : Prop := {
  kept_input : filled_as k (inputReader s) (gen s) (inputReader s', gen s');
  kept_batch : batch_ok s';
  kept_size : length (batch s') = length (batch s);
  kept_output : outputWriter s' = outputWriter s;
  kept_ranges : mergeSortRanges s' = mergeSortRanges s }.

Lemma kept_refl s : batch_ok s -> kept 0 s s.
Proof using Type. intros H. split; [split|..]; done. Qed.

Lemma kept_trans k1 k2 s1 s2 s3 : kept k1 s1 s2 -> kept k2 s2 s3 -> kept (k1 + k2) s1 s3.
Proof using Type.
  intros [A1 A2 A3 A4 A5] [B1 B2 B3 B4 B5]. split; [by eapply filled_as_trans|done|congruence..].
Qed.

Abbreviation run := (runBatch p nrpb).
Abbreviation process := (processBatch ltb p task singleBatch nrpb fit).
Abbreviation sorting := (KWayButterflySort ltb p task singleBatch nrpb fit).

(** What running a batch at [off] leaves: its buckets, routed from [src], are
    in the batch there, and the rest of the batch is as before. *)
Record ran (io off k : nat) src s bs s' : Prop := {
  ran_routed : routed Zs (K io) src bs;
  ran_kept : kept k s s';
  ran_slice : slice off (K io * Zs) (batch s') = concat bs;
  ran_frame : forall q, q < off \/ off + K io * Zs <= q -> batch s' !! q = batch s !! q }.

Lemma bucket_lengths bs : Forall (bucket_ok Zs) bs -> Forall (fun b => length b = Zs) bs.
Proof using Type. intros H. eapply Forall_impl; [exact H|]. by intros b [? _]. Qed.

Lemma routed_concat_length io src bs : routed Zs (K io) src bs -> length (concat bs) = K io * Zs.
Proof using Type.
  intros R. rewrite (concat_length_eq Zs), (routed_length _ _ _ _ R); [done|]. apply bucket_lengths, R.
Qed.

(** A batch that fetches a column of routed blocks. *)
Lemma run_batch_next io ws j off ext s : ways p !! io = Some ws -> 0 < io -> off + K io * Zs <= length (batch s) -> batch_ok s ->
  Forall (bucket_ok Zs) (gather (K io) (W io) j ext) -> light Zs ws (live <$> gather (K io) (W io) j ext) ->
  exists bs s', run io off j ext s = Some (bs, s') /\ ran io off 0 (concat (live <$> gather (K io) (W io) j ext)) s bs s'.
Proof using He HZ Hn Hways.
  intros Hio Hpos Hfit Hb Hok Hlight. destruct (layer_ways io ws Hio) as (_ & _ & Hnth & _).
  assert (Hlc : length (concat (gather (K io) (W io) j ext)) = K io * Zs) by (by rewrite (concat_length_eq Zs), gather_length by (by apply bucket_lengths)).
  destruct (write_at_Some off (concat (gather (K io) (W io) j ext)) (batch s)) as (b & Eb & L & Sl & Hq); [by rewrite Hlc|].
  rewrite Hlc in *.
  assert (Ebl : blocks Zs (K io) (drop off b) = gather (K io) (W io) j ext).
  { rewrite <-(blocks_of_concat Zs (gather (K io) (W io) j ext)) by (by apply bucket_lengths). rewrite gather_length. apply blocks_cong.
    rewrite (slice_0_all (concat _)) by done. rewrite <-Sl. unfold slice. by rewrite drop_0. }
  destruct (run_next io ws (gather (K io) (W io) j ext) (inputReader s, gen s)) as (bs' & E & R); [done|done|apply gather_length|done|done|].
  pose proof (routed_concat_length _ _ _ R) as Hl.
  destruct (write_at_Some off (concat bs') b) as (b2 & E3 & L3 & Sl3 & Hq3); [rewrite Hl, L; done|]. rewrite Hl in *.
  assert (Hbs : Forall slot_ok b) by (eapply write_at_Forall; [exact Eb|by eapply buckets_slots|done]).
  assert (Hbs2 : Forall slot_ok b2) by (eapply write_at_Forall; [exact E3|eapply buckets_slots, R|done]).
  unfold runBatch. fold (K io) (W io). rewrite Hnth, HZ. destruct io as [|io]; [lia|].
  rewrite Eb. cbn [mbind option_bind]. rewrite Ebl, E. cbn [mbind option_bind]. rewrite E3. cbn [mbind option_bind].
  exists bs'. eexists. split; [reflexivity|]. split; [done| |done|].
  - split; cbn [inputReader gen batch outputWriter mergeSortRanges]; done || lia.
  - intros q H. cbn [batch]. by rewrite Hq3, Hq.
Qed.

(** The batch of the first layer, which is filled from the input. *)
Lemma run_batch_first io ws j off ext s : io = 0 -> ways p !! io = Some ws -> off + K io * Zs <= length (batch s) -> batch_ok s ->
  light Zs ws (blocks nrpb (K io) (tagged (inputReader s) (gen s))) ->
  exists bs s', run io off j ext s = Some (bs, s') /\
    ran io off (K io * nrpb) (concat (blocks nrpb (K io) (tagged (inputReader s) (gen s)))) s bs s'.
Proof using He HZ Hn Hways.
  intros -> Hio Hfit Hb Hlight. destruct (layer_ways 0 ws Hio) as (_ & _ & Hnth & _).
  assert (Hbk : Forall (bucket_ok Zs) (blocks Zs (K 0) (drop off (batch s)))).
  { apply Forall_lookup. intros i b Hi. pose proof (lookup_lt_Some _ _ _ Hi) as Hlt. rewrite blocks_length in Hlt.
    rewrite blocks_lookup in Hi by done. injection Hi as <-. split; [apply slice_length; rewrite length_drop; nia|].
    unfold slice. by apply Forall_take, Forall_drop, Forall_drop. }
  destruct (run_first ws (blocks Zs (K 0) (drop off (batch s))) (inputReader s) (gen s)) as (bs' & [l g] & E & F & R);
    [done|apply blocks_length|done|done|].
  pose proof (routed_concat_length _ _ _ R) as Hl.
  destruct (write_at_Some off (concat bs') (batch s)) as (b2 & E3 & L3 & Sl3 & Hq3); [by rewrite Hl|]. rewrite Hl in *.
  assert (Hbs2 : Forall slot_ok b2) by (eapply write_at_Forall; [exact E3|eapply buckets_slots, R|done]).
  unfold runBatch. fold (K 0) (W 0). rewrite Hnth, HZ. rewrite (proj2 (Nat.leb_le _ _)) by done. cbn [mbind option_bind].
  rewrite E. cbn [mbind option_bind]. rewrite E3. cbn [mbind option_bind].
  exists bs'. eexists. split; [reflexivity|]. split; [done| |done|done].
  split; cbn [inputReader gen batch outputWriter mergeSortRanges]; done || lia.
Qed.

Lemma not_last_bpe io : isLastLayer p io = false -> batchPerEnclave p task fit io = 1.
Proof using Type. intros H. unfold batchPerEnclave. rewrite H. by destruct task. Qed.

Lemma process_not_last io j count ext s : isLastLayer p io = false ->
  process io count j (ext, s) = ('(bs, s) ← run io 0 j ext s; Some (put (W io) j 0 bs ext, s)).
Proof using Type.
  intros Hlast. unfold processBatch. rewrite not_last_bpe, Hlast by done. cbn [Nat.eqb]. rewrite Nat.mod_1_r, Nat.mul_0_l. done.
Qed.

(** The sources of the [n] buckets that are filled next. *)
Definition sources n s : list (list (TaggedT T)) := blocks nrpb n (tagged (inputReader s) (gen s)).

Lemma sources_kept i n m s s' : kept (i * nrpb) s s' -> i + n <= m -> sources n s' = slice i n (sources m s).
Proof using He HZ Hn Hways.
  intros [[_ HF] _ _ _ _] H. cbn [fst snd] in HF. unfold sources. rewrite HF, blocks_slice by done.
  apply blocks_cong. unfold slice. rewrite !drop_0, take_take. f_equal. lia.
Qed.

(** The sub-ranges of a layer, one after the other. *)
Lemma sub_ranges_spec io (f : nat -> list (list (TaggedT T)) -> sorter T G -> option (list (list (TaggedT T)) * sorter T G)) ext s k :
  0 < W io -> length ext = k * W io -> batch_ok s ->
  (forall s' i, i < k -> batch_ok s' -> kept (i * W io * nrpb) s s' -> exists ext' s'',
     f (W io) (slice (i * W io) (W io) ext) s' = Some (ext', s'') /\ kept (W io * nrpb) s' s'' /\
     routed Zs (W io) (concat (slice (i * W io) (W io) (sources (k * W io) s))) ext') ->
  exists parts s', mapS (f (W io)) (blocks (W io) k ext) s = Some (parts, s') /\ kept (k * W io * nrpb) s s' /\
    length (concat parts) = k * W io /\
    (forall i src, (@concat _ <$> blocks (W io) k (sources (k * W io) s)) !! i = Some src ->
       routed Zs (W io) src (slice (i * W io) (W io) (concat parts))).
Proof using He HZ Hn Hways.
  intros HW Hl Hb Hf.
  destruct (mapS_inv (fun i s' => kept (i * W io * nrpb) s s')
    (fun i y => routed Zs (W io) (concat (slice (i * W io) (W io) (sources (k * W io) s))) y)
    (f (W io)) (blocks (W io) k ext) 0 s) as (parts & s' & E & H1 & H2 & H3).
  - by apply kept_refl.
  - intros j x s1 Hj HI. cbn [Nat.add] in *. pose proof (lookup_lt_Some _ _ _ Hj) as Hlt. rewrite blocks_length in Hlt.
    rewrite blocks_lookup in Hj by done. injection Hj as <-.
    destruct (Hf s1 j Hlt (kept_batch _ _ _ HI) HI) as (ext' & s2 & E & HK & R). exists ext', s2. split; [done|]. split; [|done].
    replace (S j * W io * nrpb) with (j * W io * nrpb + W io * nrpb) by lia. by eapply kept_trans.
  - rewrite blocks_length in H1, H2. cbn [Nat.add] in H1, H3. exists parts, s'. split; [done|]. split; [done|].
    split; [by apply (blocks_routed Zs (sources (k * W io) s) (W io) k parts 0 [])|].
    intros i src. by apply (blocks_routed Zs (sources (k * W io) s) (W io) k parts i src).
Qed.

(** The loads of a layer's batches, from the load of the whole network. *)
Lemma column_light io ws j srcs ext : ways p !! io = Some ws -> length srcs = K io * W io -> length ext = K io * W io ->
  j < W io -> light Zs (lows io ++ ws) srcs ->
  (forall i src, (@concat _ <$> blocks (W io) (K io) srcs) !! i = Some src -> routed Zs (W io) src (slice (i * W io) (W io) ext)) ->
  light Zs ws (live <$> gather (K io) (W io) j ext).
Proof using He HZ Hn Hways.
  intros Hio Hs He' Hj Hlight Hr. pose proof (W_pos io) as HW. pose proof (K_pos io) as HK.
  destruct (layer_ways io ws Hio) as (_ & Hwr & _ & _).
  apply (light_perm Zs ws ((fun src => share (W io) j src) <$> (@concat _ <$> blocks (W io) (K io) srcs))).
  - apply Forall2_same_length_lookup_2; [by rewrite !length_fmap, blocks_length, gather_length|].
    intros i x y Hx Hy. apply list_lookup_fmap_Some in Hx as (src & -> & Hx). apply list_lookup_fmap_Some in Hy as (b & -> & Hy).
    pose proof (lookup_lt_Some _ _ _ Hx) as Hi. rewrite length_fmap, blocks_length in Hi.
    destruct (column_entry Zs (K io) (W io) (@concat _ <$> blocks (W io) (K io) srcs) ext HW HK
      ltac:(by rewrite length_fmap, blocks_length) He' Hr i j Hi Hj) as (src' & b' & E1 & _ & E2 & _ & H). simplify_eq. done.
  - rewrite W_lows in *. apply light_column; [done| |done|done].
    apply Forall_app. split; apply ways_pos; [apply lows_range|done].
Qed.

Lemma ext_layers io : forall n ext s, isLastLayer p io = false -> io < length (ways p) -> (forall i, i < io -> isLastLayer p i = false) ->
  n = product (lows (S io)) -> length ext = n -> batch_ok s -> (forall i, i <= io -> K i * Zs <= length (batch s)) ->
  light Zs (lows (S io)) (sources n s) ->
  exists ext' s', sorting io n ext s = Some (ext', s') /\ kept (n * nrpb) s s' /\ routed Zs n (concat (sources n s)) ext'.
Proof using He HZ Hn Hways.
  induction io as [|io IH]; intros n ext s Hlast Hlt Hlow Hnn Hext Hb Hfit Hlight;
    destruct (lookup_lt_is_Some_2 (ways p) _ Hlt) as [ws Hio]; destruct (layer_ways _ ws Hio) as (Hne & Hwr & Hnth & HK).
  - assert (En : n = K 0) by (rewrite Hnn, (lows_S 0 ws Hio), HK; done).
    rewrite En in Hext, Hlight |- *. clear Hnn En.
    cbn [KWayButterflySort mbind option_bind]. rewrite HZ. fold (K 0).
    pose proof (batchCount_eq 0) as Ec. change (W 0) with 1 in Ec. rewrite Nat.mul_1_l in Ec.
    rewrite Ec. cbn [loopM]. rewrite (lows_S 0 ws Hio) in Hlight. change (lows 0 ++ ws) with ws in Hlight.
    destruct (run_batch_first 0 ws 0 0 ext s eq_refl Hio (Hfit 0 ltac:(lia)) Hb Hlight) as (bs' & s' & E & [R HKp _ _]).
    rewrite process_not_last, E by done. cbn [mbind option_bind]. exists bs', s'. split; [|done]. do 2 f_equal.
    pose proof (routed_length _ _ _ _ R) as Hbl. change (W 0) with 1.
    apply list_eq_same_length with (K 0); [done|by rewrite put_length|]. intros i x y Hi Hx Hy.
    replace i with ((0 + i) * 1 + 0) in Hx by lia. rewrite put_lookup in Hx by lia. congruence.
  - pose proof (W_pos (S io)) as HW. pose proof (K_pos (S io)) as HKp. set (w := W (S io)) in *. set (k := K (S io)) in *.
    assert (En : n = k * w) by (rewrite Hnn, (lows_S _ ws Hio), product_app, <-W_lows, <-HK; fold w k; lia).
    cbn [KWayButterflySort]. rewrite HZ. change (numInternalWay p (S io)) with k. assert (Esub : n / k = w) by (rewrite En, Nat.mul_comm, Nat.div_mul; lia). rewrite Esub.
    rewrite (lows_S _ ws Hio) in Hlight.
    destruct (sub_ranges_spec (S io) (sorting io) ext s k) as (parts & s1 & E1 & K1 & L1 & R1);
      [done|by rewrite Hext, En|done| |change (W (S io)) with w in K1, L1, R1, E1].
    { fold w. intros s' i Hi Hb' HKi. rewrite <-En.
      destruct (IH w (slice (i * w) w ext) s') as (ext' & s2 & E & H1 & H2).
      - apply Hlow. lia.
      - lia.
      - intros q Hq. apply Hlow. lia.
      - unfold w. apply W_lows.
      - apply slice_length. rewrite Hext, En. nia.
      - done.
      - intros q Hq. rewrite (kept_size _ _ _ HKi). apply Hfit. lia.
      - rewrite (sources_kept (i * w) w n s s' HKi) by nia. unfold w. rewrite W_lows. eapply light_block; [|apply ways_pos, lows_range|exact Hlight].
        rewrite <-W_lows. fold w. unfold sources. rewrite blocks_length, En. nia.
      - exists ext', s2. split; [exact E|]. split; [done|]. by rewrite <-(sources_kept (i * w) w n s s') by (done || nia). }
    rewrite E1. cbn [mbind option_bind].
    pose proof (batchCount_eq (S io)) as Ec. fold k w in Ec. rewrite (Nat.mul_comm w k), <-En in Ec. rewrite Ec.
    set (ext1 := concat parts) in *. rewrite <-En in K1, R1.
    pose (I := fun j (st : list (list (TaggedT T)) * sorter T G) => length st.1 = k * w /\ kept (n * nrpb) s st.2 /\
      (forall i, i < j -> i < w -> routed Zs k (concat (live <$> gather k w i ext1)) (gather k w i st.1)) /\
      (forall i, j <= i < w -> gather k w i st.1 = gather k w i ext1)).
    assert (Hsl : length (sources n s) = k * w) by (unfold sources; by rewrite blocks_length, En).
    assert (Hcl : length (@concat _ <$> blocks w k (sources n s)) = k) by (by rewrite length_fmap, blocks_length).
    destruct (loopM_inv I (process (S io) w) w 0 (ext1, s1)) as ([ext' s'] & E & I1 & I2 & I3 & _).
    + unfold I; cbn [fst snd]. split; [exact L1|]. split; [done|]. split; [lia|done].
    + intros j [cur s2] Hj (J1 & J2 & J3 & J4). cbn [Nat.add fst snd] in *.
      assert (Hg : gather k w j cur = gather k w j ext1) by (apply J4; lia).
      destruct (run_batch_next (S io) ws j 0 cur s2) as (bs' & s3 & E & [H2 H1 _ _]);
        [done|lia|rewrite (kept_size _ _ _ J2); apply Hfit; lia|apply (kept_batch _ _ _ J2)| | |].
      * fold k w. rewrite Hg. apply (column_ok Zs k w _ ext1 HW HKp Hcl L1 R1). lia.
      * fold k w. rewrite Hg. apply (column_light (S io) ws j (sources n s) ext1 Hio Hsl L1); [fold w; lia|done|exact R1].
      * fold k w in H2. rewrite Hg in H2. rewrite process_not_last, E by done. cbn [mbind option_bind].
        eexists. split; [reflexivity|].
        pose proof (routed_length _ _ _ _ H2) as Hlb. unfold I. cbn [fst snd]. split; [by rewrite put_length|].
        split; [rewrite <-(Nat.add_0_r (n * nrpb)); by eapply kept_trans|]. split.
        -- intros i Hi Hiw. destruct (decide (i = j)) as [->|Hne'].
           ++ by rewrite (gather_put k w HW) by (done || lia).
           ++ rewrite (gather_put_ne k w HW) by (done || lia). apply J3; lia.
        -- intros i Hi. rewrite (gather_put_ne k w HW) by (done || lia). apply J4. lia.
    + cbn [fst snd] in *. exists ext', s'. split; [exact E|]. split; [done|].
      pose proof (columns_routed Zs k w (@concat _ <$> blocks w k (sources n s)) ext1 HW HKp Hcl ltac:(by rewrite L1) R1 ext' I1) as Hfin.
      rewrite concat_fmap_concat, blocks_whole in Hfin by done. rewrite En at 1. rewrite (Nat.mul_comm k w). apply Hfin.
      intros j Hj. apply I3; lia.
Qed.
End net.
