(* ===== verification/ButterflyCorrect.v ===== *)
(** * Flex-way butterfly sort and shuffle: correctness

    The last layer, and the theorems on [KWayButterflySorting] and
    [KWayButterflyOShuffle]. *)
From S2P Require Import Prelude Utils Bitonic OrCompact MergeSplit MergeSort Routing Butterfly ButterflyNet.

(** ** The order of the output *)

(** Cutting a list by a number that is below [m]. *)
Lemma partition_filter {A} (f : A -> nat) (l : list A) m c :
  concat ((fun r => filter (fun x => f x = r) l) <$> seq c m) ≡ₚ filter (fun x => c <= f x < c + m) l.
Proof.
  revert c. induction m as [|m IH]; intros c.
  - symmetry. apply reflexive_eq, filter_none. intros x _. lia.
  - cbn [seq]. rewrite fmap_cons, concat_cons, IH. clear IH. induction l as [|x l IHl]; [done|].
    rewrite !filter_cons. destruct (decide (f x = c)), (decide (S c <= f x < S c + m)), (decide (c <= f x < c + S m)); try lia; cbn [app].
    + by rewrite IHl.
    + by rewrite <-Permutation_middle, IHl.
    + exact IHl.
Qed.

Lemma fmap_concat {A B} (f : A -> B) (ls : list (list A)) : (f <$> concat ls : list B) = @concat B (((fun l => f <$> l) : list A -> list B) <$> ls).
Proof. apply concat_map. Qed.

Section order.
Context {T : Type}.
Implicit Types (x : TaggedT T) (b src : list (TaggedT T)).

(** The place of the bucket of [x] in the output: batch by batch, [W] batches
    of [K] buckets. *)
Definition place (W K : nat) x : nat :=
  (Z.to_nat (tag x mod Z.of_nat W) * K + Z.to_nat (tag x / Z.of_nat W mod Z.of_nat K))%nat.

(** The key the shuffle sorts by. *)
Definition rank (W K : nat) x : Z := (Z.of_nat (place W K x) * 2 ^ 63 + tag x / Z.of_nat (W * K))%Z.
Definition rank_le (W K : nat) x y : Prop := (rank W K x <= rank W K y)%Z.

Lemma place_bound W K x : 0 < W -> 0 < K -> place W K x < W * K.
Proof.
  intros HW HK. unfold place.
  pose proof (Z.mod_pos_bound (tag x) (Z.of_nat W) ltac:(lia)). pose proof (Z.mod_pos_bound (tag x / Z.of_nat W) (Z.of_nat K) ltac:(lia)).
  assert (Z.to_nat (tag x mod Z.of_nat W) <= W - 1) by lia. nia.
Qed.

Lemma place_goes W K i j x : i < K -> j < W -> goes_to (W * K) (i * W + j) x <-> place W K x = j * K + i.
Proof.
  intros Hi Hj. rewrite <-(goes_to_mul W K i j) by lia. unfold goes_to, place, shifted, withTag. cbn [tag].
  pose proof (Z.mod_pos_bound (tag x) (Z.of_nat W) ltac:(lia)). pose proof (Z.mod_pos_bound (tag x / Z.of_nat W) (Z.of_nat K) ltac:(lia)).
  set (a := (tag x mod Z.of_nat W)%Z) in *. set (c := (tag x / Z.of_nat W mod Z.of_nat K)%Z) in *.
  split; [intros [-> ->]; by rewrite !Nat2Z.id|]. intros E.
  assert (Z.to_nat c < K) by lia. assert (Z.to_nat a = j) by nia.
  nia.
Qed.

#[export] Instance cmpTag_swo : StrictWeakOrder (cmpTag (T := T)).
Proof. split; unfold cmpTag; intros; lia. Qed.

Lemma sorted_live (R : TaggedT T -> TaggedT T -> Prop) b : StronglySorted R b -> StronglySorted R (live b).
Proof.
  induction 1 as [|x b Hs IH Hf]; [constructor|]. destruct (isDummy x) eqn:E; [by rewrite live_dummy|].
  rewrite live_real by done. constructor; [done|]. unfold live. rewrite Forall_forall in *. intros y [_ Hy]%list_elem_of_filter. by apply Hf.
Qed.

Lemma fmap_perm_inv {A B} (f : A -> B) (l : list B) (k : list A) : l ≡ₚ f <$> k -> exists k', l = f <$> k' /\ k' ≡ₚ k.
Proof.
  intros H. apply Permutation_map_inv in H as (k' & E & Hp). exists k'. by split.
Qed.

(** A bucket after [BitonicSort] by tag: its real elements in the order of what
    is left of their tags. *)
Lemma bucket_order P q b src : (Z.of_nat (length b) <= 2 ^ 63)%Z -> live b ≡ₚ share P q src ->
  exists F, F ≡ₚ filter (goes_to P q) src /\ live (BitonicSort cmpTag b) = shifted P <$> F /\
    StronglySorted (fun x y => (tag x / Z.of_nat P <= tag y / Z.of_nat P)%Z) F.
Proof.
  intros Hl Hb. pose proof (sorted_live _ _ (BitonicSort_dire_sorted cmpTag b Hl)) as Hs.
  assert (Hp : live (BitonicSort cmpTag b) ≡ₚ shifted P <$> filter (goes_to P q) src).
  { unfold BitonicSort. rewrite BitonicSort_dire_perm. exact Hb. }
  apply fmap_perm_inv in Hp as (F & EF & HF). exists F. split; [done|]. split; [done|].
  fold (BitonicSort cmpTag b) in Hs. rewrite EF in Hs. clear -Hs. induction F as [|x F IH]; [constructor|].
  rewrite fmap_cons in Hs. inversion_clear Hs as [|? ? H1 H2]. constructor; [by apply IH|].
  rewrite Forall_forall in *. intros y Hy. specialize (H2 (shifted P y) ltac:(apply list_elem_of_fmap; by exists y)).
  unfold cmp_le, cmpTag, shifted, withTag in H2. cbn [tag] in H2. lia.
Qed.
End order.

(** The elements whose place is in a range. *)
Definition placed (W K c d : nat) {T} (src : list (TaggedT T)) : list (TaggedT T) := filter (fun x => c <= place W K x < d) src.

Lemma placed_nil W K c {T} (src : list (TaggedT T)) : placed W K c c src = [].
Proof. apply filter_none. intros x _. lia. Qed.

Section emission.
Context {T : Type} (W K j Zs : nat) (src : list (TaggedT T)).
Hypothesis HW : j < W.
Hypothesis Hsrc : Forall real_ok src.
Hypothesis HZs : (Z.of_nat Zs <= 2 ^ 63)%Z.
Implicit Types (bs : list (list (TaggedT T))) (x y : TaggedT T).

Lemma placed_cut c d m : c <= d <= m -> placed W K c m src ≡ₚ placed W K c d src ++ placed W K d m src.
Proof using Type.
  clear HW HZs Hsrc. intros H. unfold placed. induction src as [|x l IH]; [done|]. rewrite !filter_cons.
  destruct (decide (c <= place W K x < m)), (decide (c <= place W K x < d)), (decide (d <= place W K x < m)); try lia.
  - cbn [app]. by rewrite IH.
  - by rewrite <-Permutation_middle, IH.
  - exact IH.
Qed.

Lemma rank_place x y : real_ok x -> real_ok y -> place W K x < place W K y -> rank_le W K x y.
Proof using Type.
  clear HW HZs Hsrc. intros [Hx0 Hx] [Hy0 Hy] H. unfold rank_le, rank.
  assert (B : forall t, (0 <= t < 2 ^ 63)%Z -> (0 <= t / Z.of_nat (W * K) < 2 ^ 63)%Z).
  { intros t Ht. destruct (decide (W * K = 0)) as [->|Hne]; [rewrite Z.div_0_r; lia|]. split; [apply Z.div_pos; lia|].
    apply Z.div_lt_upper_bound; [lia|]. apply Z.lt_le_trans with (1 * 2 ^ 63)%Z; [lia|]. apply Z.mul_le_mono_nonneg_r; lia. }
  pose proof (B _ (conj Hx0 Hx)). pose proof (B _ (conj Hy0 Hy)). lia.
Qed.

(** What the buckets from [i0] on emit, after the sort by tag. *)
Lemma emission_from bs : forall i0,
  Forall (bucket_ok Zs) bs -> (forall i b, bs !! i = Some b -> live b ≡ₚ share (W * K) ((i0 + i) * W + j) src) -> i0 + length bs <= K ->
  exists ord, concat (emit <$> (BitonicSort cmpTag <$> bs)) = v <$> ord /\
    ord ≡ₚ placed W K (j * K + i0) (j * K + i0 + length bs) src /\ StronglySorted (rank_le W K) ord.
Proof.
  induction bs as [|b bs IH]; intros i0 Hok Hb Hl.
  - exists []. split; [done|]. split; [|constructor]. symmetry. apply reflexive_eq, filter_none. intros x _. simpl. lia.
  - apply Forall_cons in Hok as [[Hlb _] Hok]. rewrite length_cons in Hl.
    destruct (IH (S i0) Hok) as (ord & E & Hp & Hs); [|lia|].
    { intros i b' Hi. rewrite Nat.add_succ_comm. by apply Hb. }
    destruct (bucket_order (W * K) ((i0 + 0) * W + j) b src) as (F & HF & EF & HFs); [by rewrite Hlb|by apply Hb|].
    assert (HF' : F ≡ₚ placed W K (j * K + i0) (j * K + S i0) src).
    { rewrite HF. apply reflexive_eq. unfold placed. apply filter_ext_in. intros x _. rewrite Nat.add_0_r, place_goes by lia. lia. }
    assert (HFx : forall x, x ∈ F -> real_ok x /\ place W K x = j * K + i0).
    { intros x Hx. rewrite HF' in Hx. apply list_elem_of_filter in Hx as [Hx Hin]. rewrite Forall_forall in Hsrc. split; [by apply Hsrc|lia]. }
    exists (F ++ ord). split_and!.
    + rewrite !fmap_cons, concat_cons, fmap_app, <-E. f_equal. unfold emit. rewrite EF, <-list_fmap_compose. done.
    + rewrite Hp, HF', length_cons. replace (j * K + i0 + S (length bs)) with (j * K + S i0 + length bs) by lia.
      symmetry. apply placed_cut. lia.
    + apply StronglySorted_app_iff. split_and!; [|done|].
      * clear -HFs HFx. induction HFs as [|x F Hs IH Hf]; constructor.
        -- apply IH. intros y Hy. apply HFx. by right.
        -- rewrite Forall_forall in *. intros y Hy. specialize (Hf y Hy). destruct (HFx x ltac:(left)) as [_ Ex].
           destruct (HFx y ltac:(by right)) as [_ Ey]. unfold rank_le, rank. rewrite Ex, Ey. lia.
      * intros x y Hx Hy. destruct (HFx x Hx) as [Hrx Ex]. rewrite Hp in Hy. apply list_elem_of_filter in Hy as [Hy Hin].
        apply rank_place; [done|rewrite Forall_forall in Hsrc; by apply Hsrc|lia].
Qed.
End emission.

(** ** Chunks of the output *)

Section chunk.
Context {T G : Type} `{!RandGen G} `{!StdSort (TaggedT T)} `{!StdSortOk (TaggedT T)} (ltb : T -> T -> bool) `{!StrictWeakOrder ltb}.
Context (task : SortMethod) (singleBatch : bool).
Implicit Types s : sorter T G.

#[export] Instance cmpVal_swo : StrictWeakOrder (cmpVal ltb).
Proof.
  split; unfold cmpVal; intros *; [apply swo_asym|]. intros H1 H2. by apply (swo_negtrans _ (v b)).
Qed.

Lemma sorted_values (l : list (TaggedT T)) : StronglySorted (cmp_le (cmpVal ltb)) l -> StronglySorted (cmp_le ltb) (v <$> l).
Proof using Type.
  induction 1 as [|x l _ IH Hf]; [constructor|]. rewrite fmap_cons. constructor; [done|]. by apply Forall_fmap.
Qed.

(** Flushing the first [m] slots of the batch. *)
Lemma sortChunk_spec size count s : let m := size * count in
  batch_ok s -> m <= length (batch s) -> Exists (fun x => isDummy x = true) (take m (batch s)) ->
  exists s' chunk, sortChunk ltb task singleBatch size count s = Some s' /\ batch_ok s' /\ length (batch s') = length (batch s) /\
    chunk ≡ₚ v <$> live (take m (batch s)) /\ StronglySorted (cmp_le ltb) chunk /\ outputWriter s' = outputWriter s ++ chunk /\
    mergeSortRanges s' = (if needsExtMerge task singleBatch
      then mergeSortRanges s ++ [(length (outputWriter s), length (outputWriter s ++ chunk))] else mergeSortRanges s).
Proof.
  intros m Hb Hm Hd. unfold sortChunk. fold m. destruct (partitionDummy_spec (take m (batch s))) as (arr & r & -> & HP).
  - intros E. rewrite E in Hd. by apply Exists_nil in Hd.
  - by left.
  - cbn [mbind option_bind]. destruct (partitioned_live _ _ _ HP) as [Hl Hp]. destruct HP as [Hperm _].
    pose proof (std_sort_perm (cmpVal ltb) (take r arr) _) as Hsp.
    assert (Hall : std_sort (cmpVal ltb) (take r arr) ++ drop r arr ≡ₚ take m (batch s)) by (by rewrite Hsp, take_drop).
    destruct (write_at_Some 0 (std_sort (cmpVal ltb) (take r arr) ++ drop r arr) (batch s)) as (b & E & L & _ & _).
    { rewrite Hall, length_take. lia. }
    rewrite E. cbn [mbind option_bind]. eexists _, (v <$> std_sort (cmpVal ltb) (take r arr)). split; [reflexivity|].
    unfold batch_ok. cbn [batch outputWriter mergeSortRanges]. split_and!; [|done| | |done|done].
    + eapply write_at_Forall; [exact E| |done]. rewrite Hall. by apply Forall_take.
    + unfold live. rewrite Hp, Hsp. done.
    + apply sorted_values, std_sort_sorted. apply _.
Qed.
End chunk.

(** ** The last layer *)

Section unfold.
Context {T G : Type} `{!RandGen G} `{!StdSort (TaggedT T)} (ltb : T -> T -> bool).
Context (p : KWayButterflyParams) (task : SortMethod) (singleBatch : bool) (nrpb fit io n : nat).
Implicit Types (ext : list (list (TaggedT T))) (s : sorter T G).
Abbreviation sorting := (KWayButterflySort ltb p task singleBatch nrpb fit).
Abbreviation count := (divUp (n * bucketSize p) (numInternalWay p io * bucketSize p)).
Abbreviation loop := (loopM (processBatch ltb p task singleBatch nrpb fit io count) 0 count).

Lemma sorting_first ext s : io = 0 -> sorting io n ext s = loop (ext, s).
Proof. by intros ->. Qed.

Lemma sorting_next ext s : 0 < io -> sorting io n ext s =
  ('(parts, s) ← mapS (sorting (io - 1) (n / numInternalWay p io)) (blocks (n / numInternalWay p io) (numInternalWay p io) ext) s;
   loop (concat parts, s)).
Proof.
  destruct io as [|io']; [lia|]. intros _. replace (S io' - 1) with io' by lia. cbn [KWayButterflySort].
  by destruct (mapS _ _ _) as [[? ?]|].
Qed.
End unfold.

Section last_layer.
Context {T G : Type} `{!RandGen G} `{!StdSort (TaggedT T)} (ltb : T -> T -> bool).
Context (p : KWayButterflyParams) (task : SortMethod) (singleBatch : bool) (nrpb fit e : nat).
Context (He : 1 <= e <= 27) (HZ : bucketSize p = 2 ^ e) (Hn : nrpb <= 2 ^ e).
Hypothesis Hways : Forall (fun ws => ws <> [] /\ Forall way_range ws) (ways p).
Context (io : nat) (ws : list nat) (Hio : ways p !! io = Some ws) (Hlast : io = length (ways p) - 1).
Implicit Types (bs ext : list (list (TaggedT T))) (s : sorter T G).
Abbreviation Zs := (2 ^ e).
Abbreviation W := (fetchInterval p io).
Abbreviation K := (numInternalWay p io).
Abbreviation process := (processBatch ltb p task singleBatch nrpb fit).
Abbreviation sorting := (KWayButterflySort ltb p task singleBatch nrpb fit).
Context (s0 : sorter T G) (Hb0 : batch_ok s0) (Hfit0 : forall i, i <= io -> numInternalWay p i * Zs <= length (batch s0)).
Let src : list (TaggedT T) := concat (sources nrpb (W * K) s0).
Hypothesis Hlight : light Zs (concat (ways p)) (sources nrpb (W * K) s0).

Lemma last_is_last : isLastLayer p io = true /\ forall i, i < io -> isLastLayer p i = false.
Proof using He HZ Hn Hways Hio Hlast.
  pose proof (lookup_lt_Some _ _ _ Hio). unfold isLastLayer. split; [apply Nat.eqb_eq; lia|]. intros i Hi. apply Nat.eqb_neq. lia.
Qed.

Lemma W_pos' : 0 < W.
Proof using He HZ Hn Hways Hio Hlast. by apply (W_pos p nrpb e). Qed.

Lemma K_pos' : 0 < K.
Proof using He HZ Hn Hways Hio Hlast. by apply (K_pos p nrpb e). Qed.

Lemma all_ways : concat (ways p) = lows p io ++ ws.
Proof using He HZ Hn Hways Hio Hlast.
  rewrite <-(lows_S p io ws Hio). unfold lows. pose proof (lookup_lt_Some _ _ _ Hio). by rewrite take_ge by lia.
Qed.

Lemma count_sources : length (sources nrpb (W * K) s0) = K * W.
Proof using He HZ Hn Hways Hio Hlast. unfold sources. rewrite blocks_length. lia. Qed.

(** What every batch of the last layer gets: bucket [i] of batch [j] holds the
    elements whose tag names bucket [i * W + j]. *)
Definition delivers j bs : Prop :=
  Forall (bucket_ok Zs) bs /\ length bs = K /\
  forall i b, bs !! i = Some b -> live b ≡ₚ share (W * K) (i * W + j) src.

Definition serves ext : Prop := forall j off s,
  j < W -> batch_ok s -> off + K * Zs <= length (batch s) ->
  (io = 0 -> inputReader s = inputReader s0 /\ gen s = gen s0) ->
  exists bs s' k srcj, runBatch p nrpb io off j ext s = Some (bs, s') /\ ran p e io off k srcj s bs s' /\ delivers j bs.

Lemma all_fit : fits Zs (W * K) src.
Proof using He HZ Hn Hways Hio Hlast Hlight.
  assert (E : product (concat (ways p)) = W * K).
  { rewrite all_ways, product_app, <-W_lows. f_equal. by destruct (layer_ways p nrpb e He HZ Hn Hways io ws Hio) as (_ & _ & _ & ->). }
  rewrite <-E. apply light_all; [|by rewrite count_sources, E, Nat.mul_comm|done].
  rewrite all_ways. destruct (layer_ways p nrpb e He HZ Hn Hways io ws Hio) as (Hne & _). intros [_ ?]%app_nil. done.
Qed.

(** The passes before the last layer. *)
Lemma before_last ext : length ext = W * K \/ io = 0 -> exists ext1 s1,
  sorting io (W * K) ext s0 = loopM (process io W) 0 W (ext1, s1) /\
  batch_ok s1 /\ length (batch s1) = length (batch s0) /\ outputWriter s1 = outputWriter s0 /\
  mergeSortRanges s1 = mergeSortRanges s0 /\ (io = 0 -> s1 = s0) /\ serves ext1.
Proof using He HZ Hn Hways Hio Hlast Hb0 Hfit0 Hlight.
  intros Hext. pose proof W_pos' as HW. pose proof K_pos' as HK. destruct last_is_last as [Hl Hnl].
  assert (Ec : divUp (W * K * Zs) (K * Zs) = W) by (by apply (batchCount_eq p nrpb e)).
  destruct (layer_ways p nrpb e He HZ Hn Hways io ws Hio) as (Hne & Hwr & Hnth & HKe).
  pose proof count_sources as Hsl. rewrite all_ways in Hlight. destruct (decide (io = 0)) as [Ez|Ez].
  - exists ext, s0. rewrite sorting_first, HZ, Ec by done. split; [done|]. do 4 (split; [done|]). split; [done|].
    intros j off s Hj Hbs Hoff Hin. destruct (Hin Ez) as [E1 E2].
    assert (EW : W = 1) by (by rewrite Ez). rewrite EW in *. assert (j = 0) as -> by lia. rewrite Nat.mul_1_l in *.
    assert (Hlow : lows p io = []) by (by rewrite Ez). rewrite Hlow in Hlight.
    destruct (run_batch_first p nrpb e He HZ Hn Hways io ws 0 off ext s) as (bs & s' & E & R); [done..|by rewrite E1, E2|].
    eexists bs, s', _, _. split; [exact E|]. split; [exact R|]. pose proof (ran_routed _ _ _ _ _ _ _ _ _ R) as RR.
    split; [apply RR|]. split; [apply RR|]. intros i b Hi. rewrite (routed_live _ _ _ _ RR i b Hi). rewrite E1, E2.
    unfold src, sources. rewrite EW, !Nat.mul_1_l. by rewrite Nat.mul_1_r, Nat.add_0_r.
  - destruct Hext as [Hext|?]; [|lia].
    destruct (sub_ranges_spec p nrpb e He HZ Hn Hways io (sorting (io - 1)) ext s0 K) as (parts & s1 & E1 & K1 & L1 & R1);
      [done|lia|done| |].
    { intros s' i Hi Hb' HKi. pose proof (lookup_lt_Some _ _ _ Hio). assert (Es : S (io - 1) = io) by lia.
      destruct (ext_layers ltb p task singleBatch nrpb fit e He HZ Hn Hways (io - 1) W (slice (i * W) W ext) s') as (ext' & s2 & E & H1 & H2).
      - apply Hnl. lia.
      - lia.
      - intros q Hq. apply Hnl. lia.
      - rewrite Es. apply W_lows.
      - apply slice_length. rewrite Hext. nia.
      - done.
      - intros q Hq. rewrite (kept_size _ _ _ HKi). apply Hfit0. lia.
      - rewrite (sources_kept p nrpb e He HZ Hn Hways (i * W) W (K * W) s0 s' HKi) by nia.
        rewrite Es, W_lows. eapply light_block; [|by apply ways_pos, (lows_range p nrpb e)|].
        + rewrite <-W_lows. unfold sources. rewrite blocks_length. nia.
        + rewrite <-W_lows, (Nat.mul_comm K). exact Hlight.
      - exists ext', s2. split; [exact E|]. split; [done|].
        by rewrite <-(sources_kept p nrpb e He HZ Hn Hways (i * W) W (K * W) s0 s') by (done || nia). }
    exists (concat parts), s1. rewrite sorting_next, Nat.div_mul, E1 by lia. cbn [mbind option_bind]. rewrite HZ, Ec. split; [done|].
    split; [apply K1|]. split; [apply K1|]. split; [apply K1|]. split; [apply K1|]. split; [lia|].
    assert (Hcl : length (@concat _ <$> blocks W K (sources nrpb (K * W) s0)) = K) by (by rewrite length_fmap, blocks_length).
    rewrite (Nat.mul_comm W K) in Hsl, Hlight. intros j off s Hj Hbs Hoff _.
    destruct (run_batch_next p nrpb e He HZ Hn Hways io ws j off (concat parts) s Hio) as (bs & s' & E & R); [lia|done|done| | |].
    + apply (column_ok Zs K W _ (concat parts) HW HK Hcl L1 R1 j Hj).
    + by apply (column_light p nrpb e He HZ Hn Hways io ws j (sources nrpb (K * W) s0) (concat parts) Hio Hsl L1 Hj).
    + eexists bs, s', _, _. split; [exact E|]. split; [exact R|]. pose proof (ran_routed _ _ _ _ _ _ _ _ _ R) as RR.
      split; [apply RR|]. split; [apply RR|]. intros i b Hi. pose proof (lookup_lt_Some _ _ _ Hi) as Hik. rewrite (routed_length _ _ _ _ RR) in Hik.
      pose proof (column_bucket Zs K W _ (concat parts) HW HK Hcl L1 R1 j i bs b Hj Hik RR Hi) as HB.
      rewrite concat_fmap_concat, blocks_whole in HB by done. rewrite (Nat.mul_comm K W) in HB. exact HB.
Qed.

Lemma src_ok : Forall real_ok src.
Proof using He HZ Hn Hways Hio Hlast.
  unfold src, sources. apply Forall_concat, Forall_lookup. intros i b Hi. pose proof (lookup_lt_Some _ _ _ Hi) as Hlt.
  rewrite blocks_length in Hlt. rewrite blocks_lookup in Hi by done. injection Hi as <-.
  unfold slice. apply Forall_take, Forall_drop, tagged_ok.
Qed.

Lemma Zs_small : (Z.of_nat Zs <= 2 ^ 63)%Z.
Proof using He HZ Hn Hways Hio Hlast. rewrite Nat2Z.inj_pow. apply Z.pow_le_mono_r; lia. Qed.

(** The sort by tag of the buckets of a batch, written back. *)
Lemma sort_buckets off j bs s : delivers j bs -> batch_ok s -> off + K * Zs <= length (batch s) ->
  exists b, write_at off (concat (BitonicSort cmpTag <$> bs)) (batch s) = Some b /\ Forall slot_ok b /\
    length b = length (batch s) /\ slice off (K * Zs) b = concat (BitonicSort cmpTag <$> bs) /\
    (forall q, q < off \/ off + K * Zs <= q -> b !! q = batch s !! q).
Proof using He HZ Hn Hways Hio Hlast.
  intros (Hok & Hl & _) Hb Hfit.
  assert (Hok' : Forall (bucket_ok Zs) (BitonicSort cmpTag <$> bs)).
  { apply Forall_fmap. eapply Forall_impl; [exact Hok|]. intros b [H1 H2]. split; unfold compose, BitonicSort.
    - by rewrite BitonicSort_dire_perm.
    - by rewrite BitonicSort_dire_perm. }
  assert (Hlc : length (concat (BitonicSort cmpTag <$> bs)) = K * Zs).
  { rewrite (concat_length_eq Zs), length_fmap, Hl; [done|]. eapply Forall_impl; [exact Hok'|]. by intros b [? _]. }
  destruct (write_at_Some off (concat (BitonicSort cmpTag <$> bs)) (batch s)) as (b & E & L & Sl & Hq); [by rewrite Hlc|].
  rewrite Hlc in *. exists b. split_and!; [done| |done..]. eapply write_at_Forall; [exact E|by eapply buckets_slots|done].
Qed.

(** The shuffle: the output is the input in the order of its tags. *)
Lemma shuffle_loop ext1 s1 : task = KWAYBUTTERFLYOSHUFFLE -> serves ext1 -> batch_ok s1 -> length (batch s1) = length (batch s0) ->
  (io = 0 -> s1 = s0) ->
  exists s' ord, loopM (process io W) 0 W (ext1, s1) = Some (ext1, s') /\
    outputWriter s' = outputWriter s1 ++ (v <$> ord) /\ ord ≡ₚ placed W K 0 (W * K) src /\ StronglySorted (rank_le W K) ord.
Proof using He HZ Hn Hways Hio Hlast Hb0 Hfit0.
  intros Ht Hserve Hb1 Hl1 H1. pose proof W_pos' as HW. destruct last_is_last as [Hl _].
  pose (I := fun j (st : list (list (TaggedT T)) * sorter T G) => st.1 = ext1 /\ batch_ok st.2 /\ length (batch st.2) = length (batch s0) /\
    (j = 0 -> st.2 = s1) /\ exists ord, outputWriter st.2 = outputWriter s1 ++ (v <$> ord) /\
      ord ≡ₚ placed W K 0 (j * K) src /\ StronglySorted (rank_le W K) ord).
  destruct (loopM_inv I (process io W) W 0 (ext1, s1)) as ([ext' s'] & E & I1 & _ & _ & _ & ord & I2 & I3 & I4).
  - split; [done|]. split; [done|]. split; [done|]. split; [done|]. exists []. rewrite app_nil_r. split; [done|].
    split; [|constructor]. symmetry. apply reflexive_eq, filter_none. intros x _. lia.
  - intros j [ext s] Hj (J1 & J2 & J3 & J4 & ord & J5 & J6 & J7). cbn [Nat.add fst snd] in *. subst ext.
    destruct (Hserve j 0 s) as (bs & s2 & k & srcj & E & R & D); [lia|done|rewrite J3; apply Hfit0; lia| |].
    { intros Ez. assert (W = 1) by (by rewrite Ez). rewrite J4, H1 by lia. done. }
    destruct R as [_ [_ R1 R2 R3 _] _ _].
    destruct (sort_buckets 0 j bs s2) as (b & Eb & B1 & B2 & _); [done|done|rewrite R2, J3; apply Hfit0; lia|].
    destruct D as (D1 & D2 & D3).
    destruct (emission_from W K j Zs src ltac:(lia) src_ok Zs_small bs 0 D1) as (ordj & Eo & Ho & Hs); [|by rewrite D2|].
    { intros i b' Hi. by apply D3. }
    unfold processBatch. assert (Ebpe : batchPerEnclave p task fit io = 1) by (unfold batchPerEnclave; by rewrite Ht).
    rewrite Ebpe, Hl, HZ, Ht. cbn [Nat.eqb]. rewrite Nat.mod_1_r, Nat.mul_0_l, E. cbn [mbind option_bind]. rewrite Eb. cbn [mbind option_bind].
    eexists. split; [reflexivity|]. unfold I, batch_ok. cbn [fst snd batch outputWriter inputReader gen]. split; [done|].
    split; [done|]. split; [by rewrite B2, R2|]. split; [lia|]. exists (ord ++ ordj). rewrite R3, J5, Eo, fmap_app, app_assoc.
    rewrite D2, Nat.add_0_r in Ho. split; [done|]. split.
    + rewrite J6, Ho. replace (S j * K) with (j * K + K) by lia. symmetry. apply placed_cut. lia.
    + apply StronglySorted_app_iff. split_and!; [done|done|]. intros x y Hx Hy. rewrite J6 in Hx. rewrite Ho in Hy.
      apply list_elem_of_filter in Hx as [Hx Hxin], Hy as [Hy Hyin]. pose proof src_ok as Hso. rewrite Forall_forall in Hso.
      apply rank_place; [by apply Hso|by apply Hso|lia].
  - cbn [fst snd] in *. exists s', ord. subst ext'. done.
Qed.

(** A batch of the last layer, run at [off] and sorted by tag. *)
Lemma batch_step ext1 j off s : serves ext1 -> j < W -> batch_ok s -> off + K * Zs <= length (batch s) ->
  (io = 0 -> inputReader s = inputReader s0 /\ gen s = gen s0) ->
  exists bs s2 b, runBatch p nrpb io off j ext1 s = Some (bs, s2) /\
    write_at off (concat (BitonicSort cmpTag <$> bs)) (batch s2) = Some b /\
    outputWriter s2 = outputWriter s /\ mergeSortRanges s2 = mergeSortRanges s /\
    Forall slot_ok b /\ length b = length (batch s) /\ take off b = take off (batch s) /\
    Exists (fun x => isDummy x = true) (slice off (K * Zs) b) /\
    v <$> live (slice off (K * Zs) b) ≡ₚ v <$> placed W K (j * K) (S j * K) src.
Proof using He HZ Hn Hways Hio Hlast Hlight.
  intros Hserve Hj Hb Hoff H0. destruct (Hserve j off s Hj Hb Hoff H0) as (bs & s2 & k & srcj & E & R & D).
  destruct R as [_ [_ R1 R2 R3 R4] _ R5].
  destruct (sort_buckets off j bs s2) as (b & Eb & B1 & B2 & B3 & B4); [done|done|by rewrite R2|].
  destruct D as (D1 & D2 & D3). pose proof K_pos' as HK.
  destruct (emission_from W K j Zs src Hj src_ok Zs_small bs 0 D1) as (ordj & Eo & Ho & _); [intros i b' Hi; by apply D3|by rewrite D2|].
  exists bs, s2, b. split_and!; [done|done|done|done|done|by rewrite B2, R2| | |].
  - apply list_eq. intros q. destruct (decide (q < off)); [|by rewrite !lookup_take_ge by lia].
    rewrite !lookup_take_lt by lia. rewrite B4, R5 by lia. done.
  - rewrite B3. destruct bs as [|b0 bs]; [simpl in D2; lia|]. assert (Hb0' : (b0 :: bs) !! 0 = Some b0) by done.
    rewrite fmap_cons, concat_cons. apply Exists_app. left.
    destruct (Forall_lookup_1 _ _ _ _ D1 Hb0') as [Hlb _]. pose proof (all_fit (0 * W + j) ltac:(nia)) as Hf.
    rewrite <-(D3 0 b0 Hb0'), <-Hlb in Hf. unfold BitonicSort. rewrite BitonicSort_dire_perm.
    clear -Hf. destruct (decide (Exists (fun x => isDummy x = true) b0)) as [?|Hno]; [done|]. exfalso.
    apply not_Exists_Forall in Hno; [|apply _]. unfold live in Hf. rewrite filter_every in Hf; [lia|].
    intros x Hx. rewrite Forall_forall in Hno. apply not_true_is_false. by apply Hno.
  - rewrite B3, live_concat. rewrite Nat.add_0_r, D2 in Ho. replace (S j * K) with (j * K + K) by lia. rewrite <-Ho, <-Eo.
    apply reflexive_eq. rewrite fmap_concat. f_equal. by rewrite <-(list_fmap_compose live).
Qed.

(** The sort, batch by batch: what has been flushed, in sorted chunks, and
    what waits in the batch since the batch [c]. *)
Section sort_loop.
Context `{!StdSortOk (TaggedT T)} `{!StrictWeakOrder ltb}.
Hypothesis Htask : task = KWAYBUTTERFLYOSORT.
Let bpe : nat := fit / (K * Zs).
Hypothesis Hbpe : 0 < bpe.
Hypothesis Hsize : Nat.min bpe W * (K * Zs) <= length (batch s0).
Hypothesis Hext : needsExtMerge task singleBatch = true -> forall j, j < W -> placed W K (j * K) (S j * K) src <> [].

Record flushed (c : nat) (chunks : list (list T)) s : Prop := {
  flushed_out : outputWriter s = concat chunks;
  flushed_perm : concat chunks ≡ₚ v <$> placed W K 0 (c * K) src;
  flushed_sorted : Forall (StronglySorted (cmp_le ltb)) chunks;
  flushed_count : length chunks <= c;
  flushed_full : needsExtMerge task singleBatch = true -> Forall (fun l => l <> []) chunks;
  flushed_ranges : mergeSortRanges s = if needsExtMerge task singleBatch then chunk_ranges 0 chunks else [] }.

Record sort_inv ext1 s1 (j : nat) (st : list (list (TaggedT T)) * sorter T G) : Prop := {
  inv_ext : st.1 = ext1;
  inv_batch : batch_ok st.2;
  inv_len : length (batch st.2) = length (batch s0);
  inv_first : j = 0 -> st.2 = s1;
  inv_chunk : exists c chunks, c <= j /\ (j < W -> c + j mod bpe = j) /\ (j = W -> c = W) /\ flushed c chunks st.2 /\
    v <$> live (take ((j - c) * (K * Zs)) (batch st.2)) ≡ₚ v <$> placed W K (c * K) (j * K) src }.

(** A flush of the [m] batches that wait. *)
Lemma sort_flush c chunks m d s : flushed c chunks s -> batch_ok s -> m * (K * Zs) <= length (batch s) -> c < d <= W ->
  Exists (fun x => isDummy x = true) (take (m * (K * Zs)) (batch s)) ->
  v <$> live (take (m * (K * Zs)) (batch s)) ≡ₚ v <$> placed W K (c * K) (d * K) src ->
  exists s' chunks', sortChunk ltb task singleBatch (K * Zs) m s = Some s' /\ batch_ok s' /\ length (batch s') = length (batch s) /\
    flushed d chunks' s'.
Proof.
  intros [F1 F2 F3 F4 F5 F6] Hb Hm Hd Hex Hlive. rewrite (Nat.mul_comm m) in *.
  destruct (sortChunk_spec ltb task singleBatch (K * Zs) m s) as (s' & chunk & E & G1 & G2 & G3 & G4 & G5 & G6); [done..|].
  exists s', (chunks ++ [chunk]). split; [done|]. split; [done|]. split; [done|].
  assert (Hcc : concat (chunks ++ [chunk]) = concat chunks ++ chunk) by (by rewrite concat_app; simpl; rewrite app_nil_r).
  split.
  - by rewrite G5, F1, Hcc.
  - rewrite Hcc, F2, G3, Hlive, <-fmap_app. apply fmap_Permutation. symmetry. apply placed_cut. nia.
  - apply Forall_app. split; [done|by constructor].
  - rewrite length_app. simpl. lia.
  - intros Hx. apply Forall_app. split; [by apply F5|]. constructor; [|done]. intros Ec. rewrite Ec, Hlive in G3.
    apply Permutation_nil_l, eq_sym, fmap_nil_inv in G3. specialize (Hext Hx c ltac:(lia)).
    assert (Hp : placed W K (c * K) (d * K) src ≡ₚ placed W K (c * K) (S c * K) src ++ placed W K (S c * K) (d * K) src) by (apply placed_cut; nia).
    rewrite G3 in Hp. apply Permutation_nil_l, eq_sym, app_nil in Hp as [Hp _]. done.
  - rewrite G6. destruct (needsExtMerge task singleBatch); [|done]. rewrite F6, chunk_ranges_snoc, Hcc, F1. done.
Qed.

Lemma sort_step ext1 s1 j st : serves ext1 -> (io = 0 -> s1 = s0) -> j < W -> sort_inv ext1 s1 j st ->
  exists st', process io W j st = Some st' /\ sort_inv ext1 s1 (S j) st'.
Proof.
  intros Hserve H1 Hj [E1 Hb Hl Hfirst (c & chunks & Hc & Hcj & _ & Hfl & Hlive)]. destruct st as [ext s]. cbn [fst snd] in *. subst ext.
  specialize (Hcj Hj). pose proof (Nat.mod_upper_bound j bpe ltac:(lia)) as Hmod. set (r := j mod bpe) in *.
  assert (Hsize' : S r * (K * Zs) <= length (batch s)).
  { rewrite Hl. etransitivity; [|exact Hsize]. apply Nat.mul_le_mono_r. lia. }
  destruct (batch_step ext1 j (r * (K * Zs)) s) as (bs & s2 & b & Er & Ew & S1 & S2 & S3 & S4 & S5 & S6 & S7); [done|done|done|lia| |].
  { intros Ez. assert (W = 1) by (by rewrite Ez). rewrite Hfirst, H1 by lia. done. }
  assert (Htake : take (S r * (K * Zs)) b = take (r * (K * Zs)) (batch s) ++ slice (r * (K * Zs)) (K * Zs) b).
  { rewrite <-S5. unfold slice. rewrite take_take_drop. f_equal. lia. }
  assert (Hlive' : v <$> live (take (S r * (K * Zs)) b) ≡ₚ v <$> placed W K (c * K) (S j * K) src).
  { rewrite Htake, live_app, fmap_app, S7. replace (j - c) with r in Hlive by lia. rewrite Hlive, <-fmap_app.
    apply fmap_Permutation. symmetry. apply placed_cut. nia. }
  set (s3 := mkSorter (inputReader s2) (gen s2) b (outputWriter s2) (mergeSortRanges s2)).
  assert (Hfl' : flushed c chunks s3).
  { destruct Hfl as [F1 F2 F3 F4 F5 F6]. split; cbn [outputWriter mergeSortRanges s3]; [by rewrite S1|done|done|done|done|by rewrite S2]. }
  assert (Hproc : process io W j (ext1, s) = if (r =? bpe - 1) || (j =? W - 1)
    then s ← sortChunk ltb task singleBatch (K * Zs) (S r) s3; Some (ext1, s) else Some (ext1, s3)).
  { unfold processBatch. assert (batchPerEnclave p task fit io = bpe) as ->.
    { unfold batchPerEnclave. rewrite Htask. destruct last_is_last as [-> _]. by rewrite HZ. }
    rewrite (proj2 (Nat.eqb_neq bpe 0)) by lia. fold r. rewrite HZ, Er. cbn [mbind option_bind].
    destruct last_is_last as [-> _]. rewrite Ew. cbn [mbind option_bind]. rewrite Htask. fold s3.
    destruct (Nat.eqb_spec r (bpe - 1)), (Nat.eqb_spec j (W - 1)); cbn [orb]; [| | |done];
      replace (S r) with (r + 1) by lia; [done| |done]. by replace (r + 1) with bpe by lia. }
  rewrite Hproc. destruct (decide (r = bpe - 1 \/ j = W - 1)) as [Hflush|Hwait].
  - replace ((r =? bpe - 1) || (j =? W - 1)) with true by (destruct (Nat.eqb_spec r (bpe - 1)), (Nat.eqb_spec j (W - 1)); done || (exfalso; tauto)).
    destruct (sort_flush c chunks (S r) (S j) s3) as (s' & chunks' & E & F1 & F2 & F3); [done|done|by cbn [batch s3]; rewrite S4|lia|..].
    + cbn [batch s3]. rewrite Htake. apply Exists_app. by right.
    + exact Hlive'.
    + rewrite E. cbn [mbind option_bind]. eexists. split; [reflexivity|]. split; cbn [fst snd]; [done|done| |lia|].
      * rewrite F2. cbn [batch s3]. by rewrite S4.
      * exists (S j), chunks'. split_and!; [done| |done|done|].
        -- intros Hlt. destruct Hflush as [Hr| ->]; [|lia]. assert (S j mod bpe = 0) as ->; [|lia].
           pose proof (Nat.div_mod_eq j bpe). apply Nat.Div0.mod_divides. exists (S (j / bpe)). lia.
        -- by rewrite Nat.sub_diag, placed_nil.
  - replace ((r =? bpe - 1) || (j =? W - 1)) with false by (destruct (Nat.eqb_spec r (bpe - 1)), (Nat.eqb_spec j (W - 1)); done || (exfalso; tauto)).
    eexists. split; [reflexivity|]. split; cbn [fst snd]; [done|done|cbn [batch s3]; by rewrite S4|lia|].
    exists c, chunks. split_and!; [lia| |lia|done|].
    + intros Hlt. assert (S j mod bpe = S r) as ->; [|lia]. symmetry. apply (Nat.mod_unique _ _ (j / bpe)); [lia|].
      pose proof (Nat.div_mod_eq j bpe). lia.
    + replace (S j - c) with (S r) by lia. exact Hlive'.
Qed.

Lemma sort_loop ext1 s1 : serves ext1 -> (io = 0 -> s1 = s0) -> batch_ok s1 -> length (batch s1) = length (batch s0) ->
  outputWriter s1 = [] -> mergeSortRanges s1 = [] ->
  exists s' chunks, loopM (process io W) 0 W (ext1, s1) = Some (ext1, s') /\ flushed W chunks s'.
Proof.
  intros Hserve H1 Hb Hl Ho Hr. destruct (loopM_inv (sort_inv ext1 s1) (process io W) W 0 (ext1, s1)) as ([ext s'] & E & HI).
  - split; cbn [fst snd]; [done..|]. exists 0, []. pose proof W_pos'. split_and!; [lia| |lia| |].
    + rewrite Nat.Div0.mod_0_l. lia.
    + split; cbn; [done| |constructor|lia|constructor|by destruct (needsExtMerge _ _)].
      by rewrite placed_nil.
    + rewrite Nat.mul_0_l, placed_nil. done.
  - intros j st Hj HI. apply sort_step; [done|done|lia|done].
  - destruct HI as [I1 _ _ _ (c & chunks & _ & _ & Hc & Hfl & _)]. cbn [fst snd Nat.add] in *. subst ext. rewrite Hc in Hfl by done.
    by exists s', chunks.
Qed.
End sort_loop.
End last_layer.
