(* ===== verification/ButterflySort.v ===== *)
(** * Flex-way butterfly sort and shuffle: the entry points

    [KWayButterflyOShuffle] and [KWayButterflySorting] of
    kway_butterfly_sort.hpp, end to end. *)
From S2P Require Import Prelude Utils Bitonic OrCompact MergeSplit MergeSort Routing Butterfly ButterflyNet ButterflyCorrect.

(** Parameters of a network: every layer has ways between two and eight, and
    the buckets are as many as the ways multiply to. *)
Record net_params (p : KWayButterflyParams) (e : nat) : Prop := {
  net_exp : 1 <= e <= 27;
  net_bucket : bucketSize p = 2 ^ e;
  net_layers : ways p <> [];
  net_ways : Forall (fun ws => ws <> [] /\ Forall way_range ws) (ways p);
  net_total : totalBucket p = product (concat (ways p)) }.

(** The buckets of the last layer: [lastWay] of them in each of [lastCount]
    batches. *)
Definition lastWay (p : KWayButterflyParams) : nat := numInternalWay p (length (ways p) - 1).
Definition lastCount (p : KWayButterflyParams) : nat := fetchInterval p (length (ways p) - 1).

Lemma max_product ll ws : ws ∈ ll -> product ws <= foldr (fun ws m => Nat.max m (product ws)) 0 ll.
Proof. induction 1 as [ll|ws ws' ll _ IH]; simpl; lia. Qed.

Section correct.
Context {T G : Type} `{!RandGen G} `{!StdSort (TaggedT T)} (ltb : T -> T -> bool).
Context (sizeofWrapped : nat) (fresh : nat -> list (TaggedT T)).
Implicit Types (reader : list T) (g : G) (p : KWayButterflyParams).

(** Freshly allocated memory: as many slots as asked for, of any content. *)
Hypothesis Hfresh : forall n, length (fresh n) = n /\ Forall slot_ok (fresh n).

(** How many real elements a bucket gets, and the elements the batch holds. *)
Definition realPerBucket p reader : nat := 1 + (length reader - 1) / totalBucket p.
Definition elementFit p (heapSize : nat) : nat := (heapSize - 16 * bucketSize p) / sizeofWrapped - 8 * bucketSize p.

(** The parameters serve an input: a bucket has room for its real elements, a
    batch fits in the heap, and the tags [g] draws overflow no bucket. *)
Record serves_input p e heapSize reader g : Prop := {
  input_net : net_params p e;
  input_room : realPerBucket p reader <= 2 ^ e;
  input_fit : Forall (fun ws => product ws * 2 ^ e <= elementFit p heapSize) (ways p);
  input_light : light (2 ^ e) (concat (ways p)) (blocks (realPerBucket p reader) (totalBucket p) (tagged reader g)) }.

Section run.
Context (p : KWayButterflyParams) (e heapSize : nat) (reader : list T) (g : G).
Hypothesis HS : serves_input p e heapSize reader g.
Let single : bool := length (ways p) =? 1.
Let maxBatch : nat := foldr (fun ws m => Nat.max m (product ws)) 0 (ways p).
Let size : nat := if single then maxBatch * bucketSize p else elementFit p heapSize.
Let start : sorter T G := mkSorter reader g (fresh size) [] [].

Lemma tagged_sources n : n = totalBucket p -> concat (sources (realPerBucket p reader) n start) = tagged reader g.
Proof using HS.
  intros ->. destruct HS as [[H1 _ _ H2 H3] _ _ _]. unfold sources. cbn [inputReader gen start]. rewrite blocks_concat.
  unfold slice. rewrite drop_0, take_ge; [done|]. rewrite tagged_length. unfold realPerBucket.
  assert (0 < totalBucket p).
  { rewrite H3. apply product_pos, Forall_concat. eapply Forall_impl; [exact H2|]. intros ws [_ Hw]. by apply ways_pos. }
  pose proof (Nat.div_mod_eq (length reader - 1) (totalBucket p)). pose proof (Nat.mod_upper_bound (length reader - 1) (totalBucket p)). nia.
Qed.

(** What [runSorter] starts from satisfies what the layers need. *)
Lemma start_ok : exists io ws, ways p !! io = Some ws /\ io = length (ways p) - 1 /\ batch_ok start /\
  (forall i, i <= io -> numInternalWay p i * 2 ^ e <= length (batch start)) /\
  totalBucket p = lastCount p * lastWay p /\ numInternalWay p io * 2 ^ e <= elementFit p heapSize /\
  Nat.min (elementFit p heapSize / (lastWay p * 2 ^ e)) (lastCount p) * (lastWay p * 2 ^ e) <= length (batch start).
Proof using HS Hfresh.
  destruct HS as [[He HZ Hl Hw Ht] Hroom Hfit _].
  destruct (lookup_lt_is_Some_2 (ways p) (length (ways p) - 1)) as [ws Hio]; [destruct (ways p); [done|simpl; lia]|].
  exists (length (ways p) - 1), ws.
  assert (HK : forall i ws', ways p !! i = Some ws' -> numInternalWay p i = product ws').
  { intros i ws' Hi. unfold numInternalWay. by rewrite (nth_lookup_Some _ _ _ _ Hi). }
  assert (Hlen : length (batch start) = size) by (cbn [batch start]; apply Hfresh).
  assert (Hfits : forall i, i <= length (ways p) - 1 -> numInternalWay p i * 2 ^ e <= size /\ numInternalWay p i * 2 ^ e <= elementFit p heapSize).
  { intros i Hi. destruct (lookup_lt_is_Some_2 (ways p) i) as [wi Hwi]; [pose proof (lookup_lt_Some _ _ _ Hio); lia|].
    rewrite (HK _ _ Hwi). pose proof (Forall_lookup_1 _ _ _ _ Hfit Hwi) as H. cbn in H. split; [|done].
    unfold size. destruct single; [|done]. rewrite HZ. apply Nat.mul_le_mono_r. apply max_product. by eapply list_elem_of_lookup_2. }
  split; [done|]. split; [done|]. split; [apply Hfresh|]. rewrite Hlen. split; [apply Hfits|]. split; [|split; [by apply Hfits|]].
  - rewrite Ht. unfold lastCount, lastWay, fetchInterval. rewrite (HK _ _ Hio), <-product_concat.
    rewrite <-product_app. f_equal. rewrite <-(take_drop (length (ways p) - 1) (ways p)) at 1. rewrite concat_app. f_equal.
    rewrite (drop_S _ _ _ Hio), drop_ge by lia. simpl. by rewrite app_nil_r.
  - pose proof (proj1 (Hfits _ (le_n _))) as H. fold (lastWay p) in H. unfold size in *. destruct single eqn:Es.
    + etransitivity; [|exact H]. assert (lastCount p = 1) as ->; [|nia].
      apply Nat.eqb_eq in Es. unfold lastCount. by rewrite Es.
    + etransitivity; [apply Nat.mul_le_mono_r, Nat.le_min_l|]. rewrite Nat.mul_comm. apply Nat.Div0.mul_div_le.
Qed.

Lemma all_placed : placed (lastCount p) (lastWay p) 0 (lastCount p * lastWay p) (tagged reader g) = tagged reader g.
Proof using HS Hfresh.
  destruct start_ok as (io & ws & Hio & -> & _ & _ & Ht & _). destruct HS as [[He HZ Hl Hw _] Hroom _ _]. apply filter_every. intros x _.
  pose proof (W_pos' p (realPerBucket p reader) e He HZ Hroom Hw _ ws Hio eq_refl).
  pose proof (K_pos' p (realPerBucket p reader) e He HZ Hroom Hw _ ws Hio eq_refl).
  split; [lia|]. by apply place_bound.
Qed.

(** Up to the last layer. *)
Lemma run_layers task (Post : sorter T G -> Prop) :
  (forall io ws ext1 s1, ways p !! io = Some ws -> io = length (ways p) - 1 ->
    serves p (realPerBucket p reader) e io start ext1 -> batch_ok s1 -> length (batch s1) = length (batch start) ->
    outputWriter s1 = [] -> mergeSortRanges s1 = [] -> (io = 0 -> s1 = start) -> exists s',
    loopM (processBatch ltb p task single (realPerBucket p reader) (elementFit p heapSize) io (fetchInterval p io)) 0 (fetchInterval p io) (ext1, s1) =
      Some (ext1, s') /\ Post s') ->
  exists s', runSorter ltb sizeofWrapped fresh task p heapSize reader g = Some s' /\ Post s'.
Proof using HS Hfresh.
  intros Hpost. destruct start_ok as (io & ws & Hio & El & Hb & Hfit0 & Ht & _). destruct HS as [[He HZ Hl Hw Htot] Hroom _ Hlight].
  assert (HKW : fetchInterval p io * numInternalWay p io = totalBucket p) by (by rewrite Ht, El).
  set (ext := if single then [] else blocks (bucketSize p) (totalBucket p) (fresh (totalBucket p * bucketSize p))).
  destruct (before_last ltb p task single (realPerBucket p reader) (elementFit p heapSize) e He HZ Hroom Hw io ws Hio El start Hb Hfit0)
    with (ext := ext) as (ext1 & s1 & E & B1 & B2 & B3 & B4 & B5 & B6).
  - rewrite HKW. exact Hlight.
  - unfold ext, single. destruct (Nat.eqb_spec (length (ways p)) 1) as [E1|_]; [right; lia|left]. by rewrite blocks_length.
  - destruct (Hpost io ws ext1 s1 Hio El B6 B1 B2 B3 B4 B5) as (s' & E' & HP). exists s'. split; [|done].
    rewrite HKW in E. rewrite E' in E. unfold runSorter, Butterfly.sort. fold single maxBatch (elementFit p heapSize) (realPerBucket p reader). fold size. fold start ext.
    rewrite <-El, E. done.
Qed.

Lemma run_shuffle : exists s' ord, runSorter ltb sizeofWrapped fresh KWAYBUTTERFLYOSHUFFLE p heapSize reader g = Some s' /\
  outputWriter s' = v <$> ord /\ ord ≡ₚ tagged reader g /\ StronglySorted (rank_le (lastCount p) (lastWay p)) ord.
Proof using HS Hfresh.
  destruct (run_layers KWAYBUTTERFLYOSHUFFLE (fun s' => exists ord, outputWriter s' = v <$> ord /\ ord ≡ₚ tagged reader g /\
    StronglySorted (rank_le (lastCount p) (lastWay p)) ord)) as (s' & E & ord & Hord); [|by exists s', ord].
  intros io ws ext1 s1 Hio El Hserve Hb1 Hl1 Ho1 Hr1 H1. destruct start_ok as (io' & ws' & Hio' & El' & Hb & Hfit0 & Ht & _).
  assert (io' = io) as -> by congruence. pose proof all_placed as Hall. destruct HS as [[He HZ _ Hw _] Hroom _ _].
  destruct (shuffle_loop ltb p KWAYBUTTERFLYOSHUFFLE single (realPerBucket p reader) (elementFit p heapSize) e He HZ Hroom Hw
    io ws Hio El start Hb Hfit0 ext1 s1) as (s' & ord & E & O1 & O2 & O3); [done..|].
  exists s'. split; [done|]. exists ord. rewrite O1, Ho1. split; [done|]. unfold lastCount, lastWay in *. rewrite <-El in *.
  rewrite tagged_sources, Hall in O2 by (by rewrite Ht). done.
Qed.

Context `{!StdSortOk (TaggedT T)} `{!StrictWeakOrder ltb}.

(** When the output is merged afterwards, every batch of the last layer emits
    something. *)
Hypothesis Hfull : single = false -> forall j, j < lastCount p -> placed (lastCount p) (lastWay p) (j * lastWay p) (S j * lastWay p) (tagged reader g) <> [].

Lemma run_sort : exists s' chunks, runSorter ltb sizeofWrapped fresh KWAYBUTTERFLYOSORT p heapSize reader g = Some s' /\
  outputWriter s' = concat chunks /\ concat chunks ≡ₚ reader /\ Forall (StronglySorted (cmp_le ltb)) chunks /\
  (single = true -> length chunks <= 1) /\
  (single = false -> Forall (fun l => l <> []) chunks /\ mergeSortRanges s' = chunk_ranges 0 chunks).
Proof using All.
  destruct (run_layers KWAYBUTTERFLYOSORT (fun s' => exists chunks, outputWriter s' = concat chunks /\ concat chunks ≡ₚ reader /\
    Forall (StronglySorted (cmp_le ltb)) chunks /\ (single = true -> length chunks <= 1) /\
    (single = false -> Forall (fun l => l <> []) chunks /\ mergeSortRanges s' = chunk_ranges 0 chunks)))
    as (s' & E & chunks & Hc); [|by exists s', chunks].
  intros io ws ext1 s1 Hio El Hserve Hb1 Hl1 Ho1 Hr1 H1. destruct start_ok as (io' & ws' & Hio' & El' & Hb & Hfit0 & Ht & Hfit & Hsize).
  assert (io' = io) as -> by congruence. pose proof all_placed as Hall. pose proof (tagged_sources (totalBucket p) eq_refl) as Hts.
  destruct HS as [[He HZ _ Hw _] Hroom _ Hlight].
  unfold lastCount, lastWay in *. rewrite <-El in *.
  pose proof (K_pos' p (realPerBucket p reader) e He HZ Hroom Hw _ ws Hio El) as HK. pose proof (pow2_pos e) as Hp2.
  destruct (sort_loop ltb p KWAYBUTTERFLYOSORT single (realPerBucket p reader) (elementFit p heapSize) e He HZ Hroom Hw
    io ws Hio El start) with (ext1 := ext1) (s1 := s1) as (s' & chunks & E & [F1 F2 F3 F4 F5 F6]); try done.
  - rewrite <-Ht. exact Hlight.
  - apply Nat.div_str_pos. nia.
  - rewrite <-Ht, Hts. intros Hx. apply Hfull. unfold needsExtMerge in Hx. by destruct single.
  - exists s'. split; [done|]. exists chunks. rewrite <-Ht, Hts, Ht, Hall, tagged_v in F2.
    split_and!; [done|done|done| |].
    + intros Hs. unfold single in Hs. apply Nat.eqb_eq in Hs. assert (io = 0) as Ez by lia. by rewrite Ez in F4.
    + intros Hs. unfold needsExtMerge in F5, F6. rewrite Hs in F5, F6. split; [by apply F5|exact F6].
Qed.
End run.
End correct.

(** A test of [light], for concrete inputs. *)
Definition lightb {T} (Zs : nat) (ws : list nat) (srcs : list (list (TaggedT T))) : bool :=
  forallb (fun l => let P := product (take l ws) in
    forallb (fun q => negb ((q + 1) * P <=? length srcs) ||
      forallb (fun r => length (share P r (concat (slice (q * P) P srcs))) <? Zs) (seq 0 P)) (seq 0 (length srcs)))
    (seq 1 (length ws)).

Lemma lightb_light {T} Zs ws (srcs : list (list (TaggedT T))) : Forall (fun w => 0 < w) ws -> lightb Zs ws srcs = true -> light Zs ws srcs.
Proof.
  unfold lightb, light. intros Hpos H l q Hl Hq r Hr. rewrite forallb_forall in H.
  specialize (H l ltac:(apply in_seq; lia)). rewrite forallb_forall in H.
  assert (0 < product (take l ws)) by (by apply product_pos, Forall_take).
  specialize (H q ltac:(apply in_seq; nia)). apply orb_true_iff in H as [H|H].
  - apply negb_true_iff, Nat.leb_gt in H. lia.
  - rewrite forallb_forall in H. specialize (H r ltac:(apply in_seq; lia)). by apply Nat.ltb_lt.
Qed.

(** ** The entry points *)

Lemma small_length n : n <= 512 -> (Z.of_nat n <= 2 ^ 63)%Z.
Proof. intros H. transitivity 512%Z; lia. Qed.

Section entry_correct.
Context {T G : Type} `{!RandGen G} `{!StdSort (TaggedT T)} (ltb : T -> T -> bool).
Context (sizeofT sizeofWrapped : nat).
Context (bestKWayButterflyParams : nat -> nat -> nat -> KWayButterflyParams)
  (fresh : nat -> list (TaggedT T)).
Context (Hfresh : forall n, length (fresh n) = n /\ Forall slot_ok (fresh n)).
Context (reader : list T) (heapSize : nat) (g : G) (e : nat).
Let heap : nat := capHeapSize sizeofWrapped (length reader) heapSize.
Let p : KWayButterflyParams := bestKWayButterflyParams (length reader) (heap / sizeofWrapped) sizeofT.

(** [KWayButterflyOShuffle] shuffles: with parameters that serve the input, and
    tags that overflow no bucket, it does not abort. *)
Lemma KWayButterflyOShuffle_serves : (512 < length reader -> serves_input sizeofWrapped p e heap reader g) ->
  exists out g', KWayButterflyOShuffle ltb sizeofT sizeofWrapped bestKWayButterflyParams fresh reader heapSize g = Some (out, g') /\
    out ≡ₚ reader /\
    (512 < length reader -> exists ord, out = v <$> ord /\ ord ≡ₚ tagged reader g /\
      StronglySorted (rank_le (lastCount p) (lastWay p)) ord).
Proof using Hfresh.
  intros HS. unfold KWayButterflyOShuffle. destruct (Nat.leb_spec (length reader) 512) as [Hle|Hgt].
  - eexists _, _. split; [by rewrite <-surjective_pairing|]. split; [apply OrShuffle_fuel_perm|lia].
  - destruct (run_shuffle ltb sizeofWrapped fresh Hfresh p e heap reader g (HS Hgt)) as (s & ord & E & H1 & H2 & H3).
    fold heap p. rewrite E. cbn [mbind option_bind]. exists (outputWriter s), (gen s). split; [done|]. split; [|by exists ord].
    by rewrite H1, H2, tagged_v.
Qed.

Context (item_per_page : nat) (mergeWay : nat -> nat -> nat) `{!StdSortOk (TaggedT T)} `{!StrictWeakOrder ltb}.

(** [KWayButterflySorting] sorts: with parameters that serve the input,
    and tags that overflow no bucket, it does not abort, and its output is the
    input rearranged in the order of the comparison. *)
Lemma KWayButterflySorting_serves : (512 < length reader -> serves_input sizeofWrapped p e heap reader g) ->
  (512 < length reader -> length (ways p) <> 1 ->
     3 <= heap / (sizeofT * item_per_page * 2) /\ way_ok mergeWay /\
     forall j, j < lastCount p -> placed (lastCount p) (lastWay p) (j * lastWay p) (S j * lastWay p) (tagged reader g) <> []) ->
  exists out g', KWayButterflySorting ltb sizeofT sizeofWrapped item_per_page bestKWayButterflyParams mergeWay fresh reader heapSize g =
    Some (out, g') /\ out ≡ₚ reader /\ StronglySorted (cmp_le ltb) out.
Proof using All.
  intros HS HM. unfold KWayButterflySorting. destruct (Nat.leb_spec (length reader) 512) as [Hle|Hgt].
  { eexists _, _. split; [done|]. split; [apply BitonicSort_dire_perm|by apply BitonicSort_dire_sorted, small_length]. }
  specialize (HM Hgt).
  destruct (run_sort ltb sizeofWrapped fresh Hfresh p e heap reader g (HS Hgt)) as (s & chunks & E & H1 & H2 & H3 & H4 & H5).
  { intros Hs. apply HM. by apply Nat.eqb_neq. }
  fold heap p. rewrite E. cbn [mbind option_bind]. destruct (Nat.eqb_spec (length (ways p)) 1) as [Es|Es].
  - exists (outputWriter s), (gen s). split; [done|]. rewrite H1. split; [done|]. specialize (H4 eq_refl).
    destruct chunks as [|c [|? ?]]; [constructor| |simpl in H4; lia]. simpl. rewrite app_nil_r. by inversion_clear H3.
  - destruct (H5 eq_refl) as [H6 H7]. destruct (HM Es) as (Hmax & Hway & _).
    pose proof (chunk_ranges_contiguous chunks H6 0) as Hc. cbn [Nat.add] in Hc.
    destruct (ExtMergeSort_spec ltb mergeWay Hway (outputWriter s) _ Hmax (S (length (mergeSortRanges s))) (mergeSortRanges s) 0
      (length (concat chunks))) as (out & Eo & Hp & Hs).
    + lia.
    + by rewrite H7.
    + by rewrite H1.
    + rewrite H7, H1. unfold sorted_ranges. apply (Forall_fmap (range_of (concat chunks))).
      pose proof (chunk_ranges_cut chunks []) as Hcut. cbn [app length] in Hcut. by rewrite Hcut.
    + rewrite Nat.sub_0_r in *. rewrite H2 in Eo. rewrite Eo. cbn [mbind option_bind]. exists out, (gen s). split; [done|].
      split; [|done]. rewrite Hp, H1, slice_all. exact H2.
Qed.
End entry_correct.

(** ** An instance *)

#[local] Existing Instances merge_std merge_std_ok.

(** A generator that counts. *)
#[local] Instance counter : RandGen Z := {
  rand64 g := (g, (g + 1)%Z); rand32 g := (g, (g + 1)%Z); rand1 g := ((g mod 2)%Z, (g + 1)%Z) }.

(** Two layers of two ways, and buckets of 256. *)
Definition two_layers : KWayButterflyParams := mkParams [[2]; [2]] (2 ^ 8) 4.
Definition countdown : list Z := (fun i => (600 - Z.of_nat i)%Z) <$> seq 0 513.
Definition blank (n : nat) : list (TaggedT Z) := replicate n (mkTagged 0%Z 0%Z).

Lemma blank_fresh n : length (blank n) = n /\ Forall slot_ok (blank n).
Proof. split; [apply length_replicate|]. apply Forall_replicate. by vm_compute. Qed.

Lemma two_layers_serve : serves_input 16 two_layers 8 (capHeapSize 16 (length countdown) (2 ^ 16)) countdown 0%Z.
Proof.
  split.
  - split; [lia|done|done| |done]. repeat constructor; done || unfold way_range; lia.
  - apply Nat.leb_le. by vm_compute.
  - repeat constructor; apply Nat.leb_le; by vm_compute.
  - apply lightb_light; [repeat constructor; lia|]. by vm_compute.
Qed.

(** The shuffle on two layers. *)
Example KWayButterflyOShuffle_two_layers : exists out g',
  KWayButterflyOShuffle Z.ltb 8 16 (fun _ _ _ => two_layers) blank countdown (2 ^ 16) 0%Z = Some (out, g') /\ out ≡ₚ countdown /\
  exists ord, out = v <$> ord /\ ord ≡ₚ tagged countdown 0%Z /\ StronglySorted (rank_le 2 2) ord.
Proof.
  destruct (KWayButterflyOShuffle_serves Z.ltb 8 16 (fun _ _ _ => two_layers) blank blank_fresh countdown (2 ^ 16) 0%Z 8)
    as (out & g' & E & H1 & H2); [intros _; exact two_layers_serve|].
  exists out, g'. split; [exact E|]. split; [exact H1|]. apply H2. apply Nat.ltb_lt. by vm_compute.
Qed.

(** The general theorem on two layers, with a merge at the end. *)
Example KWayButterflySorting_two_layers : exists out g',
  KWayButterflySorting Z.ltb 8 16 512 (fun _ _ _ => two_layers) (fun _ _ => 2) blank countdown (2 ^ 16) 0%Z = Some (out, g') /\
  out ≡ₚ countdown /\ StronglySorted (cmp_le Z.ltb) out.
Proof.
  apply (KWayButterflySorting_serves Z.ltb 8 16 (fun _ _ _ => two_layers) blank blank_fresh countdown (2 ^ 16) 0%Z 8 512 (fun _ _ => 2)).
  - intros _. exact two_layers_serve.
  - intros _ _. split; [apply Nat.leb_le; by vm_compute|]. split; [intros count maxWay; lia|].
    intros j Hj. change (lastCount two_layers) with 2 in *. change (lastWay two_layers) with 2.
    destruct j as [|[|j]]; [by vm_compute|by vm_compute|lia].
Qed.
