(* ===== verification/ParamSelect.v ===== *)
(** * The parameter solver of the flex-way sorts (param_select.hpp)

    The failure probability of a network, the search for the number of
    buckets, the solver for the ways of the layers, and
    [bestKWayButterflyParams].  Doubles and the functions of the mathematical
    library are an interface. *)
From S2P Require Import Prelude Utils Bitonic OrCompact MergeSplit MergeSort Routing Butterfly ButterflyNet ButterflyCorrect ButterflySort.

(** ** Doubles *)

(** [dlit m k] is the literal [m * 10^k]; [dof] converts an integer. *)
Class Double (D : Type) := {
  dlit : Z -> Z -> D;
  dof : nat -> D;
  INFINITY : D;
  NEG_INFINITY : D;
  dadd : D -> D -> D; dsub : D -> D -> D; dmul : D -> D -> D; ddiv : D -> D -> D;
  dltb : D -> D -> bool; deqb : D -> D -> bool;
  dlog : D -> D; dlog2 : D -> D; dpow : D -> D -> D; dlgamma : D -> D }.

(** What is used of them: a sum or a product by a positive integer that is
    below infinity has operands below infinity. *)
Class DoubleOk (D : Type) `{!Double D} : Prop := {
  dadd_finite a b : dltb (dadd a b) INFINITY = true -> dltb a INFINITY = true;
  dmul_finite a n : 0 < n -> dltb (dmul a (dof n)) INFINITY = true -> dltb a INFINITY = true;
  dltb_inf : dltb INFINITY INFINITY = false;
  dltb_trans a b c : dltb a b = true -> dltb b c = true -> dltb a c = true }.

Declare Scope double_scope.
Delimit Scope double_scope with D.
Infix "+" := dadd : double_scope.
Infix "-" := dsub : double_scope.
Infix "*" := dmul : double_scope.
Infix "/" := ddiv : double_scope.
Infix "<?" := dltb : double_scope.

Section probability.
Context {D : Type} `{!Double D}.

Definition addLogs (logA logB : D) : D :=
  let bigger := if (logA <? logB)%D then logB else logA in
  let smaller := if (logB <? logA)%D then logB else logA in
  if deqb bigger NEG_INFINITY then bigger
  else if (dlit 100 0 <? bigger - smaller)%D then bigger
  else (bigger + dlog2 (dlit 1 0 + dpow (dlit 2 0) (smaller - bigger)))%D.

(** [Assert(k <= n)] is the caller's business. *)
Definition logCombin (k n : nat) : D :=
  let k := if n <? k * 2 then n - k else k in
  ((dlgamma (dof (n + 1)) - dlgamma (dof (n - k + 1)) - dlgamma (dof (k + 1))) / dlog (dlit 2 0))%D.

Definition binomLogPmf (k n : nat) (p : D) : D :=
  let logCkn := logCombin k n in
  if (dlit 1 (-5) <? p)%D then (logCkn + dof k * dlog2 p + dof (n - k) * dlog2 (dlit 1 0 - p))%D
  else (logCkn + dof k * dlog2 p - dof (n - k) / dlog (dlit 2 0) * (p + p * p / dlit 2 0 + p * p * p / dlit 3 0))%D.

(** The loops of the tails; [k < n] bounds the first, [k] the second. *)
Fixpoint binomLogSf_loop (fuel k n : nat) (p pmf eps sf : D) : D :=
  match fuel with
  | S fuel =>
      if (eps <? pmf)%D && (k <? n) then
        let k := S k in
        let pmf := (pmf + (dlog2 (dof (n - k + 1) / dof k) + dlog2 (p / (dlit 1 0 - p))))%D in
        binomLogSf_loop fuel k n p pmf eps (addLogs sf pmf)
      else sf
  | O => sf
  end.

Definition binomLogSf (k n : nat) (p : D) : D :=
  let pmf := binomLogPmf k n p in
  binomLogSf_loop (n - k) k n p pmf (pmf - dlit 40 0)%D NEG_INFINITY.

Fixpoint binomLogCdf_loop (k n : nat) (p pmf eps sf : D) : D :=
  if (eps <? pmf)%D then
    let sf := addLogs sf pmf in
    match k with
    | O => sf
    | S k' =>
        let pmf := (pmf - (dlog2 (dof (n - k + 1) / dof k) + dlog2 (p / (dlit 1 0 - p))))%D in
        binomLogCdf_loop k' n p pmf eps sf
    end
  else sf.

Definition binomLogCdf (k n : nat) (p : D) : D :=
  let pmf := binomLogPmf k n p in binomLogCdf_loop k n p pmf (pmf - dlit 40 0)%D NEG_INFINITY.

(** [for (numBucket = numTotalBucket; numBucket >= 2; numBucket /= 2)] *)
Fixpoint failureProb_loop (fuel Z numRealPerBucket numTotalBucket numBucket : nat) (failProb : D) : D :=
  match fuel with
  | O => failProb
  | S fuel =>
      if numBucket <? 2 then failProb else
      let n := numRealPerBucket * numBucket in
      if n <=? Z then failProb else
      let p := (dlit 1 0 / dof numBucket)%D in
      let layerFailProb := (dlog2 (dof numTotalBucket) + binomLogSf Z n p)%D in
      failureProb_loop fuel Z numRealPerBucket numTotalBucket (numBucket / 2) (addLogs failProb layerFailProb)
  end.

Definition failureProbButterflySort (Z N numTotalBucket : nat) : D :=
  failureProb_loop numTotalBucket Z ((N - 1) / numTotalBucket + 1) numTotalBucket numTotalBucket NEG_INFINITY.
End probability.

(** ** The search for the first number of buckets *)

(** [lowerBound] on [size_t] with precision 1; the fuel bounds the halvings. *)
Fixpoint lowerBound_loop (fuel left right : nat) (satisfy : nat -> bool) : option nat :=
  match fuel with
  | O => None
  | S fuel =>
      let mid := (left + right) / 2 in
      if satisfy mid then if mid - left <=? 1 then Some mid else lowerBound_loop fuel left mid satisfy
      else if right - mid <=? 1 then Some right else lowerBound_loop fuel mid right satisfy
  end.

Definition lowerBound (left right : nat) (satisfy : nat -> bool) : option nat :=
  lowerBound_loop (S (right - left)) left right satisfy.

(** ** The solver for the ways *)

Section solver.
Context {D : Type} `{!Double D}.

(** The members of [ButterflyWaySolver]; the constructor sorts the options. *)
Record ButterflyWaySolver := mkSolver { options : list nat; unitCosts : list D; ioCost : D; maxWayInternal : nat }.
Context (self : ButterflyWaySolver).

(** The loop over the options; the flag says that it returned. *)
Fixpoint tryOptions (solve : nat -> nat -> nat -> option (D * list nat)) (targetProduct remainWayInternal : nat)
    (idxs : list nat) (minCost : D) (optimalWays : list nat) : option (D * list nat * bool) :=
  match idxs with
  | [] => Some (minCost, optimalWays, false)
  | optionIdx :: idxs =>
      let option := nth optionIdx (options self) 0 in
      if option <=? remainWayInternal then
        '(costChildren, children) ← solve (optionIdx + 1) (divUp targetProduct option) (remainWayInternal / option);
        let prod := option * product children in
        let cost := (costChildren * dof option + nth optionIdx (unitCosts self) INFINITY * dof prod)%D in
        let '(minCost, optimalWays) := if (cost <? minCost)%D then (cost, children ++ [option]) else (minCost, optimalWays) in
        if (option =? targetProduct) || (option =? maxWayInternal self) then Some (minCost, optimalWays, true)
        else tryOptions solve targetProduct remainWayInternal idxs minCost optimalWays
      else tryOptions solve targetProduct remainWayInternal idxs minCost optimalWays
  end.

(** [None] when the fuel, the depth of the recursion, runs out. *)
Fixpoint solverHelper (fuel optionCount targetProduct remainWayInternal : nat) : option (D * list nat) :=
  match fuel with
  | O => None
  | S fuel =>
      if targetProduct <=? 1 then Some (dlit 0 0, [])
      else if optionCount =? 0 then Some (INFINITY, [])
      else
        '(minCost, optimalWays, returned) ←
          tryOptions (solverHelper fuel) targetProduct remainWayInternal (seq 0 optionCount) INFINITY [];
        if (returned : bool) then Some (minCost, optimalWays)
        else if remainWayInternal <? nth (optionCount - 1) (options self) 0 then
          '(costWithoutIO, children) ← solverHelper fuel (length (options self)) targetProduct (maxWayInternal self);
          let cost := (costWithoutIO + dof (product children) * ioCost self)%D in
          if (cost <? minCost)%D then Some (cost, children) else Some (minCost, optimalWays)
        else Some (minCost, optimalWays)
  end.

(** The loop of [solve] that cuts the ways into layers: [cur] is the range from
    [begin] to [it]. *)
Fixpoint cutLayers (accWays : nat) (cur optimalWays : list nat) : list (list nat) :=
  match optimalWays with
  | [] => [cur]
  | w :: optimalWays =>
      if maxWayInternal self <? accWays * w then
        match cur with [] => [] | _ => [cur] end ++ cutLayers w [w] optimalWays
      else cutLayers (accWays * w) (cur ++ [w]) optimalWays
  end.

Definition solve (targetProduct : nat) : option (D * list (list nat)) :=
  '(cost, optimalWays) ← solverHelper (2 * targetProduct + 2) (length (options self)) targetProduct (maxWayInternal self);
  Some (cost, cutLayers 1 [] optimalWays).
End solver.

(** ** The parameters of the butterfly network *)

Section best.
Context {D : Type} `{!Double D} (DISK_IO : bool).

Definition choices : list nat := [2; 3; 4; 5; 6; 7; 8].
Definition bitonicCostFactor : D := dlit 72 (-7).
Definition ioCostPerElement : D := if DISK_IO then dlit 96857 (-8) else dlit 61467 (-8).
Definition costs : list (D * D * D) :=
  [(dlit 6889 (-5), dlit 1698 (-10), dlit 1905 (-10)); (dlit 5630 (-5), dlit 9017 (-9), dlit 1781 (-10));
   (dlit 6714 (-5), dlit 1122 (-8), dlit 1691 (-10)); (dlit 7285 (-5), dlit 1247 (-8), dlit 1734 (-10));
   (dlit 5692 (-5), dlit 1221 (-8), dlit 1825 (-10)); (dlit 5723 (-5), dlit 1303 (-8), dlit 1878 (-10));
   (dlit 5684 (-5), dlit 1345 (-8), dlit 1892 (-10))].
Definition costZ (b Z logZ : nat) : list D :=
  (fun '(c0, c1, c2) => c0 + (c1 + dof b * c2) * dof Z * dof logZ)%D <$> costs.

(** How the loop over the bucket sizes goes on. *)
Inductive round := Abort | Break | Next (minCost : D) (optimalParams : option KWayButterflyParams).

(** The slots that [MergeSplit] and its buffers take. *)
Definition mergeSpace (b Z : nat) : nat := divUp ((b + 2) * Z * 8) b.

(** [M0], computed modulo 2^64. *)
Definition internalSpace (M b Z : nat) : BinInt.Z := w64 (BinInt.Z.of_nat M - BinInt.Z.of_nat (mergeSpace b Z)).

(** One bucket size; [None] when a recursion does not end. *)
Definition bestRound (N M b : nat) (target : D) (i : nat) (minCost : D) (optimalParams : option KWayButterflyParams) : option round :=
  let logZ := 8 + i in
  let Z := 2 ^ logZ in
  let M0 := internalSpace M b Z in
  if (N / 2 <? Z) || (M0 <? 16 * BinInt.Z.of_nat Z)%Z then Some (if i =? 0 then Abort else Break) else
  let satisfy bucketCount := (failureProbButterflySort Z N bucketCount <? target)%D in
  minBucketCount ← lowerBound (N / Z + 1) (3 * N / Z) satisfy;
  let maxWayInternal := BinInt.Z.to_nat (M0 / BinInt.Z.of_nat Z) in
  let solver := mkSolver choices (costZ b Z logZ) (ioCostPerElement * dof Z)%D maxWayInternal in
  '(cost, ways) ← solve solver minBucketCount;
  let actualBucketCount := product (concat ways) in
  let cost := (cost + bitonicCostFactor * dof Z * dof logZ * dof logZ * dof actualBucketCount)%D in
  Some (if (cost <? minCost)%D then Next cost (Some (mkParams ways Z actualBucketCount)) else Next minCost optimalParams).

(** How the function ends: a recursion without end, [abort()], a result that
    was never assigned, or parameters. *)
Inductive outcome := Diverged | Aborted | Unassigned | Found (p : KWayButterflyParams).

Definition assigned (optimalParams : option KWayButterflyParams) : outcome :=
  match optimalParams with Some p => Found p | None => Unassigned end.

Fixpoint bestLoop (N M b : nat) (target : D) (iters : list nat) (minCost : D) (optimalParams : option KWayButterflyParams) : outcome :=
  match iters with
  | [] => assigned optimalParams
  | i :: iters =>
      match bestRound N M b target i minCost optimalParams with
      | Some (Next minCost optimalParams) => bestLoop N M b target iters minCost optimalParams
      | Some Break => assigned optimalParams
      | Some Abort => Aborted
      | None => Diverged
      end
  end.

Definition bestKWayButterflyParams (N M b : nat) (target : D) : outcome := bestLoop N M b target (seq 0 7) INFINITY None.
End best.

(** ** lowerBound: proofs *)

(** The search ends above [left], at the point where [satisfy] turns true if it
    turns once. *)
Lemma lowerBound_loop_spec satisfy fuel : forall left right, left < right -> right - left < fuel ->
  exists r, lowerBound_loop fuel left right satisfy = Some r /\ left <= r <= right /\ (left + 1 < right -> left < r) /\
    (satisfy left = false -> satisfy right = true -> satisfy r = true /\ (r = 0 \/ satisfy (r - 1) = false)).
Proof.
  induction fuel as [|fuel IH]; intros left right Hlr Hf; [lia|]. cbn [lowerBound_loop].
  set (mid := (left + right) / 2).
  assert (Hmid : left <= mid < right /\ (left + 1 < right -> left < mid)).
  { unfold mid. pose proof (Nat.div_mod_eq (left + right) 2). pose proof (Nat.mod_upper_bound (left + right) 2). lia. }
  destruct (satisfy mid) eqn:Em.
  - destruct (Nat.leb_spec (mid - left) 1).
    + exists mid. split; [done|]. split; [lia|]. split; [lia|]. intros H0 _. split; [done|].
      destruct (decide (mid = left)) as [E|]; [congruence|]. right. by replace (mid - 1) with left by lia.
    + destruct (IH left mid) as (r & E & Hr & Hlt & Hs); [lia|lia|]. exists r. split; [done|]. split; [lia|]. split; [lia|].
      intros H0 _. by apply Hs.
  - destruct (Nat.leb_spec (right - mid) 1).
    + exists right. split; [done|]. split; [lia|]. split; [lia|]. intros _ H1. split; [done|]. right. by replace (right - 1) with mid by lia.
    + destruct (IH mid right) as (r & E & Hr & Hlt & Hs); [lia|lia|]. exists r. split; [done|]. split; [lia|]. split; [lia|].
      intros _ H1. by apply Hs.
Qed.

Lemma lowerBound_spec left right satisfy : left < right ->
  exists r, lowerBound left right satisfy = Some r /\ left <= r <= right /\ (left + 1 < right -> left < r) /\
    (satisfy left = false -> satisfy right = true -> satisfy r = true /\ (r = 0 \/ satisfy (r - 1) = false)).
Proof. intros H. apply lowerBound_loop_spec; lia. Qed.

(** The search does not look at [left], and answers [right] when nothing
    satisfies the condition. *)
Example lowerBound_not_smallest : lowerBound 0 2 (fun _ => true) = Some 1 /\ lowerBound 0 2 (fun _ => false) = Some 2.
Proof. done. Qed.

(** Too little memory even for the buffers looks like plenty. *)
Example internalSpace_wraps : internalSpace 2000 8 256 = (2 ^ 64 - 560)%Z /\ mergeSpace 8 256 = 2560.
Proof. by vm_compute. Qed.

(** An option above [maxWayInternal] starts new layers for ever. *)
Example solver_diverges {D : Type} `{!Double D} (io c : D) fuel : solverHelper (mkSolver [3] [c] io 2) fuel 1 5 2 = None.
Proof. induction fuel as [|fuel IH]; [done|]. cbn. cbn in IH. by rewrite IH. Qed.

(** ** The solver: proofs *)

Section solver_correct.
Context {D : Type} `{!Double D} `{!DoubleOk D} (self : ButterflyWaySolver (D := D)).
Hypothesis Hopts : Forall (fun o => 2 <= o <= maxWayInternal self) (options self).

(** Ways for a target: options, with a product that reaches it if their cost is
    finite. *)
Definition reaches (target : nat) (r : D * list nat) : Prop :=
  Forall (fun w => w ∈ options self) r.2 /\ ((r.1 <? INFINITY)%D = true -> target <= product r.2).

Lemma option_range i : i < length (options self) -> nth i (options self) 0 ∈ options self /\
  2 <= nth i (options self) 0 <= maxWayInternal self.
Proof.
  intros Hi. destruct (lookup_lt_is_Some_2 (options self) i Hi) as [o Ho]. rewrite (nth_lookup_Some _ _ _ _ Ho).
  split; [by eapply list_elem_of_lookup_2|]. exact (Forall_lookup_1 _ _ _ _ Hopts Ho).
Qed.

Lemma divUp_less target o : 2 <= target -> 2 <= o -> 1 <= divUp target o < target /\ target <= o * divUp target o.
Proof. intros Ht Ho. pose proof (divUp_bounds target o ltac:(lia)). nia. Qed.

Lemma tryOptions_spec rec target remain idxs : 2 <= target -> Forall (fun i => i < length (options self)) idxs ->
  (forall count target' remain', target' < target -> count <= length (options self) ->
     exists r, rec count target' remain' = Some r /\ reaches target' r) ->
  forall minCost best, reaches target (minCost, best) ->
  exists r b, tryOptions self rec target remain idxs minCost best = Some (r, b) /\ reaches target r.
Proof.
  intros Ht Hidx Hrec. induction Hidx as [|i idxs Hi _ IH]; intros minCost best Hr; cbn [tryOptions]; [by exists (minCost, best), false|].
  destruct (option_range i Hi) as [Hin Ho]. set (o := nth i (options self) 0) in *.
  destruct (o <=? remain); [|by apply IH]. destruct (divUp_less target o Ht ltac:(lia)) as [Hd Hdt].
  destruct (Hrec (i + 1) (divUp target o) (remain / o)) as ([c children] & -> & Hc1 & Hc2); [lia|lia|]. cbn [mbind option_bind fst snd] in *.
  set (cost := (c * dof o + _)%D).
  assert (Hnew : reaches target (cost, children ++ [o])).
  { split; cbn [fst snd]; [apply Forall_app; split; [done|by constructor]|]. intros Hfin%dadd_finite%dmul_finite; [|lia].
    specialize (Hc2 Hfin). rewrite product_app. simpl. nia. }
  assert (Hbest : reaches target (if (cost <? minCost)%D then (cost, children ++ [o]) else (minCost, best))) by (by destruct (cost <? minCost)%D).
  destruct (if (cost <? minCost)%D then _ else _) as [minCost' best']. destruct (_ || _); [by exists (minCost', best'), true|by apply IH].
Qed.

(** The recursion ends: every option shrinks the target, and a new layer starts
    at most once before the next option. *)
Lemma solverHelper_spec fuel : forall count target remain, count <= length (options self) ->
  2 * target + (if (count =? length (options self)) && (remain =? maxWayInternal self) then 0 else 1) < fuel ->
  exists r, solverHelper self fuel count target remain = Some r /\ reaches target r.
Proof.
  induction fuel as [|fuel IH]; intros count target remain Hcount Hf; [lia|]. cbn [solverHelper].
  destruct (Nat.leb_spec target 1) as [Ht|Ht]; [by exists (dlit 0 0, [])|].
  destruct (Nat.eqb_spec count 0) as [->|Hc].
  { exists (INFINITY, []). split; [done|]. split; cbn [fst snd]; [constructor|]. by rewrite dltb_inf. }
  destruct (tryOptions_spec (solverHelper self fuel) target remain (seq 0 count)) with (minCost := INFINITY (D := D)) (best := @nil nat)
    as ([minCost best] & b & -> & Hr).
  - lia.
  - apply Forall_forall. intros i [_ Hi]%elem_of_seq. lia.
  - intros count' target' remain' Ht' Hc'. apply IH; [done|].
    set (b1 := _ && _). set (b2 := _ && _) in Hf. destruct b1, b2; lia.
  - split; cbn [fst snd]; [constructor|]. by rewrite dltb_inf.
  - cbn [mbind option_bind]. destruct b; [by exists (minCost, best)|].
    destruct (Nat.ltb_spec remain (nth (count - 1) (options self) 0)) as [Hlt|_]; [|by exists (minCost, best)].
    destruct (option_range (count - 1) ltac:(lia)) as [_ Ho].
    destruct (IH (length (options self)) target (maxWayInternal self)) as ([c children] & -> & H1 & H2); [lia| |].
    { rewrite !Nat.eqb_refl. cbn [andb]. destruct (Nat.eqb_spec remain (maxWayInternal self)); [lia|]. rewrite andb_false_r in Hf. lia. }
    cbn [mbind option_bind fst snd] in *. destruct (_ <? minCost)%D; [|by exists (minCost, best)].
    eexists. split; [reflexivity|]. split; cbn [fst snd]; [done|]. by intros Hfin%dadd_finite%H2.
Qed.

(** The layers multiply to at most [maxWayInternal] each. *)
Lemma cutLayers_spec ws : Forall (fun w => 2 <= w <= maxWayInternal self) ws -> forall cur, product cur <= maxWayInternal self ->
  (cur <> [] \/ ws <> []) ->
  concat (cutLayers self (product cur) cur ws) = cur ++ ws /\
  Forall (fun l => l <> [] /\ product l <= maxWayInternal self) (cutLayers self (product cur) cur ws).
Proof.
  clear Hopts. induction 1 as [|w ws Hw _ IH]; intros cur Hcur Hne; cbn [cutLayers].
  - destruct Hne as [Hne|]; [|done]. split; [done|]. by repeat constructor.
  - destruct (Nat.ltb_spec (maxWayInternal self) (product cur * w)) as [Hlt|Hle].
    + destruct (IH [w]) as [H1 H2]; [simpl; lia|by left|]. replace (product [w]) with w in * by (simpl; lia).
      destruct cur as [|c cur]; [simpl in Hlt; lia|]. split; [rewrite concat_app, H1; simpl; by rewrite app_nil_r|].
      apply Forall_app. split; [|done]. by repeat constructor.
    + destruct (IH (cur ++ [w])) as [H1 H2]; [rewrite product_app; simpl; lia|left; by destruct cur|].
      rewrite product_app in H1, H2. simpl in H1, H2. rewrite Nat.mul_1_r in H1, H2. rewrite <-app_assoc in H1. done.
Qed.

Lemma solve_spec target : 2 <= target -> exists cost ways, solve self target = Some (cost, ways) /\
  Forall (fun w => w ∈ options self) (concat ways) /\
  ((cost <? INFINITY)%D = true -> ways <> [] /\ target <= product (concat ways) /\
     Forall (fun l => l <> [] /\ product l <= maxWayInternal self) ways).
Proof.
  intros Ht. unfold solve. destruct (solverHelper_spec (2 * target + 2) (length (options self)) target (maxWayInternal self)) as ([c ws] & -> & H1 & H2);
    [done|rewrite !Nat.eqb_refl; simpl; lia|]. cbn [mbind option_bind fst snd] in *. exists c, (cutLayers self 1 [] ws). split; [done|].
  destruct (decide (ws = [])) as [->|Hne].
  { cbn [cutLayers concat app] in *. split; [constructor|]. intros Hfin. specialize (H2 Hfin). simpl in H2. lia. }
  assert (Hws : Forall (fun w => 2 <= w <= maxWayInternal self) ws).
  { eapply Forall_impl; [exact H1|]. intros w Hw. rewrite Forall_forall in Hopts. by apply Hopts. }
  assert (Hmax : 1 <= maxWayInternal self) by (destruct Hws; [done|lia]).
  destruct (cutLayers_spec ws Hws []) as [E Hl]; [done|by right|]. cbn [product app] in *. rewrite E. split; [done|].
  intros Hfin. specialize (H2 Hfin). split_and!; [|done|done]. intros E0. rewrite E0 in E. by subst ws.
Qed.
End solver_correct.

(** ** The parameters: proofs *)

Lemma choices_options mw : 8 <= mw -> Forall (fun o => 2 <= o <= mw) choices.
Proof. intros H. unfold choices. repeat constructor; lia. Qed.

Section best_correct.
Context {D : Type} `{!Double D} `{!DoubleOk D} (DISK_IO : bool) (N M b : nat) (target : D).
Hypothesis Hb : 2 <= b.
Hypothesis HM : (BinInt.Z.of_nat M < 2 ^ 64)%Z.
Implicit Types (p : KWayButterflyParams) (minCost : D) (best : option KWayButterflyParams).

(** A network whose buckets of [2 ^ e] hold the input, with layers of at most
    [mw] buckets. *)
Definition layered (mw e : nat) p : Prop :=
  net_params p e /\ N <= totalBucket p * 2 ^ e /\ Forall (fun ws => product ws <= mw) (ways p).

(** The layers fit in the memory that [MergeSplit] leaves. *)
Definition good p : Prop := exists e,
  net_params p e /\ N <= totalBucket p * 2 ^ e /\
  Forall (fun ws => product ws * 2 ^ e + mergeSpace b (2 ^ e) <= M) (ways p).

(** The buffers of [MergeSplit] alone do not fit. *)
Definition oversized p : Prop := exists e, net_params p e /\ N <= totalBucket p * 2 ^ e /\ M < mergeSpace b (2 ^ e).

Lemma internalSpace_small Z : mergeSpace b Z <= M -> internalSpace M b Z = BinInt.Z.of_nat (M - mergeSpace b Z).
Proof using HM.
  clear Hb. intros H. unfold internalSpace. rewrite <-Nat2Z.inj_sub by done. apply wrap_small. split; lia.
Qed.

(** A bucket size that passes the test leaves room for the next. *)
Lemma mergeSpace_double Z : mergeSpace b Z + 16 * Z <= M -> mergeSpace b (2 * Z) <= M.
Proof using Hb.
  clear HM. intros H. unfold mergeSpace in *. pose proof (divUp_bounds ((b + 2) * Z * 8) b ltac:(lia)) as H1.
  pose proof (divUp_bounds ((b + 2) * (2 * Z) * 8) b ltac:(lia)) as H2.
  set (d1 := divUp ((b + 2) * Z * 8) b) in *. set (d2 := divUp ((b + 2) * (2 * Z) * 8) b) in *. clearbody d1 d2.
  assert (Hd2 : b * d2 < b * (2 * d1 + 1)) by nia. apply Nat.mul_lt_mono_pos_l in Hd2; [|lia].
  assert (Hd1 : b * d1 < b * (16 * Z + 1)) by nia. apply Nat.mul_lt_mono_pos_l in Hd1; lia.
Qed.

Lemma mergeSpace_bounds Z : 1 <= Z -> 8 * Z < mergeSpace b Z <= 16 * Z.
Proof using Hb.
  clear HM. intros H. unfold mergeSpace. pose proof (divUp_bounds ((b + 2) * Z * 8) b ltac:(lia)) as H1.
  set (d := divUp _ _) in *. clearbody d. split.
  - apply (Nat.mul_lt_mono_pos_l b); [lia|]. nia.
  - enough (d < 16 * Z + 1) by lia. apply (Nat.mul_lt_mono_pos_l b); [lia|]. nia.
Qed.

Lemma mergeSpace_mono Z Z' : Z <= Z' -> mergeSpace b Z <= mergeSpace b Z'.
Proof using Hb.
  clear HM. intros H. unfold mergeSpace. pose proof (divUp_bounds ((b + 2) * Z * 8) b ltac:(lia)) as H1.
  pose proof (divUp_bounds ((b + 2) * Z' * 8) b ltac:(lia)) as H2. set (d := divUp ((b + 2) * Z * 8) b) in *.
  set (d' := divUp ((b + 2) * Z' * 8) b) in *. clearbody d d'. assert ((b + 2) * Z * 8 <= (b + 2) * Z' * 8) by (apply Nat.mul_le_mono_r, Nat.mul_le_mono_l, H).
  enough (d < d' + 1) by lia. apply (Nat.mul_lt_mono_pos_l b); [lia|]. rewrite Nat.mul_add_distr_l. lia.
Qed.

Definition best_ok (Q : KWayButterflyParams -> Prop) minCost best : Prop :=
  (minCost = INFINITY \/ (minCost <? INFINITY)%D = true) /\ forall p, best = Some p -> Q p.

(** A round whose bucket size passes the test. *)
Lemma bestRound_next (Q : KWayButterflyParams -> Prop) i minCost best : i <= 6 -> let Z := 2 ^ (8 + i) in Z <= N / 2 -> (16 * BinInt.Z.of_nat Z <= internalSpace M b Z)%Z ->
  (forall p, layered (BinInt.Z.to_nat (internalSpace M b Z / BinInt.Z.of_nat Z)) (8 + i) p -> Q p) -> best_ok Q minCost best ->
  exists minCost' best', bestRound DISK_IO N M b target i minCost best = Some (Next minCost' best') /\ best_ok Q minCost' best'.
Proof using DoubleOk0.
  clear Hb HM. intros Hi Z HZN HM0 HQ Hok. unfold bestRound. cbv zeta. pose proof (pow2_pos (8 + i)) as HZ. fold Z in HZ |- *.
  rewrite (proj2 (Nat.ltb_ge _ _) HZN), (proj2 (Z.ltb_ge _ _) HM0). cbn [orb].
  assert (Hq : 2 <= N / Z) by (apply Nat.div_le_lower_bound; pose proof (Nat.Div0.mul_div_le N 2); lia).
  assert (H3 : N / Z + 1 < 3 * N / Z).
  { apply Nat.lt_le_trans with (3 * (N / Z)); [lia|]. apply Nat.Div0.div_mul_le. }
  destruct (lowerBound_spec (N / Z + 1) (3 * N / Z) (fun c => (failureProbButterflySort Z N c <? target)%D) H3) as (r & -> & Hr & _).
  cbn [mbind option_bind]. set (mw := BinInt.Z.to_nat _) in *.
  assert (Hmw : 16 <= mw) by (unfold mw; apply Nat2Z.inj_le; rewrite Z2Nat.id; [apply Z.div_le_lower_bound; lia|apply Z.div_pos; lia]).
  destruct (solve_spec (mkSolver choices (costZ b Z (8 + i)) (ioCostPerElement DISK_IO * dof Z)%D mw)) with (target := r)
    as (cost & ws & -> & Hin & Hfin); [apply choices_options; cbn; lia|lia|].
  cbn [mbind option_bind]. set (total := (cost + _)%D).
  destruct (total <? minCost)%D eqn:Ec; [|by eexists _, _]. eexists _, _. split; [reflexivity|].
  assert (Htot : (total <? INFINITY)%D = true) by (destruct Hok as [[->|Hlt] _]; [done|by eapply dltb_trans]).
  split; [by right|]. intros p [= <-]. apply HQ. destruct (Hfin (dadd_finite _ _ Htot)) as (Hne & Hreach & Hlay). cbn [options maxWayInternal] in *.
  split; [|split; cbn [totalBucket ways]].
  - split; cbn [bucketSize ways totalBucket]; [lia|done|done| |done]. apply Forall_forall. intros l Hl. rewrite Forall_forall in Hlay.
    split; [by apply Hlay|]. apply Forall_forall. intros w Hw. rewrite Forall_forall in Hin.
    assert (Hwc : w ∈ choices) by (apply Hin, list_elem_of_In, in_concat; exists l; rewrite <-!list_elem_of_In; done).
    pose proof (choices_options 8 (le_n _)) as Hch. rewrite Forall_forall in Hch. apply Hch in Hwc. done.
  - fold Z. pose proof (Nat.div_mod_eq N Z). pose proof (Nat.mod_upper_bound N Z ltac:(lia)).
    transitivity ((N / Z + 1) * Z); [lia|]. apply Nat.mul_le_mono_r. lia.
  - eapply Forall_impl; [exact Hlay|]. by intros l [_ Hl].
Qed.

(** The test of a round fails. *)
Lemma bestRound_stop i minCost best : let Z := 2 ^ (8 + i) in (N / 2 < Z \/ (internalSpace M b Z < 16 * BinInt.Z.of_nat Z)%Z) ->
  bestRound DISK_IO N M b target i minCost best = Some (if i =? 0 then Abort else Break).
Proof.
  clear. intros Z HZ. unfold bestRound. cbv zeta. fold Z. destruct HZ as [H|H].
  - by rewrite (proj2 (Nat.ltb_lt _ _) H).
  - by rewrite (proj2 (Z.ltb_lt _ _) H), orb_true_r.
Qed.

(** The rounds after the first. *)
Definition later_rounds (Q : KWayButterflyParams -> Prop) (room : nat -> Prop) : Prop := forall i minCost best, 0 < i <= 6 -> room i -> best_ok Q minCost best ->
  bestRound DISK_IO N M b target i minCost best = Some Break \/
  exists minCost' best', bestRound DISK_IO N M b target i minCost best = Some (Next minCost' best') /\ best_ok Q minCost' best' /\ room (S i).

Lemma bestRound_keeps i minCost p minCost' best' : bestRound DISK_IO N M b target i minCost (Some p) = Some (Next minCost' best') -> best' <> None.
Proof.
  clear. unfold bestRound. cbv zeta. destruct (_ || _); [destruct (i =? 0); done|].
  destruct (lowerBound _ _ _); [|done]. cbn [mbind option_bind]. destruct (solve _ _) as [[c ws]|]; [|done]. cbn [mbind option_bind].
  destruct (_ <? minCost)%D; by intros [= _ <-].
Qed.

Lemma bestLoop_spec (Q : KWayButterflyParams -> Prop) room n : later_rounds Q room -> forall i minCost best, i + n = 7 -> 0 < i -> room i -> best_ok Q minCost best ->
  (exists p, bestLoop DISK_IO N M b target (seq i n) minCost best = Found p /\ Q p) \/
  bestLoop DISK_IO N M b target (seq i n) minCost best = Unassigned /\ best = None.
Proof.
  clear Hb HM. intros HR. induction n as [|n IH]; intros i minCost best Hi Hpos Hd Hok; cbn [seq bestLoop].
  - destruct best as [p|]; [left; exists p; split; [done|by apply Hok]|by right].
  - destruct (HR i minCost best ltac:(lia) Hd Hok) as [->|(mc & bs & E & Hok' & Hd')].
    + destruct best as [p|]; [left; exists p; split; [done|by apply Hok]|by right].
    + rewrite E. destruct (IH (S i) mc bs) as [?|[Hu ->]]; [lia|lia|done|done|by left|right]. split; [done|].
      destruct best as [p|]; [|done]. by apply bestRound_keeps in E.
Qed.

(** A first round that passes its test decides how the search goes on. *)
Lemma best_after_first (Q : KWayButterflyParams -> Prop) room : let Z := 2 ^ 8 in later_rounds Q room -> room 1 -> Z <= N / 2 ->
  (16 * BinInt.Z.of_nat Z <= internalSpace M b Z)%Z ->
  (forall p, layered (BinInt.Z.to_nat (internalSpace M b Z / BinInt.Z.of_nat Z)) 8 p -> Q p) ->
  (exists p, bestKWayButterflyParams DISK_IO N M b target = Found p /\ Q p) \/
  (bestKWayButterflyParams DISK_IO N M b target = Unassigned /\
   bestRound DISK_IO N M b target 0 INFINITY None = Some (Next INFINITY None)).
Proof using DoubleOk0.
  clear Hb HM. intros Z HR H1 HZ HM0 HQ. unfold bestKWayButterflyParams. cbn [seq bestLoop].
  assert (H0 : best_ok Q INFINITY None) by (split; [by left|done]).
  destruct (bestRound_next Q 0 INFINITY None ltac:(lia) HZ HM0 HQ H0) as (mc & bs & E & Hok'). rewrite E.
  destruct (bestLoop_spec Q room 6 HR 1 mc bs) as [HF|[HU ->]]; [done|lia|done|done|by left|right]. split; [exact HU|].
  revert E. unfold bestRound. cbv zeta. destruct (_ || _); [done|].
  destruct (lowerBound _ _ _); [|done]. cbn [mbind option_bind]. destruct (solve _ _) as [[c ws]|]; [|done]. cbn [mbind option_bind].
  destruct (_ <? _)%D; [done|]. by intros [= <-].
Qed.

Lemma layered_good e : mergeSpace b (2 ^ e) <= M -> forall p,
  layered (BinInt.Z.to_nat (internalSpace M b (2 ^ e) / BinInt.Z.of_nat (2 ^ e))) e p -> good p.
Proof using HM.
  clear Hb. intros Hd p (Hnet & HN & Hl). exists e. split; [done|]. split; [done|]. rewrite internalSpace_small in Hl by done.
  rewrite <-Nat2Z.inj_div, Nat2Z.id in Hl. eapply Forall_impl; [exact Hl|]. intros ws Hws. cbv beta in Hws.
  pose proof (Nat.Div0.mul_div_le (M - mergeSpace b (2 ^ e)) (2 ^ e)). set (q := (M - _) / _) in *. clearbody q. pose proof (pow2_pos e). nia.
Qed.

(** With memory for the buffers of the smallest bucket. *)
Lemma best_enough : 512 <= N -> mergeSpace b (2 ^ 8) + 16 * 2 ^ 8 <= M ->
  (exists p, bestKWayButterflyParams DISK_IO N M b target = Found p /\ good p) \/
  (bestKWayButterflyParams DISK_IO N M b target = Unassigned /\
   bestRound DISK_IO N M b target 0 INFINITY None = Some (Next INFINITY None)).
Proof using DoubleOk0 Hb HM.
  intros HN HA. apply (best_after_first good (fun i => mergeSpace b (2 ^ (8 + i)) <= M)).
  - intros i minCost best Hi Hd Hok. set (Z := 2 ^ (8 + i)) in *.
    destruct (decide (N / 2 < Z \/ (internalSpace M b Z < 16 * BinInt.Z.of_nat Z)%Z)) as [Ht|Ht].
    + left. rewrite bestRound_stop by exact Ht. destruct i; [lia|done].
    + right. assert (Ht1 : Z <= N / 2) by lia. assert (Ht2 : (16 * BinInt.Z.of_nat Z <= internalSpace M b Z)%Z) by lia.
      destruct (bestRound_next good i minCost best ltac:(lia) Ht1 Ht2 (layered_good _ Hd) Hok) as (mc & bs & E & Hok').
      exists mc, bs. split; [done|]. split; [done|]. replace (2 ^ (8 + S i)) with (2 * Z) by (unfold Z; rewrite Nat.add_succ_r, Nat.pow_succ_r'; done).
      apply mergeSpace_double. rewrite internalSpace_small in Ht2 by exact Hd. lia.
  - change (2 ^ (8 + 1)) with (2 * 2 ^ 8). by apply mergeSpace_double.
  - apply Nat.div_le_lower_bound; [lia|]. change (2 * 2 ^ 8) with 512. exact HN.
  - rewrite internalSpace_small by lia. lia.
  - apply layered_good. lia.
Qed.

(** With less memory than the buffers of the smallest bucket, the space wraps
    around and every round looks possible. *)
Lemma internalSpace_wrapped Z : M < mergeSpace b Z -> 1 <= Z <= 2 ^ 14 -> (16 * BinInt.Z.of_nat Z <= internalSpace M b Z)%Z.
Proof using Hb.
  clear HM. intros H HZ. pose proof (mergeSpace_bounds Z ltac:(lia)). assert (HZ' : (BinInt.Z.of_nat Z <= 2 ^ 14)%Z).
  { etransitivity; [apply Nat2Z.inj_le, HZ|]. by rewrite Nat2Z.inj_pow. }
  unfold internalSpace. set (d := mergeSpace b Z) in *. clearbody d.
  replace (BinInt.Z.of_nat M - BinInt.Z.of_nat d)%Z with (2 ^ 64 - (BinInt.Z.of_nat d - BinInt.Z.of_nat M) + (-1) * 2 ^ 64)%Z by lia.
  unfold w64. rewrite Z.mod_add by done. rewrite Z.mod_small; lia.
Qed.

Lemma best_short : 512 <= N -> M < mergeSpace b (2 ^ 8) ->
  (exists p, bestKWayButterflyParams DISK_IO N M b target = Found p /\ oversized p) \/
  (bestKWayButterflyParams DISK_IO N M b target = Unassigned /\
   bestRound DISK_IO N M b target 0 INFINITY None = Some (Next INFINITY None)).
Proof using DoubleOk0 Hb.
  clear HM. intros HN HA.
  assert (Hwrap : forall i, i <= 6 -> M < mergeSpace b (2 ^ (8 + i)) /\ (16 * BinInt.Z.of_nat (2 ^ (8 + i)) <= internalSpace M b (2 ^ (8 + i)))%Z).
  { intros i Hi. assert (Hd : M < mergeSpace b (2 ^ (8 + i))).
    { eapply Nat.lt_le_trans; [exact HA|]. apply mergeSpace_mono, Nat.pow_le_mono_r; lia. }
    split; [done|]. apply internalSpace_wrapped; [done|]. split; [apply pow2_pos|apply Nat.pow_le_mono_r; lia]. }
  assert (HQ : forall i, i <= 6 -> forall mw p, layered mw (8 + i) p -> oversized p).
  { intros i Hi mw p (H1 & H2 & _). exists (8 + i). split; [done|]. split; [done|]. by apply Hwrap. }
  apply (best_after_first oversized (fun _ => True)); [|done| | |by apply (HQ 0); lia].
  - intros i minCost best Hi _ Hok. destruct (decide (N / 2 < 2 ^ (8 + i))) as [Ht|Ht].
    + left. rewrite bestRound_stop by (by left). destruct i; [lia|done].
    + right. destruct (bestRound_next oversized i minCost best ltac:(lia) ltac:(lia) (proj2 (Hwrap i ltac:(lia)))) as (mc & bs & E & Hok');
        [by apply HQ; lia|done|]. by exists mc, bs.
  - apply Nat.div_le_lower_bound; [lia|]. change (2 * 2 ^ 8) with 512. exact HN.
  - apply (Hwrap 0). lia.
Qed.

(** C5: [bestKWayButterflyParams] ends, for every size of the input and of the
    memory, and what it answers is known.  It aborts for fewer than 512
    elements, and when the memory holds the buffers of [MergeSplit] for the
    smallest bucket but not sixteen buckets with them.  With more memory, the
    parameters it finds are those of a network whose layers fit in the memory
    that [MergeSplit] leaves and whose buckets hold the input.  With less, when
    not even the buffers fit, it does not abort: the space it computes wraps
    around, and the parameters it finds are those of a network that holds the
    input but whose buffers alone exceed the memory.  It finds none only if the
    first bucket size has no finite cost.  An element has at least two bytes. *)
Theorem bestKWayButterflyParams_correct :
  let r := bestKWayButterflyParams DISK_IO N M b target in let d := mergeSpace b (2 ^ 8) in
  if (N <? 512) || (d <=? M) && (M <? d + 16 * 2 ^ 8) then r = Aborted
  else (exists p, r = Found p /\ if d <=? M then good p else oversized p) \/
       (r = Unassigned /\ bestRound DISK_IO N M b target 0 INFINITY None = Some (Next INFINITY None)).
Proof using DoubleOk0 Hb HM.
  intros r d. destruct (Nat.ltb_spec N 512) as [HN|HN]; cbn [orb].
  - unfold r, bestKWayButterflyParams. cbn [seq bestLoop]. rewrite bestRound_stop; [done|]. left.
    apply Nat.Div0.div_lt_upper_bound. change (2 * 2 ^ (8 + 0)) with 512. exact HN.
  - destruct (Nat.leb_spec d M) as [Hd|Hd]; cbn [andb]; [|by apply best_short].
    destruct (Nat.ltb_spec M (d + 16 * 2 ^ 8)) as [HA|HA]; [|by apply best_enough].
    unfold r, bestKWayButterflyParams. cbn [seq bestLoop]. rewrite bestRound_stop; [done|]. right.
    change (2 ^ (8 + 0)) with (2 ^ 8). rewrite internalSpace_small by exact Hd. fold d. lia.
Qed.
End best_correct.

(** ** The sort with the parameters it chooses *)

(** The parameters that are handed to [ButterflySorter]. *)
Definition found (o : outcome) : KWayButterflyParams := match o with Found p => p | _ => mkParams [] 0 0 end.

Lemma elementFit_room sizeofT sizeofWrapped p heap Z d : 2 <= sizeofT <= sizeofWrapped -> bucketSize p = Z -> mergeSpace sizeofT Z + d <= heap / sizeofWrapped -> d <= elementFit sizeofWrapped p heap.
Proof.
  intros Hsizes HZ Hd. unfold elementFit, mergeSpace in *. rewrite HZ.
  pose proof (divUp_bounds ((sizeofT + 2) * Z * 8) sizeofT ltac:(lia)) as [HD _]. set (D0 := divUp _ _) in *. clearbody D0.
  pose proof (Nat.Div0.mul_div_le heap sizeofWrapped) as Hh. set (M := heap / sizeofWrapped) in *. clearbody M.
  assert (Hx : exists x, D0 = 8 * Z + x /\ 16 * Z <= x * sizeofT) by (exists (D0 - 8 * Z); nia). destruct Hx as (x & -> & Hx).
  assert (Hxs : 16 * Z <= x * sizeofWrapped) by nia.
  enough (8 * Z + d <= (heap - 16 * Z) / sizeofWrapped) by lia.
  apply Nat.div_le_lower_bound; [lia|]. nia.
Qed.

Section chosen.
Context {D : Type} `{!Double D} `{!DoubleOk D} (DISK_IO : bool) (target : D).
Context {T G : Type} `{!RandGen G} `{!StdSort (TaggedT T)} `{!StdSortOk (TaggedT T)} (ltb : T -> T -> bool) `{!StrictWeakOrder ltb}.
Context (sizeofT sizeofWrapped item_per_page : nat) (mergeWay : nat -> nat -> nat) (fresh : nat -> list (TaggedT T)).
Hypothesis Hfresh : forall n, length (fresh n) = n /\ Forall slot_ok (fresh n).
Hypothesis Hsizes : 2 <= sizeofT <= sizeofWrapped.

Lemma good_serves p (reader : list T) heap (g : G) : good (length reader) (heap / sizeofWrapped) sizeofT p ->
  exists e, bucketSize p = 2 ^ e /\
    (light (2 ^ e) (concat (ways p)) (blocks (realPerBucket p reader) (totalBucket p) (tagged reader g)) ->
     serves_input sizeofWrapped p e heap reader g).
Proof using Hsizes.
  clear mergeWay. intros (e & Hnet & Hroom & Hfit). exists e. split; [apply Hnet|]. intros Hlight. split; [done| | |done].
  - unfold realPerBucket. pose proof (pow2_pos e). enough ((length reader - 1) / totalBucket p < 2 ^ e) by lia.
    apply Nat.Div0.div_lt_upper_bound. destruct (length reader); [|lia].
    assert (0 < totalBucket p); [|nia]. rewrite (net_total _ _ Hnet). apply product_pos, Forall_concat.
    eapply Forall_impl; [apply Hnet|]. intros ws [_ Hw]. by apply ways_pos.
  - eapply Forall_impl; [exact Hfit|]. intros ws Hws. eapply elementFit_room; [exact Hsizes|apply Hnet|]. cbv beta in Hws. rewrite Nat.add_comm. exact Hws.
Qed.

Section run.
Context (reader : list T) (heapSize : nat) (g : G).
Let N : nat := length reader.
Let heap : nat := capHeapSize sizeofWrapped N heapSize.
Let M : nat := heap / sizeofWrapped.
Let chosen (N M b : nat) : KWayButterflyParams := found (bestKWayButterflyParams DISK_IO N M b target).
Let p : KWayButterflyParams := chosen N M sizeofT.

(** The parameters that are found serve the input, if its tags overflow no
    bucket. *)
Lemma found_serves : 512 < N -> (Z.of_nat M < 2 ^ 64)%Z /\ mergeSpace sizeofT (2 ^ 8) <= M /\
     (exists p, bestKWayButterflyParams DISK_IO N M sizeofT target = Found p) /\
     light (bucketSize p) (concat (ways p)) (blocks (realPerBucket p reader) (totalBucket p) (tagged reader g)) ->
  exists e, serves_input sizeofWrapped p e heap reader g.
Proof using DoubleOk0 Hsizes.
  clear mergeWay. intros Hgt (HM & Hspace & (p' & Ep) & Hlight). assert (EP : p = p') by (unfold p, chosen; by rewrite Ep).
  assert (Hgood' : mergeSpace sizeofT (2 ^ 8) + 16 * 2 ^ 8 <= M).
  { apply Nat.nlt_ge. intros Hlt. revert Ep. unfold bestKWayButterflyParams. cbn [seq bestLoop]. rewrite bestRound_stop; [done|]. right.
    change (2 ^ (8 + 0)) with (2 ^ 8). rewrite internalSpace_small by done. lia. }
  destruct (best_enough DISK_IO N M sizeofT target) as [(p2 & E2 & Hgood)|[E2 _]]; [lia|done|lia|done| |congruence].
  assert (p2 = p') as -> by congruence. rewrite <-EP in Hgood.
  destruct (good_serves p reader heap g Hgood) as (e & HZ & HS). rewrite HZ in Hlight. exists e. by apply HS.
Qed.

(** C3: with the parameters it chooses for itself, [KWayButterflyOShuffle]
    shuffles.  Up to 512 elements it always returns, a rearrangement of its
    input.  Above, suppose that the memory holds the buffers of the smallest
    bucket size, that a network was found, and that the tags drawn overflow no
    bucket of it at any layer ([light]).  Then it returns a rearrangement of
    its input: the elements with the tags that were drawn for them, in the
    order of the bucket the tag names and, within a bucket, of the rest of the
    tag. *)
Theorem KWayButterflyOShuffle_correct :
  (512 < N -> (Z.of_nat M < 2 ^ 64)%Z /\ mergeSpace sizeofT (2 ^ 8) <= M /\
     (exists p, bestKWayButterflyParams DISK_IO N M sizeofT target = Found p) /\
     light (bucketSize p) (concat (ways p)) (blocks (realPerBucket p reader) (totalBucket p) (tagged reader g))) ->
  exists out g', KWayButterflyOShuffle ltb sizeofT sizeofWrapped chosen fresh reader heapSize g = Some (out, g') /\
    out ≡ₚ reader /\
    (512 < N -> exists ord, out = v <$> ord /\ ord ≡ₚ tagged reader g /\ StronglySorted (rank_le (lastCount p) (lastWay p)) ord).
Proof using DoubleOk0 Hfresh Hsizes.
  clear mergeWay. intros H1. destruct (decide (N <= 512)) as [Hle|Hgt%Nat.nle_gt].
  - apply (KWayButterflyOShuffle_serves ltb sizeofT sizeofWrapped chosen fresh Hfresh reader heapSize g 0). unfold N in Hle. lia.
  - destruct (found_serves Hgt (H1 Hgt)) as (e & HS).
    apply (KWayButterflyOShuffle_serves ltb sizeofT sizeofWrapped chosen fresh Hfresh reader heapSize g e). by intros _.
Qed.

(** C2: with the parameters it chooses for itself, [KWayButterflySorting]
    sorts.  Up to 512 elements it always returns its input rearranged in order.
    Above, suppose that the memory holds the buffers of the smallest bucket
    size, that a network was found, and that the tags drawn overflow no bucket
    of it at any layer ([light]); suppose too, when there are batches to merge,
    that three readers fit in memory, that the root of [ExtMergeSort] is as
    [way_ok] says, and that every batch gets an element.  Then it returns its
    input rearranged in order. *)
Theorem KWayButterflySorting_correct :
  (512 < N -> (Z.of_nat M < 2 ^ 64)%Z /\ mergeSpace sizeofT (2 ^ 8) <= M /\
     (exists p, bestKWayButterflyParams DISK_IO N M sizeofT target = Found p) /\
     light (bucketSize p) (concat (ways p)) (blocks (realPerBucket p reader) (totalBucket p) (tagged reader g))) ->
  (512 < N -> length (ways p) <> 1 -> 3 <= heap / (sizeofT * item_per_page * 2) /\ way_ok mergeWay /\
     forall j, j < lastCount p -> placed (lastCount p) (lastWay p) (j * lastWay p) (S j * lastWay p) (tagged reader g) <> []) ->
  exists out g', KWayButterflySorting ltb sizeofT sizeofWrapped item_per_page chosen mergeWay fresh reader heapSize g = Some (out, g') /\
    out ≡ₚ reader /\ StronglySorted (cmp_le ltb) out.
Proof.
  intros H1 H2. destruct (decide (N <= 512)) as [Hle|Hgt%Nat.nle_gt].
  { eexists _, _. split; [unfold KWayButterflySorting; cbv zeta; fold N; by rewrite (proj2 (Nat.leb_le N 512) Hle)|].
    split; [apply BitonicSort_dire_perm|by apply BitonicSort_dire_sorted, small_length]. }
  destruct (found_serves Hgt (H1 Hgt)) as (e & HS).
  apply (KWayButterflySorting_serves ltb sizeofT sizeofWrapped chosen fresh Hfresh reader heapSize g e item_per_page mergeWay); [|done].
  by intros _.
Qed.
End run.
End chosen.

(** ** An instance *)

(** Integers with an infinity. *)
#[local] Instance extended : Double (option Z) := {|
  dlit m k := if (k =? 0)%Z then Some m else Some (m / 10 ^ (- k))%Z;
  dof n := Some (Z.of_nat n); INFINITY := None; NEG_INFINITY := Some (-2 ^ 40)%Z;
  dadd a b := match a, b with Some x, Some y => Some (x + y)%Z | _, _ => None end;
  dsub a b := match a, b with Some x, Some y => Some (x - y)%Z | _, _ => None end;
  dmul a b := match a, b with Some x, Some y => Some (x * y)%Z | _, _ => None end;
  ddiv a b := match a, b with Some x, Some y => Some (x / y)%Z | _, _ => None end;
  dltb a b := match a, b with Some x, Some y => (x <? y)%Z | Some _, None => true | None, _ => false end;
  deqb a b := bool_decide (a = b);
  dlog a := a; dlog2 a := Z.log2 <$> a; dpow a b := a; dlgamma a := a |}.

#[local] Instance extended_ok : DoubleOk (option Z).
Proof.
  split.
  - by intros [x|] [y|].
  - by intros [x|] n.
  - done.
  - intros [x|] [y|] [z|]; simpl; try done. intros. lia.
Qed.

Definition target60 : option Z := Some (-60)%Z.

Lemma bestKWayButterflyParams_correct_witness :
  ((exists p, bestKWayButterflyParams false 513 (2 ^ 13) 8 target60 = Found p /\ good 513 (2 ^ 13) 8 p) \/
   (bestKWayButterflyParams false 513 (2 ^ 13) 8 target60 = Unassigned /\
    bestRound false 513 (2 ^ 13) 8 target60 0 INFINITY None = Some (Next INFINITY None))) /\
  ((exists p, bestKWayButterflyParams false 513 2000 8 target60 = Found p /\ oversized 513 2000 8 p) \/
   (bestKWayButterflyParams false 513 2000 8 target60 = Unassigned /\
    bestRound false 513 2000 8 target60 0 INFINITY None = Some (Next INFINITY None))) /\
  bestKWayButterflyParams false 513 3000 8 target60 = Aborted.
Proof.
  split; [exact (bestKWayButterflyParams_correct false 513 (2 ^ 13) 8 target60 ltac:(lia) ltac:(by vm_compute))|].
  split; [exact (bestKWayButterflyParams_correct false 513 2000 8 target60 ltac:(lia) ltac:(by vm_compute))|].
  exact (bestKWayButterflyParams_correct false 513 3000 8 target60 ltac:(lia) ltac:(by vm_compute)).
Defined.

#[local] Existing Instances counter merge_std merge_std_ok.

Lemma KWayButterflyOShuffle_correct_witness : exists out g',
  KWayButterflyOShuffle Z.ltb 8 16 (fun N M b => found (bestKWayButterflyParams false N M b target60)) blank countdown (2 ^ 17) 0%Z = Some (out, g') /\
  out ≡ₚ countdown.
Proof.
  assert (Ep : bestKWayButterflyParams false (length countdown) (capHeapSize 16 (length countdown) (2 ^ 17) / 16) 8 target60 =
    Found (mkParams [[2; 2; 2]] (2 ^ 8) 8)) by (by vm_compute).
  destruct (KWayButterflyOShuffle_correct false target60 Z.ltb 8 16 blank blank_fresh ltac:(lia) countdown (2 ^ 17) 0%Z) as (out & g' & E & H & _).
  - intros _. rewrite Ep. cbn [found]. split; [by vm_compute|]. split; [apply Nat.leb_le; by vm_compute|]. split; [by eexists|].
    apply lightb_light; [repeat constructor; lia|]. by vm_compute.
  - exists out, g'. split; [exact E|exact H].
Defined.

Lemma KWayButterflySorting_correct_witness : exists out g',
  KWayButterflySorting Z.ltb 8 16 512
    (fun N M b => found (bestKWayButterflyParams false N M b target60)) (fun _ _ => 2) blank countdown (2 ^ 17) 0%Z = Some (out, g') /\
  out ≡ₚ countdown /\ StronglySorted (cmp_le Z.ltb) out.
Proof.
  assert (Ep : bestKWayButterflyParams false (length countdown) (capHeapSize 16 (length countdown) (2 ^ 17) / 16) 8 target60 =
    Found (mkParams [[2; 2; 2]] (2 ^ 8) 8)) by (by vm_compute).
  apply (KWayButterflySorting_correct false target60 Z.ltb 8 16 512 (fun _ _ => 2) blank blank_fresh ltac:(lia) countdown (2 ^ 17) 0%Z).
  - intros _. rewrite Ep. cbn [found]. split; [by vm_compute|]. split; [apply Nat.leb_le; by vm_compute|]. split; [by eexists|].
    apply lightb_light; [repeat constructor; lia|]. by vm_compute.
  - intros _ Hne. exfalso. apply Hne. by rewrite Ep.
Defined.
