(* ===== verification/CaBucket.v ===== *)
(** * Bucket sort and shuffle (osort/external_memory/algorithm/ca_bucket_sort.hpp)

    Every element gets a random tag whose lowest bit says whether it is a dummy;
    the elements are routed to the bucket that the top bits of the tag name, in
    layers of [binPacking]; every bucket is sorted by the whole tag, and the
    elements that are no dummies are written in this order.  A bucket that
    overflows is noticed by an assertion only: [ndebug] says whether assertions
    are compiled out, as they are in release builds, and [None] is an assertion
    that fails.  The vectors are lists.

    The file holds the model and the routing.  [no_overflow] says of a shape of
    the recursion and of the elements in the buckets whether every packing has
    room, and [routed] where the elements go and how many are lost; a routine
    returns a routed list without assertions, and with assertions if there is
    no overflow and only then ([routes]). *)
From stdpp Require Import sorting.
From S2P Require Import Prelude Utils Bitonic MergeSplit MergeSort.

Section routing.
Context {T : Type} (blank : T) (ndebug : bool).
Implicit Types (l : list (TaggedT T)).

Definition dummyFlag (x : TaggedT T) : bool := negb (Z.land (tag x) 1 =? 0)%Z.

(** The loop that marks what is behind the first [Z] elements of a bucket; the
    last assertion is about a real element there. *)
Fixpoint markExcess (Zs : nat) (rangeMask : Z) (count : nat) (curr : Z) l : option (list (TaggedT T)) :=
  match l with
  | [] => Some []
  | x :: l =>
      let newCurr := Z.land (tag x) rangeMask in
      let count := if negb (newCurr =? curr)%Z then 0 else count in
      if negb ndebug && ((Zs <=? count) && negb (dummyFlag x)) then None else
      let y := if Zs <=? count then withTag (2 ^ 64 - 1) x else x in
      l ← markExcess Zs rangeMask (S count) newCurr l; Some (y :: l)
  end.

(** The order of [cmpTag], on the bits of a mask. *)
Definition maskLess (mask : Z) (a b : TaggedT T) : bool := (Z.land (tag a) mask <? Z.land (tag b) mask)%Z.

Definition binPacking l (Zs : nat) (bitMask : Z) : option (list (TaggedT T)) :=
  let size := length l in
  let numBucket := size / Zs in
  let logNumBucket := GetLogBaseTwo (Z.of_nat numBucket) in
  let baseMask := w64 (Z.shiftl (Z.shiftr bitMask logNumBucket) 1) in
  let rangeMask := w64 (baseMask * (Z.of_nat numBucket - 1)) in
  let rangeMaskWithDummyFlag := w64 (rangeMask + 1) in
  let own := concat ((fun i => replicate Zs (mkTagged (w64 (Z.of_nat i * baseMask + 1)) blank)) <$> seq 0 numBucket) in
  let temp := BitonicSort (maskLess rangeMaskWithDummyFlag) (l ++ own) in
  temp ← markExcess Zs rangeMask 0 0 temp;
  Some (take size (BitonicSort (maskLess rangeMaskWithDummyFlag) temp)).

(** The layers of [butterflyRouting] and [externalButterflyRouting] that are no
    leaf: [route] is the call on a batch.  Bucket [bucketIdx] of batch
    [batchIdx] is copied to [bucketIdx * size / numBucketPerBatch + batchIdx * Z]. *)
Definition nextLayer (Zs batchSize numBucketPerBatch : nat) (batches : list (list (TaggedT T))) : list (TaggedT T) :=
  concat ((fun bucketIdx => concat (slice (bucketIdx * Zs) Zs <$> batches)) <$> seq 0 numBucketPerBatch).

Definition twoLayers (route : list (TaggedT T) -> Z -> option (list (TaggedT T))) l (Zs : nat) (bitMask : Z) : option (list (TaggedT T)) :=
  let size := length l in
  let num_layer := Z.to_nat (GetLogBaseTwo (Z.of_nat (size / Zs))) in
  let half_num_layer := num_layer / 2 in
  let numBucketPerBatch := 2 ^ half_num_layer in
  let batchSize := Zs * numBucketPerBatch in
  let batchCount := size / batchSize in
  batches ← mapM (fun batchIdx => route (slice (batchIdx * batchSize) batchSize l) bitMask) (seq 0 batchCount);
  let next := nextLayer Zs batchSize numBucketPerBatch batches in
  let nextLayerBatchSize := 2 ^ (num_layer - half_num_layer) * Zs in
  let nextLayerBatchCount := size / nextLayerBatchSize in
  outs ← mapM (fun batchIdx => route (slice (batchIdx * nextLayerBatchSize) nextLayerBatchSize next)
                                     (Z.shiftr bitMask (Z.of_nat half_num_layer))) (seq 0 nextLayerBatchCount);
  Some (concat outs).

Fixpoint butterflyRouting (fuel : nat) l (Zs : nat) (bitMask : Z) (gamma : nat) : option (list (TaggedT T)) :=
  match fuel with
  | O => None
  | S fuel =>
      if length l / Zs <=? gamma then binPacking l Zs bitMask
      else twoLayers (fun l bitMask => butterflyRouting fuel l Zs bitMask gamma) l Zs bitMask
  end.

(** Within memory when the elements, their copy and the largest leaf fit. *)
Fixpoint externalButterflyRouting (fuel sizeofTagged : nat) l (Zs : nat) (bitMask : Z) (heapSize : nat) : option (list (TaggedT T)) :=
  match fuel with
  | O => None
  | S fuel' =>
      let size := length l in
      let gamma := Z.to_nat (GetLogBaseTwo (Z.of_nat size)) in
      if (size * 2 + gamma * Zs) * sizeofTagged <=? heapSize then butterflyRouting fuel l Zs bitMask gamma
      else twoLayers (fun l bitMask => externalButterflyRouting fuel' sizeofTagged l Zs bitMask heapSize) l Zs bitMask
  end.
End routing.

(** ** Shuffle and sort *)

Section shuffle.
Context {T G : Type} `{RandGen G} (blank : T) (ndebug : bool).

(** One slot: a random tag with the lowest bit cleared, and the next element of
    the input if this part of the bucket takes one. *)
Fixpoint padBucket (Zs numRealPerBucket : nat) (k : nat) (inp : list T) (g : G) : list (TaggedT T) * list T * G :=
  match k with
  | O => ([], inp, g)
  | S k =>
      let '(r, g) := rand64 g in
      let t := Z.land r (2 ^ 64 - 2) in
      let offset := Zs - S k in
      let '(x, inp) :=
        match inp with
        | d :: inp' => if offset <? numRealPerBucket then (mkTagged t d, inp') else (mkTagged (Z.lor t 1) blank, inp)
        | [] => (mkTagged (Z.lor t 1) blank, [])
        end in
      let '(b, inp, g) := padBucket Zs numRealPerBucket k inp g in (x :: b, inp, g)
  end.

Fixpoint padBuckets (Zs numRealPerBucket : nat) (n : nat) (inp : list T) (g : G) : list (TaggedT T) * list T * G :=
  match n with
  | O => ([], inp, g)
  | S n =>
      let '(b, inp, g) := padBucket Zs numRealPerBucket Zs inp g in
      let '(bs, inp, g) := padBuckets Zs numRealPerBucket n inp g in (b ++ bs, inp, g)
  end.

Definition tagAndPad (inp : list T) (Zs : nat) (g : G) : list (TaggedT T) * G :=
  let inputSize := length inp in
  let intermidiateSize := Nat.max (Z.to_nat (GetNextPowerOfTwo (w64 (2 * Z.of_nat inputSize)))) Zs in
  let numBucket := intermidiateSize / Zs in
  let numRealPerBucket := divUp inputSize numBucket in
  let '(tv, _, g) := padBuckets Zs numRealPerBucket numBucket inp g in (tv, g).

Definition bucketZ : nat := 512.

Definition tagLess (a b : TaggedT T) : bool := (tag a <? tag b)%Z.

(** What is written: bucket by bucket, in the order of the tags, without the
    dummies. *)
Definition inTagOrder (tv : list (TaggedT T)) : list (TaggedT T) :=
  concat ((fun bucketIdx => filter (fun x => dummyFlag x = false) (BitonicSort tagLess (slice (bucketIdx * bucketZ) bucketZ tv)))
    <$> seq 0 (length tv / bucketZ)).

(** The assertion on what is written.  Its assignment binds weaker than the
    disjunction, so that [prev] becomes 1, and not the tag. *)
Fixpoint orderAssert (prev : Z) (written : list (TaggedT T)) : bool :=
  match written with
  | [] => true
  | x :: written => (prev <=? tag x)%Z && orderAssert 1 written
  end.

(** The range after the writer has written over its beginning. *)
Definition overwritten (inp : list T) (written : list (TaggedT T)) : list T := (v <$> written) ++ drop (length written) inp.

(** The writer of this shuffle is not flushed; on a list, as here and with the
    vectors in memory that it is run on, there is nothing to flush. *)
Definition CABucketShuffleInternal (fuel : nat) (inp : list T) (g : G) : option (list T * G) :=
  let '(tv, g) := tagAndPad inp bucketZ g in
  tv ← butterflyRouting blank ndebug fuel tv bucketZ (2 ^ 63) (Z.to_nat (GetLogBaseTwo (Z.of_nat (length tv))));
  if ndebug || orderAssert 0 (inTagOrder tv) then Some (overwritten inp (inTagOrder tv), g) else None.

Definition CABucketShuffle (fuel sizeofTagged : nat) (inp : list T) (heapSize : nat) (g : G) : option (list T * G) :=
  let '(tv, g) := tagAndPad inp bucketZ g in
  tv ← externalButterflyRouting blank ndebug fuel sizeofTagged tv bucketZ (2 ^ 63) heapSize;
  if ndebug || orderAssert 0 (inTagOrder tv) then Some (overwritten inp (inTagOrder tv), g) else None.

Context `{StdSort T} (ltb : T -> T -> bool) (mergeWay : nat -> nat -> nat).

Definition CABucketSort (fuel sizeofT sizeofTagged item_per_page : nat) (inp : list T) (heapSize : nat) (g : G) : option (list T * G) :=
  '(out, g) ← CABucketShuffle fuel sizeofTagged inp heapSize g;
  out ← ExtMergeSortBatches ltb mergeWay sizeofT item_per_page out heapSize;
  Some (out, g).

Definition CABucketSortInternal (fuel : nat) (inp : list T) (g : G) : option (list T * G) :=
  '(out, g) ← CABucketShuffleInternal fuel inp g;
  Some (std_sort ltb out, g).
End shuffle.

(** ** Sorted lists *)

Section sorted_keys.
Context {A : Type} (f : A -> Z).
Definition key_le (a b : A) : Prop := (f a <= f b)%Z.
#[global] Instance key_le_dec a b : Decision (key_le a b).
Proof. unfold key_le. apply _. Defined.
#[global] Instance key_le_trans : Transitive key_le.
Proof. intros a b c. unfold key_le. lia. Qed.
#[global] Instance key_le_total : Total key_le.
Proof. intros a b. unfold key_le. lia. Qed.

(** A list in the order of a key is split by any bound on the key. *)
Lemma sorted_key_split l c : StronglySorted key_le l ->
  l = filter (fun x => (f x < c)%Z) l ++ filter (fun x => (c <= f x)%Z) l.
Proof.
  induction 1 as [|x l Hs IH Hx]; [done|]. rewrite !filter_cons. destruct (decide (f x < c)%Z) as [H|H].
  - rewrite decide_False by lia. cbn [app]. by rewrite <-IH.
  - rewrite decide_True by lia. rewrite Forall_forall in Hx.
    rewrite (filter_none (fun y => (f y < c)%Z) l) by (intros y Hy; specialize (Hx y Hy); unfold key_le in Hx; lia). cbn [app].
    by rewrite (filter_every (fun y => (c <= f y)%Z) l) by (intros y Hy; specialize (Hx y Hy); unfold key_le in Hx; lia).
Qed.

Lemma sorted_filter (P : A -> Prop) `{forall x, Decision (P x)} l : StronglySorted key_le l -> StronglySorted key_le (filter P l).
Proof.
  induction 1 as [|x l Hs IH Hx]; [constructor|]. rewrite filter_cons. destruct (decide (P x)); [|done].
  constructor; [done|]. rewrite Forall_forall in Hx |- *. intros y [_ Hy]%list_elem_of_filter. by apply Hx.
Qed.

(** In the order of a key below [n], the list is its groups one after another. *)
Lemma sorted_groups n : forall l, StronglySorted key_le l -> Forall (fun x => (0 <= f x < Z.of_nat n)%Z) l ->
  l = concat ((fun g => filter (fun x => f x = Z.of_nat g) l) <$> seq 0 n).
Proof.
  induction n as [|n IH]; intros l Hs Hl.
  { destruct l as [|x l]; [done|]. apply Forall_cons_1 in Hl as [H _]. lia. }
  rewrite seq_S, fmap_app, concat_app. cbn [fmap list_fmap concat Nat.add]. rewrite app_nil_r.
  rewrite (sorted_key_split l (Z.of_nat n) Hs) at 1. rewrite Forall_forall in Hl. f_equal.
  - rewrite (IH (filter (fun x => (f x < Z.of_nat n)%Z) l)) at 1;
      [|by apply sorted_filter|apply Forall_forall; intros x [H Hx]%list_elem_of_filter; specialize (Hl x Hx); lia].
    f_equal. apply list_fmap_ext. intros i g [-> Hg]%lookup_seq. cbn [Nat.add]. rewrite list_filter_filter.
    apply filter_ext_in. intros x Hx. lia.
  - apply filter_ext_in. intros x Hx. specialize (Hl x Hx). lia.
Qed.
End sorted_keys.

(** ** Masks and digits *)

(** The top [k] bits of the tag from bit [m] on. *)
Definition digit {T} (k m : nat) (x : TaggedT T) : Z := ((tag x / 2 ^ Z.of_nat (m + 1 - k)) mod 2 ^ Z.of_nat k)%Z.

Lemma digit_bound {T} k m (x : TaggedT T) : (0 <= digit k m x < 2 ^ Z.of_nat k)%Z.
Proof. apply Z.mod_pos_bound. lia. Qed.

Lemma land_shifted_ones t k s : (0 <= k)%Z -> (0 <= s)%Z ->
  Z.land t (2 ^ s * (2 ^ k - 1)) = (2 ^ s * ((t / 2 ^ s) mod 2 ^ k))%Z.
Proof.
  intros Hk Hs. replace (2 ^ k - 1)%Z with (Z.ones k) by (rewrite Z.ones_equiv; lia).
  rewrite !(Z.mul_comm (2 ^ s)), <-!Z.shiftl_mul_pow2, <-Z.shiftr_div_pow2, <-Z.land_ones by done.
  apply Z.bits_inj'. intros j Hj. rewrite Z.land_spec. destruct (Z.lt_ge_cases j s) as [H|H].
  - rewrite !Z.shiftl_spec_low by done. by rewrite andb_false_r.
  - rewrite !Z.shiftl_spec by done. rewrite Z.land_spec, Z.shiftr_spec by lia. f_equal. f_equal. lia.
Qed.

Lemma land_range_dummy t k s : (0 <= k)%Z -> (1 <= s)%Z ->
  Z.land t (2 ^ s * (2 ^ k - 1) + 1) = (2 ^ s * ((t / 2 ^ s) mod 2 ^ k) + t mod 2)%Z.
Proof.
  intros Hk Hs. assert (N : forall a, (0 <= a)%Z -> Z.land (2 ^ s * a) 1 = 0%Z).
  { intros a Ha. change 1%Z with (Z.ones 1). rewrite Z.land_ones by lia. change (2 ^ 1)%Z with 2%Z.
    replace (2 ^ s)%Z with (2 * 2 ^ (s - 1))%Z by (rewrite <-Z.pow_succ_r by lia; f_equal; lia).
    rewrite <-Z.mul_assoc, Z.mul_comm. apply Z.mod_mul. lia. }
  assert (A : forall a b, Z.land a b = 0%Z -> (a + b)%Z = Z.lor a b).
  { intros a b H. by rewrite Z.add_nocarry_lxor, Z.lxor_lor by done. }
  rewrite A by (apply N; pose proof (Z.pow_pos_nonneg 2 k); lia). rewrite Z.land_lor_distr_r, land_shifted_ones by lia.
  change (Z.land t 1) with (Z.land t (Z.ones 1)). rewrite (Z.land_ones t 1) by lia. change (2 ^ 1)%Z with 2%Z.
  rewrite A; [done|]. pose proof (Z.mod_pos_bound (t / 2 ^ s) (2 ^ k) ltac:(lia)).
  destruct (Z.mod_pos_bound t 2 ltac:(lia)). assert (t mod 2 = 0 \/ t mod 2 = 1)%Z as [->| ->] by lia; [apply Z.land_0_r|apply N; lia].
Qed.

(** The comparison of a key. *)
Lemma key_swo {A} (f : A -> Z) : StrictWeakOrder (fun a b => f a <? f b)%Z.
Proof. split; intros; lia. Qed.

Lemma bitonic_key_sorted {A} (f : A -> Z) (l : list A) : (Z.of_nat (length l) <= 2 ^ 63)%Z ->
  StronglySorted (key_le f) (BitonicSort (fun a b => f a <? f b)%Z l).
Proof.
  intros Hl. pose proof (BitonicSort_dire_sorted _ (StrictWeakOrder0 := key_swo f) l Hl) as S.
  change (BitonicSort_dire (fun a b => f a <? f b)%Z true l) with (BitonicSort (fun a b => f a <? f b)%Z l) in S.
  revert S. generalize (BitonicSort (fun a b => f a <? f b)%Z l). intros s S. induction S as [|x t Hs IH Hx]; constructor; [done|]. eapply Forall_impl; [exact Hx|].
  intros y Hy. unfold cmp_le in Hy. unfold key_le. lia.
Qed.

Section packing.
Context {T : Type}.
Implicit Types (l : list (TaggedT T)) (x : TaggedT T).

Definition reals l : list (TaggedT T) := filter (fun x => dummyFlag x = false) l.
Definition in_group (k m g : nat) l : list (TaggedT T) := filter (fun x => digit k m x = Z.of_nat g) l.
Definition tags_ok l : Prop := Forall (fun x => in_width 64 (tag x)) l.

#[global] Instance reals_perm : Proper ((≡ₚ) ==> (≡ₚ)) reals.
Proof. intros l l' E. unfold reals. by rewrite E. Qed.
#[global] Instance in_group_perm k m g : Proper ((≡ₚ) ==> (≡ₚ)) (in_group k m g).
Proof. intros l l' E. unfold in_group. by rewrite E. Qed.

Lemma reals_app l l' : reals (l ++ l') = reals l ++ reals l'.
Proof. apply filter_app. Qed.
Lemma reals_concat (ls : list (list (TaggedT T))) : reals (concat ls) = concat (reals <$> ls).
Proof. induction ls as [|l ls IH]; [done|]. rewrite fmap_cons, !concat_cons, reals_app. by rewrite IH. Qed.
Lemma in_group_app k m g l l' : in_group k m g (l ++ l') = in_group k m g l ++ in_group k m g l'.
Proof. apply filter_app. Qed.
Lemma in_group_concat k m g (ls : list (list (TaggedT T))) : in_group k m g (concat ls) = concat (in_group k m g <$> ls).
Proof. induction ls as [|l ls IH]; [done|]. rewrite fmap_cons, !concat_cons, in_group_app. by rewrite IH. Qed.
Lemma reals_in_group k m g l : reals (in_group k m g l) = in_group k m g (reals l).
Proof. unfold reals, in_group. rewrite !list_filter_filter. apply filter_ext_in. intros x _. tauto. Qed.

Lemma dummyFlag_mod x : dummyFlag x = negb (tag x mod 2 =? 0)%Z.
Proof. unfold dummyFlag. change 1%Z with (Z.ones 1). rewrite Z.land_ones by lia. done. Qed.

Lemma dummies_no_reals l : forallb dummyFlag l = true -> reals l = [].
Proof.
  intros H. apply filter_none. rewrite forallb_forall in H. intros x Hx%list_elem_of_In Hr. specialize (H x Hx). congruence.
Qed.

(** *** The marks *)

Definition all_ones : Z := 2 ^ 64 - 1.
Definition marked (n : nat) l : list (TaggedT T) := take n l ++ (withTag all_ones <$> drop n l).

Lemma markExcess_run ndebug Zs rm c l rest : Forall (fun x => Z.land (tag x) rm = c) l -> forall count,
  markExcess ndebug Zs rm count c (l ++ rest) =
  if ndebug || forallb dummyFlag (drop (Zs - count) l)
  then app (marked (Zs - count) l) <$> markExcess ndebug Zs rm (count + length l) c rest else None.
Proof.
  induction 1 as [|x l Hx Hl IH]; intros count.
  { cbn [app length]. rewrite drop_nil, Nat.add_0_r. cbn [forallb]. rewrite orb_true_r. unfold marked. rewrite take_nil, drop_nil. cbn.
    by destruct (markExcess _ _ _ _ _ rest). }
  cbn [app markExcess length]. rewrite Hx, Z.eqb_refl. cbn [negb]. rewrite (IH (S count)), Nat.add_succ_r.
  replace (Zs - S count) with (Nat.pred (Zs - count)) by lia. destruct (Zs <=? count) eqn:E.
  - apply Nat.leb_le in E. replace (Zs - count) with 0 by lia. cbn [Nat.pred]. rewrite !drop_0. cbn [forallb andb].
    destruct ndebug, (dummyFlag x), (forallb dummyFlag l); cbn [orb andb negb]; try done; by destruct (markExcess _ _ _ _ _ rest).
  - apply Nat.leb_gt in E. destruct (Zs - count) as [|n] eqn:En; [lia|]. cbn [Nat.pred drop andb]. rewrite andb_false_r.
    destruct (ndebug || forallb dummyFlag (drop n l)); [|done]. by destruct (markExcess _ _ _ _ _ rest).
Qed.

(** A group starts with a count of zero. *)
Lemma markExcess_group ndebug Zs rm c curr count l rest : l <> [] -> Forall (fun x => Z.land (tag x) rm = c) l ->
  curr <> c \/ count = 0 ->
  markExcess ndebug Zs rm count curr (l ++ rest) =
  if ndebug || forallb dummyFlag (drop Zs l)
  then app (marked Zs l) <$> markExcess ndebug Zs rm (length l) c rest else None.
Proof.
  intros Hne Hl Hc. assert (E : markExcess ndebug Zs rm count curr (l ++ rest) = markExcess ndebug Zs rm 0 c (l ++ rest)).
  { destruct Hl as [|x l Hx Hl]; [done|]. cbn [app markExcess]. rewrite Hx, Z.eqb_refl. cbn [negb].
    destruct Hc as [Hc| ->]; [by rewrite (proj2 (Z.eqb_neq _ _)) by congruence|]. by destruct (negb (c =? curr)%Z). }
  rewrite E, markExcess_run by done. by rewrite Nat.sub_0_r.
Qed.

Lemma markExcess_groups ndebug Zs rm (key : nat -> Z) (seg : nat -> list (TaggedT T)) n : forall g0 count curr,
  (forall g, g0 <= g < g0 + n -> seg g <> [] /\ Forall (fun x => Z.land (tag x) rm = key g) (seg g)) ->
  (forall g, g0 <= g -> (key g < key (S g))%Z) -> (curr < key g0)%Z \/ count = 0 ->
  markExcess ndebug Zs rm count curr (concat (seg <$> seq g0 n)) =
  if ndebug || forallb (fun g => forallb dummyFlag (drop Zs (seg g))) (seq g0 n)
  then Some (concat ((fun g => marked Zs (seg g)) <$> seq g0 n)) else None.
Proof.
  induction n as [|n IH]; intros g0 count curr Hs Hk Hc; [by cbn; rewrite orb_true_r|].
  cbn [seq fmap list_fmap]. rewrite !concat_cons. destruct (Hs g0 ltac:(lia)) as [H1 H2].
  rewrite (markExcess_group ndebug Zs rm (key g0)); [|done|done|destruct Hc; [left; lia|by right]]. cbn [forallb].
  rewrite IH; [|intros g Hg; apply Hs; lia|intros g Hg; apply Hk; lia|left; apply Hk; lia].
  destruct ndebug, (forallb dummyFlag (drop Zs (seg g0))), (forallb _ (seq (S g0) n)); done.
Qed.
End packing.

(** *** A single packing *)

Section bin.
Context {T : Type} (blank : T) (Zs k m : nat).
Context (HZ : 0 < Zs) (Hkm : k <= m <= 63) (Hsize : (2 * (2 ^ Z.of_nat k * Z.of_nat Zs) <= 2 ^ 63)%Z).
Implicit Types (l : list (TaggedT T)) (x : TaggedT T).

Let B : Z := 2 ^ Z.of_nat (m + 1 - k).
Let rm : Z := (B * (2 ^ Z.of_nat k - 1))%Z.
Let f (x : TaggedT T) : Z := Z.land (tag x) (rm + 1).
Let own : list (TaggedT T) := concat ((fun i => replicate Zs (mkTagged (Z.of_nat i * B + 1)%Z blank)) <$> seq 0 (2 ^ k)).

Lemma B_bounds : (2 <= B)%Z /\ (B * 2 ^ Z.of_nat k = 2 ^ Z.of_nat (m + 1))%Z /\ (2 ^ Z.of_nat (m + 1) <= 2 ^ 64)%Z.
Proof.
  clear -Hkm. subst B. split_and!.
  - replace (m + 1 - k) with (S (m - k)) by lia. rewrite Nat2Z.inj_succ, Z.pow_succ_r by lia.
    pose proof (Z.pow_pos_nonneg 2 (Z.of_nat (m - k))). lia.
  - rewrite <-Z.pow_add_r by lia. f_equal. lia.
  - apply Z.pow_le_mono_r; lia.
Qed.

Lemma f_eq x : f x = (B * digit k m x + tag x mod 2)%Z.
Proof. clear -Hkm. unfold f, rm, B. apply land_range_dummy; lia. Qed.

Lemma land_rm x : Z.land (tag x) rm = (B * digit k m x)%Z.
Proof. clear -Hkm. unfold rm, B. apply land_shifted_ones; lia. Qed.

Lemma pow2_nat : Z.of_nat (2 ^ k) = (2 ^ Z.of_nat k)%Z.
Proof. clear. by rewrite Nat2Z.inj_pow. Qed.

(** The masks and the dummies of the code. *)
Lemma binPacking_eq ndebug l : length l = 2 ^ k * Zs ->
  binPacking blank ndebug l Zs (2 ^ Z.of_nat m) =
  (temp ← markExcess ndebug Zs rm 0 0 (BitonicSort (maskLess (rm + 1)) (l ++ own));
   Some (take (2 ^ k * Zs) (BitonicSort (maskLess (rm + 1)) temp))).
Proof.
  intros Hl. unfold binPacking. rewrite Hl, Nat.div_mul by lia. destruct B_bounds as (B2 & BB & B64).
  assert (Hlog : GetLogBaseTwo (Z.of_nat (2 ^ k)) = Z.of_nat k).
  { rewrite pow2_nat, GetLogBaseTwo_spec; [by rewrite Z.log2_pow2 by lia|]. split; [lia|]. apply Z.pow_lt_mono_r; lia. }
  rewrite Hlog, pow2_nat. pose proof (Z.pow_pos_nonneg 2 (Z.of_nat k) ltac:(lia) ltac:(lia)) as Hp.
  assert (Hb : Z.shiftl (Z.shiftr (2 ^ Z.of_nat m) (Z.of_nat k)) 1 = B).
  { rewrite Z.shiftr_div_pow2, Z.shiftl_mul_pow2 by lia. rewrite <-Z.pow_sub_r, <-Z.pow_add_r by lia. unfold B. f_equal. lia. }
  rewrite Hb. destruct (decide (k = 0)) as [Hk|Hk].
  - assert (Er : rm = 0%Z) by (unfold rm; rewrite Hk; cbn; lia).
    assert (Eo : own = concat ((fun i => replicate Zs (mkTagged (w64 (Z.of_nat i * w64 B + 1)) blank)) <$> seq 0 (2 ^ k))) by (unfold own; rewrite Hk; reflexivity).
    rewrite Eo, Er. assert (2 ^ Z.of_nat k - 1 = 0)%Z as -> by (rewrite Hk; reflexivity). rewrite Z.mul_0_r. reflexivity.
  - assert (Bw : (B < 2 ^ 64)%Z) by (pose proof (Z.pow_le_mono_r 2 1 (Z.of_nat k)); nia).
    rewrite (wrap_small 64 B) by (split; lia). rewrite (wrap_small 64 (B * (2 ^ Z.of_nat k - 1))) by (split; nia). fold rm.
    rewrite (wrap_small 64 (rm + 1)) by (unfold rm; split; nia).
    assert (Eo : concat ((fun i => replicate Zs (mkTagged (w64 (Z.of_nat i * B + 1)) blank)) <$> seq 0 (2 ^ k)) = own).
    { unfold own. f_equal. apply list_fmap_ext. intros j i [-> Hi]%lookup_seq. cbn [Nat.add]. do 2 f_equal. apply wrap_small.
      assert (Z.of_nat j < 2 ^ Z.of_nat k)%Z by (rewrite <-pow2_nat; lia). split; nia. }
    by rewrite Eo.
Qed.

Lemma own_tag i : i < 2 ^ k -> digit k m (mkTagged (Z.of_nat i * B + 1)%Z blank) = Z.of_nat i /\
  dummyFlag (mkTagged (Z.of_nat i * B + 1)%Z blank) = true /\ in_width 64 (Z.of_nat i * B + 1)%Z.
Proof.
  intros Hi. destruct B_bounds as (B2 & BB & B64). assert (Hz : (Z.of_nat i < 2 ^ Z.of_nat k)%Z) by (rewrite <-pow2_nat; lia).
  unfold digit. cbn [tag]. fold B. split_and!.
  - rewrite Z.div_add_l, (Z.div_small 1) by lia. rewrite Z.add_0_r. apply Z.mod_small. lia.
  - rewrite dummyFlag_mod. cbn [tag]. unfold B. replace (m + 1 - k) with (S (m - k)) by lia. rewrite Nat2Z.inj_succ, Z.pow_succ_r by lia.
    replace (Z.of_nat i * (2 * 2 ^ Z.of_nat (m - k)) + 1)%Z with (1 + (Z.of_nat i * 2 ^ Z.of_nat (m - k)) * 2)%Z by lia.
    by rewrite Z.mod_add.
  - split; nia.
Qed.

Lemma own_group g : g < 2 ^ k -> in_group k m g own = replicate Zs (mkTagged (Z.of_nat g * B + 1)%Z blank).
Proof.
  intros Hg. unfold own. rewrite in_group_concat, <-list_fmap_compose.
  transitivity (concat ((fun i => if decide (i = g) then replicate Zs (mkTagged (Z.of_nat g * B + 1)%Z blank) else []) <$> seq 0 (2 ^ k))).
  - f_equal. apply list_fmap_ext. intros j i [-> Hi]%lookup_seq. cbn [Nat.add compose]. unfold in_group.
    destruct (own_tag j Hi) as [E _]. destruct (decide (j = g)) as [->|Hne].
    + apply filter_every. intros x Hx. by apply elem_of_replicate in Hx as [-> _].
    + apply filter_none. intros x Hx. apply elem_of_replicate in Hx as [-> _]. rewrite E. lia.
  - rewrite (concat_only _ _ 0 g); [by rewrite decide_True|intros i Hi; by rewrite decide_False|lia].
Qed.

Lemma own_facts : reals own = [] /\ tags_ok own /\ length own = 2 ^ k * Zs.
Proof.
  split_and!.
  - apply filter_none. intros x Hx. unfold own in Hx. apply list_elem_of_In, in_concat in Hx as (c & Hc & Hx).
    apply list_elem_of_In, list_elem_of_fmap in Hc as (i & -> & Hi%elem_of_seq). apply list_elem_of_In, elem_of_replicate in Hx as [-> _].
    destruct (own_tag i ltac:(lia)) as (_ & E & _). congruence.
  - apply Forall_concat, Forall_fmap, Forall_forall. intros i Hi%elem_of_seq. apply Forall_replicate. by apply own_tag; lia.
  - unfold own. apply (concat_length_const (fun i => replicate Zs (mkTagged (Z.of_nat i * B + 1)%Z blank)) Zs). intros i _. apply length_replicate.
Qed.

Lemma f_sorted_digit s : StronglySorted (key_le f) s -> StronglySorted (key_le (digit k m)) s.
Proof.
  apply StronglySorted_weaken. intros x y _ _. unfold key_le. rewrite !f_eq. destruct B_bounds as [B2 _].
  pose proof (Z.mod_pos_bound (tag x) 2). pose proof (Z.mod_pos_bound (tag y) 2). nia.
Qed.

(** Within a group the real elements come first. *)
Lemma group_reals_first g s : StronglySorted (key_le f) s ->
  in_group k m g s = reals (in_group k m g s) ++ filter (fun x => dummyFlag x = true) (in_group k m g s).
Proof.
  intros Hs. assert (Ho : StronglySorted (key_le (fun x => tag x mod 2)%Z) (in_group k m g s)).
  { eapply StronglySorted_weaken; [|by apply (sorted_filter f)]. intros x y [Hx _]%list_elem_of_filter [Hy _]%list_elem_of_filter.
    unfold key_le. rewrite !f_eq, Hx, Hy. lia. }
  rewrite (sorted_key_split _ _ 1 Ho) at 1. unfold reals. f_equal; apply filter_ext_in; intros x _; rewrite dummyFlag_mod;
    pose proof (Z.mod_pos_bound (tag x) 2 ltac:(lia)); destruct (Z.eqb_spec (tag x mod 2) 0); cbn [negb]; split; intros; lia || done.
Qed.

(** What the second sort leaves in the place of a group. *)
Lemma place_of_group s s' g : StronglySorted (key_le f) s -> s ≡ₚ s' ->
  length (filter (fun x => (digit k m x < Z.of_nat g)%Z) s') = g * Zs ->
  Zs <= length (in_group k m g s') -> length (reals (in_group k m g s')) <= Zs ->
  reals (slice (g * Zs) Zs s) ≡ₚ reals (in_group k m g s').
Proof.
  intros Hs Hp Hlen Hz Hr. pose proof (f_sorted_digit s Hs) as Hd.
  assert (E : s = filter (fun x => (digit k m x < Z.of_nat g)%Z) s ++ in_group k m g s ++ filter (fun x => (Z.of_nat g < digit k m x)%Z) s).
  { rewrite (sorted_key_split _ s (Z.of_nat g) Hd) at 1. f_equal.
    rewrite (sorted_key_split _ _ (Z.of_nat g + 1) (sorted_filter _ (fun x => (Z.of_nat g <= digit k m x)%Z) s Hd)) at 1.
    rewrite !list_filter_filter. f_equal; apply filter_ext_in; intros x _; lia. }
  assert (L : length (filter (fun x => (digit k m x < Z.of_nat g)%Z) s) = g * Zs) by (rewrite <-Hlen; by rewrite Hp).
  assert (Lg : length (in_group k m g s) = length (in_group k m g s')) by (by rewrite Hp).
  unfold slice. rewrite E at 1. rewrite drop_app_length' by done. rewrite take_app_le by lia.
  rewrite (group_reals_first g s Hs). assert (Er : reals (in_group k m g s) ≡ₚ reals (in_group k m g s')) by (by rewrite Hp).
  rewrite take_app_ge by (rewrite Er; lia). rewrite reals_app. rewrite <-Er.
  assert (reals (take (Zs - length (reals (in_group k m g s))) (filter (fun x => dummyFlag x = true) (in_group k m g s))) = []) as ->.
  { apply filter_none. intros x Hx Hf. apply elem_of_take in Hx as (i & Hi%list_elem_of_lookup_2 & _).
    apply list_elem_of_filter in Hi as [Hi _]. congruence. }
  rewrite app_nil_r. unfold reals. rewrite list_filter_filter. by rewrite (filter_ext_in _ (fun x => dummyFlag x = false)) by (intros; tauto).
Qed.

Lemma marked_facts g s : g < 2 ^ k -> Zs <= length s -> Forall (fun x => digit k m x = Z.of_nat g) s ->
  forall g', g' < 2 ^ k ->
  length (filter (fun x => (digit k m x < Z.of_nat g')%Z) (marked Zs s)) = (if decide (g < g') then Zs else 0) /\
  (g <> g' -> reals (in_group k m g' (marked Zs s)) = []) /\
  reals (in_group k m g (marked Zs s)) = reals (take Zs s) /\ Zs <= length (in_group k m g (marked Zs s)).
Proof.
  intros Hg Hs Hd g' Hg'. destruct B_bounds as (B2 & BB & B64).
  assert (Dm : forall x, digit k m (withTag all_ones x) = (2 ^ Z.of_nat k - 1)%Z).
  { intros x. unfold digit, withTag, all_ones. cbn [tag]. fold B. pose proof (Z.pow_pos_nonneg 2 (Z.of_nat k) ltac:(lia) ltac:(lia)).
    assert (E64 : (2 ^ 64 = B * 2 ^ Z.of_nat (64 - (m + 1 - k)))%Z) by (unfold B; rewrite <-Z.pow_add_r by lia; f_equal; lia).
    assert (Ek : (2 ^ Z.of_nat (64 - (m + 1 - k)) = 2 ^ Z.of_nat k * 2 ^ Z.of_nat (63 - m))%Z) by (rewrite <-Z.pow_add_r by lia; f_equal; lia).
    set (c := (2 ^ Z.of_nat (63 - m))%Z) in *. assert (0 < c)%Z by (apply Z.pow_pos_nonneg; lia).
    replace (2 ^ 64 - 1)%Z with ((B - 1) + (2 ^ Z.of_nat k * c - 1) * B)%Z by (rewrite E64, Ek; ring).
    rewrite Z.div_add, Z.div_small by lia. replace (0 + (2 ^ Z.of_nat k * c - 1))%Z with ((2 ^ Z.of_nat k - 1) + (c - 1) * 2 ^ Z.of_nat k)%Z by ring.
    rewrite Z.mod_add, Z.mod_small by lia. done. }
  assert (Rm : forall t : list (TaggedT T), reals (withTag all_ones <$> t) = []).
  { intros t. apply filter_none. intros x (y & -> & _)%list_elem_of_fmap. by rewrite dummyFlag_mod. }
  assert (Ht : Forall (fun x => digit k m x = Z.of_nat g) (take Zs s)) by (by apply Forall_take).
  rewrite Forall_forall in Ht. unfold marked. assert (Hpow : (Z.of_nat g < 2 ^ Z.of_nat k /\ Z.of_nat g' < 2 ^ Z.of_nat k)%Z) by (rewrite <-pow2_nat; lia).
  split_and!.
  - rewrite filter_app, length_app. rewrite (filter_none _ (_ <$> _)) by (intros x (y & -> & _)%list_elem_of_fmap; rewrite Dm; lia).
    destruct (decide (g < g')).
    + rewrite filter_every by (intros x Hx; rewrite (Ht x Hx); lia). rewrite length_take. cbn [length]. lia.
    + rewrite filter_none; [done|]. intros x Hx. rewrite (Ht x Hx). lia.
  - intros Hne. rewrite reals_in_group, reals_app, Rm, app_nil_r. apply filter_none. intros x [_ Hx]%list_elem_of_filter. rewrite (Ht x Hx). lia.
  - rewrite reals_in_group, reals_app, Rm, app_nil_r. apply filter_every. intros x [_ Hx]%list_elem_of_filter. by apply Ht.
  - rewrite in_group_app, length_app. unfold in_group at 1. rewrite (filter_every _ (take Zs s)) by (intros x Hx; by rewrite (Ht x Hx)).
    rewrite length_take. lia.
Qed.

Definition fits l (g : nat) : bool := length (in_group k m g (reals l)) <=? Zs.

(** Sorted with the dummies of the buckets, the list is the groups, and a group
    holds the real elements before at least [Zs] dummies. *)
Lemma packed_groups l g : g < 2 ^ k -> length l = 2 ^ k * Zs ->
  let t := BitonicSort (maskLess (rm + 1)) (l ++ own) in
  Zs <= length (in_group k m g t) /\
  reals (in_group k m g t) ≡ₚ in_group k m g (reals l) /\
  reals (take Zs (in_group k m g t)) = take Zs (reals (in_group k m g t)) /\
  forallb dummyFlag (drop Zs (in_group k m g t)) = fits l g.
Proof.
  intros Hg Hl t. assert (Hp : t ≡ₚ l ++ own) by apply (BitonicSort_dire_perm _ true). destruct own_facts as (Ro & _ & Lo).
  assert (Hs : StronglySorted (key_le f) t).
  { apply (bitonic_key_sorted f). rewrite length_app, Lo, Hl, Nat2Z.inj_add, Nat2Z.inj_mul, pow2_nat. lia. }
  assert (E2 : reals (in_group k m g t) ≡ₚ in_group k m g (reals l)).
  { by rewrite reals_in_group, Hp, reals_app, Ro, app_nil_r. }
  pose proof (group_reals_first g t Hs) as E. set (d := filter (fun x => dummyFlag x = true) _) in E.
  assert (Hd : Forall (fun x => dummyFlag x = true) d) by (apply Forall_forall; intros x Hx; by apply list_elem_of_filter in Hx as [? _]).
  split_and!; [|done| |].
  - rewrite Hp, in_group_app, length_app, own_group, length_replicate by done. lia.
  - set (r := reals (in_group k m g t)) in *. rewrite E, take_app, reals_app. rewrite (dummies_no_reals (take _ d)), app_nil_r.
    + apply filter_every. intros x (i & Hi%list_elem_of_lookup_2 & _)%elem_of_take. by apply list_elem_of_filter in Hi as [? _].
    + apply forallb_forall. intros x (i & Hi%list_elem_of_lookup_2 & _)%list_elem_of_In%elem_of_take. rewrite Forall_forall in Hd. by apply Hd.
  - unfold fits. rewrite <-E2. set (r := reals (in_group k m g t)) in *. rewrite E, drop_app, forallb_app.
    assert (forallb dummyFlag (drop (Zs - length r) d) = true) as ->.
    { apply forallb_forall. intros x Hx%list_elem_of_In. rewrite Forall_forall in Hd. apply Hd. by eapply subseteq_drop. }
    rewrite andb_true_r. destruct (length r <=? Zs) eqn:Er; [apply Nat.leb_le in Er; by rewrite drop_ge|apply Nat.leb_gt in Er].
    destruct (drop Zs r) as [|x q] eqn:Ed; [apply (f_equal length) in Ed; rewrite length_drop in Ed; cbn in Ed; lia|].
    assert (Hx : x ∈ r) by (apply (subseteq_drop Zs); rewrite Ed; by left). apply list_elem_of_filter in Hx as [Hx _]. cbn [forallb]. by rewrite Hx.
Qed.

(** What a packing leaves in a bucket: the real elements of the group, as far as
    there is room. *)
Definition packed l (out : list (TaggedT T)) : Prop :=
  length out = length l /\ tags_ok out /\
  forall g, g < 2 ^ k -> reals (slice (g * Zs) Zs out) ⊆+ in_group k m g (reals l) /\
    length (reals (slice (g * Zs) Zs out)) = Nat.min Zs (length (in_group k m g (reals l))).

Lemma second_sort (t : list (TaggedT T)) : let seg g := in_group k m g t in let s' := concat ((fun g => marked Zs (seg g)) <$> seq 0 (2 ^ k)) in
  (forall g, g < 2 ^ k -> Zs <= length (seg g)) -> (Z.of_nat (length s') <= 2 ^ 63)%Z ->
  forall g, g < 2 ^ k -> reals (slice (g * Zs) Zs (BitonicSort (maskLess (rm + 1)) s')) ≡ₚ reals (take Zs (seg g)).
Proof.
  intros seg s' Hz Hl g Hg. assert (Hd : forall g, Forall (fun x => digit k m x = Z.of_nat g) (seg g)).
  { intros i. apply Forall_forall. intros x Hx. by apply list_elem_of_filter in Hx as [? _]. }
  assert (M : forall i, i < 2 ^ k -> _) by (intros i Hi; exact (marked_facts i (seg i) Hi (Hz i Hi) (Hd i) g Hg)).
  destruct (marked_facts g (seg g) Hg (Hz g Hg) (Hd g) g Hg) as (_ & _ & Rg & Lg).
  assert (R : reals (in_group k m g s') = reals (take Zs (seg g))).
  { unfold s'. rewrite in_group_concat, reals_concat, <-!list_fmap_compose.
    transitivity (concat ((fun i => if decide (i = g) then reals (take Zs (seg g)) else []) <$> seq 0 (2 ^ k))).
    - f_equal. apply list_fmap_ext. intros j i [-> Hi]%lookup_seq. cbn [Nat.add compose]. destruct (decide (j = g)) as [->|Hne]; [exact Rg|].
      by apply (M j Hi).
    - rewrite (concat_only _ _ 0 g); [by rewrite decide_True|intros i Hi; by rewrite decide_False|lia]. }
  rewrite <-R. apply place_of_group.
  - by apply (bitonic_key_sorted f).
  - apply (BitonicSort_dire_perm _ true).
  - unfold s'. rewrite filter_concat, <-list_fmap_compose. rewrite (concat_length_below _ Zs g), Nat.min_l; [done|lia|].
    intros i Hi. cbn [compose]. by apply (M i Hi).
  - assert (Hin : in_group k m g (marked Zs (seg g)) ⊆+ in_group k m g s'); [|apply submseteq_length in Hin; lia].
    unfold s'. rewrite in_group_concat, <-list_fmap_compose. by apply (concat_has (fun i => in_group k m g (marked Zs (seg i)))).
  - rewrite R. etransitivity; [apply length_filter|]. rewrite length_take. lia.
Qed.

Lemma marked_length n l : length (marked n l) = length l.
Proof. unfold marked. by rewrite length_app, length_fmap, <-length_app, take_drop. Qed.

Lemma marked_tags n l : tags_ok l -> tags_ok (marked n l).
Proof.
  intros H. unfold marked. apply Forall_app. split; [by apply Forall_take|]. apply Forall_fmap, Forall_forall. intros x _. by split.
Qed.

Lemma tags_ok_perm l l' : l ≡ₚ l' -> tags_ok l -> tags_ok l'.
Proof. intros E. unfold tags_ok. by rewrite E. Qed.

(** A packing returns a list that keeps as many real elements of each group as
    a bucket holds; with assertions, it aborts exactly when some group has
    more. *)
Lemma binPacking_runs l : length l = 2 ^ k * Zs -> tags_ok l -> exists out, packed l out /\
  forall ndebug, binPacking blank ndebug l Zs (2 ^ Z.of_nat m) =
    if ndebug || forallb (fits l) (seq 0 (2 ^ k)) then Some out else None.
Proof.
  intros Hl Ht. set (t := BitonicSort (maskLess (rm + 1)) (l ++ own)). set (seg g := in_group k m g t).
  assert (Hp : t ≡ₚ l ++ own) by apply (BitonicSort_dire_perm _ true). destruct own_facts as (_ & To & Lo). destruct B_bounds as (B2 & _ & _).
  assert (Lt : length t = 2 * (2 ^ k * Zs)) by (rewrite Hp, length_app; lia).
  assert (Hlen : (Z.of_nat (2 * (2 ^ k * Zs)) <= 2 ^ 63)%Z) by (rewrite !Nat2Z.inj_mul, pow2_nat; lia).
  assert (Hs : StronglySorted (key_le f) t) by (apply (bitonic_key_sorted f); rewrite length_app; lia).
  assert (G : forall g, g < 2 ^ k -> _) by (intros g Hg; exact (packed_groups l g Hg Hl)). fold t in G.
  assert (Et : t = concat (seg <$> seq 0 (2 ^ k))).
  { apply sorted_groups; [by apply f_sorted_digit|]. apply Forall_forall. intros x _. rewrite pow2_nat. apply digit_bound. }
  set (s' := concat ((fun g => marked Zs (seg g)) <$> seq 0 (2 ^ k))).
  assert (Ls : length s' = length t).
  { unfold s'. rewrite Et at 1. rewrite !length_concat, <-!list_fmap_compose. f_equal. apply list_fmap_ext. intros i g _. apply marked_length. }
  assert (Tt : tags_ok t) by (eapply tags_ok_perm; [by symmetry|by apply Forall_app]).
  assert (Ts : tags_ok s').
  { apply Forall_concat, Forall_fmap, Forall_forall. intros g _. apply marked_tags. apply Forall_forall. intros x [_ Hx]%list_elem_of_filter. revert x Hx. by apply Forall_forall. }
  set (s := BitonicSort (maskLess (rm + 1)) s'). assert (Hps : s ≡ₚ s') by apply (BitonicSort_dire_perm _ true).
  exists (take (2 ^ k * Zs) s). split; [split_and!|].
  - rewrite length_take, (Permutation_length Hps). lia.
  - apply Forall_take. by eapply tags_ok_perm.
  - intros g Hg. destruct (G g Hg) as (G1 & G2 & G3 & _).
    assert (E : slice (g * Zs) Zs (take (2 ^ k * Zs) s) = slice (g * Zs) Zs s).
    { unfold slice. rewrite skipn_firstn_comm, take_take. f_equal. nia. }
    rewrite E. pose proof (second_sort t (fun g Hg => proj1 (G g Hg)) ltac:(fold seg s'; lia) g Hg) as P. cbv zeta in P. fold seg s' s in P.
    fold (seg g) in G2, G3. rewrite P, G3. rewrite <-G2. split; [apply sublist_submseteq, sublist_take|apply length_take].
  - intros nd. rewrite binPacking_eq by done. fold t. rewrite Et at 1.
    rewrite (markExcess_groups nd Zs rm (fun g => B * Z.of_nat g)%Z seg (2 ^ k)).
    + assert (forallb (fun g => forallb dummyFlag (drop Zs (seg g))) (seq 0 (2 ^ k)) = forallb (fits l) (seq 0 (2 ^ k))) as ->; [|by destruct (nd || _)].
      apply eq_true_iff_eq. rewrite !forallb_forall. split; intros F g Hg; specialize (F g Hg); apply in_seq in Hg;
        destruct (G g ltac:(lia)) as (_ & _ & _ & <-) || destruct (G g ltac:(lia)) as (_ & _ & _ & E); [done|by rewrite <-E in F].
    + intros g Hg. destruct (G g ltac:(lia)) as (G1 & _). split; [intros E; unfold seg in E; rewrite E in G1; cbn in G1; lia|].
      apply Forall_forall. intros x Hx. apply list_elem_of_filter in Hx as [Hx _]. by rewrite land_rm, Hx.
    + intros g _. lia.
    + by right.
Qed.
End bin.

(** *** Two layers *)

Lemma digit_split {T} k h m (x : TaggedT T) : h <= k <= m ->
  digit k m x = (digit h m x * 2 ^ Z.of_nat (k - h) + digit (k - h) (m - h) x)%Z.
Proof.
  intros H. unfold digit. replace (m - h + 1 - (k - h)) with (m + 1 - k) by lia.
  replace (m + 1 - h) with ((m + 1 - k) + (k - h)) by lia.
  rewrite Nat2Z.inj_add, Z.pow_add_r, <-Z.div_div by lia. set (q := (tag x / _)%Z).
  replace (2 ^ Z.of_nat k)%Z with (2 ^ Z.of_nat (k - h) * 2 ^ Z.of_nat h)%Z by (rewrite <-Z.pow_add_r by lia; f_equal; lia).
  rewrite Z.rem_mul_r by lia. lia.
Qed.

(** A list is its groups, whatever its order. *)
Lemma groups_perm {A} (f : A -> Z) n (l : list A) : (forall x, x ∈ l -> 0 <= f x < Z.of_nat n)%Z ->
  l ≡ₚ concat ((fun g => filter (fun x => f x = Z.of_nat g) l) <$> seq 0 n).
Proof.
  intros H. assert (Hs : exists s, s ≡ₚ l /\ StronglySorted (key_le f) s).
  { exists (merge_sort (key_le f) l). split; [apply merge_sort_Permutation|]. apply (StronglySorted_merge_sort (key_le f)). }
  destruct Hs as (s & Hp & Hs). rewrite <-Hp at 1. rewrite (sorted_groups f n s Hs).
  - apply perm_concat. intros g _. by rewrite Hp.
  - apply Forall_forall. intros x Hx. apply H. by rewrite <-Hp.
Qed.

(** The shape of the recursion: the batches that are packed, and those that
    are cut in two layers. *)
Inductive net :=
| Pack
| Two (first second : net).

Section layers.
Context {T : Type} (Zs : nat).
Implicit Types (l : list (TaggedT T)) (B O : nat -> list (TaggedT T)).

(** The real elements of the buckets of a list, and all the elements of [2 ^ k]
    buckets. *)
Definition buckets l (i : nat) : list (TaggedT T) := reals (slice (i * Zs) Zs l).
Definition total (k : nat) B : list (TaggedT T) := concat (B <$> seq 0 (2 ^ k)).

(** Overflow, by the elements alone.  A packing of [2 ^ k] buckets by the [k]
    bits of the tag from bit [m] on has room for [Zs] elements of each value of
    these bits.  Two layers pack the batches of [2 ^ h] successive buckets by
    the top [h] of the bits, and then, for every value [c] of these, what the
    batches hold of it, by the other bits. *)
Fixpoint no_overflow (n : net) (k m : nat) B : bool :=
  match n with
  | Pack => forallb (fun g => length (in_group k m g (total k B)) <=? Zs) (seq 0 (2 ^ k))
  | Two a b =>
      let h := k / 2 in
      let batch i j := B (i * 2 ^ h + j) in
      forallb (fun i => no_overflow a h m (batch i)) (seq 0 (2 ^ (k - h))) &&
      forallb (fun c => no_overflow b (k - h) (m - h) (fun i => in_group h m c (total h (batch i)))) (seq 0 (2 ^ h))
  end.

(** Where the elements go, and how many are lost: of each group, a packing keeps
    what a bucket holds.  Bucket [c] of batch [i] of the first layer becomes
    bucket [i] of batch [c] of the second. *)
Fixpoint routed (n : net) (k m : nat) B O : Prop :=
  match n with
  | Pack => forall g, g < 2 ^ k -> O g ⊆+ in_group k m g (total k B) /\ length (O g) = Nat.min Zs (length (in_group k m g (total k B)))
  | Two a b =>
      let h := k / 2 in
      exists M : nat -> nat -> list (TaggedT T),
        (forall i, i < 2 ^ (k - h) -> routed a h m (fun j => B (i * 2 ^ h + j)) (M i)) /\
        (forall c, c < 2 ^ h -> routed b (k - h) (m - h) (fun i => M i c) (fun j => O (c * 2 ^ (k - h) + j)))
  end.

(** All elements arrive. *)
Definition complete (k m : nat) B O : Prop := forall g, g < 2 ^ k -> O g ≡ₚ in_group k m g (total k B).

Lemma total_buckets k l : length l = 2 ^ k * Zs -> total k (buckets l) = reals l.
Proof.
  intros Hl. transitivity (reals (concat (blocks Zs (2 ^ k) l))); [|by rewrite blocks_whole].
  unfold total, buckets, blocks. by rewrite reals_concat, <-list_fmap_compose.
Qed.

Lemma in_group_split k h m g l : h <= k <= m -> g < 2 ^ k ->
  in_group k m g l = in_group (k - h) (m - h) (g mod 2 ^ (k - h)) (in_group h m (g / 2 ^ (k - h)) l).
Proof.
  intros H Hg. unfold in_group. rewrite list_filter_filter. apply filter_ext_in. intros x _. rewrite (digit_split k h m x H).
  pose proof (digit_bound h m x). pose proof (digit_bound (k - h) (m - h) x). rewrite Nat2Z.inj_mod, Nat2Z.inj_div, Nat2Z.inj_pow.
  change (Z.of_nat 2) with 2%Z. set (p := (2 ^ Z.of_nat (k - h))%Z) in *. split.
  - intros <-. rewrite Z.div_add_l, Z.div_small, (Z.add_comm _ (digit (k - h) _ _)), Z.mod_add, Z.mod_small by lia. lia.
  - intros [-> ->]. pose proof (Z.div_mod (Z.of_nat g) p). lia.
Qed.

(** Group [c * 2 ^ (k - h) + j] is group [j] of group [c]. *)
Lemma in_group_pair k h m c j l : h <= k <= m -> c < 2 ^ h -> j < 2 ^ (k - h) ->
  c * 2 ^ (k - h) + j < 2 ^ k /\ in_group k m (c * 2 ^ (k - h) + j) l = in_group (k - h) (m - h) j (in_group h m c l).
Proof.
  intros H Hc Hj. assert (Ep : 2 ^ k = 2 ^ h * 2 ^ (k - h)) by (rewrite <-Nat.pow_add_r; f_equal; lia).
  assert (Hg : c * 2 ^ (k - h) + j < 2 ^ k) by nia. split; [done|]. rewrite (in_group_split k h m) by done.
  rewrite (Nat.add_comm (c * _)), Nat.Div0.mod_add, Nat.mod_small, Nat.div_add, Nat.div_small by lia. done.
Qed.

Lemma total_rows k h B : h <= k -> total k B = concat ((fun i => total h (fun j => B (i * 2 ^ h + j))) <$> seq 0 (2 ^ (k - h))).
Proof.
  intros Hh. unfold total. rewrite <-concat_seq_rows. replace (2 ^ (k - h) * 2 ^ h) with (2 ^ k); [done|].
  rewrite <-Nat.pow_add_r. f_equal. lia.
Qed.

Lemma total_group k h m c B : h <= k ->
  total (k - h) (fun i => in_group h m c (total h (fun j => B (i * 2 ^ h + j)))) = in_group h m c (total k B).
Proof. intros Hh. rewrite (total_rows k h B Hh), in_group_concat, <-list_fmap_compose. done. Qed.

Lemma half_le k : k / 2 <= k.
Proof. apply Nat.Div0.div_le_upper_bound. lia. Qed.

Lemma row_bound k h i j : h <= k -> i < 2 ^ (k - h) -> j < 2 ^ h -> i * 2 ^ h + j < 2 ^ k.
Proof. intros Hh Hi Hj. assert (2 ^ k = 2 ^ (k - h) * 2 ^ h) as -> by (rewrite <-Nat.pow_add_r; f_equal; lia). nia. Qed.

Lemma total_perm k B B' : (forall i, i < 2 ^ k -> B i ≡ₚ B' i) -> total k B ≡ₚ total k B'.
Proof. intros E. apply perm_concat. intros i Hi%elem_of_seq. apply E. lia. Qed.

Lemma no_overflow_perm n : forall k m B B', (forall i, i < 2 ^ k -> B i ≡ₚ B' i) -> no_overflow n k m B = no_overflow n k m B'.
Proof.
  induction n as [|a IHa b IHb]; intros k m B B' E; cbn [no_overflow].
  - apply forallb_ext_seq. intros g _. by rewrite (total_perm k B B' E).
  - pose proof (half_le k) as Hh. set (h := k / 2) in *.
    assert (R : forall i j, i < 2 ^ (k - h) -> j < 2 ^ h -> B (i * 2 ^ h + j) ≡ₚ B' (i * 2 ^ h + j)) by (intros i j Hi Hj; by apply E, (row_bound k h)).
    f_equal; apply forallb_ext_seq; intros i Hi; [apply IHa; intros j Hj; by apply R|]. apply IHb. intros j Hj. f_equiv. apply total_perm.
    intros q Hq. by apply R.
Qed.

Lemma routed_ext n : forall k m B B' O O', (forall i, i < 2 ^ k -> B i = B' i) -> (forall i, i < 2 ^ k -> O i = O' i) ->
  routed n k m B O -> routed n k m B' O'.
Proof.
  induction n as [|a IHa b IHb]; intros k m B B' O O' EB EO; cbn [routed].
  - assert (total k B = total k B') as ->. { unfold total. f_equal. apply list_fmap_ext. intros i j [-> Hj]%lookup_seq. by apply EB. }
    intros H g Hg. rewrite <-EO by done. by apply H.
  - pose proof (half_le k) as Hh. set (h := k / 2) in *. intros (M & H1 & H2). exists M. split; intros i Hi.
    + eapply IHa; [|done|by apply H1]. intros j Hj. by apply EB, (row_bound k h).
    + eapply IHb; [done| |by apply H2]. intros j Hj. apply EO. by apply (in_group_pair k h k i j []).
Qed.

Lemma routed_sub n : forall k m B O, k <= m -> routed n k m B O -> forall g, g < 2 ^ k -> O g ⊆+ in_group k m g (total k B).
Proof.
  induction n as [|a IHa b IHb]; intros k m B O Hk R g Hg; [by apply R|]. destruct R as (M & H1 & H2).
  pose proof (half_le k) as Hh. set (h := k / 2) in *. assert (Ne : 2 ^ (k - h) <> 0) by (apply Nat.pow_nonzero; lia).
  assert (Hc : g / 2 ^ (k - h) < 2 ^ h). { apply Nat.Div0.div_lt_upper_bound. rewrite <-Nat.pow_add_r. by replace (k - h + h) with k by lia. }
  pose proof (Nat.mod_upper_bound g _ Ne) as Hj. rewrite (in_group_split k h m g) by done.
  set (c := g / 2 ^ (k - h)) in *. set (j := g mod 2 ^ (k - h)) in *.
  assert (Eg : g = c * 2 ^ (k - h) + j) by (unfold c, j; pose proof (Nat.div_mod_eq g (2 ^ (k - h))); lia). rewrite Eg.
  etransitivity; [exact (IHb (k - h) (m - h) (fun i => M i c) (fun j => O (c * 2 ^ (k - h) + j)) ltac:(lia) (H2 c Hc) j Hj)|].
  apply submseteq_filter. rewrite <-total_group by done. apply submseteq_concat. intros i Hi%elem_of_seq.
  apply IHa; [lia|apply H1; lia|done].
Qed.

(** Two layers that keep everything, and what is lost in the first layer is
    missing in the second. *)
Section two.
Context (k m h : nat) (Hh : h <= k <= m) (B O : nat -> list (TaggedT T)) (M : nat -> nat -> list (TaggedT T)).
Let batch (i j : nat) := B (i * 2 ^ h + j).
Context (S1 : forall i, i < 2 ^ (k - h) -> forall c, c < 2 ^ h -> M i c ⊆+ in_group h m c (total h (batch i))).
Context (S2 : forall c, c < 2 ^ h -> forall j, j < 2 ^ (k - h) ->
  O (c * 2 ^ (k - h) + j) ⊆+ in_group (k - h) (m - h) j (total (k - h) (fun i => M i c))).

Lemma two_complete : (forall i, i < 2 ^ (k - h) -> complete h m (batch i) (M i)) ->
  (forall c, c < 2 ^ h -> complete (k - h) (m - h) (fun i => M i c) (fun j => O (c * 2 ^ (k - h) + j))) -> complete k m B O.
Proof.
  clear S1 S2. intros C1 C2 g Hg. assert (Ne : 2 ^ (k - h) <> 0) by (apply Nat.pow_nonzero; lia).
  assert (Hc : g / 2 ^ (k - h) < 2 ^ h). { apply Nat.Div0.div_lt_upper_bound. rewrite <-Nat.pow_add_r. by replace (k - h + h) with k by lia. }
  pose proof (Nat.mod_upper_bound g _ Ne) as Hj. rewrite (in_group_split k h m g) by done.
  assert (Eg : g = g / 2 ^ (k - h) * 2 ^ (k - h) + g mod 2 ^ (k - h)) by (pose proof (Nat.div_mod_eq g (2 ^ (k - h))); lia).
  rewrite Eg at 1. rewrite (C2 _ Hc _ Hj). f_equiv. rewrite <-total_group by lia. apply total_perm. intros i Hi. by apply C1.
Qed.

Lemma two_complete_inv : complete k m B O -> (forall i, i < 2 ^ (k - h) -> complete h m (batch i) (M i)) /\
  (forall c, c < 2 ^ h -> complete (k - h) (m - h) (fun i => M i c) (fun j => O (c * 2 ^ (k - h) + j))).
Proof.
  intros C. assert (Q : forall c, c < 2 ^ h -> total (k - h) (fun i => M i c) ⊆+ in_group h m c (total k B)).
  { intros c Hc. rewrite <-total_group by lia. apply submseteq_concat. intros i Hi%elem_of_seq. apply S1; [lia|done]. }
  assert (P : forall c j, c < 2 ^ h -> j < 2 ^ (k - h) -> O (c * 2 ^ (k - h) + j) ≡ₚ in_group (k - h) (m - h) j (in_group h m c (total k B))).
  { intros c j Hc Hj. destruct (in_group_pair k h m c j (total k B) Hh Hc Hj) as [Hg <-]. by apply C. }
  assert (W : forall c j, c < 2 ^ h -> j < 2 ^ (k - h) ->
    in_group (k - h) (m - h) j (total (k - h) (fun i => M i c)) ≡ₚ in_group (k - h) (m - h) j (in_group h m c (total k B))).
  { intros c j Hc Hj. apply submseteq_length_Permutation; [by apply submseteq_filter, Q|]. rewrite <-P by done. by apply submseteq_length, S2. }
  assert (V : forall c, c < 2 ^ h -> total (k - h) (fun i => M i c) ≡ₚ in_group h m c (total k B)).
  { intros c Hc. assert (Bd : forall (l : list (TaggedT T)) x, x ∈ l -> (0 <= digit (k - h) (m - h) x < Z.of_nat (2 ^ (k - h)))%Z).
    { intros q x _. rewrite Nat2Z.inj_pow. apply digit_bound. }
    rewrite (groups_perm (digit (k - h) (m - h)) _ (total (k - h) (fun i => M i c))) by apply Bd.
    rewrite (groups_perm (digit (k - h) (m - h)) _ (in_group h m c (total k B))) by apply Bd. apply perm_concat. intros j Hj%elem_of_seq.
    apply W; [done|lia]. }
  split; [|intros c Hc j Hj; by rewrite P, W].
  intros i Hi c Hc. assert (Hi' : i ∈ seq 0 (2 ^ (k - h))) by (apply elem_of_seq; lia). revert Hi'.
  apply (submseteq_concat_perm (fun i => M i c) (fun i => in_group h m c (total h (batch i))) (seq 0 (2 ^ (k - h)))).
  - intros j Hj%elem_of_seq. apply S1; [lia|done].
  - apply Nat.eq_le_incl. symmetry. pose proof (Permutation_length (V c Hc)) as E. rewrite <-total_group in E by lia. exact E.
Qed.
End two.

(** Nothing is lost exactly when there is no overflow. *)
Lemma routed_complete n : forall k m B O, k <= m -> routed n k m B O -> no_overflow n k m B = true <-> complete k m B O.
Proof.
  induction n as [|a IHa b IHb]; intros k m B O Hk R; cbn [no_overflow].
  - rewrite forallb_seq. split; intros H g Hg; destruct (R g Hg) as [R1 R2].
    + apply submseteq_length_Permutation; [done|]. specialize (H g Hg). apply Nat.leb_le in H. lia.
    + apply Nat.leb_le. specialize (H g Hg). apply Permutation_length in H. lia.
  - pose proof (half_le k) as Hh. destruct R as (M & H1 & H2). set (h := k / 2) in *. rewrite andb_true_iff, !forallb_seq.
    assert (A : forall i, i < 2 ^ (k - h) -> no_overflow a h m (fun j => B (i * 2 ^ h + j)) = true <-> complete h m (fun j => B (i * 2 ^ h + j)) (M i)).
    { intros i Hi. apply IHa; [lia|by apply H1]. }
    assert (A2 : forall c, c < 2 ^ h -> no_overflow b (k - h) (m - h) (fun i => M i c) = true <->
      complete (k - h) (m - h) (fun i => M i c) (fun j => O (c * 2 ^ (k - h) + j))) by (intros c Hc; apply IHb; [lia|by apply H2]).
    assert (P : (forall i, i < 2 ^ (k - h) -> complete h m (fun j => B (i * 2 ^ h + j)) (M i)) -> forall c, c < 2 ^ h ->
      no_overflow b (k - h) (m - h) (fun i => in_group h m c (total h (fun j => B (i * 2 ^ h + j)))) = no_overflow b (k - h) (m - h) (fun i => M i c)).
    { intros C c Hc. apply no_overflow_perm. intros i Hi. symmetry. by apply C. }
    split.
    + intros [F1 F2]. assert (C1 : forall i, i < 2 ^ (k - h) -> complete h m (fun j => B (i * 2 ^ h + j)) (M i)) by (intros i Hi; by apply A, F1).
      apply (two_complete k m h ltac:(lia) B O M C1). intros c Hc. apply A2; [done|]. rewrite <-P by done. by apply F2.
    + intros C. destruct (two_complete_inv k m h ltac:(lia) B O M) as [C1 C2]; [| |done|].
      * intros i Hi. apply (routed_sub a); [lia|by apply H1].
      * intros c Hc. apply (routed_sub b); [lia|by apply H2].
      * split; [intros i Hi; by apply A, C1|]. intros c Hc. rewrite P by done. by apply A2, C2.
Qed.

(** As many elements as a bucket holds never overflow. *)
Lemma no_overflow_few n : forall k m B, length (total k B) <= Zs -> no_overflow n k m B = true.
Proof.
  induction n as [|a IHa b IHb]; intros k m B H; cbn [no_overflow].
  - apply forallb_seq. intros g _. apply Nat.leb_le. etransitivity; [apply length_filter|done].
  - pose proof (half_le k) as Hh. set (h := k / 2) in *. apply andb_true_iff. split; apply forallb_seq; intros i Hi.
    + apply IHa. etransitivity; [|exact H]. rewrite (total_rows k h B Hh). apply submseteq_length.
      by apply (concat_has (fun i => total h (fun j => B (i * 2 ^ h + j)))).
    + apply IHb. rewrite total_group by done. etransitivity; [apply length_filter|done].
Qed.

Context (HZ : 0 < Zs).

Lemma log_buckets k l : k <= 63 -> length l = 2 ^ k * Zs -> Z.to_nat (GetLogBaseTwo (Z.of_nat (length l / Zs))) = k.
Proof.
  intros Hk ->. rewrite Nat.div_mul, Nat2Z.inj_pow by lia. change (Z.of_nat 2) with 2%Z.
  rewrite GetLogBaseTwo_spec; [rewrite Z.log2_pow2 by lia; lia|]. split; [lia|]. apply Z.pow_lt_mono_r; lia.
Qed.

(** The second layer reads column [b] of the buckets of the first. *)
Lemma nextLayer_slice h n1 (y1 : nat -> list (TaggedT T)) b : (forall i, i < n1 -> length (y1 i) = 2 ^ h * Zs) -> b < 2 ^ h ->
  slice (b * (n1 * Zs)) (n1 * Zs) (nextLayer Zs (Zs * 2 ^ h) (2 ^ h) (y1 <$> seq 0 n1)) =
  concat ((fun i => slice (b * Zs) Zs (y1 i)) <$> seq 0 n1).
Proof.
  intros L Hb. rewrite <-(slice_concat_seq (fun b => concat ((fun i => slice (b * Zs) Zs (y1 i)) <$> seq 0 n1)) (n1 * Zs) (2 ^ h) b); [|clear b Hb; intros b Hb|done].
  - unfold nextLayer. do 2 f_equal. apply list_fmap_ext. intros i c _. by rewrite <-list_fmap_compose.
  - apply concat_length_const. intros i Hi. apply slice_length. rewrite L by lia. nia.
Qed.

(** The sizes and the mask that the code computes. *)
Lemma twoLayers_eq route k m l : k <= m <= 63 -> length l = 2 ^ k * Zs -> let h := k / 2 in
  twoLayers route l Zs (2 ^ Z.of_nat m) =
  (batches ← mapM (fun i => route (slice (i * (Zs * 2 ^ h)) (Zs * 2 ^ h) l) (2 ^ Z.of_nat m)%Z) (seq 0 (2 ^ (k - h)));
   outs ← mapM (fun b => route (slice (b * (2 ^ (k - h) * Zs)) (2 ^ (k - h) * Zs) (nextLayer Zs (Zs * 2 ^ h) (2 ^ h) batches))
                               (2 ^ Z.of_nat (m - h))%Z) (seq 0 (2 ^ h));
   Some (concat outs)).
Proof.
  intros Hk Hl h. unfold twoLayers. rewrite log_buckets with (k := k) by (lia || done). fold h. rewrite Hl.
  assert (Hh : h <= k) by (apply Nat.Div0.div_le_upper_bound; lia). pose proof (Nat.pow_nonzero 2 h). pose proof (Nat.pow_nonzero 2 (k - h)).
  assert (Ep : 2 ^ k = 2 ^ (k - h) * 2 ^ h) by (rewrite <-Nat.pow_add_r; f_equal; lia).
  replace (2 ^ k * Zs / (Zs * 2 ^ h)) with (2 ^ (k - h)) by (apply Nat.div_unique_exact; nia).
  replace (2 ^ k * Zs / (2 ^ (k - h) * Zs)) with (2 ^ h) by (apply Nat.div_unique_exact; nia).
  rewrite Z.shiftr_div_pow2, <-Z.pow_sub_r by lia. by rewrite Nat2Z.inj_sub by lia.
Qed.

(** A run of a routine, by whether assertions are compiled out.  Without
    assertions it returns a list; with assertions it returns the same list if no
    bucket overflows and aborts otherwise. *)
Definition routed_run (r : bool -> list (TaggedT T) -> Z -> option (list (TaggedT T))) (n : net) (k m : nat) l (out : list (TaggedT T)) : Prop :=
  r true l (2 ^ Z.of_nat m)%Z = Some out /\ length out = length l /\ tags_ok out /\ routed n k m (buckets l) (buckets out) /\
  r false l (2 ^ Z.of_nat m)%Z = if no_overflow n k m (buckets l) then Some out else None.

Definition routes r (n : net) (k m : nat) : Prop :=
  forall l, length l = 2 ^ k * Zs -> tags_ok l -> exists out, routed_run r n k m l out.

Lemma buckets_slice o c l j : j < c -> buckets (slice (o * (c * Zs)) (c * Zs) l) j = buckets l (o * c + j).
Proof. intros Hj. unfold buckets. rewrite slice_slice by nia. do 2 f_equal. nia. Qed.

Lemma buckets_concat (y : nat -> list (TaggedT T)) c n o j : (forall i, i < n -> length (y i) = c * Zs) -> o < n -> j < c ->
  buckets (concat (y <$> seq 0 n)) (o * c + j) = buckets (y o) j.
Proof.
  intros L Ho Hj. rewrite <-(slice_concat_seq y (c * Zs) n o) by done. by rewrite buckets_slice.
Qed.

Lemma twoLayers_routes r a b k m : k <= m <= 63 -> routes r a (k / 2) m -> routes r b (k - k / 2) (m - k / 2) ->
  routes (fun ndebug l bitMask => twoLayers (r ndebug) l Zs bitMask) (Two a b) k m.
Proof.
  intros Hk H1 H2 l Hl Ht. pose proof (half_le k) as Hh.
  pose proof (fun nd => twoLayers_eq (r nd) k m l Hk Hl) as Eq. cbv zeta in Eq. unfold routed_run. cbn [routed no_overflow]. set (h := k / 2) in *.
  assert (Ep : 2 ^ k = 2 ^ (k - h) * 2 ^ h) by (rewrite <-Nat.pow_add_r; f_equal; lia).
  rewrite (Nat.mul_comm Zs) in Eq. set (sl i := slice (i * (2 ^ h * Zs)) (2 ^ h * Zs) l) in *.
  destruct (choose_upto [] (fun i => routed_run r a h m (sl i)) (2 ^ (k - h))) as [y1 Y1].
  { intros i Hi. apply H1; [unfold sl; rewrite slice_length; nia|]. apply Forall_take, Forall_drop, Ht. }
  assert (L1 : forall i, i < 2 ^ (k - h) -> length (y1 i) = 2 ^ h * Zs).
  { intros i Hi. destruct (Y1 i Hi) as (_ & -> & _). unfold sl. rewrite slice_length; nia. }
  set (nx c := concat ((fun i => slice (c * Zs) Zs (y1 i)) <$> seq 0 (2 ^ (k - h)))).
  assert (Ln : forall c, c < 2 ^ h -> length (nx c) = 2 ^ (k - h) * Zs).
  { intros c Hc. apply concat_length_const; intros i Hi; apply slice_length; rewrite L1 by lia; nia. }
  destruct (choose_upto [] (fun c => routed_run r b (k - h) (m - h) (nx c)) (2 ^ h)) as [y2 Y2].
  { intros c Hc. apply H2; [by apply Ln|]. apply Forall_concat, Forall_fmap, Forall_forall. intros i Hi%elem_of_seq.
    apply Forall_take, Forall_drop. destruct (Y1 i) as (_ & _ & Y & _); [lia|exact Y]. }
  assert (L2 : forall c, c < 2 ^ h -> length (y2 c) = 2 ^ (k - h) * Zs) by (intros c Hc; destruct (Y2 c Hc) as (_ & -> & _); by apply Ln).
  assert (Bs : forall i j, j < 2 ^ h -> buckets (sl i) j = buckets l (i * 2 ^ h + j)) by (intros i j Hj; by apply buckets_slice).
  assert (Bn : forall c i, c < 2 ^ h -> i < 2 ^ (k - h) -> buckets (nx c) i = buckets (y1 i) c).
  { intros c i Hc Hi. unfold buckets, nx. rewrite slice_concat_seq; [done| |done]. intros j Hj. apply slice_length. rewrite L1 by lia. nia. }
  assert (M2 : forall nd, mapM (fun c => r nd (slice (c * (2 ^ (k - h) * Zs)) (2 ^ (k - h) * Zs) (nextLayer Zs (2 ^ h * Zs) (2 ^ h)
      (y1 <$> seq 0 (2 ^ (k - h))))) (2 ^ Z.of_nat (m - h))%Z) (seq 0 (2 ^ h)) = mapM (fun c => r nd (nx c) (2 ^ Z.of_nat (m - h))%Z) (seq 0 (2 ^ h))).
  { intros nd. apply mapM_ext_in. intros c Hc%elem_of_seq. by rewrite (Nat.mul_comm (2 ^ h) Zs), nextLayer_slice by (done || lia). }
  exists (concat (y2 <$> seq 0 (2 ^ h))). split_and!.
  - rewrite Eq, (mapM_fmap _ y1) by (intros i Hi%elem_of_seq; apply Y1; lia). cbn [mbind option_bind].
    rewrite M2, (mapM_fmap _ y2) by (intros c Hc%elem_of_seq; apply Y2; lia). done.
  - rewrite (concat_length_const y2 (2 ^ (k - h) * Zs)) by (intros c Hc; apply L2; lia). nia.
  - apply Forall_concat, Forall_fmap, Forall_forall. intros c Hc%elem_of_seq. apply Y2. lia.
  - exists (fun i => buckets (y1 i)). split.
    + intros i Hi. destruct (Y1 i Hi) as (_ & _ & _ & R & _). eapply routed_ext; [|done|exact R]. intros j Hj. by apply Bs.
    + intros c Hc. destruct (Y2 c Hc) as (_ & _ & _ & R & _). eapply routed_ext; [| |exact R]; intros i Hi; [by apply Bn|].
      symmetry. by apply buckets_concat.
  - assert (C1 : forall i, i < 2 ^ (k - h) -> no_overflow a h m (buckets (sl i)) = no_overflow a h m (fun j => buckets l (i * 2 ^ h + j))).
    { intros i Hi. apply no_overflow_perm. intros j Hj. by rewrite Bs. }
    rewrite Eq, (mapM_if _ y1 (fun i => no_overflow a h m (buckets (sl i)))) by (intros i Hi%elem_of_seq; apply Y1; lia).
    rewrite (forallb_ext_seq _ _ _ C1). destruct (forallb _ (seq 0 (2 ^ (k - h)))) eqn:F; [|done]. rewrite forallb_seq in F.
    cbn [mbind option_bind andb]. rewrite M2, (mapM_if _ y2 (fun c => no_overflow b (k - h) (m - h) (buckets (nx c)))) by (intros c Hc%elem_of_seq; apply Y2; lia).
    assert (C2 : forall c, c < 2 ^ h -> no_overflow b (k - h) (m - h) (buckets (nx c)) =
      no_overflow b (k - h) (m - h) (fun i => in_group h m c (total h (fun j => buckets l (i * 2 ^ h + j))))).
    { intros c Hc. apply no_overflow_perm. intros i Hi. rewrite Bn by done. destruct (Y1 i Hi) as (_ & _ & _ & R & _).
      specialize (F i Hi). rewrite <-C1 in F by done. rewrite (routed_complete a h m _ _ ltac:(lia) R) in F.
      rewrite (F c Hc). f_equiv. apply total_perm. intros j Hj. by rewrite Bs. }
    rewrite (forallb_ext_seq _ _ _ C2). by destruct (forallb _ (seq 0 (2 ^ h))).
Qed.
End layers.

(** *** The routing *)

Section network.
Context {T : Type} (blank : T) (Zs : nat) (HZ : 0 < Zs).
Implicit Types (l : list (TaggedT T)).

Lemma binPacking_routes k m : k <= m <= 63 -> (2 * (2 ^ Z.of_nat k * Z.of_nat Zs) <= 2 ^ 63)%Z ->
  routes Zs (fun ndebug l bitMask => binPacking blank ndebug l Zs bitMask) Pack k m.
Proof.
  intros Hk Hs l Hl Ht. destruct (binPacking_runs blank Zs k m HZ Hk Hs l Hl Ht) as (out & (L & To & P) & E).
  exists out. unfold routed_run. cbn [routed no_overflow]. rewrite total_buckets by done. split_and!; [by rewrite E|done|done|exact P|].
  by rewrite E.
Qed.

Lemma routes_ext (r r' : bool -> list (TaggedT T) -> Z -> option (list (TaggedT T))) n k m :
  (forall nd l, length l = 2 ^ k * Zs -> r nd l (2 ^ Z.of_nat m)%Z = r' nd l (2 ^ Z.of_nat m)%Z) -> routes Zs r' n k m -> routes Zs r n k m.
Proof. intros E H l Hl Ht. destruct (H l Hl Ht) as [out R]. exists out. unfold routed_run. by rewrite !E. Qed.

Lemma halves k : 2 <= k -> k / 2 < k /\ k - k / 2 < k.
Proof. intros H. pose proof (Nat.div_mod_eq k 2). pose proof (Nat.mod_upper_bound k 2). lia. Qed.

Lemma size_bound k k' : k' <= k -> (2 * (2 ^ Z.of_nat k * Z.of_nat Zs) <= 2 ^ 63)%Z -> (2 * (2 ^ Z.of_nat k' * Z.of_nat Zs) <= 2 ^ 63)%Z.
Proof. intros H Hs. assert (2 ^ Z.of_nat k' <= 2 ^ Z.of_nat k)%Z by (apply Z.pow_le_mono_r; lia). nia. Qed.

(** The shape of [butterflyRouting] on [2 ^ k] buckets. *)
Fixpoint memoryNet (fuel gamma k : nat) : net :=
  match fuel with
  | O => Pack
  | S fuel => if 2 ^ k <=? gamma then Pack else Two (memoryNet fuel gamma (k / 2)) (memoryNet fuel gamma (k - k / 2))
  end.

(** A batch of more than [gamma >= 2] buckets is cut in two smaller ones. *)
Lemma butterflyRouting_routes gamma : 2 <= gamma -> forall fuel k m, k < fuel -> k <= m <= 63 ->
  (2 * (2 ^ Z.of_nat k * Z.of_nat Zs) <= 2 ^ 63)%Z ->
  routes Zs (fun ndebug l bitMask => butterflyRouting blank ndebug fuel l Zs bitMask gamma) (memoryNet fuel gamma k) k m.
Proof.
  intros Hg. induction fuel as [|fuel IH]; intros k m Hf Hk Hs; [lia|].
  assert (D : forall l, length l = 2 ^ k * Zs -> length l / Zs = 2 ^ k) by (intros l ->; apply Nat.div_mul; lia).
  cbn [memoryNet]. destruct (2 ^ k <=? gamma) eqn:E.
  - apply (routes_ext _ (fun nd l bm => binPacking blank nd l Zs bm)); [|by apply binPacking_routes].
    intros nd l Hl. cbn [butterflyRouting]. by rewrite D, E.
  - apply (routes_ext _ (fun nd l bm => twoLayers (fun l bm => butterflyRouting blank nd fuel l Zs bm gamma) l Zs bm)).
    { intros nd l Hl. cbn [butterflyRouting]. by rewrite D, E. }
    apply Nat.leb_gt in E. assert (Hk2 : 2 <= k) by (destruct k as [|[|k']]; cbn in E; lia). destruct (halves k Hk2) as [H1 H2].
    apply (twoLayers_routes Zs HZ (fun nd l bm => butterflyRouting blank nd fuel l Zs bm gamma)); [done|apply IH|apply IH]; try lia.
    + pose proof (size_bound k (k / 2)). lia.
    + pose proof (size_bound k (k - k / 2)). lia.
Qed.

(** The leaf that the heap holds: [(size * 2 + gamma * Z) * sizeof(TaggedT<T>)]
    bytes for a batch of [2 ^ k] buckets. *)
Definition leafGamma (k : nat) : nat := Z.to_nat (GetLogBaseTwo (Z.of_nat (2 ^ k * Zs))).
Definition leafBytes (sizeofTagged k : nat) : nat := (2 ^ k * Zs * 2 + leafGamma k * Zs) * sizeofTagged.

(** The shape of [externalButterflyRouting] on [2 ^ k] buckets. *)
Fixpoint externalNet (fuel sizeofTagged heapSize k : nat) : net :=
  match fuel with
  | O => Pack
  | S fuel' =>
      if leafBytes sizeofTagged k <=? heapSize then memoryNet fuel (leafGamma k) k
      else Two (externalNet fuel' sizeofTagged heapSize (k / 2)) (externalNet fuel' sizeofTagged heapSize (k - k / 2))
  end.

Lemma log_size k : k <= 63 -> (2 * (2 ^ Z.of_nat k * Z.of_nat Zs) <= 2 ^ 63)%Z ->
  GetLogBaseTwo (Z.of_nat (2 ^ k * Zs)) = Z.log2 (2 ^ Z.of_nat k * Z.of_nat Zs).
Proof.
  intros Hk Hs. rewrite Nat2Z.inj_mul, Nat2Z.inj_pow. change (Z.of_nat 2) with 2%Z. apply GetLogBaseTwo_spec.
  pose proof (Z.pow_pos_nonneg 2 (Z.of_nat k)). nia.
Qed.

Lemma leafBytes_mono sizeofTagged k k' : k' <= k <= 63 -> (2 * (2 ^ Z.of_nat k * Z.of_nat Zs) <= 2 ^ 63)%Z ->
  leafBytes sizeofTagged k' <= leafBytes sizeofTagged k.
Proof.
  intros Hk Hs. unfold leafBytes, leafGamma. apply Nat.mul_le_mono_r. assert (2 ^ k' <= 2 ^ k) by (apply Nat.pow_le_mono_r; lia).
  rewrite !log_size by (done || lia || (eapply size_bound; [|done]; lia)).
  assert (Z.log2 (2 ^ Z.of_nat k' * Z.of_nat Zs) <= Z.log2 (2 ^ Z.of_nat k * Z.of_nat Zs))%Z.
  { apply Z.log2_le_mono, Z.mul_le_mono_nonneg_r; [lia|]. apply Z.pow_le_mono_r; lia. }
  nia.
Qed.

(** With a heap for two buckets, and buckets of at least four elements, every
    call of the external routing ends. *)
Lemma externalButterflyRouting_routes sizeofTagged heapSize : 4 <= Zs -> (Z.of_nat Zs <= 2 ^ 61)%Z -> leafBytes sizeofTagged 1 <= heapSize ->
  forall fuel k m, k < fuel -> k <= m <= 63 -> (2 * (2 ^ Z.of_nat k * Z.of_nat Zs) <= 2 ^ 63)%Z ->
  routes Zs (fun ndebug l bitMask => externalButterflyRouting blank ndebug fuel sizeofTagged l Zs bitMask heapSize)
    (externalNet fuel sizeofTagged heapSize k) k m.
Proof.
  intros HZ4 HZ61 Hh. induction fuel as [|fuel IH]; intros k m Hf Hk Hs; [lia|].
  cbn [externalNet]. destruct (leafBytes sizeofTagged k <=? heapSize) eqn:E.
  - set (gamma := leafGamma k).
    apply (routes_ext _ (fun nd l bm => butterflyRouting blank nd (S fuel) l Zs bm gamma)).
    { intros nd l Hl. cbn [externalButterflyRouting]. rewrite Hl. fold (leafGamma k). fold gamma. unfold leafBytes in E. fold gamma in E. by rewrite E. }
    apply butterflyRouting_routes; [|done..]. unfold gamma, leafGamma. rewrite log_size by (done || lia).
    assert (2 <= Z.log2 (2 ^ Z.of_nat k * Z.of_nat Zs))%Z; [|lia]. apply Z.log2_le_pow2; pose proof (Z.pow_pos_nonneg 2 (Z.of_nat k)); nia.
  - apply (routes_ext _ (fun nd l bm => twoLayers (fun l bm => externalButterflyRouting blank nd fuel sizeofTagged l Zs bm heapSize) l Zs bm)).
    { intros nd l Hl. cbn [externalButterflyRouting]. rewrite Hl. unfold leafBytes, leafGamma in E. by rewrite E. }
    apply Nat.leb_gt in E.
    assert (Hk2 : 2 <= k).
    { destruct (le_lt_dec 2 k) as [|Hlt]; [done|]. destruct (decide (k = 1)) as [->|]; [lia|]. assert (k = 0) as -> by lia.
      pose proof (leafBytes_mono sizeofTagged 1 0 ltac:(lia) ltac:(lia)). lia. }
    destruct (halves k Hk2) as [H1 H2].
    apply (twoLayers_routes Zs HZ (fun nd l bm => externalButterflyRouting blank nd fuel sizeofTagged l Zs bm heapSize)); [done|apply IH|apply IH]; try lia.
    + pose proof (size_bound k (k / 2)). lia.
    + pose proof (size_bound k (k - k / 2)). lia.
Qed.
End network.
