(* ===== verification/CaBucketSort.v ===== *)
(** * Bucket sort and shuffle, end to end (ca_bucket_sort.hpp)

    Padding, the order of the output, and the entry points of [CaBucket] in
    builds with and without assertions, with an instance and the runs in which
    elements are lost. *)
From S2P Require Import Prelude Utils Bitonic MergeSplit MergeSort CaBucket.

(** *** Padding *)

Lemma tag_parity t : in_width 64 t -> let t' := Z.land t (2 ^ 64 - 2) in
  in_width 64 t' /\ (t' mod 2 = 0)%Z /\ in_width 64 (Z.lor t' 1) /\ (Z.lor t' 1 mod 2 = 1)%Z.
Proof.
  intros Ht t'. assert (Hw : in_width 64 t') by (apply land_in_width_l; [lia|done|lia]).
  assert (H0 : Z.testbit t' 0 = false) by (unfold t'; rewrite Z.land_spec; apply andb_false_r).
  split_and!; [done|by rewrite <-Z.bit0_mod, H0|by apply lor_in_width; [lia| |split; lia]|].
  by rewrite <-Z.bit0_mod, Z.lor_spec, H0.
Qed.

Section padding.
Context {T G : Type} `{RandGenOk G} (blank : T).

Lemma padBucket_spec Zs nr : nr <= Zs -> forall k inp g, k <= Zs ->
  let '(b, rest, _) := padBucket blank Zs nr k inp g in
  length b = k /\ tags_ok b /\ v <$> reals b = take (nr - (Zs - k)) inp /\ rest = drop (nr - (Zs - k)) inp.
Proof.
  intros Hn. induction k as [|k IH]; intros inp g Hk.
  { cbn [padBucket]. replace (nr - (Zs - 0)) with 0 by lia. rewrite take_0, drop_0. split_and!; [done|constructor|done|done]. }
  cbn [padBucket]. pose proof (rand64_width g) as Hr. destruct (rand64 g) as [r g1]. cbn [fst] in Hr.
  destruct (tag_parity r Hr) as (W0 & P0 & W1 & P1). set (t := Z.land r (2 ^ 64 - 2)) in *.
  assert (Real : forall d : T, dummyFlag (mkTagged t d) = false) by (intros d; rewrite dummyFlag_mod; cbn [tag]; by rewrite P0).
  assert (Dummy : forall d : T, dummyFlag (mkTagged (Z.lor t 1) d) <> false) by (intros d; rewrite dummyFlag_mod; cbn [tag]; by rewrite P1).
  destruct inp as [|d inp]; [|destruct (Zs - S k <? nr) eqn:E].
  - specialize (IH [] g1 ltac:(lia)). destruct (padBucket blank Zs nr k [] g1) as [[b rest] g2]. destruct IH as (L & Tb & R & ->).
    rewrite take_nil in R. rewrite !drop_nil, take_nil. cbn [length]. split_and!; [by rewrite L|by constructor| |done].
    unfold reals. rewrite filter_cons_False by exact (Dummy _). exact R.
  - apply Nat.ltb_lt in E. specialize (IH inp g1 ltac:(lia)). destruct (padBucket blank Zs nr k inp g1) as [[b rest] g2]. destruct IH as (L & Tb & R & ->).
    replace (nr - (Zs - S k)) with (S (nr - (Zs - k))) by lia. cbn [length take drop]. split_and!; [by rewrite L|by constructor| |done].
    unfold reals. rewrite filter_cons_True by apply Real. rewrite fmap_cons. cbn [v]. by rewrite <-R.
  - apply Nat.ltb_ge in E. specialize (IH (d :: inp) g1 ltac:(lia)). destruct (padBucket blank Zs nr k (d :: inp) g1) as [[b rest] g2]. destruct IH as (L & Tb & R & ->).
    replace (nr - (Zs - k)) with 0 in * by lia. replace (nr - (Zs - S k)) with 0 by lia. rewrite take_0 in *. rewrite !drop_0. cbn [length].
    split_and!; [by rewrite L|by constructor| |done]. unfold reals. rewrite filter_cons_False by exact (Dummy _). exact R.
Qed.

Lemma padBuckets_spec Zs nr : nr <= Zs -> forall n inp g,
  let '(bs, rest, _) := padBuckets blank Zs nr n inp g in
  length bs = n * Zs /\ tags_ok bs /\ v <$> reals bs = take (n * nr) inp /\ rest = drop (n * nr) inp.
Proof.
  intros Hn. induction n as [|n IH]; intros inp g; cbn [padBuckets].
  { rewrite !Nat.mul_0_l, take_0, drop_0. split_and!; [done|constructor|done|done]. }
  pose proof (padBucket_spec Zs nr Hn Zs inp g ltac:(lia)) as P. destruct (padBucket blank Zs nr Zs inp g) as [[b rest] g1]. destruct P as (L & Tb & R & ->).
  rewrite Nat.sub_diag, Nat.sub_0_r in *. specialize (IH (drop nr inp) g1).
  destruct (padBuckets blank Zs nr n (drop nr inp) g1) as [[bs rest] g2]. destruct IH as (L' & Tb' & R' & ->).
  rewrite length_app, L, L', drop_drop, reals_app, fmap_app, R, R', take_take_drop. split_and!; [lia|by apply Forall_app|done|done].
Qed.

Lemma padded_size n Zs : (Z.of_nat n <= 2 ^ 61)%Z -> (exists e, Zs = 2 ^ e /\ 1 <= e <= 62) ->
  exists k, Nat.max (Z.to_nat (GetNextPowerOfTwo (w64 (2 * Z.of_nat n)))) Zs = 2 ^ k * Zs /\
    (Z.of_nat (2 ^ k * Zs) <= 2 ^ 62)%Z /\ 2 * n <= 2 ^ k * Zs.
Proof.
  intros Hn (e & -> & He). rewrite (wrap_small 64) by (split; lia). destruct (decide (n = 0)) as [->|Hn0].
  { exists 0. rewrite Nat.pow_0_r, !Nat.mul_1_l. split_and!; [|rewrite Nat2Z.inj_pow; apply (Z.pow_le_mono_r 2); lia|lia].
    apply Nat.max_r. change (GetNextPowerOfTwo (2 * Z.of_nat 0)) with 0%Z. lia. }
  rewrite GetNextPowerOfTwo_spec by lia. set (q := Z.log2_up (2 * Z.of_nat n)).
  pose proof (Z.log2_up_spec (2 * Z.of_nat n) ltac:(lia)) as [_ Hq]. fold q in Hq.
  assert (Q : (0 <= q <= 62)%Z) by (split; [apply Z.log2_up_nonneg|]; apply (Z.log2_up_le_pow2 _ 62); lia).
  assert (Eq : Z.to_nat (2 ^ q) = 2 ^ Z.to_nat q) by (apply Nat2Z.inj; rewrite Nat2Z.inj_pow, !Z2Nat.id by lia; done). rewrite Eq.
  assert (Hq' : 2 * n <= 2 ^ Z.to_nat q) by lia. exists (Z.to_nat q - e). destruct (le_lt_dec e (Z.to_nat q)) as [Hle|Hlt].
  - rewrite <-Nat.pow_add_r. replace (Z.to_nat q - e + e) with (Z.to_nat q) by lia. split_and!; [|rewrite Nat2Z.inj_pow; apply (Z.pow_le_mono_r 2); lia|done].
    apply Nat.max_l, Nat.pow_le_mono_r; lia.
  - replace (Z.to_nat q - e) with 0 by lia. rewrite Nat.pow_0_r, !Nat.mul_1_l.
    assert (2 ^ Z.to_nat q <= 2 ^ e) by (apply Nat.pow_le_mono_r; lia).
    split_and!; [lia|rewrite Nat2Z.inj_pow; apply (Z.pow_le_mono_r 2); lia|lia].
Qed.

(** The padded range is a power of two of buckets, and its real elements are the
    input in its order. *)
Lemma tagAndPad_spec (inp : list T) Zs e g : (Z.of_nat (length inp) <= 2 ^ 61)%Z -> Zs = 2 ^ e -> 1 <= e <= 62 ->
  let '(tv, _) := tagAndPad blank inp Zs g in
  tags_ok tv /\ v <$> reals tv = inp /\ exists k, length tv = 2 ^ k * Zs /\ k <= 62 /\ (2 ^ Z.of_nat k * Z.of_nat Zs <= 2 ^ 62)%Z.
Proof.
  intros Hn HZ He. unfold tagAndPad. set (S := Nat.max _ Zs).
  destruct (padded_size (length inp) Zs Hn ltac:(by exists e)) as (k & ES & HS & H2). fold S in ES. assert (0 < Zs) by (rewrite HZ; apply Nat.neq_0_lt_0, Nat.pow_nonzero; lia).
  rewrite ES, Nat.div_mul by lia. pose proof (Nat.pow_nonzero 2 k ltac:(lia)) as Hp.
  pose proof (divUp_bounds (length inp) (2 ^ k) ltac:(lia)) as D. set (nr := divUp (length inp) (2 ^ k)) in *.
  assert (Hnr : nr <= Zs) by nia.
  pose proof (padBuckets_spec Zs nr Hnr (2 ^ k) inp g) as P. destruct (padBuckets blank Zs nr (2 ^ k) inp g) as [[tv rest] g1].
  destruct P as (L & Tt & R & _). split_and!; [done|by rewrite R, take_ge by lia|]. exists k. split; [done|].
  assert (E2 : (2 ^ Z.of_nat k * Z.of_nat Zs <= 2 ^ 62)%Z) by (rewrite Nat2Z.inj_mul, Nat2Z.inj_pow in HS; exact HS).
  split; [|done]. apply Nat2Z.inj_le, (Z.pow_le_mono_r_iff 2); [lia..|]. nia.
Qed.
End padding.

(** *** Shuffle and sort *)

Section order.
Context {T : Type}.
Implicit Types (l out : list (TaggedT T)).

Definition bucketOrder out (b : nat) : list (TaggedT T) := reals (BitonicSort tagLess (slice (b * bucketZ) bucketZ out)).

Lemma bucketOrder_perm out b : bucketOrder out b ≡ₚ reals (slice (b * bucketZ) bucketZ out).
Proof. unfold bucketOrder. f_equiv. apply (BitonicSort_dire_perm _ true). Qed.

Lemma inTagOrder_eq k out : length out = 2 ^ k * bucketZ -> inTagOrder out = concat (bucketOrder out <$> seq 0 (2 ^ k)).
Proof. intros Hl. unfold inTagOrder. by rewrite Hl, Nat.div_mul. Qed.

(** The buckets in the order of the top bits, and each in the order of its tags. *)
Lemma inTagOrder_sorted n k l out : k <= 62 -> length out = 2 ^ k * bucketZ -> tags_ok out ->
  routed bucketZ n k 63 (buckets bucketZ l) (buckets bucketZ out) -> StronglySorted (key_le tag) (inTagOrder out).
Proof.
  intros Hk Hl To R0. pose proof (routed_sub bucketZ n k 63 _ _ ltac:(lia) R0) as R. unfold buckets at 1 in R. clear R0. rewrite (inTagOrder_eq k) by done. apply StronglySorted_concat.
  - intros i Hi. apply (sorted_filter tag), (bitonic_key_sorted tag). unfold slice. rewrite length_take. unfold bucketZ. lia.
  - assert (D : forall b x, b < 2 ^ k -> x ∈ bucketOrder out b ->
      (tag x / 2 ^ Z.of_nat (64 - k) = Z.of_nat b)%Z).
    { intros b x Hb Hx. assert (Hx' : x ∈ reals (slice (b * bucketZ) bucketZ out)) by (by rewrite <-bucketOrder_perm).
      assert (Hd : digit k 63 x = Z.of_nat b).
      { apply (elem_of_submseteq _ _ _ Hx') in R; [|done]. by apply list_elem_of_filter in R as [? _]. }
      assert (Ht : in_width 64 (tag x)).
      { apply list_elem_of_filter in Hx' as [_ Hx']. unfold tags_ok in To. rewrite Forall_forall in To. apply To.
        unfold slice in Hx'. eapply subseteq_drop, subseteq_take, Hx'. }
      unfold digit in Hd. replace (63 + 1 - k) with (64 - k) in Hd by lia. rewrite Z.mod_small in Hd; [done|]. split; [apply Z.div_pos; unfold in_width in Ht; lia|].
      apply Z.div_lt_upper_bound; [lia|]. rewrite <-Z.pow_add_r by lia. replace (Z.of_nat (64 - k) + Z.of_nat k)%Z with 64%Z by lia. apply Ht. }
    intros i j x y Hij Hx%D Hy%D; [|lia..]. unfold key_le. destruct (Z.le_gt_cases (tag x) (tag y)) as [|Hgt]; [done|].
    pose proof (Z.div_le_mono (tag y) (tag x) (2 ^ Z.of_nat (64 - k))). lia.
Qed.

(** What is written is what has arrived in the buckets: elements of the input,
    and all of them exactly if no bucket has overflowed. *)
Lemma inTagOrder_count n k l out : k <= 62 -> length l = 2 ^ k * bucketZ -> length out = 2 ^ k * bucketZ ->
  routed bucketZ n k 63 (buckets bucketZ l) (buckets bucketZ out) ->
  inTagOrder out ≡ₚ total k (buckets bucketZ out) /\ inTagOrder out ⊆+ reals l /\
  (no_overflow bucketZ n k 63 (buckets bucketZ l) = true <-> length (inTagOrder out) = length (reals l)).
Proof.
  intros Hk Hl Ho R. rewrite (inTagOrder_eq k) by done. rewrite (routed_complete bucketZ n k 63 _ _ ltac:(lia) R).
  assert (P : concat (bucketOrder out <$> seq 0 (2 ^ k)) ≡ₚ total k (buckets bucketZ out)).
  { apply perm_concat. intros b _. apply bucketOrder_perm. }
  pose proof (routed_sub bucketZ n k 63 _ _ ltac:(lia) R) as S0. unfold complete. rewrite (total_buckets bucketZ k l Hl) in *.
  assert (Q : reals l ≡ₚ concat ((fun b => in_group k 63 b (reals l)) <$> seq 0 (2 ^ k))).
  { apply groups_perm. intros x _. rewrite Nat2Z.inj_pow. apply digit_bound. }
  assert (S : forall b, b ∈ seq 0 (2 ^ k) -> buckets bucketZ out b ⊆+ in_group k 63 b (reals l)).
  { intros b Hb%elem_of_seq. apply S0. lia. }
  split; [done|]. split; [rewrite P, Q; by apply submseteq_concat|]. rewrite (Permutation_length P), (Permutation_length Q). split.
  - intros C. apply Permutation_length, perm_concat. intros b Hb%elem_of_seq. apply C. lia.
  - intros E b Hb. apply (submseteq_concat_perm _ _ _ S); [unfold total in E; lia|apply elem_of_seq; lia].
Qed.
End order.

Section correct.
Context {T G : Type} `{RandGenOk G} (blank : T).

(** What a shuffle does, in builds without and with assertions; [shape] is the
    shape of its recursion on [2 ^ k] buckets.  The input gets random tags and
    is padded to [2 ^ k] buckets [B].  [O] is where the layers route their
    elements, each packing keeping what its buckets hold, and [ord], which is
    written, is what has arrived, in the order of the tags.  It is the whole
    input if no packing overflows, as is certain for at most 512 elements.
    Otherwise elements are lost: the build with assertions aborts, and the other
    one leaves what it does not overwrite in its place. *)
Definition shuffled (shape : nat -> net) (run : bool -> option (list T * G)) (inp : list T) (g : G) : Prop :=
  exists tv g' k O ord, tagAndPad blank inp bucketZ g = (tv, g') /\ v <$> reals tv = inp /\ length tv = 2 ^ k * bucketZ /\
    let B := buckets bucketZ tv in
    let room := no_overflow bucketZ (shape k) k 63 B in
    routed bucketZ (shape k) k 63 B O /\
    ord ≡ₚ total k O /\ ord ⊆+ reals tv /\ StronglySorted (key_le tag) ord /\
    (room = true -> v <$> ord ≡ₚ inp) /\ (room = false -> length ord < length inp) /\ (length inp <= bucketZ -> room = true) /\
    run true = Some ((v <$> ord) ++ drop (length ord) inp, g') /\
    run false = if room && orderAssert 0 ord then Some (v <$> ord, g') else None.

Lemma bucketZ_pow : bucketZ = 2 ^ 9.
Proof. reflexivity. Qed.

Lemma shuffled_of_routes shape (r : bool -> list (TaggedT T) -> Z -> option (list (TaggedT T))) (inp : list T) (g : G) :
  (Z.of_nat (length inp) <= 2 ^ 61)%Z ->
  (forall k, k <= 62 -> (2 ^ Z.of_nat k * Z.of_nat bucketZ <= 2 ^ 62)%Z -> routes bucketZ r (shape k) k 63) ->
  shuffled shape (fun ndebug => let '(tv, g) := tagAndPad blank inp bucketZ g in
    tv ← r ndebug tv (2 ^ 63)%Z;
    if ndebug || orderAssert 0 (inTagOrder tv) then Some (overwritten inp (inTagOrder tv), g) else None) inp g.
Proof.
  intros Hn Hr. pose proof (tagAndPad_spec blank inp bucketZ 9 g Hn bucketZ_pow ltac:(lia)) as P.
  destruct (tagAndPad blank inp bucketZ g) as [tv g'] eqn:Et. destruct P as (Tt & Rv & k & Lt & Hk & Hs).
  destruct (Hr k Hk Hs tv Lt Tt) as (out & Er & Lo & To & R & Ef). rewrite Lt in Lo.
  assert (Lr : length (reals tv) = length inp) by (rewrite <-Rv; by rewrite length_fmap).
  destruct (inTagOrder_count (shape k) k tv out Hk Lt Lo R) as (Po & Sub & C). rewrite Lr in C.
  pose proof (submseteq_length _ _ Sub) as Le. rewrite Lr in Le.
  change (2 ^ 63)%Z with (2 ^ Z.of_nat 63)%Z. exists tv, g', k, (buckets bucketZ out), (inTagOrder out). cbv zeta.
  set (room := no_overflow bucketZ (shape k) k 63 (buckets bucketZ tv)) in *.
  split_and!; [done..|by apply (inTagOrder_sorted (shape k) k tv)| | | |by rewrite Er|].
  - intros E%C. rewrite <-Rv. apply fmap_Permutation, submseteq_length_Permutation; [done|]. by rewrite E, Lr.
  - intros E. destruct (decide (length (inTagOrder out) = length inp)) as [C'%C|]; [congruence|lia].
  - intros Hi. apply no_overflow_few. rewrite total_buckets by done. by rewrite Lr.
  - rewrite Ef. destruct room; [|done]. cbn [mbind option_bind orb andb]. destruct (orderAssert 0 (inTagOrder out)); [|done].
    unfold overwritten. rewrite drop_ge, app_nil_r; [done|]. rewrite (proj1 C eq_refl). done.
Qed.

(** The recursion of the two shuffles on [2 ^ k] buckets. *)
Definition externalShape (fuel sizeofTagged heapSize k : nat) : net := externalNet bucketZ fuel sizeofTagged heapSize k.
Definition internalShape (fuel k : nat) : net := memoryNet fuel (leafGamma bucketZ k) k.

Lemma shuffle_external fuel sizeofTagged heapSize inp g : 62 < fuel -> (Z.of_nat (length inp) <= 2 ^ 61)%Z ->
  leafBytes bucketZ sizeofTagged 1 <= heapSize ->
  shuffled (externalShape fuel sizeofTagged heapSize) (fun ndebug => CABucketShuffle blank ndebug fuel sizeofTagged inp heapSize g) inp g.
Proof.
  intros Hf Hn Hh. apply (shuffled_of_routes _ (fun nd l bm => externalButterflyRouting blank nd fuel sizeofTagged l bucketZ bm heapSize)); [done|].
  intros k Hk Hs. unfold externalShape, bucketZ in *. apply externalButterflyRouting_routes; try lia; done.
Qed.

Lemma shuffle_internal fuel inp g : 62 < fuel -> (Z.of_nat (length inp) <= 2 ^ 61)%Z ->
  shuffled (internalShape fuel) (fun ndebug => CABucketShuffleInternal blank ndebug fuel inp g) inp g.
Proof.
  intros Hf Hn. set (gamma := fun n => Z.to_nat (GetLogBaseTwo (Z.of_nat n))).
  apply (shuffled_of_routes _ (fun nd l bm => butterflyRouting blank nd fuel l bucketZ bm (gamma (length l)))); [done|].
  intros k Hk Hs. apply (routes_ext _ _ (fun nd l bm => butterflyRouting blank nd fuel l bucketZ bm (leafGamma bucketZ k))); [by intros nd l ->|].
  unfold internalShape, bucketZ in *. apply butterflyRouting_routes; try lia. unfold leafGamma. rewrite log_size by (lia || done).
  assert (2 <= Z.log2 (2 ^ Z.of_nat k * Z.of_nat 512))%Z; [|lia]. apply Z.log2_le_pow2; pose proof (Z.pow_pos_nonneg 2 (Z.of_nat k)); lia.
Qed.


(** A sort of what a shuffle leaves. *)
Lemma shuffled_then shape run inp g (srt : list T -> option (list T)) (R : T -> T -> Prop) : shuffled shape run inp g ->
  (forall l, exists out, srt l = Some out /\ out ≡ₚ l /\ StronglySorted R out) ->
  let both nd := '(out, g) ← run nd; out ← srt out; Some (out, g) in
  exists out g', both true = Some (out, g') /\ StronglySorted R out /\ length out = length inp /\ (length inp <= bucketZ -> out ≡ₚ inp) /\
    forall res, both false = Some res -> res = (out, g') /\ out ≡ₚ inp.
Proof.
  intros (tv & g' & k & O & ord & _ & Rv & _ & _ & _ & Sub & _ & All & Few & Small & Et & Ef) Hs both.
  set (room := no_overflow bucketZ (shape k) k 63 (buckets bucketZ tv)) in *. destruct (Hs ((v <$> ord) ++ drop (length ord) inp)) as (out & Eo & Po & So).
  assert (Lo : length ord <= length inp) by (rewrite <-Rv, length_fmap; by apply submseteq_length).
  assert (Whole : room = true -> (v <$> ord) ++ drop (length ord) inp = v <$> ord).
  { intros E%All%Permutation_length. rewrite length_fmap in E. by rewrite drop_ge, app_nil_r by lia. }
  assert (Perm : room = true -> out ≡ₚ inp) by (intros E; rewrite Po, Whole by done; by apply All).
  exists out, g'. split_and!; [|done| | |].
  - unfold both. rewrite Et. cbn [mbind option_bind]. by rewrite Eo.
  - rewrite Po, length_app, length_fmap, length_drop. lia.
  - intros Hi. by apply Perm, Small.
  - intros res. unfold both. rewrite Ef. destruct room eqn:E; [|done].
    destruct (orderAssert 0 ord); [|done]. cbn [andb mbind option_bind]. rewrite <-(Whole eq_refl), Eo. cbn [mbind option_bind]. intros [= <-].
    split; [done|by apply Perm].
Qed.

(** Bucket sort sorts.  External and in memory, the result is in order; it
    is the input rearranged whenever the build with assertions returns it, and
    for every input of up to 512 elements. *)
Theorem CABucketSort_correct `{StdSortOk T} (ltb : T -> T -> bool) `{!StrictWeakOrder ltb} mergeWay
    fuel sizeofT sizeofTagged item_per_page heapSize inp g : 62 < fuel -> (Z.of_nat (length inp) <= 2 ^ 61)%Z ->
  leafBytes bucketZ sizeofTagged 1 <= heapSize -> way_ok mergeWay -> 3 <= heapSize / sizeofT / (2 * item_per_page) ->
  (exists out g', CABucketSort blank true ltb mergeWay fuel sizeofT sizeofTagged item_per_page inp heapSize g = Some (out, g') /\
    StronglySorted (cmp_le ltb) out /\ length out = length inp /\ (length inp <= bucketZ -> out ≡ₚ inp) /\
    forall res, CABucketSort blank false ltb mergeWay fuel sizeofT sizeofTagged item_per_page inp heapSize g = Some res ->
      res = (out, g') /\ out ≡ₚ inp) /\
  (exists out g', CABucketSortInternal blank true ltb fuel inp g = Some (out, g') /\
    StronglySorted (cmp_le ltb) out /\ length out = length inp /\ (length inp <= bucketZ -> out ≡ₚ inp) /\
    forall res, CABucketSortInternal blank false ltb fuel inp g = Some res -> res = (out, g') /\ out ≡ₚ inp).
Proof.
  intros Hf Hn Hh Hw Hp. split.
  - apply (shuffled_then (externalShape fuel sizeofTagged heapSize) (fun nd => CABucketShuffle blank nd fuel sizeofTagged inp heapSize g) inp g
      (fun out => ExtMergeSortBatches ltb mergeWay sizeofT item_per_page out heapSize)); [by apply shuffle_external|].
    intros l. apply ExtMergeSortBatches_sorts; try done; [|by left]. intros E. rewrite E, Nat.Div0.div_0_l in Hp. lia.
  - apply (shuffled_then (internalShape fuel) (fun nd => CABucketShuffleInternal blank nd fuel inp g) inp g (fun out => Some (std_sort ltb out)));
      [by apply shuffle_internal|].
    intros l. eexists. split; [done|]. split; [by apply std_sort_perm|by apply std_sort_sorted].
Qed.
End correct.

(** A heap that does not hold one bucket: the recursion does not end. *)
Lemma externalButterflyRouting_needs_heap {T : Type} (blank : T) ndebug Zs sizeofTagged heapSize : 0 < Zs ->
  heapSize < leafBytes Zs sizeofTagged 0 -> forall fuel k m (l : list (TaggedT T)), k <= m <= 63 -> length l = 2 ^ k * Zs ->
  (2 * (2 ^ Z.of_nat k * Z.of_nat Zs) <= 2 ^ 63)%Z ->
  externalButterflyRouting blank ndebug fuel sizeofTagged l Zs (2 ^ Z.of_nat m)%Z heapSize = None.
Proof.
  intros HZ Hh. induction fuel as [|fuel IH]; intros k m l Hk Hl Hs; [done|]. cbn [externalButterflyRouting]. rewrite Hl.
  pose proof (leafBytes_mono Zs HZ sizeofTagged k 0 ltac:(lia) Hs) as Hm. unfold leafBytes at 2, leafGamma in Hm.
  rewrite (proj2 (Nat.leb_gt _ _)) by lia. rewrite (twoLayers_eq Zs HZ _ k m l Hk Hl).
  assert (Hh2 : k / 2 <= k) by (apply Nat.Div0.div_le_upper_bound; lia). set (h := k / 2) in *.
  destruct (2 ^ (k - h)) as [|n] eqn:En; [by apply Nat.pow_nonzero in En|]. cbn [seq mapM].
  assert (Ep : 2 ^ k = 2 ^ (k - h) * 2 ^ h) by (rewrite <-Nat.pow_add_r; f_equal; lia).
  rewrite (IH h m); [done|lia| |by apply (size_bound Zs HZ k)]. rewrite slice_length; nia.
Qed.

(** *** Instances *)

#[local] Existing Instances merge_std merge_std_ok.

(** A linear congruential generator. *)
Definition lcg_next (g : Z) : Z := w64 (g * 6364136223846793005 + 1442695040888963407).
#[local] Instance lcg : RandGen Z := {
  rand64 g := let g := lcg_next g in (g, g); rand32 g := let g := lcg_next g in (g / 2 ^ 32, g)%Z;
  rand1 g := let g := lcg_next g in (g / 2 ^ 63, g)%Z }.

#[local] Instance lcg_ok : RandGenOk Z.
Proof.
  assert (W : forall g, in_width 64 (lcg_next g)) by (intros g; apply wrap_in_width; lia).
  assert (D : forall k g, (0 <= k <= 64)%Z -> in_width (64 - k) (lcg_next g / 2 ^ k)).
  { intros k g Hk. destruct (W g) as [W1 W2]. split; [apply Z.div_pos; lia|]. apply Z.div_lt_upper_bound; [lia|].
    rewrite <-Z.pow_add_r by lia. by replace (k + (64 - k))%Z with 64%Z by lia. }
  split; intros g; [apply W|apply (D 32%Z); lia|]. destruct (D 63%Z g ltac:(lia)) as [D1 D2]. 
  change ((lcg_next g / 2 ^ 63)%Z = 0%Z \/ (lcg_next g / 2 ^ 63)%Z = 1%Z). change (2 ^ (64 - 63))%Z with 2%Z in D2.
  revert D1 D2. generalize (lcg_next g / 2 ^ 63)%Z. intros x. lia.
Qed.


Lemma CABucketSort_correct_witness : exists out g',
  CABucketSortInternal 0%Z true Z.ltb 63 [3; 1; 5; 2; 4]%Z 7%Z = Some (out, g') /\ StronglySorted (cmp_le Z.ltb) out /\ out ≡ₚ [3; 1; 5; 2; 4]%Z.
Proof.
  destruct (proj2 (CABucketSort_correct 0%Z Z.ltb (fun _ _ => 2) 63 8 16 1 (leafBytes bucketZ 16 1) [3; 1; 5; 2; 4]%Z 7%Z
    ltac:(lia) ltac:(cbn; lia) (le_n _) ltac:(intros count maxWay; lia) ltac:(apply Nat.leb_le; vm_compute; reflexivity)))
    as (out & g' & E & S & _ & P & _).
  exists out, g'. split; [exact E|]. split; [exact S|]. apply P, Nat.leb_le. reflexivity.
Defined.

Example shuffle_of_five : (fun r => r.1) <$> CABucketShuffleInternal 0%Z false 63 [1; 2; 3; 4; 5]%Z 7%Z = Some [5; 4; 1; 3; 2]%Z.
Proof. vm_compute. reflexivity. Qed.

(** When every tag is 0, 600 elements want one bucket.  A build with assertions
    stops; a build without returns a list in which 88 of the elements are
    missing and 88 others stand twice. *)
Definition stuck : RandGen Z := {| rand64 g := (0, g); rand32 g := (0, g); rand1 g := (0, g) |}%Z.
Definition six_hundred : list Z := Z.of_nat <$> seq 0 600.

Example overflow_aborts : CABucketShuffleInternal (H := stuck) 0%Z false 63 six_hundred 0%Z = None.
Proof. vm_compute. reflexivity. Qed.

Example overflow_loses :
  (fun r => (length r.1, length (remove_dups r.1))) <$> CABucketShuffleInternal (H := stuck) 0%Z true 63 six_hundred 0%Z = Some (600, 512).
Proof. vm_compute. reflexivity. Qed.

(** In memory, up to eight buckets are one packing; sixteen are two layers. *)
Example two_layers_of_sixteen : internalShape 63 3 = Pack /\ internalShape 63 4 = Two Pack Pack.
Proof. split; vm_compute; reflexivity. Qed.

(** The assertion on the output accepts tags that are out of order. *)
Example orderAssert_unordered : orderAssert 0 [mkTagged 6 0; mkTagged 2 0; mkTagged 4 0]%Z = true.
Proof. reflexivity. Qed.
