(* ===== verification/ShellSort.v ===== *)
(** * Randomized Shellsort (osort/external_memory/algorithm/randomized_shell_sort.hpp)

    Regions of the range are compared in random matchings, for offsets that
    halve.  An access outside the range is [None].  The file shows that the
    accesses stay in the range exactly for the sizes that twice every offset
    divides, among them the powers of two, and that the output is then a
    rearrangement, which a sorted input survives. *)
From S2P Require Import Prelude Utils Bitonic.

Section shell.
Context {T G : Type} `{RandGen G} (ltb : T -> T -> bool).
Implicit Types (l : list T) (g : G) (i j s t offset n : nat).

(** The iterators [i] and [j] are indices. *)
Definition compareExchange i j l : option (list T) :=
  x ← l !! i; y ← l !! j;
  let swapCond := negb (eqb (i <? j) (ltb x y)) in
  let '(x, y) := condSwap swapCond x y in
  Some (<[j := y]> (<[i := x]> l)).

(** The inner loop over [mate], from its element [i] on. *)
Fixpoint compareMates s t i (mate : list nat) l : option (list T) :=
  match mate with
  | [] => Some l
  | m :: mate => l ← compareExchange (s + i) (t + m) l; compareMates s t (S i) mate l
  end.

Definition C : nat := 4.

Fixpoint compareRegions_loop s t offset (count : nat) (st : list T * G) : option (list T * G) :=
  match count with
  | O => Some st
  | S count =>
      let '(l, g) := st in
      let '(mate, g) := fisherYatesShuffle (seq 0 offset) g in
      l ← compareMates s t 0 mate l; compareRegions_loop s t offset count (l, g)
  end.

Definition compareRegions s t offset := compareRegions_loop s t offset C.

(** [for (i = start; i < bound; i += step)]; at most [bound] rounds. *)
Fixpoint forUp {S : Type} (fuel : nat) i bound step (body : nat -> S -> option S) (st : S) : option S :=
  match fuel with
  | O => Some st
  | Datatypes.S fuel => if i <? bound then st ← body i st; forUp fuel (i + step) bound step body st else Some st
  end.

(** [for (i = start; i >= step; i -= step)] *)
Fixpoint forDown {S : Type} (fuel : nat) i step (body : nat -> S -> option S) (st : S) : option S :=
  match fuel with
  | O => Some st
  | Datatypes.S fuel => if step <=? i then st ← body i st; forDown fuel (i - step) step body st else Some st
  end.

(** The passes for one offset: up, down, and over distances three, two and one. *)
Definition offsetPass n offset (st : list T * G) : option (list T * G) :=
  st ← forUp n 0 (n - offset) offset (fun i => compareRegions i (i + offset) offset) st;
  st ← forDown (S n) (n - offset) offset (fun i => compareRegions (i - offset) i offset) st;
  st ← forUp n 0 (n - 3 * offset) offset (fun i => compareRegions i (i + 3 * offset) offset) st;
  st ← forUp n 0 (n - 2 * offset) offset (fun i => compareRegions i (i + 2 * offset) offset) st;
  st ← forUp n 0 n (2 * offset) (fun i => compareRegions i (i + offset) offset) st;
  forUp n offset (n - offset) (2 * offset) (fun i => compareRegions i (i + offset) offset) st.

Fixpoint shell_loop (fuel : nat) n offset (st : list T * G) : option (list T * G) :=
  match fuel with
  | O => Some st
  | S fuel => if 0 <? offset then st ← offsetPass n offset st; shell_loop fuel n (offset / 2) st else Some st
  end.

Definition RandomizedShellSort l g : option (list T * G) := shell_loop (S (length l)) (length l) (length l / 2) (l, g).
End shell.

(** ** Loops *)

Section loops.
Context {S : Type} (P : S -> Prop).

Lemma forUp_inv step bound body : 0 < step ->
  forall fuel i st, P st -> (forall j st, P st -> i <= j -> Nat.divide step (j - i) -> j < bound -> exists st', body j st = Some st' /\ P st') ->
  exists st', forUp fuel i bound step body st = Some st' /\ P st'.
Proof.
  intros Hs. induction fuel as [|fuel IH]; intros i st Hst Hb; [by exists st|]. cbn [forUp].
  destruct (i <? bound) eqn:E; [apply Nat.ltb_lt in E|by exists st].
  destruct (Hb i st) as (st1 & -> & H1); [done|lia|by rewrite Nat.sub_diag; exists 0|done|]. cbn [mbind option_bind].
  apply IH; [done|]. intros j st' Hst' Hj Hd Hlt. apply Hb; [done|lia| |done].
  replace (j - i) with ((j - (i + step)) + step) by lia. apply Nat.divide_add_r; [done|by exists 1; lia].
Qed.

Lemma forDown_inv step body : 0 < step ->
  forall fuel i st, P st -> (forall j st, P st -> j <= i -> Nat.divide step (i - j) -> step <= j -> exists st', body j st = Some st' /\ P st') ->
  exists st', forDown fuel i step body st = Some st' /\ P st'.
Proof.
  intros Hs. induction fuel as [|fuel IH]; intros i st Hst Hb; [by exists st|]. cbn [forDown].
  destruct (step <=? i) eqn:E; [apply Nat.leb_le in E|by exists st].
  destruct (Hb i st) as (st1 & -> & H1); [done|lia|by rewrite Nat.sub_diag; exists 0|done|]. cbn [mbind option_bind].
  apply IH; [done|]. intros j st' Hst' Hj Hd Hlt. apply Hb; [done|lia| |done].
  replace (i - j) with ((i - step - j) + step) by lia. apply Nat.divide_add_r; [done|by exists 1; lia].
Qed.

(** What holds of every result that a loop has. *)
Lemma forUp_keeps step bound body : (forall j st st', P st -> body j st = Some st' -> P st') ->
  forall fuel i st st', P st -> forUp fuel i bound step body st = Some st' -> P st'.
Proof.
  intros Hb. induction fuel as [|fuel IH]; intros i st st' Hst; cbn [forUp]; [by intros [= <-]|].
  destruct (i <? bound); [|by intros [= <-]]. intros (st1 & E1 & E)%bind_Some. eapply IH; [|exact E]. by eapply Hb.
Qed.

Lemma forDown_keeps step body : (forall j st st', P st -> body j st = Some st' -> P st') ->
  forall fuel i st st', P st -> forDown fuel i step body st = Some st' -> P st'.
Proof.
  intros Hb. induction fuel as [|fuel IH]; intros i st st' Hst; cbn [forDown]; [by intros [= <-]|].
  destruct (step <=? i); [|by intros [= <-]]. intros (st1 & E1 & E)%bind_Some. eapply IH; [|exact E]. by eapply Hb.
Qed.

(** A loop that comes to an index where its body fails does not return. *)
Lemma forUp_fails step bound body : 0 < step -> (forall j st st', P st -> body j st = Some st' -> P st') ->
  forall q fuel i st, P st -> q < fuel -> i + q * step < bound -> (forall st, P st -> body (i + q * step) st = None) ->
  forUp fuel i bound step body st = None.
Proof.
  intros Hs Hb. induction q as [|q IH]; intros fuel i st Hst Hf Hi Hn; (destruct fuel as [|fuel]; [lia|]); cbn [forUp];
    rewrite (proj2 (Nat.ltb_lt _ _)) by lia.
  - rewrite Nat.mul_0_l, Nat.add_0_r in Hn. by rewrite Hn.
  - destruct (body i st) as [st1|] eqn:E; [|done]. cbn [mbind option_bind]. apply IH; [by eapply Hb|lia|lia|].
    intros st2 H2. rewrite <-(Hn st2 H2). f_equal. lia.
Qed.
End loops.

(** ** Comparisons *)

Section proofs.
Context {T G : Type} `{RandGen G} (ltb : T -> T -> bool) `{!StrictWeakOrder ltb}.
Implicit Types (l : list T) (g : G) (i j s t offset n : nat).

Definition sorted l : Prop := StronglySorted (cmp_le ltb) l.

(** What every step keeps. *)
Definition keeps l l' : Prop := l' ≡ₚ l /\ (sorted l -> sorted l').

#[local] Instance keeps_po : PreOrder keeps.
Proof.
  split; [by intros l|]. intros l1 l2 l3 [P1 S1] [P2 S2]. split; [by rewrite P2|]. intros Hs. by apply S2, S1.
Qed.

Definition equiv (x y : T) : Prop := ltb x y = false /\ ltb y x = false.

Lemma equiv_refl x : equiv x x.
Proof. unfold equiv. destruct (ltb x x) eqn:E; [|done]. pose proof (swo_asym x x E). congruence. Qed.

Lemma sorted_equiv l l' : Forall2 equiv l l' -> sorted l -> sorted l'.
Proof.
  unfold sorted. intros E. induction E as [|x y l l' Hxy E IH]; intros Hs; [constructor|]. inversion_clear Hs as [|? ? Hs' Hx].
  constructor; [by apply IH|]. clear IH Hs'. induction E as [|a b l l' Hab E IH]; [constructor|]. inversion_clear Hx as [|? ? Ha Hx'].
  constructor; [|by apply IH]. unfold cmp_le in *. apply (swo_negtrans _ a); [apply Hab|]. apply (swo_negtrans _ x); [done|apply Hxy].
Qed.

Lemma swapped_perm l i j x y : i <> j -> l !! i = Some x -> l !! j = Some y -> <[j := x]> (<[i := y]> l) ≡ₚ l.
Proof.
  intros Hne Hi Hj. transitivity (swap_at i j l); [unfold swap_at; by rewrite Hi, Hj|]. apply swap_at_perm.
Qed.

Lemma compareExchange_spec i j l : i < j < length l -> exists l', compareExchange ltb i j l = Some l' /\ keeps l l'.
Proof.
  intros Hij. destruct (lookup_lt_is_Some_2 l i) as [x Hx]; [lia|]. destruct (lookup_lt_is_Some_2 l j) as [y Hy]; [lia|].
  unfold compareExchange. rewrite Hx, Hy. cbn [mbind option_bind]. rewrite (proj2 (Nat.ltb_lt i j)) by lia.
  destruct (ltb x y) eqn:E; cbn [eqb negb condSwap].
  - eexists. split; [done|]. rewrite (list_insert_id l i x), (list_insert_id l j y) by done. by split.
  - eexists. split; [done|]. split; [by apply swapped_perm; [lia|..]|]. intros Hs.
    assert (Eyx : ltb y x = false).
    { unfold sorted in Hs. exact (StronglySorted_lookup_2 _ l i j x y Hs ltac:(lia) Hx Hy). }
    apply (sorted_equiv l); [|done]. apply Forall2_lookup. intros p.
    destruct (decide (p = j)) as [->|Hpj]; [rewrite list_lookup_insert_eq by (rewrite length_insert; lia); rewrite Hy; constructor; by split|].
    rewrite list_lookup_insert_ne by done. destruct (decide (p = i)) as [->|Hpi]; [rewrite list_lookup_insert_eq by lia; rewrite Hx; constructor; by split|].
    rewrite list_lookup_insert_ne by done. destruct (l !! p); constructor. apply equiv_refl.
Qed.

Lemma compareExchange_length i j l l' : compareExchange ltb i j l = Some l' -> length l' = length l.
Proof.
  unfold compareExchange. intros (x & _ & E)%bind_Some. apply bind_Some in E as (y & _ & E).
  destruct (condSwap _ x y). injection E as <-. by rewrite !length_insert.
Qed.

Lemma compareMates_spec s t offset mate : forall i l, i + length mate <= offset -> Forall (fun m => m < offset) mate ->
  s + offset <= t -> t + offset <= length l -> exists l', compareMates ltb s t i mate l = Some l' /\ keeps l l'.
Proof.
  induction mate as [|m mate IH]; intros i l Hi Hm Hst Ht; cbn [compareMates]; [by exists l|].
  apply Forall_cons_1 in Hm as [Hm Hms]. cbn [length] in Hi. destruct (compareExchange_spec (s + i) (t + m) l) as (l1 & -> & K1); [lia|].
  cbn [mbind option_bind]. assert (L : length l1 = length l) by (apply Permutation_length, K1).
  destruct (IH (S i) l1) as (l2 & -> & K2); [lia|done|done|lia|]. exists l2. split; [done|by etransitivity].
Qed.

Lemma compareMates_length s t mate : forall i l l', compareMates ltb s t i mate l = Some l' -> length l' = length l.
Proof.
  induction mate as [|m mate IH]; intros i l l'; cbn [compareMates]; [by intros [= <-]|].
  intros (l1 & E1%compareExchange_length & E)%bind_Some. apply IH in E. congruence.
Qed.

(** A mate behind the range. *)
Lemma compareMates_out s t m mate : forall i l, m ∈ mate -> length l <= t + m -> compareMates ltb s t i mate l = None.
Proof.
  induction mate as [|a mate IH]; intros i l Hm Hl; [by apply not_elem_of_nil in Hm|]. cbn [compareMates].
  destruct (compareExchange ltb (s + i) (t + a) l) as [l1|] eqn:E; [|done]. cbn [mbind option_bind]. apply elem_of_cons in Hm as [->|Hm].
  - unfold compareExchange in E. rewrite (lookup_ge_None_2 l (t + a)) in E by done. by destruct (l !! (s + i)).
  - apply IH; [done|]. by rewrite (compareExchange_length _ _ _ _ E).
Qed.

Lemma mate_facts offset g : let mate := (fisherYatesShuffle (seq 0 offset) g).1 in
  length mate = offset /\ Forall (fun m => m < offset) mate /\ (0 < offset -> offset - 1 ∈ mate).
Proof.
  intros mate. pose proof (fisherYatesShuffle_perm (seq 0 offset) g) as P. fold mate in P. split_and!.
  - by rewrite P, length_seq.
  - rewrite P. apply Forall_forall. intros m Hm%elem_of_seq. lia.
  - intros Ho. rewrite P. apply elem_of_seq. lia.
Qed.

Lemma compareRegions_spec s t offset l g : s + offset <= t -> t + offset <= length l ->
  exists l' g', compareRegions ltb s t offset (l, g) = Some (l', g') /\ keeps l l'.
Proof.
  unfold compareRegions. generalize C as count. intros count. revert l g. induction count as [|count IH]; intros l g Hs Ht; [by exists l, g|].
  cbn [compareRegions_loop]. destruct (mate_facts offset g) as (L & M & _). destruct (fisherYatesShuffle (seq 0 offset) g) as [mate g1]. cbn [fst] in *.
  destruct (compareMates_spec s t offset mate 0 l) as (l1 & -> & K1); [lia|done|done|done|]. cbn [mbind option_bind].
  destruct (IH l1 g1) as (l2 & g2 & -> & K2); [done|by rewrite (Permutation_length (proj1 K1))|]. exists l2, g2. split; [done|by etransitivity].
Qed.

Lemma compareRegions_length s t offset l g l' g' : compareRegions ltb s t offset (l, g) = Some (l', g') -> length l' = length l.
Proof.
  unfold compareRegions. generalize C as count. intros count. revert l g. induction count as [|count IH]; intros l g; cbn [compareRegions_loop]; [by intros [= <- _]|].
  destruct (fisherYatesShuffle (seq 0 offset) g) as [mate g1]. intros (l1 & E1%compareMates_length & E)%bind_Some. apply IH in E. congruence.
Qed.

Lemma compareRegions_out s t offset l g : 0 < offset -> length l < t + offset -> compareRegions ltb s t offset (l, g) = None.
Proof.
  intros Ho Hl. unfold compareRegions, C. cbn [compareRegions_loop]. destruct (mate_facts offset g) as (_ & _ & M).
  destruct (fisherYatesShuffle (seq 0 offset) g) as [mate g1]. cbn [fst] in M. by rewrite (compareMates_out s t (offset - 1)) by (lia || by apply M).
Qed.
End proofs.

(** ** Passes *)

Lemma divide_room o a b : Nat.divide o a -> Nat.divide o b -> a < b -> a + o <= b.
Proof. intros [p ->] [q ->] H. assert (Hpq : S p <= q) by (destruct (le_lt_dec q p) as [Hle|]; [apply (Nat.mul_le_mono_r _ _ o) in Hle; lia|lia]).
  apply (Nat.mul_le_mono_r _ _ o) in Hpq. lia. Qed.

(** Twice every offset divides the size. *)
Definition halving (n offset : nat) : Prop := forall j, 0 < offset / 2 ^ j -> Nat.divide (2 * (offset / 2 ^ j)) n.

Lemma halving_next n offset : halving n offset -> halving n (offset / 2).
Proof. intros H j. rewrite Nat.Div0.div_div, <-Nat.pow_succ_r'. apply (H (S j)). Qed.

Lemma halving_pow2 k : halving (2 ^ k) (2 ^ k / 2).
Proof.
  intros j. rewrite Nat.Div0.div_div, <-Nat.pow_succ_r'. intros Hj. destruct (le_lt_dec (S j) k) as [Hle|Hlt].
  - exists (2 ^ j). replace k with ((k - S j) + S j) at 1 2 by lia. rewrite Nat.pow_add_r, Nat.div_mul by (apply Nat.pow_nonzero; lia).
    rewrite Nat.pow_succ_r'. nia.
  - rewrite Nat.div_small in Hj; [by apply Nat.lt_irrefl in Hj|]. apply Nat.pow_lt_mono_r; [lia|done].
Qed.

Section passes.
Context {T G : Type} `{RandGen G} (ltb : T -> T -> bool) `{!StrictWeakOrder ltb}.
Implicit Types (l : list T) (g : G).

#[local] Instance keeps_preorder : PreOrder (keeps ltb).
Proof.
  split; [by intros l|]. intros l1 l2 l3 [P1 S1] [P2 S2]. split; [by rewrite P2|]. intros Hs. by apply S2, S1.
Qed.

Definition kept l0 (st : list T * G) : Prop := keeps ltb l0 st.1.

Lemma regions_kept l0 s t offset st : kept l0 st -> s + offset <= t -> t + offset <= length l0 ->
  exists st', compareRegions ltb s t offset st = Some st' /\ kept l0 st'.
Proof.
  destruct st as [l g]. unfold kept. cbn [fst]. intros K Hs Ht. destruct (compareRegions_spec ltb s t offset l g Hs) as (l' & g' & -> & K').
  { by rewrite (Permutation_length (proj1 K)). }
  exists (l', g'). split; [done|]. cbn [fst]. by etransitivity.
Qed.

Lemma offsetPass_spec l0 offset st : 0 < offset -> Nat.divide (2 * offset) (length l0) -> kept l0 st ->
  exists st', offsetPass ltb (length l0) offset st = Some st' /\ kept l0 st'.
Proof.
  intros Ho D2 K. set (n := length l0) in *. assert (D1 : Nat.divide offset n) by (etransitivity; [|exact D2]; by exists 2).
  assert (Dk : forall k, k * offset <= n -> Nat.divide offset (n - k * offset)) by (intros k Hk; apply Nat.divide_sub_r; [done|by exists k]).
  unfold offsetPass.
  destruct (forUp_inv (kept l0) offset (n - offset) (fun i => compareRegions ltb i (i + offset) offset) Ho n 0 st K) as (st1 & -> & K1).
  { intros j st' K' _ Dj Hj. rewrite Nat.sub_0_r in Dj. apply regions_kept; [done|lia|].
    pose proof (divide_room offset j (n - 1 * offset) Dj (Dk 1 ltac:(lia))). fold n. lia. }
  cbn [mbind option_bind].
  destruct (forDown_inv (kept l0) offset (fun i => compareRegions ltb (i - offset) i offset) Ho (S n) (n - offset) st1 K1) as (st2 & -> & K2).
  { intros j st' K' Hj _ Hoj. apply regions_kept; [done|lia|]. fold n. destruct (decide (offset <= n)); [lia|].
    destruct (decide (n = 0)); [lia|]. apply Nat.divide_pos_le in D1; lia. }
  cbn [mbind option_bind].
  destruct (forUp_inv (kept l0) offset (n - 3 * offset) (fun i => compareRegions ltb i (i + 3 * offset) offset) Ho n 0 st2 K2) as (st3 & -> & K3).
  { intros j st' K' _ Dj Hj. rewrite Nat.sub_0_r in Dj. apply regions_kept; [done|lia|].
    pose proof (divide_room offset j (n - 3 * offset) Dj (Dk 3 ltac:(lia))). fold n. lia. }
  cbn [mbind option_bind].
  destruct (forUp_inv (kept l0) offset (n - 2 * offset) (fun i => compareRegions ltb i (i + 2 * offset) offset) Ho n 0 st3 K3) as (st4 & -> & K4).
  { intros j st' K' _ Dj Hj. rewrite Nat.sub_0_r in Dj. apply regions_kept; [done|lia|].
    pose proof (divide_room offset j (n - 2 * offset) Dj (Dk 2 ltac:(lia))). fold n. lia. }
  cbn [mbind option_bind].
  destruct (forUp_inv (kept l0) (2 * offset) n (fun i => compareRegions ltb i (i + offset) offset) ltac:(lia) n 0 st4 K4) as (st5 & -> & K5).
  { intros j st' K' _ Dj Hj. rewrite Nat.sub_0_r in Dj. apply regions_kept; [done|lia|]. pose proof (divide_room (2 * offset) j n Dj D2 Hj). fold n. lia. }
  cbn [mbind option_bind].
  apply forUp_inv; [lia|done|]. intros j st' K' Hj Dj Hjn. apply regions_kept; [done|lia|].
  pose proof (divide_room (2 * offset) (j - offset + 2 * offset) n) as R. fold n. destruct R; [|done|lia..]. apply Nat.divide_add_r; [done|by exists 1; lia].
Qed.

(** The fifth pass looks behind a range whose size twice the offset does not
    divide. *)
Lemma offsetPass_fails n offset l g : 0 < offset -> ~ Nat.divide (2 * offset) n -> length l = n -> offsetPass ltb n offset (l, g) = None.
Proof.
  intros Ho Hd Hl. set (Q := fun st : list T * G => length st.1 = n).
  assert (R : forall s t j (st st' : list T * G), Q st -> compareRegions ltb s t j st = Some st' -> Q st').
  { intros s t j [l1 g1] [l2 g2] H1 H2%compareRegions_length. unfold Q in *. cbn [fst] in *. congruence. }
  assert (Last : forall st, Q st -> forUp n 0 n (2 * offset) (fun i => compareRegions ltb i (i + offset) offset) st = None).
  { intros st Hst. pose proof (Nat.div_mod_eq n (2 * offset)) as E. pose proof (Nat.mod_upper_bound n (2 * offset) ltac:(lia)).
    assert (n mod (2 * offset) <> 0) by (intros Hz; apply Hd; exists (n / (2 * offset)); lia).
    apply (forUp_fails Q (2 * offset) n _ ltac:(lia) (fun j => R _ _ _) (n / (2 * offset))); [done|nia|lia|].
    intros [l1 g1] A1. apply compareRegions_out; [done|]. unfold Q in A1. cbn [fst] in A1. lia. }
  unfold offsetPass. destruct (forUp n 0 (n - offset) _ _ _) as [st1|] eqn:E1; [|done]. cbn [mbind option_bind].
  apply (forUp_keeps Q) in E1; [|by intros j; apply R|done].
  destruct (forDown _ _ _ _ st1) as [st2|] eqn:E2; [|done]. cbn [mbind option_bind]. apply (forDown_keeps Q) in E2; [|by intros j; apply R|done].
  destruct (forUp _ _ _ _ _ st2) as [st3|] eqn:E3; [|done]. cbn [mbind option_bind]. apply (forUp_keeps Q) in E3; [|by intros j; apply R|done].
  destruct (forUp _ _ _ _ _ st3) as [st4|] eqn:E4; [|done]. cbn [mbind option_bind]. apply (forUp_keeps Q) in E4; [|by intros j; apply R|done].
  by rewrite Last.
Qed.

Lemma shell_loop_spec l0 fuel : forall offset st, offset < fuel -> halving (length l0) offset -> kept l0 st ->
  exists st', shell_loop ltb fuel (length l0) offset st = Some st' /\ kept l0 st'.
Proof.
  induction fuel as [|fuel IH]; intros offset st Hf Hh K; [lia|]. cbn [shell_loop].
  destruct (0 <? offset) eqn:E; [apply Nat.ltb_lt in E|by exists st].
  destruct (offsetPass_spec l0 offset st E) as (st1 & -> & K1); [|done|].
  { specialize (Hh 0). rewrite Nat.pow_0_r, Nat.div_1_r in Hh. by apply Hh. }
  apply IH; [|by apply halving_next|done]. pose proof (Nat.div_lt offset 2). lia.
Qed.

Lemma offsetPass_length n offset l g st : length l = n -> offsetPass ltb n offset (l, g) = Some st -> length st.1 = n.
Proof.
  intros Hl. set (Q := fun st : list T * G => length st.1 = n).
  assert (R : forall s t j (st st' : list T * G), Q st -> compareRegions ltb s t j st = Some st' -> Q st').
  { intros s t j [l1 g1] [l2 g2] H1 H2%compareRegions_length. unfold Q in *. cbn [fst] in *. congruence. }
  unfold offsetPass. intros (st1 & E1 & E)%bind_Some. apply (forUp_keeps Q) in E1; [|by intros j; apply R|done].
  apply bind_Some in E as (st2 & E2 & E). apply (forDown_keeps Q) in E2; [|by intros j; apply R|done].
  apply bind_Some in E as (st3 & E3 & E). apply (forUp_keeps Q) in E3; [|by intros j; apply R|done].
  apply bind_Some in E as (st4 & E4 & E). apply (forUp_keeps Q) in E4; [|by intros j; apply R|done].
  apply bind_Some in E as (st5 & E5 & E). apply (forUp_keeps Q) in E5; [|by intros j; apply R|done].
  by apply (forUp_keeps Q) in E; [|by intros j; apply R|done].
Qed.

Lemma shell_loop_fails n j fuel : forall offset l g, offset < fuel -> length l = n -> 0 < offset / 2 ^ j -> ~ Nat.divide (2 * (offset / 2 ^ j)) n ->
  shell_loop ltb fuel n offset (l, g) = None.
Proof.
  revert fuel. induction j as [|j IH]; intros fuel offset l g Hf Hl Hj Hd; (destruct fuel as [|fuel]; [lia|]); cbn [shell_loop].
  - rewrite Nat.pow_0_r, Nat.div_1_r in *. rewrite (proj2 (Nat.ltb_lt _ _)) by done. by rewrite offsetPass_fails.
  - assert (Ho : 0 < offset) by (destruct offset; [by rewrite Nat.Div0.div_0_l in Hj|lia]). rewrite (proj2 (Nat.ltb_lt _ _)) by done.
    destruct (offsetPass ltb n offset (l, g)) as [[l1 g1]|] eqn:E; [|done]. cbn [mbind option_bind]. apply offsetPass_length in E; [|done].
    rewrite Nat.pow_succ_r', <-Nat.Div0.div_div in Hj, Hd. apply IH; [|done|done|done]. pose proof (Nat.div_lt offset 2). lia.
Qed.

(** C30: Randomized Shellsort stays in its range exactly for some sizes.  When
    twice every offset divides the size, as for a power of two, it returns a
    rearrangement of its input for every generator, and a sorted input in
    order; for every other size, such as three or five, it accesses elements
    behind the range. *)
Theorem RandomizedShellSort_safe l g :
  (halving (length l) (length l / 2) -> exists l' g', RandomizedShellSort ltb l g = Some (l', g') /\
    l' ≡ₚ l /\ (StronglySorted (cmp_le ltb) l -> StronglySorted (cmp_le ltb) l')) /\
  ((exists j, 0 < length l / 2 / 2 ^ j /\ ~ Nat.divide (2 * (length l / 2 / 2 ^ j)) (length l)) -> RandomizedShellSort ltb l g = None) /\
  (forall k, length l = 2 ^ k -> halving (length l) (length l / 2)).
Proof.
  assert (Hn : length l / 2 < S (length l)) by (pose proof (Nat.Div0.div_le_mono (length l) (length l) 2); pose proof (Nat.Div0.div_le_upper_bound (length l) 2 (length l)); lia).
  split_and!.
  - intros Hh. destruct (shell_loop_spec l (S (length l)) (length l / 2) (l, g) Hn Hh) as ([l' g'] & E & [P S]); [by split|].
    exists l', g'. by split_and!.
  - intros (j & Hj & Hd). by apply (shell_loop_fails (length l) j).
  - intros k ->. apply halving_pow2.
Qed.
End passes.

(** ** An instance *)

(** A generator of zeros. *)
#[local] Instance zeros : RandGen unit := { rand64 g := (0%Z, g); rand32 g := (0%Z, g); rand1 g := (0%Z, g) }.

#[local] Instance nat_ltb_swo : StrictWeakOrder Nat.ltb.
Proof. split; intros; rewrite ?Nat.ltb_lt, ?Nat.ltb_ge in *; lia. Qed.

Lemma RandomizedShellSort_safe_witness :
  (exists l' g', RandomizedShellSort Nat.ltb [3; 1; 4; 2] tt = Some (l', g') /\ l' ≡ₚ [3; 1; 4; 2]) /\
  RandomizedShellSort Nat.ltb [3; 1; 2] tt = None.
Proof.
  split.
  - destruct (RandomizedShellSort_safe Nat.ltb [3; 1; 4; 2] tt) as (S & _ & P). destruct (S (P 2 eq_refl)) as (l' & g' & E & H & _).
    by exists l', g'.
  - destruct (RandomizedShellSort_safe Nat.ltb [3; 1; 2] tt) as (_ & N & _). apply N. exists 0. split; [cbn; lia|]. intros [q Hq]. cbn in Hq. lia.
Defined.

Example shell_sorts_eight : fst <$> RandomizedShellSort Nat.ltb [5; 3; 8; 1; 7; 2; 6; 4] tt = Some [1; 2; 3; 4; 5; 6; 7; 8].
Proof. vm_compute. reflexivity. Qed.
