(* ===== verification/Inner.v ===== *)
(** * Codecs and constant-time primitives
    (bearssl/src/bearssl/inner.h, codec/enc32be.c, codec/dec32be.c)

    Memory is a list of bytes, each an integer in [0 .. 255].  The encoders
    return the bytes they store, the decoders read the first bytes of their
    argument.  The byte-wise branches of the codecs are the ones modelled; the
    direct stores that replace them on little-endian machines write the same
    bytes. *)
From S2P Require Import Prelude.
Local Open Scope Z_scope.

Abbreviation bytes := (list Z).

Definition byte_ok (b : Z) : Prop := 0 <= b < 256.

(** [buf[i]] *)
Definition byte_at (s : bytes) (i : nat) : Z := nth i s 0.

(** ** Encoding and decoding *)

Definition br_enc16le (x : Z) : bytes := [w8 x; w8 (Z.shiftr x 8)].
Definition br_enc16be (x : Z) : bytes := [w8 (Z.shiftr x 8); w8 x].
Definition br_dec16le (s : bytes) : Z := Z.lor (byte_at s 0) (Z.shiftl (byte_at s 1) 8).
Definition br_dec16be (s : bytes) : Z := Z.lor (Z.shiftl (byte_at s 0) 8) (byte_at s 1).

Definition br_enc32le (x : Z) : bytes :=
  [w8 x; w8 (Z.shiftr x 8); w8 (Z.shiftr x 16); w8 (Z.shiftr x 24)].
Definition br_enc32be (x : Z) : bytes :=
  [w8 (Z.shiftr x 24); w8 (Z.shiftr x 16); w8 (Z.shiftr x 8); w8 x].
Definition br_dec32le (s : bytes) : Z :=
  Z.lor (Z.lor (Z.lor (byte_at s 0) (w32 (Z.shiftl (byte_at s 1) 8)))
               (w32 (Z.shiftl (byte_at s 2) 16))) (w32 (Z.shiftl (byte_at s 3) 24)).
Definition br_dec32be (s : bytes) : Z :=
  Z.lor (Z.lor (Z.lor (w32 (Z.shiftl (byte_at s 0) 24)) (w32 (Z.shiftl (byte_at s 1) 16)))
               (w32 (Z.shiftl (byte_at s 2) 8))) (byte_at s 3).

Definition br_enc64le (x : Z) : bytes := br_enc32le (w32 x) ++ br_enc32le (w32 (Z.shiftr x 32)).
Definition br_enc64be (x : Z) : bytes := br_enc32be (w32 (Z.shiftr x 32)) ++ br_enc32be (w32 x).
Definition br_dec64le (s : bytes) : Z :=
  Z.lor (br_dec32le s) (w64 (Z.shiftl (br_dec32le (drop 4 s)) 32)).
Definition br_dec64be (s : bytes) : Z :=
  Z.lor (w64 (Z.shiftl (br_dec32be s) 32)) (br_dec32be (drop 4 s)).

(** [br_range_enc32be(dst, v, num)]: the bytes written from [dst] on. *)
Fixpoint br_range_enc32be (v : list Z) (num : nat) : bytes :=
  match num, v with
  | S num, x :: v => br_enc32be x ++ br_range_enc32be v num
  | _, _ => []
  end.

(** [br_range_dec32be(v, num, src)]: the words read from [src] on. *)
Fixpoint br_range_dec32be (num : nat) (src : bytes) : list Z :=
  match num with
  | O => []
  | S num => br_dec32be src :: br_range_dec32be num (drop 4 src)
  end.

Definition br_swap32 (x : Z) : Z :=
  let x := Z.lor (w32 (Z.shiftl (Z.land x 0x00FF00FF) 8)) (Z.land (Z.shiftr x 8) 0x00FF00FF) in
  Z.lor (w32 (Z.shiftl x 16)) (Z.shiftr x 16).

(** ** Constant-time primitives *)

Definition neg32 (x : Z) : Z := w32 (- x).
Definition not32 (x : Z) : Z := 0xFFFFFFFF - x.

Definition NOT (ctl : Z) : Z := Z.lxor ctl 1.
Definition MUX (ctl x y : Z) : Z := Z.lxor y (Z.land (neg32 ctl) (Z.lxor x y)).
Definition EQ (x y : Z) : Z := let q := Z.lxor x y in NOT (Z.shiftr (Z.lor q (neg32 q)) 31).
Definition NEQ (x y : Z) : Z := let q := Z.lxor x y in Z.shiftr (Z.lor q (neg32 q)) 31.
Definition GT (x y : Z) : Z :=
  let z := w32 (y - x) in
  Z.shiftr (Z.lxor z (Z.land (Z.lxor x y) (Z.lxor x z))) 31.
Definition GE (x y : Z) : Z := NOT (GT y x).
Definition LT (x y : Z) : Z := GT y x.
Definition LE (x y : Z) : Z := NOT (GT x y).
(** The result is a signed integer. *)
Definition CMP (x y : Z) : Z := Z.lor (GT x y) (- GT y x).

(** The operand of the following is a signed 32-bit integer. *)
Definition EQ0 (x : Z) : Z := let q := w32 x in Z.shiftr (not32 (Z.lor q (neg32 q))) 31.
Definition GT0 (x : Z) : Z := let q := w32 x in Z.shiftr (Z.land (not32 q) (neg32 q)) 31.
Definition GE0 (x : Z) : Z := Z.shiftr (not32 (w32 x)) 31.
Definition LT0 (x : Z) : Z := Z.shiftr (w32 x) 31.
Definition LE0 (x : Z) : Z := let q := w32 x in Z.shiftr (Z.lor q (not32 (neg32 q))) 31.

Definition BIT_LENGTH (x : Z) : Z :=
  let k := NEQ x 0 in
  let c := GT x 0xFFFF in let x := MUX c (Z.shiftr x 16) x in let k := k + Z.shiftl c 4 in
  let c := GT x 0x00FF in let x := MUX c (Z.shiftr x 8) x in let k := k + Z.shiftl c 3 in
  let c := GT x 0x000F in let x := MUX c (Z.shiftr x 4) x in let k := k + Z.shiftl c 2 in
  let c := GT x 0x0003 in let x := MUX c (Z.shiftr x 2) x in let k := k + Z.shiftl c 1 in
  k + GT x 0x0001.

Definition MIN (x y : Z) : Z := MUX (GT x y) y x.
Definition MAX (x y : Z) : Z := MUX (GT x y) x y.
Definition MUL (x y : Z) : Z := w64 (x * y).
Definition MUL31 (x y : Z) : Z := w64 (x * y).
Definition MUL31_lo (x y : Z) : Z := Z.land (w32 (x * y)) 0x7FFFFFFF.

(** ** Bit-level lemmas *)

(** Disjoint bit ranges add up. *)
Lemma lor_disjoint a b k : 0 <= k -> 0 <= a < 2 ^ k -> Z.lor (Z.shiftl b k) a = b * 2 ^ k + a.
Proof.
  intros Hk Ha. rewrite <-Z.shiftl_mul_pow2 by done.
  assert (Z.land (Z.shiftl b k) a = 0) as Hl.
  { apply Z.bits_inj'. intros i Hi. rewrite Z.land_spec, Z.bits_0.
    destruct (Z.lt_ge_cases i k).
    - rewrite Z.shiftl_spec_low by done. done.
    - rewrite (in_width_high_bits k a i) by done. apply andb_false_r. }
  pose proof (Z.add_lor_land (Z.shiftl b k) a). lia.
Qed.

Lemma shiftl_width w k b : 0 <= k -> 0 <= b < 2 ^ w -> 0 <= w -> in_width (w + k) (Z.shiftl b k).
Proof.
  intros. unfold in_width. rewrite Z.shiftl_mul_pow2, Z.pow_add_r by lia.
  pose proof (Z.pow_pos_nonneg 2 k). nia.
Qed.

Lemma byte_at_ok s i : Forall byte_ok s -> byte_ok (byte_at s i).
Proof.
  intros H. unfold byte_at. rewrite nth_lookup. destruct (s !! i) eqn:E; simpl.
  - by eapply Forall_lookup_1 in E.
  - unfold byte_ok. lia.
Qed.

Lemma w8_ok x : byte_ok (w8 x).
Proof. apply (wrap_in_width 8). lia. Qed.

(** The value of a group of bytes. *)
Lemma dec32be_value s : Forall byte_ok s ->
  br_dec32be s = byte_at s 0 * 2 ^ 24 + byte_at s 1 * 2 ^ 16 + byte_at s 2 * 2 ^ 8 + byte_at s 3.
Proof.
  intros H. unfold br_dec32be.
  pose proof (byte_at_ok s 0 H) as B0. pose proof (byte_at_ok s 1 H) as B1.
  pose proof (byte_at_ok s 2 H) as B2. pose proof (byte_at_ok s 3 H) as B3. unfold byte_ok in *.
  rewrite !wrap_small by (unfold in_width; rewrite Z.shiftl_mul_pow2 by lia; lia).
  rewrite (lor_disjoint (Z.shiftl (byte_at s 1) 16)) by (rewrite ?Z.shiftl_mul_pow2; lia).
  rewrite (Z.shiftl_mul_pow2 (byte_at s 1)) by lia.
  replace (byte_at s 0 * 2 ^ 24 + byte_at s 1 * 2 ^ 16) with (Z.shiftl (byte_at s 0 * 2 ^ 8 + byte_at s 1) 16)
    by (rewrite Z.shiftl_mul_pow2; lia).
  rewrite lor_disjoint by (rewrite ?Z.shiftl_mul_pow2; lia).
  rewrite (Z.shiftl_mul_pow2 (byte_at s 2)) by lia.
  replace ((byte_at s 0 * 2 ^ 8 + byte_at s 1) * 2 ^ 16 + byte_at s 2 * 2 ^ 8)
    with (Z.shiftl (byte_at s 0 * 2 ^ 16 + byte_at s 1 * 2 ^ 8 + byte_at s 2) 8)
    by (rewrite Z.shiftl_mul_pow2; lia).
  rewrite lor_disjoint by lia. rewrite !Z.shiftl_mul_pow2 by lia. lia.
Qed.

Lemma dec32le_rev s : br_dec32le s = br_dec32be [byte_at s 3; byte_at s 2; byte_at s 1; byte_at s 0].
Proof.
  unfold br_dec32le, br_dec32be. cbn [byte_at nth].
  fold (byte_at s 0) (byte_at s 1) (byte_at s 2) (byte_at s 3).
  apply Z.bits_inj'. intros i _. rewrite !Z.lor_spec. repeat destruct (Z.testbit _ i); done.
Qed.

Lemma bytes4 s : length s = 4%nat -> s = [byte_at s 0; byte_at s 1; byte_at s 2; byte_at s 3].
Proof. by destruct s as [|? [|? [|? [|? [|? ?]]]]]. Qed.

Lemma enc32be_ok x : Forall byte_ok (br_enc32be x).
Proof. repeat constructor; apply w8_ok. Qed.

Lemma enc32le_rev x : br_enc32le x = rev (br_enc32be x).
Proof. done. Qed.

Lemma dec_enc32be x rest : Forall byte_ok rest -> in_width 32 x -> br_dec32be (br_enc32be x ++ rest) = x.
Proof.
  intros Hr [H0 H1]. rewrite dec32be_value by (apply Forall_app; split; [apply enc32be_ok|done]).
  unfold byte_at, br_enc32be, wrap. cbn [app nth]. rewrite !Z.shiftr_div_pow2 by lia. lia.
Qed.

Lemma lor_shiftl_add w a b k :
  0 <= k -> 0 <= a < 2 ^ k -> 0 <= b -> 2 ^ k * b < 2 ^ w -> Z.lor a (wrap w (Z.shiftl b k)) = a + 2 ^ k * b.
Proof.
  intros Hk Ha Hb Hw. rewrite wrap_small.
  - rewrite Z.lor_comm, lor_disjoint by lia. lia.
  - rewrite Z.shiftl_mul_pow2 by lia. split; lia.
Qed.

Lemma dec_enc64le x : in_width 64 x -> br_dec64le (br_enc64le x) = x.
Proof.
  intros Hx. unfold br_dec64le, br_enc64le.
  assert (R : forall y rest, in_width 32 y -> br_dec32le (br_enc32le y ++ rest) = y).
  { intros y rest Hy. rewrite dec32le_rev, enc32le_rev. unfold br_enc32be at 1.
    assert (E : [byte_at (List.rev (br_enc32be y) ++ rest) 3; byte_at (List.rev (br_enc32be y) ++ rest) 2;
                 byte_at (List.rev (br_enc32be y) ++ rest) 1; byte_at (List.rev (br_enc32be y) ++ rest) 0] = br_enc32be y ++ [])
      by reflexivity.
    unfold br_enc32be in E at 1. rewrite E. apply dec_enc32be; [constructor|done]. }
  rewrite (R (w32 x) (br_enc32le (w32 (Z.shiftr x 32)))) by (apply wrap_in_width; lia).
  assert (D : drop 4 (br_enc32le (w32 x) ++ br_enc32le (w32 (Z.shiftr x 32))) = br_enc32le (w32 (Z.shiftr x 32)) ++ [])
    by reflexivity.
  rewrite D, R by (apply wrap_in_width; lia). unfold wrap. rewrite Z.shiftr_div_pow2 by lia. destruct Hx.
  rewrite (Z.mod_small (x / 2 ^ 32)) by lia.
  assert (L := lor_shiftl_add 64 (x mod 2 ^ 32) (x / 2 ^ 32) 32). unfold wrap in L. rewrite L by lia. lia.
Qed.

Lemma enc64le_length x : length (br_enc64le x) = 8%nat.
Proof. reflexivity. Qed.

Lemma enc64le_ok x : Forall byte_ok (br_enc64le x).
Proof. repeat (constructor; [apply w8_ok|]). constructor. Qed.

Lemma enc32le_ok x : Forall byte_ok (br_enc32le x).
Proof. repeat (constructor; [apply w8_ok|]). constructor. Qed.

Lemma enc_dec32be s : length s = 4%nat -> Forall byte_ok s -> br_enc32be (br_dec32be s) = s.
Proof.
  intros Hl H. rewrite (bytes4 s Hl) at 2. rewrite dec32be_value by done.
  pose proof (byte_at_ok s 0 H) as B0. pose proof (byte_at_ok s 1 H) as B1.
  pose proof (byte_at_ok s 2 H) as B2. pose proof (byte_at_ok s 3 H) as B3. unfold byte_ok in *.
  unfold br_enc32be, wrap. rewrite !Z.shiftr_div_pow2 by lia. repeat (f_equal; [lia|]). f_equal. lia.
Qed.

Lemma dec32be_width s : Forall byte_ok s -> in_width 32 (br_dec32be s).
Proof.
  intros H. rewrite dec32be_value by done.
  pose proof (byte_at_ok s 0 H). pose proof (byte_at_ok s 1 H).
  pose proof (byte_at_ok s 2 H). pose proof (byte_at_ok s 3 H). unfold byte_ok, in_width in *. lia.
Qed.

Lemma dec_enc64be x : in_width 64 x -> br_dec64be (br_enc64be x) = x.
Proof.
  intros [H0 H1]. unfold br_dec64be, br_enc64be. rewrite drop_app_length' by done.
  rewrite dec_enc32be by (apply enc32be_ok || (apply wrap_in_width; lia)).
  rewrite <-(app_nil_r (br_enc32be (w32 x))).
  rewrite dec_enc32be; [|apply Forall_nil_2|apply wrap_in_width; lia].
  unfold wrap. rewrite Z.shiftr_div_pow2 by lia.
  rewrite (Z.mod_small (Z.shiftl _ _)) by (rewrite Z.shiftl_mul_pow2 by lia; lia).
  rewrite lor_disjoint by lia. lia.
Qed.

Lemma enc64be_length x : length (br_enc64be x) = 8%nat.
Proof. done. Qed.

Lemma enc64be_ok x : Forall byte_ok (br_enc64be x).
Proof. apply Forall_app. split; apply enc32be_ok. Qed.

Lemma range_enc32be_ok v : forall num, Forall byte_ok (br_range_enc32be v num).
Proof.
  induction v as [|x v IH]; intros [|num]; simpl; try constructor; try apply w8_ok.
  repeat (constructor; [apply w8_ok|]). apply IH.
Qed.

Lemma range_enc32be_length v : forall num, (num <= length v)%nat -> length (br_range_enc32be v num) = (4 * num)%nat.
Proof.
  induction v as [|x v IH]; intros [|num] Hn; cbn [br_range_enc32be length] in *; [lia..|].
  rewrite length_app, IH by lia. simpl. lia.
Qed.

Lemma range_dec_enc32be v : Forall (in_width 32) v -> forall rest, Forall byte_ok rest ->
  br_range_dec32be (length v) (br_range_enc32be v (length v) ++ rest) = v.
Proof.
  induction 1 as [|x v Hx Hv IH]; intros rest Hr; [done|]. cbn [br_range_dec32be br_range_enc32be length].
  rewrite <-app_assoc, drop_app_length' by done.
  rewrite IH by done. rewrite dec_enc32be; [done| |done].
  apply Forall_app. split; [apply range_enc32be_ok|done].
Qed.

Lemma range_enc_dec32be num : forall s, length s = (4 * num)%nat -> Forall byte_ok s ->
  br_range_enc32be (br_range_dec32be num s) num = s.
Proof.
  induction num as [|num IH]; intros s Hl Hs; [by destruct s|]. cbn [br_range_dec32be br_range_enc32be].
  rewrite IH by (rewrite ?length_drop; try lia; by apply Forall_drop).
  assert (br_dec32be s = br_dec32be (take 4 s)) as ->.
  { destruct s as [|? [|? [|? [|? ?]]]]; simpl in Hl; try lia. done. }
  rewrite enc_dec32be; [apply take_drop| |by apply Forall_take]. rewrite length_take. lia.
Qed.

(** ** The top bit of a 32-bit word *)

Lemma top_bit q : in_width 32 q -> Z.testbit q 31 = (2 ^ 31 <=? q).
Proof.
  intros [H0 H1]. rewrite Z.testbit_eqb by lia.
  assert (0 <= q / 2 ^ 31 < 2) by (split; [apply Z.div_pos|apply Z.div_lt_upper_bound]; lia).
  rewrite Z.mod_small by lia. lia.
Qed.

Lemma shiftr_top q : in_width 32 q -> Z.shiftr q 31 = Z.b2z (Z.testbit q 31).
Proof.
  intros H. rewrite top_bit by done. destruct H as [H0 H1]. rewrite Z.shiftr_div_pow2 by lia.
  assert (0 <= q / 2 ^ 31 < 2) by (split; [apply Z.div_pos|apply Z.div_lt_upper_bound]; lia).
  case_cmp; simpl Z.b2z; lia.
Qed.

Lemma neg32_width q : in_width 32 (neg32 q).
Proof. apply wrap_in_width. lia. Qed.

Lemma not32_width q : in_width 32 q -> in_width 32 (not32 q).
Proof. unfold in_width, not32. lia. Qed.

Lemma neg32_value q : in_width 32 q -> neg32 q = if q =? 0 then 0 else 2 ^ 32 - q.
Proof. intros [H0 H1]. unfold neg32, wrap. case_cmp; lia. Qed.

Lemma nonzero_top q : in_width 32 q -> Z.testbit (Z.lor q (neg32 q)) 31 = negb (q =? 0).
Proof.
  intros H. rewrite Z.lor_spec, !top_bit by (done || apply neg32_width). rewrite neg32_value by done.
  destruct H. case_cmp; simpl; lia || done.
Qed.

Lemma not32_top q : in_width 32 q -> Z.testbit (not32 q) 31 = negb (Z.testbit q 31).
Proof. intros H. rewrite !top_bit by (done || by apply not32_width). destruct H. unfold not32. lia. Qed.

Lemma NOT_b2z b : NOT (Z.b2z b) = Z.b2z (negb b).
Proof. by destruct b. Qed.

#[export] Hint Resolve neg32_width not32_width : width.
Lemma in_width_nonneg w z : in_width w z -> 0 <= z.
Proof. by intros []. Qed.

Ltac w32_solve :=
  repeat first [assumption | apply neg32_width | apply lor_in_width; [lia|..] | apply lxor_in_width; [lia|..]
    | apply land_in_width_l; [lia|..] | match goal with |- 0 <= _ => apply (in_width_nonneg 32) end
    | apply not32_width | (apply wrap_in_width; lia) ].

Lemma NEQ_spec x y : in_width 32 x -> in_width 32 y -> NEQ x y = Z.b2z (negb (x =? y)).
Proof.
  intros Hx Hy. unfold NEQ. cbv zeta. rewrite shiftr_top by w32_solve. rewrite nonzero_top by w32_solve.
  f_equal. f_equal. destruct (Z.eqb_spec x y) as [->|Hne].
  - by rewrite Z.lxor_nilpotent.
  - apply Z.eqb_neq. by rewrite Z.lxor_eq_0_iff.
Qed.

Lemma EQ_spec x y : in_width 32 x -> in_width 32 y -> EQ x y = Z.b2z (x =? y).
Proof.
  intros Hx Hy. change (EQ x y) with (NOT (NEQ x y)). rewrite NEQ_spec by done.
  by rewrite NOT_b2z, negb_involutive.
Qed.

Lemma GT_spec x y : in_width 32 x -> in_width 32 y -> GT x y = Z.b2z (y <? x).
Proof.
  intros Hx Hy. unfold GT. cbv zeta. rewrite shiftr_top by w32_solve. f_equal.
  rewrite Z.lxor_spec, Z.land_spec, !Z.lxor_spec, !top_bit by w32_solve.
  destruct Hx, Hy. unfold wrap. 
  assert (Hz : (y - x) mod 2 ^ 32 = if x <=? y then y - x else y - x + 2 ^ 32).
  { case_cmp; [apply Z.mod_small; lia|]. symmetry. apply (Z.mod_unique _ _ (-1)); lia. }
  rewrite Hz. clear Hz. destruct (Z.leb_spec x y); case_cmp; simpl; lia || done.
Qed.

Lemma MUX_spec b x y : in_width 32 x -> in_width 32 y -> MUX (Z.b2z b) x y = if b then x else y.
Proof.
  intros Hx Hy. unfold MUX. destruct b; cbn [Z.b2z].
  - change (neg32 1) with (Z.ones 32).
    rewrite Z.land_comm, Z.land_ones by lia. change (Z.lxor x y mod 2 ^ 32) with (w32 (Z.lxor x y)).
    rewrite wrap_small by w32_solve. rewrite Z.lxor_comm, Z.lxor_assoc, Z.lxor_nilpotent. apply Z.lxor_0_r.
  - change (neg32 0) with 0. rewrite Z.land_0_l. apply Z.lxor_0_r.
Qed.

Lemma w32_signed x : - 2 ^ 31 <= x < 2 ^ 31 -> w32 x = if 0 <=? x then x else x + 2 ^ 32.
Proof. intros Hx. unfold wrap. case_cmp; lia. Qed.

Lemma EQ0_spec x : - 2 ^ 31 <= x < 2 ^ 31 -> EQ0 x = Z.b2z (x =? 0).
Proof.
  intros Hx. unfold EQ0. cbv zeta. rewrite shiftr_top by w32_solve.
  rewrite not32_top by w32_solve. rewrite nonzero_top by w32_solve. rewrite negb_involutive. f_equal.
  unfold wrap. lia.
Qed.

Lemma GT0_spec x : - 2 ^ 31 <= x < 2 ^ 31 -> GT0 x = Z.b2z (0 <? x).
Proof.
  intros Hx. unfold GT0. cbv zeta. rewrite shiftr_top by w32_solve.
  rewrite Z.land_spec, not32_top by w32_solve. rewrite !top_bit by w32_solve.
  rewrite neg32_value by w32_solve. f_equal. rewrite w32_signed by done.
  destruct (Z.leb_spec 0 x), (Z.eqb_spec x 0), (Z.eqb_spec (x + 2 ^ 32) 0); case_cmp; simpl; lia || done.
Qed.

Lemma LT0_spec x : - 2 ^ 31 <= x < 2 ^ 31 -> LT0 x = Z.b2z (x <? 0).
Proof.
  intros Hx. unfold LT0. rewrite shiftr_top, top_bit by w32_solve. f_equal. unfold wrap. lia.
Qed.

Lemma GE0_spec x : - 2 ^ 31 <= x < 2 ^ 31 -> GE0 x = Z.b2z (0 <=? x).
Proof.
  intros Hx. unfold GE0. rewrite shiftr_top, not32_top, top_bit by w32_solve. f_equal. unfold wrap. lia.
Qed.

Lemma LE0_spec x : - 2 ^ 31 <= x < 2 ^ 31 -> LE0 x = Z.b2z (x <=? 0).
Proof.
  intros Hx. unfold LE0. cbv zeta. rewrite shiftr_top by w32_solve.
  rewrite Z.lor_spec, not32_top by w32_solve. rewrite !top_bit by w32_solve.
  rewrite neg32_value by w32_solve. f_equal. rewrite w32_signed by done.
  destruct (Z.leb_spec 0 x), (Z.eqb_spec x 0), (Z.eqb_spec (x + 2 ^ 32) 0); case_cmp; simpl; lia || done.
Qed.

Lemma log2_step x m : 0 <= m -> 0 <= x ->
  Z.log2 x = if 2 ^ m - 1 <? x then m + Z.log2 (Z.shiftr x m) else Z.log2 x.
Proof.
  intros Hm Hx. case_cmp; [|done]. rewrite Z.log2_shiftr by lia.
  pose proof (Z.log2_le_mono (2 ^ m) x ltac:(lia)) as H1. rewrite Z.log2_pow2 in H1 by lia. lia.
Qed.

(** One halving step of [BIT_LENGTH] on a value below [2^(2m)]. *)
Lemma bit_length_step x m k :
  0 < m <= 16 -> 0 <= x < 2 ^ (2 * m) ->
  let c := GT x (2 ^ m - 1) in let x' := MUX c (Z.shiftr x m) x in
  0 <= x' < 2 ^ m /\ k + c * m + Z.log2 x' = k + Z.log2 x.
Proof.
  intros Hm Hx c x'.
  assert (Hp : 0 < 2 ^ m <= 2 ^ 16) by (split; [lia|apply Z.pow_le_mono_r; lia]).
  assert (Hp2 : 2 ^ (2 * m) = 2 ^ m * 2 ^ m) by (rewrite <-Z.pow_add_r by lia; f_equal; lia).
  assert (Hw : in_width 32 x) by (split; [lia|]; change (2 ^ 32) with (2 ^ 16 * 2 ^ 16); nia).
  assert (Hs : 0 <= Z.shiftr x m < 2 ^ m).
  { rewrite Z.shiftr_div_pow2 by lia. split; [apply Z.div_pos; lia|apply Z.div_lt_upper_bound; nia]. }
  assert (Hc : c = Z.b2z (2 ^ m - 1 <? x)) by (subst c; apply GT_spec; [done|split; lia]).
  assert (Hx' : x' = if 2 ^ m - 1 <? x then Z.shiftr x m else x).
  { subst x'. rewrite Hc. apply MUX_spec; [split; lia|done]. }
  rewrite Hx', Hc, (log2_step x m) by lia. clear Hx' Hc. case_cmp; cbn [Z.b2z]; lia.
Qed.

Lemma BIT_LENGTH_spec x : in_width 32 x -> BIT_LENGTH x = if x =? 0 then 0 else Z.log2 x + 1.
Proof.
  intros Hx. unfold BIT_LENGTH. cbv zeta. rewrite NEQ_spec by (done || (split; lia)).
  destruct (bit_length_step x 16 0 ltac:(lia) ltac:(exact Hx)) as [B1 E1].
  change (2 ^ 16 - 1) with 0xFFFF in *. set (x1 := MUX (GT x 0xFFFF) _ x) in *.
  destruct (bit_length_step x1 8 0 ltac:(lia) B1) as [B2 E2].
  change (2 ^ 8 - 1) with 0xFF in *. set (x2 := MUX (GT x1 0xFF) _ x1) in *.
  destruct (bit_length_step x2 4 0 ltac:(lia) B2) as [B3 E3].
  change (2 ^ 4 - 1) with 0xF in *. set (x3 := MUX (GT x2 0xF) _ x2) in *.
  destruct (bit_length_step x3 2 0 ltac:(lia) B3) as [B4 E4].
  change (2 ^ 2 - 1) with 3 in *. set (x4 := MUX (GT x3 3) _ x3) in *.
  rewrite (GT_spec x4 1) by (split; lia).
  assert (Z.log2 x4 = Z.b2z (1 <? x4)) as E5.
  { assert (x4 = 0 \/ x4 = 1 \/ x4 = 2 \/ x4 = 3) as Hx4 by lia. clear -Hx4. destruct_or! Hx4; by rewrite Hx4. }
  rewrite !Z.shiftl_mul_pow2 by lia. rewrite <-E5. clearbody x1 x2 x3 x4.
  assert (x = 0 -> Z.log2 x = 0) by (intros ->; done).
  destruct (Z.eqb_spec x 0); cbn [negb Z.b2z]; lia.
Qed.

(** ** Properties *)

(** The codecs are inverse to each other: decoding what an encoder wrote
    gives the value back, for 32-bit and 64-bit big-endian words and for ranges
    of words, and re-encoding a decoded range gives its bytes back. *)
Theorem codec_round_trip (x y : Z) (v : list Z) (s : bytes) :
  in_width 32 x -> in_width 64 y -> Forall (in_width 32) v ->
  Forall byte_ok s -> (length s mod 4 = 0)%nat ->
  br_dec32be (br_enc32be x) = x /\ br_dec32le (br_enc32le x) = x /\
  br_dec64be (br_enc64be y) = y /\
  br_range_dec32be (length v) (br_range_enc32be v (length v)) = v /\
  br_range_enc32be (br_range_dec32be (length s / 4) s) (length s / 4) = s.
Proof.
  intros Hx Hy Hv Hs Hl.
  assert (E : br_dec32be (br_enc32be x) = x).
  { rewrite <-(app_nil_r (br_enc32be x)). by apply dec_enc32be. }
  split_and!; [done|by rewrite dec32le_rev|by apply dec_enc64be| |].
  - rewrite <-(app_nil_r (br_range_enc32be v (length v))). by apply range_dec_enc32be.
  - apply range_enc_dec32be; [lia|done].
Qed.

Lemma codec_round_trip_witness :
  br_dec32be (br_enc32be 0xDEADBEEF) = 0xDEADBEEF /\ br_dec32le (br_enc32le 0xDEADBEEF) = 0xDEADBEEF /\
  br_dec64be (br_enc64be 0x0123456789ABCDEF) = 0x0123456789ABCDEF /\
  br_range_dec32be (length [1; 2]) (br_range_enc32be [1; 2] (length [1; 2])) = [1; 2] /\
  br_range_enc32be (br_range_dec32be (length [1; 2; 3; 4] / 4) [1; 2; 3; 4]) (length [1; 2; 3; 4] / 4) = [1; 2; 3; 4].
Proof.
  apply (codec_round_trip 0xDEADBEEF 0x0123456789ABCDEF [1; 2] [1; 2; 3; 4]);
    repeat constructor; lia.
Defined.

(** C39: the branch-free comparisons, selections and bit length compute the
    operations they stand for on every 32-bit operand. *)
Theorem ct_primitives_correct (b : bool) (x y z : Z) :
  in_width 32 x -> in_width 32 y -> - 2 ^ 31 <= z < 2 ^ 31 ->
  MUX (Z.b2z b) x y = (if b then x else y) /\
  EQ x y = Z.b2z (x =? y) /\ NEQ x y = Z.b2z (negb (x =? y)) /\
  GT x y = Z.b2z (y <? x) /\ GE x y = Z.b2z (y <=? x) /\
  LT x y = Z.b2z (x <? y) /\ LE x y = Z.b2z (x <=? y) /\
  CMP x y = (match x ?= y with Lt => -1 | Eq => 0 | Gt => 1 end) /\
  EQ0 z = Z.b2z (z =? 0) /\ GT0 z = Z.b2z (0 <? z) /\ GE0 z = Z.b2z (0 <=? z) /\
  LT0 z = Z.b2z (z <? 0) /\ LE0 z = Z.b2z (z <=? 0) /\
  BIT_LENGTH x = (if x =? 0 then 0 else Z.log2 x + 1) /\
  MIN x y = Z.min x y /\ MAX x y = Z.max x y.
Proof.
  intros Hx Hy Hz. unfold GE, LT, LE, CMP, MIN, MAX.
  rewrite !EQ_spec, !NEQ_spec, !(GT_spec x y), !(GT_spec y x), !NOT_b2z, !MUX_spec by done.
  rewrite EQ0_spec, GT0_spec, GE0_spec, LT0_spec, LE0_spec, BIT_LENGTH_spec by done.
  split_and!; try done; try (f_equal; lia); try (case_cmp; lia).
  destruct (Z.compare_spec x y); case_cmp; reflexivity || lia.
Qed.

Lemma ct_primitives_correct_witness :
  GT 0xFFFFFFFF 1 = 1 /\ CMP 3 0x80000000 = -1 /\ BIT_LENGTH 0x10000 = 17.
Proof.
  pose proof (ct_primitives_correct true 0xFFFFFFFF 1 (-5) ltac:(split; lia) ltac:(split; lia) ltac:(lia)) as H.
  pose proof (ct_primitives_correct true 3 0x80000000 (-5) ltac:(split; lia) ltac:(split; lia) ltac:(lia)) as H'.
  pose proof (ct_primitives_correct true 0x10000 1 (-5) ltac:(split; lia) ltac:(split; lia) ltac:(lia)) as H''.
  split_and!; [apply H|apply H'|apply H''].
Defined.
