(* ===== verification/Hash.v ===== *)
(** * Hash functions
    (bearssl/src/bearssl/hash/sha1.c, hash/sha2small.c, include/bearssl_hash.h)

    SHA-1, SHA-224 and SHA-256 as the code computes them — unrolled rounds,
    a 64-byte buffer and a running byte count — and the proof that any
    sequence of updates computes the Merkle-Damgard hash of the concatenated
    input over the compression functions of FIPS 180-4. *)
From S2P Require Import Prelude Inner.
Local Open Scope Z_scope.

(** ** Contexts and the class of hash implementations *)

(** [br_sha1_context], [br_sha224_context], [br_sha256_context] *)
Record hash_context := mkHash { buf : bytes; count : Z; val : list Z }.

(** [br_hash_class], over the context type of the implementation. *)
Record br_hash_class (C : Type) := mkHashClass {
  desc : Z;
  init : C -> C;
  update : C -> bytes -> C;
  out : C -> bytes;
  state : C -> bytes * Z;
  set_state : C -> bytes -> Z -> C
}.
Arguments desc {C}. Arguments init {C}. Arguments update {C}. Arguments out {C}.
Arguments state {C}. Arguments set_state {C}. Arguments mkHashClass {C}.

Definition BR_HASHDESC_ID (id : Z) : Z := w32 (Z.shiftl id 0).
Definition BR_HASHDESC_OUT (size : Z) : Z := w32 (Z.shiftl size 8).
Definition BR_HASHDESC_OUT_MASK : Z := 0x7F.
Definition BR_HASHDESC_STATE (size : Z) : Z := w32 (Z.shiftl size 15).
Definition BR_HASHDESC_LBLEN (ls : Z) : Z := w32 (Z.shiftl ls 23).
Definition BR_HASHDESC_LBLEN_MASK : Z := 0x0F.
Definition BR_HASHDESC_MD_PADDING : Z := Z.shiftl 1 28.
Definition BR_HASHDESC_MD_PADDING_BE : Z := Z.shiftl 1 30.

Definition br_digest_size {C} (dig : br_hash_class C) : Z :=
  Z.land (Z.shiftr (desc dig) 8) BR_HASHDESC_OUT_MASK.

(** [memcpy(dst + off, src, len)] *)
Definition memcpy_at (off : nat) (src dst : bytes) : bytes :=
  take off dst ++ src ++ drop (off + length src) dst.

(** [v[i]] *)
Definition word_at (v : list Z) (i : nat) : Z := nth i v 0.

(** ** SHA-224 and SHA-256 *)

Definition CH (X Y Z' : Z) : Z := Z.lxor (Z.land (Z.lxor Y Z') X) Z'.
Definition MAJ (X Y Z' : Z) : Z := Z.lor (Z.land Y Z') (Z.land (Z.lor Y Z') X).
Definition ROTR (x n : Z) : Z := Z.lor (w32 (Z.shiftl x (32 - n))) (Z.shiftr x n).
Definition BSG2_0 (x : Z) : Z := Z.lxor (Z.lxor (ROTR x 2) (ROTR x 13)) (ROTR x 22).
Definition BSG2_1 (x : Z) : Z := Z.lxor (Z.lxor (ROTR x 6) (ROTR x 11)) (ROTR x 25).
Definition SSG2_0 (x : Z) : Z := Z.lxor (Z.lxor (ROTR x 7) (ROTR x 18)) (Z.shiftr x 3).
Definition SSG2_1 (x : Z) : Z := Z.lxor (Z.lxor (ROTR x 17) (ROTR x 19)) (Z.shiftr x 10).

Definition br_sha224_IV : list Z :=
  [0xC1059ED8; 0x367CD507; 0x3070DD17; 0xF70E5939; 0xFFC00B31; 0x68581511; 0x64F98FA7; 0xBEFA4FA4].
Definition br_sha256_IV : list Z :=
  [0x6A09E667; 0xBB67AE85; 0x3C6EF372; 0xA54FF53A; 0x510E527F; 0x9B05688C; 0x1F83D9AB; 0x5BE0CD19].

Definition K : list Z :=
  [0x428A2F98; 0x71374491; 0xB5C0FBCF; 0xE9B5DBA5; 0x3956C25B; 0x59F111F1; 0x923F82A4; 0xAB1C5ED5;
   0xD807AA98; 0x12835B01; 0x243185BE; 0x550C7DC3; 0x72BE5D74; 0x80DEB1FE; 0x9BDC06A7; 0xC19BF174;
   0xE49B69C1; 0xEFBE4786; 0x0FC19DC6; 0x240CA1CC; 0x2DE92C6F; 0x4A7484AA; 0x5CB0A9DC; 0x76F988DA;
   0x983E5152; 0xA831C66D; 0xB00327C8; 0xBF597FC7; 0xC6E00BF3; 0xD5A79147; 0x06CA6351; 0x14292967;
   0x27B70A85; 0x2E1B2138; 0x4D2C6DFC; 0x53380D13; 0x650A7354; 0x766A0ABB; 0x81C2C92E; 0x92722C85;
   0xA2BFE8A1; 0xA81A664B; 0xC24B8B70; 0xC76C51A3; 0xD192E819; 0xD6990624; 0xF40E3585; 0x106AA070;
   0x19A4C116; 0x1E376C08; 0x2748774C; 0x34B0BCB5; 0x391C0CB3; 0x4ED8AA4A; 0x5B9CCA4F; 0x682E6FF3;
   0x748F82EE; 0x78A5636F; 0x84C87814; 0x8CC70208; 0x90BEFFFA; 0xA4506CEB; 0xBEF9A3F7; 0xC67178F2].

(** [w[i] = ...] for [i] up to 64. *)
Fixpoint sha2_schedule (n i : nat) (w : list Z) : list Z :=
  match n with
  | O => w
  | S n =>
      sha2_schedule n (S i)
        (w ++ [w32 (SSG2_1 (word_at w (i - 2)) + word_at w (i - 7)
                    + SSG2_0 (word_at w (i - 15)) + word_at w (i - 16))])
  end.

(** [SHA2_STEP(A, B, C, D, E, F, G, H, j)]: the new values of [D] and [H]. *)
Definition SHA2_STEP (w : list Z) (A B C D E F G H : Z) (j : nat) : Z * Z :=
  let T1 := w32 (H + BSG2_1 E + CH E F G + word_at K j + word_at w j) in
  let T2 := w32 (BSG2_0 A + MAJ A B C) in
  (w32 (D + T1), w32 (T1 + T2)).

Definition regs8 : Type := Z * Z * Z * Z * Z * Z * Z * Z.

(** The body of the main loop, eight steps with the roles of the registers rotated. *)
Definition sha2_steps8 (w : list Z) (i : nat) (r : regs8) : regs8 :=
  let '(a, b, c, d, e, f, g, h) := r in
  let '(d, h) := SHA2_STEP w a b c d e f g h (i + 0) in
  let '(c, g) := SHA2_STEP w h a b c d e f g (i + 1) in
  let '(b, f) := SHA2_STEP w g h a b c d e f (i + 2) in
  let '(a, e) := SHA2_STEP w f g h a b c d e (i + 3) in
  let '(h, d) := SHA2_STEP w e f g h a b c d (i + 4) in
  let '(g, c) := SHA2_STEP w d e f g h a b c (i + 5) in
  let '(f, b) := SHA2_STEP w c d e f g h a b (i + 6) in
  let '(e, a) := SHA2_STEP w b c d e f g h a (i + 7) in
  (a, b, c, d, e, f, g, h).

Fixpoint sha2_loop (n : nat) (w : list Z) (i : nat) (r : regs8) : regs8 :=
  match n with
  | O => r
  | S n => sha2_loop n w (i + 8) (sha2_steps8 w i r)
  end.

Definition br_sha2small_round (buf : bytes) (val : list Z) : list Z :=
  let w := sha2_schedule 48 16 (br_range_dec32be 16 buf) in
  let '(a, b, c, d, e, f, g, h) :=
    sha2_loop 8 w 0
      (word_at val 0, word_at val 1, word_at val 2, word_at val 3,
       word_at val 4, word_at val 5, word_at val 6, word_at val 7) in
  [w32 (word_at val 0 + a); w32 (word_at val 1 + b); w32 (word_at val 2 + c); w32 (word_at val 3 + d);
   w32 (word_at val 4 + e); w32 (word_at val 5 + f); w32 (word_at val 6 + g); w32 (word_at val 7 + h)].

(** The loop of [sha2small_update]. *)
Fixpoint sha2small_update_loop (fuel ptr : nat) (data : bytes) (buf : bytes) (val : list Z)
    : bytes * list Z :=
  match fuel, data with
  | S fuel, _ :: _ =>
      let clen := Nat.min (64 - ptr) (length data) in
      let buf := memcpy_at ptr (take clen data) buf in
      let ptr := (ptr + clen)%nat in
      if (ptr =? 64)%nat
      then sha2small_update_loop fuel 0 (drop clen data) buf (br_sha2small_round buf val)
      else sha2small_update_loop fuel ptr (drop clen data) buf val
  | _, _ => (buf, val)
  end.

Definition sha2small_update (cc : hash_context) (data : bytes) : hash_context :=
  let ptr := Z.to_nat (Z.land (count cc) 63) in
  let '(b, v) := sha2small_update_loop (length data) ptr data (buf cc) (val cc) in
  mkHash b (w64 (count cc + Z.of_nat (length data))) v.

Definition sha2small_out (cc : hash_context) (num : nat) : bytes :=
  let ptr := Z.to_nat (Z.land (count cc) 63) in
  let b := take ptr (buf cc) ++ [0x80] in
  let ptr := (ptr + 1)%nat in
  let '(b, v) :=
    if (56 <? ptr)%nat
    then (replicate 56 0, br_sha2small_round (b ++ replicate (64 - ptr) 0) (val cc))
    else (b ++ replicate (56 - ptr) 0, val cc) in
  br_range_enc32be (br_sha2small_round (b ++ br_enc64be (w64 (Z.shiftl (count cc) 3))) v) num.

Definition br_sha224_init (cc : hash_context) : hash_context := mkHash (buf cc) 0 br_sha224_IV.
Definition br_sha224_update (cc : hash_context) (data : bytes) : hash_context := sha2small_update cc data.
Definition br_sha224_out (cc : hash_context) : bytes := sha2small_out cc 7.
Definition br_sha224_state (cc : hash_context) : bytes * Z := (br_range_enc32be (val cc) 8, count cc).
Definition br_sha224_set_state (cc : hash_context) (stb : bytes) (count : Z) : hash_context :=
  mkHash (buf cc) count (br_range_dec32be 8 stb).
Definition br_sha256_init (cc : hash_context) : hash_context := mkHash (buf cc) 0 br_sha256_IV.
Definition br_sha256_out (cc : hash_context) : bytes := sha2small_out cc 8.

Definition br_sha224_vtable : br_hash_class hash_context :=
  mkHashClass
    (Z.lor (Z.lor (Z.lor (Z.lor (Z.lor (BR_HASHDESC_ID 3) (BR_HASHDESC_OUT 28)) (BR_HASHDESC_STATE 32))
       (BR_HASHDESC_LBLEN 6)) BR_HASHDESC_MD_PADDING) BR_HASHDESC_MD_PADDING_BE)
    br_sha224_init br_sha224_update br_sha224_out br_sha224_state br_sha224_set_state.

Definition br_sha256_vtable : br_hash_class hash_context :=
  mkHashClass
    (Z.lor (Z.lor (Z.lor (Z.lor (Z.lor (BR_HASHDESC_ID 4) (BR_HASHDESC_OUT 32)) (BR_HASHDESC_STATE 32))
       (BR_HASHDESC_LBLEN 6)) BR_HASHDESC_MD_PADDING) BR_HASHDESC_MD_PADDING_BE)
    br_sha256_init br_sha224_update br_sha256_out br_sha224_state br_sha224_set_state.

(** ** SHA-1 *)

Module Sha1.
Definition F (B C D : Z) : Z := Z.lxor (Z.land (Z.lxor C D) B) D.
Definition G (B C D : Z) : Z := Z.lxor (Z.lxor B C) D.
Definition H (B C D : Z) : Z := Z.lor (Z.land D C) (Z.land (Z.lor D C) B).
Definition I (B C D : Z) : Z := G B C D.
Definition ROTL (x n : Z) : Z := Z.lor (w32 (Z.shiftl x n)) (Z.shiftr x (32 - n)).
Definition K1 : Z := 0x5A827999.
Definition K2 : Z := 0x6ED9EBA1.
Definition K3 : Z := 0x8F1BBCDC.
Definition K4 : Z := 0xCA62C1D6.
End Sha1.

Definition br_sha1_IV : list Z := [0x67452301; 0xEFCDAB89; 0x98BADCFE; 0x10325476; 0xC3D2E1F0].

(** [m[i] = ROTL(x, 1)] for [i] up to 80. *)
Fixpoint sha1_schedule (n i : nat) (m : list Z) : list Z :=
  match n with
  | O => m
  | S n =>
      let x := Z.lxor (Z.lxor (Z.lxor (word_at m (i - 3)) (word_at m (i - 8))) (word_at m (i - 14)))
                      (word_at m (i - 16)) in
      sha1_schedule n (S i) (m ++ [Sha1.ROTL x 1])
  end.

Definition regs5 : Type := Z * Z * Z * Z * Z.

(** [e += ROTL(a, 5) + F(b, c, d) + K + m[i]] *)
Definition sha1_add (f : Z -> Z -> Z -> Z) (k : Z) (m : list Z) (i : nat) (a b c d e : Z) : Z :=
  w32 (e + w32 (Sha1.ROTL a 5 + f b c d + k + word_at m i)).

(** The body of each of the four loops, five steps with the roles of the
    registers rotated. *)
Definition sha1_steps5 (f : Z -> Z -> Z -> Z) (k : Z) (m : list Z) (i : nat) (r : regs5) : regs5 :=
  let '(a, b, c, d, e) := r in
  let e := sha1_add f k m (i + 0) a b c d e in let b := Sha1.ROTL b 30 in
  let d := sha1_add f k m (i + 1) e a b c d in let a := Sha1.ROTL a 30 in
  let c := sha1_add f k m (i + 2) d e a b c in let e := Sha1.ROTL e 30 in
  let b := sha1_add f k m (i + 3) c d e a b in let d := Sha1.ROTL d 30 in
  let a := sha1_add f k m (i + 4) b c d e a in let c := Sha1.ROTL c 30 in
  (a, b, c, d, e).

Fixpoint sha1_loop (n : nat) (f : Z -> Z -> Z -> Z) (k : Z) (m : list Z) (i : nat) (r : regs5) : regs5 :=
  match n with
  | O => r
  | S n => sha1_loop n f k m (i + 5) (sha1_steps5 f k m i r)
  end.

Definition br_sha1_round (buf : bytes) (val : list Z) : list Z :=
  let m := sha1_schedule 64 16 (br_range_dec32be 16 buf) in
  let r := (word_at val 0, word_at val 1, word_at val 2, word_at val 3, word_at val 4) in
  let r := sha1_loop 4 Sha1.F Sha1.K1 m 0 r in
  let r := sha1_loop 4 Sha1.G Sha1.K2 m 20 r in
  let r := sha1_loop 4 Sha1.H Sha1.K3 m 40 r in
  let '(a, b, c, d, e) := sha1_loop 4 Sha1.I Sha1.K4 m 60 r in
  [w32 (word_at val 0 + a); w32 (word_at val 1 + b); w32 (word_at val 2 + c);
   w32 (word_at val 3 + d); w32 (word_at val 4 + e)].

Definition br_sha1_init (cc : hash_context) : hash_context := mkHash (buf cc) 0 br_sha1_IV.

(** The loop of [br_sha1_update]; the count grows with every chunk. *)
Fixpoint sha1_update_loop (fuel ptr : nat) (data : bytes) (cc : hash_context) : hash_context :=
  match fuel, data with
  | S fuel, _ :: _ =>
      let clen := Nat.min (64 - ptr) (length data) in
      let b := memcpy_at ptr (take clen data) (buf cc) in
      let ptr := (ptr + clen)%nat in
      let n := w64 (count cc + Z.of_nat clen) in
      if (ptr =? 64)%nat
      then sha1_update_loop fuel 0 (drop clen data) (mkHash b n (br_sha1_round b (val cc)))
      else sha1_update_loop fuel ptr (drop clen data) (mkHash b n (val cc))
  | _, _ => cc
  end.

Definition br_sha1_update (cc : hash_context) (data : bytes) : hash_context :=
  sha1_update_loop (length data) (Z.to_nat (Z.land (count cc) 63)) data cc.

Definition br_sha1_out (cc : hash_context) : bytes :=
  let ptr := Z.to_nat (Z.land (count cc) 63) in
  let b := take ptr (buf cc) ++ [0x80] in
  let ptr := (ptr + 1)%nat in
  let '(b, v) :=
    if (56 <? ptr)%nat
    then (replicate 56 0, br_sha1_round (b ++ replicate (64 - ptr) 0) (val cc))
    else (b ++ replicate (56 - ptr) 0, val cc) in
  br_range_enc32be (br_sha1_round (b ++ br_enc64be (w64 (Z.shiftl (count cc) 3))) v) 5.

Definition br_sha1_state (cc : hash_context) : bytes * Z := (br_range_enc32be (val cc) 5, count cc).
Definition br_sha1_set_state (cc : hash_context) (stb : bytes) (count : Z) : hash_context :=
  mkHash (buf cc) count (br_range_dec32be 5 stb).

Definition br_sha1_vtable : br_hash_class hash_context :=
  mkHashClass
    (Z.lor (Z.lor (Z.lor (Z.lor (Z.lor (BR_HASHDESC_ID 2) (BR_HASHDESC_OUT 20)) (BR_HASHDESC_STATE 20))
       (BR_HASHDESC_LBLEN 6)) BR_HASHDESC_MD_PADDING) BR_HASHDESC_MD_PADDING_BE)
    br_sha1_init br_sha1_update br_sha1_out br_sha1_state br_sha1_set_state.

(** ** Specification: FIPS 180-4 *)

Module FIPS.
Definition Ch (x y z : Z) : Z := Z.lxor (Z.land x y) (Z.land (Z.lnot x) z).
Definition Maj (x y z : Z) : Z := Z.lxor (Z.lxor (Z.land x y) (Z.land x z)) (Z.land y z).
Definition Parity (x y z : Z) : Z := Z.lxor (Z.lxor x y) z.

(** One step of SHA-256: every register moves down by one. *)
Definition sha256_step (w : list Z) (t : nat) (r : regs8) : regs8 :=
  let '(a, b, c, d, e, f, g, h) := r in
  let T1 := w32 (h + BSG2_1 e + Ch e f g + word_at K t + word_at w t) in
  let T2 := w32 (BSG2_0 a + Maj a b c) in
  (w32 (T1 + T2), a, b, c, w32 (d + T1), e, f, g).

(** One step of SHA-1. *)
Definition sha1_f (t : nat) : Z -> Z -> Z -> Z :=
  if (t <? 20)%nat then Ch else if (t <? 40)%nat then Parity
  else if (t <? 60)%nat then Maj else Parity.
Definition sha1_k (t : nat) : Z :=
  if (t <? 20)%nat then 0x5A827999 else if (t <? 40)%nat then 0x6ED9EBA1
  else if (t <? 60)%nat then 0x8F1BBCDC else 0xCA62C1D6.
Definition sha1_step (w : list Z) (t : nat) (r : regs5) : regs5 :=
  let '(a, b, c, d, e) := r in
  (w32 (Sha1.ROTL a 5 + sha1_f t b c d + e + sha1_k t + word_at w t), a, Sha1.ROTL b 30, c, d).

(** [n] steps from step [t] on. *)
Fixpoint steps {R} (step : nat -> R -> R) (n t : nat) (r : R) : R :=
  match n with O => r | S n => steps step n (S t) (step t r) end.

Definition sha256_compress (block : bytes) (val : list Z) : list Z :=
  let w := sha2_schedule 48 16 (br_range_dec32be 16 block) in
  let '(a, b, c, d, e, f, g, h) :=
    steps (sha256_step w) 64 0
      (word_at val 0, word_at val 1, word_at val 2, word_at val 3,
       word_at val 4, word_at val 5, word_at val 6, word_at val 7) in
  [w32 (word_at val 0 + a); w32 (word_at val 1 + b); w32 (word_at val 2 + c); w32 (word_at val 3 + d);
   w32 (word_at val 4 + e); w32 (word_at val 5 + f); w32 (word_at val 6 + g); w32 (word_at val 7 + h)].

Definition sha1_compress (block : bytes) (val : list Z) : list Z :=
  let w := sha1_schedule 64 16 (br_range_dec32be 16 block) in
  let '(a, b, c, d, e) :=
    steps (sha1_step w) 80 0 (word_at val 0, word_at val 1, word_at val 2, word_at val 3, word_at val 4) in
  [w32 (word_at val 0 + a); w32 (word_at val 1 + b); w32 (word_at val 2 + c);
   w32 (word_at val 3 + d); w32 (word_at val 4 + e)].

(** The padded message: a one bit, zeros, and the bit length on 64 bits. *)
Definition pad (m : bytes) : bytes :=
  m ++ [0x80] ++ replicate ((119 - length m mod 64) mod 64)%nat 0
    ++ br_enc64be (w64 (8 * Z.of_nat (length m))).

(** The chaining value after [n] blocks of [m]. *)
Fixpoint chain (compress : bytes -> list Z -> list Z) (n : nat) (v : list Z) (m : bytes) : list Z :=
  match n with
  | O => v
  | S n => chain compress n (compress (take 64 m) v) (drop 64 m)
  end.

Definition hash (compress : bytes -> list Z -> list Z) (iv : list Z) (num : nat) (m : bytes) : bytes :=
  br_range_enc32be (chain compress (length (pad m) / 64) iv (pad m)) num.

Definition sha1 (m : bytes) : bytes := hash sha1_compress br_sha1_IV 5 m.
Definition sha224 (m : bytes) : bytes := hash sha256_compress br_sha224_IV 7 m.
Definition sha256 (m : bytes) : bytes := hash sha256_compress br_sha256_IV 8 m.
End FIPS.

(** ** The unrolled rounds are the compression functions *)

Lemma CH_Ch x y z : CH x y z = FIPS.Ch x y z.
Proof. unfold CH, FIPS.Ch. bitwise. Qed.

Lemma MAJ_Maj x y z : MAJ x y z = FIPS.Maj x y z.
Proof. unfold MAJ, FIPS.Maj. bitwise. Qed.

Lemma sha1_F_Ch x y z : Sha1.F x y z = FIPS.Ch x y z.
Proof. unfold Sha1.F, FIPS.Ch. bitwise. Qed.

Lemma sha1_H_Maj x y z : Sha1.H x y z = FIPS.Maj x y z.
Proof. unfold Sha1.H, FIPS.Maj. bitwise. Qed.

Lemma steps_add {R} (step : nat -> R -> R) n m t r :
  FIPS.steps step (n + m) t r = FIPS.steps step m (t + n) (FIPS.steps step n t r).
Proof.
  revert t r. induction n as [|n IH]; intros t r; [by rewrite Nat.add_0_r|].
  cbn [Nat.add FIPS.steps]. rewrite IH. f_equal. lia.
Qed.

Lemma sha256_step_ok w t a b c d e f g h :
  FIPS.sha256_step w t (a, b, c, d, e, f, g, h) =
  let '(d', h') := SHA2_STEP w a b c d e f g h t in (h', a, b, c, d', e, f, g).
Proof. unfold SHA2_STEP. by rewrite MAJ_Maj, CH_Ch. Qed.

Lemma sha2_steps8_ok w i r : sha2_steps8 w i r = FIPS.steps (FIPS.sha256_step w) 8 i r.
Proof.
  destruct r as [[[[[[[a b] c] d] e] f] g] h]. unfold sha2_steps8. cbn [FIPS.steps].
  rewrite !Nat.add_succ_r, Nat.add_0_r.
  do 8 (rewrite sha256_step_ok;
        match goal with |- context [SHA2_STEP w ?a ?b ?c ?d ?e ?f ?g ?h ?j] =>
          destruct (SHA2_STEP w a b c d e f g h j) end).
  reflexivity.
Qed.

Lemma sha2_loop_ok n : forall w i r, sha2_loop n w i r = FIPS.steps (FIPS.sha256_step w) (8 * n) i r.
Proof.
  induction n as [|n IH]; intros w i r; [done|]. cbn [sha2_loop].
  rewrite IH, sha2_steps8_ok. replace (8 * S n)%nat with (8 + 8 * n)%nat by lia. by rewrite steps_add.
Qed.

Lemma sha2small_round_ok b v : br_sha2small_round b v = FIPS.sha256_compress b v.
Proof.
  unfold br_sha2small_round, FIPS.sha256_compress. cbv zeta. rewrite sha2_loop_ok.
  change (8 * 8)%nat with 64%nat. reflexivity.
Qed.

Lemma sha1_step_ok f k m t a b c d e :
  FIPS.sha1_k t = k -> (forall x y z, f x y z = FIPS.sha1_f t x y z) ->
  FIPS.sha1_step m t (a, b, c, d, e) = (sha1_add f k m t a b c d e, a, Sha1.ROTL b 30, c, d).
Proof.
  intros <- Hf. unfold FIPS.sha1_step, sha1_add, wrap. rewrite Zplus_mod_idemp_r, Hf.
  set (x := FIPS.sha1_f t b c d). set (y := Sha1.ROTL a 5). set (z := FIPS.sha1_k t).
  by replace (y + x + e + z + word_at m t) with (e + (y + x + z + word_at m t)) by lia.
Qed.

Lemma sha1_steps5_ok f k m i r :
  (forall j, (i <= j < i + 5)%nat -> FIPS.sha1_k j = k /\ forall x y z, f x y z = FIPS.sha1_f j x y z) ->
  sha1_steps5 f k m i r = FIPS.steps (FIPS.sha1_step m) 5 i r.
Proof.
  intros Hj. destruct r as [[[[a b] c] d] e]. unfold sha1_steps5. cbn [FIPS.steps].
  rewrite !Nat.add_succ_r, Nat.add_0_r.
  do 5 rewrite (sha1_step_ok f k m) by (apply Hj; lia). reflexivity.
Qed.

Lemma sha1_loop_ok n : forall f k m i r,
  (forall j, (i <= j < i + 5 * n)%nat -> FIPS.sha1_k j = k /\ forall x y z, f x y z = FIPS.sha1_f j x y z) ->
  sha1_loop n f k m i r = FIPS.steps (FIPS.sha1_step m) (5 * n) i r.
Proof.
  induction n as [|n IH]; intros f k m i r Hj; [done|]. cbn [sha1_loop].
  rewrite sha1_steps5_ok by (intros; apply Hj; lia). rewrite IH by (intros; apply Hj; lia).
  replace (5 * S n)%nat with (5 + 5 * n)%nat by lia. by rewrite steps_add.
Qed.

Lemma sha1_round_ok b v : br_sha1_round b v = FIPS.sha1_compress b v.
Proof.
  unfold br_sha1_round. cbv zeta.
  rewrite (sha1_loop_ok 4 Sha1.I Sha1.K4), (sha1_loop_ok 4 Sha1.H Sha1.K3), (sha1_loop_ok 4 Sha1.G Sha1.K2),
    (sha1_loop_ok 4 Sha1.F Sha1.K1).
  - change (5 * 4)%nat with 20%nat. unfold FIPS.sha1_compress. cbv zeta.
    change (FIPS.steps (FIPS.sha1_step (sha1_schedule 64 16 (br_range_dec32be 16 b))) 80)
      with (FIPS.steps (FIPS.sha1_step (sha1_schedule 64 16 (br_range_dec32be 16 b))) (20 + (20 + (20 + 20)))).
    rewrite !steps_add. reflexivity.
  - intros j Hj. unfold FIPS.sha1_k, FIPS.sha1_f. case_cmp; try lia. split; [done|apply sha1_F_Ch].
  - intros j Hj. unfold FIPS.sha1_k, FIPS.sha1_f. case_cmp; try lia. done.
  - intros j Hj. unfold FIPS.sha1_k, FIPS.sha1_f. case_cmp; try lia. split; [done|apply sha1_H_Maj].
  - intros j Hj. unfold FIPS.sha1_k, FIPS.sha1_f. case_cmp; try lia. done.
Qed.

(** ** Merkle-Damgard with a buffer *)

Lemma memcpy_at_length off c b : (off + length c <= length b)%nat -> length (memcpy_at off c b) = length b.
Proof. intros H. unfold memcpy_at. rewrite !length_app, length_take, length_drop. lia. Qed.

Lemma memcpy_at_take off c b : (off <= length b)%nat ->
  take (off + length c)%nat (memcpy_at off c b) = take off b ++ c.
Proof.
  intros H. unfold memcpy_at. rewrite app_assoc. apply take_app_length'.
  rewrite length_app, length_take. lia.
Qed.

Section md.
Local Open Scope nat_scope.
Context (compress : bytes -> list Z -> list Z) (iv : list Z).
Implicit Types (m c b data : bytes) (v : list Z).

(** The update loop over any compression function. *)
Fixpoint block_loop (fuel ptr : nat) (data b : bytes) (v : list Z) : bytes * list Z :=
  match fuel, data with
  | S fuel, _ :: _ =>
      let clen := Nat.min (64 - ptr) (length data) in
      let b := memcpy_at ptr (take clen data) b in
      let ptr := ptr + clen in
      if ptr =? 64 then block_loop fuel 0 (drop clen data) b (compress b v)
      else block_loop fuel ptr (drop clen data) b v
  | _, _ => (b, v)
  end.

Lemma chain_app n : forall v m c, 64 * n <= length m ->
  FIPS.chain compress n v (m ++ c) = FIPS.chain compress n v m.
Proof.
  induction n as [|n IH]; intros v m c H; [done|]. cbn [FIPS.chain].
  rewrite take_app_le, drop_app_le by lia. apply IH. rewrite length_drop. lia.
Qed.

Lemma chain_S n : forall v m,
  FIPS.chain compress (S n) v m = compress (take 64 (drop (64 * n) m)) (FIPS.chain compress n v m).
Proof.
  induction n as [|n IH]; intros v m; [done|]. cbn [FIPS.chain] in *. rewrite IH, drop_drop.
  do 3 f_equal. lia.
Qed.

Lemma chain_add n k : forall v m,
  FIPS.chain compress (n + k) v m = FIPS.chain compress k (FIPS.chain compress n v m) (drop (64 * n) m).
Proof.
  induction n as [|n IH]; intros v m; [done|]. cbn [Nat.add FIPS.chain]. rewrite IH, drop_drop.
  do 2 f_equal. lia.
Qed.

(** Buffer [b] and chaining value [v] hold the message [m]. *)
Definition holds m b v : Prop :=
  v = FIPS.chain compress (length m / 64) iv m /\ length b = 64 /\
  take (length m mod 64) b = drop (64 * (length m / 64)) m.

Lemma holds_partial m c b v :
  holds m b v -> length m mod 64 + length c < 64 ->
  holds (m ++ c) (memcpy_at (length m mod 64) c b) v.
Proof.
  intros (Hv & Hb & Ht) Hc. unfold holds. rewrite length_app.
  assert ((length m + length c) / 64 = length m / 64) as -> by lia.
  assert ((length m + length c) mod 64 = length m mod 64 + length c) as -> by lia.
  split_and!.
  - rewrite chain_app by lia. done.
  - rewrite memcpy_at_length; lia.
  - rewrite memcpy_at_take by lia. rewrite Ht. rewrite drop_app_le by lia. done.
Qed.

Lemma holds_full m c b v :
  holds m b v -> length m mod 64 + length c = 64 ->
  let b' := memcpy_at (length m mod 64) c b in
  holds (m ++ c) b' (compress b' v) /\ b' = drop (64 * (length m / 64)) m ++ c.
Proof.
  intros (Hv & Hb & Ht) Hc b'.
  assert (Hb' : b' = drop (64 * (length m / 64)) m ++ c).
  { subst b'. rewrite <-Ht, <-memcpy_at_take by lia. rewrite take_ge; [done|].
    rewrite memcpy_at_length; lia. }
  split; [|done]. unfold holds. rewrite length_app.
  assert ((length m + length c) / 64 = S (length m / 64)) as -> by lia.
  assert ((length m + length c) mod 64 = 0) as -> by lia.
  split_and!.
  - rewrite chain_S, chain_app by lia. rewrite Hv. f_equal.
    rewrite drop_app_le by lia. rewrite Hb', take_ge; [done|].
    rewrite length_app, length_drop. lia.
  - subst b'. rewrite memcpy_at_length; lia.
  - rewrite take_0, drop_ge; [done|]. rewrite length_app. lia.
Qed.

Lemma block_loop_holds fuel : forall data m b v,
  length data <= fuel -> holds m b v ->
  let r := block_loop fuel (length m mod 64) data b v in holds (m ++ data) r.1 r.2.
Proof.
  induction fuel as [|fuel IH]; intros [|x data] m b v Hf H; cbn [block_loop fst snd];
    try (rewrite app_nil_r; exact H); [simpl in Hf; lia|].
  set (d := x :: data) in *. assert (1 <= length d) by (subst d; simpl; lia).
  pose proof (Nat.mod_upper_bound (length m) 64 ltac:(lia)) as Hp.
  set (clen := Nat.min (64 - length m mod 64) (length d)).
  assert (Hl : length (take clen d) = clen) by (rewrite length_take; subst clen; lia).
  replace (m ++ d) with ((m ++ take clen d) ++ drop clen d) by (rewrite <-app_assoc, take_drop; done).
  destruct (Nat.eqb_spec (length m mod 64 + clen) 64) as [He|He].
  - destruct (holds_full m (take clen d) b v H ltac:(lia)) as [H1 _].
    assert (E0 : 0 = length (m ++ take clen d) mod 64) by (rewrite length_app; lia).
    assert (Hd : length (drop clen d) <= fuel) by (rewrite length_drop; lia).
    specialize (IH (drop clen d) (m ++ take clen d) _ _ Hd H1). rewrite <-E0 in IH. exact IH.
  - assert (Hlt : length m mod 64 + length (take clen d) < 64) by lia.
    pose proof (holds_partial m (take clen d) b v H Hlt) as H1.
    assert (E0 : length m mod 64 + clen = length (m ++ take clen d) mod 64) by (rewrite length_app; lia).
    assert (Hd : length (drop clen d) <= fuel) by (rewrite length_drop; lia).
    specialize (IH (drop clen d) (m ++ take clen d) _ _ Hd H1). rewrite <-E0 in IH. exact IH.
Qed.
End md.

Lemma count_ptr (m : bytes) :
  Z.to_nat (Z.land (w64 (Z.of_nat (length m))) 63) = (length m mod 64)%nat.
Proof.
  change 63%Z with (Z.ones 6). rewrite Z.land_ones by lia. unfold wrap.
  rewrite <-(Znumtheory.Zmod_div_mod (2 ^ 6) (2 ^ 64)) by (lia || by exists (2 ^ 58)%Z). lia.
Qed.

Lemma bit_count (m : bytes) :
  w64 (Z.shiftl (w64 (Z.of_nat (length m))) 3) = w64 (8 * Z.of_nat (length m)).
Proof.
  rewrite Z.shiftl_mul_pow2 by lia. unfold wrap. rewrite Z.mul_mod_idemp_l by lia. f_equal. lia.
Qed.
Section md_out.
Local Open Scope nat_scope.
Context (compress : bytes -> list Z -> list Z) (iv : list Z).
Implicit Types (m b : bytes) (v : list Z).

(** The last blocks, from the bytes left in the buffer. *)
Definition final_blocks (tail : bytes) (bits : Z) (v : list Z) : list Z :=
  let b := tail ++ [0x80%Z] in
  let ptr := length tail + 1 in
  let '(b, v) :=
    if 56 <? ptr then (replicate 56 0%Z, compress (b ++ replicate (64 - ptr) 0%Z) v)
    else (b ++ replicate (56 - ptr) 0%Z, v) in
  compress (b ++ br_enc64be bits) v.

Lemma pad_length m : length (FIPS.pad m) = 64 * (length m / 64 + if length m mod 64 <? 56 then 1 else 2).
Proof.
  unfold FIPS.pad. rewrite !length_app, length_replicate, enc64be_length. simpl (length [_]).
  destruct (Nat.ltb_spec (length m mod 64) 56); lia.
Qed.

Lemma drop_pad m :
  drop (64 * (length m / 64)) (FIPS.pad m) =
  drop (64 * (length m / 64)) m ++ [0x80%Z] ++ replicate ((119 - length m mod 64) mod 64) 0%Z
    ++ br_enc64be (w64 (8 * Z.of_nat (length m))).
Proof. unfold FIPS.pad. rewrite drop_app_le by lia. done. Qed.

Lemma final_blocks_ok m v :
  v = FIPS.chain compress (length m / 64) iv m ->
  final_blocks (drop (64 * (length m / 64)) m) (w64 (8 * Z.of_nat (length m))) v =
  FIPS.chain compress (length (FIPS.pad m) / 64) iv (FIPS.pad m).
Proof.
  intros ->. set (q := length m / 64).
  set (tail := drop (64 * q) m). set (bits := w64 _).
  assert (Ht : length tail = length m mod 64) by (subst tail q; rewrite length_drop; lia).
  rewrite pad_length. fold q. rewrite Nat.mul_comm, Nat.div_mul by lia. rewrite chain_add.
  assert (Ec : FIPS.chain compress q iv (FIPS.pad m) = FIPS.chain compress q iv m).
  { unfold FIPS.pad. apply chain_app. subst q. lia. }
  rewrite Ec. set (v := FIPS.chain compress q iv m). subst q. rewrite drop_pad. fold tail bits.
  unfold final_blocks. rewrite Ht.
  destruct (Nat.ltb_spec (length m mod 64) 56).
  - rewrite (proj2 (Nat.ltb_ge _ _)) by lia. cbn [FIPS.chain]. f_equal.
    replace ((119 - length m mod 64) mod 64) with (56 - (length m mod 64 + 1)) by lia.
    rewrite take_ge; [by rewrite <-!app_assoc|].
    rewrite !length_app, length_replicate, enc64be_length, Ht. cbn [length]. lia.
  - rewrite (proj2 (Nat.ltb_lt _ _)) by lia. cbn [FIPS.chain].
    replace ((119 - length m mod 64) mod 64) with ((64 - (length m mod 64 + 1)) + 56) by lia.
    rewrite replicate_add.
    set (B1 := (tail ++ [0x80%Z]) ++ replicate (64 - (length m mod 64 + 1)) 0%Z).
    set (B2 := replicate 56 0%Z ++ br_enc64be bits).
    assert (L1 : length B1 = 64) by (subst B1; rewrite !length_app, length_replicate, Ht; cbn [length]; lia).
    assert (L2 : length B2 = 64) by (subst B2; by rewrite length_app, length_replicate, enc64be_length).
    replace (tail ++ [0x80%Z] ++ (replicate (64 - (length m mod 64 + 1)) 0%Z ++ replicate 56 0%Z) ++ br_enc64be bits)
      with (B1 ++ B2) by (subst B1 B2; by rewrite <-!app_assoc).
    rewrite take_app_length', drop_app_length' by done. rewrite take_ge by lia. done.
Qed.
End md_out.

(** ** The contract of a hash implementation *)

(** [block_size] (mac/hmac.c) *)
Definition block_size {C} (dig : br_hash_class C) : Z :=
  Z.shiftl 1 (Z.land (Z.shiftr (desc dig) 23) BR_HASHDESC_LBLEN_MASK).

(** [dig] computes [H]: [absorbed m c] says that context [c] was initialised
    and then updated with the bytes of [m], in any number of calls. *)
Class HashOk {C} (dig : br_hash_class C) (H : bytes -> bytes) := {
  hash_valid : C -> Prop;
  absorbed : bytes -> C -> Prop;
  absorbed_valid m c : absorbed m c -> hash_valid c;
  init_absorbed c : hash_valid c -> absorbed [] (init dig c);
  update_absorbed m c data : absorbed m c -> absorbed (m ++ data) (update dig c data);
  out_hash m c : absorbed m c -> out dig c = H m;
  restore_absorbed m c c' :
    absorbed m c -> hash_valid c' -> (length m mod Z.to_nat (block_size dig) = 0)%nat ->
    absorbed m (set_state dig (init dig c') (state dig c).1 (w64 (Z.of_nat (length m))));
  hash_length m : Z.of_nat (length (H m)) = br_digest_size dig;
  hash_bytes m : Forall byte_ok (H m);
  hash_sizes : 0 < br_digest_size dig <= block_size dig
}.

Section md_class.
Context (compress : bytes -> list Z -> list Z) (iv : list Z) (n : nat).

Definition md_absorbed (m : bytes) (cc : hash_context) : Prop :=
  holds compress iv m (buf cc) (val cc) /\ count cc = w64 (Z.of_nat (length m)).

Definition words_ok (v : list Z) : Prop := length v = n /\ Forall (in_width 32) v.

Hypothesis iv_ok : words_ok iv.
Hypothesis compress_ok : forall b v, words_ok (compress b v).

Lemma chain_words k : forall v m, words_ok v -> words_ok (FIPS.chain compress k v m).
Proof. induction k as [|k IH]; intros v m Hv; [done|]. apply IH, compress_ok. Qed.

Lemma init_md_absorbed cc : length (buf cc) = 64%nat -> md_absorbed [] (mkHash (buf cc) 0 iv).
Proof. intros H. done. Qed.

Lemma restore_md_absorbed m cc b :
  md_absorbed m cc -> length b = 64%nat -> (length m mod 64 = 0)%nat ->
  md_absorbed m (mkHash b (w64 (Z.of_nat (length m))) (br_range_dec32be n (br_range_enc32be (val cc) n))).
Proof.
  intros [(Hv & Hb & Ht) Hc] Hl Hm. split; [|done]. cbn [buf val].
  assert (Hw : words_ok (val cc)) by (rewrite Hv; by apply chain_words).
  destruct Hw as [<- Hw]. rewrite <-(app_nil_r (br_range_enc32be _ _)), range_dec_enc32be by done.
  split_and!; [done..|]. rewrite Hm, take_0, drop_ge; [done|]. lia.
Qed.
End md_class.

Lemma chain_ext c1 c2 n : (forall b v, c1 b v = c2 b v) -> forall v m,
  FIPS.chain c1 n v m = FIPS.chain c2 n v m.
Proof. intros H. induction n as [|n IH]; intros v m; [done|]. cbn [FIPS.chain]. by rewrite H, IH. Qed.

Lemma sha2small_round_words b v : words_ok 8 (br_sha2small_round b v).
Proof.
  unfold br_sha2small_round. cbv zeta.
  destruct (sha2_loop 8 _ 0 _) as [[[[[[[? ?] ?] ?] ?] ?] ?] ?].
  split; [done|]. repeat (constructor; [apply wrap_in_width; lia|]). constructor.
Qed.

Lemma sha1_round_words b v : words_ok 5 (br_sha1_round b v).
Proof.
  unfold br_sha1_round. cbv zeta. destruct (sha1_loop 4 Sha1.I _ _ _ _) as [[[[? ?] ?] ?] ?].
  split; [done|]. repeat (constructor; [apply wrap_in_width; lia|]). constructor.
Qed.

Lemma sha2small_update_loop_eq fuel ptr data b v :
  sha2small_update_loop fuel ptr data b v = block_loop br_sha2small_round fuel ptr data b v.
Proof. reflexivity. Qed.

Lemma sha2small_update_absorbed iv m cc data :
  md_absorbed br_sha2small_round iv m cc ->
  md_absorbed br_sha2small_round iv (m ++ data) (sha2small_update cc data).
Proof.
  intros [Hh Hc]. unfold sha2small_update. rewrite sha2small_update_loop_eq, Hc, count_ptr.
  pose proof (block_loop_holds br_sha2small_round iv (length data) data m (buf cc) (val cc)
    (Nat.le_refl _) Hh) as H.
  destruct (block_loop _ _ _ _ _ _) as [b v]. split; [exact H|]. cbn [count].
  unfold wrap. rewrite Zplus_mod_idemp_l, length_app. f_equal. lia.
Qed.

Lemma sha2small_out_hash iv m cc num :
  md_absorbed br_sha2small_round iv m cc ->
  sha2small_out cc num = FIPS.hash FIPS.sha256_compress iv num m.
Proof.
  intros [(Hv & Hb & Ht) Hc]. unfold sha2small_out, FIPS.hash. rewrite Hc, count_ptr, bit_count.
  rewrite <-(chain_ext _ _ _ sha2small_round_ok), <-(final_blocks_ok _ iv m (val cc) Hv).
  unfold final_blocks. rewrite <-Ht, length_take.
  replace ((length m mod 64) `min` length (buf cc))%nat with (length m mod 64)%nat
    by (pose proof (Nat.mod_upper_bound (length m) 64); lia).
  cbv zeta. by destruct (56 <? length m mod 64 + 1)%nat.
Qed.

Lemma sha1_update_loop_eq fuel : forall ptr data cc, (length data <= fuel)%nat -> (ptr < 64)%nat ->
  in_width 64 (count cc) ->
  sha1_update_loop fuel ptr data cc =
  let '(b, v) := block_loop br_sha1_round fuel ptr data (buf cc) (val cc) in
  mkHash b (w64 (count cc + Z.of_nat (length data))) v.
Proof.
  induction fuel as [|fuel IH]; intros ptr [|x data] [b n v] Hf Hp Hc;
    cbn [sha1_update_loop block_loop buf val count] in *;
    try (rewrite Z.add_0_r, wrap_small by done; done); [simpl in Hf; lia|].
  set (d := x :: data) in *. assert (1 <= length d)%nat by (subst d; simpl; lia).
  set (clen := Nat.min (64 - ptr) (length d)).
  assert (E : w64 (w64 (n + Z.of_nat clen) + Z.of_nat (length (drop clen d))) = w64 (n + Z.of_nat (length d))).
  { unfold wrap. rewrite Zplus_mod_idemp_l, length_drop. f_equal. subst clen. lia. }
  assert (Hd : (length (drop clen d) <= fuel)%nat) by (rewrite length_drop; subst clen; lia).
  destruct (Nat.eqb_spec (ptr + clen) 64).
  - rewrite IH; [|done|lia|apply wrap_in_width; lia]. cbn [buf val count]. by rewrite E.
  - rewrite IH; [|done|subst clen; lia|apply wrap_in_width; lia]. cbn [buf val count]. by rewrite E.
Qed.

Lemma sha1_update_absorbed m cc data :
  md_absorbed br_sha1_round br_sha1_IV m cc ->
  md_absorbed br_sha1_round br_sha1_IV (m ++ data) (br_sha1_update cc data).
Proof.
  intros [Hh Hc]. unfold br_sha1_update.
  rewrite sha1_update_loop_eq; [|done| |rewrite Hc; apply wrap_in_width; lia].
  2: { rewrite Hc, count_ptr. apply Nat.mod_upper_bound. lia. }
  rewrite Hc, count_ptr.
  pose proof (block_loop_holds br_sha1_round br_sha1_IV (length data) data m (buf cc) (val cc)
    (Nat.le_refl _) Hh) as H.
  destruct (block_loop _ _ _ _ _ _) as [b v]. split; [exact H|]. cbn [count].
  unfold wrap. rewrite Zplus_mod_idemp_l, length_app. f_equal. lia.
Qed.

Lemma sha1_out_hash m cc : md_absorbed br_sha1_round br_sha1_IV m cc -> br_sha1_out cc = FIPS.sha1 m.
Proof.
  intros [(Hv & Hb & Ht) Hc]. unfold br_sha1_out, FIPS.sha1, FIPS.hash. rewrite Hc, count_ptr, bit_count.
  rewrite <-(chain_ext _ _ _ sha1_round_ok), <-(final_blocks_ok _ br_sha1_IV m (val cc) Hv).
  unfold final_blocks. rewrite <-Ht, length_take.
  replace ((length m mod 64) `min` length (buf cc))%nat with (length m mod 64)%nat
    by (pose proof (Nat.mod_upper_bound (length m) 64); lia).
  cbv zeta. by destruct (56 <? length m mod 64 + 1)%nat.
Qed.

Lemma iv_words n iv : length iv = n -> forallb (fun z => (0 <=? z) && (z <? 2 ^ 32)) iv = true -> words_ok n iv.
Proof.
  intros Hl H. split; [done|]. apply Forall_forall. intros z Hz.
  rewrite forallb_forall in H. apply list_elem_of_In, H in Hz. unfold in_width. lia.
Qed.

Lemma hash_out_length compress iv n num m :
  words_ok n iv -> (forall b v, words_ok n (compress b v)) -> (num <= n)%nat ->
  length (FIPS.hash compress iv num m) = (4 * num)%nat.
Proof.
  intros Hi Hc Hn. unfold FIPS.hash. rewrite range_enc32be_length; [done|].
  destruct (chain_words compress n Hc (length (FIPS.pad m) / 64) iv (FIPS.pad m) Hi) as [-> _]. done.
Qed.

Lemma sha256_compress_words b v : words_ok 8 (FIPS.sha256_compress b v).
Proof. rewrite <-sha2small_round_ok. apply sha2small_round_words. Qed.

Lemma sha1_compress_words b v : words_ok 5 (FIPS.sha1_compress b v).
Proof. rewrite <-sha1_round_ok. apply sha1_round_words. Qed.

Lemma sha1_IV_words : words_ok 5 br_sha1_IV.
Proof. by apply iv_words. Qed.
Lemma sha224_IV_words : words_ok 8 br_sha224_IV.
Proof. by apply iv_words. Qed.
Lemma sha256_IV_words : words_ok 8 br_sha256_IV.
Proof. by apply iv_words. Qed.

(** The context has its 64-byte buffer. *)
Definition has_buffer (cc : hash_context) : Prop := length (buf cc) = 64%nat.

Lemma md_absorbed_buffer compress iv m cc : md_absorbed compress iv m cc -> has_buffer cc.
Proof. by intros [(_ & H & _) _]. Qed.

#[export] Program Instance sha1_ok : HashOk br_sha1_vtable FIPS.sha1 := {|
  hash_valid := has_buffer; absorbed := md_absorbed br_sha1_round br_sha1_IV |}.
Next Obligation. intros m c. apply md_absorbed_buffer. Qed.
Next Obligation. intros c H. by apply init_md_absorbed. Qed.
Next Obligation. intros m c data H. by apply sha1_update_absorbed. Qed.
Next Obligation. intros m c H. by apply sha1_out_hash. Qed.
Next Obligation.
  intros m c c' H Hv Hm. apply (restore_md_absorbed _ _ 5 sha1_IV_words sha1_round_words); done.
Qed.
Next Obligation.
  intros m. unfold FIPS.sha1.
  by rewrite (hash_out_length _ _ 5 5 _ sha1_IV_words sha1_compress_words).
Qed.
Next Obligation. intros m. apply range_enc32be_ok. Qed.
Next Obligation. done. Qed.

#[export] Program Instance sha224_ok : HashOk br_sha224_vtable FIPS.sha224 := {|
  hash_valid := has_buffer; absorbed := md_absorbed br_sha2small_round br_sha224_IV |}.
Next Obligation. intros m c. apply md_absorbed_buffer. Qed.
Next Obligation. intros c H. by apply init_md_absorbed. Qed.
Next Obligation. intros m c data H. by apply sha2small_update_absorbed. Qed.
Next Obligation. intros m c H. by apply (sha2small_out_hash br_sha224_IV). Qed.
Next Obligation.
  intros m c c' H Hv Hm. apply (restore_md_absorbed _ _ 8 sha224_IV_words sha2small_round_words); done.
Qed.
Next Obligation.
  intros m. unfold FIPS.sha224.
  rewrite (hash_out_length _ _ 8 7 _ sha224_IV_words sha256_compress_words); [done|lia].
Qed.
Next Obligation. intros m. apply range_enc32be_ok. Qed.
Next Obligation. done. Qed.

#[export] Program Instance sha256_ok : HashOk br_sha256_vtable FIPS.sha256 := {|
  hash_valid := has_buffer; absorbed := md_absorbed br_sha2small_round br_sha256_IV |}.
Next Obligation. intros m c. apply md_absorbed_buffer. Qed.
Next Obligation. intros c H. by apply init_md_absorbed. Qed.
Next Obligation. intros m c data H. by apply sha2small_update_absorbed. Qed.
Next Obligation. intros m c H. by apply (sha2small_out_hash br_sha256_IV). Qed.
Next Obligation.
  intros m c c' H Hv Hm. apply (restore_md_absorbed _ _ 8 sha256_IV_words sha2small_round_words); done.
Qed.
Next Obligation.
  intros m. unfold FIPS.sha256.
  rewrite (hash_out_length _ _ 8 8 _ sha256_IV_words sha256_compress_words); [done|lia].
Qed.
Next Obligation. intros m. apply range_enc32be_ok. Qed.
Next Obligation. done. Qed.

(** Feeding the chunks of a message one call at a time. *)
Lemma updates_absorbed {C} (dig : br_hash_class C) H `{!HashOk dig H} chunks : forall m c,
  absorbed m c -> absorbed (m ++ concat chunks) (foldl (update dig) c chunks).
Proof.
  induction chunks as [|d chunks IH]; intros m c Hm; simpl; [by rewrite app_nil_r|].
  rewrite app_assoc. by apply IH, update_absorbed.
Qed.

(** ** Properties *)

(** C23: SHA-256 and SHA-224 as computed by [init], any sequence of [update]
    calls and [out] are the FIPS 180-4 hash of the concatenated data, however
    the data was cut and whatever the context held before [init]. *)
Theorem sha2small_streaming (cc : hash_context) (chunks : list bytes) :
  length (buf cc) = 64%nat ->
  br_sha256_out (foldl sha2small_update (br_sha256_init cc) chunks) = FIPS.sha256 (concat chunks) /\
  br_sha224_out (foldl br_sha224_update (br_sha224_init cc) chunks) = FIPS.sha224 (concat chunks).
Proof.
  intros Hb. split.
  - apply (out_hash (dig := br_sha256_vtable)), (updates_absorbed br_sha256_vtable FIPS.sha256 chunks []).
    by apply (init_absorbed (dig := br_sha256_vtable)).
  - apply (out_hash (dig := br_sha224_vtable)), (updates_absorbed br_sha224_vtable FIPS.sha224 chunks []).
    by apply (init_absorbed (dig := br_sha224_vtable)).
Qed.

Lemma sha2small_streaming_witness :
  let cc := mkHash (replicate 64 7) 3 [] in
  br_sha256_out (foldl sha2small_update (br_sha256_init cc) [[97]; []; [98; 99]]) = FIPS.sha256 [97; 98; 99] /\
  br_sha224_out (foldl br_sha224_update (br_sha224_init cc) [[97]; []; [98; 99]]) = FIPS.sha224 [97; 98; 99].
Proof. intros cc. apply (sha2small_streaming cc [[97]; []; [98; 99]]). reflexivity. Defined.

(** SHA-1 as computed by [init], any sequence of [update] calls and [out]
    is the FIPS 180-4 hash of the concatenated data. *)
Theorem sha1_streaming (cc : hash_context) (chunks : list bytes) :
  length (buf cc) = 64%nat ->
  br_sha1_out (foldl br_sha1_update (br_sha1_init cc) chunks) = FIPS.sha1 (concat chunks).
Proof.
  intros Hb. apply (out_hash (dig := br_sha1_vtable)), (updates_absorbed br_sha1_vtable FIPS.sha1 chunks []).
  by apply (init_absorbed (dig := br_sha1_vtable)).
Qed.

Lemma sha1_streaming_witness :
  br_sha1_out (foldl br_sha1_update (br_sha1_init (mkHash (replicate 64 7) 3 [])) [[97]; [98; 99]])
  = FIPS.sha1 [97; 98; 99].
Proof. apply (sha1_streaming _ [[97]; [98; 99]]). reflexivity. Defined.

(** The published digests of the three bytes [abc]. *)
Example sha256_abc : FIPS.sha256 [0x61; 0x62; 0x63] =
  [0xba; 0x78; 0x16; 0xbf; 0x8f; 0x01; 0xcf; 0xea; 0x41; 0x41; 0x40; 0xde; 0x5d; 0xae; 0x22; 0x23;
   0xb0; 0x03; 0x61; 0xa3; 0x96; 0x17; 0x7a; 0x9c; 0xb4; 0x10; 0xff; 0x61; 0xf2; 0x00; 0x15; 0xad].
Proof. vm_compute. reflexivity. Qed.

Example sha1_abc : FIPS.sha1 [0x61; 0x62; 0x63] =
  [0xa9; 0x99; 0x3e; 0x36; 0x47; 0x06; 0x81; 0x6a; 0xba; 0x3e; 0x25; 0x71; 0x78; 0x50; 0xc2; 0x6c;
   0x9c; 0xd0; 0xd8; 0x9d].
Proof. vm_compute. reflexivity. Qed.
