(* ===== verification/Hmac.v ===== *)
(** * HMAC (bearssl/src/bearssl/mac/hmac.c)

    HMAC over any hash implementation: the key is absorbed once into two saved
    chaining states, from which the inner and the outer hash are resumed.  The
    file proves, against the contract [HashOk], that the result is the HMAC of
    RFC 2104. *)
From S2P Require Import Prelude Inner Hash.
Local Open Scope Z_scope.

Section hmac.
Context {C : Type} (dig : br_hash_class C).

(** What a local hash context holds before its [init]. *)
Variable hc0 : C.

(** [br_hmac_key_context] *)
Record br_hmac_key_context := mkHmacKey { ksi : bytes; kso : bytes }.

(** [br_hmac_context] *)
Record br_hmac_context := mkHmac { hdig : C; hkso : bytes; out_len : Z }.

Definition xor_byte (bb x : Z) : Z := w8 (Z.lxor x bb).

(** The block that [process_key] hashes. *)
Definition key_block (key : bytes) (bb : Z) : bytes :=
  (xor_byte bb <$> key) ++ replicate (Z.to_nat (block_size dig) - length key) bb.

(** [process_key]: the saved state and the context left behind. *)
Definition process_key (hc : C) (key : bytes) (bb : Z) : bytes * C :=
  let hc := init dig hc in
  let hc := update dig hc (key_block key bb) in
  ((state dig hc).1, hc).

(** The first step of [br_hmac_key_init]: hash a key longer than a block. *)
Definition hash_long_key (key : bytes) : bytes * C :=
  if block_size dig <? Z.of_nat (length key) then
    let hc := update dig (init dig hc0) key in
    (take (Z.to_nat (br_digest_size dig)) (out dig hc), hc)
  else (key, hc0).

Definition br_hmac_key_init (key : bytes) : br_hmac_key_context :=
  let '(key, hc) := hash_long_key key in
  let '(i, hc) := process_key hc key 0x36 in
  let '(o, _) := process_key hc key 0x5C in
  mkHmacKey i o.

Definition br_hmac_init (ctx : br_hmac_context) (kc : br_hmac_key_context) (olen : Z) : br_hmac_context :=
  let blen := block_size dig in
  let d := init dig (hdig ctx) in
  let d := set_state dig d (ksi kc) (w64 blen) in
  let hlen := br_digest_size dig in
  let hlen := if (0 <? olen) && (olen <? hlen) then olen else hlen in
  mkHmac d (kso kc) hlen.

Definition br_hmac_update (ctx : br_hmac_context) (data : bytes) : br_hmac_context :=
  mkHmac (update dig (hdig ctx) data) (hkso ctx) (out_len ctx).

Definition br_hmac_out (ctx : br_hmac_context) : bytes :=
  let tmp := out dig (hdig ctx) in
  let blen := block_size dig in
  let hc := init dig hc0 in
  let hc := set_state dig hc (hkso ctx) (w64 blen) in
  let hlen := br_digest_size dig in
  let hc := update dig hc (take (Z.to_nat hlen) tmp) in
  let tmp := out dig hc in
  take (Z.to_nat (out_len ctx)) tmp.

(** ** Specification *)

(** RFC 2104, over a hash [H] with blocks of [B] bytes. *)
Definition HMAC (H : bytes -> bytes) (B : nat) (key m : bytes) : bytes :=
  let K0 := if (B <? length key)%nat then H key else key in
  let K' := K0 ++ replicate (B - length K0) 0 in
  H ((xor_byte 0x5C <$> K') ++ H ((xor_byte 0x36 <$> K') ++ m)).
End hmac.

Arguments mkHmac {C}. Arguments hdig {C}. Arguments hkso {C}. Arguments out_len {C}.

(** ** HMAC over a correct hash *)

Section hmac_proofs.
Context {C : Type} (dig : br_hash_class C) (H : bytes -> bytes) `{Hok : !HashOk dig H}.
Variable hc0 : C.
Hypothesis hc0_valid : hash_valid hc0.

Abbreviation B := (Z.to_nat (block_size dig)).

(** The key after hashing an oversized one. *)
Definition short_key (key : bytes) : bytes :=
  if (B <? length key)%nat then H key else key.

Lemma hash_take m : take (Z.to_nat (br_digest_size dig)) (H m) = H m.
Proof. apply take_ge. pose proof (hash_length m). lia. Qed.

Lemma short_key_length key : (length (short_key key) <= B)%nat.
Proof.
  unfold short_key. case_cmp; [|lia]. pose proof (hash_length key). pose proof hash_sizes. lia.
Qed.

Lemma key_block_pad key bb : byte_ok bb -> (length key <= B)%nat ->
  key_block dig key bb = xor_byte bb <$> (key ++ replicate (B - length key) 0).
Proof.
  intros Hb Hl. unfold key_block. rewrite fmap_app, fmap_replicate. do 2 f_equal.
  unfold xor_byte. rewrite Z.lxor_0_l, wrap_small; [done|]. exact Hb.
Qed.

Lemma key_block_length key bb : (length key <= B)%nat -> length (key_block dig key bb) = B.
Proof. intros Hl. unfold key_block. rewrite length_app, length_fmap, length_replicate. lia. Qed.

(** A saved key state resumes the hash of the key block. *)
Lemma process_key_restore hc c key bb :
  hash_valid hc -> hash_valid c -> (length key <= B)%nat ->
  absorbed (key_block dig key bb)
    (set_state dig (init dig c) (process_key dig hc key bb).1 (w64 (block_size dig))) /\
  hash_valid (process_key dig hc key bb).2.
Proof.
  intros Hv Hc Hl. unfold process_key. cbn [fst snd].
  pose proof (update_absorbed _ _ (key_block dig key bb) (init_absorbed hc Hv)) as Ha.
  rewrite app_nil_l in Ha. split; [|by eapply absorbed_valid].
  pose proof hash_sizes.
  replace (block_size dig) with (Z.of_nat (length (key_block dig key bb)))
    by (rewrite key_block_length by done; lia).
  apply restore_absorbed; [done..|]. rewrite key_block_length by done. apply Nat.Div0.mod_same.
Qed.

(** [kc] holds the two key states of [key]. *)
Definition keyed (key : bytes) (kc : br_hmac_key_context) : Prop :=
  forall c, hash_valid c ->
    absorbed (key_block dig (short_key key) 0x36) (set_state dig (init dig c) (ksi kc) (w64 (block_size dig))) /\
    absorbed (key_block dig (short_key key) 0x5C) (set_state dig (init dig c) (kso kc) (w64 (block_size dig))).

Lemma hmac_key_init_keyed key : keyed key (br_hmac_key_init dig hc0 key).
Proof.
  unfold br_hmac_key_init.
  assert (Hk : exists hc, hash_valid hc /\ hash_long_key dig hc0 key = (short_key key, hc)).
  { unfold short_key, hash_long_key. pose proof hash_sizes.
    pose proof (update_absorbed _ _ key (init_absorbed hc0 hc0_valid)) as Ha. rewrite app_nil_l in Ha.
    destruct (Z.ltb_spec (block_size dig) (Z.of_nat (length key))).
    - rewrite (proj2 (Nat.ltb_lt _ _)) by lia. eexists. split; [by eapply absorbed_valid|]. cbv zeta.
      by rewrite (out_hash _ _ Ha), hash_take.
    - rewrite (proj2 (Nat.ltb_ge _ _)) by lia. by eexists. }
  destruct Hk as (hc & Hv & ->). pose proof (short_key_length key) as Hl.
  destruct (process_key dig hc (short_key key) 0x36) as [i hc1] eqn:E1.
  assert (Hv1 : hash_valid hc1).
  { destruct (process_key_restore hc hc0 (short_key key) 0x36 Hv hc0_valid Hl) as [_ Hv1].
    by rewrite E1 in Hv1. }
  destruct (process_key dig hc1 (short_key key) 0x5C) as [o hc2] eqn:E2. intros c Hc. cbn [ksi kso]. split.
  - destruct (process_key_restore hc c (short_key key) 0x36 Hv Hc Hl) as [Ha _]. by rewrite E1 in Ha.
  - destruct (process_key_restore hc1 c (short_key key) 0x5C Hv1 Hc Hl) as [Ha _]. by rewrite E2 in Ha.
Qed.

(** [ctx] has absorbed [m] under [key], and will output [n] bytes. *)
Definition maccing (key m : bytes) (n : Z) (ctx : br_hmac_context) : Prop :=
  absorbed (key_block dig (short_key key) 0x36 ++ m) (hdig ctx) /\ out_len ctx = n /\
  (forall c, hash_valid c ->
    absorbed (key_block dig (short_key key) 0x5C) (set_state dig (init dig c) (hkso ctx) (w64 (block_size dig)))).

(** The length of the output for a requested length. *)
Definition hmac_len (olen : Z) : Z :=
  if (0 <? olen) && (olen <? br_digest_size dig) then olen else br_digest_size dig.

Lemma hmac_init_maccing key kc ctx olen :
  keyed key kc -> hash_valid (hdig ctx) -> maccing key [] (hmac_len olen) (br_hmac_init dig ctx kc olen).
Proof.
  intros Hk Hv. unfold maccing, br_hmac_init. cbn [hdig hkso out_len]. rewrite app_nil_r.
  split_and!; [by apply Hk|done|]. intros c Hc. by apply Hk.
Qed.

Lemma hmac_update_maccing key m n ctx data :
  maccing key m n ctx -> maccing key (m ++ data) n (br_hmac_update dig ctx data).
Proof.
  intros (Ha & Hn & Ho). unfold maccing, br_hmac_update. cbn [hdig hkso out_len].
  rewrite app_assoc. split_and!; [by apply update_absorbed|done..].
Qed.

Lemma hmac_out_maccing key m n ctx :
  maccing key m n ctx -> br_hmac_out dig hc0 ctx = take (Z.to_nat n) (HMAC H B key m).
Proof.
  intros (Ha & Hn & Ho). unfold br_hmac_out, HMAC. cbv zeta. rewrite Hn. f_equal.
  rewrite (out_hash _ _ Ha), hash_take.
  rewrite (out_hash _ _ (update_absorbed _ _ _ (Ho hc0 hc0_valid))).
  fold (short_key key). rewrite !key_block_pad by (apply short_key_length || (unfold byte_ok; lia)). done.
Qed.

Lemma hmac_updates_maccing key n chunks : forall m ctx,
  maccing key m n ctx -> maccing key (m ++ concat chunks) n (foldl (br_hmac_update dig) ctx chunks).
Proof.
  induction chunks as [|d chunks IH]; intros m ctx Hm; simpl; [by rewrite app_nil_r|].
  rewrite app_assoc. by apply IH, hmac_update_maccing.
Qed.
End hmac_proofs.

(** ** Properties *)

(** C28: keying, initialising, updating in any number of pieces and reading the
    output computes the HMAC of the concatenated pieces over any hash that
    meets its contract, truncated to the requested length when that is
    shorter than the digest. *)
Theorem hmac_correct {C} (dig : br_hash_class C) (H : bytes -> bytes) `{!HashOk dig H}
    (hc0 : C) (ctx : br_hmac_context) (key : bytes) (olen : Z) (chunks : list bytes) :
  hash_valid hc0 -> hash_valid (hdig ctx) ->
  br_hmac_out dig hc0
    (foldl (br_hmac_update dig) (br_hmac_init dig ctx (br_hmac_key_init dig hc0 key) olen) chunks) =
  take (Z.to_nat (hmac_len dig olen)) (HMAC H (Z.to_nat (block_size dig)) key (concat chunks)).
Proof.
  intros Hv Hc. apply (hmac_out_maccing dig H hc0 Hv).
  apply (hmac_updates_maccing dig H key _ chunks []), hmac_init_maccing; [|done].
  by apply hmac_key_init_keyed.
Qed.

Lemma hmac_correct_witness :
  let hc := mkHash (replicate 64 9) 5 [] in
  br_hmac_out br_sha256_vtable hc
    (foldl (br_hmac_update br_sha256_vtable)
       (br_hmac_init br_sha256_vtable (mkHmac hc [] 0) (br_hmac_key_init br_sha256_vtable hc [1; 2; 3]) 10)
       [[4; 5]; [6]]) =
  take 10 (HMAC FIPS.sha256 64 [1; 2; 3] [4; 5; 6]).
Proof.
  intros hc. apply (hmac_correct br_sha256_vtable FIPS.sha256 hc (mkHmac hc [] 0) [1; 2; 3] 10 [[4; 5]; [6]]);
    reflexivity.
Defined.
