(* ===== verification/HmacDrbg.v ===== *)
(** * HMAC_DRBG (bearssl/src/bearssl/rand/hmac_drbg.c)

    The pseudorandom generator over HMAC, and the proof that initialisation,
    output and reseeding are the HMAC_DRBG functions of NIST SP 800-90A over
    any hash implementation that meets its contract. *)
From S2P Require Import Prelude Inner Hash Hmac.
Local Open Scope Z_scope.

(** [br_hmac_drbg_context]: the first [hlen] bytes of [K] and [V]. *)
Record br_hmac_drbg_context := mkHmacDrbg { dK : bytes; dV : bytes }.

Section drbg.
Context {C : Type} (dig : br_hash_class C).

(** What local contexts hold before they are initialised. *)
Variable hc0 : C.
Variable hm0 : br_hmac_context (C := C).

Definition hlen : nat := Z.to_nat (br_digest_size dig).

(** [br_hmac_init(&hc, &kc, 0)], updates with the parts, [br_hmac_out]. *)
Definition run_hmac (hc : br_hmac_context) (kc : br_hmac_key_context) (parts : list bytes)
    : bytes * br_hmac_context :=
  let hc := foldl (br_hmac_update dig) (br_hmac_init dig hc kc 0) parts in
  (br_hmac_out dig hc0 hc, hc).

Definition br_hmac_drbg_update (ctx : br_hmac_drbg_context) (seed : bytes) : br_hmac_drbg_context :=
  let kc := br_hmac_key_init dig hc0 (dK ctx) in
  let '(K, hc) := run_hmac hm0 kc [dV ctx; [0x00]; seed] in
  let kc := br_hmac_key_init dig hc0 K in
  let '(V, hc) := run_hmac hc kc [dV ctx] in
  if (length seed =? 0)%nat then mkHmacDrbg K V else
  let '(K, hc) := run_hmac hc kc [V; [0x01]; seed] in
  let kc := br_hmac_key_init dig hc0 K in
  let '(V, hc) := run_hmac hc kc [V] in
  mkHmacDrbg K V.

Definition br_hmac_drbg_init (seed : bytes) : br_hmac_drbg_context :=
  br_hmac_drbg_update (mkHmacDrbg (replicate hlen 0x00) (replicate hlen 0x01)) seed.

(** The output loop: the bytes written, the last [V] and the HMAC context. *)
Fixpoint generate_loop (fuel : nat) (kc : br_hmac_key_context) (len : nat) (V : bytes)
    (hc : br_hmac_context) : bytes * bytes * br_hmac_context :=
  match fuel, len with
  | S fuel, S _ =>
      let '(V, hc) := run_hmac hc kc [V] in
      let clen := Nat.min hlen len in
      let '(o, V', hc) := generate_loop fuel kc (len - clen) V hc in
      (take clen V ++ o, V', hc)
  | _, _ => ([], V, hc)
  end.

Definition br_hmac_drbg_generate (ctx : br_hmac_drbg_context) (len : nat) : bytes * br_hmac_drbg_context :=
  let kc := br_hmac_key_init dig hc0 (dK ctx) in
  let '(o, V, hc) := generate_loop len kc len (dV ctx) hm0 in
  let '(K, hc) := run_hmac hc kc [V; [0x00]] in
  let kc := br_hmac_key_init dig hc0 K in
  let '(V, hc) := run_hmac hc kc [V] in
  (o, mkHmacDrbg K V).
End drbg.

(** ** Specification: SP 800-90A *)

Module SP800_90A.
Section spec.
Context (hmac : bytes -> bytes -> bytes).

Definition update (K V seed : bytes) : bytes * bytes :=
  let K := hmac K (V ++ [0x00] ++ seed) in
  let V := hmac K V in
  match seed with
  | [] => (K, V)
  | _ => let K := hmac K (V ++ [0x01] ++ seed) in (K, hmac K V)
  end.

(** [V] after [n] iterations, and the concatenation of its values on the way. *)
Fixpoint iterate (K : bytes) (n : nat) (V : bytes) : bytes * bytes :=
  match n with
  | O => ([], V)
  | S n => let V := hmac K V in let '(o, V') := iterate K n V in (V ++ o, V')
  end.

Definition generate (hlen : nat) (K V : bytes) (len : nat) : bytes * (bytes * bytes) :=
  let '(o, V) := iterate K ((len + hlen - 1) / hlen) V in
  (take len o, update K V []).
End spec.
End SP800_90A.

(** ** Refinement *)

(** Arithmetic of the output loop. *)
Lemma ceil_step h n : (1 <= h)%nat ->
  ((S n + h - 1) / h = S ((S n - Nat.min h (S n) + h - 1) / h))%nat.
Proof.
  intros Hh. destruct (decide (h <= S n)%nat) as [Hle|Hle].
  - rewrite Nat.min_l by lia. replace (S n + h - 1)%nat with ((S n - h + h - 1) + 1 * h)%nat by lia.
    rewrite Nat.div_add by lia. lia.
  - rewrite Nat.min_r by lia. replace (S n - S n + h - 1)%nat with (h - 1)%nat by lia.
    rewrite (Nat.div_small (h - 1)) by lia. symmetry. apply (Nat.div_unique _ _ _ n); lia.
Qed.

Lemma loop_fuel h n f : (1 <= h)%nat -> (S n <= S f)%nat -> (S n - Nat.min h (S n) <= f)%nat.
Proof. lia. Qed.

Lemma take_clen h n (v o : bytes) : length v = h ->
  take (Nat.min h (S n)) v ++ take (S n - Nat.min h (S n)) o = take (S n) (v ++ o).
Proof.
  intros <-. rewrite take_app. destruct (decide (length v <= S n)%nat).
  - rewrite Nat.min_l, !(take_ge v) by lia. done.
  - rewrite Nat.min_r, Nat.sub_diag by lia. replace (S n - length v)%nat with 0%nat by lia. done.
Qed.

Section drbg_proofs.
Context {C : Type} (dig : br_hash_class C) (H : bytes -> bytes) `{Hok : !HashOk dig H}.
Context (hc0 : C) (hm0 : br_hmac_context (C := C)).
Hypothesis hc0_valid : hash_valid hc0.

Definition hmac (K m : bytes) : bytes := HMAC H (Z.to_nat (block_size dig)) K m.

Lemma hmac_length K m : length (hmac K m) = hlen dig.
Proof.
  unfold hmac, HMAC, hlen. cbv zeta.
  match goal with |- length (H ?x) = _ => pose proof (hash_length (dig := dig) (H := H) x) end. lia.
Qed.

Lemma hlen_pos : (1 <= hlen dig)%nat.
Proof. unfold hlen. pose proof (hash_sizes (dig := dig)). lia. Qed.

Lemma run_hmac_ok hc K parts :
  hash_valid (hdig hc) ->
  let r := run_hmac dig hc0 hc (br_hmac_key_init dig hc0 K) parts in
  r.1 = hmac K (concat parts) /\ hash_valid (hdig r.2).
Proof.
  intros Hv. unfold run_hmac. cbv zeta. cbn [fst snd].
  pose proof (hmac_updates_maccing dig H K _ parts [] _
    (hmac_init_maccing dig H K _ hc 0 (hmac_key_init_keyed dig H hc0 hc0_valid K) Hv)) as Hm.
  split; [|by eapply absorbed_valid, Hm]. rewrite (hmac_out_maccing dig H hc0 hc0_valid _ _ _ _ Hm).
  cbn [app]. apply take_ge. fold (hmac K (concat parts)). rewrite hmac_length. done.
Qed.

(** One call of [run_hmac] with its result named. *)
Ltac step_hmac :=
  match goal with
  | Hv : hash_valid (hdig ?hc) |- context [run_hmac dig hc0 ?hc (br_hmac_key_init dig hc0 ?K) ?parts] =>
      let E := fresh "E" in let Hv' := fresh "Hv" in let k := fresh "k" in let c := fresh "c" in
      destruct (run_hmac_ok hc K parts Hv) as [E Hv'];
      destruct (run_hmac dig hc0 hc (br_hmac_key_init dig hc0 K) parts) as [k c];
      cbn [fst snd] in E, Hv'; subst k; cbn [concat app] in *; rewrite ?app_nil_r in *
  end.

Lemma drbg_update_ok ctx seed :
  hash_valid (hdig hm0) ->
  let ctx' := br_hmac_drbg_update dig hc0 hm0 ctx seed in
  (dK ctx', dV ctx') = SP800_90A.update hmac (dK ctx) (dV ctx) seed.
Proof.
  intros Hv. unfold br_hmac_drbg_update, SP800_90A.update. cbv zeta.
  step_hmac. step_hmac. destruct seed as [|s seed]; cbn [length Nat.eqb]; [done|].
  step_hmac. step_hmac. done.
Qed.

Lemma generate_loop_ok fuel : forall K len V hc,
  (len <= fuel)%nat -> hash_valid (hdig hc) ->
  let '(o, V', hc') := generate_loop dig hc0 fuel (br_hmac_key_init dig hc0 K) len V hc in
  let r := SP800_90A.iterate hmac K ((len + hlen dig - 1) / hlen dig) V in
  o = take len r.1 /\ V' = r.2 /\ hash_valid (hdig hc').
Proof.
  pose proof hlen_pos as Hh.
  assert (Hz : ((0 + hlen dig - 1) / hlen dig = 0)%nat) by (apply Nat.div_small; lia).
  induction fuel as [|fuel IH]; intros K [|len] V hc Hf Hv; cbn [generate_loop];
    try (rewrite Hz; done); [lia|].
  step_hmac. set (clen := Nat.min (hlen dig) (S len)).
  pose proof (ceil_step (hlen dig) len Hh) as Hd. pose proof (loop_fuel (hlen dig) len fuel Hh Hf) as Hc.
  fold clen in Hd, Hc.
  specialize (IH K (S len - clen)%nat (hmac K V) c Hc Hv0).
  destruct (generate_loop dig hc0 fuel _ (S len - clen) (hmac K V) c) as [[o V'] hc'].
  rewrite Hd. cbn [SP800_90A.iterate].
  destruct (SP800_90A.iterate hmac K _ (hmac K V)) as [o' V'']. cbn [fst snd] in *.
  destruct IH as (-> & -> & Hv'). split_and!; [|done|done].
  apply (take_clen (hlen dig)), hmac_length.
Qed.

Lemma drbg_generate_ok ctx len :
  hash_valid (hdig hm0) ->
  let r := br_hmac_drbg_generate dig hc0 hm0 ctx len in
  (r.1, (dK r.2, dV r.2)) = SP800_90A.generate hmac (hlen dig) (dK ctx) (dV ctx) len.
Proof.
  intros Hv. unfold br_hmac_drbg_generate, SP800_90A.generate. cbv zeta.
  pose proof (generate_loop_ok len (dK ctx) len (dV ctx) hm0 (Nat.le_refl _) Hv) as Hg.
  destruct (generate_loop dig hc0 len _ len (dV ctx) hm0) as [[o V] hc].
  destruct (SP800_90A.iterate _ _ _ _) as [o' V']. cbn [fst snd] in Hg. destruct Hg as (-> & -> & Hv').
  step_hmac. step_hmac. unfold SP800_90A.update. cbv zeta. by rewrite app_nil_r.
Qed.
End drbg_proofs.

(** ** Properties *)

(** C27: seeding, output and reseeding of the HMAC generator are the
    SP 800-90A functions: [init] is the update of the all-zero key and all-one
    value, [update] is the update function, and [generate] returns the first
    [len] bytes of the iterated values and leaves the state of the update with
    no additional input. *)
Theorem hmac_drbg_refines {C} (dig : br_hash_class C) (H : bytes -> bytes) `{!HashOk dig H}
    (hc0 : C) (hm0 : br_hmac_context) (ctx : br_hmac_drbg_context) (seed : bytes) (len : nat) :
  hash_valid hc0 -> hash_valid (hdig hm0) ->
  let hm := hmac dig H in
  let i := br_hmac_drbg_init dig hc0 hm0 seed in
  let u := br_hmac_drbg_update dig hc0 hm0 ctx seed in
  let g := br_hmac_drbg_generate dig hc0 hm0 ctx len in
  (dK i, dV i) = SP800_90A.update hm (replicate (hlen dig) 0) (replicate (hlen dig) 1) seed /\
  (dK u, dV u) = SP800_90A.update hm (dK ctx) (dV ctx) seed /\
  (g.1, (dK g.2, dV g.2)) = SP800_90A.generate hm (hlen dig) (dK ctx) (dV ctx) len.
Proof.
  intros Hv Hm hm i u g. split_and!.
  - apply (drbg_update_ok dig H hc0 hm0 Hv (mkHmacDrbg _ _) seed Hm).
  - by apply (drbg_update_ok dig H).
  - by apply (drbg_generate_ok dig H).
Qed.

Lemma hmac_drbg_refines_witness :
  let hc := mkHash (replicate 64 9) 5 [] in
  let ctx := mkHmacDrbg (replicate 32 7) (replicate 32 8) in
  let g := br_hmac_drbg_generate br_sha256_vtable hc (mkHmac hc [] 0) ctx 40 in
  (g.1, (dK g.2, dV g.2)) =
  SP800_90A.generate (hmac br_sha256_vtable FIPS.sha256) (hlen br_sha256_vtable) (replicate 32 7) (replicate 32 8) 40.
Proof.
  intros hc ctx g.
  apply (hmac_drbg_refines br_sha256_vtable FIPS.sha256 hc (mkHmac hc [] 0) ctx [1] 40); reflexivity.
Defined.
