(* ===== verification/Simd.v ===== *)
(** * 128-bit vector intrinsics

    The [__m128i] operations that the AES and GHASH code uses, with the
    semantics of the instruction set reference.  A vector is a 128-bit
    integer; byte, 32-bit and 64-bit lanes count from the least significant
    end, which is also the order of bytes in memory. *)
From S2P Require Import Prelude Inner.
Local Open Scope Z_scope.

Abbreviation m128 := Z.

(** ** Lanes *)

Definition lane8 (i : nat) (x : m128) : Z := w8 (Z.shiftr x (8 * Z.of_nat i)).
Definition lane32 (i : nat) (x : m128) : Z := w32 (Z.shiftr x (32 * Z.of_nat i)).
Definition lane64 (i : nat) (x : m128) : Z := w64 (Z.shiftr x (64 * Z.of_nat i)).

(** A vector from its lanes of width [w], least significant first. *)
Fixpoint of_lanes (w : Z) (l : list Z) : Z :=
  match l with
  | [] => 0
  | a :: l => Z.lor (wrap w a) (Z.shiftl (of_lanes w l) w)
  end.

(** ** Loads, stores and moves *)

Definition mm_loadu_si128 (s : bytes) : m128 := of_lanes 8 (byte_at s <$> seq 0 16).
Definition mm_storeu_si128 (x : m128) : bytes := (fun i => lane8 i x) <$> seq 0 16.

Definition mm_xor_si128 (x y : m128) : m128 := Z.lxor x y.
Definition mm_or_si128 (x y : m128) : m128 := Z.lor x y.

(** Shift left by [n] bytes. *)
Definition mm_slli_si128 (x : m128) (n : Z) : m128 := wrap 128 (Z.shiftl x (8 * n)).

(** Each 64-bit lane shifted by [n] bits. *)
Definition mm_slli_epi64 (x : m128) (n : Z) : m128 :=
  of_lanes 64 [w64 (Z.shiftl (lane64 0 x) n); w64 (Z.shiftl (lane64 1 x) n)].
Definition mm_srli_epi64 (x : m128) (n : Z) : m128 :=
  of_lanes 64 [Z.shiftr (lane64 0 x) n; Z.shiftr (lane64 1 x) n].

(** Two bits of [imm] choose each 32-bit lane. *)
Definition imm_sel (imm : Z) (i : nat) : nat := Z.to_nat (Z.land (Z.shiftr imm (2 * Z.of_nat i)) 3).
Definition mm_shuffle_epi32 (x : m128) (imm : Z) : m128 :=
  of_lanes 32 ((fun i => lane32 (imm_sel imm i) x) <$> seq 0 4).

(** The index vector of [_mm_shuffle_epi8] is a constant: byte [i] of the
    result is byte [idx[i]] of [x]. *)
Definition mm_shuffle_epi8 (x : m128) (idx : list nat) : m128 :=
  of_lanes 8 ((fun i => lane8 i x) <$> idx).

(** Replace 32-bit lane 3. *)
Definition mm_insert_epi32_3 (x : m128) (v : Z) : m128 :=
  of_lanes 32 [lane32 0 x; lane32 1 x; lane32 2 x; v].

Definition mm_unpacklo_epi64 (x y : m128) : m128 := of_lanes 64 [lane64 0 x; lane64 0 y].

(** [_mm_shuffle_pd]: a 64-bit lane of each operand. *)
Definition mm_shuffle_pd (x y : m128) (imm : Z) : m128 :=
  of_lanes 64 [if Z.testbit imm 0 then lane64 1 x else lane64 0 x;
               if Z.testbit imm 1 then lane64 1 y else lane64 0 y].

(** ** Lane lemmas *)

Lemma lane_testbit w i x j : 0 <= w -> 0 <= j ->
  Z.testbit (wrap w (Z.shiftr x (w * Z.of_nat i))) j = (j <? w) && Z.testbit x (j + w * Z.of_nat i).
Proof. intros Hw Hj. rewrite wrap_testbit by done. rewrite Z.shiftr_spec by done. done. Qed.

Lemma of_lanes_nonneg w l : 0 <= w -> 0 <= of_lanes w l.
Proof.
  intros Hw. induction l as [|a l IH]; simpl; [lia|]. apply Z.lor_nonneg. split.
  - apply wrap_in_width. done.
  - by apply Z.shiftl_nonneg.
Qed.

Lemma of_lanes_testbit w l : 0 < w -> forall j, 0 <= j ->
  Z.testbit (of_lanes w l) j = Z.testbit (nth (Z.to_nat (j / w)) l 0) (j mod w).
Proof.
  intros Hw. induction l as [|a l IH]; intros j Hj; cbn [of_lanes].
  - rewrite Z.bits_0. destruct (Z.to_nat (j / w)); by rewrite Z.bits_0.
  - rewrite Z.lor_spec, wrap_testbit, Z.shiftl_spec by lia.
    destruct (Z.ltb_spec j w).
    + rewrite Z.div_small, Z.mod_small by lia. cbn [andb nth Z.to_nat].
      rewrite (Z.testbit_neg_r _ (j - w)) by lia. apply orb_false_r.
    + cbn [andb orb]. rewrite IH by lia.
      assert (Hd : j / w = (j - w) / w + 1).
      { replace j with ((j - w) + 1 * w) at 1 by lia. apply Z.div_add. lia. }
      assert (Hm : (j - w) mod w = j mod w).
      { replace (j - w) with (j + (-1) * w) by lia. apply Z.mod_add. lia. }
      rewrite Hd, Hm. assert (0 <= (j - w) / w) by (apply Z.div_pos; lia).
      rewrite Z2Nat.inj_add, Nat.add_comm by lia. done.
Qed.

(** Lane [i] of a vector built from lanes. *)
Lemma of_lanes_lane w l i : 0 < w ->
  wrap w (Z.shiftr (of_lanes w l) (w * Z.of_nat i)) = wrap w (nth i l 0).
Proof.
  intros Hw. apply Z.bits_inj'. intros j Hj. rewrite !wrap_testbit by lia.
  rewrite Z.shiftr_spec by done. destruct (Z.ltb_spec j w); [|done]. cbn [andb].
  rewrite of_lanes_testbit by lia.
  replace ((j + w * Z.of_nat i) / w) with (Z.of_nat i)
    by (rewrite Z.mul_comm, Z.div_add, Z.div_small by lia; lia).
  replace ((j + w * Z.of_nat i) mod w) with j
    by (rewrite Z.mul_comm, Z.mod_add, Z.mod_small by lia; lia).
  by rewrite Nat2Z.id.
Qed.

(** Two 128-bit values with the same 32-bit lanes are equal. *)
Lemma lanes32_inj x y : in_width 128 x -> in_width 128 y ->
  (forall i, (i < 4)%nat -> lane32 i x = lane32 i y) -> x = y.
Proof.
  intros Hx Hy H. apply Z.bits_inj'. intros j Hj.
  destruct (Z.lt_ge_cases j 128) as [Hlt|Hge].
  - specialize (H (Z.to_nat (j / 32)) ltac:(lia)). apply (f_equal (fun z => Z.testbit z (j mod 32))) in H.
    unfold lane32 in H. rewrite !lane_testbit in H by lia.
    replace (j mod 32 + 32 * Z.of_nat (Z.to_nat (j / 32))) with j in H by lia.
    rewrite (proj2 (Z.ltb_lt _ _)) in H by lia. done.
  - by rewrite !(in_width_high_bits 128).
Qed.

Lemma of_lanes_width w l n : 0 < w -> Z.of_nat (length l) * w = n -> in_width n (of_lanes w l).
Proof.
  intros Hw <-. apply in_width_of_bits; [nia|by apply of_lanes_nonneg; lia|].
  intros j Hj. rewrite of_lanes_testbit by (nia || lia).
  rewrite nth_overflow; [apply Z.bits_0|].
  assert (Z.of_nat (length l) <= j / w) by (apply Z.div_le_lower_bound; lia). lia.
Qed.

(** ** 32-bit lanes of the operations *)

Definition words (x : m128) : list Z := [lane32 0 x; lane32 1 x; lane32 2 x; lane32 3 x].

Lemma lane32_width i x : in_width 32 (lane32 i x).
Proof. apply wrap_in_width. lia. Qed.

Lemma lane32_of_lanes i l : lane32 i (of_lanes 32 l) = w32 (nth i l 0).
Proof. by apply of_lanes_lane. Qed.

Lemma lane32_xor i x y : lane32 i (mm_xor_si128 x y) = Z.lxor (lane32 i x) (lane32 i y).
Proof.
  apply Z.bits_inj'. intros j Hj. unfold lane32, mm_xor_si128.
  rewrite Z.lxor_spec, !lane_testbit, Z.lxor_spec by lia.
  by destruct (j <? 32).
Qed.

Lemma lane32_slli4 i x : (i < 4)%nat ->
  lane32 i (mm_slli_si128 x 4) = match i with O => 0 | S i => lane32 i x end.
Proof.
  intros Hi. apply Z.bits_inj'. intros j Hj. unfold lane32, mm_slli_si128.
  rewrite lane_testbit, wrap_testbit, Z.shiftl_spec by lia.
  destruct i as [|i].
  - rewrite Z.bits_0. destruct (Z.ltb_spec j 32); [|done].
    rewrite (Z.testbit_neg_r x) by lia. by rewrite !andb_false_r.
  - rewrite lane_testbit by lia. destruct (Z.ltb_spec j 32); [|done].
    rewrite (proj2 (Z.ltb_lt _ 128)) by lia. cbn [andb]. f_equal. lia.
Qed.

Lemma lane32_slli4_0 x : lane32 0 (mm_slli_si128 x 4) = 0.
Proof. by rewrite lane32_slli4 by lia. Qed.
Lemma lane32_slli4_1 x : lane32 1 (mm_slli_si128 x 4) = lane32 0 x.
Proof. by rewrite lane32_slli4 by lia. Qed.
Lemma lane32_slli4_2 x : lane32 2 (mm_slli_si128 x 4) = lane32 1 x.
Proof. by rewrite lane32_slli4 by lia. Qed.
Lemma lane32_slli4_3 x : lane32 3 (mm_slli_si128 x 4) = lane32 2 x.
Proof. by rewrite lane32_slli4 by lia. Qed.

Create HintDb lanes.
#[export] Hint Rewrite lane32_xor lane32_slli4_0 lane32_slli4_1 lane32_slli4_2 lane32_slli4_3
  Z.lxor_0_r Z.lxor_0_l : lanes.

Lemma lane32_shuffle i x imm : (i < 4)%nat ->
  lane32 i (mm_shuffle_epi32 x imm) = lane32 (imm_sel imm i) x.
Proof.
  intros Hi. unfold mm_shuffle_epi32. rewrite lane32_of_lanes.
  do 4 (destruct i as [|i]; [apply wrap_small, lane32_width|]). lia.
Qed.

Lemma words_inj x : in_width 128 x -> of_lanes 32 (words x) = x.
Proof.
  intros Hx. apply lanes32_inj; [by apply of_lanes_width|done|].
  intros i Hi. rewrite lane32_of_lanes. do 4 (destruct i as [|i]; [apply wrap_small, lane32_width|]). lia.
Qed.

Lemma xor_width x y : in_width 128 x -> in_width 128 y -> in_width 128 (mm_xor_si128 x y).
Proof. intros. by apply lxor_in_width. Qed.
Lemma slli_width x n : in_width 128 (mm_slli_si128 x n).
Proof. apply wrap_in_width. lia. Qed.
Lemma shuffle_width x imm : in_width 128 (mm_shuffle_epi32 x imm).
Proof. by apply of_lanes_width. Qed.
Lemma shuffle_pd_width x y imm : in_width 128 (mm_shuffle_pd x y imm).
Proof. by apply of_lanes_width. Qed.
Lemma loadu_width s : in_width 128 (mm_loadu_si128 s).
Proof. by apply of_lanes_width. Qed.

#[export] Hint Resolve lane32_width xor_width slli_width shuffle_width shuffle_pd_width loadu_width : width.

(** 64-bit lanes are pairs of 32-bit lanes. *)
Lemma lane32_of_lane64 i x : (i < 4)%nat ->
  lane32 i x = w32 (Z.shiftr (lane64 (i / 2) x) (32 * Z.of_nat (i mod 2))).
Proof.
  intros Hi. apply Z.bits_inj'. intros j Hj. unfold lane32, lane64.
  rewrite !lane_testbit by lia.
  destruct (Z.ltb_spec j 32); [|done]. rewrite (proj2 (Z.ltb_lt _ 64)) by lia. cbn [andb]. f_equal. lia.
Qed.

Lemma lane64_of_lanes i l : lane64 i (of_lanes 64 l) = w64 (nth i l 0).
Proof. by apply of_lanes_lane. Qed.

Lemma lane64_wrap i x : w64 (lane64 i x) = lane64 i x.
Proof. apply wrap_idemp. Qed.

Lemma words_shuffle_pd x y imm :
  words (mm_shuffle_pd x y imm) =
  (if Z.testbit imm 0 then [lane32 2 x; lane32 3 x] else [lane32 0 x; lane32 1 x]) ++
  (if Z.testbit imm 1 then [lane32 2 y; lane32 3 y] else [lane32 0 y; lane32 1 y]).
Proof.
  unfold words, mm_shuffle_pd.
  rewrite !(lane32_of_lane64 _ (of_lanes _ _)) by lia. rewrite !lane64_of_lanes. cbn [Nat.div Nat.divmod fst nth].
  rewrite !(lane32_of_lane64 _ x), !(lane32_of_lane64 _ y) by lia.
  destruct (Z.testbit imm 0), (Z.testbit imm 1); rewrite !lane64_wrap; reflexivity.
Qed.

(** The lanes of a loaded block are its little-endian words. *)
Lemma dec32le_lanes s : Forall byte_ok s -> br_dec32le s = of_lanes 8 (byte_at s <$> seq 0 4).
Proof.
  intros Hs. pose proof (fun i => byte_at_ok s i Hs) as Hb. unfold byte_ok in Hb.
  unfold br_dec32le. cbn [fmap list_fmap seq of_lanes].
  rewrite !(wrap_small 8) by (unfold in_width; apply Hb).
  rewrite !wrap_small by (unfold in_width; rewrite Z.shiftl_mul_pow2 by lia;
    pose proof (Hb 0%nat); pose proof (Hb 1%nat); pose proof (Hb 2%nat); pose proof (Hb 3%nat); lia).
  rewrite !Z.shiftl_lor, !Z.shiftl_shiftl, Z.shiftl_0_l by lia. rewrite Z.lor_0_r, !Z.lor_assoc. done.
Qed.

Lemma byte_at_drop k s i : byte_at (drop k s) i = byte_at s (k + i).
Proof. unfold byte_at. by rewrite !nth_lookup, lookup_drop. Qed.

Lemma nth_fmap_seq (f : nat -> Z) n k : (k < n)%nat -> nth k (f <$> seq 0 n) 0 = f k.
Proof. intros Hk. apply nth_lookup_Some. by rewrite list_lookup_fmap, lookup_seq_lt by lia. Qed.

Lemma lane32_load s i : (i < 4)%nat -> Forall byte_ok s ->
  lane32 i (mm_loadu_si128 s) = br_dec32le (drop (4 * i) s).
Proof.
  intros Hi Hs. rewrite dec32le_lanes by (by apply Forall_drop).
  apply Z.bits_inj'. intros j Hj. unfold lane32, mm_loadu_si128.
  rewrite lane_testbit, !of_lanes_testbit by lia.
  destruct (Z.ltb_spec j 32) as [Hlt|Hge]; cbn [andb].
  - rewrite !nth_fmap_seq by lia. rewrite byte_at_drop. f_equal; [f_equal|]; lia.
  - rewrite nth_overflow; [by rewrite Z.bits_0|]. rewrite length_fmap, length_seq. lia.
Qed.

Lemma words_load s : Forall byte_ok s ->
  words (mm_loadu_si128 s) = [br_dec32le s; br_dec32le (drop 4 s); br_dec32le (drop 8 s); br_dec32le (drop 12 s)].
Proof. intros Hs. unfold words. by rewrite !lane32_load by (done || lia). Qed.

(** Storing a loaded block gives its bytes back. *)
Lemma lane8_of_lanes i l : lane8 i (of_lanes 8 l) = w8 (nth i l 0).
Proof. by apply of_lanes_lane. Qed.

Lemma store_load s : length s = 16%nat -> Forall byte_ok s -> mm_storeu_si128 (mm_loadu_si128 s) = s.
Proof.
  intros Hl Hs. unfold mm_storeu_si128, mm_loadu_si128.
  apply (list_eq_same_length _ _ 16); [done|done|].
  intros i x y Hi Hx Hy. apply list_lookup_fmap_Some in Hx as (k & -> & Hk).
  apply lookup_seq in Hk as [-> _]. cbn [Nat.add].
  rewrite lane8_of_lanes, nth_fmap_seq by lia. unfold byte_at. rewrite (nth_lookup_Some _ _ _ _ Hy).
  apply wrap_small. exact (Forall_lookup_1 _ _ _ _ Hs Hy).
Qed.

Lemma lane8_testbit i x j : 0 <= j < 8 -> Z.testbit (lane8 i x) j = Z.testbit x (j + 8 * Z.of_nat i).
Proof. intros Hj. unfold lane8. rewrite lane_testbit by lia. by rewrite (proj2 (Z.ltb_lt _ _)) by lia. Qed.

Lemma load_store x : in_width 128 x -> mm_loadu_si128 (mm_storeu_si128 x) = x.
Proof.
  intros Hx. unfold mm_loadu_si128, mm_storeu_si128. apply Z.bits_inj'. intros j Hj.
  destruct (Z.lt_ge_cases j 128).
  - rewrite of_lanes_testbit, nth_fmap_seq by lia. unfold byte_at. rewrite nth_fmap_seq by lia.
    rewrite lane8_testbit by lia. f_equal. lia.
  - rewrite !(in_width_high_bits 128); [done|done|done|by apply of_lanes_width|done].
Qed.

Lemma storeu_length x : length (mm_storeu_si128 x) = 16%nat.
Proof. done. Qed.

Lemma storeu_ok x : Forall byte_ok (mm_storeu_si128 x).
Proof. apply Forall_fmap, Forall_forall. intros i _. apply w8_ok. Qed.
