(* ===== verification/ObliMove.v ===== *)
(** * Branch-free moves and swaps (osort/common/mov_intrinsics.hpp)

    [obliMove] and [obliSwap] work on the bytes of their operands, in pieces of
    32, 16, 8, 4, 2 and 1 bytes, with vector blends and conditional moves and
    no branch on the condition.  Which vector instructions are used depends on
    the processor: [avx512] says whether [__AVX512VL__] is defined; AVX2 and
    SSE2 are there in both builds.  The file shows that a swap of the bytes is
    [condSwap] of the values, which the sorting networks use. *)
From S2P Require Import Prelude Inner Hash Simd.
Local Open Scope Z_scope.

(** ** Words of any width, and the vector instructions *)

Definition loadu (n : nat) (s : bytes) : Z := of_lanes 8 (byte_at s <$> seq 0 n).
Definition storeu (n : nat) (x : Z) : bytes := (fun i => lane8 i x) <$> seq 0 n.

(** [_mm_mask_blend_pd], [_mm256_mask_blend_pd] and [_mm512_mask_mov_epi64], on
    [n] lanes: bit [j] of the mask chooses lane [j] of [b]. *)
Definition mask_blend (n : nat) (k a b : Z) : Z :=
  of_lanes 64 ((fun j => if Z.testbit k (Z.of_nat j) then lane64 j b else lane64 j a) <$> seq 0 n).

(** [_mm256_blendv_epi8]: the top bit of byte [j] of the mask. *)
Definition blendv_epi8 (n : nat) (a b mask : Z) : Z :=
  of_lanes 8 ((fun j => if Z.testbit (lane8 j mask) 7 then lane8 j b else lane8 j a) <$> seq 0 n).

(** The [_set1_] instructions: [n] lanes of [w] bits. *)
Definition set1 (w : Z) (n : nat) (a : Z) : Z := of_lanes w (replicate n a).

(** [_mm_andnot_si128]: the complement of the first operand within 128 bits. *)
Definition mm_andnot_si128 (x y : Z) : Z := Z.land (Z.lxor x (Z.ones 128)) y.

(** ** Conditional moves of words *)

(** [test] and [cmovnz]. *)
Definition CMOV8_internal (cond guy1 guy2 : Z) : Z := if cond =? 0 then guy1 else guy2.
Definition CMOV4_internal (cond guy1 guy2 : Z) : Z := if cond =? 0 then guy1 else guy2.

Definition CMOV1 (cond : bool) (val1 val2 : Z) : Z :=
  let r1 := Z.lor 0 val1 in let r2 := Z.lor 0 val2 in
  Z.land (CMOV4_internal (Z.b2z cond) r1 r2) 0xff.
Definition CMOV2 (cond : bool) (val1 val2 : Z) : Z :=
  let r1 := Z.lor 0 val1 in let r2 := Z.lor 0 val2 in
  Z.land (CMOV4_internal (Z.b2z cond) r1 r2) 0xffff.
Definition CMOV4 (cond : bool) (val1 val2 : Z) : Z := CMOV4_internal (Z.b2z cond) val1 val2.
Definition CMOV8 (cond : bool) (val1 val2 : Z) : Z := CMOV8_internal (Z.b2z cond) val1 val2.

(** The new [A], then the new [B] from the copy of the old [A]. *)
Definition CXCHG1 (cond : bool) (A B : Z) : Z * Z := let C := A in let A := CMOV1 cond A B in (A, CMOV1 cond B C).
Definition CXCHG2 (cond : bool) (A B : Z) : Z * Z := let C := A in let A := CMOV2 cond A B in (A, CMOV2 cond B C).
Definition CXCHG4 (cond : bool) (A B : Z) : Z * Z := let C := A in let A := CMOV4 cond A B in (A, CMOV4 cond B C).
Definition CXCHG8 (cond : bool) (A B : Z) : Z * Z := let C := A in let A := CMOV8 cond A B in (A, CMOV8 cond B C).

(** ** Swaps and moves of vectors *)

(** [(__mmask8)(!cond) - 1] as a mask of eight bits. *)
Definition blend_mask (cond : bool) : Z := w8 (Z.b2z (negb cond) - 1).

(** The swap of [8 * n] bytes: two blends, or an exclusive or under a mask of
    [k] lanes of [w] bits. *)
Definition swap_vector (avx512 : bool) (n : nat) (w : Z) (k : nat) (cond : bool) (x y : Z) : Z * Z :=
  if avx512 then (mask_blend n (blend_mask cond) x y, mask_blend n (blend_mask cond) y x)
  else
    let mask := set1 w k (wrap w (- Z.b2z cond)) in
    let temp := Z.land (Z.lxor x y) mask in
    (Z.lxor x temp, Z.lxor y temp).

Definition swap256 (avx512 cond : bool) (x y : Z) : Z * Z := swap_vector avx512 4 32 8 cond x y.
Definition swap128 (avx512 cond : bool) (x y : Z) : Z * Z := swap_vector avx512 2 16 8 cond x y.

Definition move512 (cond : bool) (x y : Z) : Z := mask_blend 8 (blend_mask cond) x y.
Definition move256 (cond : bool) (x y : Z) : Z := blendv_epi8 32 x y (set1 64 4 (w64 (- Z.b2z cond))).
Definition move128 (cond : bool) (x y : Z) : Z :=
  let mask := set1 64 2 (w64 (- Z.b2z cond)) in
  Z.lor (Z.land mask y) (mm_andnot_si128 mask x).

(** ** Memory *)

(** An operation on the [n] bytes at offset [o] of two objects. *)
Definition at_both (n : nat) (f : Z -> Z -> Z * Z) (o : nat) (vs : bytes * bytes) : bytes * bytes :=
  let '(x, y) := f (loadu n (drop o vs.1)) (loadu n (drop o vs.2)) in
  (memcpy_at o (storeu n x) vs.1, memcpy_at o (storeu n y) vs.2).
Definition at_dest (n : nat) (f : Z -> Z -> Z) (o : nat) (src dest : bytes) : bytes :=
  memcpy_at o (storeu n (f (loadu n (drop o dest)) (loadu n (drop o src)))) dest.

(** [CXCHG_internal<sz>] for [sz < 64], on the objects at offset [o]; the
    offsets are scaled by the size of the type of the pointer. *)
Definition CXCHG_small (avx512 : bool) (sz : nat) (cond : bool) (o : nat) (vs : bytes * bytes) : bytes * bytes :=
  let vs := if (32 <=? sz)%nat then at_both 32 (swap256 avx512 cond) o vs else vs in
  let vs := if (16 <=? sz mod 32)%nat then at_both 16 (swap128 avx512 cond) (o + 8 * (4 * (sz / 32))) vs else vs in
  let vs := if (8 <=? sz mod 16)%nat then at_both 8 (CXCHG8 cond) (o + 8 * (2 * (sz / 16))) vs else vs in
  let vs := if (4 <=? sz mod 8)%nat then at_both 4 (CXCHG4 cond) (o + 4 * (2 * (sz / 8))) vs else vs in
  let vs := if (2 <=? sz mod 4)%nat then at_both 2 (CXCHG2 cond) (o + 2 * (2 * (sz / 4))) vs else vs in
  if (1 <=? sz mod 2)%nat then at_both 1 (CXCHG1 cond) (o + 2 * (sz / 2)) vs else vs.

Definition CXCHG_internal (avx512 : bool) (sz : nat) (cond : bool) (o : nat) (vs : bytes * bytes) : bytes * bytes :=
  if (sz =? 64)%nat then CXCHG_small avx512 32 cond (o + 32) (CXCHG_small avx512 32 cond o vs)
  else CXCHG_small avx512 sz cond o vs.

Definition CMOV_small (sz : nat) (cond : bool) (o : nat) (src dest : bytes) : bytes :=
  let dest := if (32 <=? sz)%nat then at_dest 32 (move256 cond) o src dest else dest in
  let dest := if (16 <=? sz mod 32)%nat then at_dest 16 (move128 cond) (o + 8 * (4 * (sz / 32))) src dest else dest in
  let dest := if (8 <=? sz mod 16)%nat then at_dest 8 (CMOV8 cond) (o + 8 * (2 * (sz / 16))) src dest else dest in
  let dest := if (4 <=? sz mod 8)%nat then at_dest 4 (CMOV4 cond) (o + 4 * (2 * (sz / 8))) src dest else dest in
  let dest := if (2 <=? sz mod 4)%nat then at_dest 2 (CMOV2 cond) (o + 2 * (2 * (sz / 4))) src dest else dest in
  if (1 <=? sz mod 2)%nat then at_dest 1 (CMOV1 cond) (o + 2 * (sz / 2)) src dest else dest.

Definition CMOV_internal (avx512 : bool) (sz : nat) (cond : bool) (o : nat) (src dest : bytes) : bytes :=
  if (sz =? 64)%nat then
    if avx512 then at_dest 64 (move512 cond) o src dest
    else CMOV_small 32 cond (o + 32) src (CMOV_small 32 cond o src dest)
  else CMOV_small sz cond o src dest.

(** [sizeofT / 64] pieces of 64 bytes, and the rest. *)
Definition obliSwap (avx512 : bool) (sizeofT : nat) (mov : bool) (guy1 guy2 : bytes) : bytes * bytes :=
  let vs := fold_left (fun vs i => CXCHG_internal avx512 64 mov (64 * i) vs) (seq 0 (sizeofT / 64)) (guy1, guy2) in
  let rem_size := (sizeofT mod 64)%nat in
  if (0 <? rem_size)%nat then CXCHG_internal avx512 rem_size mov (64 * (sizeofT / 64)) vs else vs.

Definition obliMove (avx512 : bool) (sizeofT : nat) (mov : bool) (dest src : bytes) : bool * bytes :=
  let dest := fold_left (fun dest i => CMOV_internal avx512 64 mov (64 * i) src dest) (seq 0 (sizeofT / 64)) dest in
  let rem_size := (sizeofT mod 64)%nat in
  (mov, if (0 <? rem_size)%nat then CMOV_internal avx512 rem_size mov (64 * (sizeofT / 64)) src dest else dest).

(** ** Words: proofs *)

Lemma load_word_width n s : in_width (8 * Z.of_nat n) (loadu n s).
Proof. apply of_lanes_width; [lia|]. rewrite length_fmap, length_seq. lia. Qed.

Lemma storeu_loadu n s : Forall byte_ok s -> (n <= length s)%nat -> storeu n (loadu n s) = take n s.
Proof.
  intros Hs Hn. apply (list_eq_same_length _ _ n); [by rewrite length_take_le|by unfold storeu; rewrite length_fmap, length_seq|].
  intros i x y Hi Hx Hy. unfold storeu in Hx. rewrite list_lookup_fmap, lookup_seq_lt in Hx by done. injection Hx as <-.
  rewrite lookup_take_lt in Hy by done. unfold loadu. rewrite lane8_of_lanes, nth_fmap_seq by done. unfold byte_at. cbn [Nat.add].
  rewrite (nth_lookup_Some _ _ _ _ Hy). apply wrap_small. rewrite Forall_forall in Hs. apply Hs. by eapply list_elem_of_lookup_2.
Qed.

(** The lanes of a word make the word. *)
Lemma of_lanes_all w n x : 0 < w -> in_width (w * Z.of_nat n) x ->
  of_lanes w ((fun j => wrap w (Z.shiftr x (w * Z.of_nat j))) <$> seq 0 n) = x.
Proof.
  intros Hw Hx. apply Z.bits_inj'. intros j Hj. rewrite of_lanes_testbit by done.
  pose proof (Z.div_mod j w ltac:(lia)). pose proof (Z.mod_pos_bound j w Hw).
  destruct (Z.lt_ge_cases j (w * Z.of_nat n)) as [Hlt|Hge].
  - assert (0 <= j / w < Z.of_nat n) by (split; [by apply Z.div_pos|by apply Z.div_lt_upper_bound]).
    rewrite nth_fmap_seq by lia. rewrite lane_testbit, (proj2 (Z.ltb_lt _ _)) by lia. cbn [andb]. f_equal. lia.
  - assert (Z.of_nat n <= j / w) by (apply Z.div_le_lower_bound; lia).
    rewrite nth_overflow by (rewrite length_fmap, length_seq; lia). rewrite Z.bits_0.
    symmetry. by eapply in_width_high_bits.
Qed.

Lemma of_lanes_ext w n (f g : nat -> Z) : (forall j, (j < n)%nat -> f j = g j) ->
  of_lanes w (f <$> seq 0 n) = of_lanes w (g <$> seq 0 n).
Proof. intros H. f_equal. apply list_fmap_ext. intros i x [-> Hi]%lookup_seq. by apply H. Qed.

Lemma mask_blend_spec n cond x y : (n <= 8)%nat -> in_width (64 * Z.of_nat n) x -> in_width (64 * Z.of_nat n) y ->
  mask_blend n (blend_mask cond) x y = if cond then y else x.
Proof.
  intros Hn Hx Hy. unfold mask_blend. destruct cond.
  - transitivity (of_lanes 64 ((fun j => lane64 j y) <$> seq 0 n)); [|by apply (of_lanes_all 64 n)]. apply of_lanes_ext. intros j Hj.
    assert (Z.testbit (blend_mask true) (Z.of_nat j) = true) as -> by (do 8 (destruct j as [|j]; [reflexivity|]); lia). done.
  - transitivity (of_lanes 64 ((fun j => lane64 j x) <$> seq 0 n)); [|by apply (of_lanes_all 64 n)]. apply of_lanes_ext. intros j Hj.
    assert (Z.testbit (blend_mask false) (Z.of_nat j) = false) as -> by (do 8 (destruct j as [|j]; [reflexivity|]); lia). done.
Qed.

(** A mask of lanes that are all ones or all zeros. *)
Lemma set1_spec w n (cond : bool) : 0 < w -> set1 w n (wrap w (- Z.b2z cond)) = if cond then Z.ones (w * Z.of_nat n) else 0.
Proof.
  intros Hw. apply Z.bits_inj'. intros j Hj. unfold set1. rewrite of_lanes_testbit by done.
  pose proof (Z.mod_pos_bound j w Hw). pose proof (Z.div_mod j w ltac:(lia)).
  destruct (Z.lt_ge_cases j (w * Z.of_nat n)) as [Hlt|Hge].
  - assert (0 <= j / w < Z.of_nat n) by (split; [by apply Z.div_pos|by apply Z.div_lt_upper_bound]).
    rewrite nth_lookup, lookup_replicate_2 by lia. cbn [from_option id]. rewrite wrap_testbit, (proj2 (Z.ltb_lt _ _)) by lia. cbn [andb].
    destruct cond; cbn [Z.b2z Z.opp]; [rewrite Z.ones_spec_low by lia; by rewrite Z.bits_m1 by lia|by rewrite !Z.bits_0].
  - assert (Z.of_nat n <= j / w) by (apply Z.div_le_lower_bound; lia).
    rewrite nth_overflow by (rewrite length_replicate; lia). rewrite Z.bits_0.
    destruct cond; [by rewrite Z.ones_spec_high by lia|by rewrite Z.bits_0].
Qed.

Lemma land_ones w x : 0 <= w -> in_width w x -> Z.land x (Z.ones w) = x.
Proof. intros Hw Hx. rewrite Z.land_ones by done. by apply Z.mod_small. Qed.

Lemma xor_swap x y : Z.lxor x (Z.lxor x y) = y /\ Z.lxor y (Z.lxor x y) = x.
Proof.
  split; [|rewrite (Z.lxor_comm x y)]; by rewrite <-Z.lxor_assoc, Z.lxor_nilpotent, Z.lxor_0_l.
Qed.

Lemma swap_vector_spec avx512 n w k cond x y : (n <= 8)%nat -> 0 < w -> w * Z.of_nat k = 64 * Z.of_nat n ->
  in_width (64 * Z.of_nat n) x -> in_width (64 * Z.of_nat n) y ->
  swap_vector avx512 n w k cond x y = condSwap cond x y.
Proof.
  intros Hn Hw Hk Hx Hy. unfold swap_vector, condSwap. destruct avx512.
  - rewrite !mask_blend_spec by done. by destruct cond.
  - rewrite set1_spec, Hk by done. destruct cond; [|by rewrite Z.land_0_r, !Z.lxor_0_r].
    rewrite land_ones by (lia || (apply lxor_in_width; done || lia)). destruct (xor_swap x y) as [E1 E2]. by rewrite E1, E2.
Qed.

Lemma blendv_spec cond x y : in_width 256 x -> in_width 256 y -> move256 cond x y = if cond then y else x.
Proof.
  intros Hx Hy. unfold move256, blendv_epi8. rewrite set1_spec by lia. destruct cond.
  - transitivity (of_lanes 8 ((fun j => lane8 j y) <$> seq 0 32)); [|by apply (of_lanes_all 8 32)]. apply of_lanes_ext. intros j Hj.
    rewrite lane8_testbit, Z.ones_spec_low by lia. done.
  - transitivity (of_lanes 8 ((fun j => lane8 j x) <$> seq 0 32)); [|by apply (of_lanes_all 8 32)]. apply of_lanes_ext. intros j Hj.
    unfold lane8 at 1. rewrite Z.shiftr_0_l. done.
Qed.

Lemma move128_spec cond x y : in_width 128 x -> in_width 128 y -> move128 cond x y = if cond then y else x.
Proof.
  intros Hx Hy. unfold move128, mm_andnot_si128. rewrite set1_spec by lia. change (64 * Z.of_nat 2) with 128. destruct cond.
  - rewrite Z.lxor_nilpotent, Z.land_0_l, Z.lor_0_r, Z.land_comm. by apply land_ones.
  - rewrite Z.land_0_l, Z.lor_0_l, Z.lxor_0_l, Z.land_comm. by apply land_ones.
Qed.

(** The conditional moves of words of one to eight bytes. *)
Lemma CMOV_words cond x y :
  (in_width 8 x -> in_width 8 y -> CMOV1 cond x y = if cond then y else x) /\
  (in_width 16 x -> in_width 16 y -> CMOV2 cond x y = if cond then y else x) /\
  CMOV4 cond x y = (if cond then y else x) /\ CMOV8 cond x y = (if cond then y else x).
Proof.
  unfold CMOV1, CMOV2, CMOV4, CMOV8, CMOV4_internal, CMOV8_internal. rewrite !Z.lor_0_l. split_and!; [| |by destruct cond..]; intros Hx Hy.
  - change 255 with (Z.ones 8). destruct cond; cbn [Z.b2z Z.eqb]; by apply land_ones.
  - change 65535 with (Z.ones 16). destruct cond; cbn [Z.b2z Z.eqb]; by apply land_ones.
Qed.

Lemma CXCHG_words cond x y :
  (in_width 8 x -> in_width 8 y -> CXCHG1 cond x y = condSwap cond x y) /\
  (in_width 16 x -> in_width 16 y -> CXCHG2 cond x y = condSwap cond x y) /\
  CXCHG4 cond x y = condSwap cond x y /\ CXCHG8 cond x y = condSwap cond x y.
Proof.
  unfold CXCHG1, CXCHG2, CXCHG4, CXCHG8, condSwap.
  destruct (CMOV_words cond x y) as (A1 & A2 & A3 & A4), (CMOV_words cond y x) as (B1 & B2 & B3 & B4).
  split_and!; intros; rewrite ?A1, ?A2, ?A3, ?A4, ?B1, ?B2, ?B3, ?B4 by done; by destruct cond.
Qed.

(** ** Memory: proofs *)

Lemma drop_part m (x y : bytes) : (m <= length x)%nat -> drop m (take m x ++ drop m y) = drop m y.
Proof. intros Hm. rewrite drop_app_length'; [done|]. rewrite length_take. lia. Qed.

Lemma take_slice m n (x y : bytes) : (m + n <= length x)%nat ->
  memcpy_at m (take n (drop m x)) (take m x ++ drop m y) = take (m + n) x ++ drop (m + n) y.
Proof.
  intros Hm. unfold memcpy_at. rewrite take_app_length' by (rewrite length_take; lia).
  rewrite length_take, length_drop.
  replace (m + n `min` (length x - m))%nat with (m + n)%nat by lia.
  rewrite drop_app_ge by (rewrite length_take; lia). rewrite length_take, drop_drop.
  replace (m + (m + n - m `min` length x))%nat with (m + n)%nat by lia.
  rewrite app_assoc. f_equal. apply take_take_drop.
Qed.

Lemma memcpy_same m n (x : bytes) : (m + n <= length x)%nat -> memcpy_at m (take n (drop m x)) x = x.
Proof.
  intros H. unfold memcpy_at. rewrite length_take, length_drop. replace (m + n `min` (length x - m))%nat with (m + n)%nat by lia.
  by rewrite app_assoc, take_take_drop, take_drop.
Qed.

(** One stage of the chain of sizes: [n] bytes when [sz mod (2 * n)] has them. *)
Lemma stage {A} (part : nat -> A) (op : nat -> A -> A) n m off o sz :
  m = (2 * n)%nat -> (0 < n)%nat -> off = (o + m * (sz / m))%nat ->
  ((off + n <= o + sz)%nat -> op off (part off) = part (off + n)%nat) ->
  (if (n <=? sz mod m)%nat then op off (part (o + m * (sz / m))%nat) else part (o + m * (sz / m))%nat) = part (o + n * (sz / n))%nat.
Proof.
  intros -> Hn -> Hop. pose proof (Nat.div_mod_eq sz (2 * n)). pose proof (Nat.mod_upper_bound sz (2 * n) ltac:(lia)).
  assert (E : (n * (sz / n) = 2 * n * (sz / (2 * n)) + if (n <=? sz mod (2 * n))%nat then n else 0)%nat).
  { destruct (n <=? sz mod (2 * n))%nat eqn:Eb.
    - rewrite <-(Nat.div_unique sz n (2 * (sz / (2 * n)) + 1) (sz mod (2 * n) - n)); nia.
    - rewrite <-(Nat.div_unique sz n (2 * (sz / (2 * n))) (sz mod (2 * n))); nia. }
  rewrite E. destruct (n <=? sz mod (2 * n))%nat eqn:Eb; [|f_equal; lia]. rewrite Hop by lia. f_equal. lia.
Qed.

Section ranges.
Context (cond : bool) (b1 b2 : bytes) (L : nat).
Hypotheses (H1 : length b1 = L) (H2 : length b2 = L) (O1 : Forall byte_ok b1) (O2 : Forall byte_ok b2).

(** The two objects when their first [m] bytes are done. *)
Definition swapped (m : nat) : bytes * bytes :=
  if cond then (take m b2 ++ drop m b1, take m b1 ++ drop m b2) else (b1, b2).
Definition moved (m : nat) : bytes := if cond then take m b2 ++ drop m b1 else b1.

(** An operation that swaps words swaps the next [n] bytes. *)
Lemma at_both_spec n f o : (o + n <= L)%nat ->
  (forall x y, in_width (8 * Z.of_nat n) x -> in_width (8 * Z.of_nat n) y -> f x y = condSwap cond x y) ->
  at_both n f o (swapped o) = swapped (o + n).
Proof using H1 H2 O1 O2.
  intros Ho Hf. unfold at_both, swapped. rewrite Hf by apply load_word_width. unfold condSwap.
  destruct cond; cbn [fst snd].
  - rewrite !drop_part by (done || lia). rewrite !storeu_loadu by ((by apply Forall_drop) || (rewrite length_drop; lia)).
    by rewrite !take_slice by (done || lia).
  - rewrite !storeu_loadu by ((by apply Forall_drop) || (rewrite length_drop; lia)). by rewrite !memcpy_same by lia.
Qed.

Lemma at_dest_spec n f o : (o + n <= L)%nat ->
  (forall x y, in_width (8 * Z.of_nat n) x -> in_width (8 * Z.of_nat n) y -> f x y = if cond then y else x) ->
  at_dest n f o b2 (moved o) = moved (o + n).
Proof using H1 H2 O1 O2.
  intros Ho Hf. unfold at_dest, moved. rewrite Hf by apply load_word_width. destruct cond.
  - rewrite storeu_loadu by ((by apply Forall_drop) || (rewrite length_drop; lia)). apply take_slice. lia.
  - rewrite storeu_loadu by ((by apply Forall_drop) || (rewrite length_drop; lia)). by rewrite memcpy_same by lia.
Qed.

Ltac bytes_step := match goal with
  | |- at_both _ _ _ _ = _ => apply at_both_spec
  | |- at_dest _ _ _ _ _ = _ => apply at_dest_spec
  end; [lia|]; intros x y Hx Hy; destruct (CXCHG_words cond x y) as (X1 & X2 & X3 & X4), (CMOV_words cond x y) as (M1 & M2 & M3 & M4);
  first [apply swap_vector_spec; exact Hx || exact Hy || lia | by apply blendv_spec | by apply move128_spec | apply mask_blend_spec; exact Hx || exact Hy || lia | by auto].

Lemma CXCHG_small_spec avx512 sz o : (sz < 64)%nat -> (o + sz <= L)%nat ->
  CXCHG_small avx512 sz cond o (swapped o) = swapped (o + sz).
Proof using H1 H2 O1 O2.
  intros Hsz Ho. unfold CXCHG_small.
  pose proof (stage swapped (fun off vs => at_both 32 (swap256 avx512 cond) off vs) 32 64 o o sz) as S.
  rewrite Nat.mod_small, Nat.div_small, Nat.mul_0_r, Nat.add_0_r in S by done.
  rewrite S; [|lia|lia|lia|intros Hle; bytes_step]. clear S.
  rewrite (stage swapped (fun off vs => at_both 16 (swap128 avx512 cond) off vs) 16 32); [|lia..|intros Hle; bytes_step].
  rewrite (stage swapped (fun off vs => at_both 8 (CXCHG8 cond) off vs) 8 16); [|lia..|intros Hle; bytes_step].
  rewrite (stage swapped (fun off vs => at_both 4 (CXCHG4 cond) off vs) 4 8); [|lia..|intros Hle; bytes_step].
  rewrite (stage swapped (fun off vs => at_both 2 (CXCHG2 cond) off vs) 2 4); [|lia..|intros Hle; bytes_step].
  rewrite (stage swapped (fun off vs => at_both 1 (CXCHG1 cond) off vs) 1 2); [|lia..|intros Hle; bytes_step].
  by rewrite Nat.div_1_r, Nat.mul_1_l.
Qed.

Lemma CMOV_small_spec sz o : (sz < 64)%nat -> (o + sz <= L)%nat -> CMOV_small sz cond o b2 (moved o) = moved (o + sz).
Proof using H1 H2 O1 O2.
  intros Hsz Ho. unfold CMOV_small.
  pose proof (stage moved (fun off d => at_dest 32 (move256 cond) off b2 d) 32 64 o o sz) as S.
  rewrite Nat.mod_small, Nat.div_small, Nat.mul_0_r, Nat.add_0_r in S by done.
  rewrite S; [|lia|lia|lia|intros Hle; bytes_step]. clear S.
  rewrite (stage moved (fun off d => at_dest 16 (move128 cond) off b2 d) 16 32); [|lia..|intros Hle; bytes_step].
  rewrite (stage moved (fun off d => at_dest 8 (CMOV8 cond) off b2 d) 8 16); [|lia..|intros Hle; bytes_step].
  rewrite (stage moved (fun off d => at_dest 4 (CMOV4 cond) off b2 d) 4 8); [|lia..|intros Hle; bytes_step].
  rewrite (stage moved (fun off d => at_dest 2 (CMOV2 cond) off b2 d) 2 4); [|lia..|intros Hle; bytes_step].
  rewrite (stage moved (fun off d => at_dest 1 (CMOV1 cond) off b2 d) 1 2); [|lia..|intros Hle; bytes_step].
  by rewrite Nat.div_1_r, Nat.mul_1_l.
Qed.

Lemma CXCHG_internal_spec avx512 sz o : (sz <= 64)%nat -> (o + sz <= L)%nat ->
  CXCHG_internal avx512 sz cond o (swapped o) = swapped (o + sz).
Proof using H1 H2 O1 O2.
  intros Hsz Ho. unfold CXCHG_internal. destruct (sz =? 64)%nat eqn:E; [|apply CXCHG_small_spec; lia].
  apply Nat.eqb_eq in E as ->. rewrite !CXCHG_small_spec by lia. f_equal. lia.
Qed.

Lemma CMOV_internal_spec avx512 sz o : (sz <= 64)%nat -> (o + sz <= L)%nat ->
  CMOV_internal avx512 sz cond o b2 (moved o) = moved (o + sz).
Proof using H1 H2 O1 O2.
  intros Hsz Ho. unfold CMOV_internal. destruct (sz =? 64)%nat eqn:E; [|apply CMOV_small_spec; lia].
  apply Nat.eqb_eq in E as ->. destruct avx512; [bytes_step|]. rewrite !CMOV_small_spec by lia. f_equal. lia.
Qed.
End ranges.

(** A loop of steps of 64 bytes, and the rest. *)
Lemma pieces {A} (part : nat -> A) (op : nat -> nat -> A -> A) (size : nat) :
  (forall sz o, (sz <= 64)%nat -> (o + sz <= size)%nat -> op sz o (part o) = part (o + sz)%nat) ->
  (let a := fold_left (fun a i => op 64%nat (64 * i)%nat a) (seq 0 (size / 64)) (part 0%nat) in
   if (0 <? size mod 64)%nat then op (size mod 64)%nat (64 * (size / 64))%nat a else a) = part size.
Proof.
  intros Hop. pose proof (Nat.div_mod_eq size 64). pose proof (Nat.mod_upper_bound size 64 ltac:(lia)).
  assert (F : forall k, (k <= size / 64)%nat -> fold_left (fun a i => op 64%nat (64 * i)%nat a) (seq 0 k) (part 0%nat) = part (64 * k)%nat).
  { induction k as [|k IH]; intros Hk; [done|]. rewrite seq_S, fold_left_app, IH by lia. cbn [fold_left Nat.add].
    rewrite Hop by lia. f_equal. lia. }
  cbv zeta. rewrite F by done. destruct (0 <? size mod 64)%nat eqn:E; [rewrite Hop by lia|]; f_equal; lia.
Qed.

(** C29: The branch-free swap and move are a swap and an assignment.  For
    objects of any size, in the builds with and without AVX-512, [obliSwap]
    exchanges all bytes of the two objects when the condition holds and
    changes nothing otherwise, so that it is [condSwap] on the representations;
    and [obliMove] copies all bytes of the source or none, and returns the
    condition. *)
Theorem obliSwap_condSwap (avx512 mov : bool) (guy1 guy2 : bytes) :
  length guy1 = length guy2 -> Forall byte_ok guy1 -> Forall byte_ok guy2 ->
  obliSwap avx512 (length guy1) mov guy1 guy2 = condSwap mov guy1 guy2 /\
  obliMove avx512 (length guy1) mov guy1 guy2 = (mov, if mov then guy2 else guy1).
Proof.
  intros L O1 O2. split.
  - transitivity (swapped mov guy1 guy2 (length guy1)).
    + rewrite <-(pieces (swapped mov guy1 guy2) (fun sz o vs => CXCHG_internal avx512 sz mov o vs) (length guy1)).
      { unfold obliSwap. by replace (swapped mov guy1 guy2 0) with (guy1, guy2) by (by destruct mov). }
      intros sz o Hs Ho. by apply (CXCHG_internal_spec mov guy1 guy2 (length guy1)).
    + unfold swapped, condSwap. destruct mov; [|done]. by rewrite L, firstn_all, drop_all, <-L, firstn_all, drop_ge, !app_nil_r by lia.
  - unfold obliMove. f_equal. transitivity (moved mov guy1 guy2 (length guy1)).
    + rewrite <-(pieces (moved mov guy1 guy2) (fun sz o d => CMOV_internal avx512 sz mov o guy2 d) (length guy1)).
      { by replace (moved mov guy1 guy2 0) with guy1 by (by destruct mov). }
      intros sz o Hs Ho. by apply (CMOV_internal_spec mov guy1 guy2 (length guy1)).
    + unfold moved. destruct mov; [|done]. by rewrite L, firstn_all, drop_ge, app_nil_r by lia.
Qed.

Lemma obliSwap_condSwap_witness :
  let a := replicate 111 1 in let b := replicate 111 2 in
  obliSwap true 111 true a b = (b, a) /\ obliMove false 111 false a b = (false, a).
Proof.
  split.
  - apply (obliSwap_condSwap true true (replicate 111 1) (replicate 111 2)); [reflexivity|by apply Forall_replicate..].
  - apply (obliSwap_condSwap false false (replicate 111 1) (replicate 111 2)); [reflexivity|by apply Forall_replicate..].
Defined.
