(* ===== verification/ObliCmp.v ===== *)
(** * Constant-time comparison of byte strings (osort/common/cmp_intrinsics.hpp)

    [obliCheckEqual] and [obliCheckLess] compare eight bytes at a time, as
    little-endian words, without leaving the loop early.  The order they give is
    lexicographic in these words, and not in the bytes; the file shows that it
    is a strict total order on byte strings of one length, which is what the
    sorts ask for. *)
From S2P Require Import Prelude Bitonic Inner Simd ObliMove.
Local Open Scope Z_scope.

(** [CE_internal<sz>] and [CL_internal<sz>], for [sz <= 8]: the first [sz] bytes
    as a word; the sizes that no type has are copied into a zeroed word. *)
Definition CE_internal (sz : nat) (a b : bytes) : bool := loadu sz a =? loadu sz b.
Definition CL_internal (sz : nat) (a b : bytes) : bool := loadu sz a <? loadu sz b.

Definition obliCheckEqual (sz : nat) (a b : bytes) : bool :=
  let res := fold_left (fun res i => res && CE_internal 8 (drop (8 * i) a) (drop (8 * i) b)) (seq 0 (sz / 8)) true in
  let rem := (sz mod 8)%nat in let last := (sz - rem)%nat in
  if (rem =? 0)%nat then res else res && CE_internal rem (drop last a) (drop last b).

(** The loop runs while [8 * i + 8 < sz]. *)
Definition obliCheckLess (sz : nat) (a b : bytes) : bool :=
  let '(eq, less) := fold_left (fun '(eq, less) i =>
      let less := less || (eq && CL_internal 8 (drop (8 * i) a) (drop (8 * i) b)) in
      (eq && CE_internal 8 (drop (8 * i) a) (drop (8 * i) b), less)) (seq 0 ((sz - 1) / 8)) (true, false) in
  let rem := ((sz - 1) mod 8 + 1)%nat in let last := (sz - rem)%nat in
  less || (eq && CL_internal rem (drop last a) (drop last b)).

(** ** Lexicographic order of words *)

Fixpoint lex_lt (x y : list Z) : bool :=
  match x, y with
  | a :: x, b :: y => (a <? b) || ((a =? b) && lex_lt x y)
  | _, _ => false
  end.

Lemma lex_lt_irrefl x : lex_lt x x = false.
Proof. induction x as [|a x IH]; [done|]. cbn [lex_lt]. rewrite IH. lia. Qed.

Lemma lex_lt_trans x : forall y z, lex_lt x y = true -> lex_lt y z = true -> lex_lt x z = true.
Proof.
  induction x as [|a x IH]; intros [|b y] [|c z]; cbn [lex_lt]; try done.
  rewrite !orb_true_iff, !andb_true_iff, !Z.ltb_lt, !Z.eqb_eq. intros [H1|[-> H1]] [H2|[-> H2]]; [left; lia|by left|by left|].
  right. split; [done|by eapply IH].
Qed.

Lemma lex_lt_total x : forall y, length x = length y -> lex_lt x y = false -> lex_lt y x = false -> x = y.
Proof.
  induction x as [|a x IH]; intros [|b y] Hl; cbn [lex_lt]; try done.
  rewrite !orb_false_iff, !andb_false_iff, !Z.ltb_ge, !Z.eqb_neq. intros [H1 H1'] [H2 H2']. assert (a = b) as -> by lia.
  f_equal. apply IH; [by injection Hl| |]; [by destruct H1'|by destruct H2'].
Qed.

Lemma lex_lt_snoc x : forall y a b, length x = length y -> lex_lt (x ++ [a]) (y ++ [b]) = lex_lt x y || (bool_decide (x = y) && (a <? b)).
Proof.
  induction x as [|c x IH]; intros [|d y] a b Hl; try done; cbn [app lex_lt].
  - by rewrite bool_decide_eq_true_2, andb_false_r, orb_false_r.
  - rewrite IH by (by injection Hl). destruct (Z.eqb_spec c d) as [->|Hne]; cbn [andb orb].
    + rewrite Z.ltb_irrefl. cbn [orb]. do 2 f_equal. apply bool_decide_ext. split; [by intros ->|by intros [=]].
    + rewrite (bool_decide_eq_false_2 (c :: x = d :: y)) by (by intros [=]). cbn [andb]. by rewrite !orb_false_r.
Qed.

(** ** The words of a string *)

Definition whole_words (n : nat) (a : bytes) : list Z := (fun i => loadu 8 (drop (8 * i) a)) <$> seq 0 n.

(** Eight bytes at a time, and one to eight bytes at the end. *)
Definition words_of (sz : nat) (a : bytes) : list Z :=
  whole_words ((sz - 1) / 8) a ++ [loadu ((sz - 1) mod 8 + 1) (drop (sz - ((sz - 1) mod 8 + 1)) a)].

Lemma whole_words_length n a : length (whole_words n a) = n.
Proof. unfold whole_words. by rewrite length_fmap, length_seq. Qed.

Lemma whole_words_S n a : whole_words (S n) a = whole_words n a ++ [loadu 8 (drop (8 * n) a)].
Proof. unfold whole_words. by rewrite seq_S, fmap_app. Qed.

Lemma whole_words_eq n a b : Forall byte_ok a -> Forall byte_ok b -> (8 * n <= length a)%nat -> length a = length b ->
  whole_words n a = whole_words n b -> take (8 * n) a = take (8 * n) b.
Proof.
  intros Ha Hb Hn Hl. induction n as [|n IH]; [done|]. rewrite !whole_words_S. intros [E H]%app_inj_2; [|done].
  assert (E1 : loadu 8 (drop (8 * n) a) = loadu 8 (drop (8 * n) b)) by congruence.
  replace (8 * S n)%nat with (8 * n + 8)%nat by lia. rewrite <-!(take_take_drop _ (8 * n) 8).
  rewrite IH by (done || lia). f_equal.
  rewrite <-!storeu_loadu by ((by apply Forall_drop) || (rewrite length_drop; lia)). by rewrite E1.
Qed.

Lemma last_word sz : (0 < sz)%nat -> (8 * ((sz - 1) / 8) = sz - ((sz - 1) mod 8 + 1))%nat /\ ((sz - 1) mod 8 + 1 <= 8)%nat.
Proof.
  intros H. pose proof (Nat.div_mod_eq (sz - 1) 8). pose proof (Nat.mod_upper_bound (sz - 1) 8 ltac:(lia)). lia.
Qed.

(** The words determine the string. *)
Lemma words_of_inj sz a b : (0 < sz)%nat -> length a = sz -> length b = sz -> Forall byte_ok a -> Forall byte_ok b ->
  words_of sz a = words_of sz b -> a = b.
Proof.
  intros Hsz La Lb Ha Hb. unfold words_of. intros [E H]%app_inj_2; [|done].
  destruct (last_word sz Hsz) as [Hw Hr]. set (rem := ((sz - 1) mod 8 + 1)%nat) in *.
  assert (E1 : loadu rem (drop (sz - rem) a) = loadu rem (drop (sz - rem) b)) by congruence.
  apply whole_words_eq in E; [|done|done|lia|lia]. rewrite Hw in E.
  rewrite <-(take_drop (sz - rem) a), <-(take_drop (sz - rem) b), E. f_equal.
  rewrite <-(firstn_all (drop (sz - rem) a)), <-(firstn_all (drop (sz - rem) b)), !length_drop, La, Lb.
  rewrite <-!storeu_loadu by ((by apply Forall_drop) || (rewrite length_drop; lia)).
  replace (sz - (sz - rem))%nat with rem by lia. by rewrite E1.
Qed.

(** ** The comparisons *)

Lemma less_loop n a b :
  fold_left (fun '(eq, less) i =>
      let less := less || (eq && CL_internal 8 (drop (8 * i) a) (drop (8 * i) b)) in
      (eq && CE_internal 8 (drop (8 * i) a) (drop (8 * i) b), less)) (seq 0 n) (true, false) =
  (bool_decide (whole_words n a = whole_words n b), lex_lt (whole_words n a) (whole_words n b)).
Proof.
  induction n as [|n IH]; [done|]. rewrite seq_S, fold_left_app, IH. cbn [fold_left Nat.add]. rewrite !whole_words_S.
  rewrite lex_lt_snoc by (by rewrite !whole_words_length). f_equal. unfold CE_internal.
  apply eq_true_iff_eq. rewrite andb_true_iff, !bool_decide_eq_true, Z.eqb_eq. split.
  - intros [-> E]. by rewrite E.
  - intros [E H]%app_inj_2; [|done]. split; [done|]. congruence.
Qed.

Lemma obliCheckLess_words sz a b : obliCheckLess sz a b = lex_lt (words_of sz a) (words_of sz b).
Proof.
  unfold obliCheckLess. rewrite less_loop. unfold words_of. by rewrite lex_lt_snoc by (by rewrite !whole_words_length).
Qed.

Lemma equal_loop n a b :
  fold_left (fun res i => res && CE_internal 8 (drop (8 * i) a) (drop (8 * i) b)) (seq 0 n) true =
  bool_decide (whole_words n a = whole_words n b).
Proof.
  induction n as [|n IH]; [done|]. rewrite seq_S, fold_left_app, IH. cbn [fold_left Nat.add]. rewrite !whole_words_S.
  unfold CE_internal. apply eq_true_iff_eq. rewrite andb_true_iff, !bool_decide_eq_true, Z.eqb_eq. split.
  - intros [-> E]. by rewrite E.
  - intros [E H]%app_inj_2; [|done]. split; [done|]. congruence.
Qed.

Lemma obliCheckEqual_spec sz a b : length a = sz -> length b = sz -> Forall byte_ok a -> Forall byte_ok b ->
  obliCheckEqual sz a b = true <-> a = b.
Proof.
  intros La Lb Ha Hb. split; [|intros ->; unfold obliCheckEqual; rewrite equal_loop, bool_decide_eq_true_2 by done;
    destruct (_ =? 0)%nat; [done|apply Z.eqb_refl]].
  unfold obliCheckEqual. rewrite equal_loop. pose proof (Nat.div_mod_eq sz 8) as Ed. set (rem := (sz mod 8)%nat) in *.
  assert (W : whole_words (sz / 8) a = whole_words (sz / 8) b -> take (sz - rem) a = take (sz - rem) b).
  { intros E. apply whole_words_eq in E; [|done|done|lia|lia]. by replace (sz - rem)%nat with (8 * (sz / 8))%nat by lia. }
  destruct (rem =? 0)%nat eqn:Er.
  - apply Nat.eqb_eq in Er. intros E%bool_decide_eq_true. apply W in E. rewrite Er, Nat.sub_0_r in E. by rewrite !take_ge in E by lia.
  - intros [E%bool_decide_eq_true E1%Z.eqb_eq]%andb_true_iff. apply W in E.
    rewrite <-(take_drop (sz - rem) a), <-(take_drop (sz - rem) b), E. f_equal.
    rewrite <-(firstn_all (drop (sz - rem) a)), <-(firstn_all (drop (sz - rem) b)), !length_drop, La, Lb.
    rewrite <-!storeu_loadu by ((by apply Forall_drop) || (rewrite length_drop; lia)).
    replace (sz - (sz - rem))%nat with rem by lia. by rewrite E1.
Qed.

(** The sorts may compare with [obliCheckLess]. *)
#[export] Instance obliCheckLess_swo sz : StrictWeakOrder (obliCheckLess sz).
Proof.
  assert (L : forall a b, length (words_of sz a) = length (words_of sz b)).
  { intros a b. unfold words_of. by rewrite !length_app, !whole_words_length. }
  split; intros a b; rewrite ?obliCheckLess_words.
  - intros H. destruct (lex_lt (words_of sz b) (words_of sz a)) eqn:E; [|done].
    rewrite <-(lex_lt_irrefl (words_of sz a)). symmetry. by eapply lex_lt_trans.
  - intros c. rewrite !obliCheckLess_words. intros H1 H2. destruct (lex_lt (words_of sz a) (words_of sz c)) eqn:E; [|done].
    destruct (lex_lt (words_of sz b) (words_of sz a)) eqn:E1.
    + assert (lex_lt (words_of sz b) (words_of sz c) = true) by (by eapply lex_lt_trans). congruence.
    + apply (lex_lt_total _ _ (L a b)) in H1; [|done]. congruence.
Qed.

(** C34: The constant-time comparisons are an equality and a total order.  On
    byte strings of one length, at least one byte, [obliCheckEqual] holds
    exactly of equal strings, and of two strings exactly one of less, equal and
    greater holds; [obliCheckLess] is transitive, and a bitonic sort that
    compares with it sorts. *)
Theorem obliCheck_total_order (sz : nat) (a b c : bytes) (l : list bytes) :
  (0 < sz)%nat -> length a = sz -> length b = sz -> Forall byte_ok a -> Forall byte_ok b ->
  Z.of_nat (length l) <= 2 ^ 63 ->
  (obliCheckEqual sz a b = true <-> a = b) /\
  (obliCheckEqual sz a b = negb (obliCheckLess sz a b) && negb (obliCheckLess sz b a)) /\
  (obliCheckLess sz a b = true -> obliCheckLess sz b a = false) /\
  (obliCheckLess sz a b = true -> obliCheckLess sz b c = true -> obliCheckLess sz a c = true) /\
  StronglySorted (cmp_le (obliCheckLess sz)) (BitonicSort (obliCheckLess sz) l).
Proof.
  intros Hsz La Lb Ha Hb Hl. pose proof (obliCheckEqual_spec sz a b La Lb Ha Hb) as Heq. split_and!.
  - exact Heq.
  - apply eq_true_iff_eq. rewrite Heq, andb_true_iff, !negb_true_iff, !obliCheckLess_words. split.
    + intros ->. by rewrite lex_lt_irrefl.
    + intros [H1 H2]. apply (words_of_inj sz); try done. apply lex_lt_total; [|done..].
      unfold words_of. by rewrite !length_app, !whole_words_length.
  - apply swo_asym.
  - rewrite !obliCheckLess_words. apply lex_lt_trans.
  - by apply BitonicSort_dire_sorted; [apply _|].
Qed.

Ltac small_bytes := repeat (apply Forall_cons_2; [split; [discriminate|reflexivity]|]); apply Forall_nil_2.

Lemma obliCheck_total_order_witness :
  let a := [1; 0; 0; 0; 0; 0; 0; 0; 5] in let b := [0; 1; 0; 0; 0; 0; 0; 0; 4] in
  obliCheckEqual 9 a b = negb (obliCheckLess 9 a b) && negb (obliCheckLess 9 b a) /\ obliCheckLess 9 a b = true.
Proof.
  split; [|reflexivity].
  refine (proj1 (proj2 (obliCheck_total_order 9 [1; 0; 0; 0; 0; 0; 0; 0; 5] [0; 1; 0; 0; 0; 0; 0; 0; 4] [] [] _ _ _ _ _ _))).
  - lia.
  - reflexivity.
  - reflexivity.
  - small_bytes.
  - small_bytes.
  - cbn. lia.
Defined.

(** The order of bytes is not the lexicographic one: here the first byte of the
    smaller string is the larger one. *)
Example obliCheckLess_not_lexicographic :
  obliCheckLess 9 [1; 0; 0; 0; 0; 0; 0; 0; 0] [0; 1; 0; 0; 0; 0; 0; 0; 0] = true.
Proof. reflexivity. Qed.
