(* ===== verification/Aes.v ===== *)
(** * AES with the AES-NI opcodes
    (bearssl/src/bearssl/symcipher/aes_x86ni.c and the block encryption of
    aes_x86ni_ctr.c)

    The key schedules for 128, 192 and 256-bit keys, built from
    [aeskeygenassist] and lane shuffles, and the rounds built from [aesenc] and
    [aesenclast]; both are proved equal to the key expansion and the cipher of
    FIPS 197. *)
From S2P Require Import Prelude Inner Simd.
Local Open Scope Z_scope.

(** ** The field GF(2^8) and the S-box *)

Definition xtime (b : Z) : Z :=
  Z.land (Z.lxor (Z.shiftl b 1) (if Z.testbit b 7 then 0x1B else 0)) 0xFF.

Fixpoint gf_mul_fuel (n : nat) (a b : Z) : Z :=
  match n with
  | O => 0
  | S n => Z.lxor (if Z.odd b then a else 0) (gf_mul_fuel n (xtime a) (Z.div2 b))
  end.
Definition gf_mul (a b : Z) : Z := gf_mul_fuel 8 a b.

(** The inverse, as the power 254; zero goes to zero. *)
Definition gf_inv (a : Z) : Z :=
  let a2 := gf_mul a a in let a4 := gf_mul a2 a2 in let a8 := gf_mul a4 a4 in
  let a16 := gf_mul a8 a8 in let a32 := gf_mul a16 a16 in let a64 := gf_mul a32 a32 in
  let a128 := gf_mul a64 a64 in
  gf_mul a2 (gf_mul a4 (gf_mul a8 (gf_mul a16 (gf_mul a32 (gf_mul a64 a128))))).

Definition rotl8 (b n : Z) : Z := Z.land (Z.lor (Z.shiftl b n) (Z.shiftr b (8 - n))) 0xFF.

Definition sbox_def (a : Z) : Z :=
  let b := gf_inv a in
  Z.lxor (Z.lxor (Z.lxor (Z.lxor (Z.lxor b (rotl8 b 1)) (rotl8 b 2)) (rotl8 b 3)) (rotl8 b 4)) 0x63.

Definition sbox_table : list Z := Eval vm_compute in sbox_def <$> (Z.of_nat <$> seq 0 256).
Definition sbox (a : Z) : Z := nth (Z.to_nat a) sbox_table 0.

(** ** Words and the AES opcodes *)

(** A 32-bit lane holds a column, its first byte lowest. *)
Definition SubWord (w : Z) : Z := of_lanes 8 ((fun i => sbox (lane8 i w)) <$> seq 0 4).
Definition RotWord (w : Z) : Z := of_lanes 8 ((fun i => lane8 i w) <$> [1; 2; 3; 0]%nat).

(** A rotated and substituted word with a round constant. *)
Definition g_word (d rc : Z) : Z := Z.lxor (RotWord (SubWord d)) rc.

Definition mm_aeskeygenassist_si128 (x : m128) (rcon : Z) : m128 :=
  of_lanes 32 [SubWord (lane32 1 x); g_word (lane32 1 x) rcon;
               SubWord (lane32 3 x); g_word (lane32 3 x) rcon].

(** Byte [i] of the result of [ShiftRows] is byte [5 i mod 16] of its operand. *)
Definition ShiftRows (x : m128) : m128 := of_lanes 8 ((fun i => lane8 (5 * i mod 16) x) <$> seq 0 16).
Definition SubBytes (x : m128) : m128 := of_lanes 8 ((fun i => sbox (lane8 i x)) <$> seq 0 16).

Definition mix_byte (b0 b1 b2 b3 : Z) : Z :=
  Z.lxor (Z.lxor (Z.lxor (gf_mul 2 b0) (gf_mul 3 b1)) b2) b3.
Definition MixColumns (x : m128) : m128 :=
  of_lanes 8 ((fun i =>
    let c := (4 * (i / 4))%nat in let r := (i mod 4)%nat in
    mix_byte (lane8 (c + r) x) (lane8 (c + (r + 1) mod 4) x)
             (lane8 (c + (r + 2) mod 4) x) (lane8 (c + (r + 3) mod 4) x)) <$> seq 0 16).
Definition inv_mix_byte (b0 b1 b2 b3 : Z) : Z :=
  Z.lxor (Z.lxor (Z.lxor (gf_mul 14 b0) (gf_mul 11 b1)) (gf_mul 13 b2)) (gf_mul 9 b3).
Definition InvMixColumns (x : m128) : m128 :=
  of_lanes 8 ((fun i =>
    let c := (4 * (i / 4))%nat in let r := (i mod 4)%nat in
    inv_mix_byte (lane8 (c + r) x) (lane8 (c + (r + 1) mod 4) x)
                 (lane8 (c + (r + 2) mod 4) x) (lane8 (c + (r + 3) mod 4) x)) <$> seq 0 16).

(** The opcodes shift the rows before they substitute the bytes. *)
Definition mm_aesenc_si128 (x k : m128) : m128 := Z.lxor (MixColumns (SubBytes (ShiftRows x))) k.
Definition mm_aesenclast_si128 (x k : m128) : m128 := Z.lxor (SubBytes (ShiftRows x)) k.
Definition mm_aesimc_si128 (x : m128) : m128 := InvMixColumns x.

(** ** The key schedule *)

Definition expand_step128 (k k2 : m128) : m128 :=
  let k := mm_xor_si128 k (mm_slli_si128 k 4) in
  let k := mm_xor_si128 k (mm_slli_si128 k 4) in
  let k := mm_xor_si128 k (mm_slli_si128 k 4) in
  let k2 := mm_shuffle_epi32 k2 0xFF in
  mm_xor_si128 k k2.

(** Returns the new [t1], [t2] and [t3]. *)
Definition expand_step192 (t1 t2 t3 : m128) : m128 * m128 * m128 :=
  let t2 := mm_shuffle_epi32 t2 0x55 in
  let t4 := mm_slli_si128 t1 4 in
  let t1 := mm_xor_si128 t1 t4 in
  let t4 := mm_slli_si128 t4 4 in
  let t1 := mm_xor_si128 t1 t4 in
  let t4 := mm_slli_si128 t4 4 in
  let t1 := mm_xor_si128 t1 t4 in
  let t1 := mm_xor_si128 t1 t2 in
  let t2 := mm_shuffle_epi32 t1 0xFF in
  let t4 := mm_slli_si128 t3 4 in
  let t3 := mm_xor_si128 t3 t4 in
  let t3 := mm_xor_si128 t3 t2 in
  (t1, t2, t3).

(** Returns the new [t1]. *)
Definition expand_step256_1 (t1 t2 : m128) : m128 :=
  let t2 := mm_shuffle_epi32 t2 0xFF in
  let t4 := mm_slli_si128 t1 4 in
  let t1 := mm_xor_si128 t1 t4 in
  let t4 := mm_slli_si128 t4 4 in
  let t1 := mm_xor_si128 t1 t4 in
  let t4 := mm_slli_si128 t4 4 in
  let t1 := mm_xor_si128 t1 t4 in
  mm_xor_si128 t1 t2.

(** Returns the new [t3]. *)
Definition expand_step256_2 (t1 t3 : m128) : m128 :=
  let t4 := mm_aeskeygenassist_si128 t1 0 in
  let t2 := mm_shuffle_epi32 t4 0xAA in
  let t4 := mm_slli_si128 t3 4 in
  let t3 := mm_xor_si128 t3 t4 in
  let t4 := mm_slli_si128 t4 4 in
  let t3 := mm_xor_si128 t3 t4 in
  let t4 := mm_slli_si128 t4 4 in
  let t3 := mm_xor_si128 t3 t4 in
  mm_xor_si128 t3 t2.

(** [KEXP128(k, i, rcon)]: the next subkey. *)
Definition KEXP128 (k : m128) (rcon : Z) : m128 :=
  expand_step128 k (mm_aeskeygenassist_si128 k rcon).

(** A run of [KEXP128] over the round constants: the subkeys in order. *)
Fixpoint kexp128_run (k : m128) (rcons : list Z) {struct rcons} : list m128 :=
  match rcons with
  | [] => []
  | rcon :: rcons => let k := KEXP128 k rcon in k :: kexp128_run k rcons
  end.

(** [KEXP192(i, rcon1, rcon2)]: three subkeys and the new [t1], [t3]. *)
Definition KEXP192 (t1 t3 : m128) (rcon1 rcon2 : Z) : list m128 * m128 * m128 :=
  let sk0 := t1 in
  let sk1 := t3 in
  let t2 := mm_aeskeygenassist_si128 t3 rcon1 in
  let '(t1, t2, t3) := expand_step192 t1 t2 t3 in
  let sk1 := mm_shuffle_pd sk1 t1 0 in
  let sk2 := mm_shuffle_pd t1 t3 1 in
  let t2 := mm_aeskeygenassist_si128 t3 rcon2 in
  let '(t1, t2, t3) := expand_step192 t1 t2 t3 in
  ([sk0; sk1; sk2], t1, t3).

(** [KEXP256(i, rcon)]: two subkeys and the new [t1], [t3]. *)
Definition KEXP256 (t1 t3 : m128) (rcon : Z) : list m128 * m128 * m128 :=
  let sk0 := t3 in
  let t2 := mm_aeskeygenassist_si128 t3 rcon in
  let t1 := expand_step256_1 t1 t2 in
  let sk1 := t1 in
  let t3 := expand_step256_2 t1 t3 in
  ([sk0; sk1], t1, t3).

Fixpoint kexp256_run (t1 t3 : m128) (rcons : list Z) {struct rcons} : list m128 * m128 * m128 :=
  match rcons with
  | [] => ([], t1, t3)
  | rcon :: rcons =>
      let '(sk, t1, t3) := KEXP256 t1 t3 rcon in
      let '(sks, t1, t3) := kexp256_run t1 t3 rcons in
      (sk ++ sks, t1, t3)
  end.

(** [x86ni_keysched]: the subkeys and the number of rounds. *)
Definition x86ni_keysched (key : bytes) : list m128 * Z :=
  if (length key =? 16)%nat then
    let t1 := mm_loadu_si128 key in
    (t1 :: kexp128_run t1 [0x01; 0x02; 0x04; 0x08; 0x10; 0x20; 0x40; 0x80; 0x1B; 0x36], 10)
  else if (length key =? 24)%nat then
    let t1 := mm_loadu_si128 key in
    let t3 := mm_loadu_si128 (drop 8 key) in
    let t3 := mm_shuffle_epi32 t3 0x4E in
    let '(s0, t1, t3) := KEXP192 t1 t3 0x01 0x02 in
    let '(s3, t1, t3) := KEXP192 t1 t3 0x04 0x08 in
    let '(s6, t1, t3) := KEXP192 t1 t3 0x10 0x20 in
    let '(s9, t1, t3) := KEXP192 t1 t3 0x40 0x80 in
    (s0 ++ s3 ++ s6 ++ s9 ++ [t1], 12)
  else if (length key =? 32)%nat then
    let t1 := mm_loadu_si128 key in
    let t3 := mm_loadu_si128 (drop 16 key) in
    let sk0 := t1 in
    let '(sks, t1, t3) := kexp256_run t1 t3 [0x01; 0x02; 0x04; 0x08; 0x10; 0x20] in
    let sk13 := t3 in
    let t2 := mm_aeskeygenassist_si128 t3 0x40 in
    let t1 := expand_step256_1 t1 t2 in
    (sk0 :: sks ++ [sk13; t1], 14)
  else ([], 0).

(** [br_aes_x86ni_keysched_enc]: the bytes of the subkeys and the rounds. *)
Definition br_aes_x86ni_keysched_enc (key : bytes) : bytes * Z :=
  let '(sk, num_rounds) := x86ni_keysched key in
  (concat (mm_storeu_si128 <$> take (Z.to_nat (num_rounds + 1)) sk), num_rounds).

Definition br_aes_x86ni_keysched_dec (key : bytes) : bytes * Z :=
  let '(sk, num_rounds) := x86ni_keysched key in
  let n := Z.to_nat num_rounds in
  (mm_storeu_si128 (nth n sk 0)
     ++ concat ((fun u => mm_storeu_si128 (mm_aesimc_si128 (nth (n - u) sk 0))) <$> seq 1 (n - 1))
     ++ mm_storeu_si128 (nth 0 sk 0), num_rounds).

(** ** Block encryption with the subkeys (the unrolled rounds of
    [br_aes_x86ni_ctr_run]) *)

(** [n] rounds from number [i] on. *)
Fixpoint iter_rounds (f : nat -> m128 -> m128) (i n : nat) (x : m128) : m128 :=
  match n with
  | O => x
  | S n => iter_rounds f (S i) n (f i x)
  end.

(** [_mm_aesenc_si128] with the subkeys [sk[i]] to [sk[i + n - 1]]. *)
Definition aesenc_range (sk : list m128) (i n : nat) (x : m128) : m128 :=
  iter_rounds (fun i x => mm_aesenc_si128 x (nth i sk 0)) i n x.

Definition aes_block (sk : list m128) (num_rounds : Z) (x : m128) : m128 :=
  let x := mm_xor_si128 x (nth 0 sk 0) in
  let x := aesenc_range sk 1 9 x in
  if num_rounds =? 10 then mm_aesenclast_si128 x (nth 10 sk 0)
  else if num_rounds =? 12 then
    mm_aesenclast_si128 (aesenc_range sk 10 2 x) (nth 12 sk 0)
  else mm_aesenclast_si128 (aesenc_range sk 10 4 x) (nth 14 sk 0).

(** ** Specification: FIPS 197 *)

Module FIPS197.
Fixpoint rcon (i : nat) : Z := match i with O => 0x8D | S i => gf_mul 2 (rcon i) end.

(** The next word of the expansion, from the words so far. *)
Definition next_word (Nk : nat) (ws : list Z) : Z :=
  let i := length ws in
  let temp := nth (i - 1) ws 0 in
  let temp :=
    if (i mod Nk =? 0)%nat then Z.lxor (SubWord (RotWord temp)) (rcon (i / Nk))
    else if (6 <? Nk)%nat && (i mod Nk =? 4)%nat then SubWord temp
    else temp in
  Z.lxor (nth (i - Nk) ws 0) temp.

Fixpoint expand (n Nk : nat) (ws : list Z) : list Z :=
  match n with O => ws | S n => expand n Nk (ws ++ [next_word Nk ws]) end.

(** The words of the key, first byte lowest. *)
Fixpoint key_words (n : nat) (key : bytes) : list Z :=
  match n with O => [] | S n => br_dec32le key :: key_words n (drop 4 key) end.

Definition KeyExpansion (key : bytes) : list Z :=
  let Nk := (length key / 4)%nat in
  expand (4 * (Nk + 7) - Nk) Nk (key_words Nk key).

Definition round_key (ws : list Z) (r : nat) : m128 := of_lanes 32 (take 4 (drop (4 * r) ws)).

Definition round (ws : list Z) (r : nat) (x : m128) : m128 :=
  Z.lxor (MixColumns (ShiftRows (SubBytes x))) (round_key ws r).

Definition rounds (ws : list Z) (r n : nat) (x : m128) : m128 := iter_rounds (round ws) r n x.

Definition Cipher (key : bytes) (x : m128) : m128 :=
  let ws := KeyExpansion key in
  let Nr := (length key / 4 + 6)%nat in
  let x := Z.lxor x (round_key ws 0) in
  let x := rounds ws 1 (Nr - 1) x in
  Z.lxor (ShiftRows (SubBytes x)) (round_key ws Nr).
End FIPS197.

(** ** Words *)

Lemma sbox_ok a : byte_ok (sbox a).
Proof.
  unfold sbox. rewrite nth_lookup. destruct (sbox_table !! Z.to_nat a) as [x|] eqn:E; [|by unfold byte_ok].
  assert (H : forallb (fun z => (0 <=? z) && (z <? 256)) sbox_table = true) by (vm_compute; reflexivity).
  rewrite forallb_forall in H. apply list_elem_of_lookup_2, list_elem_of_In, H in E.
  cbv beta in E. unfold byte_ok. simpl. lia.
Qed.

Lemma SubWord_width w : in_width 32 (SubWord w).
Proof. by apply of_lanes_width. Qed.
Lemma RotWord_width w : in_width 32 (RotWord w).
Proof. by apply of_lanes_width. Qed.

Lemma SubWord_RotWord w : SubWord (RotWord w) = RotWord (SubWord w).
Proof.
  unfold SubWord, RotWord. cbn [fmap list_fmap seq]. rewrite !lane8_of_lanes. cbn [nth].
  rewrite !(wrap_small 8 (sbox _)) by apply sbox_ok. unfold lane8. by rewrite !wrap_idemp.
Qed.

Lemma g_word_width d rc : in_width 32 rc -> in_width 32 (g_word d rc).
Proof. intros H. apply lxor_in_width; [lia|apply RotWord_width|done]. Qed.

Lemma lane32_assist i x rc : (i < 4)%nat -> in_width 32 rc ->
  lane32 i (mm_aeskeygenassist_si128 x rc) =
  match i with
  | O => SubWord (lane32 1 x) | 1%nat => g_word (lane32 1 x) rc
  | 2%nat => SubWord (lane32 3 x) | _ => g_word (lane32 3 x) rc
  end.
Proof.
  intros Hi Hr. unfold mm_aeskeygenassist_si128. rewrite lane32_of_lanes.
  pose proof (SubWord_width (lane32 1 x)) as W1. pose proof (SubWord_width (lane32 3 x)) as W3.
  pose proof (g_word_width (lane32 1 x) rc Hr) as G1. pose proof (g_word_width (lane32 3 x) rc Hr) as G3.
  destruct i as [|[|[|[|i]]]]; cbn [nth]; [by apply wrap_small..|lia].
Qed.

Lemma assist_width x rc : in_width 128 (mm_aeskeygenassist_si128 x rc).
Proof. by apply of_lanes_width. Qed.

(** ** The steps on words *)

(** Xor every word with all the words before it and with [g]. *)
Definition xor_prefix (a b c d g : Z) : list Z :=
  let a' := Z.lxor a g in let b' := Z.lxor b a' in let c' := Z.lxor c b' in [a'; b'; c'; Z.lxor d c'].

Lemma xor3_words x y :
  words (mm_xor_si128 (mm_xor_si128 (mm_xor_si128 (mm_xor_si128 x (mm_slli_si128 x 4))
     (mm_slli_si128 (mm_slli_si128 x 4) 4)) (mm_slli_si128 (mm_slli_si128 (mm_slli_si128 x 4) 4) 4)) y) =
  [Z.lxor (lane32 0 x) (lane32 0 y);
   Z.lxor (Z.lxor (lane32 1 x) (lane32 0 x)) (lane32 1 y);
   Z.lxor (Z.lxor (Z.lxor (lane32 2 x) (lane32 1 x)) (lane32 0 x)) (lane32 2 y);
   Z.lxor (Z.lxor (Z.lxor (Z.lxor (lane32 3 x) (lane32 2 x)) (lane32 1 x)) (lane32 0 x)) (lane32 3 y)].
Proof.
  unfold words. by autorewrite with lanes.
Qed.

Lemma expand_step128_words x y :
  words (expand_step128 x y) =
  xor_prefix (lane32 0 x) (lane32 1 x) (lane32 2 x) (lane32 3 x) (lane32 3 y).
Proof.
  unfold expand_step128, words, xor_prefix. cbv zeta.
  autorewrite with lanes. rewrite !lane32_shuffle by lia.
  change (imm_sel 255 0) with 3%nat. change (imm_sel 255 1) with 3%nat.
  change (imm_sel 255 2) with 3%nat. change (imm_sel 255 3) with 3%nat.
  repeat (apply (f_equal2 cons); [bitwise|]). reflexivity.
Qed.

Lemma expand_step256_1_words x y :
  words (expand_step256_1 x y) =
  xor_prefix (lane32 0 x) (lane32 1 x) (lane32 2 x) (lane32 3 x) (lane32 3 y).
Proof.
  unfold expand_step256_1. cbv zeta. rewrite xor3_words. rewrite !lane32_shuffle by lia.
  change (imm_sel 255 0) with 3%nat. change (imm_sel 255 1) with 3%nat.
  change (imm_sel 255 2) with 3%nat. change (imm_sel 255 3) with 3%nat.
  unfold xor_prefix. repeat (apply (f_equal2 cons); [bitwise|]). reflexivity.
Qed.

Lemma expand_step256_2_words t1 t3 :
  words (expand_step256_2 t1 t3) =
  xor_prefix (lane32 0 t3) (lane32 1 t3) (lane32 2 t3) (lane32 3 t3) (SubWord (lane32 3 t1)).
Proof.
  unfold expand_step256_2. cbv zeta. rewrite xor3_words. rewrite !lane32_shuffle by lia.
  change (imm_sel 0xAA 0) with 2%nat. change (imm_sel 0xAA 1) with 2%nat.
  change (imm_sel 0xAA 2) with 2%nat. change (imm_sel 0xAA 3) with 2%nat.
  rewrite !lane32_assist by (lia || (split; lia)).
  unfold xor_prefix. repeat (apply (f_equal2 cons); [bitwise|]). reflexivity.
Qed.

Lemma expand_step192_words t1 t2 t3 :
  let '(t1', t2', t3') := expand_step192 t1 t2 t3 in
  words t1' = xor_prefix (lane32 0 t1) (lane32 1 t1) (lane32 2 t1) (lane32 3 t1) (lane32 1 t2) /\
  lane32 0 t3' = Z.lxor (lane32 0 t3) (lane32 3 t1') /\
  lane32 1 t3' = Z.lxor (lane32 1 t3) (lane32 0 t3').
Proof.
  unfold expand_step192. cbv zeta. split_and!.
  - rewrite xor3_words. rewrite !lane32_shuffle by lia.
    change (imm_sel 0x55 0) with 1%nat. change (imm_sel 0x55 1) with 1%nat.
    change (imm_sel 0x55 2) with 1%nat. change (imm_sel 0x55 3) with 1%nat.
    unfold xor_prefix. repeat (apply (f_equal2 cons); [bitwise|]). reflexivity.
  - set (u := mm_xor_si128 _ (mm_shuffle_epi32 t2 0x55)).
    autorewrite with lanes. rewrite lane32_shuffle by lia. done.
  - set (u := mm_xor_si128 _ (mm_shuffle_epi32 t2 0x55)).
    autorewrite with lanes. rewrite !lane32_shuffle by lia.
    change (imm_sel 255 0) with 3%nat. change (imm_sel 255 1) with 3%nat. bitwise.
Qed.

(** ** The expansion on words *)

(** The next word when the expansion ends with the words [l]. *)
Lemma next_word_suffix Nk q pre l :
  (1 <= Nk <= length l)%nat -> length pre = (q * Nk)%nat ->
  FIPS197.next_word Nk (pre ++ l) =
  Z.lxor (nth (length l - Nk) l 0)
    (let temp := nth (length l - 1) l 0 in
     if (length l mod Nk =? 0)%nat then Z.lxor (SubWord (RotWord temp)) (FIPS197.rcon (q + length l / Nk))
     else if (6 <? Nk)%nat && (length l mod Nk =? 4)%nat then SubWord temp
     else temp).
Proof.
  intros Hk Hp. unfold FIPS197.next_word. rewrite length_app. cbv zeta.
  replace (length pre + length l - Nk)%nat with (length pre + (length l - Nk))%nat by lia.
  replace (length pre + length l - 1)%nat with (length pre + (length l - 1))%nat by lia.
  rewrite !app_nth2_plus, Hp, (Nat.add_comm (q * Nk)), Nat.Div0.mod_add, Nat.div_add by lia.
  rewrite (Nat.add_comm _ q). done.
Qed.

Lemma expand_snoc n Nk pre l :
  FIPS197.expand (S n) Nk (pre ++ l) = FIPS197.expand n Nk (pre ++ (l ++ [FIPS197.next_word Nk (pre ++ l)])).
Proof. cbn [FIPS197.expand]. by rewrite <-app_assoc. Qed.

Lemma expand_add n m Nk ws : FIPS197.expand (n + m) Nk ws = FIPS197.expand m Nk (FIPS197.expand n Nk ws).
Proof. revert ws. induction n as [|n IH]; intros ws; [done|]. cbn [Nat.add FIPS197.expand]. apply IH. Qed.

(** One word at a time, with the suffix explicit. *)
Ltac expand_word Hp :=
  rewrite expand_snoc; erewrite next_word_suffix; [|simpl; lia|exact Hp];
  cbn [length Nat.sub nth Nat.modulo Nat.divmod Nat.div fst snd Nat.eqb Nat.ltb Nat.leb andb app];
  cbv zeta.

Lemma expand_4 q pre a b c d :
  length pre = (q * 4)%nat ->
  FIPS197.expand 4 4 (pre ++ [a; b; c; d]) =
  pre ++ [a; b; c; d] ++ xor_prefix a b c d (g_word d (FIPS197.rcon (q + 1))).
Proof.
  intros Hp. do 4 expand_word Hp. cbn [FIPS197.expand]. rewrite SubWord_RotWord.
  unfold xor_prefix, g_word. reflexivity.
Qed.

Lemma expand_6 q pre a b c d e f :
  length pre = (q * 6)%nat ->
  let X := xor_prefix a b c d (g_word f (FIPS197.rcon (q + 1))) in
  let e' := Z.lxor e (nth 3 X 0) in
  FIPS197.expand 6 6 (pre ++ [a; b; c; d; e; f]) =
  pre ++ [a; b; c; d; e; f] ++ X ++ [e'; Z.lxor f e'].
Proof.
  intros Hp X e'. do 6 expand_word Hp. cbn [FIPS197.expand]. rewrite SubWord_RotWord.
  subst X e'. unfold xor_prefix, g_word. cbv zeta. cbn [nth app]. reflexivity.
Qed.

Lemma expand_8 q pre a b c d e f g h :
  length pre = (q * 8)%nat ->
  let X := xor_prefix a b c d (g_word h (FIPS197.rcon (q + 1))) in
  FIPS197.expand 8 8 (pre ++ [a; b; c; d; e; f; g; h]) =
  pre ++ [a; b; c; d; e; f; g; h] ++ X ++ xor_prefix e f g h (SubWord (nth 3 X 0)).
Proof.
  intros Hp X. do 8 expand_word Hp. cbn [FIPS197.expand]. rewrite SubWord_RotWord.
  subst X. unfold xor_prefix, g_word. cbv zeta. cbn [nth app]. reflexivity.
Qed.

(** ** The schedules are the expansion *)

Lemma rcon_width i : in_width 32 (FIPS197.rcon i).
Proof.
  assert (H8 : forall n a b, in_width 8 a -> in_width 8 (gf_mul_fuel n a b)).
  { induction n as [|n IH]; intros a b Ha; cbn [gf_mul_fuel]; [split; lia|].
    apply lxor_in_width; [lia|destruct (Z.odd b); [done|split; lia]|]. apply IH.
    unfold xtime. rewrite Z.land_comm. apply land_in_width_l; [lia|split; lia|].
    apply Z.lxor_nonneg. destruct Ha. rewrite Z.shiftl_nonneg. destruct (Z.testbit a 7); lia. }
  assert (in_width 8 (FIPS197.rcon i)) as [H0 H1].
  { destruct i as [|i]; [split; vm_compute; congruence|]. apply H8. split; lia. }
  split; [done|lia].
Qed.

Lemma KEXP128_words k rc : in_width 32 rc ->
  words (KEXP128 k rc) =
  xor_prefix (lane32 0 k) (lane32 1 k) (lane32 2 k) (lane32 3 k) (g_word (lane32 3 k) rc).
Proof. intros Hr. unfold KEXP128. rewrite expand_step128_words, lane32_assist by (done || lia). done. Qed.

(** The list [rcons] is the round constants from number [r] on. *)
Definition rcons_from (r : nat) (rcons : list Z) : Prop :=
  forall i x, rcons !! i = Some x -> x = FIPS197.rcon (r + i).

Lemma rcons_from_cons r x rcons : rcons_from r (x :: rcons) ->
  x = FIPS197.rcon r /\ rcons_from (S r) rcons.
Proof.
  intros H. split; [rewrite (H 0%nat x eq_refl); f_equal; lia|].
  intros i y Hy. rewrite (H (S i) y Hy). f_equal. lia.
Qed.

Lemma kexp128_run_ok rcons : forall q pre k,
  length pre = (q * 4)%nat -> rcons_from (q + 1) rcons ->
  FIPS197.expand (4 * length rcons) 4 (pre ++ words k) =
  pre ++ words k ++ concat (words <$> kexp128_run k rcons).
Proof.
  induction rcons as [|rc rcons IH]; intros q pre k Hp Hr.
  { cbn [kexp128_run fmap list_fmap concat]. by rewrite app_nil_r. }
  apply rcons_from_cons in Hr as [-> Hr].
  replace (4 * length (FIPS197.rcon (q + 1) :: rcons))%nat with (4 + 4 * length rcons)%nat by (simpl; lia).
  rewrite expand_add. unfold words at 1. rewrite (expand_4 q) by done.
  rewrite <-KEXP128_words by apply rcon_width. fold (words k). rewrite app_assoc.
  rewrite (IH (S q)); [|rewrite length_app, Hp; simpl; lia|by replace (S q + 1)%nat with (S (q + 1)) by lia].
  cbn [kexp128_run]. rewrite fmap_cons, concat_cons. by rewrite <-!app_assoc.
Qed.

Lemma words_nth i x : (i < 4)%nat -> nth i (words x) 0 = lane32 i x.
Proof. intros Hi. do 4 (destruct i as [|i]; [done|]). lia. Qed.

Lemma expand_step192_ok q pre t1 t3 rc :
  length pre = (q * 6)%nat -> rc = FIPS197.rcon (q + 1) ->
  let '(t1', t2', t3') := expand_step192 t1 (mm_aeskeygenassist_si128 t3 rc) t3 in
  FIPS197.expand 6 6 (pre ++ words t1 ++ [lane32 0 t3; lane32 1 t3]) =
  (pre ++ words t1 ++ [lane32 0 t3; lane32 1 t3]) ++ words t1' ++ [lane32 0 t3'; lane32 1 t3'].
Proof.
  intros Hp ->. pose proof (expand_step192_words t1 (mm_aeskeygenassist_si128 t3 (FIPS197.rcon (q + 1))) t3) as H.
  destruct (expand_step192 _ _ _) as [[t1' t2'] t3']. destruct H as (H1 & H2 & H3).
  rewrite lane32_assist in H1 by (apply rcon_width || lia).
  unfold words at 1. cbn [app]. rewrite (expand_6 q) by done. rewrite <-H1, words_nth, <-H2, <-H3 by lia.
  by rewrite <-!app_assoc.
Qed.

Lemma KEXP192_ok q pre t1 t3 rc1 rc2 :
  length pre = (q * 6)%nat -> rc1 = FIPS197.rcon (q + 1) -> rc2 = FIPS197.rcon (q + 2) ->
  let '(sks, t1', t3') := KEXP192 t1 t3 rc1 rc2 in
  FIPS197.expand 12 6 (pre ++ words t1 ++ [lane32 0 t3; lane32 1 t3]) =
  (pre ++ concat (words <$> sks)) ++ words t1' ++ [lane32 0 t3'; lane32 1 t3'] /\
  length (concat (words <$> sks)) = 12%nat.
Proof.
  intros Hp H1 H2. unfold KEXP192.
  pose proof (expand_step192_ok q pre t1 t3 rc1 Hp H1) as S1.
  destruct (expand_step192 t1 _ t3) as [[u1 u2] u3].
  set (mid := pre ++ words t1 ++ [lane32 0 t3; lane32 1 t3]) in *.
  assert (Hm : length mid = (S q * 6)%nat) by (subst mid; rewrite length_app, Hp; simpl; lia).
  pose proof (expand_step192_ok (S q) mid u1 u3 rc2 Hm ltac:(rewrite H2; f_equal; lia)) as S2.
  destruct (expand_step192 u1 _ u3) as [[v1 v2] v3]. split; [|done].
  change 12%nat with (6 + 6)%nat. rewrite expand_add, S1, S2. f_equal.
  subst mid. cbn [fmap list_fmap concat]. rewrite !words_shuffle_pd.
  change (Z.testbit 0 0) with false. change (Z.testbit 0 1) with false.
  change (Z.testbit 1 0) with true. change (Z.testbit 1 1) with false. cbv iota.
  unfold words. rewrite <-!app_assoc. reflexivity.
Qed.

Lemma KEXP256_ok q pre t1 t3 rc :
  length pre = (q * 8)%nat -> rc = FIPS197.rcon (q + 1) ->
  let t1' := expand_step256_1 t1 (mm_aeskeygenassist_si128 t3 rc) in
  let t3' := expand_step256_2 t1' t3 in
  FIPS197.expand 8 8 (pre ++ words t1 ++ words t3) = (pre ++ words t1 ++ words t3) ++ words t1' ++ words t3'.
Proof.
  intros Hp -> t1' t3'. unfold words at 1 2. cbn [app]. rewrite (expand_8 q) by done.
  pose proof (expand_step256_1_words t1 (mm_aeskeygenassist_si128 t3 (FIPS197.rcon (q + 1)))) as H1.
  rewrite lane32_assist in H1 by (apply rcon_width || lia). fold t1' in H1.
  pose proof (expand_step256_2_words t1' t3) as H2. fold t3' in H2.
  rewrite <-H1, words_nth, <-H2 by lia. by rewrite <-!app_assoc.
Qed.

Lemma kexp256_run_ok rcons : forall q pre t1 t3,
  length pre = (q * 8)%nat -> rcons_from (q + 1) rcons ->
  let '(sks, t1', t3') := kexp256_run t1 t3 rcons in
  FIPS197.expand (8 * length rcons) 8 (pre ++ words t1 ++ words t3) =
  pre ++ words t1 ++ concat (words <$> sks) ++ words t3' /\
  exists pre', pre ++ words t1 ++ concat (words <$> sks) = pre' ++ words t1' /\
               length pre' = ((q + length rcons) * 8)%nat.
Proof.
  induction rcons as [|rc rcons IH]; intros q pre t1 t3 Hp Hr; cbn [kexp256_run].
  - split; [done|]. exists pre. rewrite app_nil_r. split; [done|]. simpl. lia.
  - apply rcons_from_cons in Hr as [-> Hr].
    pose proof (KEXP256_ok q pre t1 t3 _ Hp eq_refl) as S1. unfold KEXP256. cbv zeta in S1 |- *.
    set (u1 := expand_step256_1 t1 _) in *. set (u3 := expand_step256_2 u1 t3) in *.
    set (mid := pre ++ words t1 ++ words t3) in *.
    assert (Hm : length mid = (S q * 8)%nat) by (subst mid; rewrite length_app, Hp; simpl; lia).
    specialize (IH (S q) mid u1 u3 Hm ltac:(by replace (S q + 1)%nat with (S (q + 1)) by lia)).
    destruct (kexp256_run u1 u3 rcons) as [[sks v1] v3]. destruct IH as (I1 & pre' & I2 & I3).
    assert (Hc : pre ++ words t1 ++ concat (words <$> [t3; u1] ++ sks) = mid ++ words u1 ++ concat (words <$> sks)).
    { subst mid. cbn [app fmap list_fmap concat]. by rewrite <-!app_assoc. }
    split.
    + replace (8 * length (FIPS197.rcon (q + 1) :: rcons))%nat with (8 + 8 * length rcons)%nat by (simpl; lia).
      rewrite expand_add, S1, I1. subst mid. cbn [app fmap list_fmap concat]. by rewrite <-!app_assoc.
    + exists pre'. split; [etransitivity; [exact Hc|done]|]. rewrite I3. simpl. lia.
Qed.

(** ** The whole schedule *)

Lemma expand_extends n Nk ws : exists t, FIPS197.expand n Nk ws = ws ++ t /\ length t = n.
Proof.
  revert ws. induction n as [|n IH]; intros ws; [exists []; by rewrite app_nil_r|].
  cbn [FIPS197.expand]. destruct (IH (ws ++ [FIPS197.next_word Nk ws])) as (t & -> & Hl).
  exists (FIPS197.next_word Nk ws :: t). rewrite <-app_assoc. split; [done|]. simpl. lia.
Qed.

Lemma expand_take n m Nk ws W :
  FIPS197.expand (n + m) Nk ws = W -> FIPS197.expand n Nk ws = take (length ws + n) W.
Proof.
  intros <-. rewrite expand_add. destruct (expand_extends m Nk (FIPS197.expand n Nk ws)) as (t & -> & _).
  destruct (expand_extends n Nk ws) as (u & -> & Hu). rewrite take_app_length'; [done|].
  rewrite length_app. lia.
Qed.

Lemma key_words_4 key : FIPS197.key_words 4 key =
  [br_dec32le key; br_dec32le (drop 4 key); br_dec32le (drop 8 key); br_dec32le (drop 12 key)].
Proof. cbn [FIPS197.key_words]. by rewrite !drop_drop. Qed.

Lemma key_words_add n m key : FIPS197.key_words (n + m) key =
  FIPS197.key_words n key ++ FIPS197.key_words m (drop (4 * n) key).
Proof.
  revert key. induction n as [|n IH]; intros key; [done|]. cbn [Nat.add FIPS197.key_words]. rewrite IH, drop_drop.
  replace (4 * S n)%nat with (4 + 4 * n)%nat by lia. done.
Qed.

Lemma load_key_words key : Forall byte_ok key -> words (mm_loadu_si128 key) = FIPS197.key_words 4 key.
Proof. intros H. by rewrite words_load, key_words_4. Qed.

(** [sk] holds the round keys of [key]. *)
Definition keys_of (key : bytes) (sk : list m128) : Prop :=
  concat (words <$> sk) = FIPS197.KeyExpansion key /\ Forall (in_width 128) sk /\
  length sk = (length key / 4 + 7)%nat.

Lemma expand_step128_width x y : in_width 128 x -> in_width 128 (expand_step128 x y).
Proof. intros Hx. unfold expand_step128. cbv zeta. auto 10 with width. Qed.

Lemma kexp128_run_width rcons : forall k, in_width 128 k -> Forall (in_width 128) (kexp128_run k rcons).
Proof.
  induction rcons as [|rc rcons IH]; intros k Hk; [constructor|]. cbn [kexp128_run].
  assert (in_width 128 (KEXP128 k rc)) by by apply expand_step128_width. constructor; [done|]. by apply IH.
Qed.

Lemma kexp128_run_length rcons : forall k, length (kexp128_run k rcons) = length rcons.
Proof. induction rcons as [|rc rcons IH]; intros k; [done|]. cbn [kexp128_run length]. by rewrite IH. Qed.

Lemma expand_step192_width t1 t2 t3 : in_width 128 t1 -> in_width 128 t3 ->
  in_width 128 (expand_step192 t1 t2 t3).1.1 /\ in_width 128 (expand_step192 t1 t2 t3).2.
Proof. intros H1 H3. unfold expand_step192. cbv zeta. cbn [fst snd]. auto 20 with width. Qed.

Lemma KEXP192_width t1 t3 rc1 rc2 : in_width 128 t1 -> in_width 128 t3 ->
  let '(sks, t1', t3') := KEXP192 t1 t3 rc1 rc2 in
  Forall (in_width 128) sks /\ length sks = 3%nat /\ in_width 128 t1' /\ in_width 128 t3'.
Proof.
  intros H1 H3. unfold KEXP192.
  destruct (expand_step192_width t1 (mm_aeskeygenassist_si128 t3 rc1) t3 H1 H3) as [W1 W3].
  destruct (expand_step192 t1 _ t3) as [[u1 u2] u3]. cbn [fst snd] in *.
  destruct (expand_step192_width u1 (mm_aeskeygenassist_si128 u3 rc2) u3 W1 W3) as [V1 V3].
  destruct (expand_step192 u1 _ u3) as [[v1 v2] v3]. cbn [fst snd] in *.
  split_and!; [|done..]. rewrite !Forall_cons. split_and!; [done|apply shuffle_pd_width..|done].
Qed.

Lemma expand_step256_1_width x y : in_width 128 x -> in_width 128 (expand_step256_1 x y).
Proof. intros Hx. unfold expand_step256_1. cbv zeta. auto 20 with width. Qed.
Lemma expand_step256_2_width x y : in_width 128 y -> in_width 128 (expand_step256_2 x y).
Proof. intros Hx. unfold expand_step256_2. cbv zeta. auto 20 with width. Qed.

Lemma kexp256_run_width rcons : forall t1 t3, in_width 128 t1 -> in_width 128 t3 ->
  let '(sks, t1', t3') := kexp256_run t1 t3 rcons in
  Forall (in_width 128) sks /\ length sks = (2 * length rcons)%nat /\ in_width 128 t1' /\ in_width 128 t3'.
Proof.
  induction rcons as [|rc rcons IH]; intros t1 t3 H1 H3; cbn [kexp256_run]; [done|]. unfold KEXP256. cbv zeta.
  set (u1 := expand_step256_1 t1 _). set (u3 := expand_step256_2 u1 t3).
  assert (W1 : in_width 128 u1) by by apply expand_step256_1_width.
  assert (W3 : in_width 128 u3) by by apply expand_step256_2_width.
  specialize (IH u1 u3 W1 W3). destruct (kexp256_run u1 u3 rcons) as [[sks v1] v3].
  destruct IH as (I1 & I2 & I3 & I4). split_and!; [cbn [app]; by rewrite !Forall_cons| |done..].
  rewrite length_app, I2. simpl. lia.
Qed.

Lemma rcons_from_spec r l : forallb (fun i => nth i l 0 =? FIPS197.rcon (r + i)) (seq 0 (length l)) = true ->
  rcons_from r l.
Proof.
  intros H i x Hx. rewrite forallb_forall in H. pose proof (lookup_lt_Some _ _ _ Hx).
  specialize (H i). rewrite (nth_lookup_Some _ _ _ _ Hx) in H. apply Z.eqb_eq, H, in_seq. lia.
Qed.

Lemma keysched_128 key : length key = 16%nat -> Forall byte_ok key ->
  (x86ni_keysched key).2 = 10 /\ keys_of key (x86ni_keysched key).1.
Proof.
  intros Hl Hk. unfold x86ni_keysched. rewrite Hl. cbn [Nat.eqb fst snd]. split; [done|].
  set (rcs := [0x01; 0x02; 0x04; 0x08; 0x10; 0x20; 0x40; 0x80; 0x1B; 0x36]).
  assert (Hr : rcons_from 1 rcs) by (apply rcons_from_spec; vm_compute; reflexivity).
  split_and!.
  - unfold FIPS197.KeyExpansion. rewrite Hl. change (16 / 4)%nat with 4%nat.
    change (4 * (4 + 7) - 4)%nat with (4 * length rcs)%nat.
    rewrite <-load_key_words by done. rewrite <-(app_nil_l (words (mm_loadu_si128 key))).
    rewrite (kexp128_run_ok rcs 0) by done. by rewrite fmap_cons, concat_cons.
  - constructor; [apply loadu_width|]. apply kexp128_run_width, loadu_width.
  - cbn [length]. rewrite kexp128_run_length, Hl. done.
Qed.

Lemma keysched_192 key : length key = 24%nat -> Forall byte_ok key ->
  (x86ni_keysched key).2 = 12 /\ keys_of key (x86ni_keysched key).1.
Proof.
  intros Hl Hk. unfold x86ni_keysched. rewrite Hl. cbn [Nat.eqb].
  set (t1 := mm_loadu_si128 key). set (t3 := mm_shuffle_epi32 (mm_loadu_si128 (drop 8 key)) 0x4E).
  assert (W1 : in_width 128 t1) by apply loadu_width.
  assert (W3 : in_width 128 t3) by apply shuffle_width.
  assert (Hw : words t1 ++ [lane32 0 t3; lane32 1 t3] = FIPS197.key_words 6 key).
  { change 6%nat with (4 + 2)%nat. rewrite key_words_add. subst t1. rewrite load_key_words by done. f_equal.
    subst t3. rewrite !lane32_shuffle by lia. change (imm_sel 0x4E 0) with 2%nat. change (imm_sel 0x4E 1) with 3%nat.
    rewrite !lane32_load by (lia || by apply Forall_drop). cbn [FIPS197.key_words]. by rewrite !drop_drop. }
  assert (Hr : forall i, (1 <= i <= 8)%nat -> FIPS197.rcon i = 2 ^ (Z.of_nat i - 1)).
  { intros i Hi. do 9 (destruct i as [|i]; [lia || (vm_compute; reflexivity)|]). lia. }
  pose proof (KEXP192_ok 0 [] t1 t3 1 2 eq_refl (eq_sym (Hr 1%nat ltac:(lia))) (eq_sym (Hr 2%nat ltac:(lia)))) as S0.
  pose proof (KEXP192_width t1 t3 1 2 W1 W3) as V0. destruct (KEXP192 t1 t3 1 2) as [[s0 a1] a3].
  destruct S0 as [S0 L0]. destruct V0 as (F0 & N0 & A1 & A3). rewrite !app_nil_l in S0.
  pose proof (KEXP192_ok 2 (concat (words <$> s0)) a1 a3 4 8 L0 (eq_sym (Hr 3%nat ltac:(lia))) (eq_sym (Hr 4%nat ltac:(lia)))) as S1.
  pose proof (KEXP192_width a1 a3 4 8 A1 A3) as V1. destruct (KEXP192 a1 a3 4 8) as [[s3 b1] b3].
  destruct S1 as [S1 L1]. destruct V1 as (F1 & N1 & B1 & B3).
  pose proof (KEXP192_ok 4 (concat (words <$> s0) ++ concat (words <$> s3)) b1 b3 16 32
    ltac:(by rewrite length_app, L0, L1) (eq_sym (Hr 5%nat ltac:(lia))) (eq_sym (Hr 6%nat ltac:(lia)))) as S2.
  pose proof (KEXP192_width b1 b3 16 32 B1 B3) as V2. destruct (KEXP192 b1 b3 16 32) as [[s6 c1] c3].
  destruct S2 as [S2 L2]. destruct V2 as (F2 & N2 & C1 & C3).
  pose proof (KEXP192_ok 6 ((concat (words <$> s0) ++ concat (words <$> s3)) ++ concat (words <$> s6)) c1 c3 64 128
    ltac:(by rewrite !length_app, L0, L1, L2) (eq_sym (Hr 7%nat ltac:(lia))) (eq_sym (Hr 8%nat ltac:(lia)))) as S3.
  pose proof (KEXP192_width c1 c3 64 128 C1 C3) as V3. destruct (KEXP192 c1 c3 64 128) as [[s9 d1] d3].
  destruct S3 as [S3 L3]. destruct V3 as (F3 & N3 & D1 & D3). cbn [fst snd].
  split; [done|]. split_and!.
  - unfold FIPS197.KeyExpansion. rewrite Hl. change (24 / 4)%nat with 6%nat.
    change (4 * (6 + 7) - 6)%nat with 46%nat.
    rewrite (expand_take 46 2 6 _ (((concat (words <$> s0) ++ concat (words <$> s3)) ++ concat (words <$> s6)
      ++ concat (words <$> s9)) ++ words d1 ++ [lane32 0 d3; lane32 1 d3])).
    + rewrite <-Hw, length_app. change (length (words t1) + length [lane32 0 t3; lane32 1 t3] + 46)%nat with 52%nat.
      rewrite !fmap_app, !concat_app. cbn [fmap list_fmap concat]. rewrite app_nil_r.
      rewrite (app_assoc _ (words d1)), take_app_length'.
      * by rewrite <-!app_assoc.
      * rewrite !length_app, L0, L1, L2, L3. done.
    + change (46 + 2)%nat with (12 + (12 + (12 + 12)))%nat. rewrite !expand_add, <-Hw, S0, S1, S2, S3.
      by rewrite <-!app_assoc.
  - rewrite !Forall_app, Forall_singleton. done.
  - rewrite !length_app, N0, N1, N2, N3, Hl. done.
Qed.

Lemma keysched_256 key : length key = 32%nat -> Forall byte_ok key ->
  (x86ni_keysched key).2 = 14 /\ keys_of key (x86ni_keysched key).1.
Proof.
  intros Hl Hk. unfold x86ni_keysched. rewrite Hl. cbn [Nat.eqb].
  set (t1 := mm_loadu_si128 key). set (t3 := mm_loadu_si128 (drop 16 key)).
  set (rcs := [0x01; 0x02; 0x04; 0x08; 0x10; 0x20]).
  assert (Hr : rcons_from 1 rcs) by (apply rcons_from_spec; vm_compute; reflexivity).
  assert (Hw : words t1 ++ words t3 = FIPS197.key_words 8 key).
  { change 8%nat with (4 + 4)%nat. rewrite key_words_add. subst t1 t3. rewrite !load_key_words; [done| |done].
    by apply Forall_drop. }
  pose proof (kexp256_run_ok rcs 0 [] t1 t3 eq_refl Hr) as S0.
  pose proof (kexp256_run_width rcs t1 t3 (loadu_width _) (loadu_width _)) as V0.
  destruct (kexp256_run t1 t3 rcs) as [[sks u1] u3]. destruct S0 as (S0 & pre' & Hp & Lp).
  destruct V0 as (F0 & N0 & U1 & U3). rewrite !app_nil_l in S0, Hp.
  rewrite (app_assoc (words t1) (concat (words <$> sks))), Hp, <-app_assoc in S0.
  pose proof (KEXP256_ok 6 pre' u1 u3 0x40 Lp ltac:(vm_compute; reflexivity)) as S1. cbv zeta in S1.
  set (v1 := expand_step256_1 u1 _) in *. cbn [fst snd]. split; [done|]. split_and!.
  - unfold FIPS197.KeyExpansion. rewrite Hl. change (32 / 4)%nat with 8%nat.
    change (4 * (8 + 7) - 8)%nat with 52%nat.
    erewrite (expand_take 52 4 8); [|change (52 + 4)%nat with (8 * length rcs + 8)%nat; rewrite expand_add, <-Hw, S0;
      exact S1].
    rewrite <-Hw, length_app. change (length (words t1) + length (words t3) + 52)%nat with 60%nat.
    rewrite (app_assoc _ (words v1)), take_app_length'.
    + rewrite fmap_cons, concat_cons, fmap_app, concat_app. cbn [fmap list_fmap concat]. rewrite app_nil_r.
      rewrite !app_assoc, Hp. done.
    + rewrite !length_app, Lp. done.
  - constructor; [apply loadu_width|]. rewrite Forall_app, !Forall_cons.
    split_and!; [done..|by apply expand_step256_1_width|done].
  - cbn [length]. rewrite length_app, N0, Hl. done.
Qed.

(** ** The rounds *)

Lemma take_drop_words sk : forall r, (r < length sk)%nat ->
  take 4 (drop (4 * r) (concat (words <$> sk))) = words (nth r sk 0).
Proof.
  induction sk as [|k sk IH]; intros r Hr; [simpl in Hr; lia|]. rewrite fmap_cons, concat_cons.
  destruct r as [|r].
  - rewrite drop_0, take_app_length' by done. done.
  - replace (4 * S r)%nat with (length (words k) + 4 * r)%nat by (simpl; lia).
    rewrite drop_app_add. apply IH. simpl in Hr. lia.
Qed.

Lemma round_key_nth key sk r : keys_of key sk -> (r < length sk)%nat ->
  FIPS197.round_key (FIPS197.KeyExpansion key) r = nth r sk 0.
Proof.
  intros (He & Hw & Hl) Hr. unfold FIPS197.round_key. rewrite <-He, take_drop_words by done.
  apply words_inj. rewrite nth_lookup. destruct (lookup_lt_is_Some_2 sk r Hr) as [k Hk]. rewrite Hk.
  exact (Forall_lookup_1 _ _ _ _ Hw Hk).
Qed.

Lemma lane8_fmap (f : nat -> Z) i : (i < 16)%nat -> byte_ok (f i) ->
  lane8 i (of_lanes 8 (f <$> seq 0 16)) = f i.
Proof. intros Hi Hf. rewrite lane8_of_lanes, nth_fmap_seq by done. by apply wrap_small. Qed.

Lemma lane8_ok i x : byte_ok (lane8 i x).
Proof. apply w8_ok. Qed.

(** The opcodes' order and the standard's order of the two steps agree. *)
Lemma SubBytes_ShiftRows x : SubBytes (ShiftRows x) = ShiftRows (SubBytes x).
Proof.
  unfold SubBytes at 1, ShiftRows at 2. f_equal. apply list_fmap_ext. intros k i Hi.
  apply lookup_seq in Hi as [-> Hi]. cbn [Nat.add]. unfold ShiftRows, SubBytes.
  rewrite (lane8_fmap (fun i => lane8 (5 * i mod 16) x)) by (lia || apply lane8_ok).
  rewrite (lane8_fmap (fun i => sbox (lane8 i x))); [done| |apply sbox_ok].
  apply Nat.mod_upper_bound. lia.
Qed.

Lemma mm_aesenc_round x k : mm_aesenc_si128 x k = Z.lxor (MixColumns (ShiftRows (SubBytes x))) k.
Proof. rewrite <-SubBytes_ShiftRows. reflexivity. Qed.

Lemma iter_rounds_ext f g n : forall r x,
  (forall i x, (r <= i < r + n)%nat -> f i x = g i x) -> iter_rounds f r n x = iter_rounds g r n x.
Proof.
  induction n as [|n IH]; intros r x H; [done|]. cbn [iter_rounds].
  rewrite H by lia. apply IH. intros i y Hi. apply H. lia.
Qed.

Lemma iter_rounds_add f n m : forall r x,
  iter_rounds f r (n + m) x = iter_rounds f (r + n) m (iter_rounds f r n x).
Proof.
  induction n as [|n IH]; intros r x; [by rewrite Nat.add_0_r|]. cbn [Nat.add iter_rounds]. rewrite IH.
  by replace (r + S n)%nat with (S r + n)%nat by lia.
Qed.

Lemma aesenc_range_rounds key sk n r x : keys_of key sk -> (r + n <= length sk)%nat ->
  aesenc_range sk r n x = FIPS197.rounds (FIPS197.KeyExpansion key) r n x.
Proof.
  intros Hk Hr. apply iter_rounds_ext. intros i y Hi. rewrite mm_aesenc_round. unfold FIPS197.round.
  rewrite (round_key_nth key sk) by (assumption || lia). reflexivity.
Qed.

Lemma aes_block_last key sk m x :
  keys_of key sk -> length sk = (11 + m)%nat ->
  mm_aesenclast_si128 (aesenc_range sk 10 m (aesenc_range sk 1 9 (mm_xor_si128 x (nth 0 sk 0)))) (nth (10 + m) sk 0)
  = FIPS197.Cipher key x.
Proof.
  intros Hk Hl. pose proof Hk as (_ & _ & Hl'). unfold FIPS197.Cipher.
  assert (Nr : (length key / 4 + 6 = 10 + m)%nat) by lia. rewrite Nr.
  unfold mm_aesenclast_si128, mm_xor_si128. rewrite SubBytes_ShiftRows.
  rewrite !(aesenc_range_rounds key sk) by (done || lia).
  rewrite !(round_key_nth key sk) by (done || lia).
  replace (10 + m - 1)%nat with (9 + m)%nat by lia. unfold FIPS197.rounds. by rewrite iter_rounds_add.
Qed.

Lemma aesenc_range_0 sk i x : aesenc_range sk i 0 x = x.
Proof. reflexivity. Qed.

Lemma aes_block_cipher key sk m x :
  keys_of key sk -> length key = (16 + 4 * m)%nat -> (m = 0 \/ m = 2 \/ m = 4)%nat ->
  aes_block sk (10 + Z.of_nat m) x = FIPS197.Cipher key x.
Proof.
  intros Hk Hl Hm. rewrite <-(aes_block_last key sk m x Hk).
  2: { destruct Hk as (_ & _ & ->). rewrite Hl. lia. }
  unfold aes_block. destruct Hm as [->|[->| ->]].
  - rewrite aesenc_range_0. reflexivity.
  - reflexivity.
  - reflexivity.
Qed.

(** Any schedule the code computes gives the cipher of its key. *)
Lemma keysched_keys key :
  (length key = 16 \/ length key = 24 \/ length key = 32)%nat -> Forall byte_ok key ->
  keys_of key (x86ni_keysched key).1 /\ (x86ni_keysched key).2 = Z.of_nat (length key / 4 + 6).
Proof.
  intros Hl Hb. destruct Hl as [Hl|[Hl|Hl]].
  - destruct (keysched_128 key Hl Hb) as [-> Hk]. by rewrite Hl.
  - destruct (keysched_192 key Hl Hb) as [-> Hk]. by rewrite Hl.
  - destruct (keysched_256 key Hl Hb) as [-> Hk]. by rewrite Hl.
Qed.

Lemma keys_cipher key sk nr x :
  (length key = 16 \/ length key = 24 \/ length key = 32)%nat ->
  keys_of key sk -> nr = Z.of_nat (length key / 4 + 6) -> aes_block sk nr x = FIPS197.Cipher key x.
Proof.
  intros Hl Hk ->. destruct Hl as [Hl|[Hl|Hl]].
  - rewrite <-(aes_block_cipher key sk 0 x Hk Hl) by lia. by rewrite Hl.
  - rewrite <-(aes_block_cipher key sk 2 x Hk Hl) by lia. by rewrite Hl.
  - rewrite <-(aes_block_cipher key sk 4 x Hk Hl) by lia. by rewrite Hl.
Qed.

(** ** Properties *)

(** C13: for keys of 16, 24 and 32 bytes the AES-NI key schedule returns the
    subkeys of the FIPS 197 key expansion and its number of rounds, and the
    rounds built from the opcodes are the FIPS 197 cipher. *)
Theorem aes_x86ni_fips197 (key : bytes) (x : m128) :
  (length key = 16 \/ length key = 24 \/ length key = 32)%nat -> Forall byte_ok key ->
  concat (words <$> (x86ni_keysched key).1) = FIPS197.KeyExpansion key /\
  (x86ni_keysched key).2 = Z.of_nat (length key / 4 + 6) /\
  aes_block (x86ni_keysched key).1 (x86ni_keysched key).2 x = FIPS197.Cipher key x.
Proof.
  intros Hl Hb. destruct (keysched_keys key Hl Hb) as [Hk Hn]. split_and!; [apply Hk|done|].
  by apply keys_cipher.
Qed.

Lemma aes_x86ni_fips197_witness :
  let key := Z.of_nat <$> seq 0 24 in
  concat (words <$> (x86ni_keysched key).1) = FIPS197.KeyExpansion key /\
  (x86ni_keysched key).2 = Z.of_nat (length key / 4 + 6) /\
  aes_block (x86ni_keysched key).1 (x86ni_keysched key).2 0x1234 = FIPS197.Cipher key 0x1234.
Proof.
  intros key. apply (aes_x86ni_fips197 key 0x1234); [right; left; reflexivity|].
  apply Forall_fmap, Forall_forall. intros i Hi%elem_of_seq. unfold byte_ok. simpl. lia.
Defined.

(** The example vector of FIPS 197, appendix C.1. *)
Example fips197_c1 :
  mm_storeu_si128 (FIPS197.Cipher (Z.of_nat <$> seq 0 16)
    (mm_loadu_si128 [0x00; 0x11; 0x22; 0x33; 0x44; 0x55; 0x66; 0x77; 0x88; 0x99; 0xaa; 0xbb; 0xcc; 0xdd; 0xee; 0xff])) =
  [0x69; 0xc4; 0xe0; 0xd8; 0x6a; 0x7b; 0x04; 0x30; 0xd8; 0xcd; 0xb7; 0x80; 0x70; 0xb4; 0xc5; 0x5a].
Proof. vm_compute. reflexivity. Qed.
