(* ===== verification/AesCtr.v ===== *)
(** * AES in counter mode
    (bearssl/src/bearssl/symcipher/aes_x86ni_ctr.c; [br_block_ctr_class] of
    include/bearssl_block.h)

    Four blocks are encrypted at a time; the last group may be shorter than 64
    bytes.  The file proves that the loop xors the data with the key stream
    [E(iv || cc) E(iv || cc+1) ...] and returns the counter advanced by the
    number of full blocks, and states this as the contract of a CTR
    implementation, on which GCM and the AES-CTR generator rely. *)
From S2P Require Import Prelude Inner Hash Simd Aes.
Local Open Scope Z_scope.

(** ** Implementation *)

(** [br_aes_x86ni_ctr_keys] *)
Record br_aes_x86ni_ctr_keys := mkCtrKeys { skni : bytes; num_rounds : Z }.

Definition br_aes_x86ni_ctr_init (key : bytes) : br_aes_x86ni_ctr_keys :=
  let '(sk, n) := br_aes_x86ni_keysched_enc key in mkCtrKeys sk n.

(** [__builtin_bswap32] *)
Definition br_bswap32 (x : Z) : Z := br_dec32be (br_enc32le x).

(** [sk[u] = _mm_loadu_si128(skni + (u << 4))] for [u] up to [num_rounds]. *)
Definition load_subkeys (ctx : br_aes_x86ni_ctr_keys) : list m128 :=
  (fun u => mm_loadu_si128 (drop (16 * u) (skni ctx))) <$> seq 0 (Z.to_nat (num_rounds ctx) + 1).

(** The encrypted counter block [cc + j]. *)
Definition ctr_block (sk : list m128) (nr : Z) (ivx : m128) (cc : Z) (j : Z) : m128 :=
  aes_block sk nr (mm_insert_epi32_3 ivx (br_bswap32 (w32 (cc + j)))).

(** [buf[16 j ..]] xored with a block. *)
Definition xor_block (x : m128) (j : nat) (buf : bytes) : bytes :=
  mm_storeu_si128 (mm_xor_si128 x (mm_loadu_si128 (drop (16 * j) buf))).

Fixpoint ctr_loop (fuel : nat) (sk : list m128) (nr : Z) (ivx : m128) (cc : Z) (data : bytes)
    : bytes * Z :=
  match fuel, data with
  | S fuel, _ :: _ =>
      let x0 := ctr_block sk nr ivx cc 0 in
      let x1 := ctr_block sk nr ivx cc 1 in
      let x2 := ctr_block sk nr ivx cc 2 in
      let x3 := ctr_block sk nr ivx cc 3 in
      if (64 <=? length data)%nat then
        let '(rest, cc') := ctr_loop fuel sk nr ivx (w32 (cc + 4)) (drop 64 data) in
        (xor_block x0 0 data ++ xor_block x1 1 data ++ xor_block x2 2 data ++ xor_block x3 3 data ++ rest, cc')
      else
        let tmp := mm_storeu_si128 x0 ++ mm_storeu_si128 x1 ++ mm_storeu_si128 x2 ++ mm_storeu_si128 x3 in
        (imap (fun u b => Z.lxor b (byte_at tmp u)) data,
         w32 (cc + Z.shiftr (Z.of_nat (length data)) 4))
  | _, _ => (data, cc)
  end.

(** The new bytes of the data and the new counter.  The last four bytes of
    [ivbuf] are replaced by the counter in every block. *)
Definition br_aes_x86ni_ctr_run (ctx : br_aes_x86ni_ctr_keys) (iv : bytes) (cc : Z) (data : bytes)
    : bytes * Z :=
  ctr_loop (length data) (load_subkeys ctx) (num_rounds ctx) (mm_loadu_si128 (take 12 iv)) cc data.

(** [br_block_ctr_class] *)
Record br_block_ctr_class (K : Type) := mkCtrClass {
  ctr_init : bytes -> K;
  ctr_run : K -> bytes -> Z -> bytes -> bytes * Z
}.
Arguments mkCtrClass {K}. Arguments ctr_init {K}. Arguments ctr_run {K}.

Definition br_aes_x86ni_ctr_vtable : br_block_ctr_class br_aes_x86ni_ctr_keys :=
  mkCtrClass br_aes_x86ni_ctr_init br_aes_x86ni_ctr_run.

(** ** Specification: counter mode over a block cipher *)

(** Byte [i] of the key stream of the block function [E]. *)
Definition stream (E : bytes -> bytes) (iv : bytes) (cc : Z) (i : nat) : Z :=
  byte_at (E (iv ++ br_enc32be (w32 (cc + Z.of_nat (i / 16))))) (i mod 16).

Definition xor_stream (f : nat -> Z) (data : bytes) : bytes := imap (fun i b => Z.lxor b (f i)) data.

(** [cls] is counter mode over the block functions [E key], for the keys that
    [good_key] accepts. *)
Class CtrOk {K} (cls : br_block_ctr_class K) (E : bytes -> bytes -> bytes) (good_key : bytes -> Prop) := {
  ctr_keyed : bytes -> K -> Prop;
  ctr_init_keyed key : good_key key -> ctr_keyed key (ctr_init cls key);
  ctr_run_stream key k iv cc data :
    ctr_keyed key k -> length iv = 12%nat -> Forall byte_ok iv -> Forall byte_ok data -> in_width 32 cc ->
    ctr_run cls k iv cc data =
    (xor_stream (stream (E key) iv cc) data, w32 (cc + Z.of_nat (length data / 16)));
  block_length key b : length (E key b) = 16%nat;
  block_bytes key b : Forall byte_ok (E key b)
}.

(** ** Streams *)

Lemma xor_stream_length f data : length (xor_stream f data) = length data.
Proof. apply length_imap. Qed.

Lemma xor_stream_app f a b :
  xor_stream f (a ++ b) = xor_stream f a ++ xor_stream (fun i => f (length a + i)%nat) b.
Proof. unfold xor_stream. by rewrite imap_app. Qed.

Lemma xor_stream_ext f g data :
  (forall i, (i < length data)%nat -> f i = g i) -> xor_stream f data = xor_stream g data.
Proof.
  intros H. apply imap_ext. intros i x Hx. rewrite H; [done|]. by apply lookup_lt_Some in Hx.
Qed.

Lemma xor_stream_involutive f data : xor_stream f (xor_stream f data) = data.
Proof.
  apply list_eq. intros i. unfold xor_stream. rewrite !list_lookup_imap.
  destruct (data !! i) as [x|]; [|done]. simpl. f_equal.
  rewrite Z.lxor_assoc, Z.lxor_nilpotent. apply Z.lxor_0_r.
Qed.

(** Consecutive pieces of the data. *)
Lemma xor_stream_step f n m data : (n + m <= length data)%nat ->
  xor_stream f (take n data) ++ xor_stream (fun i => f (n + i)%nat) (take m (drop n data)) =
  xor_stream f (take (n + m) data).
Proof.
  intros H. rewrite <-take_take_drop, xor_stream_app, length_take, Nat.min_l by lia. done.
Qed.

Lemma lxor_byte_ok a b : byte_ok a -> byte_ok b -> byte_ok (Z.lxor a b).
Proof. apply (lxor_in_width 8). lia. Qed.

Lemma xor_stream_ok f data : (forall i, byte_ok (f i)) -> Forall byte_ok data -> Forall byte_ok (xor_stream f data).
Proof.
  intros Hf Hd. apply Forall_lookup. intros i x. unfold xor_stream. rewrite list_lookup_imap.
  destruct (data !! i) as [y|] eqn:Ey; [|done]. intros [= <-].
  apply lxor_byte_ok; [exact (Forall_lookup_1 _ _ _ _ Hd Ey)|done].
Qed.

(** Whole blocks of the stream advance the counter. *)
Lemma stream_shift E iv cc k i : in_width 32 cc ->
  stream E iv cc (16 * k + i) = stream E iv (w32 (cc + Z.of_nat k)) i.
Proof.
  intros Hc. unfold stream.
  replace ((16 * k + i) / 16)%nat with (k + i / 16)%nat by lia.
  replace ((16 * k + i) mod 16)%nat with (i mod 16)%nat by lia.
  do 4 f_equal. unfold wrap. rewrite Zplus_mod_idemp_l. f_equal. lia.
Qed.

(** ** The implementation meets the contract *)

(** The block function of AES under a key. *)
Definition AES (key b : bytes) : bytes := mm_storeu_si128 (FIPS197.Cipher key (mm_loadu_si128 b)).

Lemma counter_block iv cc : length iv = 12%nat -> Forall byte_ok iv -> in_width 32 cc ->
  mm_insert_epi32_3 (mm_loadu_si128 (take 12 iv)) (br_bswap32 cc) = mm_loadu_si128 (iv ++ br_enc32be cc).
Proof.
  intros Hl Hi Hc. rewrite take_ge by lia.
  assert (Ha : Forall byte_ok (iv ++ br_enc32be cc)) by (apply Forall_app; split; [done|apply enc32be_ok]).
  apply lanes32_inj; [by apply of_lanes_width|apply loadu_width|].
  intros i Hi4. unfold mm_insert_epi32_3. rewrite lane32_of_lanes, (lane32_load (iv ++ br_enc32be cc)) by assumption.
  destruct i as [|[|[|[|i]]]]; cbn [nth]; [| | | |lia].
  1-3: rewrite wrap_small by apply lane32_width; rewrite lane32_load by (done || lia);
       rewrite !dec32le_rev, !byte_at_drop; unfold byte_at; rewrite !app_nth1 by lia; done.
  replace (4 * 3)%nat with (length iv) by lia. rewrite drop_app_length.
  unfold br_bswap32. rewrite wrap_small by (apply dec32be_width; rewrite enc32le_rev; apply Forall_rev, enc32be_ok).
  by rewrite dec32le_rev.
Qed.

Lemma lane8_xor i x y : lane8 i (mm_xor_si128 x y) = Z.lxor (lane8 i x) (lane8 i y).
Proof.
  apply Z.bits_inj'. intros j Hj. unfold lane8, mm_xor_si128.
  rewrite Z.lxor_spec, !lane_testbit, Z.lxor_spec by lia. by destruct (j <? 8).
Qed.

Lemma byte_at_store x i : (i < 16)%nat -> byte_at (mm_storeu_si128 x) i = lane8 i x.
Proof. intros Hi. unfold byte_at, mm_storeu_si128. by apply (nth_fmap_seq (fun i => lane8 i x)). Qed.

Lemma lane8_load s i : (i < 16)%nat -> Forall byte_ok s -> lane8 i (mm_loadu_si128 s) = byte_at s i.
Proof.
  intros Hi Hs. unfold mm_loadu_si128. rewrite lane8_of_lanes, nth_fmap_seq by done.
  apply wrap_small, byte_at_ok, Hs.
Qed.

Lemma xor_block_stream x j data : (16 * j + 16 <= length data)%nat -> Forall byte_ok data ->
  xor_block x j data = xor_stream (byte_at (mm_storeu_si128 x)) (take 16 (drop (16 * j) data)).
Proof.
  intros Hl Hd. apply (list_eq_same_length _ _ 16); [rewrite xor_stream_length, length_take, length_drop; lia|done|].
  intros i a b Hi Ha Hb. unfold xor_block, mm_storeu_si128 in Ha. apply list_lookup_fmap_Some in Ha as (k & -> & Hk).
  apply lookup_seq in Hk as [-> _]. cbn [Nat.add]. unfold xor_stream in Hb. rewrite list_lookup_imap in Hb.
  destruct (take 16 (drop (16 * j) data) !! i) as [y|] eqn:Ey; [|done]. injection Hb as <-.
  rewrite lane8_xor, lane8_load, byte_at_store by (assumption || by apply Forall_drop).
  rewrite Z.lxor_comm. f_equal. unfold byte_at. apply nth_lookup_Some.
  by rewrite lookup_take_lt in Ey by done.
Qed.

Section ctr_proof.
Context (key : bytes) (sk : list m128) (nr : Z) (iv : bytes).
Hypothesis Hblk : forall x, aes_block sk nr x = FIPS197.Cipher key x.
Hypothesis Hiv : length iv = 12%nat.
Hypothesis Hivb : Forall byte_ok iv.

Abbreviation ivx := (mm_loadu_si128 (take 12 iv)).
Abbreviation ks := (stream (AES key) iv).

Lemma ctr_block_AES cc j :
  mm_storeu_si128 (ctr_block sk nr ivx cc j) = AES key (iv ++ br_enc32be (w32 (cc + j))).
Proof.
  unfold ctr_block. rewrite Hblk, counter_block by (assumption || (apply wrap_in_width; lia)). reflexivity.
Qed.

Lemma ctr_block_stream cc j i : (i < 16)%nat ->
  byte_at (mm_storeu_si128 (ctr_block sk nr ivx cc (Z.of_nat j))) i = ks cc (16 * j + i)%nat.
Proof.
  intros Hi. rewrite ctr_block_AES. unfold stream.
  replace ((16 * j + i) / 16)%nat with j by lia. replace ((16 * j + i) mod 16)%nat with i by lia. done.
Qed.

(** The four blocks of a group, one after the other. *)
Definition group (cc : Z) : bytes :=
  mm_storeu_si128 (ctr_block sk nr ivx cc 0) ++ mm_storeu_si128 (ctr_block sk nr ivx cc 1)
  ++ mm_storeu_si128 (ctr_block sk nr ivx cc 2) ++ mm_storeu_si128 (ctr_block sk nr ivx cc 3).

Lemma byte_at_app a b i : byte_at (a ++ b) i = if (i <? length a)%nat then byte_at a i else byte_at b (i - length a).
Proof.
  unfold byte_at. destruct (Nat.ltb_spec i (length a)); [by apply app_nth1|by apply app_nth2].
Qed.

Lemma group_stream cc u : (u < 64)%nat -> byte_at (group cc) u = ks cc u.
Proof.
  intros Hu. unfold group. rewrite !byte_at_app, !storeu_length.
  pose proof (ctr_block_stream cc 0) as B0. pose proof (ctr_block_stream cc 1) as B1.
  pose proof (ctr_block_stream cc 2) as B2. pose proof (ctr_block_stream cc 3) as B3.
  change (Z.of_nat 0) with 0 in B0. change (Z.of_nat 1) with 1 in B1.
  change (Z.of_nat 2) with 2 in B2. change (Z.of_nat 3) with 3 in B3.
  destruct (Nat.ltb_spec u 16); [by rewrite B0 by lia|].
  destruct (Nat.ltb_spec (u - 16) 16); [rewrite B1 by lia; f_equal; lia|].
  destruct (Nat.ltb_spec (u - 16 - 16) 16); [rewrite B2 by lia; f_equal; lia|].
  rewrite B3 by lia. f_equal. lia.
Qed.

Lemma xor_block_group cc j data : (16 * j + 16 <= length data)%nat -> Forall byte_ok data ->
  xor_block (ctr_block sk nr ivx cc (Z.of_nat j)) j data =
  xor_stream (fun i => ks cc (16 * j + i)%nat) (take 16 (drop (16 * j) data)).
Proof.
  intros Hl Hd. rewrite xor_block_stream by done. apply xor_stream_ext. intros i Hi.
  rewrite length_take in Hi. apply ctr_block_stream. lia.
Qed.

Lemma xor_four cc data : (64 <= length data)%nat -> Forall byte_ok data ->
  xor_block (ctr_block sk nr ivx cc 0) 0 data ++ xor_block (ctr_block sk nr ivx cc 1) 1 data
  ++ xor_block (ctr_block sk nr ivx cc 2) 2 data ++ xor_block (ctr_block sk nr ivx cc 3) 3 data =
  xor_stream (ks cc) (take 64 data).
Proof.
  intros Hl Hd.
  pose proof (xor_block_group cc 0 data ltac:(lia) Hd) as B0. pose proof (xor_block_group cc 1 data ltac:(lia) Hd) as B1.
  pose proof (xor_block_group cc 2 data ltac:(lia) Hd) as B2. pose proof (xor_block_group cc 3 data ltac:(lia) Hd) as B3.
  change (Z.of_nat 0) with 0 in B0. change (Z.of_nat 1) with 1 in B1.
  change (Z.of_nat 2) with 2 in B2. change (Z.of_nat 3) with 3 in B3.
  rewrite B0, B1, B2, B3.
  change (16 * 0)%nat with 0%nat. change (16 * 1)%nat with 16%nat.
  change (16 * 2)%nat with 32%nat. change (16 * 3)%nat with 48%nat. rewrite drop_0.
  rewrite app_assoc, (xor_stream_step (ks cc) 16 16) by lia.
  rewrite app_assoc, (xor_stream_step (ks cc) 32 16) by lia.
  rewrite (xor_stream_step (ks cc) 48 16) by lia. done.
Qed.

Lemma ctr_loop_ok fuel : forall cc data,
  (length data <= fuel)%nat -> Forall byte_ok data -> in_width 32 cc ->
  ctr_loop fuel sk nr ivx cc data = (xor_stream (ks cc) data, w32 (cc + Z.of_nat (length data / 16))).
Proof.
  induction fuel as [|fuel IH]; intros cc [|b data] Hf Hd Hc; cbn [ctr_loop];
    try (rewrite Z.add_0_r, wrap_small by done; done); [simpl in Hf; lia|].
  set (d := b :: data) in *. cbv zeta.
  destruct (Nat.leb_spec 64 (length d)) as [Hge|Hlt].
  - rewrite IH; [|rewrite length_drop; lia|by apply Forall_drop|apply wrap_in_width; lia].
    rewrite !app_assoc, <-!app_assoc, (app_assoc (xor_block _ 2 d)), (app_assoc (xor_block _ 1 d)), (app_assoc (xor_block _ 0 d)).
    rewrite xor_four by done. f_equal.
    + rewrite <-(take_drop 64 d) at 3. rewrite xor_stream_app. f_equal.
      rewrite length_take, Nat.min_l by done. apply xor_stream_ext. intros i _.
      change 4 with (Z.of_nat 4). rewrite <-stream_shift by done. done.
    + unfold wrap. rewrite Zplus_mod_idemp_l, length_drop. f_equal.
      replace ((length d - 64) / 16)%nat with (length d / 16 - 4)%nat by lia. lia.
  - f_equal.
    + fold (group cc). apply (xor_stream_ext (byte_at (group cc)) (ks cc)). intros i Hi. apply group_stream. lia.
    + rewrite Z.shiftr_div_pow2 by lia. do 2 f_equal. lia.
Qed.
End ctr_proof.

(** The subkeys survive their round trip through memory. *)
Lemma load_stores sk : forall u, Forall (in_width 128) sk -> (u < length sk)%nat ->
  mm_loadu_si128 (drop (16 * u) (concat (mm_storeu_si128 <$> sk))) = nth u sk 0.
Proof.
  induction sk as [|k sk IH]; intros u Hw Hu; [simpl in Hu; lia|].
  apply Forall_cons in Hw as [Hk Hw]. rewrite fmap_cons, concat_cons. destruct u as [|u].
  - rewrite drop_0. cbn [nth]. rewrite <-(load_store k Hk) at 2. reflexivity.
  - replace (16 * S u)%nat with (length (mm_storeu_si128 k) + 16 * u)%nat by (rewrite storeu_length; lia).
    rewrite drop_app_add. apply IH; [done|]. simpl in Hu. lia.
Qed.

Lemma init_subkeys key : (length key = 16 \/ length key = 24 \/ length key = 32)%nat -> Forall byte_ok key ->
  load_subkeys (br_aes_x86ni_ctr_init key) = (x86ni_keysched key).1 /\
  num_rounds (br_aes_x86ni_ctr_init key) = (x86ni_keysched key).2.
Proof.
  intros Hl Hb. destruct (keysched_keys key Hl Hb) as [(_ & Hw & Hn) Hr].
  unfold br_aes_x86ni_ctr_init, br_aes_x86ni_keysched_enc.
  destruct (x86ni_keysched key) as [sk nr]. cbn [fst snd] in *. split; [|done].
  unfold load_subkeys. cbn [skni num_rounds].
  assert (Hnr : (Z.to_nat nr + 1)%nat = length sk) by lia.
  rewrite (take_ge sk) by lia. rewrite Hnr. clear Hnr Hn Hr.
  apply list_eq. intros i. rewrite list_lookup_fmap.
  destruct (decide (i < length sk)%nat) as [Hi|Hi].
  - rewrite lookup_seq_lt by lia. cbn [fmap option_fmap option_map Nat.add]. rewrite load_stores by done.
    destruct (lookup_lt_is_Some_2 sk i Hi) as [k Hk]. rewrite Hk. f_equal. by apply nth_lookup_Some.
  - rewrite lookup_seq_ge, lookup_ge_None_2 by lia. done.
Qed.

(** The keys that AES accepts. *)
Definition aes_key (key : bytes) : Prop :=
  (length key = 16 \/ length key = 24 \/ length key = 32)%nat /\ Forall byte_ok key.

#[export] Program Instance aes_x86ni_ctr_ok : CtrOk br_aes_x86ni_ctr_vtable AES aes_key := {|
  ctr_keyed := fun key k => aes_key key /\ k = br_aes_x86ni_ctr_init key |}.
Next Obligation. done. Qed.
Next Obligation.
  intros key k iv cc data [[Hl Hb] ->] Hiv Hivb Hd Hc. cbn [ctr_run br_aes_x86ni_ctr_vtable].
  unfold br_aes_x86ni_ctr_run. destruct (init_subkeys key Hl Hb) as [-> ->].
  destruct (keysched_keys key Hl Hb) as [Hk Hn].
  apply ctr_loop_ok; [|done..]. intros x. by apply keys_cipher.
Qed.
Next Obligation. intros. apply storeu_length. Qed.
Next Obligation. intros. apply storeu_ok. Qed.

Lemma stream_ok {K} (cls : br_block_ctr_class K) E good `{!CtrOk cls E good} key iv cc i :
  byte_ok (stream (E key) iv cc i).
Proof. apply byte_at_ok, (block_bytes (cls := cls)). Qed.

(** ** Properties *)

(** C25: AES counter mode with an initialised key, a 12-byte nonce and a 32-bit
    counter xors data of any length with the key stream of the FIPS 197 cipher
    over [iv || counter] and returns the counter advanced by the number of
    full blocks; running it again from the same counter gives the data back. *)
Theorem aes_ctr_correct (key iv : bytes) (cc : Z) (data : bytes) :
  aes_key key -> length iv = 12%nat -> Forall byte_ok iv -> Forall byte_ok data -> in_width 32 cc ->
  let run := br_aes_x86ni_ctr_run (br_aes_x86ni_ctr_init key) iv cc in
  run data = (xor_stream (stream (AES key) iv cc) data, w32 (cc + Z.of_nat (length data / 16))) /\
  (run (run data).1).1 = data.
Proof.
  intros Hk Hl Hi Hd Hc run.
  assert (Hr : forall d, Forall byte_ok d ->
    run d = (xor_stream (stream (AES key) iv cc) d, w32 (cc + Z.of_nat (length d / 16)))).
  { intros d Hd'. by apply (ctr_run_stream (cls := br_aes_x86ni_ctr_vtable) key). }
  split; [by apply Hr|]. rewrite (Hr data Hd). cbn [fst]. rewrite Hr; [apply xor_stream_involutive|].
  apply xor_stream_ok; [|done]. intros i. apply (stream_ok br_aes_x86ni_ctr_vtable AES aes_key).
Qed.

Lemma aes_ctr_correct_witness :
  let key := Z.of_nat <$> seq 0 16 in let iv := replicate 12 7 in let data := replicate 70 1 in
  let run := br_aes_x86ni_ctr_run (br_aes_x86ni_ctr_init key) iv 0xFFFFFFFE in
  run data = (xor_stream (stream (AES key) iv 0xFFFFFFFE) data, w32 (0xFFFFFFFE + Z.of_nat (length data / 16))) /\
  (run (run data).1).1 = data.
Proof.
  intros key iv data. apply (aes_ctr_correct key iv 0xFFFFFFFE data).
  - split; [left; reflexivity|]. apply Forall_fmap, Forall_forall. intros i Hi%elem_of_seq. unfold byte_ok. simpl. lia.
  - reflexivity.
  - apply Forall_replicate. unfold byte_ok. lia.
  - apply Forall_replicate. unfold byte_ok. lia.
  - split; lia.
Defined.
