(* ===== verification/AesCtrDrbg.v ===== *)
(** * The AES-CTR pseudo-random generator
    (bearssl/src/bearssl/rand/aesctr_drbg.c; [br_aesctr_drbg_context] of
    include/bearssl_rand.h)

    The key stream of AES-128 under a key that is replaced, through a
    Hirose hash over AES-256, on every update and every 32768 blocks.  The
    theorems rely on the contract [CtrOk] of the counter-mode implementation
    only. *)
From S2P Require Import Prelude Inner Hash Simd Aes AesCtr.
Local Open Scope Z_scope.

Record br_aesctr_drbg_context (K : Type) := mkCtrDrbg { drbg_sk : K; drbg_cc : Z }.
Arguments mkCtrDrbg {K}. Arguments drbg_sk {K}. Arguments drbg_cc {K}.

(** ** The code *)

Section code.
Context {K : Type} (cls : br_block_ctr_class K).

(** [G] and [H] of the Hirose hash after the key [tmp]. *)
Definition hirose_round (tmp G : bytes) : bytes * bytes :=
  let sk := ctr_init cls tmp in
  let iv := take 12 G in
  let newG := (ctr_run cls sk iv (br_dec32be (drop 12 G)) G).1 in
  let iv := <[0%nat := Z.lxor (byte_at iv 0) 0x01]> iv in
  let H := <[0%nat := Z.lxor (byte_at G 0) 0x01]> G in
  let H := (ctr_run cls sk iv (br_dec32be (drop 12 G)) H).1 in
  (newG, H).

(** The loop over the seed, after its first turn. *)
Fixpoint update_loop (fuel : nat) (G H seed : bytes) : bytes * bytes :=
  match fuel with
  | O => (G, H)
  | S fuel =>
      if (length seed =? 0)%nat then (G, H)
      else
        let clen := if (length seed <? 16)%nat then length seed else 16%nat in
        let tmp := H ++ take clen seed ++ replicate (16 - clen) 0 in
        let '(G, H) := hirose_round tmp G in
        update_loop fuel G H (drop clen seed)
  end.

Definition br_aesctr_drbg_update (seed : bytes) (ctx : br_aesctr_drbg_context K) : br_aesctr_drbg_context K :=
  let s := (ctr_run cls (drbg_sk ctx) (replicate 12 0xFF) 0xFFFFFFFF (replicate 16 0)).1 in
  let G := replicate 16 0xB6 in
  let H := replicate 16 0x5A in
  let '(G, H) := hirose_round (H ++ s) G in
  let '(G, H) := update_loop (S (length seed)) G H seed in
  mkCtrDrbg (ctr_init cls H) 0.

Definition br_aesctr_drbg_init (seed : bytes) : br_aesctr_drbg_context K :=
  br_aesctr_drbg_update seed (mkCtrDrbg (ctr_init cls (replicate 16 0)) 0).

(** The number of bytes of one turn of the loop. *)
Definition generate_clen (cc : Z) (len : nat) : nat :=
  let clen := Z.of_nat len in
  let clen := if 65280 <? clen then 65280 else clen in
  let clen :=
    if 32768 <? w32 (cc + Z.shiftr (clen + 15) 4) then
      let clen := w32 (Z.shiftl (w32 (32768 - cc)) 4) in
      if Z.of_nat len <? clen then Z.of_nat len else clen
    else clen in
  Z.to_nat clen.

Fixpoint generate_loop (fuel : nat) (len : nat) (ctx : br_aesctr_drbg_context K)
    : br_aesctr_drbg_context K * bytes :=
  match fuel with
  | O => (ctx, [])
  | S fuel =>
      if (len =? 0)%nat then (ctx, [])
      else
        let clen := generate_clen (drbg_cc ctx) len in
        let '(out, cc) := ctr_run cls (drbg_sk ctx) (replicate 12 0) (drbg_cc ctx) (replicate clen 0) in
        let ctx := mkCtrDrbg (drbg_sk ctx) cc in
        let ctx := if 32768 <=? cc then br_aesctr_drbg_update [] ctx else ctx in
        let '(ctx, out') := generate_loop fuel (len - clen) ctx in
        (ctx, out ++ out')
  end.

(** Every turn produces at least one byte, so [len] turns are enough. *)
Definition br_aesctr_drbg_generate (len : nat) (ctx : br_aesctr_drbg_context K)
    : br_aesctr_drbg_context K * bytes :=
  generate_loop (S len) len ctx.
End code.

(** ** Specification *)

Section spec.
Context (E : bytes -> bytes -> bytes).

Definition xor_bytes (a b : bytes) : bytes := zip_with Z.lxor a b.

(** The constant of the Hirose construction. *)
Definition hirose_C : bytes := 1 :: replicate 15 0.

Definition hirose_step (GH : bytes * bytes) (m : bytes) : bytes * bytes :=
  let '(G, H) := GH in
  (xor_bytes (E (H ++ m) G) G,
   xor_bytes (E (H ++ m) (xor_bytes G hirose_C)) (xor_bytes G hirose_C)).

(** The blocks of a string, the last one completed with zeros. *)
Fixpoint seed_blocks (n : nat) (s : bytes) : list bytes :=
  match n with
  | O => []
  | S n => (take 16 s ++ replicate (16 - length (take 16 s)) 0) :: seed_blocks n (drop 16 s)
  end.

(** The hash, from an initial [H] of bytes [h0]. *)
Definition hirose_from (h0 : Z) (s : bytes) : bytes * bytes :=
  fold_left hirose_step (seed_blocks ((length s + 15) / 16) s) (replicate 16 0xB6, replicate 16 h0).

(** The new key: the first half of the hash of the encrypted all-one block
    and the seed. *)
Definition next_key_from (h0 : Z) (key seed : bytes) : bytes := (hirose_from h0 (E key (replicate 16 0xFF) ++ seed)).2.

(** The generator: a key and a number of blocks produced with it. *)
Definition drbg_block (st : bytes * Z) : bytes := E st.1 (replicate 12 0 ++ br_enc32be st.2).
Definition drbg_next_from (h0 : Z) (st : bytes * Z) : bytes * Z :=
  if st.2 + 1 =? 32768 then (next_key_from h0 st.1 [], 0) else (st.1, st.2 + 1).

(** The documented generator (bearssl_rand.h): successive blocks of the key
    stream, each used for one request only. *)
Fixpoint documented_blocks (h0 : Z) (k : nat) (st : bytes * Z) : (bytes * Z) * bytes :=
  match k with
  | O => (st, [])
  | S k => let '(st', out) := documented_blocks h0 k (drbg_next_from h0 st) in (st', drbg_block st ++ out)
  end.

Definition documented_generate (h0 : Z) (st : bytes * Z) (len : nat) : (bytes * Z) * bytes :=
  let '(st', out) := documented_blocks h0 ((len + 15) / 16) st in (st', take len out).

Fixpoint documented_all (h0 : Z) (st : bytes * Z) (lens : list nat) : list bytes :=
  match lens with
  | [] => []
  | n :: lens => let '(st, out) := documented_generate h0 st n in out :: documented_all h0 st lens
  end.

(** The constant of the code; the comment above it says [A5]. *)
Definition next_key : bytes -> bytes -> bytes := next_key_from 0x5A.
Definition drbg_next : bytes * Z -> bytes * Z := drbg_next_from 0x5A.

(** What the code returns: [len] bytes, block after block, where a partial last
    block is not counted. *)
Fixpoint drbg_bytes (n : nat) (st : bytes * Z) (len : nat) : (bytes * Z) * bytes :=
  match n with
  | O => (st, [])
  | S n =>
      if (len <? 16)%nat then (st, take len (drbg_block st))
      else let '(st', out) := drbg_bytes n (drbg_next st) (len - 16) in (st', drbg_block st ++ out)
  end.

Definition drbg_generate (st : bytes * Z) (len : nat) : (bytes * Z) * bytes :=
  drbg_bytes (S (len / 16)) st len.
End spec.

(** ** One block *)

Lemma xor_bytes_length a b : length a = length b -> length (xor_bytes a b) = length a.
Proof. intros H. unfold xor_bytes. rewrite length_zip_with. lia. Qed.

Lemma xor_bytes_ok a b : Forall byte_ok a -> Forall byte_ok b -> Forall byte_ok (xor_bytes a b).
Proof.
  intros Ha Hb. apply Forall_lookup. intros i x. unfold xor_bytes. rewrite lookup_zip_with.
  destruct (a !! i) as [u|] eqn:Eu; [|done]. cbn. destruct (b !! i) as [v|] eqn:Ev; [|done]. cbn.
  intros [= <-]. apply lxor_byte_ok; [exact (Forall_lookup_1 _ _ _ _ Ha Eu)|exact (Forall_lookup_1 _ _ _ _ Hb Ev)].
Qed.

Lemma xor_bytes_zeros a n : length a = n -> xor_bytes a (replicate n 0) = a.
Proof.
  intros <-. induction a as [|x a IH]; [done|]. cbn [length replicate]. unfold xor_bytes in *. cbn [zip_with].
  by rewrite Z.lxor_0_r, IH.
Qed.

Lemma xor_stream_bytes (f : nat -> Z) (e d : bytes) : length e = length d ->
  (forall i, (i < length d)%nat -> f i = byte_at e i) -> xor_stream f d = xor_bytes e d.
Proof.
  intros Hl Hf. apply list_eq. intros i. unfold xor_stream, xor_bytes. rewrite list_lookup_imap, lookup_zip_with.
  destruct (d !! i) as [x|] eqn:Ex.
  - assert (Hi : (i < length d)%nat) by (by apply lookup_lt_Some in Ex).
    destruct (lookup_lt_is_Some_2 e i ltac:(lia)) as [z Hz]. rewrite Hz. cbn. f_equal.
    rewrite Hf by done. unfold byte_at. rewrite (nth_lookup_Some _ _ _ _ Hz). apply Z.lxor_comm.
  - cbn. by destruct (e !! i).
Qed.

Section proof.
Context {K : Type} {cls : br_block_ctr_class K} {E : bytes -> bytes -> bytes} {good : bytes -> Prop}.
Context `{!CtrOk cls E good}.
(** AES accepts the keys of 16 and 32 bytes. *)
Context (Hgood : forall k, (length k = 16 \/ length k = 32)%nat -> Forall byte_ok k -> good k).

Lemma ctr_one_block key k b d : ctr_keyed key k -> length b = 16%nat -> Forall byte_ok b ->
  length d = 16%nat -> Forall byte_ok d ->
  (ctr_run cls k (take 12 b) (br_dec32be (drop 12 b)) d).1 = xor_bytes (E key b) d.
Proof.
  intros Hk Hb Hbo Hd Hdo.
  rewrite (ctr_run_stream (cls := cls) key); [|done|rewrite length_take; lia|by apply Forall_take|done|
    apply dec32be_width; by apply Forall_drop]. cbn [fst].
  apply xor_stream_bytes; [rewrite (block_length (cls := cls)); lia|]. intros i Hi. unfold stream.
  rewrite Nat.div_small, Nat.mod_small, Z.add_0_r by lia. rewrite wrap_small by (apply dec32be_width; by apply Forall_drop).
  rewrite enc_dec32be by (rewrite ?length_drop; (lia || by apply Forall_drop)). by rewrite take_drop.
Qed.

Lemma xor_C G : length G = 16%nat -> Forall byte_ok G ->
  <[0%nat:=Z.lxor (byte_at G 0) 1]> G = xor_bytes G hirose_C.
Proof.
  intros Hl Hb. destruct G as [|g G]; [done|]. unfold xor_bytes, hirose_C. cbn [zip_with].
  change (<[0%nat:=Z.lxor (byte_at (g :: G) 0) 1]> (g :: G)) with (Z.lxor g 1 :: G). f_equal.
  symmetry. apply xor_bytes_zeros. by injection Hl.
Qed.

Lemma hirose_round_spec H m G : length G = 16%nat -> Forall byte_ok G -> length H = 16%nat -> Forall byte_ok H ->
  length m = 16%nat -> Forall byte_ok m -> hirose_round cls (H ++ m) G = hirose_step E (G, H) m.
Proof using Hgood CtrOk0.
  intros LG OG LH OH Lm Om. unfold hirose_round, hirose_step.
  assert (Hk : ctr_keyed (H ++ m) (ctr_init cls (H ++ m))).
  { apply ctr_init_keyed, Hgood; [right; rewrite length_app; lia|by apply Forall_app]. }
  f_equal; [by apply ctr_one_block|].
  assert (LC : length (xor_bytes G hirose_C) = 16%nat) by (rewrite xor_bytes_length; [done|by rewrite LG]).
  assert (OC : Forall byte_ok (xor_bytes G hirose_C)) by (apply xor_bytes_ok; [done|by repeat constructor]).
  rewrite <-(ctr_one_block _ _ _ _ Hk LC OC LC OC). rewrite <-xor_C by done.
  rewrite take_insert_lt, drop_insert_lt by lia. unfold byte_at. rewrite nth_lookup, lookup_take_lt, <-nth_lookup by lia. done.
Qed.

Lemma hirose_step_ok G H m : length G = 16%nat -> Forall byte_ok G ->
  let '(G', H') := hirose_step E (G, H) m in
  length G' = 16%nat /\ Forall byte_ok G' /\ length H' = 16%nat /\ Forall byte_ok H'.
Proof using CtrOk0.
  intros LG OG. cbn [hirose_step].
  pose proof (fun k b => block_length (cls := cls) k b) as BL. pose proof (fun k b => block_bytes (cls := cls) k b) as BO.
  assert (LC : length (xor_bytes G hirose_C) = 16%nat) by (rewrite xor_bytes_length; [done|by rewrite LG]).
  assert (OC : Forall byte_ok (xor_bytes G hirose_C)) by (apply xor_bytes_ok; [done|by repeat constructor]).
  split_and!; (rewrite xor_bytes_length; rewrite BL; (done || lia)) || (apply xor_bytes_ok; done).
Qed.

(** ** The seed *)

Lemma update_loop_spec fuel : forall G H seed, (length seed < fuel)%nat ->
  length G = 16%nat -> Forall byte_ok G -> length H = 16%nat -> Forall byte_ok H -> Forall byte_ok seed ->
  update_loop cls fuel G H seed = fold_left (hirose_step E) (seed_blocks ((length seed + 15) / 16) seed) (G, H) /\
  length (update_loop cls fuel G H seed).2 = 16%nat /\ Forall byte_ok (update_loop cls fuel G H seed).2.
Proof using Hgood CtrOk0.
  induction fuel as [|fuel IH]; intros G H seed Hf LG OG LH OH Os; [lia|]. cbn [update_loop].
  destruct (Nat.eqb_spec (length seed) 0) as [Hz|Hz].
  - rewrite Hz. done.
  - set (clen := if (length seed <? 16)%nat then length seed else 16%nat).
    assert (Ec : take clen seed ++ replicate (16 - clen) 0 = take 16 seed ++ replicate (16 - length (take 16 seed)) 0).
    { unfold clen. rewrite length_take. destruct (Nat.ltb_spec (length seed) 16).
      - rewrite !take_ge, Nat.min_r by lia. done.
      - by rewrite Nat.min_l by lia. }
    assert (Ed : drop clen seed = drop 16 seed).
    { unfold clen. destruct (Nat.ltb_spec (length seed) 16); [by rewrite !drop_ge by lia|done]. }
    rewrite Ec, Ed. set (m := take 16 seed ++ _).
    assert (Lm : length m = 16%nat) by (unfold m; rewrite length_app, length_replicate, length_take; lia).
    assert (Om : Forall byte_ok m).
    { apply Forall_app. split; [by apply Forall_take|]. by apply Forall_replicate. }
    rewrite hirose_round_spec by assumption. pose proof (hirose_step_ok G H m LG OG) as Hs.
    replace ((length seed + 15) / 16)%nat with (S ((length (drop 16 seed) + 15) / 16)) by (rewrite length_drop; lia).
    cbn [seed_blocks fold_left]. fold m. destruct (hirose_step E (G, H) m) as [G' H']. destruct Hs as (? & ? & ? & ?).
    apply IH; try assumption; [rewrite length_drop; lia|by apply Forall_drop].
Qed.

Definition drbg_inv (st : bytes * Z) (ctx : br_aesctr_drbg_context K) : Prop :=
  ctr_keyed st.1 (drbg_sk ctx) /\ drbg_cc ctx = st.2 /\ 0 <= st.2 < 32768.

Lemma update_inv key cc ctx seed : ctr_keyed key (drbg_sk ctx) -> drbg_cc ctx = cc -> Forall byte_ok seed ->
  drbg_inv (next_key E key seed, 0) (br_aesctr_drbg_update cls seed ctx).
Proof using Hgood.
  intros Hk Hc Os. unfold br_aesctr_drbg_update.
  pose proof (ctr_one_block key (drbg_sk ctx) (replicate 16 0xFF) (replicate 16 0) Hk eq_refl
    ltac:(by apply Forall_replicate) eq_refl ltac:(by apply Forall_replicate)) as Es.
  change (take 12 (replicate 16 255)) with (replicate 12 255) in Es.
  change (br_dec32be (drop 12 (replicate 16 255))) with 4294967295 in Es. rewrite Es.
  rewrite xor_bytes_zeros by apply (block_length (cls := cls)). set (s := E key (replicate 16 255)).
  assert (Ls : length s = 16%nat) by apply (block_length (cls := cls)).
  assert (Oss : Forall byte_ok s) by apply (block_bytes (cls := cls)).
  assert (OG : Forall byte_ok (replicate 16 0xB6)) by (by apply Forall_replicate).
  assert (OH : Forall byte_ok (replicate 16 0x5A)) by (by apply Forall_replicate).
  rewrite hirose_round_spec by done.
  pose proof (hirose_step_ok (replicate 16 0xB6) (replicate 16 0x5A) s eq_refl OG) as Hs.
  assert (En : next_key E key seed = (fold_left (hirose_step E) (seed_blocks ((length seed + 15) / 16) seed)
    (hirose_step E (replicate 16 0xB6, replicate 16 0x5A) s)).2).
  { unfold next_key, next_key_from, hirose_from. fold s. rewrite length_app, Ls.
    replace ((16 + length seed + 15) / 16)%nat with (S ((length seed + 15) / 16)) by lia.
    cbn [seed_blocks fold_left]. rewrite (take_app_length' s), (drop_app_length' s) by done. rewrite Ls. cbn [Nat.sub replicate].
    by rewrite app_nil_r. }
  destruct (hirose_step E (replicate 16 0xB6, replicate 16 0x5A) s) as [G H]. destruct Hs as (? & ? & ? & ?).
  destruct (update_loop_spec (S (length seed)) G H seed) as (Eu & Lu & Ou); try done; [lia|].
  rewrite <-Eu in En. destruct (update_loop cls (S (length seed)) G H seed) as [G' H']. cbn [snd] in *.
  rewrite En. split; [|done]. cbn [fst drbg_sk]. apply ctr_init_keyed, Hgood; [by left|done].
Qed.

(** ** Generation *)

Lemma drbg_block_length st : length (drbg_block E st) = 16%nat.
Proof using CtrOk0. unfold drbg_block. apply (block_length (cls := cls)). Qed.

(** The key stream from block [cc], [n] bytes of it. *)
Definition key_bytes (key : bytes) (cc : Z) (n : nat) : bytes :=
  xor_stream (stream (E key) (replicate 12 0) cc) (replicate n 0).

Lemma key_bytes_length key cc n : length (key_bytes key cc n) = n.
Proof. unfold key_bytes. by rewrite xor_stream_length, length_replicate. Qed.

Lemma key_bytes_short key cc n : (n <= 16)%nat -> in_width 32 cc ->
  key_bytes key cc n = take n (drbg_block E (key, cc)).
Proof using CtrOk0.
  intros Hn Hc. unfold key_bytes. set (b := drbg_block E (key, cc)).
  assert (Lb : length b = 16%nat) by apply drbg_block_length.
  rewrite (xor_stream_bytes _ (take n b)); [apply xor_bytes_zeros; rewrite length_take; lia|
    rewrite length_take, length_replicate; lia|].
  intros i Hi. rewrite length_replicate in Hi. unfold stream.
  unfold byte_at. rewrite !nth_lookup, lookup_take_lt by lia.
  destruct (decide (i = 16)%nat) as [->|]; [lia|].
  rewrite Nat.div_small, Nat.mod_small, Z.add_0_r, wrap_small by (done || lia). done.
Qed.

Lemma key_bytes_app key cc k n : in_width 32 cc -> 0 <= cc + Z.of_nat k < 2 ^ 32 ->
  key_bytes key cc (16 * k + n) = key_bytes key cc (16 * k) ++ key_bytes key (cc + Z.of_nat k) n.
Proof.
  intros Hc Hk. unfold key_bytes. rewrite replicate_add, xor_stream_app. f_equal.
  apply xor_stream_ext. intros i _. rewrite length_replicate, stream_shift by done.
  by rewrite wrap_small by (split; lia).
Qed.

(** [k] whole blocks. *)
Lemma drbg_bytes_run key k : forall cc n len, 0 <= cc < 32768 -> cc + Z.of_nat k <= 32768 ->
  drbg_bytes E (k + n) (key, cc) (16 * k + len) =
  let st := if cc + Z.of_nat k =? 32768 then (next_key E key [], 0) else (key, cc + Z.of_nat k) in
  let '(st', out) := drbg_bytes E n st len in (st', key_bytes key cc (16 * k) ++ out).
Proof using CtrOk0.
  induction k as [|k IH]; intros cc n len Hc Hk.
  - rewrite Z.add_0_r. destruct (Z.eqb_spec cc 32768); [lia|]. change (16 * 0)%nat with 0%nat.
    cbn [Nat.add]. cbv zeta. by destruct (drbg_bytes E n (key, cc) len).
  - cbn [Nat.add drbg_bytes]. destruct (Nat.ltb_spec (16 * S k + len) 16); [lia|].
    replace (16 * S k + len - 16)%nat with (16 * k + len)%nat by lia.
    assert (Hb : forall m, key_bytes key cc (16 * S m) = drbg_block E (key, cc) ++ key_bytes key (cc + 1) (16 * m)
      \/ cc + 1 >= 2 ^ 32).
    { intros m. left. replace (16 * S m)%nat with (16 * 1 + 16 * m)%nat by lia.
      rewrite key_bytes_app by (unfold in_width; lia). f_equal. change (16 * 1)%nat with 16%nat.
      rewrite key_bytes_short by (unfold in_width; lia). apply take_ge.
      rewrite drbg_block_length. lia. }
    destruct (Hb k) as [Hbk|]; [|lia]. rewrite Hbk. unfold drbg_next at 1, drbg_next_from. fold (next_key E). cbn [fst snd].
    destruct (Z.eqb_spec (cc + 1) 32768) as [He|He].
    + assert (k = 0)%nat as -> by lia. replace (cc + Z.of_nat 1) with 32768 by lia. cbn [Z.eqb Pos.eqb]. cbv zeta.
      change (0 + n)%nat with n. change (16 * 0 + len)%nat with len.
      destruct (drbg_bytes E n (next_key E key [], 0) len) as [st' out]. change (16 * 0)%nat with 0%nat.
      change (key_bytes key (cc + 1) 0) with ([] : bytes). by rewrite app_nil_r.
    + rewrite IH by lia. replace (cc + 1 + Z.of_nat k) with (cc + Z.of_nat (S k)) by lia. cbv zeta.
      destruct (drbg_bytes E n _ len) as [st' out]. by rewrite app_assoc.
Qed.

(** More fuel than blocks changes nothing. *)
Lemma drbg_bytes_fuel n : forall st len m, (len / 16 < n)%nat -> (len / 16 < m)%nat ->
  drbg_bytes E n st len = drbg_bytes E m st len.
Proof.
  induction n as [|n IH]; intros st len m Hn Hm; [lia|]. destruct m as [|m]; [lia|]. cbn [drbg_bytes].
  destruct (Nat.ltb_spec len 16); [done|]. rewrite (IH _ _ m) by lia. done.
Qed.

Lemma drbg_generate_length st len : length (drbg_generate E st len).2 = len.
Proof using CtrOk0.
  unfold drbg_generate. assert (H : (len / 16 < S (len / 16))%nat) by lia. revert H.
  generalize (S (len / 16)). intros n. revert st len.
  induction n as [|n IH]; intros st len Hn; [lia|]. cbn [drbg_bytes].
  pose proof (drbg_block_length st) as Lb.
  destruct (Nat.ltb_spec len 16); [cbn [snd]; rewrite length_take; lia|].
  specialize (IH (drbg_next E st) (len - 16)%nat ltac:(lia)).
  destruct (drbg_bytes E n (drbg_next E st) (len - 16)) as [st' out]. cbn [snd] in *. rewrite length_app. lia.
Qed.

Lemma generate_clen_spec cc len : 0 <= cc < 32768 ->
  generate_clen cc len = Nat.min len (Z.to_nat (Z.min 65280 (16 * (32768 - cc)))).
Proof.
  intros Hc. unfold generate_clen. rewrite Z.shiftr_div_pow2 by lia. change (2 ^ 4) with 16.
  rewrite (wrap_small 32 (32768 - cc)) by (split; lia). rewrite Z.shiftl_mul_pow2 by lia. change (2 ^ 4) with 16.
  rewrite (wrap_small 32 ((32768 - cc) * 16)) by (split; lia).
  destruct (Z.ltb_spec 65280 (Z.of_nat len)); cbv zeta;
    rewrite wrap_small by (split; lia); case_cmp; lia.
Qed.

Lemma generate_loop_spec fuel : forall len key cc ctx, (len < fuel)%nat -> drbg_inv (key, cc) ctx ->
  let r := generate_loop cls fuel len ctx in
  r.2 = (drbg_generate E (key, cc) len).2 /\ drbg_inv (drbg_generate E (key, cc) len).1 r.1.
Proof using Hgood CtrOk0.
  induction fuel as [|fuel IH]; intros len key cc ctx Hf (Hk & Hcc & Hc); [lia|]. cbn [generate_loop fst snd] in *.
  rewrite Hcc. destruct (Nat.eqb_spec len 0) as [->|Hz]; [done|].
  rewrite generate_clen_spec by done. set (clen := Nat.min _ _).
  rewrite (ctr_run_stream (cls := cls) key); [|done|done|by apply Forall_replicate|by apply Forall_replicate|split; lia].
  rewrite length_replicate. fold (key_bytes key cc clen). set (k := (clen / 16)%nat).
  assert (Hw : w32 (cc + Z.of_nat k) = cc + Z.of_nat k) by (apply wrap_small; unfold in_width; lia). rewrite Hw.
  set (st := if cc + Z.of_nat k =? 32768 then (next_key E key [], 0) else (key, cc + Z.of_nat k)).
  set (ctx1 := if 32768 <=? cc + Z.of_nat k then _ else _).
  assert (I1 : drbg_inv st ctx1).
  { unfold st, ctx1. destruct (Z.leb_spec 32768 (cc + Z.of_nat k)), (Z.eqb_spec (cc + Z.of_nat k) 32768); try lia.
    - eapply (update_inv key); done.
    - split; [done|]. split; [done|]. cbn [fst snd]. lia. }
  assert (Es : forall r, (len = 16 * k + r)%nat -> drbg_generate E (key, cc) len =
    let '(st', out) := drbg_generate E st r in (st', key_bytes key cc (16 * k) ++ out)).
  { intros r Hr. unfold drbg_generate. transitivity (drbg_bytes E (k + S (r / 16)) (key, cc) (16 * k + r)).
    - rewrite <-Hr. apply drbg_bytes_fuel; lia.
    - by rewrite drbg_bytes_run by lia. }
  destruct (decide (clen mod 16 = 0)%nat) as [Hm|Hm].
  - specialize (Es (len - clen)%nat ltac:(lia)). rewrite Es. destruct st as [key' cc'] eqn:Est.
    destruct (IH (len - clen)%nat key' cc' ctx1 ltac:(lia) I1) as [Eo I].
    destruct (generate_loop cls fuel (len - clen) ctx1) as [ctx2 out2]. cbn [fst snd] in *.
    destruct (drbg_generate E (key', cc') (len - clen)) as [st2 out2']. cbn [fst snd] in *. subst out2'.
    split; [|done]. do 2 f_equal. lia.
  - assert (Hcl : clen = len) by lia. specialize (Es (len mod 16)%nat ltac:(lia)). rewrite Es, Hcl.
    replace (len - len)%nat with 0%nat by lia.
    assert (Eg : generate_loop cls fuel 0 ctx1 = (ctx1, [])) by (by destruct fuel). rewrite Eg. cbn [fst snd].
    assert (Est : st = (key, cc + Z.of_nat k)) by (unfold st; destruct (Z.eqb_spec (cc + Z.of_nat k) 32768); [lia|done]).
    assert (Er : drbg_generate E st (len mod 16) = (st, take (len mod 16) (drbg_block E st))).
    { unfold drbg_generate. cbn [drbg_bytes]. by rewrite (proj2 (Nat.ltb_lt _ _)) by lia. }
    rewrite Er. cbn [fst snd]. split; [|done]. rewrite app_nil_r, Est.
    rewrite <-key_bytes_short, <-key_bytes_app by (unfold in_width; lia). f_equal. lia.
Qed.

(** ** Against the documented generator *)

Lemma documented_blocks_length k : forall st, length (documented_blocks E 0x5A k st).2 = (16 * k)%nat.
Proof using CtrOk0.
  induction k as [|k IH]; intros st; [done|]. cbn [documented_blocks]. specialize (IH (drbg_next_from E 0x5A st)).
  destruct (documented_blocks E 0x5A k _) as [st' out]. cbn [snd] in *. rewrite length_app, drbg_block_length, IH. lia.
Qed.

Lemma documented_blocks_snoc k : forall st, documented_blocks E 0x5A (S k) st =
  let '(st', out) := documented_blocks E 0x5A k st in (drbg_next E st', out ++ drbg_block E st').
Proof using Type.
  clear. induction k as [|k IH]; intros st; [cbn [documented_blocks]; by rewrite app_nil_r|].
  change (documented_blocks E 0x5A (S (S k)) st) with
    (let '(st', out) := documented_blocks E 0x5A (S k) (drbg_next_from E 0x5A st) in (st', drbg_block E st ++ out)).
  rewrite IH. cbn [documented_blocks]. destruct (documented_blocks E 0x5A k (drbg_next_from E 0x5A st)) as [st' out]. by rewrite app_assoc.
Qed.

(** Whole blocks are the documented ones; the rest of a block is taken from the
    state it leaves. *)
Lemma drbg_bytes_documented k : forall n st m, (m < 16)%nat -> (k < n)%nat ->
  drbg_bytes E n st (16 * k + m) =
  let '(st', out) := documented_blocks E 0x5A k st in (st', out ++ take m (drbg_block E st')).
Proof using Type.
  clear. induction k as [|k IH]; intros [|n] st m Hm Hn; [lia| |lia|]; cbn [drbg_bytes documented_blocks].
  - change (16 * 0 + m)%nat with m. by rewrite (proj2 (Nat.ltb_lt _ _)) by done.
  - rewrite (proj2 (Nat.ltb_ge _ _)) by lia. replace (16 * S k + m - 16)%nat with (16 * k + m)%nat by lia.
    rewrite IH by lia. unfold drbg_next. destruct (documented_blocks E 0x5A k _) as [st' out]. by rewrite app_assoc.
Qed.

Lemma drbg_generate_split st len : drbg_generate E st len =
  let '(st', out) := documented_blocks E 0x5A (len / 16) st in (st', out ++ take (len mod 16) (drbg_block E st')).
Proof using Type.
  clear. unfold drbg_generate. rewrite (Nat.div_mod_eq len 16) at 2. apply drbg_bytes_documented; [apply Nat.mod_upper_bound|]; lia.
Qed.

(** The bytes of one request. *)
Lemma drbg_generate_documented st len : (drbg_generate E st len).2 = (documented_generate E 0x5A st len).2 /\
  (len mod 16 = 0 -> (drbg_generate E st len).1 = (documented_generate E 0x5A st len).1)%nat.
Proof using CtrOk0.
  rewrite drbg_generate_split. unfold documented_generate. pose proof (documented_blocks_length (len / 16) st) as L.
  pose proof (Nat.div_mod_eq len 16) as D. pose proof (Nat.mod_upper_bound len 16 ltac:(lia)) as M.
  destruct (decide (len mod 16 = 0)%nat) as [Hz|Hz].
  - replace ((len + 15) / 16)%nat with (len / 16)%nat by lia. destruct (documented_blocks E 0x5A (len / 16) st) as [st' out]. cbn [fst snd] in *.
    rewrite Hz, take_0, app_nil_r, take_ge by lia. done.
  - replace ((len + 15) / 16)%nat with (S (len / 16)) by lia. rewrite documented_blocks_snoc.
    destruct (documented_blocks E 0x5A (len / 16) st) as [st' out]. cbn [fst snd] in *. split; [|lia].
    rewrite take_app, (take_ge out) by lia. f_equal. f_equal. lia.
Qed.

(** A request starts with the block its state names. *)
Lemma drbg_generate_starts st len q : (q <= 16)%nat -> (q <= len)%nat -> take q (drbg_generate E st len).2 = take q (drbg_block E st).
Proof using CtrOk0.
  intros Hq Hl. rewrite drbg_generate_split. pose proof (Nat.div_mod_eq len 16) as D. destruct (len / 16)%nat as [|k].
  - cbn [documented_blocks snd app]. rewrite take_take. f_equal. lia.
  - cbn [documented_blocks]. destruct (documented_blocks E 0x5A k _) as [st' out]. cbn [snd]. rewrite <-app_assoc.
    rewrite take_app_le; [done|]. by rewrite drbg_block_length.
Qed.

(** The rest of a request that is not a whole number of blocks. *)
Lemma drbg_generate_rest st len : drop (len - len mod 16) (drbg_generate E st len).2 = take (len mod 16) (drbg_block E (drbg_generate E st len).1).
Proof using CtrOk0.
  rewrite drbg_generate_split. pose proof (documented_blocks_length (len / 16) st) as L. pose proof (Nat.div_mod_eq len 16) as D.
  destruct (documented_blocks E 0x5A (len / 16) st) as [st' out]. cbn [fst snd] in *. apply drop_app_length'. lia.
Qed.
End proof.

(** ** Properties *)

(** A sequence of requests: the bytes and the counter after each. *)
Fixpoint generate_all {K} (cls : br_block_ctr_class K) (ctx : br_aesctr_drbg_context K) (lens : list nat)
    : list (bytes * Z) :=
  match lens with
  | [] => []
  | n :: lens => let '(ctx, out) := br_aesctr_drbg_generate cls n ctx in
                 (out, drbg_cc ctx) :: generate_all cls ctx lens
  end.

Fixpoint spec_generate_all (E : bytes -> bytes -> bytes) (st : bytes * Z) (lens : list nat) : list (bytes * Z) :=
  match lens with
  | [] => []
  | n :: lens => let '(st, out) := drbg_generate E st n in (out, st.2) :: spec_generate_all E st lens
  end.

Section requests.
Context {K : Type} {cls : br_block_ctr_class K} {E : bytes -> bytes -> bytes} {good : bytes -> Prop} `{!CtrOk cls E good}.

(** Requests of whole blocks, and a last one of any length. *)
Lemma spec_documented lens : forall st, Forall (fun n => n mod 16 = 0)%nat (removelast lens) ->
  (spec_generate_all E st lens).*1 = documented_all E 0x5A st lens.
Proof using CtrOk0.
  induction lens as [|n lens IH]; intros st Hl; [done|]. cbn [spec_generate_all documented_all].
  destruct (drbg_generate_documented st n) as [E2 E1]. destruct (drbg_generate E st n) as [st1 out].
  destruct (documented_generate E 0x5A st n) as [st2 out2]. cbn [fst snd] in *. subst out2. rewrite fmap_cons. cbn [fst]. f_equal.
  destruct lens as [|n' lens]; [done|]. change (removelast (n :: n' :: lens)) with (n :: removelast (n' :: lens)) in Hl.
  apply Forall_cons in Hl as [Hn Hl]. rewrite (E1 Hn). by apply IH.
Qed.

Lemma spec_repeats lens : forall st i o1 c1 o2 c2, spec_generate_all E st lens !! i = Some (o1, c1) ->
  spec_generate_all E st lens !! S i = Some (o2, c2) -> let q := Nat.min (length o1 mod 16) (length o2) in
  take q o2 = take q (drop (length o1 - length o1 mod 16) o1).
Proof using CtrOk0.
  induction lens as [|n lens IH]; intros st i o1 c1 o2 c2 H1 H2 q; [done|]. cbn [spec_generate_all] in *.
  pose proof (drbg_generate_length (cls := cls) (E := E) (good := good) st n) as L.
  pose proof (drbg_generate_rest (cls := cls) (good := good) st n) as Rest. destruct (drbg_generate E st n) as [st1 out].
  destruct i as [|i]; cbn [lookup list_lookup] in *.
  - injection H1 as -> <-. cbn [fst snd] in *. rewrite L in *. rewrite Rest. destruct lens as [|n2 lens]; [done|]. cbn [spec_generate_all] in H2.
    pose proof (drbg_generate_length (cls := cls) (E := E) (good := good) st1 n2) as L2.
    pose proof (Nat.mod_upper_bound n 16 ltac:(lia)).
    pose proof (drbg_generate_starts (cls := cls) (good := good) st1 n2 q) as St. destruct (drbg_generate E st1 n2) as [st2 out2].
    cbn [lookup list_lookup] in H2. injection H2 as -> <-. cbn [snd] in *. rewrite St, take_take by (unfold q; lia). f_equal. unfold q. lia.
  - exact (IH _ _ _ _ _ _ H1 H2).
Qed.
End requests.

(** C26: The generator against its documentation.  Over any counter-mode
    implementation that meets its contract, initialise from a seed and ask for
    any sequence of lengths.  As long as all requests but the last are whole
    numbers of blocks, the bytes returned are those of the documented
    generator: successive blocks of the counter-mode key stream, none of them
    used twice, under a key that is the Hirose hash of the encrypted all-one
    block and the seed, replaced after 32768 blocks; the hash starts from the
    constant 5A of the code, where a comment has A5.  For other sequences the
    documentation does not hold: a request that ends inside a block is followed
    by one that starts with the same bytes of that block.  For every sequence
    the bytes are those of the key stream where a partial last block is not
    counted, each request returns as many bytes as it asked for, and the block
    counter stays below 32768. *)
Theorem aesctr_drbg_refines {K} (cls : br_block_ctr_class K) E good `{!CtrOk cls E good}
    (seed : bytes) (lens : list nat) :
  (forall k, (length k = 16 \/ length k = 32)%nat -> Forall byte_ok k -> good k) ->
  Forall byte_ok seed ->
  let r := generate_all cls (br_aesctr_drbg_init cls seed) lens in
  let st := (next_key_from E 0x5A (replicate 16 0) seed, 0) in
  (Forall (fun n => n mod 16 = 0)%nat (removelast lens) -> r.*1 = documented_all E 0x5A st lens) /\
  (forall i o1 c1 o2 c2, r !! i = Some (o1, c1) -> r !! S i = Some (o2, c2) -> let q := Nat.min (length o1 mod 16) (length o2) in
     take q o2 = take q (drop (length o1 - length o1 mod 16) o1)) /\
  r = spec_generate_all E st lens /\ Forall (fun p => 0 <= p.2 < 32768) r /\ (fun p => length p.1) <$> r = lens.
Proof.
  intros Hgood Os r st. enough (Hr : r = spec_generate_all E st lens /\ Forall (fun p => 0 <= p.2 < 32768) r /\ (fun p => length p.1) <$> r = lens).
  { split; [|split; [|exact Hr]]; rewrite (proj1 Hr); [apply (spec_documented (cls := cls))|apply (spec_repeats (cls := cls))]. }
  assert (G : forall ls st ctx, drbg_inv (E := E) st ctx -> generate_all cls ctx ls = spec_generate_all E st ls /\
    Forall (fun p => 0 <= p.2 < 32768) (generate_all cls ctx ls) /\ (fun p => length p.1) <$> generate_all cls ctx ls = ls).
  { induction ls as [|n ls IH]; intros [key cc] ctx I; [done|]. cbn [generate_all spec_generate_all].
    destruct (generate_loop_spec Hgood (S n) n key cc ctx ltac:(lia) I) as [Eo I'].
    fold (br_aesctr_drbg_generate cls n ctx) in Eo, I'.
    pose proof (drbg_generate_length (cls := cls) (E := E) (good := good) (key, cc) n) as Hl.
    destruct (br_aesctr_drbg_generate cls n ctx) as [ctx' out].
    destruct (drbg_generate E (key, cc) n) as [st' out']. cbn [fst snd] in *. subst out'.
    destruct (IH st' ctx' I') as (-> & IH2 & IH3). destruct I' as (_ & -> & Hb). split; [done|]. split; [by constructor|].
    rewrite fmap_cons. cbn [fst]. by rewrite Hl, IH3. }
  apply G. unfold br_aesctr_drbg_init. eapply (update_inv Hgood (replicate 16 0) 0); [|done|done].
  apply ctr_init_keyed, Hgood; [by left|by apply Forall_replicate].
Qed.

Lemma aes_good k : (length k = 16 \/ length k = 32)%nat -> Forall byte_ok k -> aes_key k.
Proof. intros Hl Hb. split; [tauto|done]. Qed.

Lemma aesctr_drbg_refines_witness :
  let r := generate_all br_aes_x86ni_ctr_vtable (br_aesctr_drbg_init br_aes_x86ni_ctr_vtable [1; 2; 3]) [20; 5]%nat in
  let st := (next_key_from AES 0x5A (replicate 16 0) [1; 2; 3], 0) in
  (Forall (fun n => n mod 16 = 0)%nat [20]%nat -> r.*1 = documented_all AES 0x5A st [20; 5]%nat) /\
  (forall i o1 c1 o2 c2, r !! i = Some (o1, c1) -> r !! S i = Some (o2, c2) -> let q := Nat.min (length o1 mod 16) (length o2) in
     take q o2 = take q (drop (length o1 - length o1 mod 16) o1)) /\
  r = spec_generate_all AES st [20; 5]%nat /\ Forall (fun p => 0 <= p.2 < 32768) r /\ (fun p => length p.1) <$> r = [20; 5]%nat.
Proof.
  apply (aesctr_drbg_refines br_aes_x86ni_ctr_vtable AES aes_key [1; 2; 3] [20; 5]%nat).
  - exact aes_good.
  - repeat (apply Forall_cons_2; [unfold byte_ok; lia|]). apply Forall_nil_2.
Defined.

(** The documented constant gives another key, and the documented generator does
    not repeat itself. *)
Example documented_differs : let st h0 := (next_key_from AES h0 (replicate 16 0) [1; 2; 3], 0) in
  (st 0x5A).1 <> (st 0xA5).1 /\
  (generate_all br_aes_x86ni_ctr_vtable (br_aesctr_drbg_init br_aes_x86ni_ctr_vtable [1; 2; 3]) [4; 4]%nat).*1 <>
    documented_all AES 0x5A (st 0x5A) [4; 4]%nat.
Proof. split; apply (bool_decide_unpack _); by vm_compute. Qed.

(** A request of less than one block does not advance the generator: the
    context is left as it was, so that two such requests in a row return the
    same bytes. *)
Theorem aesctr_drbg_short_repeats {K} (cls : br_block_ctr_class K) E good `{!CtrOk cls E good}
    (key : bytes) (ctx : br_aesctr_drbg_context K) (n m : nat) :
  (forall k, (length k = 16 \/ length k = 32)%nat -> Forall byte_ok k -> good k) ->
  ctr_keyed key (drbg_sk ctx) -> 0 <= drbg_cc ctx < 32768 -> (n < 16)%nat -> (m < 16)%nat ->
  let '(ctx1, out1) := br_aesctr_drbg_generate cls n ctx in
  let '(ctx2, out2) := br_aesctr_drbg_generate cls m ctx1 in
  drbg_cc ctx2 = drbg_cc ctx /\ take (min n m) out1 = take (min n m) out2.
Proof.
  intros Hgood Hk Hc Hn Hm.
  assert (Short : forall j st, (j < 16)%nat -> drbg_generate E st j = (st, take j (drbg_block E st))).
  { intros j st Hj. unfold drbg_generate. cbn [drbg_bytes]. by rewrite (proj2 (Nat.ltb_lt _ _)) by lia. }
  destruct (generate_loop_spec Hgood (S n) n key (drbg_cc ctx) ctx ltac:(lia) ltac:(by split)) as [Eo I].
  fold (br_aesctr_drbg_generate cls n ctx) in Eo, I. destruct (br_aesctr_drbg_generate cls n ctx) as [ctx1 out1].
  rewrite Short in Eo, I by done. cbn [fst snd] in *.
  destruct (generate_loop_spec Hgood (S m) m key (drbg_cc ctx) ctx1 ltac:(lia) I) as [Eo2 I2].
  fold (br_aesctr_drbg_generate cls m ctx1) in Eo2, I2. destruct (br_aesctr_drbg_generate cls m ctx1) as [ctx2 out2].
  rewrite Short in Eo2, I2 by done. cbn [fst snd] in *. split; [apply I2|].
  rewrite Eo, Eo2, !take_take. f_equal. lia.
Qed.

Lemma aesctr_drbg_short_repeats_witness :
  let ctx := mkCtrDrbg (br_aes_x86ni_ctr_init (replicate 16 9)) 5 in
  let '(ctx1, out1) := br_aesctr_drbg_generate br_aes_x86ni_ctr_vtable 8 ctx in
  let '(ctx2, out2) := br_aesctr_drbg_generate br_aes_x86ni_ctr_vtable 4 ctx1 in
  drbg_cc ctx2 = drbg_cc ctx /\ take (min 8 4) out1 = take (min 8 4) out2.
Proof.
  apply (aesctr_drbg_short_repeats br_aes_x86ni_ctr_vtable AES aes_key (replicate 16 9)).
  - exact aes_good.
  - split; [|reflexivity]. split; [left; reflexivity|]. apply Forall_replicate. unfold byte_ok. lia.
  - cbn [drbg_cc]. lia.
  - lia.
  - lia.
Defined.
