(* ===== verification/Gf2.v ===== *)
(** * Polynomials over GF(2)

    A non-negative integer is the polynomial of its bits; addition is [Z.lxor].
    The file has the carry-less product and its ring laws, bit reversal, and
    congruence modulo the polynomial of the GCM field. *)
From S2P Require Import Prelude.
Local Open Scope Z_scope.

(** ** The carry-less product *)

(** The sum of [a * x^i] over the set bits [i < n] of [b]. *)
Fixpoint pmul_n (n : nat) (a b : Z) : Z :=
  match n with
  | O => 0
  | S n => Z.lxor (pmul_n n a b) (if Z.testbit b (Z.of_nat n) then Z.shiftl a (Z.of_nat n) else 0)
  end.

Definition pmul (a b : Z) : Z := pmul_n (Z.to_nat (Z.log2 b + 1)) a b.

Lemma pmul_n_more n k a b : (forall i, Z.of_nat n <= i -> Z.testbit b i = false) ->
  pmul_n (n + k) a b = pmul_n n a b.
Proof.
  intros H. induction k as [|k IH]; [by rewrite Nat.add_0_r|].
  rewrite Nat.add_succ_r. cbn [pmul_n]. rewrite H by lia. by rewrite Z.lxor_0_r.
Qed.

Lemma pmul_n_pmul n a b : in_width (Z.of_nat n) b -> pmul_n n a b = pmul a b.
Proof.
  intros Hb. unfold pmul. set (m := Z.to_nat (Z.log2 b + 1)).
  assert (Hm : forall i, Z.of_nat m <= i -> Z.testbit b i = false).
  { intros i Hi. pose proof (Z.log2_nonneg b). destruct Hb. apply Z.bits_above_log2; [done|]. subst m. lia. }
  assert (Hn : forall i, Z.of_nat n <= i -> Z.testbit b i = false) by (intros; by apply (in_width_high_bits (Z.of_nat n))).
  destruct (Nat.le_ge_cases n m) as [Hle|Hle].
  - replace m with (n + (m - n))%nat by lia. symmetry. by apply pmul_n_more.
  - replace n with (m + (n - m))%nat by lia. by apply pmul_n_more.
Qed.

Lemma pmul_n_lxor_l n a b c : pmul_n n (Z.lxor a b) c = Z.lxor (pmul_n n a c) (pmul_n n b c).
Proof.
  induction n as [|n IH]; [done|]. cbn [pmul_n]. rewrite IH. destruct (Z.testbit c (Z.of_nat n)).
  - rewrite Z.shiftl_lxor. bitwise.
  - by rewrite !Z.lxor_0_r.
Qed.

Lemma pmul_n_lxor_r n a b c : pmul_n n a (Z.lxor b c) = Z.lxor (pmul_n n a b) (pmul_n n a c).
Proof.
  induction n as [|n IH]; [done|]. cbn [pmul_n]. rewrite IH, Z.lxor_spec.
  destruct (Z.testbit b (Z.of_nat n)), (Z.testbit c (Z.of_nat n)); cbn [xorb];
    rewrite ?Z.lxor_0_r; try bitwise.
Qed.

Lemma pmul_lxor_l a b c : pmul (Z.lxor a b) c = Z.lxor (pmul a c) (pmul b c).
Proof. apply pmul_n_lxor_l. Qed.

(** Every non-negative integer has some width. *)
Lemma some_width a : 0 <= a -> in_width (Z.of_nat (Z.to_nat (Z.log2 a + 1))) a.
Proof.
  intros Ha. pose proof (Z.log2_nonneg a). rewrite Z2Nat.id by lia. split; [done|].
  destruct (decide (a = 0)) as [->|]; [simpl; lia|]. apply Z.log2_spec. lia.
Qed.

Lemma in_width_mono n m a : 0 <= n <= m -> in_width n a -> in_width m a.
Proof. intros Hn [H0 H1]. split; [done|]. pose proof (Z.pow_le_mono_r 2 n m). lia. Qed.

Lemma common_width a b : 0 <= a -> 0 <= b -> exists n : nat, in_width (Z.of_nat n) a /\ in_width (Z.of_nat n) b.
Proof.
  intros Ha Hb. pose proof (some_width a Ha) as Wa. pose proof (some_width b Hb) as Wb.
  exists (Z.to_nat (Z.log2 a + 1) + Z.to_nat (Z.log2 b + 1))%nat.
  split; eapply in_width_mono; [|exact Wa| |exact Wb]; lia.
Qed.

Lemma pmul_lxor_r a b c : 0 <= b -> 0 <= c -> pmul a (Z.lxor b c) = Z.lxor (pmul a b) (pmul a c).
Proof.
  intros Hb Hc. destruct (common_width b c Hb Hc) as (n & Wb & Wc).
  rewrite <-!(pmul_n_pmul n) by (done || apply lxor_in_width; lia || done). apply pmul_n_lxor_r.
Qed.

Lemma pmul_pow2_r a i : 0 <= i -> pmul a (2 ^ i) = Z.shiftl a i.
Proof.
  intros Hi. unfold pmul. rewrite Z.log2_pow2 by done.
  replace (Z.to_nat (i + 1)) with (S (Z.to_nat i)) by lia. cbn [pmul_n]. rewrite Z2Nat.id by done.
  rewrite Z.pow2_bits_true by done.
  assert (H : forall n : nat, Z.of_nat n <= i -> pmul_n n a (2 ^ i) = 0).
  { induction n as [|n IH]; intros Hn; [done|]. cbn [pmul_n]. rewrite IH, Z.pow2_bits_false by lia. done. }
  rewrite H by lia. apply Z.lxor_0_l.
Qed.

Lemma pmul_0_r a : pmul a 0 = 0.
Proof. done. Qed.

(** ** Induction on the set bits *)

Lemma bits_ind_width (P : Z -> Prop) (n : nat) :
  P 0 -> (forall i, 0 <= i < Z.of_nat n -> P (2 ^ i)) ->
  (forall a b, 0 <= a -> 0 <= b -> P a -> P b -> P (Z.lxor a b)) ->
  forall a, in_width (Z.of_nat n) a -> P a.
Proof.
  intros H0 Hp Hx. assert (forall m : nat, (m <= n)%nat -> forall a, in_width (Z.of_nat m) a -> P a) as H.
  2: { intros a. by apply H. }
  induction m as [|m IH]; intros Hm a [Ha1 Ha2].
  - replace a with 0; [done|]. change (2 ^ Z.of_nat 0) with 1 in Ha2. lia.
  - assert (Hlow : in_width (Z.of_nat m) (wrap (Z.of_nat m) a)) by (apply wrap_in_width; lia).
    assert (E : a = Z.lxor (wrap (Z.of_nat m) a) (if Z.testbit a (Z.of_nat m) then 2 ^ Z.of_nat m else 0)).
    { apply Z.bits_inj'. intros i Hi. rewrite Z.lxor_spec, wrap_testbit by lia.
      destruct (Z.ltb_spec i (Z.of_nat m)) as [Hlt|Hge]; cbn [andb].
      - destruct (Z.testbit a (Z.of_nat m)); rewrite ?Z.pow2_bits_false, ?Z.bits_0 by lia; by rewrite xorb_false_r.
      - destruct (decide (i = Z.of_nat m)) as [->|Hne].
        + destruct (Z.testbit a (Z.of_nat m)); rewrite ?Z.pow2_bits_true, ?Z.bits_0 by lia; done.
        + rewrite (in_width_high_bits (Z.of_nat (S m)) a i) by (done || lia).
          destruct (Z.testbit a (Z.of_nat m)); rewrite ?Z.pow2_bits_false, ?Z.bits_0 by lia; done. }
    rewrite E. apply Hx; [apply Hlow| |by apply IH; [lia|]|].
    + destruct (Z.testbit a (Z.of_nat m)); lia.
    + destruct (Z.testbit a (Z.of_nat m)); [apply Hp; lia|done].
Qed.

Lemma bits_ind (P : Z -> Prop) :
  P 0 -> (forall i, 0 <= i -> P (2 ^ i)) ->
  (forall a b, 0 <= a -> 0 <= b -> P a -> P b -> P (Z.lxor a b)) ->
  forall a, 0 <= a -> P a.
Proof.
  intros H0 Hp Hx a Ha. apply (bits_ind_width P (Z.to_nat (Z.log2 a + 1))); [done| |done|by apply some_width].
  intros i Hi. apply Hp. lia.
Qed.

(** ** Ring laws *)

Lemma pmul_0_l b : 0 <= b -> pmul 0 b = 0.
Proof.
  revert b. apply bits_ind; [done|intros i Hi; rewrite pmul_pow2_r by done; apply Z.shiftl_0_l|].
  intros a b Ha Hb Ea Eb. by rewrite pmul_lxor_r, Ea, Eb.
Qed.

Lemma pmul_pow2_l i b : 0 <= i -> 0 <= b -> pmul (2 ^ i) b = Z.shiftl b i.
Proof.
  intros Hi. revert b. apply bits_ind; [by rewrite Z.shiftl_0_l| |].
  - intros j Hj. rewrite pmul_pow2_r, !Z.shiftl_mul_pow2 by done. lia.
  - intros a b Ha Hb Ea Eb. by rewrite pmul_lxor_r, Ea, Eb, Z.shiftl_lxor.
Qed.

Lemma pmul_comm a b : 0 <= a -> 0 <= b -> pmul a b = pmul b a.
Proof.
  intros Ha Hb. revert a Ha. apply bits_ind.
  - by rewrite pmul_0_l.
  - intros i Hi. by rewrite pmul_pow2_l, pmul_pow2_r.
  - intros x y Hx Hy Ex Ey. by rewrite pmul_lxor_l, pmul_lxor_r, Ex, Ey.
Qed.

Lemma pmul_shiftl_r a b i : 0 <= a -> 0 <= b -> 0 <= i -> pmul a (Z.shiftl b i) = Z.shiftl (pmul a b) i.
Proof.
  intros Ha Hb Hi. revert b Hb. apply bits_ind.
  - by rewrite pmul_0_r, !Z.shiftl_0_l, pmul_0_r.
  - intros j Hj. rewrite pmul_pow2_r by done. rewrite Z.shiftl_shiftl by done.
    replace (Z.shiftl (2 ^ j) i) with (2 ^ (j + i)) by (rewrite Z.shiftl_mul_pow2, Z.pow_add_r by done; done).
    by rewrite pmul_pow2_r by lia.
  - intros x y Hx Hy Ex Ey. rewrite Z.shiftl_lxor, !pmul_lxor_r, Ex, Ey, Z.shiftl_lxor; try done;
      by apply Z.shiftl_nonneg.
Qed.

Lemma pmul_nonneg a b : 0 <= a -> 0 <= b -> 0 <= pmul a b.
Proof.
  intros Ha. revert b. apply bits_ind; [done| |].
  - intros i Hi. rewrite pmul_pow2_r by done. by apply Z.shiftl_nonneg.
  - intros x y Hx Hy Ex Ey. rewrite pmul_lxor_r by done. by apply Z.lxor_nonneg.
Qed.

Lemma pmul_assoc a b c : 0 <= a -> 0 <= b -> 0 <= c -> pmul (pmul a b) c = pmul a (pmul b c).
Proof.
  intros Ha Hb. revert c. apply bits_ind; [done| |].
  - intros i Hi. rewrite !pmul_pow2_r by done. by rewrite pmul_shiftl_r.
  - intros x y Hx Hy Ex Ey. rewrite !pmul_lxor_r, Ex, Ey; try done; by apply pmul_nonneg.
Qed.

#[export] Hint Resolve pmul_nonneg : width.

(** ** Bit reversal *)

(** The [n] low bits of [z], in the opposite order. *)
Fixpoint rev (n : nat) (z : Z) : Z :=
  match n with
  | O => 0
  | S n => Z.lxor (rev n (Z.shiftr z 1)) (if Z.testbit z 0 then 2 ^ Z.of_nat n else 0)
  end.

Lemma rev_testbit n : forall z i, 0 <= i ->
  Z.testbit (rev n z) i = (i <? Z.of_nat n) && Z.testbit z (Z.of_nat n - 1 - i).
Proof.
  induction n as [|n IH]; intros z i Hi; cbn [rev].
  - rewrite Z.bits_0. by rewrite (proj2 (Z.ltb_ge _ _)) by lia.
  - rewrite Z.lxor_spec, IH by done.
    assert (E : Z.testbit (if Z.testbit z 0 then 2 ^ Z.of_nat n else 0) i = (i =? Z.of_nat n) && Z.testbit z 0).
    { destruct (Z.testbit z 0); rewrite ?Z.bits_0, ?andb_false_r; [|done].
      destruct (Z.eqb_spec i (Z.of_nat n)) as [->|]; [by rewrite Z.pow2_bits_true by lia|by rewrite Z.pow2_bits_false by lia]. }
    rewrite E. destruct (Z.ltb_spec i (Z.of_nat n)), (Z.eqb_spec i (Z.of_nat n)), (Z.ltb_spec i (Z.of_nat (S n)));
      try lia; cbn [andb]; rewrite ?xorb_false_r, ?xorb_false_l; try done.
    + rewrite Z.shiftr_spec by lia. f_equal. lia.
    + f_equal. lia.
Qed.

Lemma rev_width n z : in_width (Z.of_nat n) (rev n z).
Proof.
  assert (0 <= rev n z) as H0.
  { revert z. induction n as [|n IH]; intros z; cbn [rev]; [done|].
    apply Z.lxor_nonneg. split; intros _; [|apply IH]. destruct (Z.testbit z 0); lia. }
  apply in_width_of_bits; [lia|done|].
  intros i Hi. rewrite rev_testbit by lia. by rewrite (proj2 (Z.ltb_ge _ _)) by lia.
Qed.

Lemma rev_nonneg n z : 0 <= rev n z.
Proof. apply rev_width. Qed.

Lemma rev_lxor n a b : rev n (Z.lxor a b) = Z.lxor (rev n a) (rev n b).
Proof.
  apply Z.bits_inj'. intros i Hi. rewrite Z.lxor_spec, !rev_testbit, Z.lxor_spec by done.
  by destruct (i <? _).
Qed.

Lemma rev_0 n : rev n 0 = 0.
Proof.
  apply Z.bits_inj'. intros i Hi. rewrite rev_testbit, !Z.bits_0 by done. apply andb_false_r.
Qed.

Lemma rev_involutive n z : in_width (Z.of_nat n) z -> rev n (rev n z) = z.
Proof.
  intros Hz. apply Z.bits_inj'. intros i Hi. rewrite rev_testbit by done.
  destruct (Z.ltb_spec i (Z.of_nat n)) as [H|H]; cbn [andb].
  - rewrite rev_testbit by lia. rewrite (proj2 (Z.ltb_lt _ _)) by lia. cbn [andb]. f_equal. lia.
  - symmetry. by apply (in_width_high_bits (Z.of_nat n)).
Qed.

Lemma rev_inj n a b : in_width (Z.of_nat n) a -> in_width (Z.of_nat n) b -> rev n a = rev n b -> a = b.
Proof. intros Ha Hb E. by rewrite <-(rev_involutive n a), E, rev_involutive. Qed.

Lemma rev_pow2 n i : 0 <= i < Z.of_nat n -> rev n (2 ^ i) = 2 ^ (Z.of_nat n - 1 - i).
Proof.
  intros Hi. apply Z.bits_inj'. intros j Hj. rewrite rev_testbit, !Z.pow2_bits_eqb by lia.
  destruct (Z.ltb_spec j (Z.of_nat n)), (Z.eqb_spec i (Z.of_nat n - 1 - j)),
    (Z.eqb_spec (Z.of_nat n - 1 - i) j); try lia; done.
Qed.

(** Reversal turns a product into the product of the reversed factors. *)
Lemma rev_pmul n a b : (0 < n)%nat -> in_width (Z.of_nat n) a -> in_width (Z.of_nat n) b ->
  rev (2 * n - 1) (pmul a b) = pmul (rev n a) (rev n b).
Proof.
  intros Hn Ha Hb. revert a Ha. apply bits_ind_width.
  - rewrite rev_0. rewrite !pmul_0_l by (apply rev_nonneg || apply Hb). apply rev_0.
  - intros i Hi. revert b Hb. apply bits_ind_width.
    + rewrite (rev_0 n). change (rev (2 * n - 1) 0 = 0). apply rev_0.
    + intros j Hj. rewrite pmul_pow2_r, !rev_pow2, pmul_pow2_r, !Z.shiftl_mul_pow2, <-!Z.pow_add_r by lia.
      rewrite rev_pow2 by lia. f_equal. lia.
    + intros x y Hx Hy Ex Ey. rewrite pmul_lxor_r, !rev_lxor, pmul_lxor_r, Ex, Ey; try done; apply rev_nonneg.
  - intros x y Hx Hy Ex Ey. by rewrite pmul_lxor_l, !rev_lxor, pmul_lxor_l, Ex, Ey.
Qed.

(** ** The field of GCM *)

(** The low part of the field polynomial x^128 + x^7 + x^2 + x + 1. *)
Definition P_low : Z := 0x87.
Definition P128 : Z := Z.lxor (2 ^ 128) P_low.

(** Congruence modulo the field polynomial. *)
Definition cong (a b : Z) : Prop := exists q, 0 <= q /\ Z.lxor a b = pmul q P128.

Lemma pmul_P_low a : 0 <= a ->
  pmul a P_low = Z.lxor (Z.lxor a (Z.shiftl a 1)) (Z.lxor (Z.shiftl a 2) (Z.shiftl a 7)).
Proof.
  intros Ha. replace P_low with (Z.lxor (Z.lxor (2 ^ 0) (2 ^ 1)) (Z.lxor (2 ^ 2) (2 ^ 7))) by reflexivity.
  rewrite (pmul_lxor_r a (Z.lxor (2 ^ 0) (2 ^ 1))) by done.
  rewrite (pmul_lxor_r a (2 ^ 0) (2 ^ 1)), (pmul_lxor_r a (2 ^ 2) (2 ^ 7)) by done.
  rewrite !pmul_pow2_r by lia. by rewrite Z.shiftl_0_r.
Qed.

Lemma cong_refl a : cong a a.
Proof. exists 0. split; [done|]. by rewrite Z.lxor_nilpotent, pmul_0_l. Qed.

Lemma cong_sym a b : cong a b -> cong b a.
Proof. intros (q & Hq & E). exists q. by rewrite Z.lxor_comm. Qed.

Lemma cong_trans a b c : cong a b -> cong b c -> cong a c.
Proof.
  intros (q & Hq & E) (r & Hr & F). exists (Z.lxor q r). split; [by apply Z.lxor_nonneg|].
  rewrite pmul_lxor_l, <-E, <-F. bitwise.
Qed.

#[export] Instance cong_equiv : Equivalence cong.
Proof. split; [exact cong_refl|exact cong_sym|exact cong_trans]. Qed.

#[export] Instance cong_lxor_proper : Proper (cong ==> cong ==> cong) Z.lxor.
Proof.
  intros a a' (q & Hq & E) b b' (r & Hr & F). exists (Z.lxor q r). split; [by apply Z.lxor_nonneg|].
  rewrite pmul_lxor_l, <-E, <-F. bitwise.
Qed.

Lemma cong_pmul a a' b b' : 0 <= a -> 0 <= a' -> 0 <= b -> 0 <= b' ->
  cong a a' -> cong b b' -> cong (pmul a b) (pmul a' b').
Proof.
  intros Ha Ha' Hb Hb' (q & Hq & E) (r & Hr & F). transitivity (pmul a b').
  - exists (pmul a r). split; [by apply pmul_nonneg|].
    by rewrite <-pmul_lxor_r, F, pmul_assoc by done.
  - exists (pmul b' q). split; [by apply pmul_nonneg|].
    rewrite <-pmul_lxor_l, E. rewrite pmul_comm by (done || by apply pmul_nonneg).
    by rewrite pmul_assoc by done.
Qed.

Lemma cong_fold a : 0 <= a -> cong (Z.shiftl a 128) (pmul a P_low).
Proof.
  intros Ha. exists a. split; [done|]. unfold P128. rewrite pmul_lxor_r by done. by rewrite pmul_pow2_r.
Qed.

(** The residues below x^128 are unique. *)
Lemma cong_unique a b : in_width 128 a -> in_width 128 b -> cong a b -> a = b.
Proof.
  intros Ha Hb (q & Hq & E). apply Z.lxor_eq.
  destruct (decide (q = 0)) as [->|Hne]; [by rewrite E, pmul_0_l|]. exfalso.
  assert (Hw : in_width 128 (Z.lxor a b)) by (by apply lxor_in_width).
  pose proof (Z.log2_nonneg q) as Hl.
  assert (Hbit : Z.testbit (Z.lxor a b) (Z.log2 q + 128) = false) by (apply (in_width_high_bits 128); [done|lia]).
  rewrite E in Hbit. unfold P128 in Hbit. rewrite pmul_lxor_r, pmul_pow2_r, pmul_P_low in Hbit by done.
  rewrite !Z.lxor_spec, !Z.shiftl_spec in Hbit by lia.
  replace (Z.log2 q + 128 - 128) with (Z.log2 q) in Hbit by lia.
  rewrite Z.bit_log2 in Hbit by lia.
  rewrite !(Z.bits_above_log2 q) in Hbit by lia. done.
Qed.

(** ** Widths, halves and shifts of polynomials *)

Lemma shiftl_in_width n k a : 0 <= n -> 0 <= k -> in_width n a -> in_width (n + k) (Z.shiftl a k).
Proof.
  intros Hn Hk [H0 H1]. rewrite Z.shiftl_mul_pow2 by done. unfold in_width.
  rewrite Z.pow_add_r by done. pose proof (Z.pow_pos_nonneg 2 k). nia.
Qed.

Lemma pmul_width (n m : nat) a b : (0 < m)%nat -> in_width (Z.of_nat n) a -> in_width (Z.of_nat m) b ->
  in_width (Z.of_nat (n + m - 1)) (pmul a b).
Proof.
  intros Hm Ha. revert b. apply bits_ind_width.
  - split; [done|]. change (pmul a 0) with 0. lia.
  - intros i Hi. rewrite pmul_pow2_r by lia.
    eapply in_width_mono; [|apply (shiftl_in_width (Z.of_nat n)); [lia| |exact Ha]]; lia.
  - intros x y Hx Hy Wx Wy. rewrite pmul_lxor_r by done. apply lxor_in_width; [lia|done|done].
Qed.

Lemma rev_shiftl n m k a : (k + m <= n)%nat -> in_width (Z.of_nat m) a ->
  rev n (Z.shiftl a (Z.of_nat k)) = Z.shiftl (rev m a) (Z.of_nat (n - m - k)).
Proof.
  intros Hn Ha. apply Z.bits_inj'. intros i Hi.
  rewrite rev_testbit by done. destruct (Z.ltb_spec i (Z.of_nat n)) as [H|H]; cbn [andb].
  - rewrite !Z.shiftl_spec by lia.
    destruct (Z.lt_ge_cases i (Z.of_nat (n - m - k))).
    + rewrite (Z.testbit_neg_r (rev m a)) by lia. apply (in_width_high_bits (Z.of_nat m)); [done|lia].
    + rewrite rev_testbit by lia. destruct (Z.ltb_spec (i - Z.of_nat (n - m - k)) (Z.of_nat m)); cbn [andb].
      * f_equal. lia.
      * apply Z.testbit_neg_r. lia.
  - rewrite Z.shiftl_spec, rev_testbit by lia. by rewrite (proj2 (Z.ltb_ge _ _)) by lia.
Qed.

(** A word shifted by [k], split at the word boundary, both ways. *)
Lemma split_shiftl w k : in_width 64 w -> 0 <= k <= 64 ->
  Z.lxor (w64 (Z.shiftl w k)) (Z.shiftl (Z.shiftr w (64 - k)) 64) = Z.shiftl w k.
Proof.
  intros Hw Hk. apply Z.bits_inj'. intros i Hi. rewrite Z.lxor_spec, wrap_testbit, !Z.shiftl_spec by lia.
  destruct (Z.ltb_spec i 64); cbn [andb].
  - rewrite (Z.testbit_neg_r _ (i - 64)) by lia. apply xorb_false_r.
  - rewrite xorb_false_l, Z.shiftr_spec by lia. f_equal. lia.
Qed.

Lemma rev_split_shiftr w k : in_width 64 w -> 0 <= k <= 64 ->
  Z.lxor (rev 64 (Z.shiftr w k)) (Z.shiftl (rev 64 (w64 (Z.shiftl w (64 - k)))) 64) = Z.shiftl (rev 64 w) k.
Proof.
  intros Hw Hk. apply Z.bits_inj'. intros i Hi.
  rewrite Z.lxor_spec, !Z.shiftl_spec, rev_testbit by lia. change (Z.of_nat 64) with 64.
  destruct (Z.ltb_spec i 64); cbn [andb].
  - rewrite (Z.testbit_neg_r _ (i - 64)), xorb_false_r, Z.shiftr_spec by lia.
    destruct (Z.lt_ge_cases i k).
    + rewrite (Z.testbit_neg_r (rev _ _)) by lia. apply (in_width_high_bits 64); [done|lia].
    + rewrite rev_testbit by lia. change (Z.of_nat 64) with 64. rewrite (proj2 (Z.ltb_lt _ _)) by lia. cbn [andb].
      f_equal. lia.
  - rewrite !rev_testbit by lia. change (Z.of_nat 64) with 64. rewrite xorb_false_l.
    destruct (Z.ltb_spec (i - 64) 64), (Z.ltb_spec (i - k) 64); cbn [andb]; try done; try lia.
    + rewrite wrap_testbit, Z.shiftl_spec by lia. rewrite (proj2 (Z.ltb_lt _ _)) by lia. cbn [andb]. f_equal. lia.
    + rewrite wrap_testbit, Z.shiftl_spec by lia. rewrite (Z.testbit_neg_r w) by lia. apply andb_false_r.
Qed.

(** The halves of a 128-bit value. *)
Lemma halves_128 x : in_width 128 x -> x = Z.lxor (w64 x) (Z.shiftl (w64 (Z.shiftr x 64)) 64).
Proof.
  intros Hx. apply Z.bits_inj'. intros i Hi. rewrite Z.lxor_spec, wrap_testbit, Z.shiftl_spec by lia.
  destruct (Z.ltb_spec i 64); cbn [andb].
  - rewrite (Z.testbit_neg_r _ (i - 64)) by lia. by rewrite xorb_false_r.
  - rewrite xorb_false_l, wrap_testbit, Z.shiftr_spec by lia.
    destruct (Z.ltb_spec (i - 64) 64); cbn [andb]; [f_equal; lia|by apply (in_width_high_bits 128); [|lia]].
Qed.
