(* ===== verification/Ghash.v ===== *)
(** * GHASH with the carry-less multiplication instruction

    The code of [hash/ghash_pclmul.c], four blocks at a time over precomputed
    powers of the key, against the bit-by-bit definition of GHASH in
    SP 800-38D.  The order of bits inside a field element is reversed in the
    standard; the code works on the reversed product and shifts it by one. *)
From S2P Require Import Prelude Inner Simd Gf2.
Local Open Scope Z_scope.

(** ** The code *)

(** Reverse the sixteen bytes. *)
Definition byteswap_index : list nat := [15; 14; 13; 12; 11; 10; 9; 8; 7; 6; 5; 4; 3; 2; 1; 0]%nat.
Definition BYTESWAP (x : m128) : m128 := mm_shuffle_epi8 x byteswap_index.

(** The carry-less product of two 64-bit lanes. *)
Definition pclmulqdq00 (x y : m128) : m128 := pmul_n 64 (lane64 0 x) (lane64 0 y).
Definition pclmulqdq11 (x y : m128) : m128 := pmul_n 64 (lane64 1 x) (lane64 1 y).

Definition BK (kw : m128) : m128 := mm_xor_si128 kw (mm_shuffle_epi32 kw 0x0E).

Definition PBK (k0 k1 : m128) : m128 * m128 := (mm_unpacklo_epi64 k1 k0, mm_xor_si128 k0 k1).

Definition SL_256 (x0 x1 x2 x3 : m128) : m128 * m128 * m128 * m128 :=
  let x0 := mm_or_si128 (mm_slli_epi64 x0 1) (mm_srli_epi64 x1 63) in
  let x1 := mm_or_si128 (mm_slli_epi64 x1 1) (mm_srli_epi64 x2 63) in
  let x2 := mm_or_si128 (mm_slli_epi64 x2 1) (mm_srli_epi64 x3 63) in
  let x3 := mm_slli_epi64 x3 1 in
  (x0, x1, x2, x3).

Definition REDUCE_F128 (x0 x1 x2 x3 : m128) : m128 * m128 :=
  let x1 := mm_xor_si128 x1 (mm_xor_si128
              (mm_xor_si128 x3 (mm_srli_epi64 x3 1))
              (mm_xor_si128 (mm_srli_epi64 x3 2) (mm_srli_epi64 x3 7))) in
  let x2 := mm_xor_si128 (mm_xor_si128 x2 (mm_slli_epi64 x3 63))
              (mm_xor_si128 (mm_slli_epi64 x3 62) (mm_slli_epi64 x3 57)) in
  let x0 := mm_xor_si128 x0 (mm_xor_si128
              (mm_xor_si128 x2 (mm_srli_epi64 x2 1))
              (mm_xor_si128 (mm_srli_epi64 x2 2) (mm_srli_epi64 x2 7))) in
  let x1 := mm_xor_si128 (mm_xor_si128 x1 (mm_slli_epi64 x2 63))
              (mm_xor_si128 (mm_slli_epi64 x2 62) (mm_slli_epi64 x2 57)) in
  (x0, x1).

(** [SL_256] followed by [REDUCE_F128], as every use of them has it. *)
Definition shift_reduce (x0 x1 x2 x3 : m128) : m128 * m128 :=
  let '(x0, x1, x2, x3) := SL_256 x0 x1 x2 x3 in REDUCE_F128 x0 x1 x2 x3.

Definition SQUARE_F128 (kw : m128) : m128 * m128 :=
  let z1 := pclmulqdq11 kw kw in
  let z3 := pclmulqdq00 kw kw in
  let z0 := mm_shuffle_epi32 z1 0x0E in
  let z2 := mm_shuffle_epi32 z3 0x0E in
  let '(z0, z1) := shift_reduce z0 z1 z2 z3 in
  PBK z0 z1.

(** The end of a multiplication, after the high, middle and low products:
    carry the halves over, shift and reduce. *)
Definition finish_mul (t1 t2 t3 : m128) : m128 * m128 :=
  let t0 := mm_shuffle_epi32 t1 0x0E in
  let t1 := mm_xor_si128 t1 (mm_shuffle_epi32 t2 0x0E) in
  let t2 := mm_xor_si128 t2 (mm_shuffle_epi32 t3 0x0E) in
  shift_reduce t0 t1 t2 t3.

(** The third power of the key. *)
Definition cube (h1w h1x h2w h2x : m128) : m128 * m128 :=
  let t1 := pclmulqdq11 h1w h2w in
  let t3 := pclmulqdq00 h1w h2w in
  let t2 := mm_xor_si128 (pclmulqdq00 h1x h2x) (mm_xor_si128 t1 t3) in
  let '(t0, t1) := finish_mul t1 t2 t3 in
  PBK t0 t1.

(** One turn of the loop over 64-byte blocks. *)
Definition ghash_step4 (h1w h1x h2w h2x h3w h3x h4w h4x : m128) (yw : m128) (buf1 : bytes) : m128 :=
  let aw0 := BYTESWAP (mm_loadu_si128 buf1) in
  let aw1 := BYTESWAP (mm_loadu_si128 (drop 16 buf1)) in
  let aw2 := BYTESWAP (mm_loadu_si128 (drop 32 buf1)) in
  let aw3 := BYTESWAP (mm_loadu_si128 (drop 48 buf1)) in
  let aw0 := mm_xor_si128 aw0 yw in
  let ax1 := BK aw1 in
  let ax2 := BK aw2 in
  let ax3 := BK aw3 in
  let ax0 := BK aw0 in
  let t1 := mm_xor_si128 (mm_xor_si128 (pclmulqdq11 aw0 h4w) (pclmulqdq11 aw1 h3w))
                         (mm_xor_si128 (pclmulqdq11 aw2 h2w) (pclmulqdq11 aw3 h1w)) in
  let t3 := mm_xor_si128 (mm_xor_si128 (pclmulqdq00 aw0 h4w) (pclmulqdq00 aw1 h3w))
                         (mm_xor_si128 (pclmulqdq00 aw2 h2w) (pclmulqdq00 aw3 h1w)) in
  let t2 := mm_xor_si128 (mm_xor_si128 (pclmulqdq00 ax0 h4x) (pclmulqdq00 ax1 h3x))
                         (mm_xor_si128 (pclmulqdq00 ax2 h2x) (pclmulqdq00 ax3 h1x)) in
  let t2 := mm_xor_si128 t2 (mm_xor_si128 t1 t3) in
  let '(t0, t1) := finish_mul t1 t2 t3 in
  mm_unpacklo_epi64 t1 t0.

Fixpoint ghash_loop4 (num4 : nat) (h1w h1x h2w h2x h3w h3x h4w h4x : m128) (yw : m128) (buf1 : bytes) : m128 :=
  match num4 with
  | O => yw
  | S num4 => ghash_loop4 num4 h1w h1x h2w h2x h3w h3x h4w h4x
                (ghash_step4 h1w h1x h2w h2x h3w h3x h4w h4x yw buf1) (drop 64 buf1)
  end.

(** One turn of the loop over 16-byte blocks. *)
Definition ghash_step1 (h1w h1x : m128) (yw : m128) (buf2 : bytes) : m128 :=
  let aw := BYTESWAP (mm_loadu_si128 buf2) in
  let aw := mm_xor_si128 aw yw in
  let ax := BK aw in
  let t1 := pclmulqdq11 aw h1w in
  let t3 := pclmulqdq00 aw h1w in
  let t2 := pclmulqdq00 ax h1x in
  let t2 := mm_xor_si128 t2 (mm_xor_si128 t1 t3) in
  let '(t0, t1) := finish_mul t1 t2 t3 in
  mm_unpacklo_epi64 t1 t0.

Fixpoint ghash_loop1 (num1 : nat) (h1w h1x : m128) (yw : m128) (buf2 : bytes) : m128 :=
  match num1 with
  | O => yw
  | S num1 => ghash_loop1 num1 h1w h1x (ghash_step1 h1w h1x yw buf2) (drop 16 buf2)
  end.

(** [num4] and [num1] count the 64-byte and 16-byte blocks; a partial last
    block is completed with zeros in [tmp].  The result is the new [y]. *)
Definition br_ghash_pclmul (y h data : bytes) : bytes :=
  let buf1 := data in
  let num4 := Nat.div (length data) 64 in
  let len := Nat.modulo (length data) 64 in
  let buf2 := drop (num4 * 64) buf1 in
  let num1 := Nat.div (len + 15) 16 in
  let buf2 := if Nat.eqb (Nat.modulo len 16) 0 then buf2
              else take len buf2 ++ replicate (num1 * 16 - len) 0 in
  let yw := BYTESWAP (mm_loadu_si128 y) in
  let h1w := BYTESWAP (mm_loadu_si128 h) in
  let h1x := BK h1w in
  let yw :=
    if Nat.ltb 0 num4 then
      let '(h2w, h2x) := SQUARE_F128 h1w in
      let '(h3w, h3x) := cube h1w h1x h2w h2x in
      let '(h4w, h4x) := SQUARE_F128 h2w in
      ghash_loop4 num4 h1w h1x h2w h2x h3w h3x h4w h4x yw buf1
    else yw in
  let yw := ghash_loop1 num1 h1w h1x yw buf2 in
  mm_storeu_si128 (BYTESWAP yw).

(** ** The standard (SP 800-38D, sections 6.3 and 6.4) *)

Module SP800_38D.

(** A block as a big-endian integer: bit 0 of the standard is bit 127. *)
Definition of_block (b : bytes) : Z := of_lanes 8 ((fun i => byte_at b (15 - i)) <$> seq 0 16).
Definition to_block (x : Z) : bytes := (fun i => lane8 (15 - i) x) <$> seq 0 16.

Definition R : Z := Z.shiftl 0xE1 120.

(** Algorithm 1: [i] bits of [X] are left to look at. *)
Fixpoint gmul_loop (i : nat) (X Z0 V : Z) : Z :=
  match i with
  | O => Z0
  | S i => gmul_loop i X
             (if Z.testbit X (Z.of_nat i) then Z.lxor Z0 V else Z0)
             (if Z.testbit V 0 then Z.lxor (Z.shiftr V 1) R else Z.shiftr V 1)
  end.
Definition gmul (X Y : Z) : Z := gmul_loop 128 X 0 Y.

(** Algorithm 2 over the blocks of a string, the last one completed with
    zeros. *)
Fixpoint blocks (n : nat) (s : bytes) : list Z :=
  match n with
  | O => []
  | S n => of_block s :: blocks n (drop 16 s)
  end.
Definition ghash_blocks (H Y : Z) (X : list Z) : Z := fold_left (fun Y X => gmul (Z.lxor Y X) H) X Y.
Definition padded_blocks (s : bytes) : list Z := blocks (Nat.div (length s + 15) 16) s.

Definition GHASH (y h data : bytes) : bytes :=
  to_block (ghash_blocks (of_block h) (of_block y) (padded_blocks data)).

End SP800_38D.
Import SP800_38D.

(** ** The reduction *)

(** A polynomial of two or four 64-bit words, most significant first. *)
Definition pair128 (a b : Z) : Z := Z.lxor (Z.shiftl a 64) b.
Definition quad (a b c d : Z) : Z :=
  Z.lxor (Z.lxor (Z.shiftl a 192) (Z.shiftl b 128)) (Z.lxor (Z.shiftl c 64) d).

Lemma rev_pair a b : in_width 64 a -> in_width 64 b ->
  rev 128 (pair128 a b) = Z.lxor (rev 64 a) (Z.shiftl (rev 64 b) 64).
Proof.
  intros Ha Hb. unfold pair128. rewrite rev_lxor.
  rewrite (rev_shiftl 128 64 64) by (done || lia). rewrite <-(Z.shiftl_0_r b) at 1.
  rewrite (rev_shiftl 128 64 0) by (done || lia). by rewrite Z.shiftl_0_r.
Qed.

Lemma rev_quad a b c d : in_width 64 a -> in_width 64 b -> in_width 64 c -> in_width 64 d ->
  rev 256 (quad a b c d) = Z.lxor (rev 64 a) (Z.shiftl (Z.lxor (Z.lxor (rev 64 b) (Z.shiftl (rev 64 c) 64))
    (Z.shiftl (rev 64 d) 128)) 64).
Proof.
  intros Ha Hb Hc Hd. unfold quad. rewrite !rev_lxor.
  rewrite (rev_shiftl 256 64 192), (rev_shiftl 256 64 128), (rev_shiftl 256 64 64) by (done || lia).
  rewrite <-(Z.shiftl_0_r d) at 1. rewrite (rev_shiftl 256 64 0) by (done || lia).
  rewrite !Z.shiftl_lxor, !Z.shiftl_shiftl by lia. rewrite Z.shiftl_0_r, !Z.lxor_assoc. done.
Qed.

(** Folding the word [x] into the two words above it. *)
Lemma fold_word x b c : in_width 64 x -> in_width 64 b -> in_width 64 c ->
  Z.lxor (rev 64 (Z.lxor b (Z.lxor (Z.lxor x (Z.shiftr x 1)) (Z.lxor (Z.shiftr x 2) (Z.shiftr x 7)))))
    (Z.shiftl (rev 64 (Z.lxor (Z.lxor c (w64 (Z.shiftl x 63)))
       (Z.lxor (w64 (Z.shiftl x 62)) (w64 (Z.shiftl x 57))))) 64)
  = Z.lxor (Z.lxor (rev 64 b) (Z.shiftl (rev 64 c) 64)) (pmul (rev 64 x) P_low).
Proof.
  intros Hx Hb Hc. rewrite pmul_P_low by apply rev_nonneg.
  rewrite <-(rev_split_shiftr x 1), <-(rev_split_shiftr x 2), <-(rev_split_shiftr x 7) by (done || lia).
  change (64 - 1) with 63. change (64 - 2) with 62. change (64 - 7) with 57.
  rewrite !rev_lxor, !Z.shiftl_lxor. bitwise.
Qed.

(** The 256-bit product, given by its four words, and its residue. *)
Lemma reduce_words a b c d : in_width 64 a -> in_width 64 b -> in_width 64 c -> in_width 64 d ->
  let fold_hi := fun y x => Z.lxor y (Z.lxor (Z.lxor x (Z.shiftr x 1)) (Z.lxor (Z.shiftr x 2) (Z.shiftr x 7))) in
  let fold_lo := fun y x => Z.lxor (Z.lxor y (w64 (Z.shiftl x 63)))
                              (Z.lxor (w64 (Z.shiftl x 62)) (w64 (Z.shiftl x 57))) in
  let b1 := fold_hi b d in
  let c1 := fold_lo c d in
  let a1 := fold_hi a c1 in
  let b2 := fold_lo b1 c1 in
  in_width 64 a1 /\ in_width 64 b2 /\ cong (rev 128 (pair128 a1 b2)) (rev 256 (quad a b c d)).
Proof.
  intros Ha Hb Hc Hd fold_hi fold_lo b1 c1 a1 b2.
  assert (Whi : forall y x, in_width 64 y -> in_width 64 x -> in_width 64 (fold_hi y x)).
  { intros y x Hy Hx. unfold fold_hi. repeat apply lxor_in_width; try lia; auto; apply shiftr_in_width; (done || lia). }
  assert (Wlo : forall y x, in_width 64 y -> in_width 64 (fold_lo y x)).
  { intros y x Hy. unfold fold_lo. repeat apply lxor_in_width; try lia; auto; apply wrap_in_width; lia. }
  assert (W1 : in_width 64 b1) by (by apply Whi). assert (W2 : in_width 64 c1) by (by apply Wlo).
  assert (W3 : in_width 64 a1) by (by apply Whi). assert (W4 : in_width 64 b2) by (by apply Wlo).
  split; [done|]. split; [done|]. rewrite rev_pair, rev_quad by done.
  change a1 with (fold_hi a c1). change b2 with (fold_lo b1 c1). unfold fold_hi, fold_lo. rewrite fold_word by done.
  rewrite <-(cong_fold (rev 64 c1)) by apply rev_nonneg. rewrite Z.shiftl_lxor.
  replace (Z.shiftl (Z.shiftl (rev 64 d) 128) 64) with (Z.shiftl (Z.shiftl (rev 64 d) 64) 128)
    by (rewrite !Z.shiftl_shiftl by lia; done).
  rewrite (cong_fold (Z.shiftl (rev 64 d) 64)) by (apply Z.shiftl_nonneg, rev_nonneg).
  rewrite pmul_comm by (done || apply Z.shiftl_nonneg, rev_nonneg).
  rewrite pmul_shiftl_r by (done || lia || apply rev_nonneg). rewrite pmul_comm by (done || apply rev_nonneg).
  rewrite <-Z.shiftl_lxor, <-fold_word by done. fold (fold_hi b d) (fold_lo c d).
  change (fold_hi b d) with b1. change (fold_lo c d) with c1.
  rewrite !Z.shiftl_lxor, Z.shiftl_shiftl by lia. rewrite !Z.lxor_assoc. reflexivity.
Qed.

(** ** The lanes the code looks at *)

Lemma lane64_width i x : in_width 64 (lane64 i x).
Proof. apply wrap_in_width. lia. Qed.

Lemma lane64_xor i x y : lane64 i (mm_xor_si128 x y) = Z.lxor (lane64 i x) (lane64 i y).
Proof.
  apply Z.bits_inj'. intros j Hj. unfold lane64, mm_xor_si128.
  rewrite Z.lxor_spec, !lane_testbit, Z.lxor_spec by lia. by destruct (j <? 64).
Qed.

Lemma lane64_or i x y : lane64 i (mm_or_si128 x y) = Z.lor (lane64 i x) (lane64 i y).
Proof.
  apply Z.bits_inj'. intros j Hj. unfold lane64, mm_or_si128.
  rewrite Z.lor_spec, !lane_testbit, Z.lor_spec by lia. by destruct (j <? 64).
Qed.

Lemma lane64_slli x n : lane64 0 (mm_slli_epi64 x n) = w64 (Z.shiftl (lane64 0 x) n).
Proof. unfold mm_slli_epi64. rewrite lane64_of_lanes. apply wrap_idemp. Qed.

Lemma lane64_srli x n : 0 <= n -> lane64 0 (mm_srli_epi64 x n) = Z.shiftr (lane64 0 x) n.
Proof.
  intros Hn. unfold mm_srli_epi64. rewrite lane64_of_lanes. apply wrap_small.
  apply shiftr_in_width; [lia|apply lane64_width|done].
Qed.

Lemma lane64_swap x : lane64 0 (mm_shuffle_epi32 x 0x0E) = lane64 1 x.
Proof.
  apply Z.bits_inj'. intros j Hj. unfold lane64, mm_shuffle_epi32.
  rewrite !lane_testbit, of_lanes_testbit by lia.
  destruct (Z.ltb_spec j 64); [|done]. cbn [andb]. rewrite nth_fmap_seq by lia.
  assert (Hs : imm_sel 0x0E (Z.to_nat ((j + 64 * Z.of_nat 0) / 32)) = Z.to_nat (2 + j / 32)).
  { replace ((j + 64 * Z.of_nat 0) / 32) with (j / 32) by (f_equal; lia).
    assert (j / 32 = 0 \/ j / 32 = 1) as [-> | ->] by lia; reflexivity. }
  rewrite Hs. unfold lane32. rewrite lane_testbit by lia.
  rewrite (proj2 (Z.ltb_lt _ 32)) by lia. cbn [andb]. f_equal. lia.
Qed.

Lemma lane64_unpacklo x y : lane64 0 (mm_unpacklo_epi64 x y) = lane64 0 x /\ lane64 1 (mm_unpacklo_epi64 x y) = lane64 0 y.
Proof. unfold mm_unpacklo_epi64. rewrite !lane64_of_lanes. cbn [nth]. by rewrite !lane64_wrap. Qed.

#[export] Hint Rewrite lane64_xor lane64_or lane64_slli lane64_swap : lanes.
#[export] Hint Rewrite lane64_srli using lia : lanes.
#[export] Hint Resolve lane64_width : width.

(** ** Multiplication in the field *)

(** Evaluate the sums of constants that combined shifts leave. *)
Ltac norm_sums := repeat match goal with |- context [?x + ?y] => let v := eval vm_compute in (x + y) in
  change (x + y) with v end.

Lemma unpacklo_pair x y : mm_unpacklo_epi64 x y = pair128 (lane64 0 y) (lane64 0 x).
Proof.
  unfold mm_unpacklo_epi64, pair128. cbn [of_lanes]. rewrite !lane64_wrap, Z.shiftl_0_l, Z.lor_0_r.
  rewrite Z.lor_comm. symmetry. apply Z.lxor_lor. apply Z.bits_inj'. intros j Hj.
  rewrite Z.land_spec, Z.shiftl_spec, Z.bits_0 by done. destruct (Z.lt_ge_cases j 64).
  - by rewrite (Z.testbit_neg_r (lane64 0 y)) by lia.
  - rewrite (in_width_high_bits 64 (lane64 0 x)); [apply andb_false_r|apply lane64_width|done].
Qed.

Lemma pair_width a b : in_width 64 a -> in_width 64 b -> in_width 128 (pair128 a b).
Proof.
  intros Ha Hb. apply lxor_in_width; [lia|by apply (shiftl_in_width 64 64)|].
  by apply (in_width_mono 64 128); [lia|].
Qed.

(** The word below supplies the bit shifted in. *)
Lemma or_carry a b : in_width 64 b -> Z.lor (w64 (Z.shiftl a 1)) (Z.shiftr b 63) = Z.lxor (w64 (Z.shiftl a 1)) (Z.shiftr b 63).
Proof.
  intros Hb. symmetry. apply Z.lxor_lor. apply Z.bits_inj'. intros j Hj.
  rewrite Z.land_spec, wrap_testbit, Z.shiftl_spec, Z.shiftr_spec, Z.bits_0 by lia.
  destruct (decide (j = 0)) as [->|].
  - rewrite (Z.testbit_neg_r a) by lia. by rewrite andb_false_r.
  - rewrite (in_width_high_bits 64 b) by (done || lia). apply andb_false_r.
Qed.

Lemma quad_shiftl a b c d : in_width 63 a -> in_width 64 b -> in_width 64 c -> in_width 64 d ->
  quad (Z.lor (w64 (Z.shiftl a 1)) (Z.shiftr b 63)) (Z.lor (w64 (Z.shiftl b 1)) (Z.shiftr c 63))
       (Z.lor (w64 (Z.shiftl c 1)) (Z.shiftr d 63)) (w64 (Z.shiftl d 1))
  = Z.shiftl (quad a b c d) 1.
Proof.
  intros Ha Hb Hc Hd. rewrite !or_carry by done.
  rewrite (wrap_small 64 (Z.shiftl a 1)) by (by apply (shiftl_in_width 63 1)).
  unfold quad. rewrite !Z.shiftl_lxor.
  assert (E : forall w k, 0 <= k -> in_width 64 w -> Z.shiftl (Z.shiftl w k) 1 =
    Z.lxor (Z.shiftl (w64 (Z.shiftl w 1)) k) (Z.shiftl (Z.shiftl (Z.shiftr w 63) 64) k)).
  { intros w k Hk Hw. rewrite <-Z.shiftl_lxor, split_shiftl by (done || lia).
    rewrite !Z.shiftl_shiftl by lia. f_equal. lia. }
  rewrite (E b 128), (E c 64) by (done || lia).
  pose proof (split_shiftl d 1 Hd ltac:(lia)) as Ed. set (dl := w64 (Z.shiftl d 1)) in *. rewrite <-Ed.
  change (64 - 1) with 63.
  rewrite !Z.shiftl_shiftl by lia. norm_sums. bitwise.
Qed.

Lemma shift_reduce_spec x0 x1 x2 x3 : in_width 63 (lane64 0 x0) ->
  let y := shift_reduce x0 x1 x2 x3 in
  cong (rev 128 (mm_unpacklo_epi64 y.2 y.1))
       (rev 255 (quad (lane64 0 x0) (lane64 0 x1) (lane64 0 x2) (lane64 0 x3))).
Proof.
  intros H0 y. rewrite unpacklo_pair. unfold y, shift_reduce, SL_256, REDUCE_F128. cbn [fst snd].
  autorewrite with lanes. pose proof (lane64_width 0) as W.
  set (a := lane64 0 x0) in *. set (b := lane64 0 x1). set (c := lane64 0 x2). set (d := lane64 0 x3).
  assert (Wl : forall a b, in_width 64 b -> in_width 64 (Z.lor (w64 (Z.shiftl a 1)) (Z.shiftr b 63))).
  { intros. apply lor_in_width; [lia|apply wrap_in_width; lia|apply shiftr_in_width; (done || lia)]. }
  edestruct (reduce_words (Z.lor (w64 (Z.shiftl a 1)) (Z.shiftr b 63)) (Z.lor (w64 (Z.shiftl b 1)) (Z.shiftr c 63))
    (Z.lor (w64 (Z.shiftl c 1)) (Z.shiftr d 63)) (w64 (Z.shiftl d 1))) as (_ & _ & H);
    [apply Wl, W..|apply wrap_in_width; lia|]. etransitivity; [exact H|].
  rewrite quad_shiftl by (done || apply W).
  rewrite (rev_shiftl 256 255 1); [by rewrite Z.shiftl_0_r|lia|].
  unfold quad. repeat apply lxor_in_width; try lia.
  - by apply (shiftl_in_width 63 192).
  - apply (in_width_mono (64 + 128)); [lia|]. by apply shiftl_in_width; [lia..|apply W].
  - apply (in_width_mono (64 + 64)); [lia|]. by apply shiftl_in_width; [lia..|apply W].
  - apply (in_width_mono 64); [lia|]. apply W.
Qed.

(** The three partial products put together. *)
Definition assemble (t1 t2 t3 : Z) : Z := Z.lxor (Z.lxor (Z.shiftl t1 128) (Z.shiftl t2 64)) t3.

Lemma finish_mul_spec t1 t2 t3 : in_width 127 t1 -> in_width 128 t2 -> in_width 128 t3 ->
  let y := finish_mul t1 t2 t3 in
  in_width 128 (mm_unpacklo_epi64 y.2 y.1) /\
  cong (rev 128 (mm_unpacklo_epi64 y.2 y.1)) (rev 255 (assemble t1 t2 t3)).
Proof.
  intros H1 H2 H3 y. split; [by apply of_lanes_width|].
  unfold y, finish_mul. etransitivity; [apply shift_reduce_spec|].
  - rewrite lane64_swap. unfold lane64. change (64 * Z.of_nat 1) with 64.
    assert (in_width 63 (Z.shiftr t1 64)).
    { apply in_width_of_bits; [lia|apply Z.shiftr_nonneg, H1|]. intros i Hi. rewrite Z.shiftr_spec by lia.
      apply (in_width_high_bits 127); [done|lia]. }
    rewrite wrap_small; [done|]. by apply (in_width_mono 63); [lia|].
  - autorewrite with lanes. unfold assemble.
    assert (E : forall t k, 0 <= k -> in_width 128 t ->
      Z.shiftl t k = Z.lxor (Z.shiftl (lane64 0 t) k) (Z.shiftl (lane64 1 t) (64 + k))).
    { intros t k Hk Ht. rewrite (halves_128 t Ht) at 1. rewrite Z.shiftl_lxor, Z.shiftl_shiftl by lia.
      unfold lane64. by rewrite Z.shiftr_0_r. }
    rewrite <-(Z.shiftl_0_r t3) at 3. rewrite (E t1), (E t2), (E t3), Z.shiftl_0_r;
      [|lia|done|lia|done|lia|by apply (in_width_mono 127); [lia|]].
    norm_sums. unfold quad. rewrite !Z.shiftl_lxor.
    match goal with |- cong (rev _ ?x) (rev _ ?y) => replace x with y by bitwise end. reflexivity.
Qed.

Lemma assemble_lxor a b c a' b' c' :
  assemble (Z.lxor a a') (Z.lxor b b') (Z.lxor c c') = Z.lxor (assemble a b c) (assemble a' b' c').
Proof. unfold assemble. rewrite !Z.shiftl_lxor. bitwise. Qed.

(** The products of the upper halves, of the sums of halves, and of the
    lower halves of two elements give their product (Karatsuba). *)
Lemma karatsuba a h : in_width 128 a -> in_width 128 h ->
  let t1 := pmul (lane64 1 a) (lane64 1 h) in
  let t3 := pmul (lane64 0 a) (lane64 0 h) in
  pmul a h = assemble t1 (Z.lxor (pmul (Z.lxor (lane64 0 a) (lane64 1 a)) (Z.lxor (lane64 0 h) (lane64 1 h)))
                            (Z.lxor t1 t3)) t3.
Proof.
  intros Ha Hh t1 t3. subst t1 t3. pose proof (fun i x => proj1 (lane64_width i x)) as W.
  assert (E : forall t, in_width 128 t -> t = Z.lxor (lane64 0 t) (Z.shiftl (lane64 1 t) 64)).
  { intros t Ht. rewrite (halves_128 t Ht) at 1. unfold lane64. by rewrite Z.shiftr_0_r. }
  rewrite (E a Ha) at 1. rewrite (E h Hh) at 1.
  generalize (W 0%nat a) (W 1%nat a) (W 0%nat h) (W 1%nat h).
  generalize (lane64 0 a) (lane64 1 a) (lane64 0 h) (lane64 1 h). intros a0 a1 h0 h1 Ha0 Ha1 Hh0 Hh1.
  assert (S : forall x, 0 <= x -> 0 <= Z.shiftl x 64) by (intros; by apply Z.shiftl_nonneg).
  assert (X : forall x y, 0 <= x -> 0 <= y -> 0 <= Z.lxor x y) by (intros; by apply Z.lxor_nonneg).
  rewrite !pmul_lxor_l, !pmul_lxor_r by auto. rewrite !pmul_shiftl_r by (auto || lia).
  rewrite !(pmul_comm (Z.shiftl a1 64)) by auto. rewrite !pmul_shiftl_r by (auto || lia).
  rewrite !(pmul_comm _ a1) by auto. unfold assemble.
  rewrite !Z.shiftl_lxor, Z.shiftl_shiftl by lia. norm_sums. bitwise.
Qed.

Lemma pclmul00_pmul x y : pclmulqdq00 x y = pmul (lane64 0 x) (lane64 0 y).
Proof. apply pmul_n_pmul, lane64_width. Qed.
Lemma pclmul11_pmul x y : pclmulqdq11 x y = pmul (lane64 1 x) (lane64 1 y).
Proof. apply pmul_n_pmul, lane64_width. Qed.

Lemma clmul_width x y i j : in_width 127 (pmul (lane64 i x) (lane64 j y)).
Proof. apply (pmul_width 64 64); [lia|apply lane64_width..]. Qed.

(** A key in the form the code keeps it: the element and the sum of its
    halves.  [p] is the field element it stands for. *)
Definition is_key (hw hx p : Z) : Prop :=
  in_width 128 hw /\ lane64 0 hx = Z.lxor (lane64 0 hw) (lane64 1 hw) /\ cong (rev 128 hw) p.

(** The three partial products of [a] and a key. *)
Definition partials (aw ax hw hx : Z) : Z * Z * Z :=
  (pclmulqdq11 aw hw, pclmulqdq00 ax hx, pclmulqdq00 aw hw).

Definition prod_ok (t1 m t3 p : Z) : Prop :=
  in_width 127 t1 /\ in_width 127 m /\ in_width 127 t3 /\
  cong (rev 255 (assemble t1 (Z.lxor m (Z.lxor t1 t3)) t3)) p.

Lemma lane64_BK x : lane64 0 (BK x) = Z.lxor (lane64 0 x) (lane64 1 x).
Proof. unfold BK. by autorewrite with lanes. Qed.

Lemma partials_ok aw ax hw hx p q : is_key aw ax p -> is_key hw hx q -> 0 <= p -> 0 <= q ->
  prod_ok (pclmulqdq11 aw hw) (pclmulqdq00 ax hx) (pclmulqdq00 aw hw) (pmul p q).
Proof.
  intros (Wa & Ea & Ca) (Wh & Eh & Ch) Hp Hq. rewrite !pclmul00_pmul, pclmul11_pmul.
  split; [apply clmul_width|]. split; [apply clmul_width|]. split; [apply clmul_width|].
  rewrite Ea, Eh, <-karatsuba by done.
  rewrite (rev_pmul 128) by (done || lia). apply cong_pmul; auto using rev_nonneg.
Qed.

Lemma prod_ok_add t1 m t3 p t1' m' t3' p' : prod_ok t1 m t3 p -> prod_ok t1' m' t3' p' ->
  prod_ok (mm_xor_si128 t1 t1') (mm_xor_si128 m m') (mm_xor_si128 t3 t3') (Z.lxor p p').
Proof.
  intros (H1 & H2 & H3 & H4) (H1' & H2' & H3' & H4'). unfold mm_xor_si128.
  split; [by apply lxor_in_width|]. split; [by apply lxor_in_width|]. split; [by apply lxor_in_width|].
  rewrite <-H4, <-H4', <-rev_lxor, <-assemble_lxor.
  match goal with |- cong (rev _ (assemble _ ?x _)) (rev _ (assemble _ ?y _)) => replace x with y by bitwise end.
  reflexivity.
Qed.

Lemma finish_prod t1 m t3 p : prod_ok t1 m t3 p ->
  let y := finish_mul t1 (mm_xor_si128 m (mm_xor_si128 t1 t3)) t3 in
  is_key (mm_unpacklo_epi64 y.2 y.1) (mm_xor_si128 y.1 y.2) p.
Proof.
  intros (H1 & H2 & H3 & H4) y.
  destruct (finish_mul_spec t1 (mm_xor_si128 m (mm_xor_si128 t1 t3)) t3) as [W C].
  - done.
  - apply (in_width_mono 127); [lia|]. repeat apply lxor_in_width; (done || lia).
  - by apply (in_width_mono 127); [lia|].
  - fold y in W, C. split; [done|]. split.
    + destruct (lane64_unpacklo y.2 y.1) as [-> ->]. rewrite lane64_xor. apply Z.lxor_comm.
    + by rewrite C.
Qed.

Lemma is_key_BK hw p : in_width 128 hw -> cong (rev 128 hw) p -> is_key hw (BK hw) p.
Proof. intros W C. split; [done|]. split; [apply lane64_BK|done]. Qed.

Lemma cube_ok h1w h1x h2w h2x p q : is_key h1w h1x p -> is_key h2w h2x q -> 0 <= p -> 0 <= q ->
  is_key (cube h1w h1x h2w h2x).1 (cube h1w h1x h2w h2x).2 (pmul p q).
Proof.
  intros H1 H2 Hp Hq. pose proof (finish_prod _ _ _ _ (partials_ok _ _ _ _ _ _ H1 H2 Hp Hq)) as H.
  unfold cube. destruct (finish_mul _ _ _) as [t0 t1]. exact H.
Qed.

Lemma square_finish kw : SQUARE_F128 kw =
  let y := finish_mul (pclmulqdq11 kw kw) 0 (pclmulqdq00 kw kw) in PBK y.1 y.2.
Proof.
  unfold SQUARE_F128, finish_mul. generalize (pclmulqdq11 kw kw) (pclmulqdq00 kw kw). intros z1 z3.
  change (mm_shuffle_epi32 0 0x0E) with 0.
  replace (mm_xor_si128 z1 0) with z1 by (symmetry; apply Z.lxor_0_r).
  replace (mm_xor_si128 0 (mm_shuffle_epi32 z3 14)) with (mm_shuffle_epi32 z3 14) by (symmetry; apply Z.lxor_0_l).
  by destruct (shift_reduce _ _ _ _).
Qed.

Lemma SQUARE_ok hw hx p : is_key hw hx p -> 0 <= p ->
  is_key (SQUARE_F128 hw).1 (SQUARE_F128 hw).2 (pmul p p).
Proof.
  intros H Hp. pose proof (finish_prod _ _ _ _ (partials_ok _ _ _ _ _ _ H H Hp Hp)) as G.
  rewrite square_finish. destruct H as (_ & E & _).
  assert (X : mm_xor_si128 (pclmulqdq00 hx hx) (mm_xor_si128 (pclmulqdq11 hw hw) (pclmulqdq00 hw hw)) = 0); [|by rewrite X in G].
  rewrite !pclmul00_pmul, pclmul11_pmul, E. pose proof (proj1 (lane64_width 0 hw)). pose proof (proj1 (lane64_width 1 hw)).
  unfold mm_xor_si128. rewrite pmul_lxor_l, !pmul_lxor_r by done. rewrite (pmul_comm (lane64 1 hw) (lane64 0 hw)) by done.
  apply Z.bits_inj'. intros i Hi. rewrite !Z.lxor_spec, Z.bits_0.
  by repeat match goal with |- context [Z.testbit ?x i] => destruct (Z.testbit x i) end.
Qed.

(** ** The standard's multiplication *)

(** [x] is a block that stands for the field element [p]. *)
Definition felem (x p : Z) : Prop := in_width 128 x /\ cong (rev 128 x) p.

Lemma felem_unique x y p : felem x p -> felem y p -> x = y.
Proof.
  intros [Wx Cx] [Wy Cy]. apply (rev_inj 128); [done|done|].
  apply cong_unique; [apply (rev_width 128)..|]. by rewrite Cx, Cy.
Qed.

Lemma felem_self x : in_width 128 x -> felem x (rev 128 x).
Proof. intros W. by split. Qed.

Lemma felem_lxor x y p q : felem x p -> felem y q -> felem (Z.lxor x y) (Z.lxor p q).
Proof. intros [Wx Cx] [Wy Cy]. split; [by apply lxor_in_width|]. by rewrite rev_lxor, Cx, Cy. Qed.

Lemma times_x V : in_width 128 V ->
  felem (if Z.testbit V 0 then Z.lxor (Z.shiftr V 1) R else Z.shiftr V 1) (Z.shiftl (rev 128 V) 1).
Proof.
  intros W. assert (WR : in_width 128 R) by (vm_compute; split; congruence).
  assert (E : Z.shiftl (rev 128 V) 1 = Z.lxor (rev 128 (Z.shiftr V 1)) (if Z.testbit V 0 then Z.shiftl 1 128 else 0)).
  { apply Z.bits_inj'. intros j Hj. rewrite Z.lxor_spec, Z.shiftl_spec, (rev_testbit 128 (Z.shiftr V 1)) by done. change (Z.of_nat 128) with 128.
    assert (Hb : Z.testbit (if Z.testbit V 0 then Z.shiftl 1 128 else 0) j = (j =? 128) && Z.testbit V 0).
    { rewrite Z.shiftl_1_l. destruct (Z.testbit V 0); [|by rewrite Z.bits_0, andb_false_r].
      rewrite Z.pow2_bits_eqb, andb_true_r by lia. apply Z.eqb_sym. }
    rewrite Hb. destruct (decide (j = 0)) as [->|].
    { rewrite Z.testbit_neg_r by lia. cbn [Z.ltb Z.eqb andb]. rewrite Z.shiftr_spec by lia.
      by rewrite (in_width_high_bits 128 V) by (done || lia). }
    rewrite rev_testbit by lia. change (Z.of_nat 128) with 128.
    destruct (Z.ltb_spec (j - 1) 128), (Z.ltb_spec j 128), (Z.eqb_spec j 128); try lia; cbn [andb];
      rewrite ?xorb_false_r, ?xorb_false_l; try done.
    - rewrite Z.shiftr_spec by lia. f_equal. lia.
    - f_equal. lia. }
  rewrite E. destruct (Z.testbit V 0).
  - split; [apply lxor_in_width; [lia|apply shiftr_in_width; (done || lia)|done]|].
    rewrite rev_lxor. rewrite (cong_fold 1) by done. by change (rev 128 R) with (pmul 1 P_low).
  - rewrite Z.lxor_0_r. apply felem_self. apply shiftr_in_width; (done || lia).
Qed.

Lemma gmul_loop_felem i : forall k X Z0 V y, (i + k = 128)%nat -> 0 <= y -> in_width 128 X ->
  felem Z0 (pmul_n k y (rev 128 X)) -> felem V (Z.shiftl y (Z.of_nat k)) ->
  felem (gmul_loop i X Z0 V) (pmul y (rev 128 X)).
Proof.
  induction i as [|i IH]; intros k X Z0 V y Hk Hy WX HZ HV; cbn [gmul_loop].
  - replace k with 128%nat in HZ by lia. by rewrite pmul_n_pmul in HZ by apply (rev_width 128).
  - apply (IH (S k)); [lia|done|done| |].
    + cbn [pmul_n]. rewrite rev_testbit by lia. rewrite (proj2 (Z.ltb_lt _ _)) by lia. cbn [andb].
      replace (Z.of_nat 128 - 1 - Z.of_nat k) with (Z.of_nat i) by lia.
      destruct (Z.testbit X (Z.of_nat i)); [by apply felem_lxor|by rewrite Z.lxor_0_r].
    + destruct HV as [WV CV]. destruct (times_x V WV) as [W C]. split; [done|]. rewrite C.
      replace (Z.of_nat (S k)) with (Z.of_nat k + 1) by lia. rewrite <-Z.shiftl_shiftl by lia.
      rewrite <-!(pmul_pow2_r _ 1) by lia. apply cong_pmul; try done; [apply rev_nonneg|by apply Z.shiftl_nonneg].
Qed.

Lemma gmul_felem X Y p q : felem X p -> felem Y q -> 0 <= p -> 0 <= q -> felem (gmul X Y) (pmul p q).
Proof.
  intros [WX CX] [WY CY] Hp Hq.
  destruct (gmul_loop_felem 128 0 X 0 Y (rev 128 Y)) as [W C].
  - done.
  - apply rev_nonneg.
  - done.
  - split; [done|]. rewrite rev_0. reflexivity.
  - rewrite Z.shiftl_0_r. by apply felem_self.
  - split; [done|]. etransitivity; [exact C|]. rewrite pmul_comm by apply rev_nonneg.
    apply cong_pmul; auto using rev_nonneg.
Qed.

(** ** One and four blocks *)

Lemma of_lanes_wrap w l : of_lanes w (wrap w <$> l) = of_lanes w l.
Proof. induction l as [|a l IH]; [done|]. cbn [fmap list_fmap of_lanes]. by rewrite IH, wrap_idemp. Qed.

Lemma BYTESWAP_load b : BYTESWAP (mm_loadu_si128 b) = of_block b.
Proof.
  unfold BYTESWAP, mm_shuffle_epi8, of_block, mm_loadu_si128.
  change byteswap_index with ((fun i => 15 - i)%nat <$> seq 0 16). rewrite <-list_fmap_compose.
  rewrite <-(of_lanes_wrap 8 ((fun i => byte_at b (15 - i)) <$> _)), <-list_fmap_compose.
  f_equal. apply list_fmap_ext. intros k i Hi. unfold compose. apply lookup_seq in Hi as [-> Hk].
  by rewrite lane8_of_lanes, nth_fmap_seq by lia.
Qed.

Lemma of_block_width b : in_width 128 (of_block b).
Proof. by apply of_lanes_width. Qed.

Lemma store_BYTESWAP x : mm_storeu_si128 (BYTESWAP x) = to_block x.
Proof.
  unfold mm_storeu_si128, to_block, BYTESWAP, mm_shuffle_epi8. apply list_fmap_ext.
  intros k i Hi. apply lookup_seq in Hi as [-> Hk]. cbn [Nat.add].
  rewrite lane8_of_lanes. change byteswap_index with ((fun i => 15 - i)%nat <$> seq 0 16).
  rewrite <-list_fmap_compose, nth_fmap_seq by lia. apply wrap_idemp.
Qed.

Lemma ghash_step1_spec h1w yw b : in_width 128 h1w -> in_width 128 yw ->
  ghash_step1 h1w (BK h1w) yw b = gmul (Z.lxor yw (of_block b)) h1w.
Proof.
  intros Wh Wy. set (a := mm_xor_si128 (of_block b) yw).
  assert (Wa : in_width 128 a) by (apply lxor_in_width; [lia|apply of_block_width|done]).
  apply (felem_unique _ _ (pmul (rev 128 a) (rev 128 h1w))).
  - pose proof (finish_prod _ _ _ _ (partials_ok a (BK a) h1w (BK h1w) _ _
      (is_key_BK a _ Wa ltac:(reflexivity)) (is_key_BK h1w _ Wh ltac:(reflexivity)) (rev_nonneg _ _) (rev_nonneg _ _))) as (W & _ & C).
    unfold ghash_step1. rewrite BYTESWAP_load. fold a. destruct (finish_mul _ _ _) as [t0 t1]. by split.
  - rewrite (Z.lxor_comm yw). apply gmul_felem; auto using felem_self, rev_nonneg.
Qed.

(** The keys of the four-block loop. *)
Definition keys4 (h1w h2w h2x h3w h3x h4w h4x : m128) : Prop :=
  let p := rev 128 h1w in
  in_width 128 h1w /\ is_key h2w h2x (pmul p p) /\ is_key h3w h3x (pmul p (pmul p p)) /\
  is_key h4w h4x (pmul (pmul p p) (pmul p p)).

Lemma ghash_step4_spec h1w h2w h2x h3w h3x h4w h4x yw b :
  keys4 h1w h2w h2x h3w h3x h4w h4x -> in_width 128 yw ->
  ghash_step4 h1w (BK h1w) h2w h2x h3w h3x h4w h4x yw b = ghash_blocks h1w yw (blocks 4 b).
Proof.
  intros (Wh & K2 & K3 & K4) Wy. set (p := rev 128 h1w) in *. assert (Hp : 0 <= p) by apply rev_nonneg.
  unfold ghash_step4, ghash_blocks. cbn [blocks fold_left]. rewrite !BYTESWAP_load, !drop_drop. cbn [Nat.add].
  pose proof (of_block_width b) as W0. pose proof (of_block_width (drop 16 b)) as W1.
  pose proof (of_block_width (drop 32 b)) as W2. pose proof (of_block_width (drop 48 b)) as W3.
  revert W0 W1 W2 W3. generalize (of_block b) (of_block (drop 16 b)) (of_block (drop 32 b)) (of_block (drop 48 b)).
  intros a0 a1 a2 a3 W0 W1 W2 W3. rewrite (Z.lxor_comm yw a0). fold (mm_xor_si128 a0 yw).
  assert (WX : in_width 128 (mm_xor_si128 a0 yw)) by (by apply lxor_in_width). revert WX.
  generalize (mm_xor_si128 a0 yw). clear a0 W0 yw Wy. intros a0 W0.
  set (r := rev 128). assert (Hr : forall x, 0 <= r x) by apply rev_nonneg.
  assert (KB : forall a, in_width 128 a -> is_key a (BK a) (r a)) by (intros a Wa; apply is_key_BK; [done|reflexivity]).
  apply (felem_unique _ _ (Z.lxor (Z.lxor (pmul (r a0) (pmul (pmul p p) (pmul p p))) (pmul (r a1) (pmul p (pmul p p))))
    (Z.lxor (pmul (r a2) (pmul p p)) (pmul (r a3) p)))).
  - pose proof (finish_prod _ _ _ _ (prod_ok_add _ _ _ _ _ _ _ _
      (prod_ok_add _ _ _ _ _ _ _ _ (partials_ok _ _ _ _ _ _ (KB a0 W0) K4 (Hr _) ltac:(auto with width))
         (partials_ok _ _ _ _ _ _ (KB a1 W1) K3 (Hr _) ltac:(auto with width)))
      (prod_ok_add _ _ _ _ _ _ _ _ (partials_ok _ _ _ _ _ _ (KB a2 W2) K2 (Hr _) ltac:(auto with width))
         (partials_ok _ _ _ _ _ _ (KB a3 W3) (KB h1w Wh) (Hr _) (Hr _))))) as (W & _ & C).
    destruct (finish_mul _ _ _) as [t0 t1]. by split.
  - assert (Ring : Z.lxor (Z.lxor (pmul (r a0) (pmul (pmul p p) (pmul p p))) (pmul (r a1) (pmul p (pmul p p))))
      (Z.lxor (pmul (r a2) (pmul p p)) (pmul (r a3) p))
      = pmul (Z.lxor (pmul (Z.lxor (pmul (Z.lxor (pmul (r a0) p) (r a1)) p) (r a2)) p) (r a3)) p).
    { rewrite !pmul_lxor_l, !pmul_assoc by auto 6 with width. rewrite !Z.lxor_assoc. reflexivity. }
    rewrite Ring.
    assert (HL : forall x y, 0 <= x -> 0 <= y -> 0 <= Z.lxor x y) by (intros; by apply Z.lxor_nonneg).
    pose proof (felem_self h1w Wh).
    repeat (apply gmul_felem; [apply felem_lxor; [|by apply felem_self]|done|by auto 12 with width|done]).
    apply gmul_felem; auto using felem_self.
Qed.

(** ** The whole string *)

Lemma gmul_width X Y : in_width 128 X -> in_width 128 Y -> in_width 128 (gmul X Y).
Proof.
  intros WX WY. eapply (gmul_felem X Y); auto using felem_self, rev_nonneg.
Qed.

Lemma blocks_app n m s : blocks (n + m) s = blocks n s ++ blocks m (drop (16 * n) s).
Proof.
  revert s. induction n as [|n IH]; intros s; cbn [blocks Nat.add app]; [done|].
  f_equal. rewrite IH, drop_drop. do 3 f_equal. lia.
Qed.

Lemma blocks_ext n : forall s t, (forall i, byte_at s i = byte_at t i) -> blocks n s = blocks n t.
Proof.
  induction n as [|n IH]; intros s t H; cbn [blocks]; [done|]. f_equal.
  - unfold of_block. f_equal. apply list_fmap_ext. intros. apply H.
  - apply IH. intros i. rewrite !byte_at_drop. apply H.
Qed.

Lemma ghash_blocks_width h X : in_width 128 h -> Forall (in_width 128) X ->
  forall y, in_width 128 y -> in_width 128 (ghash_blocks h y X).
Proof.
  intros Wh HX. induction HX as [|x X Wx _ IH]; intros y Wy; [assumption|]. unfold ghash_blocks. cbn [fold_left]. apply IH.
  apply gmul_width; [by apply lxor_in_width|assumption].
Qed.

Lemma blocks_width n s : Forall (in_width 128) (blocks n s).
Proof. revert s. induction n; intros s; cbn [blocks]; constructor; auto using of_block_width. Qed.

Lemma ghash_blocks_app h y X X' : ghash_blocks h y (X ++ X') = ghash_blocks h (ghash_blocks h y X) X'.
Proof. apply fold_left_app. Qed.

Lemma ghash_loop1_spec n h1w : in_width 128 h1w -> forall yw b, in_width 128 yw ->
  ghash_loop1 n h1w (BK h1w) yw b = ghash_blocks h1w yw (blocks n b).
Proof.
  intros Wh. induction n as [|n IH]; intros yw b Wy; cbn [ghash_loop1 blocks]; [done|].
  rewrite ghash_step1_spec by assumption. apply IH. apply gmul_width; [|assumption].
  apply lxor_in_width; [lia|done|apply of_block_width].
Qed.

Lemma ghash_loop4_spec n h1w h2w h2x h3w h3x h4w h4x : keys4 h1w h2w h2x h3w h3x h4w h4x ->
  forall yw b, in_width 128 yw ->
  ghash_loop4 n h1w (BK h1w) h2w h2x h3w h3x h4w h4x yw b = ghash_blocks h1w yw (blocks (4 * n) b).
Proof.
  intros HK. induction n as [|n IH]; intros yw b Wy; [done|].
  replace (4 * S n)%nat with (4 + 4 * n)%nat by lia.
  rewrite blocks_app, ghash_blocks_app, <-(ghash_step4_spec _ h2w h2x h3w h3x h4w h4x) by done.
  apply IH. rewrite ghash_step4_spec by done.
  apply ghash_blocks_width; [apply HK|apply blocks_width|done].
Qed.

Lemma zero_padding s k i : byte_at (s ++ replicate k 0) i = byte_at s i.
Proof.
  unfold byte_at. destruct (Nat.lt_ge_cases i (length s)).
  - by apply app_nth1.
  - rewrite app_nth2, (nth_overflow s) by lia. rewrite nth_lookup. destruct (replicate k 0 !! _) eqn:E; [|done]. by apply lookup_replicate in E as [-> _].
Qed.

Lemma ghash_pclmul_spec y h data : br_ghash_pclmul y h data = GHASH y h data.
Proof.
  unfold br_ghash_pclmul, GHASH. rewrite store_BYTESWAP, !BYTESWAP_load. f_equal.
  set (num4 := (length data / 64)%nat). set (len := (length data mod 64)%nat).
  set (hw := of_block h). assert (Wh : in_width 128 hw) by apply of_block_width.
  assert (Wy : in_width 128 (of_block y)) by apply of_block_width.
  assert (E4 : (if (0 <? num4)%nat then
      let '(h2w, h2x) := SQUARE_F128 hw in
      let '(h3w, h3x) := cube hw (BK hw) h2w h2x in
      let '(h4w, h4x) := SQUARE_F128 h2w in
      ghash_loop4 num4 hw (BK hw) h2w h2x h3w h3x h4w h4x (of_block y) data
    else of_block y) = ghash_blocks hw (of_block y) (blocks (4 * num4) data)).
  { destruct (Nat.ltb_spec 0 num4); [|by replace num4 with 0%nat by lia].
    pose proof (is_key_BK hw _ Wh ltac:(reflexivity)) as K1. pose proof (rev_nonneg 128 hw) as Hp.
    pose proof (SQUARE_ok _ _ _ K1 Hp) as K2. destruct (SQUARE_F128 hw) as [h2w h2x]. cbn [fst snd] in K2.
    pose proof (cube_ok _ _ _ _ _ _ K1 K2 Hp (pmul_nonneg _ _ Hp Hp)) as K3.
    destruct (cube hw (BK hw) h2w h2x) as [h3w h3x]. cbn [fst snd] in K3.
    pose proof (SQUARE_ok _ _ _ K2 (pmul_nonneg _ _ Hp Hp)) as K4. destruct (SQUARE_F128 h2w) as [h4w h4x].
    apply ghash_loop4_spec; [|assumption]. unfold keys4. cbv zeta. split_and!; assumption. }
  cbv zeta. rewrite E4. clear E4. set (num1 := ((len + 15) / 16)%nat).
  rewrite ghash_loop1_spec; [|done|apply ghash_blocks_width; [done|apply blocks_width|done]].
  rewrite <-ghash_blocks_app. f_equal. unfold padded_blocks.
  replace ((length data + 15) / 16)%nat with (4 * num4 + num1)%nat by (subst num4 num1 len; lia).
  rewrite blocks_app. f_equal. replace (16 * (4 * num4))%nat with (num4 * 64)%nat by lia.
  destruct (len mod 16 =? 0)%nat; [done|]. apply blocks_ext. intros i. rewrite zero_padding.
  rewrite take_ge; [done|]. rewrite length_drop. subst num4 len. lia.
Qed.

(** What a GHASH implementation promises ([br_ghash] in [bearssl_hash.h]). *)
Class GhashOk (ghash : bytes -> bytes -> bytes -> bytes) : Prop := {
  ghash_spec : forall y h data, ghash y h data = GHASH y h data
}.

#[export] Instance ghash_pclmul_ok : GhashOk br_ghash_pclmul.
Proof. split. exact ghash_pclmul_spec. Qed.

(** ** GHASH of pieces *)

Lemma of_to_block x : in_width 128 x -> of_block (to_block x) = x.
Proof.
  intros Hx. unfold of_block, to_block. apply Z.bits_inj'. intros j Hj.
  destruct (Z.lt_ge_cases j 128).
  - rewrite of_lanes_testbit, nth_fmap_seq by lia. unfold byte_at. rewrite nth_fmap_seq by lia.
    rewrite lane8_testbit by lia. f_equal. lia.
  - rewrite !(in_width_high_bits 128); [done|assumption|done|apply of_lanes_width; [lia|reflexivity]|done].
Qed.

Lemma to_of_block b : length b = 16%nat -> Forall byte_ok b -> to_block (of_block b) = b.
Proof.
  intros Hl Hb. unfold of_block, to_block.
  apply (list_eq_same_length _ _ 16); [done|done|].
  intros i x z Hi Hx Hz. apply list_lookup_fmap_Some in Hx as (k & -> & Hk).
  apply lookup_seq in Hk as [-> _]. cbn [Nat.add].
  rewrite lane8_of_lanes, (nth_fmap_seq (fun i => byte_at b (15 - i))) by lia.
  replace (15 - (15 - i))%nat with i by lia. unfold byte_at. rewrite (nth_lookup_Some _ _ _ _ Hz).
  apply wrap_small. exact (Forall_lookup_1 _ _ _ _ Hb Hz).
Qed.

Lemma GHASH_length y h s : length (GHASH y h s) = 16%nat.
Proof. reflexivity. Qed.

Lemma GHASH_ok y h s : Forall byte_ok (GHASH y h s).
Proof. apply Forall_fmap, Forall_forall. intros i _. apply w8_ok. Qed.

Lemma GHASH_nil y h : length y = 16%nat -> Forall byte_ok y -> GHASH y h [] = y.
Proof. intros. by apply to_of_block. Qed.

Lemma GHASH_app y h a b : (length a mod 16 = 0)%nat -> GHASH y h (a ++ b) = GHASH (GHASH y h a) h b.
Proof.
  intros Ha. unfold GHASH. rewrite (of_to_block (ghash_blocks _ _ (padded_blocks a))).
  2: { apply ghash_blocks_width; [apply of_block_width|apply blocks_width|apply of_block_width]. }
  rewrite <-ghash_blocks_app. do 2 f_equal. unfold padded_blocks. rewrite length_app.
  replace ((length a + length b + 15) / 16)%nat with ((length a + 15) / 16 + (length b + 15) / 16)%nat by lia.
  rewrite blocks_app. replace (16 * ((length a + 15) / 16))%nat with (length a) by lia.
  rewrite drop_app_length. f_equal.
  replace ((length a + 15) / 16)%nat with (length a / 16)%nat by lia.
  assert (G : forall n s t, (16 * n <= length s)%nat -> blocks n (s ++ t) = blocks n s).
  { clear. induction n as [|n IH]; intros s t H; cbn [blocks]; [done|]. f_equal.
    - unfold of_block. f_equal. apply list_fmap_ext. intros k i Hi. apply lookup_seq in Hi as [-> Hk].
      unfold byte_at. rewrite app_nth1 by lia. done.
    - rewrite drop_app_le by lia. apply IH. rewrite length_drop. lia. }
  apply G. lia.
Qed.

(** A string completed with zeros to whole blocks. *)
Definition pad16 (s : bytes) : bytes := s ++ replicate ((16 - length s mod 16) mod 16) 0.

Lemma pad16_length s : (length (pad16 s) mod 16 = 0)%nat.
Proof. unfold pad16. rewrite length_app, length_replicate. lia. Qed.

Lemma GHASH_pad y h s : GHASH y h (pad16 s) = GHASH y h s.
Proof.
  unfold GHASH. do 2 f_equal. unfold padded_blocks, pad16. rewrite length_app, length_replicate.
  replace ((length s + (16 - length s mod 16) mod 16 + 15) / 16)%nat with ((length s + 15) / 16)%nat by lia.
  apply blocks_ext. intros i. apply zero_padding.
Qed.

(** C14: The vectorised GHASH computes the GHASH of SP 800-38D.  For every
    chaining value, key and string of bytes, the code that takes 64 bytes at a
    time over the powers [h], [h^2], [h^3], [h^4], multiplies with carry-less
    products and reduces with shifts returns the block of the standard's
    bit-by-bit multiplication, block by block, with the last block completed
    by zeros. *)
Theorem ghash_pclmul_correct y h data :
  br_ghash_pclmul y h data = to_block (ghash_blocks (of_block h) (of_block y) (padded_blocks data)).
Proof. apply ghash_pclmul_spec. Qed.
