(* ===== verification/Gcm.v ===== *)
(** * GCM
    (bearssl/src/bearssl/aead/gcm.c; [br_gcm_context] and [br_aead_class] of
    include/bearssl_aead.h)

    The authenticated encryption of the enclave's pages.  The code is
    parameterised by a counter-mode implementation and a GHASH implementation,
    as in the source; the theorems rely only on their contracts, [CtrOk] and
    [GhashOk].  Additional data and data may arrive in pieces of any length:
    the context keeps the unfinished block. *)
From S2P Require Import Prelude Inner Hash Simd Aes AesCtr Gf2 Ghash.
Import SP800_38D.
Local Open Scope Z_scope.

Record br_gcm_context (K : Type) := mkGcm {
  bctx : K;
  gh : bytes -> bytes -> bytes -> bytes;
  h : bytes;
  j0_1 : bytes;
  gbuf : bytes;
  y : bytes;
  j0_2 : Z;
  jc : Z;
  count_aad : Z;
  count_ctr : Z
}.
Arguments mkGcm {K}. Arguments bctx {K}. Arguments gh {K}. Arguments h {K}. Arguments j0_1 {K}.
Arguments gbuf {K}. Arguments y {K}. Arguments j0_2 {K}. Arguments jc {K}. Arguments count_aad {K}.
Arguments count_ctr {K}.

(** ** The code *)

Section code.
Context {K : Type} (cls : br_block_ctr_class K).

Abbreviation ctx_t := (br_gcm_context K).

(** Assignments to single fields. *)
Definition set_y (v : bytes) (c : ctx_t) : ctx_t :=
  mkGcm (bctx c) (gh c) (h c) (j0_1 c) (gbuf c) v (j0_2 c) (jc c) (count_aad c) (count_ctr c).
Definition set_gbuf (v : bytes) (c : ctx_t) : ctx_t :=
  mkGcm (bctx c) (gh c) (h c) (j0_1 c) v (y c) (j0_2 c) (jc c) (count_aad c) (count_ctr c).
Definition set_jc (v : Z) (c : ctx_t) : ctx_t :=
  mkGcm (bctx c) (gh c) (h c) (j0_1 c) (gbuf c) (y c) (j0_2 c) v (count_aad c) (count_ctr c).
Definition add_aad (n : nat) (c : ctx_t) : ctx_t :=
  mkGcm (bctx c) (gh c) (h c) (j0_1 c) (gbuf c) (y c) (j0_2 c) (jc c)
        (w64 (count_aad c + Z.of_nat n)) (count_ctr c).
Definition add_ctr (n : nat) (c : ctx_t) : ctx_t :=
  mkGcm (bctx c) (gh c) (h c) (j0_1 c) (gbuf c) (y c) (j0_2 c) (jc c) (count_aad c)
        (w64 (count_ctr c + Z.of_nat n)).

(** [ctx->gh(ctx->y, ctx->h, data, len)] *)
Definition hash_y (data : bytes) (c : ctx_t) : ctx_t := set_y (gh c (y c) (h c) data) c.

(** [memset(_, 0, n)] *)
Definition zeros (n : nat) : bytes := replicate n 0.

(** The fields that [br_gcm_init] leaves alone keep the contents of the
    caller's structure [c0]. *)
Definition br_gcm_init (c0 : ctx_t) (k : K) (g : bytes -> bytes -> bytes -> bytes) : ctx_t :=
  mkGcm k g (ctr_run cls k (zeros 12) 0 (zeros 16)).1
        (j0_1 c0) (gbuf c0) (y c0) (j0_2 c0) (jc c0) (count_aad c0) (count_ctr c0).

(** The assignments to [j0_1] and [j0_2]. *)
Definition reset_j0 (iv : bytes) (c : ctx_t) : bytes * Z :=
  if (length iv =? 12)%nat then (iv, 1)
  else
    let ty := gh c (zeros 16) (h c) iv in
    let tmp := zeros 8 ++ br_enc64be (w64 (Z.shiftl (Z.of_nat (length iv)) 3)) in
    let ty := gh c ty (h c) tmp in
    (take 12 ty, br_dec32be (drop 12 ty)).

Definition br_gcm_reset (iv : bytes) (c : ctx_t) : ctx_t :=
  let '(j1, j2) := reset_j0 iv c in
  mkGcm (bctx c) (gh c) (h c) j1 (gbuf c) (zeros 16) j2 (w32 (j2 + 1)) 0 0.

(** [(size_t)count & 15] *)
Definition low4 (count : Z) : nat := Z.to_nat (Z.land count 15).
(** [len & ~15] *)
Definition full_blocks (len : nat) : nat := (16 * (len / 16))%nat.

Definition aad_rest (data : bytes) (c : ctx_t) : ctx_t :=
  let len := length data in
  let dlen := full_blocks len in
  let c := hash_y (take dlen data) c in
  let c := set_gbuf (memcpy_at 0 (drop dlen data) (gbuf c)) c in
  add_aad len c.

Definition br_gcm_aad_inject (data : bytes) (c : ctx_t) : ctx_t :=
  let ptr := low4 (count_aad c) in
  let len := length data in
  if negb (ptr =? 0)%nat then
    let clen := (16 - ptr)%nat in
    if (len <? clen)%nat then
      add_aad len (set_gbuf (memcpy_at ptr data (gbuf c)) c)
    else
      let c := set_gbuf (memcpy_at ptr (take clen data) (gbuf c)) c in
      let c := hash_y (gbuf c) c in
      aad_rest (drop clen data) (add_aad clen c)
  else aad_rest data c.

Definition br_gcm_flip (c : ctx_t) : ctx_t :=
  let ptr := low4 (count_aad c) in
  if negb (ptr =? 0)%nat then hash_y (take ptr (gbuf c)) c else c.

(** The byte loops: [y = x ^ buf[ptr + u]; buf[ptr + u] = encrypt ? y : x;
    data[u] = y]. *)
Fixpoint xor_buf (encrypt : bool) (buf : bytes) (p : nat) (data : bytes) : bytes * bytes :=
  match data with
  | [] => (buf, [])
  | x :: data =>
      let y := Z.lxor x (byte_at buf p) in
      let buf := <[p := if encrypt then y else x]> buf in
      let '(buf, out) := xor_buf encrypt buf (S p) data in
      (buf, y :: out)
  end.

(** The full blocks and the last partial block. *)
Definition run_rest (encrypt : bool) (data : bytes) (c : ctx_t) : ctx_t * bytes :=
  let dlen := full_blocks (length data) in
  let full := take dlen data in
  let c := if encrypt then c else hash_y full c in
  let '(out, jc') := ctr_run cls (bctx c) (j0_1 c) (jc c) full in
  let c := set_jc jc' c in
  let c := if encrypt then hash_y out c else c in
  let rest := drop dlen data in
  let c := add_ctr dlen c in
  if (0 <? length rest)%nat then
    let '(b, jc') := ctr_run cls (bctx c) (j0_1 c) (jc c) (zeros 16) in
    let c := set_jc jc' c in
    let '(b, out') := xor_buf encrypt b 0 rest in
    (add_ctr (length rest) (set_gbuf b c), out ++ out')
  else (c, out).

(** The new context and the new bytes of [data]. *)
Definition br_gcm_run (encrypt : bool) (data : bytes) (c : ctx_t) : ctx_t * bytes :=
  let ptr := low4 (count_ctr c) in
  if negb (ptr =? 0)%nat then
    let clen := if (length data <? 16 - ptr)%nat then length data else (16 - ptr)%nat in
    let '(b, out) := xor_buf encrypt (gbuf c) ptr (take clen data) in
    let c := add_ctr clen (set_gbuf b c) in
    if (ptr + clen <? 16)%nat then (c, out ++ drop clen data)
    else
      let c := hash_y (gbuf c) c in
      let '(c, out') := run_rest encrypt (drop clen data) c in
      (c, out ++ out')
  else run_rest encrypt data c.

Definition br_gcm_get_tag (c : ctx_t) : ctx_t * bytes :=
  let ptr := low4 (count_ctr c) in
  let c := if (0 <? ptr)%nat then hash_y (take ptr (gbuf c)) c else c in
  let tmp := br_enc64be (w64 (Z.shiftl (count_aad c) 3)) ++ br_enc64be (w64 (Z.shiftl (count_ctr c) 3)) in
  let c := hash_y tmp c in
  (c, (ctr_run cls (bctx c) (j0_1 c) (j0_2 c) (y c)).1).

Definition br_gcm_get_tag_trunc (len : nat) (c : ctx_t) : ctx_t * bytes :=
  let '(c, tmp) := br_gcm_get_tag c in (c, take len tmp).

Definition br_gcm_check_tag_trunc (tag : bytes) (len : nat) (c : ctx_t) : ctx_t * Z :=
  let '(c, tmp) := br_gcm_get_tag c in
  let x := fold_left (fun x u => Z.lor x (Z.lxor (byte_at tmp u) (byte_at tag u))) (seq 0 len) 0 in
  (c, EQ0 x).

Definition br_gcm_check_tag (tag : bytes) (c : ctx_t) : ctx_t * Z := br_gcm_check_tag_trunc tag 16 c.
End code.

(** [br_aead_class] *)
Record br_aead_class (C : Type) := mkAead {
  tag_size : nat;
  aead_reset : bytes -> C -> C;
  aead_aad_inject : bytes -> C -> C;
  aead_flip : C -> C;
  aead_run : bool -> bytes -> C -> C * bytes;
  aead_get_tag : C -> C * bytes;
  aead_check_tag : bytes -> C -> C * Z;
  aead_get_tag_trunc : nat -> C -> C * bytes;
  aead_check_tag_trunc : bytes -> nat -> C -> C * Z
}.
Arguments mkAead {C}. Arguments tag_size {C}. Arguments aead_reset {C}. Arguments aead_aad_inject {C}.
Arguments aead_flip {C}. Arguments aead_run {C}. Arguments aead_get_tag {C}. Arguments aead_check_tag {C}.
Arguments aead_get_tag_trunc {C}. Arguments aead_check_tag_trunc {C}.

Definition br_gcm_vtable {K} (cls : br_block_ctr_class K) : br_aead_class (br_gcm_context K) :=
  mkAead 16 br_gcm_reset br_gcm_aad_inject br_gcm_flip (br_gcm_run cls) (br_gcm_get_tag cls)
    (br_gcm_check_tag cls) (br_gcm_get_tag_trunc cls) (br_gcm_check_tag_trunc cls).

(** ** The standard (SP 800-38D, algorithms 4 and 5) *)

Section spec.
Context (E : bytes -> bytes).

Definition len64 (n : nat) : bytes := br_enc64be (8 * Z.of_nat n).

Definition gcm_H : bytes := E (replicate 16 0).
Definition gcm_hash (s : bytes) : bytes := GHASH (replicate 16 0) gcm_H s.

(** The block [J0]: twelve bytes and a 32-bit counter. *)
Definition gcm_J0 (iv : bytes) : bytes * Z :=
  if (length iv =? 12)%nat then (iv, 1)
  else let s := gcm_hash (pad16 iv ++ replicate 8 0 ++ len64 (length iv)) in
       (take 12 s, br_dec32be (drop 12 s)).

(** [GCTR] from the counter after [J0]. *)
Definition gcm_crypt (iv : bytes) (data : bytes) : bytes :=
  let '(j1, j2) := gcm_J0 iv in xor_stream (stream E j1 (w32 (j2 + 1))) data.

Definition gcm_tag (iv aad ct : bytes) : bytes :=
  let '(j1, j2) := gcm_J0 iv in
  xor_stream (stream E j1 j2)
    (gcm_hash (pad16 aad ++ pad16 ct ++ len64 (length aad) ++ len64 (length ct))).
End spec.

(** ** The state between calls *)

Lemma low4_w64 n : low4 (w64 (Z.of_nat n)) = (n mod 16)%nat.
Proof. unfold low4. change 15 with (Z.ones 4). rewrite Z.land_ones by lia. unfold wrap. lia. Qed.

Lemma count_add n m : w64 (w64 (Z.of_nat n) + Z.of_nat m) = w64 (Z.of_nat (n + m)).
Proof. unfold wrap. rewrite Zplus_mod_idemp_l. f_equal. lia. Qed.

Lemma counter_add x n m : w32 (w32 (x + Z.of_nat n) + Z.of_nat m) = w32 (x + Z.of_nat (n + m)).
Proof. unfold wrap. rewrite Zplus_mod_idemp_l. f_equal. lia. Qed.

Lemma full_blocks_mod n : (full_blocks n + n mod 16 = n)%nat.
Proof. unfold full_blocks. lia. Qed.

(** Split an invariant into its fields; assignments that leave a field alone
    keep its fact. *)
Ltac gcm_fields Hk := split; [exact Hk|]; split_and!;
  cbn [bctx gh h j0_1 gbuf y j0_2 jc count_aad count_ctr]; try assumption.

(** The byte loops, in one piece. *)
Lemma xor_buf_spec enc data : forall buf p, (p + length data <= length buf)%nat ->
  let out := xor_stream (fun i => byte_at buf (p + i)%nat) data in
  xor_buf enc buf p data = (memcpy_at p (if enc then out else data) buf, out).
Proof.
  induction data as [|x data IH]; intros buf p Hp; cbn [length] in Hp.
  - cbn. f_equal. unfold memcpy_at. destruct enc; cbn; by rewrite Nat.add_0_r, take_drop.
  - cbn [xor_buf]. rewrite IH by (rewrite length_insert; lia).
    set (v := if enc then Z.lxor x (byte_at buf p) else x).
    assert (Ho : xor_stream (fun i => byte_at (<[p:=v]> buf) (S p + i)%nat) data =
      xor_stream (fun i => byte_at buf (p + S i)%nat) data).
    { apply xor_stream_ext. intros i Hi. unfold byte_at. rewrite !nth_lookup, list_lookup_insert_ne by lia.
      do 2 f_equal. lia. }
    rewrite Ho. set (tl := xor_stream (fun i => byte_at buf (p + S i)%nat) data).
    assert (Hout : xor_stream (fun i => byte_at buf (p + i)%nat) (x :: data) = Z.lxor x (byte_at buf p) :: tl).
    { unfold xor_stream. rewrite imap_cons, Nat.add_0_r. done. }
    rewrite Hout. f_equal.
    assert (Hm : forall z zs, z = v -> length zs = length data ->
      memcpy_at (S p) zs (<[p:=v]> buf) = memcpy_at p (z :: zs) buf).
    { intros z zs -> Hz. unfold memcpy_at. cbn [length]. rewrite (take_S_r _ _ v) by (apply list_lookup_insert_eq; lia).
      rewrite take_insert_ge by lia. rewrite <-app_assoc. cbn [app]. do 3 f_equal.
      rewrite drop_insert_lt by lia. f_equal. lia. }
    destruct enc; apply Hm; subst v tl; rewrite ?xor_stream_length; done.
Qed.

#[local] Opaque GHASH.

Section proof.
Context {K : Type} {cls : br_block_ctr_class K} {E : bytes -> bytes -> bytes} {good : bytes -> Prop}.
Context `{!CtrOk cls E good}.
Context (key iv : bytes).

Abbreviation Ek := (E key).
Abbreviation H := (gcm_H Ek).
Abbreviation J1 := (gcm_J0 Ek iv).1.
Abbreviation J2 := (gcm_J0 Ek iv).2.
Abbreviation hash := (gcm_hash Ek).
(** The key stream of the data. *)
Abbreviation ks := (stream Ek J1 (w32 (J2 + 1))).

(** The key and the hash key are in place. *)
Definition keyed (c : br_gcm_context K) : Prop :=
  ctr_keyed key (bctx c) /\ GhashOk (gh c) /\ h c = H.

(** After the nonce and the additional data [A]. *)
Definition aad_inv (A : bytes) (c : br_gcm_context K) : Prop :=
  keyed c /\ j0_1 c = J1 /\ j0_2 c = J2 /\ jc c = w32 (J2 + 1) /\
  count_aad c = w64 (Z.of_nat (length A)) /\ count_ctr c = 0 /\ length (gbuf c) = 16%nat /\
  take (length A mod 16) (gbuf c) = drop (full_blocks (length A)) A /\
  y c = hash (take (full_blocks (length A)) A).

(** After all of the additional data and the ciphertext [C]. *)
Definition ctr_inv (A C : bytes) (c : br_gcm_context K) : Prop :=
  keyed c /\ j0_1 c = J1 /\ j0_2 c = J2 /\ jc c = w32 (w32 (J2 + 1) + Z.of_nat ((length C + 15) / 16)) /\
  count_aad c = w64 (Z.of_nat (length A)) /\ count_ctr c = w64 (Z.of_nat (length C)) /\
  length (gbuf c) = 16%nat /\
  take (length C mod 16) (gbuf c) = drop (full_blocks (length C)) C /\
  (forall i, (0 < length C mod 16 <= i)%nat -> (i < 16)%nat -> byte_at (gbuf c) i = ks (full_blocks (length C) + i)%nat) /\
  y c = GHASH (hash A) H (take (full_blocks (length C)) C).

Lemma keyed_gh c s : keyed c -> gh c (y c) (h c) s = GHASH (y c) H s.
Proof. intros (_ & HG & ->). apply ghash_spec. Qed.

Lemma hash_app a b : (length a mod 16 = 0)%nat -> GHASH (hash a) H b = hash (a ++ b).
Proof. intros Ha. unfold gcm_hash. by rewrite GHASH_app. Qed.

Lemma hash_nil : hash [] = replicate 16 0.
Proof. unfold gcm_hash. apply GHASH_nil; [reflexivity|]. by repeat constructor. Qed.

(** *** Additional data *)

Lemma aad_rest_inv A d c : (length A mod 16 = 0)%nat -> aad_inv A c -> aad_inv (A ++ d) (aad_rest d c).
Proof.
  intros HA (Hk & H1 & H2 & H3 & H4 & H5 & H6 & H7 & H8). unfold aad_rest.
  pose proof (full_blocks_mod (length d)) as Fd. pose proof (full_blocks_mod (length A)) as FA.
  assert (Fs : full_blocks (length (A ++ d)) = (length A + full_blocks (length d))%nat)
    by (rewrite length_app; unfold full_blocks; lia).
  unfold hash_y, set_y, set_gbuf, add_aad. cbn [bctx gh h j0_1 gbuf y j0_2 jc count_aad count_ctr].
  assert (Hl : length (drop (full_blocks (length d)) d) = (length d mod 16)%nat) by (rewrite length_drop; lia).
  gcm_fields Hk.
  - rewrite H4, length_app. apply count_add.
  - by rewrite memcpy_at_length by lia.
  - rewrite length_app. replace ((length A + length d) mod 16)%nat with (0 + length (drop (full_blocks (length d)) d))%nat by lia.
    rewrite memcpy_at_take by lia. rewrite <-length_app, Fs. cbn [take app].
    by rewrite drop_app_add.
  - rewrite keyed_gh by done. rewrite H8, Fs, hash_app by (rewrite length_take; unfold full_blocks; lia).
    f_equal. rewrite take_app_add. f_equal. rewrite take_ge by lia. done.
Qed.

Lemma aad_inject_inv A d c : aad_inv A c -> aad_inv (A ++ d) (br_gcm_aad_inject d c).
Proof.
  intros Hc. pose proof Hc as (Hk & H1 & H2 & H3 & H4 & H5 & H6 & H7 & H8). unfold br_gcm_aad_inject.
  rewrite H4, low4_w64. pose proof (full_blocks_mod (length A)) as FA.
  destruct (Nat.eqb_spec (length A mod 16) 0) as [Hz|Hz]; cbn [negb]; [by apply aad_rest_inv|].
  set (ptr := (length A mod 16)%nat) in *.
  destruct (Nat.ltb_spec (length d) (16 - ptr)) as [Hlt|Hge].
  - assert (Fs : full_blocks (length (A ++ d)) = full_blocks (length A))
      by (rewrite length_app; unfold full_blocks; lia).
    unfold set_gbuf, add_aad. cbn [bctx gh h j0_1 gbuf y j0_2 jc count_aad count_ctr].
    gcm_fields Hk.
    + rewrite H4, length_app. apply count_add.
    + by rewrite memcpy_at_length by lia.
    + rewrite Fs, length_app. replace ((length A + length d) mod 16)%nat with (ptr + length d)%nat by lia.
      rewrite memcpy_at_take by lia. rewrite H7, drop_app_le by lia. done.
    + rewrite Fs, take_app_le by lia. done.
  - set (clen := (16 - ptr)%nat). set (d1 := take clen d).
    assert (Hd1 : length d1 = clen) by (unfold d1; rewrite length_take; lia).
    rewrite <-(take_drop clen d) at 1. fold d1. rewrite app_assoc. apply aad_rest_inv.
    { rewrite length_app. lia. }
    assert (Hb : memcpy_at ptr d1 (gbuf c) = drop (full_blocks (length A)) A ++ d1).
    { unfold memcpy_at. rewrite H7, (drop_ge (gbuf c)) by lia. by rewrite app_nil_r. }
    unfold hash_y, set_y, set_gbuf, add_aad. cbn [bctx gh h j0_1 gbuf y j0_2 jc count_aad count_ctr].
    assert (Fs : full_blocks (length (A ++ d1)) = length (A ++ d1))
      by (rewrite length_app; unfold full_blocks; lia).
    gcm_fields Hk.
    + rewrite H4, length_app, Hd1. apply count_add.
    + rewrite memcpy_at_length by lia. done.
    + rewrite Fs, length_app. replace ((length A + length d1) mod 16)%nat with 0%nat by lia.
      rewrite <-length_app, drop_all. done.
    + rewrite keyed_gh by done. rewrite Hb, H8, Fs, hash_app by (rewrite length_take; unfold full_blocks; lia).
      rewrite firstn_all, app_assoc, take_drop. done.
Qed.

Lemma flip_inv A c : aad_inv A c -> ctr_inv A [] (br_gcm_flip c).
Proof.
  intros Hc. pose proof Hc as (Hk & H1 & H2 & H3 & H4 & H5 & H6 & H7 & H8). unfold br_gcm_flip.
  rewrite H4, low4_w64. pose proof (full_blocks_mod (length A)) as FA.
  assert (G : forall c', keyed c' -> j0_1 c' = J1 -> j0_2 c' = J2 -> jc c' = w32 (J2 + 1) ->
    count_aad c' = w64 (Z.of_nat (length A)) -> count_ctr c' = 0 -> length (gbuf c') = 16%nat ->
    y c' = hash A -> ctr_inv A [] c').
  { intros c' Hk' G1 G2 G3 G4 G5 G6 G7. split; [exact Hk'|]. rewrite G3, G5, G7. split_and!; try assumption; try reflexivity.
    - change (Z.of_nat ((length [] + 15) / 16)) with 0. rewrite Z.add_0_r. symmetry. apply wrap_idemp.
    - cbn [length]. lia.
    - symmetry. unfold gcm_hash. apply GHASH_nil; [apply GHASH_length|apply GHASH_ok]. }
  destruct (Nat.eqb_spec (length A mod 16) 0) as [Hz|Hz]; cbn [negb]; apply G; try assumption.
  - rewrite H8, take_ge by lia. done.
  - unfold hash_y, set_y. cbn [bctx gh h j0_1 gbuf y j0_2 jc count_aad count_ctr].
    rewrite keyed_gh by done. rewrite H7, H8, hash_app by (rewrite length_take; unfold full_blocks; lia).
    by rewrite take_drop.
Qed.

(** *** The nonce *)

Context (Hiv : Forall byte_ok iv) (Hivl : 8 * Z.of_nat (length iv) < 2 ^ 64).

Lemma J0_ok : length J1 = 12%nat /\ Forall byte_ok J1 /\ in_width 32 J2.
Proof using Hiv.
  unfold gcm_J0. destruct (Nat.eqb_spec (length iv) 12); [done|].
  cbv zeta. set (s := hash _). assert (Hl : length s = 16%nat) by apply GHASH_length.
  assert (Hs : Forall byte_ok s) by apply GHASH_ok. cbn [fst snd]. split_and!.
  - rewrite length_take. lia.
  - by apply Forall_take.
  - apply dec32be_width. by apply Forall_drop.
Qed.

Lemma shiftl3 n : (8 * Z.of_nat n < 2 ^ 64) -> w64 (Z.shiftl (Z.of_nat n) 3) = 8 * Z.of_nat n.
Proof. intros Hn. rewrite Z.shiftl_mul_pow2 by lia. unfold wrap. rewrite Z.mod_small by lia. lia. Qed.

Lemma reset_inv c : keyed c -> length (gbuf c) = 16%nat -> aad_inv [] (br_gcm_reset iv c).
Proof using Hiv Hivl.
  intros Hk Hg. unfold br_gcm_reset.
  assert (EJ : reset_j0 iv c = gcm_J0 Ek iv).
  { unfold reset_j0, gcm_J0. destruct (Nat.eqb_spec (length iv) 12); [done|]. cbv zeta.
    destruct Hk as (_ & HG & ->). rewrite (ghash_spec _ _ iv), ghash_spec, shiftl3 by done. unfold gcm_hash, zeros, len64.
    rewrite (GHASH_app _ _ (pad16 iv)) by apply pad16_length. by rewrite GHASH_pad. }
  rewrite EJ. destruct (gcm_J0 Ek iv) as [j1 j2] eqn:EJ0. gcm_fields Hk.
  all: try (by rewrite EJ0). all: try reflexivity.
Qed.

(** *** Data *)

Lemma ctr_run_ok c cc d : keyed c -> j0_1 c = J1 -> in_width 32 cc -> Forall byte_ok d ->
  ctr_run cls (bctx c) (j0_1 c) cc d = (xor_stream (stream Ek J1 cc) d, w32 (cc + Z.of_nat (length d / 16))).
Proof using Hiv.
  intros (Hk & _) -> Hc Hd. destruct J0_ok as (Hl & Hb & _). by apply (ctr_run_stream (cls := cls) key).
Qed.

Lemma ks_ok i : byte_ok (ks i).
Proof. apply byte_at_ok, (block_bytes (cls := cls)). Qed.

Lemma ks_shift k i : stream Ek J1 (w32 (w32 (J2 + 1) + Z.of_nat k)) i = ks (16 * k + i)%nat.
Proof. symmetry. apply stream_shift. apply wrap_in_width. lia. Qed.

(** The bytes that [run] makes of [d] after the ciphertext [C], and the
    ciphertext among its input and output. *)
Definition crypt (C d : bytes) : bytes := xor_stream (fun i => ks (length C + i)%nat) d.
Definition cipher_of (enc : bool) (C d : bytes) : bytes := if enc then crypt C d else d.

Lemma crypt_app C d e enc : crypt C (d ++ e) = crypt C d ++ crypt (C ++ cipher_of enc C d) e.
Proof.
  unfold crypt. rewrite xor_stream_app. f_equal. apply xor_stream_ext. intros i _. f_equal.
  rewrite length_app. unfold cipher_of, crypt. destruct enc; rewrite ?xor_stream_length; lia.
Qed.

Lemma cipher_of_length enc C d : length (cipher_of enc C d) = length d.
Proof. unfold cipher_of, crypt. destruct enc; [apply xor_stream_length|done]. Qed.

Lemma cipher_of_app enc C d e : cipher_of enc C (d ++ e) = cipher_of enc C d ++ cipher_of enc (C ++ cipher_of enc C d) e.
Proof. unfold cipher_of at 1. destruct enc; [apply (crypt_app C d e true)|done]. Qed.

(** Whole blocks. *)
Lemma run_full (enc : bool) A C d c : (length C mod 16 = 0)%nat -> (length d mod 16 = 0)%nat -> Forall byte_ok d ->
  ctr_inv A C c ->
  let c1 := if enc then c else hash_y d c in
  let r := ctr_run cls (bctx c1) (j0_1 c1) (jc c1) d in
  let c2 := set_jc r.2 c1 in
  let c3 := if enc then hash_y r.1 c2 else c2 in
  r.1 = crypt C d /\ ctr_inv A (C ++ cipher_of enc C d) (add_ctr (length d) c3).
Proof using Hiv.
  intros HC Hdl Hd (Hk & H1 & H2 & H3 & H4 & H5 & H6 & H7 & H8 & H9) c1.
  assert (Er : ctr_run cls (bctx c1) (j0_1 c1) (jc c1) d =
    (crypt C d, w32 (w32 (J2 + 1) + Z.of_nat ((length C + length d + 15) / 16)))).
  { replace (bctx c1) with (bctx c) by (by destruct enc). replace (j0_1 c1) with (j0_1 c) by (by destruct enc).
    replace (jc c1) with (jc c) by (by destruct enc). rewrite H3.
    rewrite ctr_run_ok; [|done|done|apply wrap_in_width; lia|done]. f_equal.
    - apply xor_stream_ext. intros i _. rewrite ks_shift. f_equal. lia.
    - rewrite counter_add. do 3 f_equal. lia. }
  rewrite Er. cbn [fst snd]. split; [done|].
  assert (Fs : full_blocks (length (C ++ cipher_of enc C d)) = length (C ++ cipher_of enc C d))
    by (rewrite length_app, cipher_of_length; unfold full_blocks; lia).
  assert (FC : full_blocks (length C) = length C) by (unfold full_blocks; lia).
  assert (G : forall c', keyed c' -> j0_1 c' = J1 -> j0_2 c' = J2 ->
    jc c' = w32 (w32 (J2 + 1) + Z.of_nat ((length C + length d + 15) / 16)) ->
    count_aad c' = count_aad c -> count_ctr c' = count_ctr c -> gbuf c' = gbuf c ->
    y c' = GHASH (y c) H (cipher_of enc C d) -> ctr_inv A (C ++ cipher_of enc C d) (add_ctr (length d) c')).
  { intros c' Gk G1 G2 G3 G4 G5 G6 G7. unfold add_ctr. gcm_fields Gk; rewrite ?Fs, ?length_app, ?cipher_of_length.
    - done.
    - by rewrite G4.
    - rewrite G5, H5. apply count_add.
    - by rewrite G6.
    - replace ((length C + length d) mod 16)%nat with 0%nat by lia.
      rewrite drop_ge by (rewrite length_app, cipher_of_length; lia). done.
    - intros i Hi. lia.
    - rewrite G7, H9, FC, firstn_all. rewrite take_ge by (rewrite length_app, cipher_of_length; lia).
      by rewrite GHASH_app. }
  apply G; unfold cipher_of; destruct enc; try done; cbn [y hash_y set_y set_jc].
  - rewrite <-(keyed_gh c) by done. done.
  - by apply keyed_gh.
Qed.

(** The last partial block. *)
Lemma run_partial (enc : bool) A C d c : (length C mod 16 = 0)%nat -> (0 < length d < 16)%nat ->
  ctr_inv A C c ->
  let r := ctr_run cls (bctx c) (j0_1 c) (jc c) (zeros 16) in
  let b := xor_buf enc r.1 0 d in
  b.2 = crypt C d /\ ctr_inv A (C ++ cipher_of enc C d) (add_ctr (length d) (set_gbuf b.1 (set_jc r.2 c))).
Proof using Hiv.
  intros HC Hdl (Hk & H1 & H2 & H3 & H4 & H5 & H6 & H7 & H8 & H9).
  rewrite H3, ctr_run_ok; [|done|done|apply wrap_in_width; lia|by repeat constructor]. cbv zeta. cbn [fst snd].
  set (ksb := xor_stream _ (zeros 16)). assert (Hkl : length ksb = 16%nat) by apply xor_stream_length.
  assert (Hks : forall i, (i < 16)%nat -> byte_at ksb i = ks (length C + i)%nat).
  { intros i Hi. unfold ksb, byte_at, xor_stream. rewrite nth_lookup, list_lookup_imap.
    unfold zeros. rewrite lookup_replicate_2 by done. cbn [fmap option_fmap option_map default from_option].
    rewrite Z.lxor_0_l, ks_shift. unfold id. f_equal. lia. }
  rewrite xor_buf_spec by lia. cbn [fst snd Nat.add].
  assert (Ho : xor_stream (fun i => byte_at ksb i) d = crypt C d).
  { apply xor_stream_ext. intros i Hi. apply Hks. lia. }
  rewrite Ho. fold (cipher_of enc C d). split; [done|].
  assert (Fs : full_blocks (length (C ++ cipher_of enc C d)) = length C)
    by (rewrite length_app, cipher_of_length; unfold full_blocks; lia).
  assert (FC : full_blocks (length C) = length C) by (unfold full_blocks; lia).
  pose proof (cipher_of_length enc C d) as Hcl.
  unfold add_ctr, set_gbuf, set_jc. gcm_fields Hk; rewrite ?Fs, ?length_app, ?cipher_of_length.
  - rewrite counter_add. do 3 f_equal. unfold zeros. rewrite length_replicate. lia.
  - rewrite H5. apply count_add.
  - rewrite memcpy_at_length; [done|]. rewrite cipher_of_length. lia.
  - replace ((length C + length d) mod 16)%nat with (0 + length (cipher_of enc C d))%nat by lia.
    rewrite memcpy_at_take by lia. rewrite drop_app_length. done.
  - intros i Hi1 Hi2. unfold memcpy_at. rewrite firstn_O, app_nil_l. cbn [Nat.add]. rewrite byte_at_app, cipher_of_length.
    destruct (Nat.ltb_spec i (length d)); [lia|]. rewrite byte_at_drop.
    replace (length d + (i - length d))%nat with i by lia. by apply Hks.
  - rewrite H9, FC, firstn_all. rewrite take_app_length. done.
Qed.

Lemma crypt_nil C : crypt C [] = [].
Proof. done. Qed.

Lemma run_rest_inv (enc : bool) A C d c : (length C mod 16 = 0)%nat -> Forall byte_ok d -> ctr_inv A C c ->
  (run_rest cls enc d c).2 = crypt C d /\ ctr_inv A (C ++ cipher_of enc C d) (run_rest cls enc d c).1.
Proof using Hiv.
  intros HC Hd Hc. unfold run_rest. set (dlen := full_blocks (length d)).
  pose proof (full_blocks_mod (length d)) as Fd. fold dlen in Fd.
  assert (Ht : length (take dlen d) = dlen) by (rewrite length_take; lia).
  destruct (run_full enc A C (take dlen d) c HC ltac:(unfold dlen, full_blocks in *; lia) (Forall_take _ _ _ Hd) Hc) as [Eo I].
  rewrite Ht in I. destruct (ctr_run cls _ _ _ (take dlen d)) as [out jc']. cbn [fst snd] in Eo, I. subst out.
  set (c3 := add_ctr dlen _) in *. clearbody c3. set (C1 := C ++ cipher_of enc C (take dlen d)) in *.
  assert (Hd2 : d = take dlen d ++ drop dlen d) by (by rewrite take_drop).
  assert (HC1 : (length C1 mod 16 = 0)%nat)
    by (unfold C1; rewrite length_app, cipher_of_length; unfold dlen, full_blocks in *; lia).
  destruct (Nat.ltb_spec 0 (length (drop dlen d))) as [Hl|Hl].
  - assert (Hr : (0 < length (drop dlen d) < 16)%nat) by (rewrite length_drop in *; lia).
    destruct (run_partial enc A C1 (drop dlen d) c3 HC1 Hr I) as [Eo2 I2].
    destruct (ctr_run cls _ _ _ (zeros 16)) as [b jc2]. cbn [fst snd] in *.
    destruct (xor_buf enc b 0 (drop dlen d)) as [b' out']. cbn [fst snd] in *. subst out'. split.
    + rewrite Hd2 at 3. by rewrite (crypt_app C _ _ enc).
    + rewrite Hd2 at 1. rewrite cipher_of_app, app_assoc. exact I2.
  - assert (En : drop dlen d = []) by (by apply length_zero_iff_nil; lia).
    rewrite En, app_nil_r in Hd2. cbn [fst snd]. unfold C1 in I. rewrite <-Hd2 in *. done.
Qed.

Lemma run_inv (enc : bool) A C d c : Forall byte_ok d -> ctr_inv A C c ->
  (br_gcm_run cls enc d c).2 = crypt C d /\ ctr_inv A (C ++ cipher_of enc C d) (br_gcm_run cls enc d c).1.
Proof using Hiv.
  intros Hd Hc. pose proof Hc as (Hk & H1 & H2 & H3 & H4 & H5 & H6 & H7 & H8 & H9). unfold br_gcm_run.
  rewrite H5, low4_w64. pose proof (full_blocks_mod (length C)) as FC. set (ptr := (length C mod 16)%nat) in *.
  destruct (Nat.eqb_spec ptr 0) as [Hz|Hz]; cbn [negb]; [by apply run_rest_inv|].
  set (clen := if (length d <? 16 - ptr)%nat then length d else (16 - ptr)%nat).
  assert (Hcl : clen = Nat.min (length d) (16 - ptr)) by (unfold clen; destruct (Nat.ltb_spec (length d) (16 - ptr)); lia).
  clearbody clen. set (d1 := take clen d). assert (Hd1 : length d1 = clen) by (unfold d1; rewrite length_take; lia).
  rewrite xor_buf_spec by lia.
  assert (Ho : xor_stream (fun i => byte_at (gbuf c) (ptr + i)) d1 = crypt C d1).
  { apply xor_stream_ext. intros i Hi. rewrite H8 by lia. f_equal. lia. }
  rewrite Ho. fold (cipher_of enc C d1). pose proof (cipher_of_length enc C d1) as Hcf.
  set (b := memcpy_at ptr _ (gbuf c)). set (C1 := C ++ cipher_of enc C d1).
  assert (HC1 : length C1 = (length C + clen)%nat) by (unfold C1; rewrite length_app; lia).
  assert (Hb : length b = 16%nat) by (unfold b; rewrite memcpy_at_length by lia; done).
  assert (Hjc : jc c = w32 (w32 (J2 + 1) + Z.of_nat ((length C1 + 15) / 16)))
    by (rewrite H3; do 3 f_equal; lia).
  assert (Hcc : w64 (count_ctr c + Z.of_nat clen) = w64 (Z.of_nat (length C1)))
    by (rewrite H5, count_add; do 2 f_equal; lia).
  assert (Hpre : take (ptr + clen) b = drop (full_blocks (length C)) C1).
  { unfold b. rewrite <-Hd1, <-Hcf. rewrite memcpy_at_take by lia. rewrite H7. unfold C1. by rewrite drop_app_le by lia. }
  destruct (Nat.ltb_spec (ptr + clen) 16) as [Hlt|Hge].
  - assert (Hall : d1 = d) by (unfold d1; apply take_ge; lia). cbn [fst snd].
    rewrite (drop_ge d) by lia. rewrite app_nil_r, Hall. split; [done|]. rewrite <-Hall. fold C1.
    assert (Fs : full_blocks (length C1) = full_blocks (length C)) by (rewrite HC1; unfold full_blocks; lia).
    assert (Ms : (length C1 mod 16 = ptr + clen)%nat) by (rewrite HC1; lia).
    unfold add_ctr, set_gbuf. gcm_fields Hk; rewrite ?Fs, ?Ms; try done.
    + intros i Hi1 Hi2. rewrite <-H8 by lia. unfold b, memcpy_at.
      rewrite !byte_at_app, length_take, Nat.min_l by lia. rewrite Hcf, Hd1.
      destruct (Nat.ltb_spec i ptr); [lia|]. destruct (Nat.ltb_spec (i - ptr) clen); [lia|].
      rewrite byte_at_drop. f_equal. lia.
    + unfold C1. rewrite take_app_le by lia. done.
  - assert (Hb16 : b = drop (full_blocks (length C)) C1) by (rewrite <-Hpre, take_ge by lia; done).
    assert (Ms : (length C1 mod 16 = 0)%nat) by lia.
    assert (Fs : full_blocks (length C1) = length C1) by (unfold full_blocks; lia).
    destruct (run_rest_inv enc A C1 (drop clen d) (hash_y b (add_ctr clen (set_gbuf b c))) Ms (Forall_drop _ _ _ Hd))
      as [Eo I].
    { unfold hash_y, set_y, add_ctr, set_gbuf. gcm_fields Hk; rewrite ?Fs, ?Ms; try done.
      - by rewrite drop_all.
      - intros i Hi. lia.
      - rewrite keyed_gh, H9, firstn_all by done. rewrite <-GHASH_app by (rewrite length_take; unfold full_blocks; lia).
        f_equal. rewrite Hb16. unfold C1. rewrite <-(take_drop (full_blocks (length C)) (C ++ _)) at 2.
        by rewrite take_app_le by lia. }
    change (gbuf (add_ctr clen (set_gbuf b c))) with b.
    destruct (run_rest cls enc (drop clen d) _) as [c' out']. cbn [fst snd] in *. subst out'. split.
    + unfold d1. rewrite <-(take_drop clen d) at 3. by rewrite (crypt_app C _ _ enc).
    + rewrite <-(take_drop clen d) at 1. rewrite cipher_of_app, app_assoc. exact I.
Qed.

(** *** The tag *)

Lemma get_tag_spec A C c : 8 * Z.of_nat (length A) < 2 ^ 64 -> 8 * Z.of_nat (length C) < 2 ^ 64 ->
  ctr_inv A C c -> (br_gcm_get_tag cls c).2 = gcm_tag Ek iv A C.
Proof using Hiv.
  intros HA HC (Hk & H1 & H2 & H3 & H4 & H5 & H6 & H7 & H8 & H9). unfold br_gcm_get_tag.
  pose proof (full_blocks_mod (length C)) as FC. rewrite H5, low4_w64.
  set (c1 := if (0 <? _)%nat then _ else c).
  assert (E1 : y c1 = GHASH (hash A) H C /\ keyed c1 /\ j0_1 c1 = J1 /\ j0_2 c1 = J2 /\
    count_aad c1 = w64 (Z.of_nat (length A)) /\ count_ctr c1 = w64 (Z.of_nat (length C))).
  { unfold c1. destruct (Nat.ltb_spec 0 (length C mod 16)); split_and!; try done.
    - cbn [hash_y set_y y]. rewrite keyed_gh, H7, H9 by done.
      rewrite <-GHASH_app by (rewrite length_take; unfold full_blocks; lia). by rewrite take_drop.
    - rewrite H9, take_ge by lia. done. }
  destruct E1 as (E1 & Ek1 & Ej1 & Ej2 & Ea & Ec). clearbody c1. rewrite Ea, Ec.
  destruct J0_ok as (_ & _ & HJ2). cbn [snd].
  assert (Hs : forall n, 8 * Z.of_nat n < 2 ^ 64 -> w64 (Z.shiftl (w64 (Z.of_nat n)) 3) = 8 * Z.of_nat n).
  { intros n Hn. rewrite (wrap_small 64 (Z.of_nat n)) by (split; lia). by apply shiftl3. }
  rewrite !Hs by done. change (j0_1 (hash_y _ c1)) with (j0_1 c1). change (j0_2 (hash_y _ c1)) with (j0_2 c1).
  change (bctx (hash_y _ c1)) with (bctx c1). rewrite Ej2.
  rewrite ctr_run_ok; [|done|done|done|].
  2: { cbn [hash_y set_y y]. rewrite keyed_gh by done. apply GHASH_ok. }
  cbn [fst hash_y set_y y]. rewrite keyed_gh, E1 by done. unfold gcm_tag.
  rewrite (surjective_pairing (gcm_J0 Ek iv)). f_equal.
  unfold gcm_hash. fold (len64 (length A)) (len64 (length C)).
  rewrite (GHASH_app _ _ (pad16 A)), (GHASH_app _ _ (pad16 C)) by apply pad16_length. by rewrite !GHASH_pad.
Qed.

(** *** Whole sessions *)

Lemma inject_all_inv l : forall A c, aad_inv A c ->
  aad_inv (A ++ concat l) (fold_left (fun c d => br_gcm_aad_inject d c) l c).
Proof.
  induction l as [|d l IH]; intros A c Hc; cbn [fold_left concat]; [by rewrite app_nil_r|].
  rewrite app_assoc. apply IH. by apply aad_inject_inv.
Qed.
End proof.

(** The data in pieces, one call after the other. *)
Fixpoint run_all {K} (cls : br_block_ctr_class K) (enc : bool) (l : list bytes) (c : br_gcm_context K)
    : br_gcm_context K * bytes :=
  match l with
  | [] => (c, [])
  | d :: l => let '(c, out) := br_gcm_run cls enc d c in
              let '(c, out') := run_all cls enc l c in (c, out ++ out')
  end.

(** A message: key, nonce, additional data in pieces, data in pieces. *)
Definition gcm_session {K} (cls : br_block_ctr_class K) (ghash : bytes -> bytes -> bytes -> bytes)
    (c0 : br_gcm_context K) (key iv : bytes) (aads : list bytes) (enc : bool) (data : list bytes)
    : br_gcm_context K * bytes :=
  let c := br_gcm_init cls c0 (ctr_init cls key) ghash in
  let c := br_gcm_reset iv c in
  let c := fold_left (fun c d => br_gcm_aad_inject d c) aads c in
  let c := br_gcm_flip c in
  run_all cls enc data c.

Section sessions.
Context {K : Type} {cls : br_block_ctr_class K} {E : bytes -> bytes -> bytes} {good : bytes -> Prop}.
Context `{!CtrOk cls E good}.
Context (ghash : bytes -> bytes -> bytes -> bytes) `{!GhashOk ghash}.
Context (key iv : bytes) (Hkey : good key).
Context (Hiv : Forall byte_ok iv) (Hivl : 8 * Z.of_nat (length iv) < 2 ^ 64).

Lemma run_all_inv enc A l : forall C c, Forall (Forall byte_ok) l -> ctr_inv key iv A C c ->
  (run_all cls enc l c).2 = crypt (E := E) key iv C (concat l) /\
  ctr_inv key iv A (C ++ cipher_of (E := E) key iv enc C (concat l)) (run_all cls enc l c).1.
Proof using Hiv CtrOk0.
  induction l as [|d l IH]; intros C c Hl Hc; cbn [run_all concat].
  - split; [done|]. unfold cipher_of. rewrite crypt_nil. by destruct enc; rewrite app_nil_r.
  - apply Forall_cons in Hl as [Hd Hl]. destruct (run_inv key iv Hiv enc A C d c Hd Hc) as [Eo I].
    destruct (br_gcm_run cls enc d c) as [c1 out]. cbn [fst snd] in *.
    destruct (IH _ _ Hl I) as [Eo2 I2]. destruct (run_all cls enc l c1) as [c2 out2]. cbn [fst snd] in *.
    subst out out2. split; [by rewrite (crypt_app key iv C _ _ enc)|]. by rewrite cipher_of_app, app_assoc.
Qed.

Lemma init_keyed c0 : keyed (E := E) key (br_gcm_init cls c0 (ctr_init cls key) ghash).
Proof using Hkey GhashOk0.
  unfold br_gcm_init. split; [by apply ctr_init_keyed|]. split; [done|]. cbn [h bctx].
  rewrite (ctr_run_stream (cls := cls) key); [|by apply ctr_init_keyed|done|by repeat constructor..|done]. cbn [fst].
  unfold gcm_H. apply (list_eq_same_length _ _ 16); [apply (block_length (cls := cls))|apply xor_stream_length|].
  intros i a b Hi Ha Hb. unfold xor_stream in Ha. rewrite list_lookup_imap in Ha. unfold zeros in Ha.
  rewrite lookup_replicate_2 in Ha by done. injection Ha as <-. rewrite Z.lxor_0_l. unfold stream.
  rewrite Nat.div_small, Nat.mod_small by done. unfold byte_at. apply nth_lookup_Some. exact Hb.
Qed.

(** The state after a session. *)
Lemma session_inv c0 aads enc data : length (gbuf c0) = 16%nat -> Forall (Forall byte_ok) data ->
  let r := gcm_session cls ghash c0 key iv aads enc data in
  r.2 = gcm_crypt (E key) iv (concat data) /\
  ctr_inv (E := E) key iv (concat aads) (if enc then gcm_crypt (E key) iv (concat data) else concat data) r.1.
Proof using Hiv Hivl Hkey GhashOk0.
  intros Hg Hd. unfold gcm_session.
  destruct (run_all_inv enc (concat aads) data [] (br_gcm_flip (fold_left (fun c d => br_gcm_aad_inject d c) aads
    (br_gcm_reset iv (br_gcm_init cls c0 (ctr_init cls key) ghash)))) Hd) as [Eo I].
  - apply flip_inv. apply (inject_all_inv key iv aads []). apply reset_inv; [done|done|apply init_keyed|done].
  - assert (Ec : crypt (E := E) key iv [] (concat data) = gcm_crypt (E key) iv (concat data)).
    { unfold gcm_crypt, crypt. by rewrite (surjective_pairing (gcm_J0 (E key) iv)). }
    cbv zeta. rewrite Eo, Ec. split; [done|]. unfold cipher_of in I. rewrite Ec in I. exact I.
Qed.

Lemma tag_length A C : length (gcm_tag (E key) iv A C) = 16%nat.
Proof. unfold gcm_tag. destruct (gcm_J0 (E key) iv). rewrite xor_stream_length. apply GHASH_length. Qed.

Lemma tag_ok A C : Forall byte_ok (gcm_tag (E key) iv A C).
Proof using CtrOk0.
  unfold gcm_tag. destruct (gcm_J0 (E key) iv). apply xor_stream_ok; [|apply GHASH_ok].
  intros i. apply byte_at_ok, (block_bytes (cls := cls)).
Qed.

Lemma crypt_length d : length (gcm_crypt (E key) iv d) = length d.
Proof. unfold gcm_crypt. destruct (gcm_J0 (E key) iv). apply xor_stream_length. Qed.

Lemma crypt_ok d : Forall byte_ok d -> Forall byte_ok (gcm_crypt (E key) iv d).
Proof using CtrOk0.
  intros Hd. unfold gcm_crypt. destruct (gcm_J0 (E key) iv). apply xor_stream_ok; [|done].
  intros i. apply byte_at_ok, (block_bytes (cls := cls)).
Qed.

Lemma crypt_involutive d : gcm_crypt (E key) iv (gcm_crypt (E key) iv d) = d.
Proof. unfold gcm_crypt. destruct (gcm_J0 (E key) iv). apply xor_stream_involutive. Qed.
End sessions.

(** Comparing tags: the accumulated difference is zero exactly when the
    prefixes agree. *)
Lemma diff_spec a b l : Forall byte_ok a -> Forall byte_ok b -> forall x, 0 <= x < 256 ->
  let r := fold_left (fun x u => Z.lor x (Z.lxor (byte_at a u) (byte_at b u))) l x in
  0 <= r < 256 /\ (r = 0 <-> x = 0 /\ forall u, u ∈ l -> byte_at a u = byte_at b u).
Proof.
  intros Ha Hb. induction l as [|u l IH]; intros x Hx; cbn [fold_left].
  - split; [done|]. split; [intros ->; split; [done|intros u Hu; by apply elem_of_nil in Hu]|by intros [-> _]].
  - pose proof (lxor_byte_ok _ _ (byte_at_ok a u Ha) (byte_at_ok b u Hb)) as Hu. unfold byte_ok in Hu.
    assert (Hx' : 0 <= Z.lor x (Z.lxor (byte_at a u) (byte_at b u)) < 256).
    { pose proof (lor_in_width 8 ltac:(lia) x _ Hx Hu) as W. exact W. }
    destruct (IH _ Hx') as [Hr Heq]. split; [done|]. rewrite Heq, Z.lor_eq_0_iff, Z.lxor_eq_0_iff.
    setoid_rewrite elem_of_cons. naive_solver.
Qed.

Lemma check_tag_trunc_spec {K} (cls : br_block_ctr_class K) tag len c :
  let T := (br_gcm_get_tag cls c).2 in
  length T = 16%nat -> Forall byte_ok T -> Forall byte_ok tag -> (len <= 16)%nat -> length tag = len ->
  (br_gcm_check_tag_trunc cls tag len c).2 = Z.b2z (bool_decide (tag = take len T)).
Proof.
  intros T Hl Hb Ht Hlen Htl. unfold br_gcm_check_tag_trunc. fold T.
  rewrite (surjective_pairing (br_gcm_get_tag cls c)). fold T. cbn [snd].
  destruct (diff_spec T tag (seq 0 len) Hb Ht 0 ltac:(lia)) as [Hr Heq].
  rewrite EQ0_spec by lia. f_equal. set (r := fold_left _ _ _) in *.
  assert (Hiff : r = 0 <-> tag = take len T).
  { rewrite Heq. split.
    - intros [_ Hu]. apply (list_eq_same_length _ _ len); [rewrite length_take; lia|done|].
      intros i a b Hi Ea Eb. rewrite lookup_take_lt in Eb by done.
      specialize (Hu i ltac:(apply elem_of_seq; lia)). unfold byte_at in Hu.
      rewrite (nth_lookup_Some _ _ _ _ Ea), (nth_lookup_Some _ _ _ _ Eb) in Hu. done.
    - intros Et. split; [done|]. intros u Hu%elem_of_seq. rewrite Et. unfold byte_at.
      rewrite !nth_lookup, lookup_take_lt by lia. done. }
  destruct (Z.eqb_spec r 0), (bool_decide_reflect (tag = take len T)); tauto.
Qed.

(** ** Properties *)

(** C8: GCM refines SP 800-38D.  Over any counter-mode implementation and any
    GHASH that meet their contracts, initialising a context with a key,
    resetting it with a nonce of any length, injecting the additional data in
    any pieces, running over the data in any pieces and asking for the tag
    gives the output of the counter mode from [inc32(J0)] over the whole data
    and the tag of the standard over the whole additional data and the whole
    ciphertext, whether the call encrypts or decrypts. *)
Theorem gcm_refines {K} (cls : br_block_ctr_class K) E good `{!CtrOk cls E good} ghash `{!GhashOk ghash}
    (c0 : br_gcm_context K) (key iv : bytes) (aads data : list bytes) (enc : bool) :
  good key -> Forall byte_ok iv -> Forall (Forall byte_ok) data -> length (gbuf c0) = 16%nat ->
  8 * Z.of_nat (length iv) < 2 ^ 64 -> 8 * Z.of_nat (length (concat aads)) < 2 ^ 64 ->
  8 * Z.of_nat (length (concat data)) < 2 ^ 64 ->
  let '(c, out) := gcm_session cls ghash c0 key iv aads enc data in
  out = gcm_crypt (E key) iv (concat data) /\
  (br_gcm_get_tag cls c).2 = gcm_tag (E key) iv (concat aads) (if enc then out else concat data).
Proof.
  intros Hkey Hiv Hd Hg Livl La Ld.
  destruct (session_inv ghash key iv Hkey Hiv Livl c0 aads enc data Hg Hd) as [Eo I].
  destruct (gcm_session cls ghash c0 key iv aads enc data) as [c out]. cbn [fst snd] in *. split; [done|].
  rewrite Eo. apply get_tag_spec; [done|done| |done].
  destruct enc; [by rewrite crypt_length|done].
Qed.

(** C24: Decryption undoes encryption and accepts the tag.  The ciphertext of a
    session, cut into any other pieces, decrypts under the same key, nonce and
    additional data (in any pieces) to the plaintext; checking the first
    [len] bytes of a tag then returns 1 exactly when they are the first [len]
    bytes of the tag that the encryption computed, and 0 otherwise. *)
Theorem gcm_round_trip {K} (cls : br_block_ctr_class K) E good `{!CtrOk cls E good} ghash `{!GhashOk ghash}
    (c0 c0' : br_gcm_context K) (key iv : bytes) (aads aads' data ct : list bytes) (tag : bytes) :
  good key -> Forall byte_ok iv -> Forall (Forall byte_ok) data -> Forall byte_ok tag ->
  length (gbuf c0) = 16%nat -> length (gbuf c0') = 16%nat ->
  8 * Z.of_nat (length iv) < 2 ^ 64 -> 8 * Z.of_nat (length (concat aads)) < 2 ^ 64 ->
  8 * Z.of_nat (length (concat data)) < 2 ^ 64 ->
  concat aads' = concat aads -> (length tag <= 16)%nat ->
  let '(c, out) := gcm_session cls ghash c0 key iv aads true data in
  concat ct = out ->
  let '(c', out') := gcm_session cls ghash c0' key iv aads' false ct in
  out' = concat data /\
  (br_gcm_check_tag_trunc cls tag (length tag) c').2 =
    Z.b2z (bool_decide (tag = take (length tag) (br_gcm_get_tag cls c).2)).
Proof.
  intros Hkey Hiv Hd Ht Hg Hg' Livl La Ld Ea Hl.
  destruct (session_inv ghash key iv Hkey Hiv Livl c0 aads true data Hg Hd) as [Eo I].
  destruct (gcm_session cls ghash c0 key iv aads true data) as [c out]. cbn [fst snd] in *.
  intros Ec. assert (Hct : Forall (Forall byte_ok) ct).
  { apply Forall_concat. rewrite Ec, Eo. apply crypt_ok. by apply Forall_concat. }
  destruct (session_inv ghash key iv Hkey Hiv Livl c0' aads' false ct Hg' Hct) as [Eo' I'].
  destruct (gcm_session cls ghash c0' key iv aads' false ct) as [c' out']. cbn [fst snd] in *.
  rewrite Ec, Eo in *. rewrite crypt_involutive in Eo'. split; [done|].
  rewrite Ea in I'.
  assert (Tg : (br_gcm_get_tag cls c').2 = gcm_tag (E key) iv (concat aads) (gcm_crypt (E key) iv (concat data))).
  { apply get_tag_spec; [done|done|by rewrite crypt_length|done]. }
  rewrite check_tag_trunc_spec; rewrite ?Tg; [|apply tag_length|apply tag_ok|done|done|done].
  assert (Lc : 8 * Z.of_nat (length (gcm_crypt (E key) iv (concat data))) < 2 ^ 64) by (by rewrite crypt_length).
  by rewrite (get_tag_spec key iv Hiv _ _ c La Lc I).
Qed.

(** ** Witnesses: AES and the vectorised GHASH *)

(** A context as the caller may find it. *)
Definition blank_context (k : br_aes_x86ni_ctr_keys) : br_gcm_context br_aes_x86ni_ctr_keys :=
  mkGcm k br_ghash_pclmul [] [] (replicate 16 0xFF) [] 0 0 0 0.

Definition test_key : bytes := [0xfe; 0xff; 0xe9; 0x92; 0x86; 0x65; 0x73; 0x1c; 0x6d; 0x6a; 0x8f; 0x94; 0x67; 0x30; 0x83; 0x08].
Definition test_iv : bytes := [0xca; 0xfe; 0xba; 0xbe; 0xfa; 0xce; 0xdb; 0xad; 0xde; 0xca; 0xf8; 0x88].
Definition test_aad : bytes := [0xfe; 0xed; 0xfa; 0xce; 0xde; 0xad; 0xbe; 0xef; 0xfe; 0xed; 0xfa; 0xce; 0xde; 0xad; 0xbe; 0xef; 0xab; 0xad; 0xda; 0xd2].
Definition test_plain : bytes := [0xd9; 0x31; 0x32; 0x25; 0xf8; 0x84; 0x06; 0xe5; 0xa5; 0x59; 0x09; 0xc5; 0xaf; 0xf5; 0x26; 0x9a; 0x86; 0xa7; 0xa9; 0x53; 0x15; 0x34; 0xf7; 0xda; 0x2e; 0x4c; 0x30; 0x3d; 0x8a; 0x31; 0x8a; 0x72; 0x1c; 0x3c; 0x0c; 0x95; 0x95; 0x68; 0x09; 0x53; 0x2f; 0xcf; 0x0e; 0x24; 0x49; 0xa6; 0xb5; 0x25; 0xb1; 0x6a; 0xed; 0xf5; 0xaa; 0x0d; 0xe6; 0x57; 0xba; 0x63; 0x7b; 0x39].
Definition test_cipher : bytes := [0x42; 0x83; 0x1e; 0xc2; 0x21; 0x77; 0x74; 0x24; 0x4b; 0x72; 0x21; 0xb7; 0x84; 0xd0; 0xd4; 0x9c; 0xe3; 0xaa; 0x21; 0x2f; 0x2c; 0x02; 0xa4; 0xe0; 0x35; 0xc1; 0x7e; 0x23; 0x29; 0xac; 0xa1; 0x2e; 0x21; 0xd5; 0x14; 0xb2; 0x54; 0x66; 0x93; 0x1c; 0x7d; 0x8f; 0x6a; 0x5a; 0xac; 0x84; 0xaa; 0x05; 0x1b; 0xa3; 0x0b; 0x39; 0x6a; 0x0a; 0xac; 0x97; 0x3d; 0x58; 0xe0; 0x91].
Definition test_tag : bytes := [0x5b; 0xc9; 0x4f; 0xbc; 0x32; 0x21; 0xa5; 0xdb; 0x94; 0xfa; 0xe9; 0x5a; 0xe7; 0x12; 0x1a; 0x47].

Definition test_context : br_gcm_context br_aes_x86ni_ctr_keys := blank_context (mkCtrKeys [] 0).

(** Test case 4 of the GCM specification, in uneven pieces. *)
Example gcm_test_vector :
  let r := gcm_session br_aes_x86ni_ctr_vtable br_ghash_pclmul test_context test_key test_iv
             [take 3 test_aad; drop 3 test_aad] true [take 21 test_plain; []; drop 21 test_plain] in
  r.2 = test_cipher /\ (br_gcm_get_tag br_aes_x86ni_ctr_vtable r.1).2 = test_tag.
Proof. vm_compute. split; reflexivity. Qed.

Lemma bytes_ok_dec (l : bytes) : forallb (fun b => (0 <=? b) && (b <? 256)) l = true -> Forall byte_ok l.
Proof.
  intros H. apply Forall_forall. intros x Hx. rewrite forallb_forall in H.
  specialize (H x ltac:(by apply list_elem_of_In)). unfold byte_ok. lia.
Qed.

Lemma gcm_refines_witness :
  let '(c, out) := gcm_session br_aes_x86ni_ctr_vtable br_ghash_pclmul test_context test_key [1; 2; 3]
                     [[4; 5]; [6]] true [[7; 8; 9]; [10]] in
  out = gcm_crypt (AES test_key) [1; 2; 3] (concat [[7; 8; 9]; [10]]) /\
  (br_gcm_get_tag br_aes_x86ni_ctr_vtable c).2 =
    gcm_tag (AES test_key) [1; 2; 3] (concat [[4; 5]; [6]]) (if true then out else concat [[7; 8; 9]; [10]]).
Proof.
  apply (gcm_refines br_aes_x86ni_ctr_vtable AES aes_key br_ghash_pclmul test_context test_key [1; 2; 3]
    [[4; 5]; [6]] [[7; 8; 9]; [10]] true).
  - split; [left; reflexivity|apply bytes_ok_dec; reflexivity].
  - apply bytes_ok_dec; reflexivity.
  - apply Forall_cons_2; [apply bytes_ok_dec; reflexivity|]. apply Forall_cons_2; [apply bytes_ok_dec; reflexivity|].
    apply Forall_nil_2.
  - reflexivity.
  - reflexivity.
  - reflexivity.
  - reflexivity.
Defined.

Lemma gcm_round_trip_witness :
  let '(c, out) := gcm_session br_aes_x86ni_ctr_vtable br_ghash_pclmul test_context test_key test_iv
                     [[4; 5]; [6]] true [[7; 8; 9]; [10]] in
  concat [out] = out ->
  let '(c', out') := gcm_session br_aes_x86ni_ctr_vtable br_ghash_pclmul test_context test_key test_iv
                       [[4; 5; 6]] false [out] in
  out' = concat [[7; 8; 9]; [10]] /\
  (br_gcm_check_tag_trunc br_aes_x86ni_ctr_vtable [1; 2] 2 c').2 =
    Z.b2z (bool_decide ([1; 2] = take 2 (br_gcm_get_tag br_aes_x86ni_ctr_vtable c).2)).
Proof.
  pose proof (fun ct => gcm_round_trip br_aes_x86ni_ctr_vtable AES aes_key br_ghash_pclmul test_context test_context
    test_key test_iv [[4; 5]; [6]] [[4; 5; 6]] [[7; 8; 9]; [10]] ct [1; 2]) as G.
  destruct (gcm_session br_aes_x86ni_ctr_vtable br_ghash_pclmul test_context test_key test_iv
    [[4; 5]; [6]] true [[7; 8; 9]; [10]]) as [c out].
  apply (G [out]).
  - split; [left; reflexivity|apply bytes_ok_dec; reflexivity].
  - apply bytes_ok_dec; reflexivity.
  - apply Forall_cons_2; [apply bytes_ok_dec; reflexivity|]. apply Forall_cons_2; [apply bytes_ok_dec; reflexivity|].
    apply Forall_nil_2.
  - apply bytes_ok_dec; reflexivity.
  - reflexivity.
  - reflexivity.
  - reflexivity.
  - reflexivity.
  - reflexivity.
  - reflexivity.
  - simpl; lia.
Defined.
