(* ===== verification/EncUtils.v ===== *)
(** * Encryption and randomness of the enclave build
    (osort/common/encutils.cpp and encutils.hpp, the [ENCLAVE_MODE] /
    [NOOPENSSL] branches; osort/common/encrypted.hpp)

    The entry points that the containers and the page cache use: AES-256 in
    GCM and in counter mode over whole buffers, the encrypted wrappers of a
    value, and the buffered random generator.  Null pointers are [None]; a
    buffer keeps the bytes beyond the length that a call is given. *)
From S2P Require Import Prelude Inner Hash Simd Aes AesCtr AesCtrDrbg Gf2 Ghash Gcm.
Import SP800_38D.
Local Open Scope Z_scope.

(** The codes of the SGX SDK that the code names; other codes come from the
    SDK's own functions. *)
Inductive sgx_status_t :=
| SGX_SUCCESS
| SGX_ERROR_UNEXPECTED
| SGX_ERROR_INVALID_PARAMETER
| SGX_ERROR_OUT_OF_MEMORY
| SGX_ERROR_INVALID_STATE
| SGX_ERROR_MAC_MISMATCH
| SGXSD_ERROR_PENDING_REQUEST_NOT_FOUND
| SGX_ERROR_OTHER (code : Z).

#[export] Instance sgx_status_eq_dec : EqDecision sgx_status_t.
Proof. solve_decision. Defined.

Definition is_null (p : option bytes) : bool := match p with None => true | Some _ => false end.
Definition contents (p : option bytes) : bytes := match p with None => [] | Some b => b end.

Definition SGXSD_AES_GCM_IV_SIZE : nat := 12.
Definition SGXSD_AES_GCM_MAC_SIZE : nat := 16.
Definition SGXSD_AES_GCM_KEY_SIZE : nat := 32.

Abbreviation vt := br_aes_x86ni_ctr_vtable.
Abbreviation gcm_ctx := (br_gcm_context br_aes_x86ni_ctr_keys).

(** ** AES-256-GCM over a buffer *)

(** The status, the new contents of [p_dst] and of [p_mac].  [c0] is the
    uninitialised context on the stack. *)
Definition sgxsd_aes_gcm_run (c0 : gcm_ctx) (encrypt : bool) (p_key p_src : option bytes) (src_len : Z)
    (p_dst p_iv p_aad : option bytes) (aad_len : Z) (p_mac : option bytes)
    : sgx_status_t * option bytes * option bytes :=
  if is_null p_key || ((is_null p_src || is_null p_dst) && negb (src_len =? 0)) || is_null p_iv
     || (is_null p_aad && negb (aad_len =? 0)) || is_null p_mac
  then (SGX_ERROR_INVALID_PARAMETER, p_dst, p_mac)
  else
    let n := Z.to_nat src_len in
    let aes_ctx := ctr_init vt (take SGXSD_AES_GCM_KEY_SIZE (contents p_key)) in
    let c := br_gcm_init vt c0 aes_ctx br_ghash_pclmul in
    let c := br_gcm_reset (take SGXSD_AES_GCM_IV_SIZE (contents p_iv)) c in
    let c := if negb (aad_len =? 0) then br_gcm_aad_inject (take (Z.to_nat aad_len) (contents p_aad)) c else c in
    let c := br_gcm_flip c in
    let '(c, dst) :=
      if negb (src_len =? 0) then
        let '(c, out) := br_gcm_run vt encrypt (take n (contents p_src)) c in
        (c, Some (out ++ drop n (contents p_dst)))
      else (c, p_dst) in
    let '(mac, tag_res) :=
      if encrypt then (memcpy_at 0 (br_gcm_get_tag vt c).2 (contents p_mac), true)
      else (contents p_mac, negb ((br_gcm_check_tag vt (contents p_mac) c).2 =? 0)) in
    if tag_res then (SGX_SUCCESS, dst, Some mac)
    else (SGX_ERROR_MAC_MISMATCH, (fun d => replicate n 0 ++ drop n d) <$> dst, Some mac).

(** [uint64_t] sizes are narrowed to the [uint32_t] parameter. *)
Definition aes_256_gcm_encrypt (c0 : gcm_ctx) (plaintextSize : Z) (plaintext key iv tag ciphertext : bytes)
    : bytes * bytes :=
  let '(_, dst, mac) := sgxsd_aes_gcm_run c0 true (Some key) (Some plaintext) (w32 plaintextSize)
                          (Some ciphertext) (Some iv) None 0 (Some tag) in
  (contents dst, contents mac).

Definition aes_256_gcm_decrypt (c0 : gcm_ctx) (ciphertextSize : Z) (ciphertext key iv tag plaintext : bytes)
    : bool * bytes :=
  let '(res, dst, _) := sgxsd_aes_gcm_run c0 false (Some key) (Some ciphertext) (w32 ciphertextSize)
                          (Some plaintext) (Some iv) None 0 (Some tag) in
  (bool_decide (res = SGX_SUCCESS), contents dst).

(** ** AES-256 in counter mode over a buffer *)

Definition sgxsd_aes_ctr_run (p_key p_src : option bytes) (src_len : Z) (p_dst p_iv : option bytes)
    : sgx_status_t * option bytes :=
  if is_null p_key || ((is_null p_src || is_null p_dst) && negb (src_len =? 0)) || is_null p_iv
  then (SGX_ERROR_INVALID_PARAMETER, p_dst)
  else
    let n := Z.to_nat src_len in
    let aes_ctx := br_aes_x86ni_ctr_init (take SGXSD_AES_GCM_KEY_SIZE (contents p_key)) in
    if negb (src_len =? 0) then
      let '(out, _) := br_aes_x86ni_ctr_run aes_ctx (take 12 (contents p_iv)) 0 (take n (contents p_src)) in
      (SGX_SUCCESS, Some (out ++ drop n (contents p_dst)))
    else (SGX_SUCCESS, p_dst).

Definition aes_256_ctr_encrypt (plaintextSize : Z) (plaintext key iv ciphertext : bytes) : bytes :=
  contents (sgxsd_aes_ctr_run (Some key) (Some plaintext) (w32 plaintextSize) (Some ciphertext) (Some iv)).2.

Definition aes_256_ctr_decrypt (ciphertextSize : Z) (ciphertext key iv plaintext : bytes) : bool * bytes :=
  let '(res, dst) := sgxsd_aes_ctr_run (Some key) (Some ciphertext) (w32 ciphertextSize) (Some plaintext) (Some iv) in
  (bool_decide (res = SGX_SUCCESS), contents dst).

(** ** Encrypted values *)

(** [KEY] has sixteen bytes; the ciphers read thirty-two.  [after_key] is what
    memory holds behind it. *)
Definition KEY : bytes := replicate 16 0x41.

(** [Encrypted<T>] of the enclave build: no tag. *)
Record Encrypted := mkEncrypted { enc_data : bytes; enc_iv : bytes }.

(** [iv] is what [GetRand16] writes over the first sixteen bytes. *)
Definition Encrypted_Encrypt (after_key : bytes) (rnd : bytes) (x : bytes) (e : Encrypted) : Encrypted :=
  let iv := memcpy_at 0 rnd (enc_iv e) in
  mkEncrypted (aes_256_ctr_encrypt (Z.of_nat (length x)) x (KEY ++ after_key) iv (enc_data e)) iv.

Definition Encrypted_Decrypt (after_key : bytes) (e : Encrypted) (out : bytes) : bytes :=
  (aes_256_ctr_decrypt (Z.of_nat (length out)) (enc_data e) (KEY ++ after_key) (enc_iv e) out).2.

(** [FreshEncrypted<T>]: the nonce is kept by the caller. *)
Record FreshEncrypted := mkFresh { fresh_data : bytes; fresh_tag : bytes }.

Definition FreshEncrypted_Encrypt (c0 : gcm_ctx) (after_key x iv : bytes) (e : FreshEncrypted) : FreshEncrypted :=
  let '(data, tag) := aes_256_gcm_encrypt c0 (Z.of_nat (length x)) x (KEY ++ after_key) iv (fresh_tag e) (fresh_data e) in
  mkFresh data tag.

(** [None] is the call to [abort()] after an authentication failure. *)
Definition FreshEncrypted_Decrypt (c0 : gcm_ctx) (after_key iv : bytes) (e : FreshEncrypted) (out : bytes)
    : option bytes :=
  let '(r, x) := aes_256_gcm_decrypt c0 (Z.of_nat (length out)) (fresh_data e) (KEY ++ after_key) iv (fresh_tag e) out in
  if r then Some x else None.

(** ** The random generator *)

Record RandGen := mkRandGen {
  rg_ctx : br_aesctr_drbg_context br_aes_x86ni_ctr_keys;
  rg_idx : nat;
  rg_buffer : bytes
}.

Definition RAND_BUFFER : nat := Z.to_nat 4096.

(** The seed is the eight bytes of a [uint64_t]. *)
Definition RandGen_new (seed : Z) : RandGen :=
  let ctx := br_aesctr_drbg_init vt (br_enc64le seed) in
  let '(ctx, buffer) := br_aesctr_drbg_generate vt RAND_BUFFER ctx in
  mkRandGen ctx 0 buffer.

(** [if (idx > 4096 - size) { generate; idx = 0; }] *)
Definition refill (size : nat) (g : RandGen) : RandGen :=
  if (RAND_BUFFER - size <? rg_idx g)%nat then
    let '(ctx, buffer) := br_aesctr_drbg_generate vt RAND_BUFFER (rg_ctx g) in mkRandGen ctx 0 buffer
  else g.

Definition rand64 (g : RandGen) : Z * RandGen :=
  let g := refill 8 g in
  (br_dec64le (drop (rg_idx g) (rg_buffer g)), mkRandGen (rg_ctx g) (rg_idx g + 8) (rg_buffer g)).

Definition rand32 (g : RandGen) : Z * RandGen :=
  let g := refill 4 g in
  (br_dec32le (drop (rg_idx g) (rg_buffer g)), mkRandGen (rg_ctx g) (rg_idx g + 4) (rg_buffer g)).

Definition rand1 (g : RandGen) : Z * RandGen :=
  let g := refill 1 g in
  (Z.land (byte_at (rg_buffer g) (rg_idx g)) 1, mkRandGen (rg_ctx g) (rg_idx g + 1) (rg_buffer g)).

(** ** GCM over a buffer *)

Lemma check_tag_prefix {K} (cls : br_block_ctr_class K) mac c :
  br_gcm_check_tag cls mac c = br_gcm_check_tag_trunc cls (take 16 mac) 16 c.
Proof.
  unfold br_gcm_check_tag, br_gcm_check_tag_trunc. destruct (br_gcm_get_tag cls c) as [c' tmp].
  f_equal. f_equal. assert (H : forall u, u ∈ seq 0 16 -> byte_at mac u = byte_at (take 16 mac) u).
  { intros u Hu%elem_of_seq. unfold byte_at. by rewrite !nth_lookup, lookup_take_lt by lia. }
  revert H. generalize (seq 0 16) 0. intros l. induction l as [|u l IH]; intros x H; [done|]. cbn [fold_left].
  rewrite H by apply elem_of_cons, or_introl, eq_refl. apply IH. intros v Hv. apply H, elem_of_cons. by right.
Qed.

(** What the arguments must be for the call to have a meaning: a key, a nonce
    and a tag of their sizes, and sources as long as the lengths say. *)
Record gcm_args (key iv mac src aad : bytes) (n m : nat) : Prop := {
  args_key : (SGXSD_AES_GCM_KEY_SIZE <= length key)%nat;
  args_key_ok : Forall byte_ok key;
  args_iv : (SGXSD_AES_GCM_IV_SIZE <= length iv)%nat;
  args_iv_ok : Forall byte_ok iv;
  args_mac : (SGXSD_AES_GCM_MAC_SIZE <= length mac)%nat;
  args_mac_ok : Forall byte_ok mac;
  args_src : (n <= length src)%nat;
  args_src_ok : Forall byte_ok src;
  args_src_len : Z.of_nat n < 2 ^ 32;
  args_aad : (m <= length aad)%nat;
  args_aad_len : Z.of_nat m < 2 ^ 32
}.

Definition gcm_cipher (key iv : bytes) : bytes -> bytes :=
  gcm_crypt (AES (take SGXSD_AES_GCM_KEY_SIZE key)) (take SGXSD_AES_GCM_IV_SIZE iv).
Definition gcm_mac (key iv : bytes) : bytes -> bytes -> bytes :=
  gcm_tag (AES (take SGXSD_AES_GCM_KEY_SIZE key)) (take SGXSD_AES_GCM_IV_SIZE iv).

(** The body of [sgxsd_aes_gcm_run] up to the tag is a session. *)
Lemma run_is_session (c0 : gcm_ctx) enc key iv A D :
  let c := br_gcm_flip ((if negb (Z.of_nat (length A) =? 0) then br_gcm_aad_inject A else id)
             (br_gcm_reset iv (br_gcm_init vt c0 (ctr_init vt key) br_ghash_pclmul))) in
  (if negb (Z.of_nat (length D) =? 0) then br_gcm_run vt enc D c else (c, [])) =
  gcm_session vt br_ghash_pclmul c0 key iv (if negb (Z.of_nat (length A) =? 0) then [A] else [])
    enc (if negb (Z.of_nat (length D) =? 0) then [D] else []).
Proof.
  cbv zeta. unfold gcm_session.
  destruct (Z.of_nat (length A) =? 0), (Z.of_nat (length D) =? 0); cbn [negb fold_left run_all];
    unfold id; try done;
    destruct (br_gcm_run _ _ _ _) as [c out]; by rewrite app_nil_r.
Qed.

Lemma nonempty_concat (A : bytes) : concat (if negb (Z.of_nat (length A) =? 0) then [A] else []) = A.
Proof.
  destruct (Z.eqb_spec (Z.of_nat (length A)) 0) as [H|H]; cbn [negb concat]; [|by rewrite app_nil_r].
  symmetry. apply length_zero_iff_nil. lia.
Qed.

Lemma gcm_run_spec (c0 : gcm_ctx) enc key iv mac src aad dst n m :
  length (gbuf c0) = 16%nat -> gcm_args key iv mac src aad n m ->
  let D := take n src in let A := take m aad in
  sgxsd_aes_gcm_run c0 enc (Some key) (Some src) (Z.of_nat n) (Some dst) (Some iv) (Some aad) (Z.of_nat m) (Some mac) =
  if enc then (SGX_SUCCESS, Some (gcm_cipher key iv D ++ drop n dst),
               Some (memcpy_at 0 (gcm_mac key iv A (gcm_cipher key iv D)) mac))
  else if bool_decide (take 16 mac = gcm_mac key iv A D)
  then (SGX_SUCCESS, Some (gcm_cipher key iv D ++ drop n dst), Some mac)
  else (SGX_ERROR_MAC_MISMATCH, Some (replicate n 0 ++ drop n dst), Some mac).
Proof.
  intros Hg [Lk Ok Li Oi Lm Om Ls Os Hs La Ha] D A. unfold sgxsd_aes_gcm_run. cbn [is_null orb andb contents].
  set (k := take SGXSD_AES_GCM_KEY_SIZE key). set (i := take SGXSD_AES_GCM_IV_SIZE iv).
  fold D A. rewrite !Nat2Z.id. fold D A.
  assert (LD : length D = n) by (unfold D; rewrite length_take; lia).
  assert (LA : length A = m) by (unfold A; rewrite length_take; lia).
  assert (Hk : aes_key k).
  { split; [right; right; unfold k; rewrite length_take; unfold SGXSD_AES_GCM_KEY_SIZE in *; lia|by apply Forall_take]. }
  assert (Hi : Forall byte_ok i) by (by apply Forall_take).
  assert (Li' : length i = 12%nat) by (unfold i; rewrite length_take; unfold SGXSD_AES_GCM_IV_SIZE in *; lia).
  assert (OD : Forall (Forall byte_ok) (if negb (Z.of_nat (length D) =? 0) then [D] else [])).
  { destruct (Z.of_nat (length D) =? 0); cbn [negb]; repeat constructor. by apply Forall_take. }
  pose proof (run_is_session c0 enc k i A D) as R. cbv zeta in R. rewrite LA, LD in R.
  destruct (session_inv br_ghash_pclmul k i Hk Hi ltac:(lia) c0 (if negb (Z.of_nat (length A) =? 0) then [A] else []) enc
    (if negb (Z.of_nat (length D) =? 0) then [D] else []) Hg OD) as [Eo I].
  rewrite (nonempty_concat D) in Eo, I. rewrite (nonempty_concat A) in I. rewrite LA, LD in Eo, I. rewrite <-R in Eo, I. clear R.
  assert (Eif : forall c : gcm_ctx, (if negb (Z.of_nat m =? 0) then br_gcm_aad_inject A c else c) =
    (if negb (Z.of_nat m =? 0) then br_gcm_aad_inject A else id) c) by (intros c; by destruct (Z.of_nat m =? 0)).
  rewrite Eif. set (c := br_gcm_flip _) in *.
  assert (Er : (if negb (Z.of_nat n =? 0) then let '(c, out) := br_gcm_run vt enc D c in (c, Some (out ++ drop n dst))
    else (c, Some dst)) =
    let '(c', out) := if negb (Z.of_nat n =? 0) then br_gcm_run vt enc D c else (c, []) in (c', Some (out ++ drop n dst))).
  { destruct (Z.eqb_spec (Z.of_nat n) 0) as [Hn|]; cbn [negb]; [|done]. replace n with 0%nat by lia. done. }
  rewrite Er. clear Er Eif. destruct (if negb (Z.of_nat n =? 0) then _ else _) as [c' out]. cbn [fst snd] in *. subst out.
  fold (gcm_cipher key iv) in *. change (gcm_crypt (AES k) i D) with (gcm_cipher key iv D) in *.
  assert (Hlen : length (gcm_cipher key iv D) = n) by (unfold gcm_cipher; rewrite crypt_length; done).
  assert (T : (br_gcm_get_tag vt c').2 = gcm_mac key iv A (if enc then gcm_cipher key iv D else D)).
  { apply (get_tag_spec (E := AES) k i Hi); [lia| |exact I]. destruct enc; lia. }
  destruct enc; [by rewrite T|]. rewrite check_tag_prefix, check_tag_trunc_spec; rewrite ?T.
  - unfold SGXSD_AES_GCM_MAC_SIZE in *. rewrite (take_ge (gcm_mac key iv A D)) by (unfold gcm_mac; rewrite tag_length; lia).
    case_bool_decide; cbn [Z.b2z Z.eqb negb fmap option_fmap option_map]; [done|].
    rewrite drop_app_length' by lia. done.
  - apply tag_length.
  - apply (tag_ok (cls := vt) (good := aes_key)).
  - by apply Forall_take.
  - lia.
  - unfold SGXSD_AES_GCM_MAC_SIZE in *. rewrite length_take. lia.
Qed.

(** ** Counter mode over a buffer *)

Definition ctr_cipher (key iv : bytes) : bytes -> bytes :=
  xor_stream (stream (AES (take SGXSD_AES_GCM_KEY_SIZE key)) (take 12 iv) 0).

Lemma ctr_run_spec key iv src dst n : (SGXSD_AES_GCM_KEY_SIZE <= length key)%nat -> Forall byte_ok key ->
  (12 <= length iv)%nat -> Forall byte_ok iv -> Forall byte_ok src ->
  sgxsd_aes_ctr_run (Some key) (Some src) (Z.of_nat n) (Some dst) (Some iv) =
  (SGX_SUCCESS, Some (ctr_cipher key iv (take n src) ++ drop n dst)).
Proof.
  intros Lk Ok Li Oi Os. unfold sgxsd_aes_ctr_run. cbn [is_null orb andb contents]. rewrite Nat2Z.id.
  destruct (Z.eqb_spec (Z.of_nat n) 0) as [Hn|Hn]; cbn [negb].
  - replace n with 0%nat by lia. done.
  - pose proof (ctr_run_stream (cls := vt) (take SGXSD_AES_GCM_KEY_SIZE key)
      (br_aes_x86ni_ctr_init (take SGXSD_AES_GCM_KEY_SIZE key)) (take 12 iv) 0 (take n src)) as R.
    cbn [ctr_run br_aes_x86ni_ctr_vtable] in R. rewrite R; [done| | | | |].
    + split; [|reflexivity]. split; [right; right; rewrite length_take; unfold SGXSD_AES_GCM_KEY_SIZE in *; lia|by apply Forall_take].
    + rewrite length_take. lia.
    + by apply Forall_take.
    + by apply Forall_take.
    + split; lia.
Qed.

(** ** Requests to the random generator *)

Inductive rand_op := Rand64 | Rand32 | Rand1.

Definition op_size (op : rand_op) : nat := match op with Rand64 => 8 | Rand32 => 4 | Rand1 => 1 end.
Definition rand_step (op : rand_op) (g : RandGen) : Z * RandGen :=
  match op with Rand64 => rand64 g | Rand32 => rand32 g | Rand1 => rand1 g end.
Fixpoint rand_run (ops : list rand_op) (g : RandGen) : list Z :=
  match ops with [] => [] | op :: ops => let '(x, g) := rand_step op g in x :: rand_run ops g end.

(** The value that [op] makes of the bytes at an offset. *)
Definition op_value (op : rand_op) (buffer : bytes) (o : nat) : Z :=
  match op with
  | Rand64 => br_dec64le (drop o buffer)
  | Rand32 => br_dec32le (drop o buffer)
  | Rand1 => Z.land (byte_at buffer o) 1
  end.

(** Where the requests read: the number of a buffer and an offset in it. *)
Fixpoint positions (ops : list rand_op) (k o : nat) : list (nat * nat * rand_op) :=
  match ops with
  | [] => []
  | op :: ops =>
      if (RAND_BUFFER - op_size op <? o)%nat then (S k, 0%nat, op) :: positions ops (S k) (op_size op)
      else (k, o, op) :: positions ops k (o + op_size op)
  end.

(** The abstract generator after [k] buffers, and its [k]-th buffer. *)
Fixpoint buffer_state (seed : Z) (k : nat) : bytes * Z :=
  match k with
  | O => (next_key AES (replicate 16 0) (br_enc64le seed), 0)
  | S k => (drbg_generate AES (buffer_state seed k) RAND_BUFFER).1
  end.
Definition buffer_bytes (seed : Z) (k : nat) : bytes :=
  (drbg_generate AES (buffer_state seed k) RAND_BUFFER).2.

Lemma RAND_BUFFER_eq : Z.of_nat RAND_BUFFER = 4096.
Proof. unfold RAND_BUFFER. lia. Qed.

#[local] Opaque RAND_BUFFER.

Definition rand_inv (seed : Z) (k : nat) (g : RandGen) : Prop :=
  drbg_inv (cls := vt) (E := AES) (buffer_state seed (S k)) (rg_ctx g) /\
  rg_buffer g = buffer_bytes seed k /\ (rg_idx g <= RAND_BUFFER)%nat.

Lemma generate_buffer seed k ctx : drbg_inv (cls := vt) (E := AES) (buffer_state seed k) ctx ->
  let r := br_aesctr_drbg_generate vt RAND_BUFFER ctx in
  r.2 = buffer_bytes seed k /\ drbg_inv (cls := vt) (E := AES) (buffer_state seed (S k)) r.1.
Proof.
  intros I. destruct (buffer_state seed k) as [key cc] eqn:Es.
  destruct (generate_loop_spec aes_good (S RAND_BUFFER) RAND_BUFFER key cc ctx ltac:(lia) I) as [Eo I'].
  fold (br_aesctr_drbg_generate vt RAND_BUFFER ctx) in Eo, I'.
  unfold buffer_bytes. cbn [buffer_state]. rewrite Es. split; assumption.
Qed.

Lemma rand_new_inv seed : rand_inv seed 0 (RandGen_new seed) /\ rg_idx (RandGen_new seed) = 0%nat.
Proof.
  unfold RandGen_new.
  assert (I : drbg_inv (cls := vt) (E := AES) (buffer_state seed 0) (br_aesctr_drbg_init vt (br_enc64le seed))).
  { apply (update_inv aes_good (replicate 16 0) 0); [|done|by repeat (constructor; [apply w8_ok|])].
    apply ctr_init_keyed, aes_good; [by left|by apply Forall_replicate]. }
  destruct (generate_buffer seed 0 _ I) as [Eo I']. destruct (br_aesctr_drbg_generate vt RAND_BUFFER _) as [ctx b].
  split; [|reflexivity]. split; [assumption|]. split; [assumption|]. cbn [rg_idx]. lia.
Qed.

Lemma refill_inv seed k size g : rand_inv seed k g ->
  let far := (RAND_BUFFER - size <? rg_idx g)%nat in
  rand_inv seed (if far then S k else k) (refill size g) /\ rg_idx (refill size g) = if far then 0%nat else rg_idx g.
Proof.
  intros (I & Hb & Hi). unfold refill.
  destruct (RAND_BUFFER - size <? rg_idx g)%nat; cbv zeta; [|split; [split; [exact I|split; assumption]|reflexivity]].
  destruct (generate_buffer seed (S k) _ I) as [Eo I']. destruct (br_aesctr_drbg_generate vt RAND_BUFFER _) as [ctx b].
  split; [|reflexivity]. split; [assumption|]. split; [assumption|]. cbn [rg_idx]. lia.
Qed.

Lemma rand_step_spec op g : rand_step op g =
  (let g := refill (op_size op) g in
   (op_value op (rg_buffer g) (rg_idx g), mkRandGen (rg_ctx g) (rg_idx g + op_size op) (rg_buffer g))).
Proof. by destruct op. Qed.

Lemma op_size_bound op : (0 < op_size op <= 8)%nat.
Proof. destruct op; simpl; lia. Qed.

Lemma rand_run_spec seed ops : forall k g, rand_inv seed k g ->
  rand_run ops g = (fun p => op_value p.2 (buffer_bytes seed p.1.1) p.1.2) <$> positions ops k (rg_idx g).
Proof.
  pose proof RAND_BUFFER_eq as HB.
  induction ops as [|op ops IH]; intros k g I; cbn [rand_run positions]; [done|].
  rewrite rand_step_spec. destruct (refill_inv seed k (op_size op) g I) as [I' Ei].
  pose proof (op_size_bound op) as Hs. cbv zeta in *.
  assert (G : forall k' o, rand_inv seed k' (refill (op_size op) g) -> rg_idx (refill (op_size op) g) = o ->
    (o + op_size op <= RAND_BUFFER)%nat ->
    op_value op (rg_buffer (refill (op_size op) g)) o ::
      rand_run ops (mkRandGen (rg_ctx (refill (op_size op) g)) (o + op_size op) (rg_buffer (refill (op_size op) g))) =
    ((fun p => op_value p.2 (buffer_bytes seed p.1.1) p.1.2) <$> (k', o, op) :: positions ops k' (o + op_size op))).
  { intros k' o (J1 & J2 & _) _ Ho. rewrite fmap_cons. cbn [fst snd]. rewrite J2. f_equal.
    rewrite (IH k'); [reflexivity|]. split; [exact J1|]. split; [reflexivity|]. exact Ho. }
  destruct (Nat.ltb_spec (RAND_BUFFER - op_size op) (rg_idx g)) as [Hf|Hf]; rewrite Ei;
    apply G; try assumption; lia.
Qed.

(** The bytes of position [p] come before those of [q]. *)
Definition before (p q : nat * nat * rand_op) : Prop :=
  (p.1.1 < q.1.1)%nat \/ (p.1.1 = q.1.1 /\ p.1.2 + op_size p.2 <= q.1.2)%nat.

Lemma positions_sorted ops : forall k o,
  Forall (fun p => (p.1.2 + op_size p.2 <= RAND_BUFFER)%nat) (positions ops k o) /\
  Forall (fun p => (k < p.1.1)%nat \/ (k = p.1.1 /\ o <= p.1.2)%nat) (positions ops k o) /\
  StronglySorted before (positions ops k o).
Proof.
  pose proof RAND_BUFFER_eq as HB.
  induction ops as [|op ops IH]; intros k o; cbn [positions]; [split_and!; constructor|].
  pose proof (op_size_bound op) as Hs.
  destruct (Nat.ltb_spec (RAND_BUFFER - op_size op) o) as [Hf|Hf].
  - destruct (IH (S k) (op_size op)) as (H1 & H2 & H3). split_and!.
    + constructor; [cbn [fst snd]; lia|done].
    + constructor; [cbn [fst snd]; lia|]. eapply Forall_impl; [exact H2|]. cbv beta. lia.
    + constructor; [done|]. eapply Forall_impl; [exact H2|]. unfold before. cbn [fst snd]. lia.
  - destruct (IH k (o + op_size op)%nat) as (H1 & H2 & H3). split_and!.
    + constructor; [cbn [fst snd]; lia|done].
    + constructor; [cbn [fst snd]; lia|]. eapply Forall_impl; [exact H2|]. cbv beta. lia.
    + constructor; [done|]. eapply Forall_impl; [exact H2|]. unfold before. cbn [fst snd]. lia.
Qed.

(** ** Properties *)

(** Encryption and decryption of a buffer are inverse and authenticated.
    With a key, a nonce and a tag buffer of their sizes, encrypting the first
    [n] bytes of a source succeeds, writes [n] bytes of ciphertext and leaves
    the rest of the destination, and writes a 16-byte tag; decrypting the
    destination with the same key, nonce and additional data succeeds exactly
    when the first sixteen bytes of the given tag are that tag: then the
    plaintext comes back, otherwise the status is a MAC mismatch and the [n]
    bytes of the destination are zero. *)
Theorem sgxsd_aes_gcm_correct (c0 c0' : gcm_ctx) (key iv mac src aad dst dst' : bytes) (n m : nat) :
  length (gbuf c0) = 16%nat -> length (gbuf c0') = 16%nat -> gcm_args key iv mac src aad n m ->
  exists ct tag, length ct = n /\ length tag = 16%nat /\
  sgxsd_aes_gcm_run c0 true (Some key) (Some src) (Z.of_nat n) (Some dst) (Some iv) (Some aad) (Z.of_nat m) (Some mac)
  = (SGX_SUCCESS, Some (ct ++ drop n dst), Some (memcpy_at 0 tag mac)) /\
  forall mac', (16 <= length mac')%nat -> Forall byte_ok mac' ->
  sgxsd_aes_gcm_run c0' false (Some key) (Some (ct ++ drop n dst)) (Z.of_nat n) (Some dst') (Some iv)
    (Some aad) (Z.of_nat m) (Some mac')
  = if bool_decide (take 16 mac' = tag) then (SGX_SUCCESS, Some (take n src ++ drop n dst'), Some mac')
    else (SGX_ERROR_MAC_MISMATCH, Some (replicate n 0 ++ drop n dst'), Some mac').
Proof.
  intros Hg Hg' Ha. pose proof Ha as [Lk Ok Li Oi Lm Om Ls Os Hs La Hal].
  set (ct := gcm_cipher key iv (take n src)). exists ct, (gcm_mac key iv (take m aad) ct).
  assert (Lct : length ct = n) by (unfold ct, gcm_cipher; rewrite crypt_length, length_take; lia).
  split; [done|]. split; [unfold gcm_mac; apply tag_length|]. split; [by rewrite gcm_run_spec|].
  intros mac' Lm' Om'.
  assert (Oct : Forall byte_ok ct) by (apply (crypt_ok (cls := vt) (good := aes_key)); by apply Forall_take).
  assert (Hr : sgxsd_aes_gcm_run c0' false (Some key) (Some (ct ++ drop n dst)) (Z.of_nat n) (Some dst') (Some iv)
    (Some aad) (Z.of_nat m) (Some mac') = sgxsd_aes_gcm_run c0' false (Some key) (Some ct) (Z.of_nat n) (Some dst')
    (Some iv) (Some aad) (Z.of_nat m) (Some mac')).
  { unfold sgxsd_aes_gcm_run. cbn [is_null orb andb contents]. by rewrite Nat2Z.id, take_app_length', (take_ge ct) by lia. }
  rewrite Hr, gcm_run_spec; [|done|by split; try assumption; lia].
  assert (Hinv : gcm_cipher key iv ct = take n src) by (unfold ct, gcm_cipher; apply crypt_involutive).
  by rewrite (take_ge ct), Hinv by lia.
Qed.

Lemma sgxsd_aes_gcm_correct_witness :
  let key := replicate 32 1 in let iv := replicate 12 2 in let mac := replicate 16 0 in
  exists ct tag, length ct = 3%nat /\ length tag = 16%nat /\
  sgxsd_aes_gcm_run test_context true (Some key) (Some [7; 8; 9; 10]) (Z.of_nat 3) (Some [0; 0; 0; 5]) (Some iv)
    (Some [4]) (Z.of_nat 1) (Some mac) = (SGX_SUCCESS, Some (ct ++ drop 3 [0; 0; 0; 5]), Some (memcpy_at 0 tag mac)) /\
  forall mac', (16 <= length mac')%nat -> Forall byte_ok mac' ->
  sgxsd_aes_gcm_run test_context false (Some key) (Some (ct ++ drop 3 [0; 0; 0; 5])) (Z.of_nat 3) (Some [1; 1; 1]) (Some iv)
    (Some [4]) (Z.of_nat 1) (Some mac')
  = if bool_decide (take 16 mac' = tag) then (SGX_SUCCESS, Some (take 3 [7; 8; 9; 10] ++ drop 3 [1; 1; 1]), Some mac')
    else (SGX_ERROR_MAC_MISMATCH, Some (replicate 3 0 ++ drop 3 [1; 1; 1]), Some mac').
Proof.
  apply (sgxsd_aes_gcm_correct test_context test_context (replicate 32 1) (replicate 12 2) (replicate 16 0)
    [7; 8; 9; 10] [4] [0; 0; 0; 5] [1; 1; 1] 3 1).
  - reflexivity.
  - reflexivity.
  - split; try (apply bytes_ok_dec; reflexivity); vm_compute; first [reflexivity | lia].
Defined.

(** A call is refused exactly when a pointer that it needs is null: no
    key, no nonce, no tag, data of non-zero length without a source or a
    destination, or additional data of non-zero length without a pointer.  A
    refused call writes nothing. *)
Theorem sgxsd_aes_gcm_rejects (c0 : gcm_ctx) (enc : bool) (p_key p_src p_dst p_iv p_aad p_mac : option bytes)
    (src_len aad_len : Z) :
  let r := sgxsd_aes_gcm_run c0 enc p_key p_src src_len p_dst p_iv p_aad aad_len p_mac in
  (r.1.1 = SGX_ERROR_INVALID_PARAMETER <->
   p_key = None \/ ((p_src = None \/ p_dst = None) /\ src_len <> 0) \/ p_iv = None \/
   (p_aad = None /\ aad_len <> 0) \/ p_mac = None) /\
  (r.1.1 = SGX_ERROR_INVALID_PARAMETER -> r = (SGX_ERROR_INVALID_PARAMETER, p_dst, p_mac)).
Proof.
  assert (N : forall p : option bytes, is_null p = true <-> p = None) by (intros [?|]; simpl; split; congruence).
  unfold sgxsd_aes_gcm_run. destruct (is_null p_key || _ || _ || _ || _) eqn:Eb; cbn [fst snd].
  - split; [|done]. split; [|done]. intros _.
    rewrite !orb_true_iff, !andb_true_iff, orb_true_iff, !negb_true_iff, !N, !Z.eqb_neq in Eb. tauto.
  - assert (Hn : ~ (p_key = None \/ ((p_src = None \/ p_dst = None) /\ src_len <> 0) \/ p_iv = None \/
      (p_aad = None /\ aad_len <> 0) \/ p_mac = None)).
    { rewrite <-!N, <-!Z.eqb_neq, <-!negb_true_iff, <-orb_true_iff, <-!andb_true_iff, <-!orb_true_iff.
      rewrite !orb_assoc, Eb. done. }
    match goal with |- (?x = _ <-> _) /\ _ => assert (Hx : x <> SGX_ERROR_INVALID_PARAMETER) end.
    { destruct (if negb (src_len =? 0) then _ else _) as [c dst]. destruct (if enc then _ else _) as [mac tag].
      destruct tag; done. }
    split; [|done]. split; [done|]. intros H. done.
Qed.

(** The key is the constant followed by what lies after it in memory. *)
Definition stored_key (after_key : bytes) : Prop := length after_key = 16%nat /\ Forall byte_ok after_key.

Lemma stored_key_ok after_key : stored_key after_key ->
  (SGXSD_AES_GCM_KEY_SIZE <= length (KEY ++ after_key))%nat /\ Forall byte_ok (KEY ++ after_key).
Proof.
  intros [Lk Ok]. split; [rewrite length_app, Lk; done|]. apply Forall_app. split; [by apply Forall_replicate|done].
Qed.

Lemma memcpy_at_ok o src dst : Forall byte_ok src -> Forall byte_ok dst -> Forall byte_ok (memcpy_at o src dst).
Proof.
  intros Hs Hd. unfold memcpy_at. apply Forall_app. split; [by apply Forall_take|]. apply Forall_app. split; [done|by apply Forall_drop].
Qed.

Lemma w32_length (x : bytes) : Z.of_nat (length x) < 2 ^ 32 -> w32 (Z.of_nat (length x)) = Z.of_nat (length x).
Proof. intros Hx. apply wrap_small. split; lia. Qed.

(** What [FreshEncrypted] stores for [x]. *)
Definition fresh_cipher (after_key x iv : bytes) : bytes := gcm_cipher (KEY ++ after_key) iv x.
Definition fresh_mac (after_key x iv : bytes) : bytes := gcm_mac (KEY ++ after_key) iv [] (fresh_cipher after_key x iv).

Section fresh.
Context (after_key x iv : bytes).
Hypotheses (HK : stored_key after_key) (Ox : Forall byte_ok x) (Hx : Z.of_nat (length x) < 2 ^ 32)
  (Li : length iv = 12%nat) (Oi : Forall byte_ok iv).
Let key : bytes := KEY ++ after_key.
Let ct : bytes := fresh_cipher after_key x iv.
Let mac : bytes := fresh_mac after_key x iv.

Lemma fresh_args src m : Forall byte_ok src -> length src = length x -> (16 <= length m)%nat -> Forall byte_ok m ->
  gcm_args key iv m src [] (length x) 0.
Proof using HK Hx Li Oi.
  intros Os Hs Hm Om. destruct (stored_key_ok _ HK). split; try done; unfold SGXSD_AES_GCM_IV_SIZE; cbn [length]; lia.
Qed.

Lemma fresh_cipher_ok : length ct = length x /\ Forall byte_ok ct.
Proof using Ox. split; [apply crypt_length|by apply (crypt_ok (cls := vt) (good := aes_key))]. Qed.

Lemma fresh_mac_ok : length mac = 16%nat /\ Forall byte_ok mac.
Proof using Type. split; [apply tag_length|apply (tag_ok (cls := vt) (good := aes_key))]. Qed.

(** A null [p_aad] of length zero is an empty one. *)
Lemma gcm_run_no_aad c enc p n d i m : sgxsd_aes_gcm_run c enc (Some key) p n d i None 0 m =
  sgxsd_aes_gcm_run c enc (Some key) p n d i (Some []) (Z.of_nat 0) m.
Proof using Type. done. Qed.

(** Encryption stores the cipher text, and sixteen bytes of the tag. *)
Lemma FreshEncrypted_Encrypt_spec c0 (f : FreshEncrypted) : length (gbuf c0) = 16%nat ->
  length (fresh_data f) = length x -> (16 <= length (fresh_tag f))%nat -> Forall byte_ok (fresh_tag f) ->
  FreshEncrypted_Encrypt c0 after_key x iv f = mkFresh ct (memcpy_at 0 mac (fresh_tag f)).
Proof using HK Ox Hx Li Oi.
  intros Hg Lf Lt Ot. destruct fresh_cipher_ok as [Lct _].
  unfold FreshEncrypted_Encrypt, aes_256_gcm_encrypt. fold key.
  rewrite gcm_run_no_aad, w32_length, gcm_run_spec by (done || apply fresh_args; (done || lia)). cbn [contents].
  by rewrite (drop_ge (fresh_data f)), app_nil_r, firstn_all by lia.
Qed.

(** Decryption aborts unless the first sixteen bytes of the tag are right. *)
Lemma FreshEncrypted_Decrypt_spec c0 t out : length (gbuf c0) = 16%nat -> length out = length x ->
  (16 <= length t)%nat -> Forall byte_ok t ->
  FreshEncrypted_Decrypt c0 after_key iv (mkFresh ct t) out = if bool_decide (take 16 t = mac) then Some x else None.
Proof using HK Ox Hx Li Oi.
  intros Hg Lo Hl Ho. destruct fresh_cipher_ok as [Lct Oct].
  unfold FreshEncrypted_Decrypt, aes_256_gcm_decrypt. fold key. cbn [fresh_data fresh_tag].
  rewrite gcm_run_no_aad, Lo, w32_length, gcm_run_spec by (done || apply fresh_args; (done || lia)).
  assert (Hinv : gcm_cipher key iv ct = x) by (unfold ct, fresh_cipher, gcm_cipher; apply crypt_involutive).
  rewrite (take_ge ct), Hinv by lia. change (take 0 []) with ([] : bytes). fold mac.
  case_bool_decide as Ht; unfold mac, fresh_mac in Ht; fold ct key in Ht; cbn [contents].
  - rewrite !bool_decide_eq_true_2 by done. by rewrite (drop_ge out), app_nil_r by lia.
  - by rewrite !bool_decide_eq_false_2 by done.
Qed.
End fresh.

(** Counter mode under the nonce that encryption drew. *)
Lemma Encrypted_round_trip (after_key rnd x out : bytes) (e : Encrypted) : stored_key after_key ->
  length rnd = 16%nat -> Forall byte_ok rnd -> Forall byte_ok x -> length out = length x -> Z.of_nat (length x) < 2 ^ 32 ->
  length (enc_data e) = length x -> length (enc_iv e) = 32%nat -> Forall byte_ok (enc_iv e) ->
  Encrypted_Decrypt after_key (Encrypted_Encrypt after_key rnd x e) out = x.
Proof.
  intros HK Lr Or Ox Lo Hx Le Liv Oiv. destruct (stored_key_ok _ HK) as [LK OK]. set (key := KEY ++ after_key) in *.
  unfold Encrypted_Decrypt, Encrypted_Encrypt, aes_256_ctr_decrypt, aes_256_ctr_encrypt. cbn [enc_data enc_iv].
  set (iv' := memcpy_at 0 rnd (enc_iv e)).
  assert (Liv' : (12 <= length iv')%nat) by (unfold iv'; rewrite memcpy_at_length; lia).
  assert (Oiv' : Forall byte_ok iv') by (by apply memcpy_at_ok).
  fold key. rewrite Lo, w32_length, (ctr_run_spec key iv' x) by done. cbn [snd contents].
  rewrite (drop_ge (enc_data e)), app_nil_r, firstn_all by lia.
  rewrite ctr_run_spec; [|done|done|done|done|]. 2: { apply xor_stream_ok; [|done]. intros i. apply byte_at_ok, storeu_ok. }
  cbn [contents snd]. rewrite (drop_ge out), app_nil_r by lia.
  rewrite take_ge by (unfold ctr_cipher; rewrite xor_stream_length; lia). apply xor_stream_involutive.
Qed.

(** C36: The encrypted wrappers give the value back.  A value of any size below
    4 GiB, encrypted into a wrapper of its size, decrypts to itself: in
    counter mode under the nonce drawn at encryption, and in GCM under the
    nonce that the caller kept, where a wrapper whose tag differs in its first
    sixteen bytes makes decryption abort.  The bytes that memory holds behind
    the 16-byte key constant take part in the key, and must not change. *)
Theorem encrypted_round_trip (c0 c0' : gcm_ctx) (after_key rnd x out iv : bytes) (e : Encrypted) (f : FreshEncrypted)
    (tag' : bytes) :
  length after_key = 16%nat -> Forall byte_ok after_key -> length rnd = 16%nat -> Forall byte_ok rnd ->
  Forall byte_ok x -> length out = length x -> Z.of_nat (length x) < 2 ^ 32 ->
  length (enc_data e) = length x -> length (enc_iv e) = 32%nat -> Forall byte_ok (enc_iv e) ->
  length (fresh_data f) = length x -> length (fresh_tag f) = 32%nat -> Forall byte_ok (fresh_tag f) ->
  length iv = 12%nat -> Forall byte_ok iv -> length (gbuf c0) = 16%nat -> length (gbuf c0') = 16%nat ->
  (16 <= length tag')%nat -> Forall byte_ok tag' ->
  Encrypted_Decrypt after_key (Encrypted_Encrypt after_key rnd x e) out = x /\
  let f' := FreshEncrypted_Encrypt c0 after_key x iv f in
  FreshEncrypted_Decrypt c0' after_key iv f' out = Some x /\
  (take 16 tag' <> take 16 (fresh_tag f') ->
   FreshEncrypted_Decrypt c0' after_key iv (mkFresh (fresh_data f') tag') out = None).
Proof.
  intros Lk Ok Lr Or Ox Lo Hx Le Liv Oiv Lf Lt Ot Li Oi Hg Hg' Lt' Ot'. assert (HK : stored_key after_key) by done.
  destruct (fresh_mac_ok after_key x iv) as [LT OT]. split; [by apply Encrypted_round_trip|].
  cbv zeta. rewrite (FreshEncrypted_Encrypt_spec after_key x iv) by (done || lia). cbn [fresh_data fresh_tag].
  set (mac := fresh_mac after_key x iv) in *.
  assert (Htg : take 16 (memcpy_at 0 mac (fresh_tag f)) = mac) by (rewrite <-LT; apply (memcpy_at_take 0 mac); lia). split.
  - rewrite FreshEncrypted_Decrypt_spec; [|done..|rewrite memcpy_at_length; lia|by apply memcpy_at_ok]. by rewrite bool_decide_eq_true_2.
  - rewrite Htg. intros Hne. rewrite FreshEncrypted_Decrypt_spec by done. by rewrite bool_decide_eq_false_2.
Qed.

Lemma encrypted_round_trip_witness :
  let ak := replicate 16 3 in let x := [1; 2; 3] in
  let e := mkEncrypted [0; 0; 0] (replicate 32 0) in let f := mkFresh [0; 0; 0] (replicate 32 0) in
  Encrypted_Decrypt ak (Encrypted_Encrypt ak (replicate 16 8) x e) [9; 9; 9] = x /\
  let f' := FreshEncrypted_Encrypt test_context ak x (replicate 12 4) f in
  FreshEncrypted_Decrypt test_context ak (replicate 12 4) f' [9; 9; 9] = Some x /\
  (take 16 (replicate 16 77) <> take 16 (fresh_tag f') ->
   FreshEncrypted_Decrypt test_context ak (replicate 12 4) (mkFresh (fresh_data f') (replicate 16 77)) [9; 9; 9] = None).
Proof.
  apply (encrypted_round_trip test_context test_context (replicate 16 3) (replicate 16 8) [1; 2; 3] [9; 9; 9]
    (replicate 12 4) (mkEncrypted [0; 0; 0] (replicate 32 0)) (mkFresh [0; 0; 0] (replicate 32 0)) (replicate 16 77));
    try reflexivity; try (apply bytes_ok_dec; reflexivity); vm_compute; lia.
Defined.

(** C37: The random generator never reads outside its buffer and never uses a
    byte twice.  For every seed and every sequence of requests for 64 bits, 32
    bits or one bit, the answers are the values at a sequence of positions in
    the consecutive 4096-byte buffers of the abstract AES-CTR generator; each
    position lies inside its buffer, and the bytes of each come strictly
    before those of the next. *)
Theorem randgen_stream (seed : Z) (ops : list rand_op) :
  let ps := positions ops 0 0 in
  rand_run ops (RandGen_new seed) = (fun p => op_value p.2 (buffer_bytes seed p.1.1) p.1.2) <$> ps /\
  Forall (fun p => (p.1.2 + op_size p.2 <= RAND_BUFFER)%nat) ps /\ StronglySorted before ps.
Proof.
  destruct (rand_new_inv seed) as [I Ei]. destruct (positions_sorted ops 0 0) as (H1 & _ & H3).
  cbv zeta. split; [|exact (conj H1 H3)]. rewrite (rand_run_spec seed ops 0 _ I), Ei. reflexivity.
Qed.
