(* ===== verification/Allocator.v ===== *)
(** * The allocator of the page server (serverAllocator.hpp)

    [LargeBlockAllocator]: best fit in a sorted list of free blocks, and
    coalescing when a block is freed. *)
From S2P Require Import Prelude.
From stdpp Require Import relations.
Local Open Scope Z_scope.

Record AllocatorSlot := mkSlot { base : Z; slotSize : Z }.

(** The loop that looks for the smallest block that is large enough;
    [bestSize] starts at the largest [uint64_t]. *)
Fixpoint bestFit (i : nat) (l : list AllocatorSlot) (want : Z) (bestIdx : option nat) (bestSize : Z) : option nat :=
  match l with
  | [] => bestIdx
  | s :: l =>
      if (want <=? slotSize s) && (slotSize s <? bestSize) then
        if slotSize s =? want then Some i else bestFit (S i) l want (Some i) (slotSize s)
      else bestFit (S i) l want bestIdx bestSize
  end.

(** The slot, and the free list without it; [None] is [abort()]. *)
Definition Allocate (want : Z) (freeList : list AllocatorSlot) : option (AllocatorSlot * list AllocatorSlot) :=
  i ← bestFit 0 freeList want None (2 ^ 64 - 1);
  s ← freeList !! i;
  let rest := mkSlot (base s + want) (slotSize s - want) in
  Some (mkSlot (base s) want, if slotSize rest =? 0 then delete i freeList else <[i := rest]> freeList).

(** The loop that swaps [tmp] with every block of a larger base. *)
Fixpoint insertPass (tmp : AllocatorSlot) (l : list AllocatorSlot) : list AllocatorSlot * AllocatorSlot :=
  match l with
  | [] => ([], tmp)
  | s :: l =>
      let '(x, tmp) := if base tmp <? base s then (tmp, s) else (s, tmp) in
      let '(l, tmp) := insertPass tmp l in (x :: l, tmp)
  end.

(** [k] rounds of the coalescing loop, from [i] on; the coalesced blocks are
    those up to [j]. *)
Fixpoint coalesce (k i j : nat) (l : list AllocatorSlot) : list AllocatorSlot :=
  match k, l !! j, l !! i with
  | S k, Some x, Some y =>
      if base x + slotSize x =? base y then coalesce k (S i) j (<[j := mkSlot (base x) (slotSize x + slotSize y)]> l)
      else coalesce k (S i) (S j) (if (i =? S j)%nat then l else <[S j := y]> l)
  | _, _, _ => take (S j) l
  end.

Definition Free (slot : AllocatorSlot) (freeList : list AllocatorSlot) : list AllocatorSlot :=
  if slotSize slot =? 0 then freeList else
  let '(l, tmp) := insertPass slot freeList in
  let l := l ++ [tmp] in coalesce (length l - 1) 1 0 l.

(** ** The steps of the allocator and its users *)

(** The free list, and the slots that are in use. *)
Inductive astep : list AllocatorSlot * list AllocatorSlot -> list AllocatorSlot * list AllocatorSlot -> Prop :=
  | step_allocate want s free free' live :
      0 <= want < 2 ^ 64 -> Allocate want free = Some (s, free') -> astep (free, live) (free', s :: live)
  | step_free s free live live' : live ≡ₚ s :: live' -> astep (free, live) (Free s free, live').

(** ** Addresses *)

Definition ends (s : AllocatorSlot) : Z := base s + slotSize s.
Definition contains (z : Z) (s : AllocatorSlot) : Prop := base s <= z < ends s.
#[export] Instance contains_dec z s : Decision (contains z s).
Proof. unfold contains. apply _. Defined.

(** How many slots hold an address. *)
Definition cnt (z : Z) (l : list AllocatorSlot) : nat := length (filter (contains z) l).

#[export] Instance cnt_perm z : Proper ((≡ₚ) ==> (=)) (cnt z).
Proof. intros l k H. unfold cnt. by rewrite H. Qed.

Lemma cover_cons z s l : cnt z (s :: l) = ((if decide (contains z s) then 1 else 0) + cnt z l)%nat.
Proof. unfold cnt. rewrite filter_cons. by destruct (decide (contains z s)). Qed.

Lemma cover_app z l k : cnt z (l ++ k) = (cnt z l + cnt z k)%nat.
Proof. unfold cnt. by rewrite filter_app, length_app. Qed.

Lemma cnt_in z s l : s ∈ l -> contains z s -> (1 <= cnt z l)%nat.
Proof. intros [k ->]%elem_of_Permutation Hz. rewrite cover_cons, decide_True by done. lia. Qed.

(** Two parts of a slot hold its addresses. *)
Lemma cnt_split z b m n l : 0 <= m -> 0 <= n ->
  cnt z (mkSlot b (m + n) :: l) = cnt z (mkSlot b m :: mkSlot (b + m) n :: l).
Proof.
  intros Hm Hn. rewrite !cover_cons. unfold contains, ends. cbn [base slotSize].
  destruct (decide (b <= z < b + (m + n))), (decide (b <= z < b + m)), (decide (b + m <= z < b + m + n)); lia.
Qed.

Lemma cnt_empty z b l : cnt z (mkSlot b 0 :: l) = cnt z l.
Proof. rewrite cover_cons. unfold contains, ends. cbn [base slotSize]. rewrite decide_False by lia. done. Qed.

(** ** Best fit *)

Lemma bestFit_spec want l : forall pre best bestSize,
  (forall i, best = Some i -> exists s, (pre ++ l) !! i = Some s /\ want <= slotSize s) -> want <= bestSize ->
  Forall (fun s => slotSize s < 2 ^ 64 - 1) l -> (best = None -> bestSize = 2 ^ 64 - 1) ->
  match bestFit (length pre) l want best bestSize with
  | Some i => exists s, (pre ++ l) !! i = Some s /\ want <= slotSize s
  | None => best = None /\ Forall (fun s => slotSize s < want) l
  end.
Proof.
  induction l as [|s l IH]; intros pre best bestSize Hb Hw Hl Hn; cbn [bestFit].
  - destruct best as [i|]; [by apply Hb|done].
  - apply Forall_cons in Hl as [Hs Hl]. assert (Happ : pre ++ s :: l = (pre ++ [s]) ++ l) by (by rewrite <-app_assoc).
    assert (Hat : (pre ++ s :: l) !! length pre = Some s) by (by rewrite list_lookup_middle).
    assert (Hlen : length (pre ++ [s]) = S (length pre)) by (rewrite length_app; simpl; lia).
    destruct (Z.leb_spec want (slotSize s)) as [H1|H1]; cbn [andb].
    + destruct (Z.ltb_spec (slotSize s) bestSize) as [H2|H2].
      * destruct (Z.eqb_spec (slotSize s) want); [by exists s|].
        specialize (IH (pre ++ [s]) (Some (length pre)) (slotSize s)). rewrite Hlen, <-Happ in IH.
        destruct (bestFit _ _ _ _ _) as [i|] eqn:E; [apply IH; try done; by intros ? [= <-]; exists s|].
        destruct IH as [? _]; [by intros ? [= <-]; exists s|done|done|done|done].
      * specialize (IH (pre ++ [s]) best bestSize). rewrite Hlen, <-Happ in IH. destruct (bestFit _ _ _ _ _) as [i|]; [by apply IH|].
        destruct IH as [E _]; [done..|]. specialize (Hn E). lia.
    + specialize (IH (pre ++ [s]) best bestSize). rewrite Hlen, <-Happ in IH. destruct (bestFit _ _ _ _ _) as [i|]; [by apply IH|].
      destruct IH as [E Hf]; [done..|]. split; [done|]. by constructor.
Qed.

(** ** The free list *)

Definition before (s t : AllocatorSlot) : Prop := ends s <= base t.
Definition apart (s t : AllocatorSlot) : Prop := ends s < base t.
Definition pos (s : AllocatorSlot) : Prop := 0 < slotSize s.

(** Blocks of a sorted list without common addresses follow each other. *)
Lemma sorted_before l : StronglySorted (fun s t => base s < base t) l -> Forall pos l -> (forall z, (cnt z l <= 1)%nat) ->
  StronglySorted before l.
Proof.
  induction 1 as [|s l _ IH Hf]; intros Hp Hc; [constructor|]. apply Forall_cons in Hp as [Hs Hp]. constructor.
  - apply IH; [done|]. intros z. specialize (Hc z). rewrite cover_cons in Hc. lia.
  - rewrite Forall_forall in *. intros t Ht. specialize (Hf t Ht). specialize (Hp t Ht). unfold before.
    destruct (Z.le_gt_cases (ends s) (base t)) as [?|Hgt]; [done|]. exfalso. specialize (Hc (base t)).
    rewrite cover_cons, decide_True in Hc by (unfold contains; lia).
    assert (1 <= cnt (base t) l)%nat; [|lia]. apply (cnt_in _ t); [done|]. unfold contains, ends, pos in *. lia.
Qed.

Lemma insertPass_spec l : forall tmp, StronglySorted (fun s t => base s < base t) l -> Forall (fun s => base s <> base tmp) l ->
  let '(l', tmp') := insertPass tmp l in
  l' ++ [tmp'] ≡ₚ tmp :: l /\ StronglySorted (fun s t => base s < base t) (l' ++ [tmp']).
Proof.
  induction l as [|s l IH]; intros tmp Hs Hne; cbn [insertPass]; [split; [done|by repeat constructor]|].
  inversion_clear Hs as [|? ? Hs' Hf]. apply Forall_cons in Hne as [Hst Hne]. rewrite Forall_forall in Hf.
  destruct (Z.ltb_spec (base tmp) (base s)) as [Hlt|Hge].
  - specialize (IH s Hs'). destruct (insertPass s l) as [l' tmp']. destruct IH as [Hp Hsort].
    { apply Forall_forall. intros t Ht. specialize (Hf t Ht). lia. }
    cbn [app]. split; [by rewrite Hp|]. constructor; [done|]. rewrite Hp. constructor; [done|].
    apply Forall_forall. intros t Ht. specialize (Hf t Ht). lia.
  - specialize (IH tmp Hs' Hne). destruct (insertPass tmp l) as [l' tmp']. destruct IH as [Hp Hsort].
    cbn [app]. split; [rewrite Hp; apply Permutation_swap|]. constructor; [done|]. rewrite Hp. constructor; [lia|].
    by apply Forall_forall.
Qed.

(** Coalescing, block by block. *)
Fixpoint squash (x : AllocatorSlot) (l : list AllocatorSlot) : list AllocatorSlot :=
  match l with
  | [] => [x]
  | y :: l => if ends x =? base y then squash (mkSlot (base x) (slotSize x + slotSize y)) l else x :: squash y l
  end.

Lemma coalesce_squash k : forall i j l x, (i + k = length l)%nat -> (j < i)%nat -> l !! j = Some x ->
  coalesce k i j l = take j l ++ squash x (drop i l).
Proof.
  induction k as [|k IH]; intros i j l x Hk Hj Hx; cbn [coalesce].
  - rewrite drop_ge by lia. cbn [squash]. by apply take_S_r.
  - destruct (lookup_lt_is_Some_2 l i) as [y Hy]; [lia|]. rewrite Hx, Hy, (drop_S _ _ _ Hy). cbn [squash]. fold (ends x).
    destruct (ends x =? base y).
    + rewrite (IH _ _ _ (mkSlot (base x) (slotSize x + slotSize y))); [|rewrite length_insert; lia|lia|].
      * rewrite take_insert_ge, drop_insert_lt by lia. done.
      * apply list_lookup_insert_eq. by eapply lookup_lt_Some.
    + destruct (Nat.eqb_spec i (S j)) as [->|Hne].
      * rewrite (IH _ _ _ y) by (done || lia). rewrite (take_S_r _ _ _ Hx), <-app_assoc. done.
      * rewrite (IH _ _ _ y); [|rewrite length_insert; lia|lia|apply list_lookup_insert_eq; lia].
        rewrite drop_insert_lt, take_insert_ge, (take_S_r _ _ _ Hx), <-app_assoc by lia. done.
Qed.

Lemma squash_spec l : forall x, StronglySorted before (x :: l) -> Forall pos (x :: l) ->
  (forall z, cnt z (squash x l) = cnt z (x :: l)) /\ StronglySorted apart (squash x l) /\ Forall pos (squash x l) /\
  Forall (fun s => base x <= base s) (squash x l).
Proof.
  induction l as [|y l IH]; intros x Hs Hp; cbn [squash].
  - apply Forall_cons in Hp as [Hp _]. split_and!; [done|by repeat constructor|by constructor|by constructor].
  - inversion_clear Hs as [|? ? Hs' Hx]. apply Forall_cons in Hp as [Hpx Hp]. apply Forall_cons in Hx as [Hxy Hxl].
    pose proof Hp as Hp'. apply Forall_cons in Hp' as [Hpy Hpl].
    unfold before, ends, pos in Hxy, Hpx, Hpy. destruct (Z.eqb_spec (ends x) (base y)) as [E|Hne]; unfold ends in E || unfold ends in Hne.
    + destruct (IH (mkSlot (base x) (slotSize x + slotSize y))) as (H1 & H2 & H3 & H4).
      * inversion_clear Hs' as [|? ? Hs'' Hy]. constructor; [done|]. eapply Forall_impl; [exact Hy|]. unfold before, ends. cbn. lia.
      * constructor; [unfold pos; cbn; lia|done].
      * split_and!; [|done|done|done]. intros z. rewrite H1, cnt_split by lia. rewrite E. by destruct x, y.
    + destruct (IH y Hs' Hp) as (H1 & H2 & H3 & H4). split_and!.
      * intros z. rewrite !cover_cons, H1. by rewrite cover_cons.
      * constructor; [done|]. eapply Forall_impl; [exact H4|]. unfold apart, ends. cbn. lia.
      * by constructor.
      * constructor; [lia|]. eapply Forall_impl; [exact H4|]. cbn. lia.
Qed.

(** What a free list is. *)
Record free_ok (l : list AllocatorSlot) : Prop := {
  free_pos : Forall pos l;
  free_apart : StronglySorted apart l }.

Lemma apart_base l : Forall pos l -> StronglySorted apart l -> StronglySorted (fun s t => base s < base t) l.
Proof.
  intros Hp. induction 1 as [|s l _ IH Hf]; [constructor|]. apply Forall_cons in Hp as [Hs Hp]. constructor; [by apply IH|].
  eapply Forall_impl; [exact Hf|]. unfold apart, ends, pos in *. cbn. lia.
Qed.

Lemma Free_spec s l : free_ok l -> 0 <= slotSize s -> (forall z, (cnt z (s :: l) <= 1)%nat) ->
  free_ok (Free s l) /\ forall z, cnt z (Free s l) = cnt z (s :: l).
Proof.
  intros [Hp Ha] Hs Hc. unfold Free. destruct (Z.eqb_spec (slotSize s) 0) as [E|Hne].
  { split; [done|]. intros z. destruct s as [b n]. cbn in E. subst n. by rewrite cnt_empty. }
  pose proof (insertPass_spec l s (apart_base l Hp Ha)) as HI. destruct (insertPass s l) as [l' tmp]. destruct HI as [HP HS].
  { rewrite Forall_forall in *. intros t Ht E. specialize (Hc (base t)). specialize (Hp t Ht). unfold pos in Hp.
    rewrite cover_cons, decide_True in Hc by (unfold contains, ends; lia).
    assert (1 <= cnt (base t) l)%nat; [|lia]. apply (cnt_in _ t); [done|]. unfold contains, ends. lia. }
  cbv zeta. assert (Hpos : Forall pos (l' ++ [tmp])) by (rewrite HP; constructor; [unfold pos; lia|done]).
  assert (Hbef : StronglySorted before (l' ++ [tmp])) by (apply sorted_before; [done|done|intros z; by rewrite HP]).
  destruct (l' ++ [tmp]) as [|x r] eqn:E; [by destruct l'|].
  rewrite (coalesce_squash _ 1 0 (x :: r) x) by (done || (simpl; lia)). cbn [take app drop].
  destruct (squash_spec r x Hbef Hpos) as (H1 & H2 & H3 & _). split; [by split|]. intros z. by rewrite H1, HP.
Qed.

Lemma insert_at {A} (l1 l2 : list A) x y : <[length l1 := y]> (l1 ++ x :: l2) = l1 ++ y :: l2.
Proof. rewrite insert_app_r_alt by done. by rewrite Nat.sub_diag. Qed.

Lemma Allocate_spec want l : free_ok l -> 0 <= want < 2 ^ 64 -> Forall (fun s => slotSize s < 2 ^ 64 - 1) l ->
  match Allocate want l with
  | Some (s, l') => slotSize s = want /\ free_ok l' /\ (exists t, t ∈ l /\ base s = base t /\ want <= slotSize t) /\
      forall z, cnt z (s :: l') = cnt z l
  | None => Forall (fun s => slotSize s < want) l
  end.
Proof.
  intros [Hp Ha] Hw Hmax. unfold Allocate.
  pose proof (bestFit_spec want l [] None (2 ^ 64 - 1) ltac:(done) ltac:(lia) Hmax ltac:(done)) as HB. cbn [length app] in HB.
  destruct (bestFit 0 l want None (2 ^ 64 - 1)) as [i|]; [|by apply HB].
  destruct HB as (t & Ht & Hwt). cbn [mbind option_bind]. rewrite Ht. cbn [mbind option_bind slotSize].
  apply list_elem_of_split_length in Ht as (l1 & l2 & -> & ->).
  apply Forall_app in Hp as [Hp1 Hp2]. apply Forall_cons in Hp2 as [Hpt Hp2].
  apply StronglySorted_app_iff in Ha as (Ha1 & Ha2 & Ha3). inversion_clear Ha2 as [|? ? Ha2' Hat].
  assert (Hin : t ∈ l1 ++ t :: l2) by set_solver.
  destruct (Z.eqb_spec (slotSize t - want) 0) as [E|Hne]; (split; [done|]; split; [split|split; [by exists t|]]).
  - rewrite delete_middle. by apply Forall_app.
  - rewrite delete_middle. apply StronglySorted_app_iff. split_and!; [done|done|]. intros x y Hx Hy. apply Ha3; set_solver.
  - intros z. rewrite delete_middle, <-Permutation_middle. assert (want = slotSize t) as -> by lia. by destruct t.
  - rewrite insert_at. apply Forall_app. split; [done|]. constructor; [|done]. unfold pos in *. cbn. lia.
  - rewrite insert_at. apply StronglySorted_app_iff. split_and!; [done| |].
    + constructor; [done|]. eapply Forall_impl; [exact Hat|]. unfold apart, ends. cbn. lia.
    + intros x y Hx [->|Hy]%elem_of_cons; [|apply Ha3; set_solver]. specialize (Ha3 x t Hx ltac:(set_solver)).
      unfold apart, ends in *. cbn. lia.
  - intros z. rewrite insert_at, <-!Permutation_middle, <-cnt_split by lia. replace (want + (slotSize t - want)) with (slotSize t) by lia. by destruct t.
Qed.

(** ** Every sequence of steps *)

(** Every address below [total] is in exactly one slot, free or in use. *)
Record alloc_ok (total : Z) (st : list AllocatorSlot * list AllocatorSlot) : Prop := {
  alloc_free : free_ok st.1;
  alloc_live : Forall (fun s => 0 <= slotSize s) st.2;
  alloc_once : forall z, cnt z (st.1 ++ st.2) = if decide (0 <= z < total) then 1%nat else 0%nat }.

Lemma alloc_bounds total st s : alloc_ok total st -> s ∈ st.1 ++ st.2 -> 0 < slotSize s -> 0 <= base s /\ ends s <= total.
Proof.
  intros [_ _ H] Hs Hp. unfold ends.
  assert (Hz : forall z, contains z s -> 0 <= z < total).
  { intros z Hz. pose proof (cnt_in z s _ Hs Hz) as Hc. rewrite H in Hc. destruct (decide (0 <= z < total)); [done|lia]. }
  pose proof (Hz (base s)) as H1. pose proof (Hz (base s + slotSize s - 1)) as H2. unfold contains, ends in *. lia.
Qed.

Lemma alloc_small total st : total < 2 ^ 64 - 1 -> alloc_ok total st -> Forall (fun s => slotSize s < 2 ^ 64 - 1) st.1.
Proof.
  intros Ht H. apply Forall_forall. intros s Hs. destruct (decide (0 < slotSize s)); [|lia].
  destruct (alloc_bounds total st s H) as [? ?]; [set_solver|done|]. unfold ends in *. lia.
Qed.

Lemma astep_ok total st st' : total < 2 ^ 64 - 1 -> alloc_ok total st -> astep st st' -> alloc_ok total st'.
Proof.
  intros Ht Hok Hstep. pose proof (alloc_small _ _ Ht Hok) as Hsmall. destruct Hok as [Hf Hl Hc].
  destruct Hstep as [want s free free' live Hw E|s free live live' Hp]; cbn [fst snd] in *.
  - pose proof (Allocate_spec want free Hf Hw Hsmall) as HA. rewrite E in HA. destruct HA as (Hs & Hf' & _ & Hcnt).
    split; cbn [fst snd]; [done|constructor; [lia|done]|]. intros z. rewrite <-Hc, !cover_app, <-Hcnt, !cover_cons. lia.
  - assert (Hc' : forall z, cnt z (free ++ s :: live') = if decide (0 <= z < total) then 1%nat else 0%nat) by (intros z; rewrite <-Hp; apply Hc).
    clear Hc. rename Hc' into Hc. rewrite Hp in Hl. apply Forall_cons in Hl as [Hs Hl].
    destruct (Free_spec s free Hf Hs) as [Hf' Hcnt].
    { intros z. specialize (Hc z). rewrite cover_app, cover_cons in Hc. rewrite cover_cons. destruct (decide (0 <= z < total)); lia. }
    split; cbn [fst snd]; [done|done|]. intros z. rewrite <-Hc, !cover_app, Hcnt, !cover_cons. lia.
Qed.

Lemma initial_ok total : 0 < total -> alloc_ok total ([mkSlot 0 total], []).
Proof.
  intros Ht. split; cbn [fst snd app].
  - split; [by repeat constructor|by repeat constructor].
  - constructor.
  - intros z. rewrite cover_cons. unfold contains, ends. cbn [base slotSize]. change (cnt z []) with 0%nat.
    destruct (decide (0 <= z < 0 + total)), (decide (0 <= z < total)); lia.
Qed.

(** A free list that covers everything is a single block. *)
Lemma all_free total l : 0 < total -> free_ok l -> (forall z, cnt z l = if decide (0 <= z < total) then 1%nat else 0%nat) ->
  l = [mkSlot 0 total].
Proof.
  intros Ht [Hp Ha] Hc. destruct l as [|s l]; [specialize (Hc 0); by rewrite decide_True in Hc by lia|].
  apply Forall_cons in Hp as [Hs Hp]. inversion_clear Ha as [|? ? Ha' Hf]. rewrite Forall_forall in Hf. unfold pos, apart, ends in *.
  assert (Hno : forall z, cnt z l <> 0%nat -> base s + slotSize s < z).
  { intros z Hz. destruct (filter (contains z) l) as [|t r] eqn:E; [unfold cnt in Hz; by rewrite E in Hz|].
    assert (t ∈ filter (contains z) l) as [Hz' Hin]%list_elem_of_filter by (rewrite E; left).
    specialize (Hf t Hin). unfold contains in Hz'. lia. }
  assert (Hb : forall z, ((if decide (base s <= z < base s + slotSize s)%Z then 1 else 0) + cnt z l = if decide (0 <= z < total)%Z then 1 else 0)%nat).
  { intros z. rewrite <-Hc, cover_cons. done. }
  assert (Hbase : base s = 0).
  { pose proof (Hb (base s)) as H1. pose proof (Hb 0) as H2. pose proof (Hno 0) as H3.
    destruct (decide (base s <= base s < base s + slotSize s)); [|lia]. destruct (decide (0 <= base s < total)); [|lia].
    destruct (decide (0 <= 0 < total)); [|lia]. destruct (decide (base s <= 0 < base s + slotSize s)); [lia|].
    assert (cnt 0 l <> 0%nat) by lia. specialize (H3 H). lia. }
  assert (Hend : slotSize s = total).
  { pose proof (Hb (base s + slotSize s - 1)) as H1. pose proof (Hb (base s + slotSize s)) as H2. pose proof (Hno (base s + slotSize s)) as H3.
    destruct (decide (base s <= base s + slotSize s - 1 < base s + slotSize s)); [|lia].
    destruct (decide (0 <= base s + slotSize s - 1 < total)); [|lia].
    destruct (decide (base s <= base s + slotSize s < base s + slotSize s)); [lia|].
    destruct (decide (0 <= base s + slotSize s < total)); [|lia]. assert (cnt (base s + slotSize s) l <> 0%nat) by lia. specialize (H3 H). lia. }
  destruct l as [|t l]; [destruct s; cbn in *; by subst|]. exfalso. apply Forall_cons in Hp as [Hpt _].
  pose proof (Hb (base t)) as H1. rewrite cover_cons, (decide_True (P := contains (base t) t)) in H1 by (unfold contains, ends; lia).
  specialize (Hf t ltac:(left)). destruct (decide (0 <= base t < total)); [lia|].
  destruct (decide (base s <= base t < base s + slotSize s)); lia.
Qed.

(** C21: the allocator of the page server is safe and loses nothing.  From a
    free store of [total] bytes, after any sequence of allocations and of
    frees of slots in use, a slot in use lies in the store and shares no
    address with a free block or another slot; an allocation aborts exactly when
    no free block is large enough; and when no slot with bytes is in use the
    free list is the whole store in one block. *)
Theorem allocator_safe total free live : 0 < total < 2 ^ 64 - 1 -> rtc astep ([mkSlot 0 total], []) (free, live) ->
  (forall s, s ∈ live -> 0 < slotSize s -> 0 <= base s /\ ends s <= total) /\
  (forall s t rest, free ++ live ≡ₚ s :: t :: rest -> forall z, ~ (contains z s /\ contains z t)) /\
  (forall want, 0 <= want < 2 ^ 64 -> Allocate want free = None <-> Forall (fun s => slotSize s < want) free) /\
  (Forall (fun s => slotSize s = 0) live -> free = [mkSlot 0 total]).
Proof.
  intros Ht Hreach. assert (Hok : alloc_ok total (free, live)).
  { remember (free, live) as st eqn:E. clear E. revert Hreach. apply (rtc_ind_r (alloc_ok total)); [apply initial_ok; lia|].
    intros st1 st2 _ Hstep IH. eapply astep_ok; [lia|exact IH|exact Hstep]. }
  pose proof (alloc_small total _ ltac:(lia) Hok) as Hsmall. cbn [fst snd] in Hsmall. split_and!.
  - intros s Hs Hp. apply (alloc_bounds total (free, live)); [done|cbn; set_solver|done].
  - intros s t rest Hp z [Hs Hz]. pose proof (alloc_once _ _ Hok z) as Hc. cbn [fst snd] in Hc.
    rewrite Hp, !cover_cons, !decide_True in Hc by done. destruct (decide _); lia.
  - intros want Hw. pose proof (Allocate_spec want free (alloc_free _ _ Hok) Hw Hsmall) as HA.
    destruct (Allocate want free) as [[s l']|]; [|done]. split; [done|]. intros Hf.
    destruct HA as (_ & _ & (t & Hin & _ & Hle) & _). rewrite Forall_forall in Hf. specialize (Hf t Hin). lia.
  - intros Hz. apply all_free; [lia|apply Hok|]. intros z. rewrite <-(alloc_once _ _ Hok z). cbn [fst snd]. rewrite cover_app.
    assert (cnt z live = 0%nat) as ->; [|lia]. unfold cnt. rewrite filter_none; [done|]. intros s Hs Hc. rewrite Forall_forall in Hz.
    specialize (Hz s Hs). unfold contains, ends in Hc. lia.
Qed.

(** Two slots allocated and freed in the order in which they came. *)
Lemma allocator_safe_witness :
  rtc astep ([mkSlot 0 100], []) ([mkSlot 0 30; mkSlot 70 30], [mkSlot 30 40]) /\
  forall want, 0 <= want < 2 ^ 64 -> Allocate want [mkSlot 0 30; mkSlot 70 30] = None <->
    Forall (fun s => slotSize s < want) [mkSlot 0 30; mkSlot 70 30].
Proof.
  assert (H : rtc astep ([mkSlot 0 100], []) ([mkSlot 0 30; mkSlot 70 30], [mkSlot 30 40])).
  { eapply rtc_l; [apply (step_allocate 30); [lia|reflexivity]|]. eapply rtc_l; [apply (step_allocate 40); [lia|reflexivity]|].
    eapply rtc_l; [|apply rtc_refl]. apply (step_free (mkSlot 0 30)). apply Permutation_swap. }
  split; [exact H|]. apply (allocator_safe 100 _ _ ltac:(lia) H).
Defined.
