(* ===== verification/PageStore.v ===== *)
(** * Encrypted pages, the direct-mapped cache and the cached vector

    [MemServerBackend] (serverBackend.hpp), the page server with authentication
    of serverFrontend.hpp, the direct-mapped cache of dmcache.hpp and
    cached.hpp, and [ExtVector] (extemvector.hpp).  What the encryption of a
    page promises is the interface [PageCipher]; the wrapper [FreshEncrypted]
    implements it. *)
From S2P Require Import Prelude Inner Hash Gcm EncUtils.

(** ** Interfaces *)

(** A page as the bytes that go to the server, under a nonce; [None] is the
    [abort()] of an authentication failure. *)
Class PageCipher (Page : Type) := {
  cipherSize : nat;
  seal : bytes -> Page -> bytes;
  unseal : bytes -> bytes -> option Page }.

Class PageCipherOk (Page : Type) (page_ok : Page -> Prop) `{!PageCipher Page} : Prop := {
  seal_length iv p : length iv = 12 -> Forall byte_ok iv -> page_ok p -> length (seal iv p) = cipherSize;
  unseal_seal iv p : length iv = 12 -> Forall byte_ok iv -> page_ok p -> unseal iv (seal iv p) = Some p }.

(** ** The server *)

(** [ocall_Read] and [ocall_Write]; [None] is an access out of bounds. *)
Definition backendRead (offset sz : nat) (data : bytes) : option bytes :=
  if offset + sz <=? length data then Some (slice offset sz data) else None.
Definition backendWrite (offset : nat) (from data : bytes) : option bytes := write_at offset from data.

Section frontend.
Context {Page : Type} `{!PageCipher Page}.

(** The members of a server that reads and writes use: the base of its slot, and
    its nonce. *)
Record frontend := mkFrontend { slotBase : nat; indexPart : Z; counterPart : Z }.
Context (self : frontend).

(** The first twelve bytes of the union. *)
Definition nounceBytes (i : nat) (counter : Z) : bytes :=
  br_enc64le (Z.lxor (indexPart self) (Z.of_nat i)) ++ br_enc32le (Z.lxor (counterPart self) counter).

Definition Write (i : nat) (inn : Page) (counter : Z) (data : bytes) : option bytes :=
  backendWrite (slotBase self + i * cipherSize) (seal (nounceBytes i counter) inn) data.

Definition Read (i : nat) (counter : Z) (data : bytes) : option Page :=
  enc ← backendRead (slotBase self + i * cipherSize) cipherSize data; unseal (nounceBytes i counter) enc.

(** The constructor with a default value writes every page. *)
Definition initialise (initialSize : nat) (defaultVal : Page) (data : bytes) : option bytes :=
  loopM (fun i data => Write i defaultVal 0 data) 0 initialSize data.
End frontend.

(** ** The direct-mapped cache *)

Section cache.
Context {Page : Type} `{!PageCipher Page} (self : frontend) (CACHE_SIZE : nat).

Record CacheEntry := mkEntry { val : Page; idx : nat; dirty : bool }.

(** What the client shares with the server, and the cache. *)
Record cached := mkCached { store : bytes; slots : list CacheEntry }.

(** [AccessDM<dirty, skip_read, writeBack>(i)]: afterwards slot [i mod CACHE_SIZE]
    is the page the returned reference points to. *)
Definition AccessDM (isDirty skip_read writeBack : bool) (i : nat) (c : cached) : option cached :=
  slot ← slots c !! (i mod CACHE_SIZE);
  '(slot, data) ←
    if idx slot =? i then Some (slot, store c) else
      data ← (if dirty slot then Write self (idx slot) (val slot) 0 (store c) else Some (store c));
      slot ← (if skip_read : bool then Some slot else v ← Read self i 0 data; Some (mkEntry v (idx slot) false));
      Some (mkEntry (val slot) i (dirty slot), data);
  Some (mkCached data (<[i mod CACHE_SIZE := mkEntry (val slot) (idx slot) ((dirty slot || isDirty) && writeBack)]> (slots c))).

(** The slots after [data.resize(CACHE_SIZE)]. *)
Definition freshSlots (zero : Page) : list CacheEntry := replicate CACHE_SIZE (mkEntry zero 0 false).
End cache.
Arguments CacheEntry : clear implicits.
Arguments cached : clear implicits.

(** ** The vector *)

Section vector.
Context {T : Type} `{!PageCipher (list T)} (self : frontend) (CACHE_SIZE item_per_page : nat).

(** [Get(index)], and [At(index) = x]. *)
Definition Get (index : nat) (c : cached (list T)) : option (T * cached (list T)) :=
  c ← AccessDM self CACHE_SIZE false false true (index / item_per_page) c;
  slot ← slots c !! (index / item_per_page mod CACHE_SIZE);
  x ← val slot !! (index mod item_per_page);
  Some (x, c).

Definition At (index : nat) (x : T) (c : cached (list T)) : option (cached (list T)) :=
  c ← AccessDM self CACHE_SIZE true false true (index / item_per_page) c;
  slot ← slots c !! (index / item_per_page mod CACHE_SIZE);
  if index mod item_per_page <? length (val slot) then
    Some (mkCached (store c) (<[index / item_per_page mod CACHE_SIZE :=
      mkEntry (<[index mod item_per_page := x]> (val slot)) (idx slot) (dirty slot)]> (slots c)))
  else None.

(** [Vector(N, defaultVal)]; [zero] is the value-initialised item, which fills
    the slots of the cache before they are used. *)
Definition newVector (N : nat) (zero defaultVal : T) (data : bytes) : option (cached (list T)) :=
  data ← initialise self (N / item_per_page + 1) (replicate item_per_page defaultVal) data;
  Some (mkCached data (freshSlots CACHE_SIZE (replicate item_per_page zero))).

(** A client of the vector: reads, whose results are returned, and stores. *)
Inductive vector_op := OpGet (index : nat) | OpAt (index : nat) (x : T).

Fixpoint vector_run (ops : list vector_op) (c : cached (list T)) : option (list T * cached (list T)) :=
  match ops with
  | [] => Some ([], c)
  | OpGet i :: ops => '(x, c) ← Get i c; '(xs, c) ← vector_run ops c; Some (x :: xs, c)
  | OpAt i x :: ops => c ← At i x c; vector_run ops c
  end.

(** The same client of an array in memory. *)
Fixpoint array_run (ops : list vector_op) (arr : list T) : option (list T) :=
  match ops with
  | [] => Some []
  | OpGet i :: ops => x ← arr !! i; xs ← array_run ops arr; Some (x :: xs)
  | OpAt i x :: ops => if i <? length arr then array_run ops (<[i := x]> arr) else None
  end.

(** The abstract vector.  As long as slot 0 of the cache is as it was created,
    [fresh], it passes for the first page: a read of that page gives [zero], and
    the first store to it makes the page one of zeros.  An access to another
    page of slot 0 ends this, and the first page is as the array has it. *)
Definition first_page (i : nat) : bool := i / item_per_page =? 0.
Definition evicts (i : nat) : bool := negb (first_page i) && (i / item_per_page mod CACHE_SIZE =? 0).
Definition zero_page (zero : T) (arr : list T) : list T :=
  replicate (Nat.min item_per_page (length arr)) zero ++ drop item_per_page arr.

Fixpoint spec_run (zero : T) (ops : list vector_op) (arr : list T) (fresh : bool) : option (list T) :=
  match ops with
  | [] => Some []
  | OpGet i :: ops =>
      x ← arr !! i; xs ← spec_run zero ops arr (fresh && negb (evicts i));
      Some ((if fresh && first_page i then zero else x) :: xs)
  | OpAt i x :: ops =>
      if i <? length arr then
        if fresh && first_page i then spec_run zero ops (<[i := x]> (zero_page zero arr)) false
        else spec_run zero ops (<[i := x]> arr) (fresh && negb (evicts i))
      else None
  end.
End vector.

(** ** The server: proofs *)

Section frontend_correct.
Context {Page : Type} {page_ok : Page -> Prop} `{!PageCipher Page} `{!PageCipherOk Page page_ok} (self : frontend).
Implicit Types (data : bytes) (p : Page).

Lemma nounce_ok i counter : length (nounceBytes self i counter) = 12 /\ Forall byte_ok (nounceBytes self i counter).
Proof.
  unfold nounceBytes. rewrite length_app, enc64le_length. split; [done|]. apply Forall_app. split; [apply enc64le_ok|apply enc32le_ok].
Qed.

(** A page that is written can be read, and the others are as before. *)
Lemma Write_spec i p counter data : page_ok p -> slotBase self + (i + 1) * cipherSize <= length data ->
  exists data', Write self i p counter data = Some data' /\ length data' = length data /\ Read self i counter data' = Some p /\
    (forall i' counter', i' <> i -> Read self i' counter' data' = Read self i' counter' data) /\
    forall q, q < slotBase self + i * cipherSize \/ slotBase self + (i + 1) * cipherSize <= q -> data' !! q = data !! q.
Proof.
  intros Hp Hl. destruct (nounce_ok i counter) as [N1 N2]. pose proof (seal_length _ _ N1 N2 Hp) as HL.
  destruct (write_at_Some (slotBase self + i * cipherSize) (seal (nounceBytes self i counter) p) data) as (data' & E & E1 & E2 & E3); [rewrite HL; lia|].
  exists data'. split; [exact E|]. split; [done|]. rewrite HL in *. split.
  - unfold Read, backendRead. rewrite (proj2 (Nat.leb_le _ _)) by (rewrite E1; lia). cbn [mbind option_bind]. rewrite E2. by apply unseal_seal.
  - split; [|intros q Hq; apply E3; nia]. intros i' counter' Hne. unfold Read, backendRead. rewrite E1. destruct (_ <=? _); [|done]. cbn [mbind option_bind].
    f_equal. apply list_eq. intros q. destruct (decide (q < cipherSize)); [|by rewrite !slice_lookup_ge by lia].
    rewrite !slice_lookup by done. apply E3. nia.
Qed.

Lemma initialise_spec n p data : page_ok p -> slotBase self + n * cipherSize <= length data ->
  exists data', initialise self n p data = Some data' /\ length data' = length data /\ (forall i, i < n -> Read self i 0 data' = Some p) /\
    forall q, q < slotBase self \/ slotBase self + n * cipherSize <= q -> data' !! q = data !! q.
Proof.
  intros Hp Hl. unfold initialise.
  destruct (loopM_inv (fun j d => length d = length data /\ (forall i, i < j -> Read self i 0 d = Some p) /\
      forall q, q < slotBase self \/ slotBase self + n * cipherSize <= q -> d !! q = data !! q) (fun i d => Write self i p 0 d) n 0 data)
    as (data' & E & H1 & H2); [split_and!; [done|lia|done]| |by exists data'].
  intros j d Hj (I1 & I2 & I3). cbn [Nat.add] in Hj. destruct (Write_spec j p 0 d Hp) as (d' & E & W1 & W2 & W3 & W4); [nia|].
  exists d'. split; [done|]. split; [lia|]. split; [|intros q Hq; rewrite W4 by nia; by apply I3]. intros i Hi. destruct (decide (i = j)) as [->|]; [done|]. rewrite W3 by done. apply I2. lia.
Qed.
End frontend_correct.

(** ** The cache: proofs *)

Section cache_correct.
Context {Page : Type} {page_ok : Page -> Prop} `{!PageCipher Page} `{!PageCipherOk Page page_ok} (self : frontend) (C : nat) (data0 : bytes).
Implicit Types (c : cached Page) (pg : list Page) (s : CacheEntry Page).

(** What slot [k] of the cache may hold when the pages are [pg]: a page that is
    mapped to it, dirty when the server has an older version, or nothing of
    use. *)
Definition slot_ok pg (data : bytes) (k : nat) s : Prop :=
  (idx s mod C = k /\ pg !! idx s = Some (val s) /\ (dirty s = false -> Read self (idx s) 0 data = Some (val s))) \/
  (idx s mod C <> k /\ dirty s = false).

Record cache_inv pg c : Prop := {
  inv_size : length (slots c) = C;
  inv_room : slotBase self + length pg * cipherSize <= length (store c);
  inv_frame q : q < slotBase self \/ slotBase self + length pg * cipherSize <= q -> store c !! q = data0 !! q;
  inv_pages : Forall page_ok pg;
  inv_slots k s : slots c !! k = Some s -> slot_ok pg (store c) k s;
  inv_store i p : pg !! i = Some p -> (forall s, slots c !! (i mod C) = Some s -> idx s <> i) -> Read self i 0 (store c) = Some p
}.

(** A new cache is coherent once slot 0 holds the first page. *)
Lemma freshSlots_inv pg data zero p : 0 < C -> slotBase self + length pg * cipherSize <= length data ->
  (forall q, q < slotBase self \/ slotBase self + length pg * cipherSize <= q -> data !! q = data0 !! q) -> Forall page_ok pg ->
  pg !! 0 = Some p -> (forall i p, pg !! i = Some p -> Read self i 0 data = Some p) ->
  cache_inv pg (mkCached data (<[0 := mkEntry p 0 false]> (freshSlots C zero))).
Proof.
  intros HC Hl Hf Hp H0 Hr. split; cbn [slots store]; [rewrite length_insert; apply length_replicate|done|done|done| |by intros i q E _; apply Hr].
  intros k s [(<- & <- & _)|(Hne & [-> _]%lookup_replicate)]%list_lookup_insert_Some.
  - left. cbn [idx val dirty]. rewrite Nat.mod_0_l by lia. auto.
  - right. cbn [idx dirty]. rewrite Nat.mod_0_l by lia. done.
Qed.

(** Writing a dirty page back loses nothing. *)
Lemma write_back pg c k s : cache_inv pg c -> slots c !! k = Some s ->
  exists data, (if dirty s then Write self (idx s) (val s) 0 (store c) else Some (store c)) = Some data /\
    length data = length (store c) /\
    (forall q, q < slotBase self \/ slotBase self + length pg * cipherSize <= q -> data !! q = data0 !! q) /\
    (forall i p, pg !! i = Some p -> Read self i 0 (store c) = Some p \/ i = idx s /\ i mod C = k -> Read self i 0 data = Some p).
Proof.
  intros I E. pose proof (inv_slots _ _ I _ _ E) as Hs. destruct (dirty s) eqn:Ed.
  - destruct Hs as [(Hm & Hv & _)|[_ Hd]]; [|congruence].
    destruct (Write_spec self (idx s) (val s) 0 (store c)) as (d & W & L & R & O & F).
    { eapply Forall_lookup_1; [apply I|done]. } { apply lookup_lt_Some in Hv. pose proof (inv_room _ _ I). nia. }
    exists d. split; [done|]. split; [done|]. split.
    { intros q Hq. rewrite F; [by apply (inv_frame _ _ I)|]. apply lookup_lt_Some in Hv. nia. }
    intros i p Hp H. destruct (decide (i = idx s)) as [->|Hne]; [rewrite R; congruence|].
    rewrite O by done. destruct H as [H|[H _]]; done.
  - exists (store c). split; [done|]. split; [done|]. split; [apply I|]. intros i p Hp [H|[-> Hk]]; [done|].
    destruct Hs as [(_ & Hv & Hr)|[Hne _]]; [|done]. rewrite (Hr Ed). congruence.
Qed.

(** An access brings the page to its slot and keeps the cache coherent. *)
Lemma AccessDM_spec pg c i p (isDirty : bool) : cache_inv pg c -> 0 < C -> pg !! i = Some p ->
  exists c' s, AccessDM self C isDirty false true i c = Some c' /\ cache_inv pg c' /\
    slots c' !! (i mod C) = Some s /\ idx s = i /\ val s = p /\ (isDirty = true -> dirty s = true).
Proof.
  intros I HC Hp. pose proof (inv_size _ _ I) as HL. destruct (ex_intro (fun k => i mod C = k) _ eq_refl) as [k Ek]. rewrite Ek.
  assert (Hk : k < length (slots c)) by (rewrite HL, <-Ek; apply Nat.mod_upper_bound; lia).
  destruct (lookup_lt_is_Some_2 _ _ Hk) as [s Es]. pose proof (inv_slots _ _ I _ _ Es) as Hs.
  unfold AccessDM. rewrite Ek, Es. cbn [mbind option_bind]. destruct (idx s =? i) eqn:Ei.
  - apply Nat.eqb_eq in Ei. cbn [mbind option_bind]. rewrite andb_true_r. eexists _, _. split; [reflexivity|]. cbn [slots].
    rewrite list_lookup_insert_eq by done. cbn [idx val dirty].
    destruct Hs as [(Hm & Hv & Hr)|[Hm _]]; [|exfalso; apply Hm; by rewrite Ei].
    split; [|split; [reflexivity|]; cbn [idx val dirty]; split_and!; [done|rewrite Ei in Hv; congruence|intros ->; apply orb_true_r]].
    split; cbn [slots store]; [by rewrite length_insert|apply I|apply I|apply I| |].
    + intros k' s' [(-> & <- & _)|(Hne & E)]%list_lookup_insert_Some; [|by apply (inv_slots _ _ I)].
      left. cbn [idx val dirty]. split_and!; [done..|]. intros [Hd _]%orb_false_elim. auto.
    + intros j q Hq Hn. apply (inv_store _ _ I); [done|]. intros t Ht. destruct (decide (j mod C = k)) as [Ej|Hne].
      * rewrite Ej in *. rewrite list_lookup_insert_eq in Hn by done. rewrite Es in Ht. injection Ht as <-. apply (Hn _ eq_refl).
      * apply Hn. by rewrite list_lookup_insert_ne.
  - apply Nat.eqb_neq in Ei. destruct (write_back pg c k s I Es) as (d & -> & Ld & Fd & Hd). cbn [mbind option_bind].
    assert (Hr : forall j q, pg !! j = Some q -> j mod C = k -> Read self j 0 d = Some q).
    { intros j q Hq Hj. apply Hd; [done|]. destruct (decide (j = idx s)); [by right|left].
      apply (inv_store _ _ I); [done|]. rewrite Hj. intros t Ht. congruence. }
    rewrite (Hr i p Hp Ek). cbn [mbind option_bind val dirty orb]. rewrite andb_true_r.
    eexists _, _. split; [reflexivity|]. cbn [slots]. rewrite list_lookup_insert_eq by done. cbn [idx val dirty].
    split; [|split; [reflexivity|]; cbn [idx val dirty]; split_and!; done].
    split; cbn [slots store]; [by rewrite length_insert|rewrite Ld; apply I|exact Fd|apply I| |].
    + intros k' s' [(-> & <- & _)|(Hne & E)]%list_lookup_insert_Some.
      { left. cbn [idx val dirty]. split; [done|]. split; [exact Hp|]. intros _. by apply Hr. }
      destruct (inv_slots _ _ I _ _ E) as [(Hm & Hv & Hc)|]; [left|by right]. split_and!; [done..|]. intros Hn. apply Hd; [done|]. left. auto.
    + intros j q Hq Hn. destruct (decide (j mod C = k)) as [Ej|Hne]; [by apply Hr|].
      apply Hd; [done|]. left. apply (inv_store _ _ I); [done|]. intros t Ht. apply Hn. by rewrite list_lookup_insert_ne.
Qed.

(** Storing into a page that is dirty in its slot. *)
Lemma store_in_slot pg c i s p : cache_inv pg c -> slots c !! (i mod C) = Some s -> idx s = i -> dirty s = true -> page_ok p ->
  cache_inv (<[i := p]> pg) (mkCached (store c) (<[i mod C := mkEntry p (idx s) (dirty s)]> (slots c))).
Proof.
  intros I Es Ei Ed Hp. assert (Hk : i mod C < length (slots c)) by (eapply lookup_lt_Some; done).
  assert (Hi : i < length pg).
  { destruct (inv_slots _ _ I _ _ Es) as [(_ & Hv & _)|[_ H]]; [|congruence]. rewrite <-Ei. by eapply lookup_lt_Some. }
  split; cbn [slots store]; [rewrite length_insert; apply I|rewrite length_insert; apply I|rewrite length_insert; apply I|apply Forall_insert; [apply I|done]| |].
  - intros k t [(<- & <- & _)|(Hne & E)]%list_lookup_insert_Some.
    + left. cbn [idx val dirty]. rewrite Ei, Ed, list_lookup_insert_eq by done. done.
    + destruct (inv_slots _ _ I _ _ E) as [(Hm & Hv & Hc)|]; [left|by right]. split_and!; [done| |done].
      rewrite list_lookup_insert_ne; [done|]. congruence.
  - intros j q Hq Hn. destruct (decide (j = i)) as [->|Hne].
    { rewrite list_lookup_insert_eq in Hn by done. by destruct (Hn _ eq_refl). }
    rewrite list_lookup_insert_ne in Hq by done. apply (inv_store _ _ I); [done|]. intros t Ht. destruct (decide (j mod C = i mod C)) as [Ej|Hm].
    + rewrite Ej in *. rewrite Es in Ht. injection Ht as <-. congruence.
    + apply Hn. by rewrite list_lookup_insert_ne.
Qed.
End cache_correct.

(** ** The vector: proofs *)

Section vector_correct.
Context {T : Type} (item_ok : T -> Prop) (item_per_page C : nat).
Definition page_of_items (p : list T) : Prop := length p = item_per_page /\ Forall item_ok p.
Context `{!PageCipher (list T)} `{!PageCipherOk (list T) page_of_items} (self : frontend) (data0 : bytes).
Hypotheses (Hipp : 0 < item_per_page) (HC : 0 < C).
Implicit Types (arr : list T) (pg : list (list T)) (c : cached (list T)).

(** The pages hold the array. *)
Definition arr_pages arr pg : Prop :=
  length pg = length arr / item_per_page + 1 /\
  forall i, i < length arr -> (p ← pg !! (i / item_per_page); p !! (i mod item_per_page)) = arr !! i.

Definition vector_inv arr c : Prop := exists pg, cache_inv (page_ok := page_of_items) self C data0 pg c /\ arr_pages arr pg.

Lemma arr_page arr pg i : arr_pages arr pg -> i < length arr ->
  exists p, pg !! (i / item_per_page) = Some p /\ p !! (i mod item_per_page) = arr !! i.
Proof using Hipp.
  clear HC. intros [Hl H] Hi. specialize (H i Hi). destruct (pg !! (i / item_per_page)) as [p|] eqn:E; [by exists p|].
  apply lookup_ge_None_1 in E. assert (i / item_per_page <= length arr / item_per_page) by (apply Nat.Div0.div_le_mono; lia). lia.
Qed.

Lemma arr_pages_insert arr pg i x p : arr_pages arr pg -> i < length arr -> pg !! (i / item_per_page) = Some p -> length p = item_per_page ->
  arr_pages (<[i := x]> arr) (<[i / item_per_page := <[i mod item_per_page := x]> p]> pg).
Proof using Hipp.
  clear HC. intros [Hl H] Hi Ep Lp. split; [by rewrite !length_insert|]. rewrite length_insert. intros j Hj. specialize (H j Hj).
  assert (i / item_per_page < length pg) by (by eapply lookup_lt_Some).
  assert (i mod item_per_page < item_per_page) by (apply Nat.mod_upper_bound; lia).
  pose proof (Nat.div_mod_eq i item_per_page). pose proof (Nat.div_mod_eq j item_per_page).
  destruct (decide (j / item_per_page = i / item_per_page)) as [E|Hne].
  - rewrite E, list_lookup_insert_eq by done. cbn [mbind option_bind]. rewrite E, Ep in H. cbn [mbind option_bind] in H.
    destruct (decide (j = i)) as [->|Hji]; [by rewrite !list_lookup_insert_eq by lia|].
    rewrite !list_lookup_insert_ne by (rewrite ?E in *; congruence || nia). done.
  - rewrite !list_lookup_insert_ne by congruence. done.
Qed.

Lemma Get_spec arr c i : vector_inv arr c -> i < length arr ->
  exists x c', arr !! i = Some x /\ Get self C item_per_page i c = Some (x, c') /\ vector_inv arr c'.
Proof using All.
  intros (pg & I & A) Hi. destruct (arr_page _ _ _ A Hi) as (p & Ep & Ex). destruct (lookup_lt_is_Some_2 _ _ Hi) as [x Hx].
  destruct (AccessDM_spec self C data0 pg c _ p false I HC Ep) as (c' & s & E & I' & Es & _ & Ev & _).
  exists x, c'. split; [done|]. split; [|by exists pg]. unfold Get. rewrite E. cbn [mbind option_bind]. rewrite Es. cbn [mbind option_bind].
  by rewrite Ev, Ex, Hx.
Qed.

Lemma At_spec arr c i x : vector_inv arr c -> i < length arr -> item_ok x ->
  exists c', At self C item_per_page i x c = Some c' /\ vector_inv (<[i := x]> arr) c'.
Proof using All.
  intros (pg & I & A) Hi Hx. destruct (arr_page _ _ _ A Hi) as (p & Ep & _).
  destruct (AccessDM_spec self C data0 pg c _ p true I HC Ep) as (c' & s & E & I' & Es & Ei & Ev & Ed).
  assert (Hp : page_of_items p) by (eapply Forall_lookup_1; [apply I|done]). destruct Hp as [Lp Fp].
  unfold At. rewrite E. cbn [mbind option_bind]. rewrite Es. cbn [mbind option_bind]. rewrite Ev, Lp, (proj2 (Nat.ltb_lt _ _)) by (apply Nat.mod_upper_bound; lia).
  eexists. split; [reflexivity|]. exists (<[i / item_per_page := <[i mod item_per_page := x]> p]> pg). split; [|by apply arr_pages_insert].
  apply (store_in_slot self C data0 pg c' _ s); try done; [by apply Ed|]. split; [by rewrite length_insert|by apply Forall_insert].
Qed.

Definition op_ok (N : nat) (op : vector_op) : Prop :=
  match op with OpGet i => i < N | OpAt i x => i < N /\ item_ok x end.

Lemma vector_run_spec ops : forall arr c, vector_inv arr c -> Forall (op_ok (length arr)) ops ->
  exists xs arr' c', array_run ops arr = Some xs /\ vector_run self C item_per_page ops c = Some (xs, c') /\
    length arr' = length arr /\ vector_inv arr' c'.
Proof using All.
  induction ops as [|[i|i x] ops IH]; intros arr c V Ho; [by exists [], arr, c| |]; apply Forall_cons_1 in Ho as [Ho Hs]; cbn [array_run vector_run].
  - destruct (Get_spec arr c i V Ho) as (x & c1 & Ex & -> & V1). rewrite Ex. cbn [mbind option_bind].
    destruct (IH arr c1 V1 Hs) as (xs & arr' & c' & -> & -> & L & V'). by exists (x :: xs), arr', c'.
  - destruct Ho as [Hi Hx]. destruct (At_spec arr c i x V Hi Hx) as (c1 & -> & V1). cbn [mbind option_bind].
    rewrite (proj2 (Nat.ltb_lt _ _)) by done. destruct (IH _ c1 V1) as (xs & arr' & c' & ? & ? & L & V'); [by rewrite length_insert|].
    exists xs, arr', c'. by rewrite L, length_insert.
Qed.

(** *** The slot that passes for the first page *)

Context (zero : T) (Hzero : item_ok zero).
Let zeros : list T := replicate item_per_page zero.

(** The cache with [p] in slot 0. *)
Definition settle (p : list T) (c : cached (list T)) : cached (list T) := mkCached (store c) (<[0 := mkEntry p 0 false]> (slots c)).

(** The cache is coherent but for slot 0, which was not used yet. *)
Definition fresh_inv arr c : Prop := slots c !! 0 = Some (mkEntry zeros 0 false) /\ exists p, vector_inv arr (settle p c).

Lemma AccessDM_evict p d q c : slots c !! 0 = Some (mkEntry zeros 0 false) -> q <> 0 -> q mod C = 0 ->
  AccessDM self C d false true q c = AccessDM self C d false true q (settle p c).
Proof using Type.
  clear. intros H0 Hq Hm. unfold AccessDM, settle. cbn [slots store]. rewrite Hm, H0, list_lookup_insert_eq by (by eapply lookup_lt_Some).
  cbn [mbind option_bind idx dirty val]. rewrite (proj2 (Nat.eqb_neq 0 q)) by done. cbn [mbind option_bind].
  destruct (Read self q 0 (store c)); [|done]. cbn [mbind option_bind]. by rewrite list_insert_insert_eq.
Qed.

Lemma AccessDM_other p d q c c1 : q mod C <> 0 -> AccessDM self C d false true q (settle p c) = Some c1 ->
  exists c', AccessDM self C d false true q c = Some c' /\ c1 = settle p c' /\ slots c' !! 0 = slots c !! 0 /\
    slots c1 !! (q mod C) = slots c' !! (q mod C).
Proof using Type.
  clear. intros Hm. unfold AccessDM, settle. cbn [slots store]. rewrite list_lookup_insert_ne by done.
  destruct (slots c !! (q mod C)) as [t|]; [|done]. cbn [mbind option_bind].
  destruct (idx t =? q); cbn [mbind option_bind].
  2: destruct (if dirty t then _ else _); [|done]; cbn [mbind option_bind]; destruct (Read self q 0 _); [|done]; cbn [mbind option_bind].
  all: intros [= <-]; eexists; split; [reflexivity|]; cbn [slots store]; split; [by rewrite list_insert_insert_ne by done|];
    split; [by rewrite list_lookup_insert_ne by done|]; by rewrite list_insert_insert_ne, list_lookup_insert_ne by done.
Qed.

(** Items of the other pages. *)
Lemma fresh_other arr c i : fresh_inv arr c -> i < length arr -> first_page item_per_page i = false -> evicts C item_per_page i = false ->
  (exists x c', arr !! i = Some x /\ Get self C item_per_page i c = Some (x, c') /\ fresh_inv arr c') /\
  (forall x, item_ok x -> exists c', At self C item_per_page i x c = Some c' /\ fresh_inv (<[i := x]> arr) c').
Proof using Hipp HC PageCipherOk0.
  intros (H0 & p & V) Hi Hf He. unfold evicts in He. rewrite Hf in He. cbn [negb andb] in He. apply Nat.eqb_neq in He. split.
  - destruct (Get_spec arr _ i V Hi) as (x & c1 & Ex & E & V1). unfold Get in E. destruct (AccessDM _ _ _ _ _ _ (settle p c)) as [c2|] eqn:Ea; [|done].
    destruct (AccessDM_other p _ _ c c2 He Ea) as (c' & Ec & -> & E0 & El). cbn [mbind option_bind] in E. rewrite El in E.
    destruct (slots c' !! _) as [t|] eqn:Et; [|done]. cbn [mbind option_bind] in E. destruct (val t !! _) as [y|] eqn:Ey; [|done].
    injection E as -> <-. exists x, c'. split; [done|]. split; [|split; [by rewrite E0|by exists p]].
    unfold Get. rewrite Ec. cbn [mbind option_bind]. rewrite Et. cbn [mbind option_bind]. by rewrite Ey.
  - intros x Hx. destruct (At_spec arr _ i x V Hi Hx) as (c1 & E & V1). unfold At in E. destruct (AccessDM _ _ _ _ _ _ (settle p c)) as [c2|] eqn:Ea; [|done].
    destruct (AccessDM_other p _ _ c c2 He Ea) as (c' & Ec & -> & E0 & El). cbn [mbind option_bind] in E. rewrite El in E.
    destruct (slots c' !! _) as [t|] eqn:Et; [|done]. cbn [mbind option_bind] in E. destruct (_ <? _) eqn:Eb; [|done]. injection E as <-.
    eexists. split; [unfold At; rewrite Ec; cbn [mbind option_bind]; rewrite Et; cbn [mbind option_bind]; by rewrite Eb|].
    split; [cbn [slots]; by rewrite list_lookup_insert_ne, E0 by done|]. exists p. unfold settle in V1 |- *. cbn [slots store] in *.
    by rewrite list_insert_insert_ne by done.
Qed.

(** Items of another page that takes slot 0. *)
Lemma fresh_evict arr c i : fresh_inv arr c -> i < length arr -> evicts C item_per_page i = true ->
  (exists x c', arr !! i = Some x /\ Get self C item_per_page i c = Some (x, c') /\ vector_inv arr c') /\
  (forall x, item_ok x -> exists c', At self C item_per_page i x c = Some c' /\ vector_inv (<[i := x]> arr) c').
Proof using Hipp HC PageCipherOk0.
  intros (H0 & p & V) Hi He. unfold evicts, first_page in He. apply andb_true_iff in He as [Hf%negb_true_iff%Nat.eqb_neq Hm%Nat.eqb_eq]. split.
  - destruct (Get_spec arr _ i V Hi) as (x & c1 & Ex & E & V1). exists x, c1. split; [done|]. split; [|done]. unfold Get in *.
    by rewrite (AccessDM_evict p) by done.
  - intros x Hx. destruct (At_spec arr _ i x V Hi Hx) as (c1 & E & V1). exists c1. split; [|done]. unfold At in *.
    by rewrite (AccessDM_evict p) by done.
Qed.

Lemma AccessDM_hit d c : slots c !! 0 = Some (mkEntry zeros 0 false) ->
  AccessDM self C d false true 0 c = Some (mkCached (store c) (<[0 := mkEntry zeros 0 d]> (slots c))).
Proof using HC.
  clear - HC. intros H0. unfold AccessDM. rewrite Nat.mod_0_l by lia. rewrite H0. cbn [mbind option_bind idx Nat.eqb val dirty orb]. by rewrite andb_true_r.
Qed.

(** Items of the first page. *)
Lemma fresh_get arr c i : fresh_inv arr c -> first_page item_per_page i = true -> Get self C item_per_page i c = Some (zero, c).
Proof using Hipp HC.
  intros (H0 & _) Hf%Nat.eqb_eq. unfold Get. rewrite Hf, AccessDM_hit by done. cbn [mbind option_bind slots].
  rewrite Nat.mod_0_l by lia. rewrite list_lookup_insert_eq by (by eapply lookup_lt_Some). cbn [mbind option_bind val].
  unfold zeros. rewrite lookup_replicate_2 by (apply Nat.mod_upper_bound; lia). cbn [mbind option_bind].
  rewrite list_insert_id by done. by destruct c.
Qed.

Lemma fresh_at arr c i x : fresh_inv arr c -> first_page item_per_page i = true -> i < length arr -> item_ok x ->
  exists c', At self C item_per_page i x c = Some c' /\ vector_inv (<[i := x]> (zero_page item_per_page zero arr)) c'.
Proof using All.
  intros (H0 & p & pg & I & A) Hf%Nat.eqb_eq Hi Hx. assert (Hl : 0 < length (slots c)) by (by eapply lookup_lt_Some).
  assert (Hi' : i < item_per_page) by (apply Nat.div_small_iff; lia).
  unfold At. rewrite Hf, AccessDM_hit by done. cbn [mbind option_bind slots store].
  rewrite Nat.mod_0_l by lia. rewrite list_lookup_insert_eq by done. cbn [mbind option_bind val idx dirty].
  unfold zeros at 1. rewrite length_replicate, (proj2 (Nat.ltb_lt _ _)) by (apply Nat.mod_upper_bound; lia).
  eexists. split; [reflexivity|]. rewrite list_insert_insert_eq.
  assert (Hz : page_of_items zeros) by (split; [apply length_replicate|by apply Forall_replicate]).
  destruct (arr_page _ _ _ A Hi) as (p0 & Ep & _). rewrite Hf in Ep.
  destruct (AccessDM_spec self C data0 pg _ 0 p0 true I HC Ep) as (c1 & t & E & I1 & Es & Ei & _ & Ed).
  assert (Hp' : page_of_items (<[i mod item_per_page := x]> zeros)).
  { destruct Hz. split; [by rewrite length_insert|by apply Forall_insert]. }
  pose proof (store_in_slot self C data0 pg c1 0 t _ I1 Es Ei (Ed eq_refl) Hp') as I2. rewrite Ei, (Ed eq_refl) in I2.
  unfold AccessDM, settle in E. cbn [slots store] in E. rewrite Nat.mod_0_l in E, I2 by lia. rewrite list_lookup_insert_eq in E by done.
  cbn [mbind option_bind idx val dirty Nat.eqb orb andb] in E. injection E as <-. cbn [slots store] in I2. rewrite !list_insert_insert_eq in I2.
  eexists. split; [exact I2|]. destruct A as [Al A].
  assert (Lz : length (zero_page item_per_page zero arr) = length arr).
  { unfold zero_page. rewrite length_app, length_replicate, length_drop. lia. }
  assert (Az : arr_pages (zero_page item_per_page zero arr) (<[0 := zeros]> pg)).
  { split; [by rewrite length_insert, Lz|]. intros j Hj. rewrite Lz in Hj. unfold zero_page.
    destruct (decide (j < item_per_page)) as [Hlt|Hge].
    - rewrite Nat.div_small, Nat.mod_small by done. rewrite list_lookup_insert_eq by lia. cbn [mbind option_bind]. unfold zeros.
      rewrite lookup_app_l by (rewrite length_replicate; lia). by rewrite !lookup_replicate_2 by lia.
    - rewrite list_lookup_insert_ne by (intros Eq; symmetry in Eq; apply Nat.div_small_iff in Eq; lia). rewrite A by done.
      rewrite lookup_app_r by (rewrite length_replicate; lia). rewrite length_replicate, lookup_drop. f_equal. lia. }
  pose proof (arr_pages_insert _ _ i x zeros Az ltac:(by rewrite Lz)) as A'. rewrite Hf, list_lookup_insert_eq in A' by lia.
  rewrite list_insert_insert_eq in A'. apply A'; [done|apply Hz].
Qed.

Lemma spec_run_settled ops : forall arr, spec_run C item_per_page zero ops arr false = array_run ops arr.
Proof using Type.
  clear. induction ops as [|[i|i x] ops IH]; intros arr; [done| |]; cbn [spec_run array_run andb].
  - destruct (arr !! i); [|done]. cbn [mbind option_bind]. by rewrite IH.
  - destruct (i <? length arr); [|done]. apply IH.
Qed.

(** With the first page at zero nothing shows. *)
Lemma spec_run_zero ops : forall arr fresh, zero_page item_per_page zero arr = arr ->
  spec_run C item_per_page zero ops arr fresh = array_run ops arr.
Proof using Hipp.
  clear HC Hzero. induction ops as [|[i|i x] ops IH]; intros arr fresh HZ; [done| |]; cbn [spec_run array_run].
  - destruct (arr !! i) as [x|] eqn:Ex; [|done]. cbn [mbind option_bind]. rewrite IH by done. destruct (fresh && first_page _ i) eqn:Ef; [|done].
    apply andb_true_iff in Ef as [_ Ef%Nat.eqb_eq]. assert (i < item_per_page) by (apply Nat.div_small_iff; lia).
    pose proof (lookup_lt_Some _ _ _ Ex). rewrite <-HZ in Ex. unfold zero_page in Ex.
    rewrite lookup_app_l, lookup_replicate_2 in Ex by (rewrite ?length_replicate; lia). by injection Ex as ->.
  - destruct (i <? length arr) eqn:Ei; [|done]. rewrite HZ. destruct (fresh && first_page _ i) eqn:Ef; [apply spec_run_settled|].
    destruct fresh; cbn [andb] in *; [|apply spec_run_settled]. destruct (evicts C item_per_page i); cbn [negb]; [apply spec_run_settled|].
    apply IH. assert (Hge : item_per_page <= i).
    { apply Nat.eqb_neq in Ef. destruct (decide (item_per_page <= i)); [done|]. exfalso. apply Ef, Nat.div_small. lia. }
    apply Nat.ltb_lt in Ei. unfold zero_page in *. rewrite length_insert. rewrite <-HZ at 3.
    rewrite drop_insert, decide_True by done. rewrite insert_app_r_alt by (rewrite length_replicate; lia). rewrite length_replicate. do 2 f_equal. lia.
Qed.

Lemma fresh_run_spec ops : forall arr c, fresh_inv arr c -> Forall (op_ok (length arr)) ops ->
  exists xs arr' c', spec_run C item_per_page zero ops arr true = Some xs /\ vector_run self C item_per_page ops c = Some (xs, c') /\
    length arr' = length arr /\ (vector_inv arr' c' \/ fresh_inv arr' c').
Proof using All.
  induction ops as [|op ops IH]; intros arr c V Ho; [exists [], arr, c; auto|]. apply Forall_cons_1 in Ho as [Ho Hs].
  assert (Next : forall arr' c', length arr' = length arr -> vector_inv arr' c' -> exists xs arr'' c'',
    spec_run C item_per_page zero ops arr' false = Some xs /\ vector_run self C item_per_page ops c' = Some (xs, c'') /\
    length arr'' = length arr /\ (vector_inv arr'' c'' \/ fresh_inv arr'' c'')).
  { intros arr' c' L V'. destruct (vector_run_spec ops arr' c' V') as (xs & a'' & c'' & E1 & E2 & L'' & V''); [by rewrite L|].
    exists xs, a'', c''. rewrite spec_run_settled. split_and!; [done|done|congruence|by left]. }
  destruct op as [i|i x]; cbn [spec_run vector_run andb].
  - cbn in Ho. destruct (first_page item_per_page i) eqn:Ef.
    + rewrite (fresh_get arr c i V Ef). destruct (lookup_lt_is_Some_2 _ _ Ho) as [y ->]. cbn [mbind option_bind].
      unfold evicts. rewrite Ef. cbn [negb andb]. destruct (IH arr c V Hs) as (xs & a' & c' & -> & -> & L & V'). by exists (zero :: xs), a', c'.
    + destruct (evicts C item_per_page i) eqn:Ee; cbn [negb].
      * destruct (proj1 (fresh_evict arr c i V Ho Ee)) as (y & c1 & -> & -> & V1). cbn [mbind option_bind].
        destruct (Next arr c1 eq_refl V1) as (xs & a' & c' & -> & -> & L & V'). by exists (y :: xs), a', c'.
      * destruct (proj1 (fresh_other arr c i V Ho Ef Ee)) as (y & c1 & -> & -> & V1). cbn [mbind option_bind].
        destruct (IH arr c1 V1 Hs) as (xs & a' & c' & -> & -> & L & V'). by exists (y :: xs), a', c'.
  - destruct Ho as [Hi Hx]. rewrite (proj2 (Nat.ltb_lt _ _)) by done. destruct (first_page item_per_page i) eqn:Ef.
    + destruct (fresh_at arr c i x V Ef Hi Hx) as (c1 & -> & V1). cbn [mbind option_bind]. apply Next; [|done].
      unfold zero_page. rewrite length_insert, length_app, length_replicate, length_drop. lia.
    + destruct (evicts C item_per_page i) eqn:Ee; cbn [negb].
      * destruct (proj2 (fresh_evict arr c i V Hi Ee) x Hx) as (c1 & -> & V1). cbn [mbind option_bind].
        apply Next; [by rewrite length_insert|done].
      * destruct (proj2 (fresh_other arr c i V Hi Ef Ee) x Hx) as (c1 & -> & V1). cbn [mbind option_bind].
        destruct (IH _ c1 V1) as (xs & a' & c' & -> & -> & L & V'); [by rewrite length_insert|]. exists xs, a', c'. by rewrite L, length_insert.
Qed.

(** A new vector holds the default value everywhere, but for slot 0. *)
Lemma newVector_inv N defaultVal : item_ok defaultVal -> slotBase self + (N / item_per_page + 1) * cipherSize <= length data0 ->
  exists c, newVector self C item_per_page N zero defaultVal data0 = Some c /\ fresh_inv (replicate N defaultVal) c.
Proof using Hipp HC PageCipherOk0.
  intros Hd Hroom. set (p := replicate item_per_page defaultVal). set (M := N / item_per_page + 1).
  assert (Hp : page_of_items p) by (split; [apply length_replicate|by apply Forall_replicate]).
  destruct (initialise_spec self M p data0 Hp Hroom) as (d & E & L & R & F).
  unfold newVector. fold p M zeros. rewrite E. cbn [mbind option_bind]. eexists. split; [reflexivity|].
  split; [unfold freshSlots; cbn [slots]; by rewrite lookup_replicate_2 by lia|]. exists p, (replicate M p). split.
  - unfold settle. cbn [slots store]. apply freshSlots_inv; [done|by rewrite length_replicate, L|by rewrite length_replicate|by apply Forall_replicate| |].
    + apply lookup_replicate_2. lia.
    + intros i q [-> Hi]%lookup_replicate. by apply R.
  - split; [by rewrite !length_replicate|]. rewrite length_replicate. intros i Hi.
    assert (i / item_per_page <= N / item_per_page) by (apply Nat.Div0.div_le_mono; lia).
    rewrite lookup_replicate_2 by lia. cbn [mbind option_bind]. unfold p.
    rewrite !lookup_replicate_2 by (done || apply Nat.mod_upper_bound; lia). done.
Qed.

Lemma vector_inv_frame arr c q : vector_inv arr c ->
  q < slotBase self \/ slotBase self + (length arr / item_per_page + 1) * cipherSize <= q -> store c !! q = data0 !! q.
Proof using Type. intros (pg & I & L & _) Hq. apply (inv_frame _ _ _ _ _ I). by rewrite L. Qed.

Lemma fresh_inv_frame arr c q : fresh_inv arr c ->
  q < slotBase self \/ slotBase self + (length arr / item_per_page + 1) * cipherSize <= q -> store c !! q = data0 !! q.
Proof using Type. intros (_ & p & V) Hq. by apply (vector_inv_frame _ _ _ V). Qed.
End vector_correct.

(** ** The encrypted pages of the program

    A page is encrypted with [FreshEncrypted]: cipher text and tag go to the
    server.  Only sixteen of the thirty-two bytes of the tag are written; [stack]
    is what the temporary of [Write] held before.  The items are stored with a
    codec of their own. *)

Section fresh_pages.
Context {T : Type} (item_ok : T -> Prop) (enc : T -> bytes) (dec : bytes -> T) (itemSize item_per_page : nat).
Context (c0 : gcm_ctx) (after_key : bytes) (stack : FreshEncrypted).
Definition pageSize : nat := item_per_page * itemSize.

Definition pageBytes (p : list T) : bytes := concat (enc <$> p).
Definition pageOf (b : bytes) : list T := dec <$> Prelude.blocks itemSize item_per_page b.

#[local] Instance fresh_pages : PageCipher (list T) := {
  cipherSize := pageSize + 32;
  seal iv p := let f := FreshEncrypted_Encrypt c0 after_key (pageBytes p) iv stack in fresh_data f ++ fresh_tag f;
  unseal iv b := pageOf <$> FreshEncrypted_Decrypt c0 after_key iv (mkFresh (take pageSize b) (drop pageSize b)) (replicate pageSize 0%Z) }.

Record fresh_params : Prop := {
  fp_enc x : item_ok x -> length (enc x) = itemSize /\ Forall byte_ok (enc x) /\ dec (enc x) = x;
  fp_size : (Z.of_nat pageSize < 2 ^ 32)%Z;
  fp_context : length (gbuf c0) = 16;
  fp_key : stored_key after_key;
  fp_stack : length (fresh_data stack) = pageSize /\ length (fresh_tag stack) = 32 /\ Forall byte_ok (fresh_tag stack) }.

Context (P : fresh_params).

Lemma page_bytes_spec p : page_of_items item_ok item_per_page p ->
  length (pageBytes p) = pageSize /\ Forall byte_ok (pageBytes p) /\ pageOf (pageBytes p) = p.
Proof using P.
  intros [Lp Hp]. unfold pageBytes, pageOf, pageSize.
  assert (F : Forall (fun b => length b = itemSize) (enc <$> p)).
  { apply Forall_fmap. eapply Forall_impl; [exact Hp|]. intros x Hx. by apply (fp_enc P). }
  split_and!.
  - by rewrite (concat_length_eq itemSize), length_fmap, Lp.
  - apply Forall_concat, Forall_fmap. eapply Forall_impl; [exact Hp|]. intros x Hx. by apply (fp_enc P).
  - rewrite <-Lp at 1. rewrite <-(length_fmap enc p), blocks_of_concat by done.
    rewrite <-list_fmap_compose. transitivity (id <$> p); [|apply list_fmap_id].
    apply Forall_fmap_ext_1. eapply Forall_impl; [exact Hp|]. intros x Hx. by apply (fp_enc P).
Qed.

(** Encrypted pages keep the promise of the interface. *)
#[local] Instance fresh_pages_ok : PageCipherOk (list T) (page_of_items item_ok item_per_page).
Proof using P.
  destruct (fp_stack P) as (Ld & Lt & Ot). pose proof (fp_size P). pose proof (fp_context P). pose proof (fp_key P).
  assert (S : forall iv p, length iv = 12 -> Forall byte_ok iv -> page_of_items item_ok item_per_page p ->
    seal iv p = fresh_cipher after_key (pageBytes p) iv ++ memcpy_at 0 (fresh_mac after_key (pageBytes p) iv) (fresh_tag stack)).
  { intros iv p Li Oi Hp. destruct (page_bytes_spec p Hp) as (L & O & _). cbn [seal fresh_pages].
    rewrite FreshEncrypted_Encrypt_spec by (done || rewrite ?L; lia). done. }
  split; intros iv p Li Oi Hp; destruct (page_bytes_spec p Hp) as (L & O & E); rewrite S by done;
    destruct (fresh_cipher_ok after_key (pageBytes p) iv O) as [Lc _]; destruct (fresh_mac_ok after_key (pageBytes p) iv) as [Lm Om].
  - rewrite length_app, memcpy_at_length, Lc, L, Lt by lia. done.
  - cbn [unseal fresh_pages]. rewrite take_app_length', drop_app_length' by lia.
    rewrite FreshEncrypted_Decrypt_spec by (done || by apply memcpy_at_ok || (rewrite ?L, ?length_replicate, ?memcpy_at_length; lia)).
    rewrite bool_decide_eq_true_2; [by cbn; rewrite E|]. rewrite <-Lm. apply (memcpy_at_take 0); lia.
Qed.

(** C19: A cached vector of encrypted items refines an abstract vector.  Make a
    vector of [N] items of any default value, on a server that has room for its
    pages, and let a client get and set items with indices below [N] in any
    order.  No access aborts, every value read is the one the abstract vector
    gives, and the bytes of the server outside the vector's slot are not
    touched; every page that leaves the cache is encrypted and authenticated
    under the nonce of its index, and every page that comes back passes.  If
    the default value is the value-initialised item, the abstract vector is an
    array in memory, filled with the default.  With any other default it
    differs on the first page only: the untouched slot 0 of the cache passes
    for it, so until another page takes that slot the first page reads as
    value-initialised items, and a store makes it a page of these. *)
Theorem ExtVector_refines (self : frontend) (C N : nat) (zero defaultVal : T) (data : bytes) (ops : list vector_op) :
  0 < item_per_page -> 0 < C -> item_ok zero -> item_ok defaultVal ->
  slotBase self + (N / item_per_page + 1) * cipherSize <= length data ->
  Forall (op_ok item_ok N) ops ->
  exists xs c', spec_run C item_per_page zero ops (replicate N defaultVal) true = Some xs /\
    (zero = defaultVal -> array_run ops (replicate N defaultVal) = Some xs) /\
    (c ← newVector self C item_per_page N zero defaultVal data; vector_run self C item_per_page ops c) = Some (xs, c') /\
    forall q, q < slotBase self \/ slotBase self + (N / item_per_page + 1) * cipherSize <= q -> store c' !! q = data !! q.
Proof using P.
  intros Hipp HC Hz Hd Hroom Hops.
  destruct (newVector_inv item_ok item_per_page C self data Hipp HC zero N defaultVal Hd Hroom) as (c & -> & V).
  cbn [mbind option_bind]. rewrite <-(length_replicate N defaultVal) in Hops.
  destruct (fresh_run_spec item_ok item_per_page C self data Hipp HC zero Hz ops _ c V Hops) as (xs & arr' & c' & E & E' & L & V').
  exists xs, c'. split; [done|]. split.
  { intros <-. rewrite <-E. symmetry. apply spec_run_zero; [done|]. unfold zero_page. rewrite length_replicate, drop_replicate, <-replicate_add.
    f_equal. lia. }
  split; [done|]. intros q Hq. destruct V' as [V'|V'].
  - apply (vector_inv_frame item_ok item_per_page C self data arr' c' q V'). by rewrite L, length_replicate.
  - apply (fresh_inv_frame item_ok item_per_page C self data zero arr' c' q V'). by rewrite L, length_replicate.
Qed.
End fresh_pages.

(** Pages of two 64-bit integers. *)
Definition demo_stack : FreshEncrypted := mkFresh (replicate 16 0%Z) (replicate 32 9%Z).
Definition demo_cipher : PageCipher (list Z) :=
  fresh_pages br_enc64le br_dec64le 8 2 test_context (replicate 16 3%Z) demo_stack.

Lemma demo_params : fresh_params (in_width 64) br_enc64le br_dec64le 8 2 test_context (replicate 16 3%Z) demo_stack.
Proof.
  split; [|reflexivity|reflexivity|split; [reflexivity|by apply Forall_replicate]|split_and!; [reflexivity..|by apply Forall_replicate]].
  intros x Hx. split; [apply enc64le_length|]. split; [apply enc64le_ok|by apply dec_enc64le].
Qed.

Definition demo_server : frontend := mkFrontend 7 12345%Z 678%Z.
Definition demo_ops : list (vector_op (T := Z)) := [OpAt 0 10%Z; OpAt 4 14%Z; OpGet 0; OpAt 2 12%Z; OpGet 4; OpGet 1; OpGet 2].

Lemma ExtVector_refines_witness :
  let data := replicate 160 0%Z in
  exists c' : cached (list Z),
    (c ← @newVector Z demo_cipher demo_server 2 2 5 0%Z 77%Z data;
     @vector_run Z demo_cipher demo_server 2 2 demo_ops c) = Some ([10; 14; 0; 12]%Z, c') /\
    forall q, q < 7 \/ 151 <= q -> store c' !! q = data !! q.
Proof.
  destruct (ExtVector_refines (in_width 64) br_enc64le br_dec64le 8 2 test_context (replicate 16 3%Z) demo_stack demo_params
    demo_server 2 5 0%Z 77%Z (replicate 160 0%Z) demo_ops) as (xs & c' & E & _ & R & F).
  - lia.
  - lia.
  - split; reflexivity || discriminate.
  - split; reflexivity || discriminate.
  - apply Nat.leb_le. reflexivity.
  - repeat constructor; cbn; try lia; reflexivity || discriminate.
  - exists c'. injection E as <-. split; [exact R|]. intros q Hq. apply F. exact Hq.
Defined.

(** The first page of a fresh vector with default 77 reads as zero until slot 0
    is used for another page. *)
Example fresh_vector_reads_zero :
  (c ← @newVector Z demo_cipher demo_server 2 2 5 0%Z 77%Z (replicate 160 0%Z);
   xs ← @vector_run Z demo_cipher demo_server 2 2 [OpGet 0; OpGet 3; OpGet 4; OpGet 0] c; Some xs.1) = Some [0; 77; 77; 77]%Z.
Proof. vm_compute. reflexivity. Qed.
