(* ===== verification/NonCachedVector.v ===== *)
(** * The non-cached vector (osort/external_memory/noncachedvector.hpp)

    The vector that the sorts read and write: [CopyOut] and [CopyIn] move a
    range between memory and its pages, [Reader] and [Writer] go through a
    range in order.  The build without disk I/O is modelled, where the lazy
    operations of the server are the direct ones.  Every access has a counter,
    which is part of the nonce of the page. *)
From S2P Require Import Prelude Inner Gcm EncUtils PageStore.

Section vector.
Context {T : Type} `{!PageCipher (list T)} (self : frontend) (item_per_page N : nat).

(** The members that change: the page instance that the copies go through, and
    what the server stores. *)
Record vec := mkVec { cachePage : list T; srv : bytes }.

(** [divRoundUp(N, item_per_page)]: the pages that the constructor allocates. *)
Definition pageCount : nat := (N + item_per_page - 1) / item_per_page.

(** ** Copies *)

(** [CopyOut(begin, end, to, counter)]; [inp] is the range [begin, end). *)
Definition CopyOut (inp : list T) (to : nat) (counter : Z) (v : vec) : option vec :=
  let inputSize := length inp in
  let toBeginOffset := to mod item_per_page in let toBeginPageIdx := to / item_per_page in
  let toEnd := to + inputSize in
  let toEndOffset := toEnd mod item_per_page in let toEndPageIdx := toEnd / item_per_page in
  if toBeginPageIdx =? toEndPageIdx then
    if inputSize =? 0 then Some v else
      page ← (if negb (to =? 0) || negb (toEnd =? N) then
                if (0 <? counter)%Z then Read self toBeginPageIdx (counter - 1) (srv v) else Some (cachePage v)
              else Some (cachePage v));
      page ← write_at toBeginOffset inp page;
      data ← Write self toBeginPageIdx page counter (srv v);
      Some (mkVec page data)
  else
    '(v, from, toBeginPageIdx) ←
      (if negb (toBeginOffset =? 0) then
         page ← (if negb (to =? 0) then Read self toBeginPageIdx counter (srv v) else Some (cachePage v));
         page ← write_at toBeginOffset (take (item_per_page - toBeginOffset) inp) page;
         data ← Write self toBeginPageIdx page counter (srv v);
         Some (mkVec page data, item_per_page - toBeginOffset, S toBeginPageIdx)
       else Some (v, 0, toBeginPageIdx));
    data ← loopM (fun pageIdx data =>
        Write self pageIdx (slice (from + (pageIdx - toBeginPageIdx) * item_per_page) item_per_page inp) counter data)
      toBeginPageIdx (toEndPageIdx - toBeginPageIdx) (srv v);
    let from := from + (toEndPageIdx - toBeginPageIdx) * item_per_page in
    if negb (toEndOffset =? 0) then
      page ← (if negb (toEnd =? N) then
                if (0 <? counter)%Z then Read self toEndPageIdx (counter - 1) data else Some (cachePage v)
              else Some (cachePage v));
      page ← write_at 0 (slice from toEndOffset inp) page;
      data ← Write self toEndPageIdx page counter data;
      Some (mkVec page data)
    else Some (mkVec (cachePage v) data).

(** [CopyIn(begin, end, to, counter)]: what is written to [to]. *)
Definition CopyIn (begin fin : nat) (counter : Z) (v : vec) : option (list T * vec) :=
  let beginOffset := begin mod item_per_page in let beginPageIdx := begin / item_per_page in
  let endOffset := fin mod item_per_page in let endPageIdx := fin / item_per_page in
  '(out, v, pageIdx, done) ←
    (if negb (beginOffset =? 0) then
       let endPageOffset := if beginPageIdx =? endPageIdx then endOffset else item_per_page in
       page ← Read self beginPageIdx counter (srv v);
       Some (slice beginOffset (endPageOffset - beginOffset) page, mkVec page (srv v), S beginPageIdx, beginPageIdx =? endPageIdx)
     else Some ([], v, beginPageIdx, false));
  if (done : bool) then Some (out, v) else
    pages ← mapM (fun i => Read self i counter (srv v)) (seq pageIdx (endPageIdx - pageIdx));
    if negb (endOffset =? 0) then
      page ← Read self endPageIdx counter (srv v);
      Some (out ++ concat pages ++ take endOffset page, mkVec page (srv v))
    else Some (out ++ concat pages, v).

(** ** Reader *)

(** [curr] is a position in [cache]; [None] is the value before the first
    access, which lies behind every position. *)
Record Reader := mkReader { r_cache : list T; r_it : nat; r_end : nat; r_curr : option nat; r_counter : Z }.

Definition newReader (cache : list T) (begin fin : nat) (counter : Z) : Reader := mkReader cache begin fin None counter.

(** [get()], for a reader that is not at its end. *)
Definition get (r : Reader) (data : bytes) : option (T * Reader) :=
  if r_end r <=? r_it r then None else
  '(cache, curr) ←
    match r_curr r with
    | Some c =>
        if item_per_page <=? c then
          cache ← Read self (r_it r / item_per_page) (r_counter r) data;
          Some (cache, if negb (c =? item_per_page) then r_it r mod item_per_page else 0)
        else Some (r_cache r, c)
    | None =>
        cache ← Read self (r_it r / item_per_page) (r_counter r) data;
        Some (cache, r_it r mod item_per_page)
    end;
  x ← cache !! curr;
  Some (x, mkReader cache (r_it r) (r_end r) (Some curr) (r_counter r)).

Definition read (r : Reader) (data : bytes) : option (T * Reader) :=
  '(x, r) ← get r data;
  Some (x, mkReader (r_cache r) (S (r_it r)) (r_end r) (S <$> r_curr r) (r_counter r)).

Definition reader_eof (r : Reader) : bool := r_end r <=? r_it r.

(** Reading [n] items. *)
Fixpoint readMany (n : nat) (r : Reader) (data : bytes) : option (list T * Reader) :=
  match n with
  | O => Some ([], r)
  | S n => '(x, r) ← read r data; '(xs, r) ← readMany n r data; Some (x :: xs, r)
  end.

(** ** Writer *)

Record Writer := mkWriter { w_cache : list T; w_it : nat; w_end : nat; w_curr : nat; w_counter : Z }.

(** [init(begin, end, counter)]; [cache] is what the member held before.  With
    assertions, the range may not end behind the vector. *)
Definition newWriter (ndebug : bool) (cache : list T) (begin fin : nat) (counter : Z) (data : bytes) : option Writer :=
  if negb ndebug && (N <? fin) then None else
  let pageOffset := begin mod item_per_page in
  cache ← (if negb (pageOffset =? 0) && negb (begin =? 0) then Read self (begin / item_per_page) counter data else Some cache);
  Some (mkWriter cache begin fin pageOffset counter).

Definition write (element : T) (w : Writer) (data : bytes) : option (Writer * bytes) :=
  cache ← write_at (w_curr w) [element] (w_cache w);
  let curr := S (w_curr w) in let it := S (w_it w) in
  if curr =? item_per_page then
    data ← Write self (it / item_per_page - 1) cache (w_counter w) data;
    Some (mkWriter cache it (w_end w) 0 (w_counter w), data)
  else Some (mkWriter cache it (w_end w) curr (w_counter w), data).

Definition writer_eof (w : Writer) : bool := w_end w <=? w_it w.

(** [flush()]; [original] is the uninitialised page on the stack. *)
Definition flush (original : list T) (w : Writer) (data : bytes) : option bytes :=
  let pageOffset := w_it w mod item_per_page in let pageIdx := w_it w / item_per_page in
  if negb (pageOffset =? 0) then
    originalPage ← (if negb (w_it w =? N) && (w_counter w =? 0)%Z then Read self pageIdx (w_counter w) data else Some original);
    originalPage ← write_at 0 (take pageOffset (w_cache w)) originalPage;
    Write self pageIdx originalPage (w_counter w) data
  else Some data.

Fixpoint writeMany (xs : list T) (w : Writer) (data : bytes) : option (Writer * bytes) :=
  match xs with
  | [] => Some (w, data)
  | x :: xs => '(w, data) ← write x w data; writeMany xs w data
  end.
End vector.
Arguments vec : clear implicits.
Arguments Reader : clear implicits.
Arguments Writer : clear implicits.

(** ** Proofs *)

Section correct.
Context {T : Type} (item_ok : T -> Prop) (P N : nat).
Notation page_ok := (page_of_items item_ok P).
Context `{!PageCipher (list T)} `{!PageCipherOk (list T) page_ok} (self : frontend).

(** Page [q] opens under a counter. *)
Definition readable (counter : Z) (data : bytes) (q : nat) : Prop := exists p, Read self q counter data = Some p /\ page_ok p.

(** Item [j] of the vector is [x]. *)
Definition holds (counter : Z) (data : bytes) (j : nat) (x : T) : Prop :=
  exists p, Read self (j / P) counter data = Some p /\ page_ok p /\ p !! (j mod P) = Some x.

(** The range that starts at [b] is [xs]. *)
Definition stored (counter : Z) (data : bytes) (b : nat) (xs : list T) : Prop :=
  forall i x, xs !! i = Some x -> holds counter data (b + i) x.

(** The server has room for the pages of the vector. *)
Definition room (data : bytes) : Prop := slotBase self + pageCount P N * cipherSize <= length data.

Section writing.
Context (HP : 0 < P) (counter : Z) (b : nat) (xs : list T) (d0 : bytes).
Context (Hroom : room d0) (Hxs : Forall item_ok xs) (HN : b + length xs <= N).

(** The first [f] items are stored; the pages that are not reached are as
    before. *)
Record progress (f : nat) (d : bytes) : Prop := {
  pr_le : f <= length xs;
  pr_length : length d = length d0;
  pr_stored : stored counter d b (take f xs);
  pr_frame q c : q < b / P \/ b + f <= q * P -> Read self q c d = Read self q c d0 }.

Lemma progress_0 : progress 0 d0.
Proof. clear HP HN Hroom. split; [lia|done| |done]. intros i x. by rewrite take_0. Qed.

(** Storing the next [n] items in the page they belong to. *)
Lemma write_step f d q o n p : progress f d -> b + f = q * P + o -> o + n <= P -> 0 < n -> f + n <= length xs ->
  f = 0 \/ o = 0 -> page_ok p -> slice o n p = slice f n xs ->
  exists d', Write self q p counter d = Some d' /\ progress (f + n) d'.
Proof.
  intros [Hf Hl Hs Hfr] E Ho Hn Hfn H0 Hp Hsl.
  assert (Hq : q < pageCount P N).
  { unfold pageCount. apply Nat.div_le_lower_bound; [lia|]. nia. }
  destruct (Write_spec self q p counter d Hp) as (d' & W & L & R & O & _).
  { unfold room in Hroom. rewrite Hl. nia. }
  assert (Eq : (b + f) / P = q) by (symmetry; apply (Nat.div_unique _ _ _ o); lia).
  exists d'. split; [exact W|]. split; [lia|congruence| |].
  - intros i x Hi. apply lookup_take_Some in Hi as [Hi Hlt]. destruct (decide (i < f)) as [Hif|Hif].
    + destruct (Hs i x) as (p' & Hr & Hok & Hx); [by apply lookup_take_Some|]. exists p'. split; [|done].
      rewrite O; [exact Hr|]. intros E'. destruct H0 as [->| ->]; [lia|].
      pose proof (Nat.div_mod_eq (b + i) P). pose proof (Nat.mod_upper_bound (b + i) P). nia.
    + assert (Hd : (b + i) / P = q) by (symmetry; apply (Nat.div_unique _ _ _ (o + (i - f))); lia).
      assert (Hm : (b + i) mod P = o + (i - f)) by (pose proof (Nat.div_mod_eq (b + i) P); nia).
      exists p. rewrite Hd, Hm. split; [exact R|]. split; [done|].
      rewrite <-(slice_lookup o n p), Hsl, slice_lookup by lia. by replace (f + (i - f)) with i by lia.
  - intros q' c Hq'. rewrite O; [apply Hfr|]; [destruct Hq'; [by left|right; lia]|].
    intros ->. destruct Hq' as [Hq'|Hq']; [|nia].
    assert (b / P <= (b + f) / P) by (apply Nat.Div0.div_le_mono; lia). lia.
Qed.

(** Whole pages. *)
Lemma write_pages f d q k : progress f d -> b + f = q * P -> f + k * P <= length xs ->
  exists d', loopM (fun i d => Write self i (slice (f + (i - q) * P) P xs) counter d) q k d = Some d' /\ progress (f + k * P) d'.
Proof.
  intros Hpr E Hk.
  destruct (loopM_inv (fun i d => progress (f + (i - q) * P) d) (fun i d => Write self i (slice (f + (i - q) * P) P xs) counter d) k q d)
    as (d' & Hl & Hd).
  - by replace (f + (q - q) * P) with f by lia.
  - intros i d1 Hi H1. destruct (write_step (f + (i - q) * P) d1 i 0 P (slice (f + (i - q) * P) P xs) H1) as (d2 & W & H2);
      [nia|lia|lia|nia|by right| |by apply slice_0_all, slice_length; nia|].
    + split; [apply slice_length; nia|]. by apply Forall_take, Forall_drop.
    + exists d2. split; [exact W|]. by replace (f + (S i - q) * P) with (f + (i - q) * P + P) by nia.
  - exists d'. split; [exact Hl|]. by replace (q + k - q) with k in Hd by lia.
Qed.

(** Some items of a page replaced. *)
Lemma patch_page o ys p : page_ok p -> o + length ys <= P -> Forall item_ok ys ->
  exists p', write_at o ys p = Some p' /\ page_ok p' /\ slice o (length ys) p' = ys.
Proof.
  clear HP HN Hroom. intros [Lp Fp] Ho Hy. destruct (write_at_Some o ys p) as (p' & E & L & S & _); [lia|].
  exists p'. split; [exact E|]. split; [|exact S]. split; [lia|]. by eapply write_at_Forall.
Qed.

(** What [CopyOut] reads first: the page of a partial end must open, unless the
    page instance takes its place. *)
Record copy_ready : Prop := {
  cr_first : b / P <> (b + length xs) / P -> b mod P <> 0 -> readable counter d0 (b / P);
  cr_last : (0 < counter)%Z -> (b + length xs) mod P <> 0 ->
    (b + length xs = N /\ (b = 0 \/ b / P <> (b + length xs) / P)) \/ readable (counter - 1) d0 ((b + length xs) / P) }.

Lemma CopyOut_single page : copy_ready -> page_ok page -> b / P = (b + length xs) / P ->
  exists v', CopyOut self P N xs b counter (mkVec page d0) = Some v' /\ progress (length xs) (srv v').
Proof.
  intros [_ Hl] Hp E. unfold CopyOut. rewrite (proj2 (Nat.eqb_eq _ _) E). destruct (length xs =? 0) eqn:Ez.
  { apply Nat.eqb_eq in Ez. eexists. split; [reflexivity|]. rewrite Ez. cbn [srv]. apply progress_0. }
  apply Nat.eqb_neq in Ez. pose proof (Nat.div_mod_eq b P). pose proof (Nat.div_mod_eq (b + length xs) P).
  pose proof (Nat.mod_upper_bound (b + length xs) P ltac:(lia)). cbn [srv cachePage].
  match goal with |- exists v', (?rd ≫= _) = _ /\ _ => assert (Hrd : exists p, rd = Some p /\ page_ok p) end.
  { destruct (negb (b =? 0) || negb (b + length xs =? N)) eqn:Eb; [|by exists page]. destruct (0 <? counter)%Z eqn:Ec; [|by exists page].
    rewrite E. destruct Hl as [[Hn Hb]|Hr]; [lia|nia| |exact Hr]. exfalso. destruct Hb as [Hb|Hb]; [|done].
    rewrite Hn, Hb, !Nat.eqb_refl in Eb. done. }
  destruct Hrd as (p & -> & Hok). cbn [mbind option_bind].
  destruct (patch_page (b mod P) xs p Hok) as (p' & -> & Hok' & Hsl); [nia|done|]. cbn [mbind option_bind].
  destruct (write_step 0 d0 (b / P) (b mod P) (length xs) p' progress_0) as (d' & -> & Hd); [lia|nia|lia|lia|by left|done| |].
  { by rewrite Hsl, slice_all. }
  cbn [mbind option_bind]. eexists. split; [reflexivity|exact Hd].
Qed.

(** The first, partial, page of a range that goes on behind it. *)
Lemma CopyOut_first page : copy_ready -> page_ok page -> b / P <> (b + length xs) / P ->
  exists v' f q, (if negb (b mod P =? 0) then
       page ← (if negb (b =? 0) then Read self (b / P) counter d0 else Some page);
       page ← write_at (b mod P) (take (P - b mod P) xs) page;
       data ← Write self (b / P) page counter d0;
       Some (mkVec page data, P - b mod P, S (b / P))
     else Some (mkVec page d0, 0, b / P)) = Some (v', f, q) /\
    page_ok (cachePage v') /\ progress f (srv v') /\ b + f = q * P.
Proof.
  intros [Hf _] Hp Hne. pose proof (Nat.div_mod_eq b P) as Eb. pose proof (Nat.mod_upper_bound b P ltac:(lia)).
  assert (Hlt : b / P < (b + length xs) / P).
  { assert (b / P <= (b + length xs) / P) by (apply Nat.Div0.div_le_mono; lia). lia. }
  pose proof (Nat.div_mod_eq (b + length xs) P). destruct (b mod P =? 0) eqn:Em; cbn [negb].
  { apply Nat.eqb_eq in Em. eexists _, _, _. split; [reflexivity|]. cbn [cachePage srv]. split; [done|]. split; [apply progress_0|]. nia. }
  apply Nat.eqb_neq in Em. assert (b <> 0) by (intros ->; by rewrite Nat.Div0.mod_0_l in Em).
  rewrite (proj2 (Nat.eqb_neq b 0)) by done. cbn [negb]. destruct (Hf Hne Em) as (p & -> & Hok). cbn [mbind option_bind].
  assert (Hlx : P - b mod P <= length xs) by nia.
  assert (Lt : length (take (P - b mod P) xs) = P - b mod P) by (rewrite length_take; lia).
  destruct (patch_page (b mod P) (take (P - b mod P) xs) p Hok) as (p' & -> & Hok' & Hsl); [lia|by apply Forall_take|]. cbn [mbind option_bind].
  rewrite Lt in Hsl. destruct (write_step 0 d0 (b / P) (b mod P) (P - b mod P) p' progress_0) as (d' & -> & Hd);
    [lia|lia|lia|lia|by left|done|by rewrite Hsl|].
  cbn [mbind option_bind]. eexists _, _, _. split; [reflexivity|]. cbn [cachePage srv]. split; [done|]. split; [exact Hd|]. nia.
Qed.

Lemma CopyOut_spec page : copy_ready -> page_ok page ->
  exists v', CopyOut self P N xs b counter (mkVec page d0) = Some v' /\ progress (length xs) (srv v').
Proof.
  intros Hr Hp. destruct (decide (b / P = (b + length xs) / P)) as [E|Hne]; [by apply CopyOut_single|].
  destruct (CopyOut_first page Hr Hp Hne) as (v1 & f & q & E1 & Hp1 & Hpr & Eq).
  unfold CopyOut. rewrite (proj2 (Nat.eqb_neq _ _)) by done. cbn [srv cachePage]. rewrite E1. cbn [mbind option_bind]. clear E1.
  pose proof (Nat.div_mod_eq (b + length xs) P) as Ee. pose proof (Nat.mod_upper_bound (b + length xs) P ltac:(lia)) as He.
  set (ep := (b + length xs) / P) in *. assert (Hq : q <= ep) by (pose proof (pr_le _ _ Hpr); nia).
  destruct (write_pages f (srv v1) q (ep - q) Hpr Eq) as (d2 & -> & H2); [nia|]. cbn [mbind option_bind].
  destruct ((b + length xs) mod P =? 0) eqn:Em; cbn [negb].
  { apply Nat.eqb_eq in Em. eexists. split; [reflexivity|]. cbn [srv]. by replace (length xs) with (f + (ep - q) * P) by nia. }
  apply Nat.eqb_neq in Em. set (f2 := f + (ep - q) * P) in *.
  match goal with |- exists v', (?rd ≫= _) = _ /\ _ => assert (Hrd : exists p, rd = Some p /\ page_ok p) end.
  { destruct (b + length xs =? N) eqn:En; cbn [negb]; [by eexists|]. destruct (0 <? counter)%Z eqn:Ec; [|by eexists].
    destruct (cr_last Hr) as [[Hn _]|(p & Hrd & Hok)]; [lia|done|apply Nat.eqb_neq in En; congruence|].
    exists p. split; [|done]. rewrite (pr_frame _ _ H2); [exact Hrd|]. right. nia. }
  destruct Hrd as (p & -> & Hok). cbn [mbind option_bind].
  assert (L2 : f2 + (b + length xs) mod P = length xs) by nia.
  assert (Ls : length (slice f2 ((b + length xs) mod P) xs) = (b + length xs) mod P) by (apply slice_length; lia).
  destruct (patch_page 0 (slice f2 ((b + length xs) mod P) xs) p Hok) as (p' & -> & Hok' & Hsl);
    [lia|by apply Forall_take, Forall_drop|]. cbn [mbind option_bind]. rewrite Ls in Hsl.
  destruct (write_step f2 d2 ep 0 ((b + length xs) mod P) p' H2) as (d3 & -> & H3); [nia|lia|lia|lia|by right|done|done|].
  cbn [mbind option_bind]. eexists. split; [reflexivity|]. cbn [srv]. by rewrite L2 in H3.
Qed.

(** What a writer reads: the page of a partial end must open, at the end only
    for counter 0 and inside the vector. *)
Record writer_ready : Prop := {
  wr_first : b mod P <> 0 -> readable counter d0 (b / P);
  wr_last : counter = 0%Z -> (b + length xs) mod P <> 0 -> b + length xs <> N -> readable counter d0 ((b + length xs) / P) }.

(** A writer that was given [i] items: those of earlier pages are stored, the
    others are in its cache. *)
Record writer_ok (i : nat) (w : Writer T) (d : bytes) : Prop := {
  wo_it : w_it w = b + i;
  wo_counter : w_counter w = counter;
  wo_curr : w_curr w = (b + i) mod P;
  wo_page : page_ok (w_cache w);
  wo_le : (b + i) / P * P - b <= i;
  wo_progress : progress ((b + i) / P * P - b) d;
  wo_start : (b + i) / P * P <= b -> d = d0;
  wo_cache : slice (b - (b + i) / P * P) (i - ((b + i) / P * P - b)) (w_cache w) =
    slice ((b + i) / P * P - b) (i - ((b + i) / P * P - b)) xs }.

Lemma newWriter_spec ndebug cache fin : writer_ready -> page_ok cache -> ndebug = true \/ fin <= N ->
  exists w, newWriter self P N ndebug cache b fin counter d0 = Some w /\ writer_ok 0 w d0.
Proof.
  intros [Hf _] Hc Hn. unfold newWriter. assert (negb ndebug && (N <? fin) = false) as ->.
  { destruct Hn as [->|Hn]; [done|]. rewrite (proj2 (Nat.ltb_ge _ _) Hn). apply andb_false_r. }
  pose proof (Nat.div_mod_eq b P).
  match goal with |- exists w, (?rd ≫= _) = _ /\ _ => assert (Hrd : exists p, rd = Some p /\ page_ok p) end.
  { destruct (b mod P =? 0) eqn:Em; [by eexists|]. apply Nat.eqb_neq in Em. cbn [negb andb].
    destruct (b =? 0); [by eexists|]. by apply Hf. }
  destruct Hrd as (p & -> & Hok). cbn [mbind option_bind]. eexists. split; [reflexivity|].
  split; cbn [w_it w_counter w_curr w_cache]; rewrite ?Nat.add_0_r; try done; try lia.
  - replace (b / P * P - b) with 0 by lia. apply progress_0.
Qed.

(** One more item in the cache. *)
Lemma cache_item lo f n x (cache : list T) : length cache = P -> lo + n < P -> xs !! (f + n) = Some x ->
  slice lo n cache = slice f n xs ->
  exists cache', write_at (lo + n) [x] cache = Some cache' /\ length cache' = P /\ slice lo (S n) cache' = slice f (S n) xs.
Proof.
  clear HP HN Hroom Hxs. intros Lc Hn Hx Hs. destruct (write_at_Some (lo + n) [x] cache) as (cache' & E & L & S & O); [cbn; lia|].
  exists cache'. split; [exact E|]. split; [congruence|]. assert (f + n < length xs) by (by eapply lookup_lt_Some).
  apply list_eq_same_length with (Datatypes.S n); [apply slice_length; lia|apply slice_length; lia|].
  intros t y z Ht Hy Hz. rewrite slice_lookup in Hy, Hz by done. destruct (decide (t = n)) as [->|Hne].
  - assert (cache' !! (lo + n) = Some x); [|congruence]. replace (lo + n) with (lo + n + 0) by lia. cbn [length] in S.
    rewrite <-(slice_lookup (lo + n) 1 cache' 0), S by lia. done.
  - rewrite O in Hy by (cbn; lia). rewrite <-(slice_lookup lo n) in Hy by lia. rewrite Hs, slice_lookup in Hy by lia. congruence.
Qed.

Lemma write_spec i w d x : writer_ok i w d -> xs !! i = Some x ->
  exists w' d', write self P x w d = Some (w', d') /\ writer_ok (S i) w' d'.
Proof.
  intros [Wit Wc Wcur [Lc Fc] Wle Wp Ws Wca] Hx. assert (Hi : i < length xs) by (by eapply lookup_lt_Some).
  pose proof (Nat.div_mod_eq (b + i) P) as Ed. pose proof (Nat.mod_upper_bound (b + i) P ltac:(lia)) as Hm.
  set (q := (b + i) / P) in *. set (f := q * P - b) in *. set (lo := b - q * P) in *.
  assert (Elo : lo + (i - f) = (b + i) mod P) by nia.
  destruct (cache_item lo f (i - f) x (w_cache w) Lc) as (cache' & E & Lc' & Sc'); [lia|by replace (f + (i - f)) with i by lia|done|].
  assert (Hok : page_ok cache').
  { split; [done|]. eapply write_at_Forall; [exact E| |exact Fc]. constructor; [|constructor].
    rewrite Forall_forall in Hxs. apply Hxs. by eapply list_elem_of_lookup_2. }
  unfold write. rewrite Wcur, <-Elo, E. cbn [mbind option_bind]. rewrite Elo, Wit, Wc. destruct (S ((b + i) mod P) =? P) eqn:Ep.
  - apply Nat.eqb_eq in Ep. assert (E1 : S (b + i) / P = S q) by (symmetry; apply (Nat.div_unique _ _ _ 0); nia).
    assert (E2 : S (b + i) mod P = 0) by (symmetry; apply (Nat.mod_unique _ _ (S q)); nia).
    rewrite E1, Nat.sub_1_r. cbn [Nat.pred].
    destruct (write_step f d q lo (S (i - f)) cache' Wp) as (d' & -> & Hd); [nia|lia|lia|lia|nia|done|done|].
    cbn [mbind option_bind]. eexists _, _. split; [reflexivity|].
    replace (f + S (i - f)) with (S i) in Hd by lia.
    split; cbn [w_it w_counter w_curr w_cache]; rewrite ?Nat.add_succ_r, ?E1, ?E2; try done; try nia.
    + by replace (S q * P - b) with (S i) by nia.
    + replace (S q * P - b) with (S i) by nia. by rewrite Nat.sub_diag.
  - apply Nat.eqb_neq in Ep. assert (E1 : S (b + i) / P = q) by (symmetry; apply (Nat.div_unique _ _ _ (S ((b + i) mod P))); lia).
    assert (E2 : S (b + i) mod P = S ((b + i) mod P)) by (symmetry; apply (Nat.mod_unique _ _ q); lia).
    eexists _, _. split; [reflexivity|].
    split; cbn [w_it w_counter w_curr w_cache]; rewrite ?Nat.add_succ_r, ?E1, ?E2; try done; try lia.
    fold f lo. by replace (S i - f) with (S (i - f)) by lia.
Qed.

Lemma writeMany_spec ys : forall i w d, writer_ok i w d -> drop i xs = ys ->
  exists w' d', writeMany self P ys w d = Some (w', d') /\ writer_ok (i + length ys) w' d'.
Proof.
  induction ys as [|y ys IH]; intros i w d Hw Hd; [exists w, d; split; [done|by rewrite Nat.add_0_r]|].
  assert (Hx : xs !! i = Some y) by (rewrite <-(Nat.add_0_r i), <-lookup_drop, Hd; done).
  destruct (write_spec i w d y Hw Hx) as (w1 & d1 & E & H1). cbn [writeMany]. rewrite E. cbn [mbind option_bind length].
  destruct (IH (S i) w1 d1 H1) as (w2 & d2 & E2 & H2); [|exists w2, d2; by rewrite Nat.add_succ_r].
  rewrite (drop_S xs y i Hx) in Hd. by injection Hd.
Qed.

Lemma flush_spec original w d : writer_ready -> page_ok original -> 0 < length xs -> writer_ok (length xs) w d ->
  exists d', flush self P N original w d = Some d' /\ progress (length xs) d'.
Proof.
  intros Hr Ho Hne [Wit Wc Wcur Hcok Wle Wp Ws Wca]. unfold flush. rewrite Wit, Wc.
  pose proof (Nat.div_mod_eq (b + length xs) P) as Ed. pose proof (Nat.mod_upper_bound (b + length xs) P ltac:(lia)) as Hm.
  set (q := (b + length xs) / P) in *. set (f := q * P - b) in *. set (lo := b - q * P) in *. set (off := (b + length xs) mod P) in *.
  assert (Elo : lo + (length xs - f) = off) by nia. destruct (off =? 0) eqn:Eo; cbn [negb].
  { apply Nat.eqb_eq in Eo. exists d. split; [done|]. by replace (length xs) with f by lia. }
  apply Nat.eqb_neq in Eo.
  match goal with |- exists d', (?rd ≫= _) = _ /\ _ => assert (Hrd : exists p, rd = Some p /\ page_ok p) end.
  { destruct (b + length xs =? N) eqn:En; cbn [negb andb]; [by eexists|]. destruct (counter =? 0)%Z eqn:Ec; [|by eexists].
    apply Nat.eqb_neq in En. apply Z.eqb_eq in Ec. destruct (wr_last Hr Ec Eo En) as (p & Hp & Hok). fold q in Hp. exists p. split; [|done].
    destruct (Nat.le_gt_cases (q * P) b) as [Hq|Hq]; [by rewrite (Ws Hq)|]. rewrite (pr_frame _ _ Wp); [exact Hp|]. right. lia. }
  destruct Hrd as (p & -> & Hok). cbn [mbind option_bind]. destruct Hcok as [Lc Fc].
  assert (Lt : length (take off (w_cache w)) = off) by (rewrite length_take; lia).
  destruct (patch_page 0 (take off (w_cache w)) p Hok) as (p' & -> & Hok' & Hsl); [lia|by apply Forall_take|]. cbn [mbind option_bind].
  rewrite Lt in Hsl. destruct (write_step f d q lo (length xs - f) p' Wp) as (d' & -> & Hd); [nia|lia|nia|lia|nia|done| |].
  - rewrite <-Wca. change (take off (w_cache w)) with (slice 0 off (w_cache w)) in Hsl.
    transitivity (slice lo (length xs - f) (slice 0 off p')); [by rewrite slice_slice by lia|]. rewrite Hsl. by rewrite slice_slice by lia.
  - exists d'. split; [done|]. by replace (f + (length xs - f)) with (length xs) in Hd by lia.
Qed.

(** A writer stores the items it is given. *)
Lemma Writer_spec ndebug cache original fin : writer_ready -> page_ok cache -> page_ok original -> 0 < length xs ->
  ndebug = true \/ fin <= N ->
  exists w d1 d2, (w ← newWriter self P N ndebug cache b fin counter d0; writeMany self P xs w d0) = Some (w, d1) /\
    flush self P N original w d1 = Some d2 /\ progress (length xs) d2.
Proof.
  intros Hr Hc Ho Hne Hn. destruct (newWriter_spec ndebug cache fin Hr Hc Hn) as (w0 & -> & H0). cbn [mbind option_bind].
  destruct (writeMany_spec xs 0 w0 d0 H0) as (w1 & d1 & -> & H1); [by rewrite drop_0|].
  destruct (flush_spec original w1 d1 Hr Ho Hne H1) as (d2 & E2 & H2). by exists w1, d1, d2.
Qed.
End writing.


Section reading.
Context (HP : 0 < P) (counter : Z) (b : nat) (xs : list T) (d : bytes) (Hst : stored counter d b xs).

(** The part of the range that lies in one page. *)
Lemma stored_page q lo n : b <= q * P + lo -> lo + n <= P -> 0 < n -> q * P + lo + n <= b + length xs ->
  exists p, Read self q counter d = Some p /\ page_ok p /\ slice lo n p = slice (q * P + lo - b) n xs.
Proof.
  intros Hb Hlo Hn He.
  assert (Hj : forall t, t < n -> exists x p, xs !! (q * P + lo - b + t) = Some x /\ Read self q counter d = Some p /\ page_ok p /\
    p !! (lo + t) = Some x).
  { intros t Ht. destruct (lookup_lt_is_Some_2 xs (q * P + lo - b + t)) as [x Hx]; [lia|].
    destruct (Hst _ _ Hx) as (p & Hr & Hok & Hp). exists x, p. split; [done|].
    replace (b + (q * P + lo - b + t)) with (q * P + (lo + t)) in * by lia.
    rewrite <-(Nat.div_unique (q * P + (lo + t)) P q (lo + t)) in Hr by lia.
    rewrite <-(Nat.mod_unique (q * P + (lo + t)) P q (lo + t)) in Hp by lia. done. }
  destruct (Hj 0 Hn) as (_ & p & _ & Hr & Hok & _). exists p. split; [done|]. split; [done|].
  apply list_eq_same_length with n; [apply slice_length; lia|apply slice_length; destruct Hok; lia|].
  intros t x y Ht Hx Hy. rewrite slice_lookup in Hx, Hy by done. destruct (Hj t Ht) as (z & p' & Hz & Hr' & _ & Hp'). congruence.
Qed.

Lemma read_pages k : forall q, b <= q * P -> (q + k) * P <= b + length xs ->
  exists pages, mapM (fun i => Read self i counter d) (seq q k) = Some pages /\ concat pages = slice (q * P - b) (k * P) xs.
Proof.
  induction k as [|k IH]; intros q Hq He; [by exists []|].
  destruct (stored_page q 0 P) as (p & Hr & [Lp _] & Hsl); [lia|lia|lia|nia|]. destruct (IH (S q)) as (pages & Hm & Hc); [nia|nia|].
  exists (p :: pages). cbn [seq mapM]. rewrite Hr. cbn [mbind option_bind]. rewrite Hm. split; [done|].
  rewrite concat_cons, Hc. rewrite slice_0_all in Hsl by done. rewrite Hsl. cbn [Nat.mul].
  rewrite slice_app. do 2 f_equal; lia.
Qed.

(** [CopyIn] gives what is stored. *)
Lemma CopyIn_spec page : 0 < length xs ->
  exists page', CopyIn self P b (b + length xs) counter (mkVec page d) = Some (xs, mkVec page' d).
Proof.
  intros Hne. unfold CopyIn. cbn [srv]. pose proof (Nat.div_mod_eq b P) as Eb. pose proof (Nat.mod_upper_bound b P ltac:(lia)).
  pose proof (Nat.div_mod_eq (b + length xs) P) as Ee. pose proof (Nat.mod_upper_bound (b + length xs) P ltac:(lia)).
  set (e := b + length xs) in *. set (ep := e / P) in *. set (bp := b / P) in *.
  assert (Hbe : bp <= ep) by (apply Nat.Div0.div_le_mono; lia).
  destruct (decide (b mod P <> 0 /\ bp = ep)) as [[Hm Eq]|Hmulti].
  { rewrite (proj2 (Nat.eqb_neq _ _) Hm), (proj2 (Nat.eqb_eq _ _) Eq). cbn [negb].
    destruct (stored_page bp (b mod P) (e mod P - b mod P)) as (p & -> & _ & Hsl); [nia|nia|nia|nia|].
    cbn [mbind option_bind]. rewrite Hsl. exists p. replace (bp * P + b mod P - b) with 0 by nia.
    replace (e mod P - b mod P) with (length xs) by nia. by rewrite slice_all. }
  match goal with |- exists page', (?hd ≫= _) = _ => assert (Hh : exists v q f, hd = Some (slice 0 f xs, v, q, false) /\ srv v = d /\ b + f = q * P /\ f <= length xs) end.
  { destruct (b mod P =? 0) eqn:Em; cbn [negb].
    - apply Nat.eqb_eq in Em. exists (mkVec page d), bp, 0. split; [done|]. split; [done|]. nia.
    - apply Nat.eqb_neq in Em. assert (Hne' : bp <> ep) by tauto. rewrite (proj2 (Nat.eqb_neq _ _) Hne').
      destruct (stored_page bp (b mod P) (P - b mod P)) as (p & -> & _ & Hsl); [nia|nia|nia|nia|]. cbn [mbind option_bind].
      exists (mkVec p d), (S bp), (P - b mod P). rewrite Hsl. replace (bp * P + b mod P - b) with 0 by nia.
      split; [done|]. split; [done|]. nia. }
  destruct Hh as (v & q & f & -> & Hv & Eq & Hf). cbn [mbind option_bind]. rewrite Hv.
  assert (q <= ep) by nia. destruct (read_pages (ep - q) q) as (pages & -> & Hc); [lia|nia|]. cbn [mbind option_bind].
  rewrite Hc. replace (q * P - b) with f by lia.
  destruct (e mod P =? 0) eqn:Em; cbn [negb].
  - apply Nat.eqb_eq in Em. exists (cachePage v). destruct v as [cp sv]. cbn [srv cachePage] in *. subst sv. do 2 f_equal.
    pose proof (slice_app 0 f ((ep - q) * P) xs) as S. cbn [Nat.add] in S. rewrite <-S. replace (f + (ep - q) * P) with (length xs) by nia. apply slice_all.
  - apply Nat.eqb_neq in Em. destruct (stored_page ep 0 (e mod P)) as (p & -> & _ & Hsl); [nia|nia|lia|nia|]. cbn [mbind option_bind].
    exists p. do 2 f_equal. change (take (e mod P) p) with (slice 0 (e mod P) p). rewrite Hsl.
    replace (ep * P + 0 - b) with (f + (ep - q) * P) by nia.
    pose proof (slice_app 0 f ((ep - q) * P) xs) as S1. pose proof (slice_app 0 (f + (ep - q) * P) (e mod P) xs) as S2.
    cbn [Nat.add] in S1, S2. rewrite app_assoc, <-S1, <-S2.
    replace (f + (ep - q) * P + e mod P) with (length xs) by nia. apply slice_all.
Qed.

(** What the cache of a reader holds. *)
Definition reader_ok (i : nat) (r : Reader T) : Prop :=
  r_it r = b + i /\ r_end r = b + length xs /\ r_counter r = counter /\
  match r_curr r with
  | None => True
  | Some c => (c = P /\ r_it r mod P = 0) \/
      (c < P /\ c = r_it r mod P /\ Read self (r_it r / P) counter d = Some (r_cache r))
  end.

Lemma read_spec i r x : reader_ok i r -> xs !! i = Some x ->
  exists r', read self P r d = Some (x, r') /\ reader_ok (S i) r'.
Proof.
  intros (Hit & Hend & Hc & Hcur) Hx. destruct (Hst i x Hx) as (p & Hr & [Lp Hok] & Hp). rewrite <-Hit in Hr, Hp.
  assert (Hlt : i < length xs) by (by eapply lookup_lt_Some).
  pose proof (Nat.mod_upper_bound (r_it r) P ltac:(lia)) as Hm. pose proof (Nat.div_mod_eq (r_it r) P) as Ed.
  assert (G : exists c, get self P r d = Some (x, mkReader p (r_it r) (r_end r) (Some c) (r_counter r)) /\ c = r_it r mod P).
  { unfold get. rewrite (proj2 (Nat.leb_gt _ _)) by lia. rewrite Hc. destruct (r_curr r) as [c|] eqn:Ec.
    - destruct Hcur as [[-> H0]|(Hcp & -> & Hcache)].
      + rewrite (proj2 (Nat.leb_le _ _)), Hr by lia. cbn [mbind option_bind]. rewrite Nat.eqb_refl. cbn [negb mbind option_bind].
        rewrite H0 in Hp. rewrite Hp. cbn [mbind option_bind]. by exists 0.
      + rewrite (proj2 (Nat.leb_gt _ _)) by lia. cbn [mbind option_bind]. assert (r_cache r = p) as -> by congruence.
        rewrite Hp. cbn [mbind option_bind]. by eexists.
    - rewrite Hr. cbn [mbind option_bind]. rewrite Hp. cbn [mbind option_bind]. by eexists. }
  destruct G as (c & G & Hcc). unfold read. rewrite G. cbn [mbind option_bind r_cache r_it r_end r_curr r_counter fmap option_fmap option_map].
  eexists. split; [reflexivity|]. unfold reader_ok. cbn [r_cache r_it r_end r_curr r_counter]. split; [lia|]. split; [done|]. split; [done|].
  destruct (decide (S c = P)) as [E|Hne].
  - left. split; [done|]. symmetry. apply (Nat.mod_unique _ _ (S (r_it r / P))); nia.
  - right. assert (E1 : S (r_it r) / P = r_it r / P) by (symmetry; apply (Nat.div_unique _ _ _ (S c)); nia).
    assert (E2 : S (r_it r) mod P = S c) by (symmetry; apply (Nat.mod_unique _ _ (r_it r / P)); nia).
    rewrite E1, E2. split; [lia|]. split; [done|exact Hr].
Qed.

Lemma readMany_spec n : forall i r, reader_ok i r -> i + n <= length xs ->
  exists r', readMany self P n r d = Some (slice i n xs, r') /\ reader_ok (i + n) r'.
Proof.
  induction n as [|n IH]; intros i r Hr Hn; [exists r; split; [done|by rewrite Nat.add_0_r]|].
  destruct (lookup_lt_is_Some_2 xs i) as [x Hx]; [lia|]. destruct (read_spec i r x Hr Hx) as (r1 & E & H1).
  destruct (IH (S i) r1 H1) as (r2 & E2 & H2); [lia|]. cbn [readMany]. rewrite E. cbn [mbind option_bind]. rewrite E2. cbn [mbind option_bind].
  exists r2. split; [|by rewrite Nat.add_succ_r]. do 2 f_equal. unfold slice. by rewrite (drop_S xs x i) by done.
Qed.

(** A reader gives what is stored, and is then at its end. *)
Lemma Reader_spec cache : exists r', readMany self P (length xs) (newReader cache b (b + length xs) counter) d = Some (xs, r') /\
  reader_eof r' = true.
Proof.
  destruct (readMany_spec (length xs) 0 (newReader cache b (b + length xs) counter)) as (r' & E & Hr); [|lia|].
  { unfold reader_ok, newReader. cbn. split_and!; [lia|done..]. }
  exists r'. rewrite slice_all in E. split; [done|]. destruct Hr as (Hi & He & _). unfold reader_eof. apply Nat.leb_le. lia.
Qed.
End reading.

(** Data in which the range that starts at [b] reads back as [xs], and that
    agrees with [data] on the pages that the range does not touch. *)
Definition reads_back (counter : Z) (b : nat) (xs : list T) (data d : bytes) : Prop :=
  (forall page, exists page', CopyIn self P b (b + length xs) counter (mkVec page d) = Some (xs, mkVec page' d)) /\
  (forall cache, exists r, readMany self P (length xs) (newReader cache b (b + length xs) counter) d = Some (xs, r) /\
    reader_eof r = true) /\
  forall q c, q < b / P \/ b + length xs <= q * P -> Read self q c d = Read self q c data.

Lemma progress_reads_back counter b xs data d : 0 < P -> 0 < length xs -> progress counter b xs data (length xs) d ->
  reads_back counter b xs data d.
Proof.
  intros HP Hn [_ _ Hs Hf]. rewrite firstn_all in Hs. split_and!.
  - intros page. by apply CopyIn_spec.
  - intros cache. by apply Reader_spec.
  - exact Hf.
Qed.

(** C20: What is written to a vector is read back.  Let a range of the vector
    be written, with [CopyOut] or item by item through a [Writer] that is
    flushed, under a counter.  If the pages that are only partly in the range
    and that the code reads can be opened, nothing aborts, except that a build
    with assertions refuses a writer whose given end lies behind the vector;
    then both [CopyIn] and a [Reader] of the range, under the same counter, give
    exactly the items that were written, the reader is at its end after them,
    and every page outside the range is as before under every counter. *)
Theorem vector_round_trip (counter : Z) (b : nat) (xs : list T) (data : bytes) (page cache original : list T) (ndebug : bool) (fin : nat) :
  0 < P -> room data -> Forall item_ok xs -> 0 < length xs -> b + length xs <= N ->
  page_ok page -> page_ok cache -> page_ok original ->
  (copy_ready counter b xs data ->
   exists v, CopyOut self P N xs b counter (mkVec page data) = Some v /\ reads_back counter b xs data (srv v)) /\
  (writer_ready counter b xs data ->
   if negb ndebug && (N <? fin) then newWriter self P N ndebug cache b fin counter data = None else
   exists w d1 d2, (w ← newWriter self P N ndebug cache b fin counter data; writeMany self P xs w data) = Some (w, d1) /\
     flush self P N original w d1 = Some d2 /\ reads_back counter b xs data d2).
Proof.
  intros HP Hroom Hxs Hne HN Hp Hc Ho. split; intros Hr.
  - destruct (CopyOut_spec HP counter b xs data Hroom Hxs HN page Hr Hp) as (v & E & Hpr).
    exists v. split; [exact E|]. by apply progress_reads_back.
  - destruct (negb ndebug && (N <? fin)) eqn:En; [unfold newWriter; by rewrite En|].
    assert (Hn : ndebug = true \/ fin <= N) by (destruct ndebug; [by left|right; by apply Nat.ltb_ge]).
    destruct (Writer_spec HP counter b xs data Hroom Hxs HN ndebug cache original fin Hr Hc Ho Hne Hn) as (w & d1 & d2 & E & E2 & Hpr).
    exists w, d1, d2. split; [exact E|]. split; [exact E2|]. by apply progress_reads_back.
Qed.
End correct.

(** Three items across two encrypted pages of two items; the last page is only
    partly in the range. *)
Lemma vector_round_trip_witness :
  let data := replicate 160 0%Z in
  let pages := @initialise (list Z) demo_cipher demo_server 3 [1; 2]%Z data in
  exists d v, pages = Some d /\ @CopyOut Z demo_cipher demo_server 2 5 [7; 8; 9]%Z 0 0 (mkVec [5; 6]%Z d) = Some v /\
    forall cache, exists r, @readMany Z demo_cipher demo_server 2 3 (newReader cache 0 3 0) (srv v) = Some ([7; 8; 9]%Z, r) /\ reader_eof r = true.
Proof.
  pose proof (fresh_pages_ok (in_width 64) br_enc64le br_dec64le 8 2 test_context (replicate 16 3%Z) demo_stack demo_params) as Hok.
  assert (Hp : forall x y, in_width 64 x -> in_width 64 y -> page_of_items (in_width 64) 2 [x; y]).
  { intros x y Hx Hy. split; [done|]. repeat constructor; first [apply Hx | apply Hy]. }
  assert (W : forall x, Z.leb 0 x && Z.ltb x 100 = true -> in_width 64 x).
  { intros x Hx. split; [lia|]. transitivity 100%Z; [lia|reflexivity]. }
  destruct (@initialise_spec (list Z) _ demo_cipher Hok demo_server 3 [1; 2]%Z (replicate 160 0%Z)) as (d & E & L & R & _).
  - apply Hp; by apply W.
  - apply Nat.leb_le. reflexivity.
  - destruct (@vector_round_trip Z (in_width 64) 2 5 demo_cipher Hok demo_server 0%Z 0 [7; 8; 9]%Z d [5; 6]%Z [5; 6]%Z [5; 6]%Z false 3) as [C _].
    + lia.
    + unfold room. rewrite L. apply Nat.leb_le. reflexivity.
    + repeat constructor; by apply W.
    + cbn. lia.
    + cbn. lia.
    + apply Hp; by apply W.
    + apply Hp; by apply W.
    + apply Hp; by apply W.
    + destruct C as (v & Ev & _ & B & _); [split; cbn; [lia|lia]|]. exists d, v. split; [exact E|]. split; [exact Ev|exact B].
Defined.

(** Two consecutive ranges in one page, under a counter above 0: the first
    replaces the page, and the second looks for the page under the counter
    before, so that it is refused.  When the second range goes on behind the
    page, the page is read under the counter itself, and nothing is refused. *)
Example second_range_refused :
  let cipher : PageCipher (list Z) := fresh_pages br_enc64le br_dec64le 8 3 test_context (replicate 16 3%Z)
    (mkFresh (replicate 24 0%Z) (replicate 32 9%Z)) in
  let server := mkFrontend 0 12345%Z 678%Z in
  let run := fun second =>
    d ← @initialise (list Z) cipher server 2 [1; 2; 3]%Z (replicate 112 0%Z);
    v ← @CopyOut Z cipher server 3 6 [7]%Z 0 1 (mkVec [0; 0; 0]%Z d);
    v ← @CopyOut Z cipher server 3 6 second 1 1 v;
    out ← @CopyIn Z cipher server 3 0 (1 + length second) 1 v; Some out.1 in
  run [8]%Z = None /\ run [8; 9]%Z = Some [7; 8; 9]%Z.
Proof. vm_compute. split; reflexivity. Qed.
