(* ===== verification/SysRng.v ===== *)
(** * Feature detection and system seeding
    (bearssl/src/bearssl/rand/sysrng.c; [br_cpuid] of inner.h; [br_prng_class]
    of include/bearssl_rand.h)

    The processor and the operating system are parameters: the words that
    [cpuid] leaf 1 returns, the sequence of outcomes of the [rdrand]
    instruction, and the sequence of outcomes of [read] on [/dev/urandom]. *)
From S2P Require Import Prelude Inner Hash Hmac HmacDrbg Simd Aes AesCtr AesCtrDrbg Ghash.
Local Open Scope Z_scope.

(** ** Generators behind their vtable *)

Record br_prng_class (P C : Type) := mkPrng {
  prng_init : P -> bytes -> C;
  prng_generate : nat -> C -> C * bytes;
  prng_update : bytes -> C -> C
}.
Arguments mkPrng {P C}. Arguments prng_init {P C}. Arguments prng_generate {P C}. Arguments prng_update {P C}.

(** The parameter of [init] is the vtable of the counter mode; it is fixed. *)
Definition br_aesctr_drbg_vtable {K} (cls : br_block_ctr_class K)
    : br_prng_class unit (br_aesctr_drbg_context K) :=
  mkPrng (fun _ => br_aesctr_drbg_init cls) (br_aesctr_drbg_generate cls) (br_aesctr_drbg_update cls).

(** ** Processor features *)

(** [eax], [ebx], [ecx], [edx] of leaf 1, if the leaf exists. *)
Definition cpuid_leaf : Type := option (Z * Z * Z * Z).

Definition br_cpuid (cpu : cpuid_leaf) (mask_eax mask_ebx mask_ecx mask_edx : Z) : bool :=
  match cpu with
  | Some (eax, ebx, ecx, edx) =>
      (Z.land eax mask_eax =? mask_eax) && (Z.land ebx mask_ebx =? mask_ebx)
      && (Z.land ecx mask_ecx =? mask_ecx) && (Z.land edx mask_edx =? mask_edx)
  | None => false
  end.

Definition br_aes_x86ni_supported (cpu : cpuid_leaf) : bool := br_cpuid cpu 0 0 0x02080000 0.
Definition pclmul_supported (cpu : cpuid_leaf) : bool := br_cpuid cpu 0 0 0x00000002 0.
Definition rdrand_supported (cpu : cpuid_leaf) : bool := br_cpuid cpu 0 0 0x40000000 0.

Definition br_ghash_pclmul_get (cpu : cpuid_leaf) : option (bytes -> bytes -> bytes -> bytes) :=
  if pclmul_supported cpu then Some br_ghash_pclmul else None.

(** ** Seeding *)

Section seeders.
Context {P C : Type} (cls : br_prng_class P C).

(** The outcomes of [_rdrand32_step], call after call; [None] is a failure. *)
Abbreviation rdrand_t := (nat -> option Z).

(** At most ten calls for a word: the word, if any, and the calls made. *)
Fixpoint rdrand_word (tries : nat) (rd : rdrand_t) (k : nat) : option Z * nat :=
  match tries with
  | O => (None, k)
  | S tries => match rd k with
               | Some x => (Some x, S k)
               | None => rdrand_word tries rd (S k)
               end
  end.

(** The words from offset [4 * (8 - n)] on. *)
Fixpoint rdrand_words (n : nat) (rd : rdrand_t) (k : nat) : option bytes * nat :=
  match n with
  | O => (Some [], k)
  | S n =>
      match rdrand_word 10 rd k with
      | (None, k) => (None, k)
      | (Some x, k) =>
          let '(rest, k) := rdrand_words n rd k in
          ((fun l => br_enc32le x ++ l) <$> rest, k)
      end
  end.

(** The value returned and the context. *)
Definition seeder_rdrand (rd : rdrand_t) (ctx : C) : Z * C :=
  match (rdrand_words 8 rd 0).1 with
  | Some tmp => (1, prng_update cls tmp ctx)
  | None => (0, ctx)
  end.

(** The outcomes of [read]: an error, interrupted or not, or some bytes. *)
Inductive read_outcome := ReadError (eintr : bool) | ReadBytes (b : bytes).

(** The loop of [seeder_urandom], with [u] bytes in [tmp]: [None] while the
    outcomes have not ended it. *)
Fixpoint urandom_loop (tmp : bytes) (rs : list read_outcome) : option bytes :=
  if (32 <=? length tmp)%nat then Some tmp
  else match rs with
       | [] => None
       | ReadError true :: rs => urandom_loop tmp rs
       | ReadError false :: _ => Some tmp
       | ReadBytes b :: rs => urandom_loop (tmp ++ take (32 - length tmp) b) rs
       end.

(** [fd] is [None] if [/dev/urandom] cannot be opened. *)
Definition seeder_urandom (fd : option (list read_outcome)) (ctx : C) : option (Z * C) :=
  match fd with
  | None => Some (0, ctx)
  | Some rs =>
      match urandom_loop [] rs with
      | None => None
      | Some tmp => Some (if (length tmp =? 32)%nat then (1, prng_update cls tmp ctx) else (0, ctx))
      end
  end.

(** The seeder that the system gets, [BR_RDRAND] and [BR_USE_URANDOM] being
    set. *)
Inductive seeder_name := rdrand | urandom.
Definition br_prng_seeder_system (cpu : cpuid_leaf) : seeder_name :=
  if rdrand_supported cpu then rdrand else urandom.

(** ** Behaviour *)

Lemma rdrand_word_spec tries rd : forall k,
  match rdrand_word tries rd k with
  | (Some x, k') => exists j, (k <= j < k + tries)%nat /\ k' = S j /\ rd j = Some x /\
                      forall i, (k <= i < j)%nat -> rd i = None
  | (None, k') => k' = (k + tries)%nat /\ forall i, (k <= i < k + tries)%nat -> rd i = None
  end.
Proof.
  induction tries as [|n IH]; intros k; cbn [rdrand_word]; [split; [lia|intros i Hi; lia]|].
  destruct (rd k) as [x|] eqn:Ek.
  - exists k. split_and!; [lia..|done|done|intros i Hi; lia].
  - specialize (IH (S k)). destruct (rdrand_word n rd (S k)) as [[x|] k'].
    + destruct IH as (j & Hj & -> & Hx & Hi). exists j. split_and!; [lia..|done|done|].
      intros i Hik. destruct (decide (i = k)) as [->|]; [done|]. apply Hi. lia.
    + destruct IH as [-> Hi]. split; [lia|]. intros i Hik. destruct (decide (i = k)) as [->|]; [done|]. apply Hi. lia.
Qed.

Lemma rdrand_words_spec n rd : forall k,
  match rdrand_words n rd k with
  | (Some tmp, k') => length tmp = (4 * n)%nat /\ Forall byte_ok tmp /\ (k' <= k + 10 * n)%nat
  | (None, k') => (k' <= k + 10 * n)%nat /\ exists j, (j + 10 <= k')%nat /\ forall i, (j <= i < j + 10)%nat -> rd i = None
  end.
Proof.
  induction n as [|n IH]; intros k; cbn [rdrand_words]; [split_and!; [done|constructor|lia]|].
  pose proof (rdrand_word_spec 10 rd k) as Hw. destruct (rdrand_word 10 rd k) as [[x|] k1].
  - destruct Hw as (j & Hj & -> & _). specialize (IH (S j)). destruct (rdrand_words n rd (S j)) as [[tmp|] k2]; cbn [fmap option_fmap option_map].
    + destruct IH as (Hl & Ho & Hk). split_and!; [rewrite length_app, Hl; simpl; lia| |lia].
      apply Forall_app. split; [|done]. by repeat (constructor; [apply w8_ok|]).
    + destruct IH as [Hk Hj2]. split; [lia|done].
  - destruct Hw as [-> Hn]. split; [lia|]. exists k. split; [lia|]. intros i Hi. apply Hn. lia.
Qed.

Lemma urandom_loop_none tmp n : (length tmp < 32)%nat -> urandom_loop tmp (replicate n (ReadBytes [])) = None.
Proof.
  intros Ht. induction n as [|n IH]; cbn [replicate urandom_loop];
    destruct (Nat.leb_spec 32 (length tmp)); try lia; [done|]. by rewrite take_nil, app_nil_r.
Qed.

(** Reads that make progress end the loop. *)
Lemma urandom_loop_progress rs : forall tmp, (length tmp <= 32)%nat -> (32 <= length tmp + length rs)%nat ->
  Forall (fun r => match r with ReadBytes b => b <> [] | ReadError _ => False end) rs ->
  exists out, urandom_loop tmp rs = Some out /\ length out = 32%nat /\ take (length tmp) out = tmp.
Proof.
  induction rs as [|r rs IH]; intros tmp Hl Hs Hr; cbn [urandom_loop]; cbn [length] in Hs.
  - destruct (Nat.leb_spec 32 (length tmp)); [|lia]. exists tmp. split_and!; [done|lia|apply firstn_all].
  - destruct (Nat.leb_spec 32 (length tmp)); [exists tmp; split_and!; [done|lia|apply firstn_all]|].
    apply Forall_cons in Hr as [Hb Hr]. destruct r as [e|b]; [done|].
    assert (Hb' : (0 < length b)%nat) by (destruct b; [done|simpl; lia]).
    destruct (IH (tmp ++ take (32 - length tmp) b)) as (out & E & L & T).
    + rewrite length_app, length_take. lia.
    + rewrite length_app, length_take. lia.
    + done.
    + exists out. split_and!; [done|done|]. rewrite <-(take_app_length tmp (take (32 - length tmp) b)) at 2.
      rewrite <-T, take_take, length_app. f_equal. lia.
Qed.

Lemma seeder_urandom_cases fd ctx :
  match seeder_urandom fd ctx with
  | Some (r, ctx') => (r = 1 /\ exists tmp, length tmp = 32%nat /\ ctx' = prng_update cls tmp ctx) \/
                      (r = 0 /\ ctx' = ctx)
  | None => True
  end.
Proof.
  unfold seeder_urandom. destruct fd as [rs|]; [|by right].
  destruct (urandom_loop [] rs) as [t|]; [|done]. destruct (Nat.eqb_spec (length t) 32); [left|by right]. eauto.
Qed.

(** ** Properties *)

(** C38: Seeding is all or nothing.  The [rdrand] seeder asks the instruction
    at most 80 times; it returns 1 exactly when every one of the eight words
    came within ten tries, and then the generator is updated with 32 bytes;
    otherwise it returns 0, the context is unchanged, and ten calls in a row
    have failed.  The [urandom] seeder, when it returns, has updated the
    context with exactly 32 bytes read (and says 1) or left it alone (and
    says 0). *)
Theorem seeders_all_or_nothing (rd : nat -> option Z) (fd : option (list read_outcome)) (ctx : C) :
  ((rdrand_words 8 rd 0).2 <= 80)%nat /\
  match seeder_rdrand rd ctx with
  | (r, ctx') => (r = 1 /\ exists tmp, length tmp = 32%nat /\ Forall byte_ok tmp /\ ctx' = prng_update cls tmp ctx) \/
                 (r = 0 /\ ctx' = ctx /\ exists j, forall i, (j <= i < j + 10)%nat -> rd i = None)
  end /\
  match seeder_urandom fd ctx with
  | Some (r, ctx') => (r = 1 /\ exists tmp, length tmp = 32%nat /\ ctx' = prng_update cls tmp ctx) \/
                      (r = 0 /\ ctx' = ctx)
  | None => True
  end.
Proof.
  pose proof (rdrand_words_spec 8 rd 0) as H. unfold seeder_rdrand.
  destruct (rdrand_words 8 rd 0) as [[tmp|] k]; cbn [fst snd].
  - destruct H as (Hl & Ho & Hk). split; [lia|]. split; [|apply seeder_urandom_cases].
    left. split; [done|]. by exists tmp.
  - destruct H as (Hk & j & Hj & Hn). split; [lia|]. split; [|apply seeder_urandom_cases]. right. eauto.
Qed.

(** Reading the seed ends when reads make progress, and only then.  If
    every [read] returns at least one byte, at most 32 of them are made and
    seeding succeeds; a device that keeps returning zero bytes keeps the loop
    running for ever. *)
Theorem seeder_urandom_termination (rs : list read_outcome) (ctx : C) (n : nat) :
  (32 <= length rs)%nat ->
  Forall (fun r => match r with ReadBytes b => b <> [] | ReadError _ => False end) rs ->
  (exists tmp, seeder_urandom (Some rs) ctx = Some (1, prng_update cls tmp ctx)) /\
  seeder_urandom (Some (replicate n (ReadBytes []))) ctx = None.
Proof.
  intros Hl Hr. unfold seeder_urandom. split.
  - destruct (urandom_loop_progress rs [] ltac:(cbn [length]; lia) ltac:(cbn [length]; lia) Hr) as (out & -> & L & _).
    exists out. by rewrite (proj2 (Nat.eqb_eq _ _) L).
  - rewrite urandom_loop_none by (cbn [length]; lia). done.
Qed.
End seeders.

Lemma seeder_urandom_termination_witness :
  let cls := br_aesctr_drbg_vtable br_aes_x86ni_ctr_vtable in
  let ctx := br_aesctr_drbg_init br_aes_x86ni_ctr_vtable [] in
  (exists tmp, seeder_urandom cls (Some (replicate 32 (ReadBytes [5]))) ctx = Some (1, prng_update cls tmp ctx)) /\
  seeder_urandom cls (Some (replicate 7 (ReadBytes []))) ctx = None.
Proof.
  apply (seeder_urandom_termination (br_aesctr_drbg_vtable br_aes_x86ni_ctr_vtable) (replicate 32 (ReadBytes [5]))).
  - rewrite length_replicate. lia.
  - apply Forall_replicate. congruence.
Defined.
