(* ===== verification/Primes.v ===== *)
(** * Primality of [2^255 - 19]

    Fermat's little theorem and Pocklington's criterion over the integers of
    the Standard Library, and the certificate that makes the field of
    [Curve25519] a field. *)
From Stdlib Require Import Znumtheory Zpow_facts.
From stdpp Require Import list_numbers.
From S2P Require Import Prelude.
Local Open Scope Z_scope.
#[local] Set Warnings "-deprecated".

(** ** Fermat's little theorem *)

Definition prod (l : list Z) : Z := foldr Z.mul 1 l.

Lemma prod_perm l k : l ≡ₚ k -> prod l = prod k.
Proof.
  unfold prod. induction 1; cbn [foldr]; [reflexivity|congruence|ring|congruence].
Qed.

Lemma divide_mod_eq p x y : 0 < p -> (p | x - y) <-> x mod p = y mod p.
Proof.
  intros Hp. split.
  - intros [k Hk]. replace x with (y + k * p) by lia. apply Z_mod_plus_full.
  - intros H. exists (x / p - y / p). rewrite (Z_div_mod_eq_full x p), (Z_div_mod_eq_full y p) at 1. lia.
Qed.

(** The residues prime to [p], and multiplication by [a]. *)
Definition residues (p : Z) : list Z := seqZ 1 (p - 1).
Definition scale (p a x : Z) : Z := (a * x) mod p.

Section fermat.
Context (p a : Z) (Hp : prime p) (Ha : ~ (p | a)).

Lemma fermat_prime_gt : 1 < p.
Proof using Hp. destruct Hp. lia. Qed.

Lemma fermat_not_divide x : x ∈ residues p -> ~ (p | x).
Proof using Hp.
  unfold residues. rewrite elem_of_seqZ. intros Hx Hd. apply Z.divide_pos_le in Hd; lia.
Qed.

Lemma fermat_perm : scale p a <$> residues p ≡ₚ residues p.
Proof using Hp Ha.
  assert (Hp1 := fermat_prime_gt). apply submseteq_length_Permutation; [|by rewrite length_fmap].
  apply NoDup_submseteq.
  - apply NoDup_fmap_2_strong; [|apply NoDup_seqZ].
    intros x y Hx Hy E. apply divide_mod_eq in E; [|lia].
    rewrite <-Z.mul_sub_distr_l in E. apply prime_mult in E; [|done]. destruct E as [E|E]; [done|].
    unfold residues in *. rewrite elem_of_seqZ in *. destruct E as [k Hk]. assert (k = 0) by nia. lia.
  - intros y Hy. apply list_elem_of_fmap in Hy as (x & -> & Hx). unfold scale.
    assert (B := Z.mod_pos_bound (a * x) p ltac:(lia)).
    assert ((a * x) mod p <> 0).
    { intros E. apply Zmod_divide in E; [|lia]. apply prime_mult in E; [|done].
      destruct E as [E|E]; [done|]. by apply (fermat_not_divide x). }
    unfold residues. apply elem_of_seqZ. lia.
Qed.

Lemma prod_fmap_mod (k : list Z) : (p | prod (scale p a <$> k) - a ^ Z.of_nat (length k) * prod k).
Proof using Hp.
  assert (Hp1 := fermat_prime_gt). induction k as [|x k [c IH]]; [exists 0; cbn; lia|].
  change (prod (scale p a <$> x :: k)) with (scale p a x * prod (scale p a <$> k)). change (prod (x :: k)) with (x * prod k).
  cbn [length]. rewrite Nat2Z.inj_succ, Z.pow_succ_r by lia. unfold scale at 1.
  assert (E := Z_div_mod_eq_full (a * x) p).
  exists ((a * x) mod p * c - (a * x / p) * a ^ Z.of_nat (length k) * prod k).
  assert (E' : prod (scale p a <$> k) = c * p + a ^ Z.of_nat (length k) * prod k) by lia. rewrite E'.
  assert (E2 : (a * x) mod p = a * x - p * (a * x / p)) by lia. rewrite E2. ring.
Qed.

Lemma prod_not_divide (k : list Z) : (forall x, x ∈ k -> ~ (p | x)) -> ~ (p | prod k).
Proof using Hp.
  assert (Hp1 := fermat_prime_gt). induction k as [|x k IH]; intros H Hd.
  - change (prod []) with 1 in Hd. apply Z.divide_pos_le in Hd; lia.
  - change (prod (x :: k)) with (x * prod k) in Hd. apply (prime_mult p Hp) in Hd as [Hd|Hd].
    + apply (H x); [left|done].
    + apply IH; [|done]. intros y Hy. apply H. by right.
Qed.

Lemma fermat : a ^ (p - 1) mod p = 1.
Proof using Hp Ha.
  assert (Hp1 := fermat_prime_gt). destruct (prod_fmap_mod (residues p)) as [c Hc].
  rewrite (prod_perm _ _ fermat_perm) in Hc. unfold residues in Hc at 2. rewrite length_seqZ, Z2Nat.id in Hc by lia.
  assert (Hd : (p | prod (residues p) * (a ^ (p - 1) - 1))) by (exists (- c); lia).
  apply (prime_mult p Hp) in Hd as [Hd|Hd].
  - destruct (prod_not_divide (residues p) fermat_not_divide Hd).
  - apply divide_mod_eq in Hd; [|lia]. rewrite Hd. apply Z.mod_small. lia.
Qed.
End fermat.

(** ** Pocklington's criterion *)

Lemma pow_gcd_one r a n : 0 < r -> 0 <= n -> forall m, 0 <= m ->
  a ^ m mod r = 1 mod r -> a ^ n mod r = 1 mod r -> a ^ Z.gcd m n mod r = 1 mod r.
Proof.
  intros Hr. revert n. apply (Zlt_0_ind (fun n => forall m, 0 <= m -> _ -> _ -> _)).
  intros n IH Hn m Hm E1 E2. destruct (Z.eq_dec n 0) as [->|Hn0].
  - rewrite Z.gcd_0_r, Z.abs_eq by lia. exact E1.
  - assert (B := Z.mod_pos_bound m n ltac:(lia)).
    rewrite Z.gcd_comm, <-Z.gcd_mod, Z.gcd_comm by lia. apply IH; [lia|lia|exact E2|].
    rewrite <-E1. rewrite (Z_div_mod_eq_full m n) at 2.
    assert (0 <= m / n) by (apply Z.div_pos; lia).
    rewrite Z.pow_add_r, Z.pow_mul_r, Zmult_mod, (Zpower_mod (a ^ n)), E2, <-Zpower_mod, Z.pow_1_l by nia.
    rewrite <-Zmult_mod. f_equal. lia.
Qed.

Lemma prime_divisor n : 1 < n -> exists r, prime r /\ (r | n).
Proof.
  intros Hn. generalize Hn. apply (Zlt_0_ind (fun n => 1 < n -> exists r, prime r /\ (r | n))); [|lia].
  clear n Hn. intros n IH _ Hn. destruct (prime_dec n) as [Hp|Hp]; [exists n; split; [exact Hp|reflexivity]|].
  destruct (not_prime_divide n Hn Hp) as (d & Hd & Hdn). destruct (IH d) as (r & Hr & Hrd); [lia..|].
  exists r. split; [done|]. by transitivity d.
Qed.

Lemma small_divisor n : 1 < n -> ~ prime n -> exists d, 1 < d /\ d * d <= n /\ (d | n).
Proof.
  intros Hn Hp. destruct (not_prime_divide n Hn Hp) as (d & Hd & [e He]).
  assert (1 < e) by nia. destruct (Z.le_ge_cases d e).
  - exists d. split_and!; [lia|nia|by exists e].
  - exists e. split_and!; [lia|nia|]. exists d. lia.
Qed.

Lemma prod_primes_divide m qs :
  NoDup qs -> Forall prime qs -> Forall (fun q => (q | m)) qs -> (prod qs | m).
Proof.
  induction qs as [|q qs IH]; intros Hnd Hp Hd; [exists m; cbn; lia|].
  apply NoDup_cons in Hnd as [Hq Hnd]. apply Forall_cons in Hp as [Hpq Hp]. apply Forall_cons in Hd as [Hdq Hd].
  destruct (IH Hnd Hp Hd) as [c Hc]. change (prod (q :: qs)) with (q * prod qs). rewrite Hc in Hdq.
  apply (prime_mult q Hpq) in Hdq as [[e He]|Hdq]; [exists e; lia|]. exfalso.
  clear - Hpq Hp Hdq Hq. induction qs as [|x qs IH]; [apply Z.divide_1_r_nonneg in Hdq; destruct Hpq; simpl in *; lia|].
  apply Forall_cons in Hp as [Hx Hp]. change (prod (x :: qs)) with (x * prod qs) in Hdq.
  apply (prime_mult q Hpq) in Hdq as [Hdq|Hdq].
  - apply (prime_div_prime q x) in Hdq; [|done|done]. subst. apply Hq. left.
  - apply IH; try assumption. intros H. apply Hq. by right.
Qed.

Lemma pocklington_bound N F r d :
  2 <= r -> Z.abs F <= r - 1 -> r <= d -> d * d <= N -> N <= F * F -> False.
Proof.
  intros Hr HF Hrd Hd HN.
  assert (Z.abs F * Z.abs F <= (r - 1) * (r - 1)) by (apply Z.mul_le_mono_nonneg; lia).
  assert (r * r <= d * d) by (apply Z.mul_le_mono_nonneg; lia).
  rewrite Z.abs_square in *. lia.
Qed.

(** [N] is prime when enough of [N - 1] is factored and [a] has an order that
    every prime of the factored part divides. *)
Lemma pocklington N a qs :
  1 < N -> NoDup qs -> Forall prime qs -> N <= prod qs * prod qs ->
  Forall (fun q => (N - 1) mod q = 0 /\ Z.gcd (Zpow_mod a ((N - 1) / q) N - 1) N = 1) qs ->
  Zpow_mod a (N - 1) N = 1 -> prime N.
Proof.
  intros HN Hnd Hqs HF Hq Ha. destruct (prime_dec N) as [|Hnp]; [done|]. exfalso.
  destruct (small_divisor N HN Hnp) as (d & Hd1 & Hdd & HdN).
  destruct (prime_divisor d Hd1) as (r & Hr & Hrd). assert (Hr2 := prime_ge_2 r Hr).
  assert (HrN : (r | N)) by (by transitivity d). assert (Hrr : r <= d) by (apply Z.divide_pos_le; [lia|done]).
  rewrite Zpow_mod_correct in Ha by lia.
  assert (Mr : forall x, (x mod N) mod r = x mod r) by (intros x; apply Z.mod_mod_divide, HrN).
  assert (E1 : a ^ (N - 1) mod r = 1 mod r) by (rewrite <-Mr, Ha; reflexivity).
  assert (Har : ~ (r | a)).
  { intros Hdiv. apply Zdivide_mod in Hdiv. rewrite Zpower_mod, Hdiv, Z.pow_0_l, Z.mod_0_l, Z.mod_1_l in E1 by lia. lia. }
  assert (E2 : a ^ (r - 1) mod r = 1 mod r) by (rewrite fermat by done; symmetry; apply Z.mod_1_l; lia).
  assert (HFr : (prod qs | r - 1)).
  { apply prod_primes_divide; [done..|]. rewrite Forall_forall in *. intros q Hqin.
    destruct (Hq q Hqin) as [Hq0 Hqg]. assert (Hpq := Hqs q Hqin). assert (Hq2 := prime_ge_2 q Hpq).
    destruct (Zdivide_dec q (r - 1)) as [|Hndiv]; [done|]. exfalso.
    apply Zmod_divide in Hq0; [|lia]. set (m := (N - 1) / q) in *.
    assert (EN : N - 1 = q * m) by (apply Zdivide_Zdiv_eq; [lia|done]).
    assert (Hm : 0 <= m) by (apply Z.div_pos; lia).
    assert (G := pow_gcd_one r a (r - 1) ltac:(lia) ltac:(lia) (N - 1) ltac:(lia) E1 E2).
    assert (Hg : (Z.gcd (N - 1) (r - 1) | m)).
    { apply Gauss with q; [rewrite <-EN; apply Z.gcd_divide_l|]. apply rel_prime_sym, prime_rel_prime; [done|].
      intros H. apply Hndiv. transitivity (Z.gcd (N - 1) (r - 1)); [done|apply Z.gcd_divide_r]. }
    destruct Hg as [k Hk]. assert (Hg0 := Z.gcd_nonneg (N - 1) (r - 1)).
    assert (Hk0 : 0 <= k).
    { destruct (Z.eq_dec (Z.gcd (N - 1) (r - 1)) 0) as [E|E]; [apply Z.gcd_eq_0_l in E; lia|].
      clear - Hk Hm Hg0 E. generalize dependent (Z.gcd (N - 1) (r - 1)). intros g Hk Hg0 E.
      apply (Z.mul_nonneg_cancel_l g k); lia. }
    assert (E3 : a ^ m mod r = 1 mod r).
    { rewrite Hk, Z.mul_comm, Z.pow_mul_r, Zpower_mod, G, <-Zpower_mod, Z.pow_1_l by lia. reflexivity. }
    rewrite Zpow_mod_correct in Hqg by lia.
    assert (H1 : (r | Z.gcd (a ^ m mod N - 1) N)).
    { apply Z.gcd_greatest; [|done]. apply divide_mod_eq; [lia|]. rewrite Mr. exact E3. }
    rewrite Hqg in H1. apply Z.divide_pos_le in H1; lia. }
  apply Z.divide_abs_l, Z.divide_pos_le in HFr; [|lia]. exact (pocklington_bound N (prod qs) r d Hr2 HFr Hrr Hdd HF).
Qed.

(** Trial division up to [k]. *)
Lemma prime_trial n k :
  1 < n -> (n <? Z.of_nat k * Z.of_nat k) && forallb (fun d => negb (n mod Z.of_nat d =? 0)) (seq 2 k) = true -> prime n.
Proof.
  intros Hn H. apply andb_true_iff in H as [Hk H]. apply Z.ltb_lt in Hk.
  destruct (prime_dec n) as [|Hp]; [done|]. exfalso.
  destruct (small_divisor n Hn Hp) as (d & Hd1 & Hdd & Hdn). rewrite forallb_forall in H.
  specialize (H (Z.to_nat d)). rewrite Z2Nat.id in H by lia. apply Zdivide_mod in Hdn. rewrite Hdn in H.
  discriminate H. apply in_seq.
  assert (d < Z.of_nat k) by (apply Z.square_lt_simpl_nonneg; lia). lia.
Qed.

(** ** The certificate *)

Ltac trial k := apply (prime_trial _ k); [lia|vm_compute; reflexivity].

(** The base, and primes dividing [N - 1] that are proved below. *)
Ltac certificate a qs :=
  apply (pocklington _ a qs);
  [ lia | apply (bool_decide_unpack _); vm_compute; exact I | repeat (apply Forall_cons_2; [assumption|]); apply Forall_nil_2 | vm_compute; discriminate
  | repeat (apply Forall_cons_2; [split; vm_compute; reflexivity|]); apply Forall_nil_2
  | vm_compute; reflexivity ].

Lemma prime_25519 : prime (2 ^ 255 - 19).
Proof.
  assert (prime 103) by trial 11%nat. assert (prime 991) by trial 32%nat. assert (prime 127) by trial 12%nat.
  assert (prime 569003) by trial 755%nat. assert (prime 430751) by trial 657%nat. assert (prime 4153) by trial 65%nat.
  assert (prime 8574133) by certificate 2 [991; 103].
  assert (prime 2773320623) by certificate 2 [569003].
  assert (prime 72106336199) by certificate 2 [2773320623].
  assert (prime 1919519569386763) by certificate 2 [8574133; 127].
  assert (prime 31757755568855353) by certificate 2 [430751; 4153].
  assert (prime 75445702479781427272750846543864801) by certificate 2 [1919519569386763; 72106336199].
  assert (prime 74058212732561358302231226437062788676166966415465897661863160754340907)
    by certificate 2 [75445702479781427272750846543864801; 31757755568855353].
  certificate 2 [74058212732561358302231226437062788676166966415465897661863160754340907].
Qed.
