(* ===== verification/Curve25519.v ===== *)
(** * Curve25519 key agreement (bearssl/src/curve25519-donna-c64.c)

    Field elements are five 64-bit limbs in radix [2^51].  The functions of the
    file are translated with their [uint64_t] and [uint128_t] wrap-around; the
    theorems show that no wrap-around happens on the values the ladder
    produces, that the field operations compute modulo [2^255 - 19], and that
    [curve25519_donna] is the ladder of RFC 7748 on the clamped scalar. *)
From S2P Require Import Prelude Inner Primes.
Local Open Scope Z_scope.

Abbreviation w128 := (wrap 128).

(** [typedef limb felem[5]] *)
Record felem : Set := mkF { f0 : Z; f1 : Z; f2 : Z; f3 : Z; f4 : Z }.

(** [x & 0x7ffffffffffff] *)
Definition mask51 (x : Z) : Z := Z.land x 0x7ffffffffffff.

(** ** Field operations *)

(** [fsum(output, in)] *)
Definition fsum (output inp : felem) : felem :=
  mkF (w64 (f0 output + f0 inp)) (w64 (f1 output + f1 inp)) (w64 (f2 output + f2 inp))
      (w64 (f3 output + f3 inp)) (w64 (f4 output + f4 inp)).

Definition two54m152 : Z := w64 (w64 (Z.shiftl 1 54) - 152).
Definition two54m8 : Z := w64 (w64 (Z.shiftl 1 54) - 8).

(** [fdifference_backwards(out, in)]: the new value of [out]. *)
Definition fdifference_backwards (out inp : felem) : felem :=
  mkF (w64 (f0 inp + two54m152 - f0 out)) (w64 (f1 inp + two54m8 - f1 out))
      (w64 (f2 inp + two54m8 - f2 out)) (w64 (f3 inp + two54m8 - f3 out))
      (w64 (f4 inp + two54m8 - f4 out)).

(** [fscalar_product(output, in, scalar)] *)
Definition fscalar_product (inp : felem) (scalar : Z) : felem :=
  let a := w128 (f0 inp * scalar) in
  let o0 := mask51 (w64 a) in
  let a := w128 (f1 inp * scalar + w64 (Z.shiftr a 51)) in
  let o1 := mask51 (w64 a) in
  let a := w128 (f2 inp * scalar + w64 (Z.shiftr a 51)) in
  let o2 := mask51 (w64 a) in
  let a := w128 (f3 inp * scalar + w64 (Z.shiftr a 51)) in
  let o3 := mask51 (w64 a) in
  let a := w128 (f4 inp * scalar + w64 (Z.shiftr a 51)) in
  let o4 := mask51 (w64 a) in
  mkF (w64 (o0 + w128 (Z.shiftr a 51 * 19))) o1 o2 o3 o4.

(** The carry chain that ends both [fmul] and the loop of [fsquare_times]. *)
Definition carry_chain (t0 t1 t2 t3 t4 : Z) : felem :=
  let r0 := mask51 (w64 t0) in let c := w64 (Z.shiftr t0 51) in
  let t1 := w128 (t1 + c) in let r1 := mask51 (w64 t1) in let c := w64 (Z.shiftr t1 51) in
  let t2 := w128 (t2 + c) in let r2 := mask51 (w64 t2) in let c := w64 (Z.shiftr t2 51) in
  let t3 := w128 (t3 + c) in let r3 := mask51 (w64 t3) in let c := w64 (Z.shiftr t3 51) in
  let t4 := w128 (t4 + c) in let r4 := mask51 (w64 t4) in let c := w64 (Z.shiftr t4 51) in
  let r0 := w64 (r0 + w64 (c * 19)) in let c := Z.shiftr r0 51 in let r0 := mask51 r0 in
  let r1 := w64 (r1 + c) in let c := Z.shiftr r1 51 in let r1 := mask51 r1 in
  let r2 := w64 (r2 + c) in
  mkF r0 r1 r2 r3 r4.

(** [fmul(output, in2, in)] *)
Definition fmul (in2 inp : felem) : felem :=
  let '(mkF r0 r1 r2 r3 r4) := inp in
  let '(mkF s0 s1 s2 s3 s4) := in2 in
  let t0 := w128 (r0 * s0) in
  let t1 := w128 (r0 * s1 + r1 * s0) in
  let t2 := w128 (r0 * s2 + r2 * s0 + r1 * s1) in
  let t3 := w128 (r0 * s3 + r3 * s0 + r1 * s2 + r2 * s1) in
  let t4 := w128 (r0 * s4 + r4 * s0 + r3 * s1 + r1 * s3 + r2 * s2) in
  let r4 := w64 (r4 * 19) in
  let r1 := w64 (r1 * 19) in
  let r2 := w64 (r2 * 19) in
  let r3 := w64 (r3 * 19) in
  let t0 := w128 (t0 + w128 (r4 * s1 + r1 * s4 + r2 * s3 + r3 * s2)) in
  let t1 := w128 (t1 + w128 (r4 * s2 + r2 * s4 + r3 * s3)) in
  let t2 := w128 (t2 + w128 (r4 * s3 + r3 * s4)) in
  let t3 := w128 (t3 + w128 (r4 * s4)) in
  carry_chain t0 t1 t2 t3 t4.

(** The body of the loop of [fsquare_times]. *)
Definition fsquare_step (r : felem) : felem :=
  let '(mkF r0 r1 r2 r3 r4) := r in
  let d0 := w64 (r0 * 2) in
  let d1 := w64 (r1 * 2) in
  let d2 := w64 (w64 (r2 * 2) * 19) in
  let d419 := w64 (r4 * 19) in
  let d4 := w64 (d419 * 2) in
  let t0 := w128 (r0 * r0 + d4 * r1 + d2 * r3) in
  let t1 := w128 (d0 * r1 + d4 * r2 + r3 * w64 (r3 * 19)) in
  let t2 := w128 (d0 * r2 + r1 * r1 + d4 * r3) in
  let t3 := w128 (d0 * r3 + d1 * r2 + r4 * d419) in
  let t4 := w128 (d0 * r4 + d1 * r3 + r2 * r2) in
  carry_chain t0 t1 t2 t3 t4.

(** [fsquare_times(output, in, count)]: the body runs once, then as long as
    [--count] is not zero, so that a count of zero runs it [2^64] times. *)
Definition fsquare_times (inp : felem) (count : Z) : felem :=
  Nat.iter (Z.to_nat (w64 (count - 1) + 1)) fsquare_step inp.

(** ** Bytes *)

Definition load_limb (s : bytes) : Z :=
  Z.lor (Z.lor (Z.lor (Z.lor (Z.lor (Z.lor (Z.lor (byte_at s 0)
    (w64 (Z.shiftl (byte_at s 1) 8))) (w64 (Z.shiftl (byte_at s 2) 16)))
    (w64 (Z.shiftl (byte_at s 3) 24))) (w64 (Z.shiftl (byte_at s 4) 32)))
    (w64 (Z.shiftl (byte_at s 5) 40))) (w64 (Z.shiftl (byte_at s 6) 48)))
    (w64 (Z.shiftl (byte_at s 7) 56)).

(** [store_limb(out, in)]: the eight bytes written. *)
Definition store_limb (x : Z) : bytes :=
  [Z.land x 0xff; Z.land (Z.shiftr x 8) 0xff; Z.land (Z.shiftr x 16) 0xff;
   Z.land (Z.shiftr x 24) 0xff; Z.land (Z.shiftr x 32) 0xff; Z.land (Z.shiftr x 40) 0xff;
   Z.land (Z.shiftr x 48) 0xff; Z.land (Z.shiftr x 56) 0xff].

(** [fexpand(output, in)] *)
Definition fexpand (s : bytes) : felem :=
  mkF (mask51 (load_limb s))
      (mask51 (Z.shiftr (load_limb (drop 6 s)) 3))
      (mask51 (Z.shiftr (load_limb (drop 12 s)) 6))
      (mask51 (Z.shiftr (load_limb (drop 19 s)) 1))
      (mask51 (Z.shiftr (load_limb (drop 24 s)) 12)).

(** The four carries from limb to limb of [fcontract]; the top limb keeps its
    excess.  The limbs are [uint128_t] there. *)
Definition carry_limbs (t : felem) : felem :=
  let '(mkF t0 t1 t2 t3 t4) := t in
  let t1 := w128 (t1 + Z.shiftr t0 51) in let t0 := mask51 t0 in
  let t2 := w128 (t2 + Z.shiftr t1 51) in let t1 := mask51 t1 in
  let t3 := w128 (t3 + Z.shiftr t2 51) in let t2 := mask51 t2 in
  let t4 := w128 (t4 + Z.shiftr t3 51) in let t3 := mask51 t3 in
  mkF t0 t1 t2 t3 t4.

(** ... followed by [t[0] += 19 * (t[4] >> 51); t[4] &= 0x7ffffffffffff]. *)
Definition carry_round (t : felem) : felem :=
  let '(mkF t0 t1 t2 t3 t4) := carry_limbs t in
  mkF (w128 (t0 + w128 (19 * Z.shiftr t4 51))) t1 t2 t3 (mask51 t4).

(** [fcontract(output, input)]: the 32 bytes written. *)
Definition fcontract (input : felem) : bytes :=
  let t := carry_round (carry_round input) in
  let t := carry_round (mkF (w128 (f0 t + 19)) (f1 t) (f2 t) (f3 t) (f4 t)) in
  let t := mkF (w128 (f0 t + (0x8000000000000 - 19))) (w128 (f1 t + (0x8000000000000 - 1)))
               (w128 (f2 t + (0x8000000000000 - 1))) (w128 (f3 t + (0x8000000000000 - 1)))
               (w128 (f4 t + (0x8000000000000 - 1))) in
  let '(mkF t0 t1 t2 t3 t4) := carry_limbs t in
  let t4 := mask51 t4 in
  store_limb (w64 (Z.lor t0 (w128 (Z.shiftl t1 51)))) ++
  store_limb (w64 (Z.lor (Z.shiftr t1 13) (w128 (Z.shiftl t2 38)))) ++
  store_limb (w64 (Z.lor (Z.shiftr t2 26) (w128 (Z.shiftl t3 25)))) ++
  store_limb (w64 (Z.lor (Z.shiftr t3 39) (w128 (Z.shiftl t4 12)))).

(** ** Ladder *)

(** [fmonty]: the outputs [x2, z2, x3, z3], then the final contents of the
    four arrays it destroys. *)
Definition fmonty (x z xprime zprime qmqp : felem) : felem * felem * felem * felem * (felem * felem * felem * felem) :=
  let origx := x in
  let x := fsum x z in
  let z := fdifference_backwards z origx in
  let origxprime := xprime in
  let xprime := fsum xprime zprime in
  let zprime := fdifference_backwards zprime origxprime in
  let xxprime := fmul xprime z in
  let zzprime := fmul x zprime in
  let origxprime := xxprime in
  let xxprime := fsum xxprime zzprime in
  let zzprime := fdifference_backwards zzprime origxprime in
  let x3 := fsquare_times xxprime 1 in
  let zzzprime := fsquare_times zzprime 1 in
  let z3 := fmul zzzprime qmqp in
  let xx := fsquare_times x 1 in
  let zz := fsquare_times z 1 in
  let x2 := fmul xx zz in
  let zz := fdifference_backwards zz xx in
  let zzz := fscalar_product zz 121665 in
  let zzz := fsum zzz xx in
  let z2 := fmul zz zzz in
  (x2, z2, x3, z3, (x, z, xprime, zprime)).

(** One limb of [swap_conditional]. *)
Definition swap_limb (swap a b : Z) : Z * Z :=
  let x := Z.land swap (Z.lxor a b) in (Z.lxor a x, Z.lxor b x).

(** [swap_conditional(a, b, iswap)] *)
Definition swap_conditional (a b : felem) (iswap : Z) : felem * felem :=
  let swap := w64 (- iswap) in
  let l0 := swap_limb swap (f0 a) (f0 b) in
  let l1 := swap_limb swap (f1 a) (f1 b) in
  let l2 := swap_limb swap (f2 a) (f2 b) in
  let l3 := swap_limb swap (f3 a) (f3 b) in
  let l4 := swap_limb swap (f4 a) (f4 b) in
  (mkF l0.1 l1.1 l2.1 l3.1 l4.1, mkF l0.2 l1.2 l2.2 l3.2 l4.2).

(** The arrays of [cmult] by the pointer that reaches them: exchanging two
    pointers exchanges two fields. *)
Record ladder_state : Set := mkLadder {
  nqpqx : felem; nqpqz : felem; nqx : felem; nqz : felem;
  nqpqx2 : felem; nqpqz2 : felem; nqx2 : felem; nqz2 : felem }.

(** The body of the inner loop of [cmult], for one bit. *)
Definition cmult_step (q : felem) (bit : Z) (s : ladder_state) : ladder_state :=
  let '(nqx, nqpqx) := swap_conditional (nqx s) (nqpqx s) bit in
  let '(nqz, nqpqz) := swap_conditional (nqz s) (nqpqz s) bit in
  let '(nqx2, nqz2, nqpqx2, nqpqz2, (nqx, nqz, nqpqx, nqpqz)) := fmonty nqx nqz nqpqx nqpqz q in
  let '(nqx2, nqpqx2) := swap_conditional nqx2 nqpqx2 bit in
  let '(nqz2, nqpqz2) := swap_conditional nqz2 nqpqz2 bit in
  mkLadder nqpqx2 nqpqz2 nqx2 nqz2 nqpqx nqpqz nqx nqz.

(** The inner loop: [j] iterations over the bits of [byte], high bit first. *)
Fixpoint cmult_bits (q : felem) (j : nat) (byte : Z) (s : ladder_state) : ladder_state :=
  match j with
  | O => s
  | S j => cmult_bits q j (w8 (Z.shiftl byte 1)) (cmult_step q (Z.shiftr byte 7) s)
  end.

(** The outer loop, from [i] on, for [k] iterations. *)
Fixpoint cmult_bytes (q : felem) (n : bytes) (i k : nat) (s : ladder_state) : ladder_state :=
  match k with
  | O => s
  | S k => cmult_bytes q n (S i) k (cmult_bits q 8 (byte_at n (31 - i)) s)
  end.

(** [cmult(resultx, resultz, n, q)] *)
Definition cmult (n : bytes) (q : felem) : felem * felem :=
  let zero := mkF 0 0 0 0 0 in let one := mkF 1 0 0 0 0 in
  let s := cmult_bytes q n 0 32 (mkLadder q one one zero zero one zero one) in
  (nqx s, nqz s).

(** [crecip(out, z)] *)
Definition crecip (z : felem) : felem :=
  let a := fsquare_times z 1 in
  let t0 := fsquare_times a 2 in
  let b := fmul t0 z in
  let a := fmul b a in
  let t0 := fsquare_times a 1 in
  let b := fmul t0 b in
  let t0 := fsquare_times b 5 in
  let b := fmul t0 b in
  let t0 := fsquare_times b 10 in
  let c := fmul t0 b in
  let t0 := fsquare_times c 20 in
  let t0 := fmul t0 c in
  let t0 := fsquare_times t0 10 in
  let b := fmul t0 b in
  let t0 := fsquare_times b 50 in
  let c := fmul t0 b in
  let t0 := fsquare_times c 100 in
  let t0 := fmul t0 c in
  let t0 := fsquare_times t0 50 in
  let t0 := fmul t0 b in
  let t0 := fsquare_times t0 5 in
  fmul t0 a.

(** [e] in [curve25519_donna] *)
Definition clamp (secret : bytes) : bytes :=
  let e := take 32 secret in
  let e := <[0%nat := Z.land (byte_at e 0) 248]> e in
  let e := <[31%nat := Z.land (byte_at e 31) 127]> e in
  <[31%nat := Z.lor (byte_at e 31) 64]> e.

(** [curve25519_donna(mypublic, secret, basepoint)]: the returned 0 and the
    32 bytes of [mypublic]. *)
Definition curve25519_donna (secret basepoint : bytes) : Z * bytes :=
  let e := clamp secret in
  let bp := fexpand basepoint in
  let '(x, z) := cmult e bp in
  let zmone := crecip z in
  let z := fmul x zmone in
  (0, fcontract z).

(** ** Specification: RFC 7748 *)
Module RFC7748.
Definition p : Z := 2 ^ 255 - 19.

Fixpoint decodeLittleEndian (b : bytes) : Z :=
  match b with [] => 0 | x :: b => x + 256 * decodeLittleEndian b end.

Fixpoint encodeLittleEndian (n : nat) (v : Z) : bytes :=
  match n with O => [] | S n => v mod 256 :: encodeLittleEndian n (v / 256) end.

(** The top bit of the last byte of a u-coordinate is ignored. *)
Definition decodeUCoordinate (u : bytes) : Z := decodeLittleEndian u mod 2 ^ 255.
Definition encodeUCoordinate (u : Z) : bytes := encodeLittleEndian 32 (u mod p).

(** The three low bits cleared, bit 254 set and bit 255 cleared. *)
Definition decodeScalar25519 (k : bytes) : Z :=
  let k := decodeLittleEndian k in k mod 2 ^ 254 - k mod 8 + 2 ^ 254.

Definition a24 : Z := 121665.

(** One iteration: [(x_2, z_2, x_3, z_3)] between the two conditional swaps. *)
Definition step (x_1 : Z) (s : Z * Z * Z * Z) : Z * Z * Z * Z :=
  let '(x_2, z_2, x_3, z_3) := s in
  let A := (x_2 + z_2) mod p in
  let AA := A ^ 2 mod p in
  let B := (x_2 - z_2) mod p in
  let BB := B ^ 2 mod p in
  let E := (AA - BB) mod p in
  let C := (x_3 + z_3) mod p in
  let D := (x_3 - z_3) mod p in
  let DA := (D * A) mod p in
  let CB := (C * B) mod p in
  ((AA * BB) mod p, (E * (AA + a24 * E)) mod p, (DA + CB) ^ 2 mod p, (x_1 * (DA - CB) ^ 2) mod p).

Definition cswap (b : bool) (s : Z * Z * Z * Z) : Z * Z * Z * Z :=
  let '(x_2, z_2, x_3, z_3) := s in
  if b then (x_3, z_3, x_2, z_2) else (x_2, z_2, x_3, z_3).

(** The bits [bits - 1 .. 0] of [k], high bit first; swapping back at the end
    of each iteration instead of carrying [swap] to the next. *)
Fixpoint run (x_1 k : Z) (bits : nat) (s : Z * Z * Z * Z) : Z * Z * Z * Z :=
  match bits with
  | O => s
  | S t => let b := Z.testbit k (Z.of_nat t) in run x_1 k t (cswap b (step x_1 (cswap b s)))
  end.

Definition ladder (k u : Z) (bits : nat) : Z :=
  let '(x_2, z_2, _, _) := run u k bits (1, 0, u, 1) in (x_2 * (z_2 ^ (p - 2) mod p)) mod p.

Definition X25519 (k u : bytes) : bytes :=
  encodeUCoordinate (ladder (decodeScalar25519 k) (decodeUCoordinate u) 255).
End RFC7748.
Import RFC7748.

(** ** Field operations modulo [p] *)

Definition val (a : felem) : Z :=
  f0 a + 2 ^ 51 * f1 a + 2 ^ 102 * f2 a + 2 ^ 153 * f3 a + 2 ^ 204 * f4 a.

(** Every limb between 0 and [n]. *)
Definition limbs_le (n : Z) (a : felem) : Prop :=
  0 <= f0 a <= n /\ 0 <= f1 a <= n /\ 0 <= f2 a <= n /\ 0 <= f3 a <= n /\ 0 <= f4 a <= n.

(** What multiplication returns, and what it can be given. *)
Abbreviation reduced := (limbs_le (2 ^ 51)).
Abbreviation loose := (limbs_le (2 ^ 54 + 2 ^ 51)).

Definition eqp (a b : Z) : Prop := (p | a - b).

(** Congruence by exhibiting the multiple of [p]. *)
Lemma eqp_by k a b : a = b + k * p -> eqp a b.
Proof. intros ->. exists k. lia. Qed.

Lemma eqp_spec a b : eqp a b <-> a mod p = b mod p.
Proof.
  split.
  - intros [k Hk]. replace a with (b + k * p) by lia. apply Z_mod_plus_full.
  - intros H. apply (eqp_by (a / p - b / p)).
    assert (Ha := Z_div_mod_eq_full a p). assert (Hb := Z_div_mod_eq_full b p). lia.
Qed.

#[global] Instance eqp_equivalence : Equivalence eqp.
Proof. split; repeat intro; rewrite !eqp_spec in *; congruence. Qed.
#[global] Instance eqp_add : Proper (eqp ==> eqp ==> eqp) Z.add.
Proof. intros a a' [k Ha] b b' [l Hb]. apply (eqp_by (k + l)). lia. Qed.
#[global] Instance eqp_sub : Proper (eqp ==> eqp ==> eqp) Z.sub.
Proof. intros a a' [k Ha] b b' [l Hb]. apply (eqp_by (k - l)). lia. Qed.
#[global] Instance eqp_mul : Proper (eqp ==> eqp ==> eqp) Z.mul.
Proof.
  intros a a' [k Ha] b b' [l Hb]. apply (eqp_by (k * b + a' * l)).
  replace a with (a' + k * p) by lia. replace b with (b' + l * p) by lia. ring.
Qed.
#[global] Instance eqp_pow : Proper (eqp ==> eq ==> eqp) Z.pow.
Proof.
  intros a a' Ha n _ <-. destruct (Z.lt_ge_cases n 0) as [Hn|Hn].
  { rewrite !Z.pow_neg_r by lia. reflexivity. }
  revert n Hn. apply natlike_ind; [reflexivity|].
  intros n Hn IH. rewrite !Z.pow_succ_r by lia. apply eqp_mul; [exact Ha|exact IH].
Qed.

Lemma eqp_mod a : eqp (a mod p) a.
Proof. apply eqp_spec, Z.mod_mod. discriminate. Qed.

Lemma mask51_mod x : mask51 x = x mod 2 ^ 51.
Proof. exact (Z.land_ones x 51 ltac:(lia)). Qed.

Lemma limbs_le_weaken n m a : n <= m -> limbs_le n a -> limbs_le m a.
Proof. unfold limbs_le. lia. Qed.

(** Reads a wrap-around away when the value is in range. *)
Lemma wrap_le w z n : 0 <= z <= n -> n < 2 ^ w -> wrap w z = z.
Proof. intros. apply wrap_small. split; lia. Qed.

Lemma mask51_w64 x : mask51 (w64 x) = x mod 2 ^ 51.
Proof. rewrite mask51_mod. apply Z.mod_mod_divide. now exists (2 ^ 13). Qed.

Lemma fsum_ok n m a b :
  limbs_le n a -> limbs_le m b -> n + m < 2 ^ 64 ->
  limbs_le (n + m) (fsum a b) /\ val (fsum a b) = val a + val b.
Proof.
  intros Ha Hb Hs. unfold limbs_le in Ha, Hb. unfold fsum.
  rewrite !(fun z H => wrap_le 64 z (n + m) H Hs) by lia.
  unfold limbs_le, val; cbn [f0 f1 f2 f3 f4]. lia.
Qed.

Lemma fdifference_ok a b :
  reduced a -> reduced b ->
  loose (fdifference_backwards a b) /\ eqp (val (fdifference_backwards a b)) (val b - val a).
Proof.
  intros Ha Hb. unfold limbs_le in Ha, Hb. unfold fdifference_backwards.
  change two54m152 with (2 ^ 54 - 152). change two54m8 with (2 ^ 54 - 8).
  rewrite !(fun z H => wrap_le 64 z (2 ^ 54 + 2 ^ 51) H eq_refl) by lia.
  unfold limbs_le, val; cbn [f0 f1 f2 f3 f4]. split; [lia|].
  apply (eqp_by 8). unfold p. lia.
Qed.

(** The scalar fits in 17 bits, and every carry in the 64 bits it is cut to. *)
Lemma fscalar_ok a c :
  loose a -> 0 <= c < 2 ^ 17 ->
  limbs_le (2 ^ 51 + 2 ^ 26) (fscalar_product a c) /\ eqp (val (fscalar_product a c)) (val a * c).
Proof.
  intros Ha Hc. destruct a as [a0 a1 a2 a3 a4]. unfold limbs_le in Ha. cbn [f0 f1 f2 f3 f4] in Ha.
  assert (Hm : forall x, 0 <= x <= 2 ^ 54 + 2 ^ 51 -> 0 <= x * c <= 2 ^ 72) by nia.
  unfold fscalar_product; cbn [f0 f1 f2 f3 f4]; cbv zeta. rewrite !mask51_w64, !Z.shiftr_div_pow2 by lia.
  assert (M0 := Hm a0 ltac:(lia)). assert (M1 := Hm a1 ltac:(lia)). assert (M2 := Hm a2 ltac:(lia)).
  assert (M3 := Hm a3 ltac:(lia)). assert (M4 := Hm a4 ltac:(lia)).
  unfold val; cbn [f0 f1 f2 f3 f4].
  replace ((a0 + 2 ^ 51 * a1 + 2 ^ 102 * a2 + 2 ^ 153 * a3 + 2 ^ 204 * a4) * c)
    with (a0 * c + 2 ^ 51 * (a1 * c) + 2 ^ 102 * (a2 * c) + 2 ^ 153 * (a3 * c) + 2 ^ 204 * (a4 * c)) by ring.
  generalize dependent (a4 * c); generalize dependent (a3 * c); generalize dependent (a2 * c);
    generalize dependent (a1 * c); generalize dependent (a0 * c). clear. intros m0 H0 m1 H1 m2 H2 m3 H3 m4 H4.
  rewrite (wrap_le 128 m0 (2 ^ 72)) by lia.
  rewrite (wrap_le 64 (m0 / 2 ^ 51) (2 ^ 22)) by lia.
  set (t1 := m1 + m0 / 2 ^ 51). assert (B1 : 0 <= t1 <= 2 ^ 73) by lia.
  rewrite (wrap_le 128 t1 (2 ^ 73)), (wrap_le 64 (t1 / 2 ^ 51) (2 ^ 22)) by lia.
  set (t2 := m2 + t1 / 2 ^ 51). assert (B2 : 0 <= t2 <= 2 ^ 73) by lia.
  rewrite (wrap_le 128 t2 (2 ^ 73)), (wrap_le 64 (t2 / 2 ^ 51) (2 ^ 22)) by lia.
  set (t3 := m3 + t2 / 2 ^ 51). assert (B3 : 0 <= t3 <= 2 ^ 73) by lia.
  rewrite (wrap_le 128 t3 (2 ^ 73)), (wrap_le 64 (t3 / 2 ^ 51) (2 ^ 22)) by lia.
  set (t4 := m4 + t3 / 2 ^ 51). assert (B4 : 0 <= t4 <= 2 ^ 72 + 2 ^ 22) by lia.
  rewrite (wrap_le 128 t4 (2 ^ 73)) by lia.
  rewrite (wrap_le 128 (t4 / 2 ^ 51 * 19) (2 ^ 26)) by lia.
  rewrite (wrap_le 64 (m0 mod 2 ^ 51 + t4 / 2 ^ 51 * 19) (2 ^ 52)) by lia.
  unfold limbs_le; cbn [f0 f1 f2 f3 f4]. split; [lia|].
  apply (eqp_by (- (t4 / 2 ^ 51))). unfold p, t4, t3, t2, t1. lia.
Qed.

Lemma carry_chain_ok t0 t1 t2 t3 t4 :
  let b n := n * (2 ^ 54 + 2 ^ 51) ^ 2 in
  0 <= t0 <= b 77 -> 0 <= t1 <= b 77 -> 0 <= t2 <= b 77 -> 0 <= t3 <= b 77 -> 0 <= t4 <= b 5 ->
  reduced (carry_chain t0 t1 t2 t3 t4) /\
  eqp (val (carry_chain t0 t1 t2 t3 t4)) (t0 + 2 ^ 51 * t1 + 2 ^ 102 * t2 + 2 ^ 153 * t3 + 2 ^ 204 * t4).
Proof.
  intros b H0 H1 H2 H3 H4. unfold b in *; clear b.
  unfold carry_chain; cbv zeta. rewrite !mask51_w64, !Z.shiftr_div_pow2 by lia.
  rewrite (wrap_le 64 (t0 / 2 ^ 51) (2 ^ 64 - 1)) by lia.
  set (s1 := t1 + t0 / 2 ^ 51). assert (B1 : 0 <= s1 < 2 ^ 115) by lia.
  rewrite (wrap_le 128 s1 (2 ^ 115)), (wrap_le 64 (s1 / 2 ^ 51) (2 ^ 64 - 1)) by lia.
  set (s2 := t2 + s1 / 2 ^ 51). assert (B2 : 0 <= s2 < 2 ^ 115) by lia.
  rewrite (wrap_le 128 s2 (2 ^ 115)), (wrap_le 64 (s2 / 2 ^ 51) (2 ^ 64 - 1)) by lia.
  set (s3 := t3 + s2 / 2 ^ 51). assert (B3 : 0 <= s3 < 2 ^ 115) by lia.
  rewrite (wrap_le 128 s3 (2 ^ 115)), (wrap_le 64 (s3 / 2 ^ 51) (2 ^ 64 - 1)) by lia.
  set (s4 := t4 + s3 / 2 ^ 51). assert (B4 : 0 <= s4 / 2 ^ 51 <= 406 * 2 ^ 51) by lia.
  rewrite (wrap_le 128 s4 (2 ^ 115)), (wrap_le 64 (s4 / 2 ^ 51) (2 ^ 64 - 1)) by lia.
  rewrite (wrap_le 64 (s4 / 2 ^ 51 * 19) (2 ^ 64 - 2 ^ 51)) by lia.
  set (r0 := t0 mod 2 ^ 51 + s4 / 2 ^ 51 * 19). assert (R0 : 0 <= r0 < 2 ^ 64) by lia.
  rewrite (wrap_le 64 r0 (2 ^ 64 - 1)) by lia.
  set (r1 := s1 mod 2 ^ 51 + r0 / 2 ^ 51). assert (R1 : 0 <= r1 < 2 ^ 52) by lia.
  rewrite (wrap_le 64 r1 (2 ^ 52)) by lia.
  rewrite (wrap_le 64 (s2 mod 2 ^ 51 + r1 / 2 ^ 51) (2 ^ 51)) by lia.
  unfold limbs_le, val; cbn [f0 f1 f2 f3 f4]. split; [lia|].
  apply (eqp_by (- (s4 / 2 ^ 51))). unfold p, r1, r0, s4, s3, s2, s1. rewrite !Z.mod_eq by discriminate. ring.
Qed.

Lemma wrap_add w a b : wrap w (wrap w a + wrap w b) = wrap w (a + b).
Proof. symmetry. apply Zplus_mod. Qed.

Lemma limb_mul_le M x y : 0 <= x <= M -> 0 <= y <= M -> 0 <= x * y <= M ^ 2.
Proof. nia. Qed.

(** Bounds a sum of products of limbs that are at most [M]. *)
Ltac limb_sum M :=
  repeat match goal with
  | |- context [?x * ?y] =>
      is_var x; is_var y;
      generalize (limb_mul_le M x y ltac:(assumption) ltac:(assumption)); generalize (x * y); intros ? ?
  end;
  repeat match goal with H : 0 <= ?x <= M |- _ => clear H end; lia.

Lemma mul_mid c x y : x * c * y = c * (x * y).
Proof. ring. Qed.

Lemma fmul_ok a b :
  loose a -> loose b -> reduced (fmul a b) /\ eqp (val (fmul a b)) (val a * val b).
Proof.
  intros (A0 & A1 & A2 & A3 & A4) (B0 & B1 & B2 & B3 & B4).
  destruct a as [s0 s1 s2 s3 s4], b as [r0 r1 r2 r3 r4]. cbn [f0 f1 f2 f3 f4] in *.
  remember (2 ^ 54 + 2 ^ 51) as M eqn:EM. unfold fmul; cbv zeta.
  rewrite !(fun z H => wrap_le 64 (z * 19) (19 * M) H) by lia.
  assert (HM : M ^ 2 = 81 * 2 ^ 102) by (rewrite EM; reflexivity).
  rewrite !wrap_add, !mul_mid.
  rewrite !(fun z H => wrap_le 128 z (100 * M ^ 2) H) by (rewrite ?HM; limb_sum M).
  destruct (carry_chain_ok
    (r0 * s0 + (19 * (r4 * s1) + 19 * (r1 * s4) + 19 * (r2 * s3) + 19 * (r3 * s2)))
    (r0 * s1 + r1 * s0 + (19 * (r4 * s2) + 19 * (r2 * s4) + 19 * (r3 * s3)))
    (r0 * s2 + r2 * s0 + r1 * s1 + (19 * (r4 * s3) + 19 * (r3 * s4)))
    (r0 * s3 + r3 * s0 + r1 * s2 + r2 * s1 + 19 * (r4 * s4))
    (r0 * s4 + r4 * s0 + r3 * s1 + r1 * s3 + r2 * s2)) as [Hr Hv]; [rewrite <-EM; limb_sum M..|].
  split; [exact Hr|]. rewrite Hv. unfold val; cbn [f0 f1 f2 f3 f4].
  apply (eqp_by (- (r1 * s4 + r2 * s3 + r3 * s2 + r4 * s1 + 2 ^ 51 * (r2 * s4 + r3 * s3 + r4 * s2) +
                    2 ^ 102 * (r3 * s4 + r4 * s3) + 2 ^ 153 * (r4 * s4)))).
  unfold p. ring.
Qed.

Lemma fsquare_step_ok a :
  loose a -> reduced (fsquare_step a) /\ eqp (val (fsquare_step a)) (val a ^ 2).
Proof.
  intros (A0 & A1 & A2 & A3 & A4). destruct a as [r0 r1 r2 r3 r4]. cbn [f0 f1 f2 f3 f4] in *.
  remember (2 ^ 54 + 2 ^ 51) as M eqn:EM. unfold fsquare_step; cbv zeta.
  rewrite (wrap_le 64 (r0 * 2) (2 * M)), (wrap_le 64 (r1 * 2) (2 * M)), (wrap_le 64 (r2 * 2) (2 * M)),
    (wrap_le 64 (r2 * 2 * 19) (38 * M)), (wrap_le 64 (r4 * 19) (19 * M)), (wrap_le 64 (r3 * 19) (19 * M)),
    (wrap_le 64 (r4 * 19 * 2) (38 * M)) by lia.
  assert (HM : M ^ 2 = 81 * 2 ^ 102) by (rewrite EM; reflexivity).
  replace (r3 * (r3 * 19)) with (r3 * 19 * r3) by ring.
  replace (r4 * (r4 * 19)) with (r4 * 19 * r4) by ring.
  rewrite !mul_mid.
  rewrite !(fun z H => wrap_le 128 z (100 * M ^ 2) H) by (rewrite ?HM; limb_sum M).
  destruct (carry_chain_ok
    (r0 * r0 + 2 * (19 * (r4 * r1)) + 19 * (2 * (r2 * r3)))
    (2 * (r0 * r1) + 2 * (19 * (r4 * r2)) + 19 * (r3 * r3))
    (2 * (r0 * r2) + r1 * r1 + 2 * (19 * (r4 * r3)))
    (2 * (r0 * r3) + 2 * (r1 * r2) + 19 * (r4 * r4))
    (2 * (r0 * r4) + 2 * (r1 * r3) + r2 * r2)) as [Hr Hv]; [rewrite <-EM; limb_sum M..|].
  split; [exact Hr|]. rewrite Hv. unfold val; cbn [f0 f1 f2 f3 f4].
  apply (eqp_by (- (2 * r1 * r4 + 2 * r2 * r3 + 2 ^ 51 * (2 * r2 * r4 + r3 * r3) +
                    2 ^ 102 * (2 * r3 * r4) + 2 ^ 153 * (r4 * r4)))).
  unfold p. ring.
Qed.

Lemma reduced_loose a : reduced a -> loose a.
Proof. apply limbs_le_weaken. lia. Qed.
#[local] Hint Resolve reduced_loose : core.

Lemma fsquare_times_ok a n :
  loose a -> 1 <= n < 2 ^ 64 ->
  reduced (fsquare_times a n) /\ eqp (val (fsquare_times a n)) (val a ^ (2 ^ n)).
Proof.
  intros Ha Hn. unfold fsquare_times. rewrite (wrap_le 64 (n - 1) (2 ^ 64 - 1)) by lia.
  replace (n - 1 + 1) with n by lia.
  assert (H : forall k, reduced (Nat.iter (S k) fsquare_step a) /\
            eqp (val (Nat.iter (S k) fsquare_step a)) (val a ^ (2 ^ Z.of_nat (S k)))).
  { induction k as [|k [IHr IHv]]; [exact (fsquare_step_ok a Ha)|].
    rewrite Nat.iter_succ. destruct (fsquare_step_ok _ (reduced_loose _ IHr)) as [Hr Hv].
    split; [exact Hr|]. rewrite Hv, IHv, <-Z.pow_mul_r by lia.
    rewrite (Nat2Z.inj_succ (S k)), Z.pow_succ_r by lia. rewrite Z.mul_comm. reflexivity. }
  specialize (H (Z.to_nat n - 1)%nat). replace (S (Z.to_nat n - 1)) with (Z.to_nat n) in H by lia.
  rewrite Z2Nat.id in H by lia. exact H.
Qed.

(** *** Inversion *)

(** [a] is a power of [z], as a field element that can be multiplied. *)
Definition is_pow (z a : felem) (e : Z) : Prop := 0 <= e /\ reduced a /\ eqp (val a) (val z ^ e).

Lemma is_pow_mul z a b m n : is_pow z a m -> is_pow z b n -> is_pow z (fmul a b) (m + n).
Proof.
  intros (Hm & Ra & Va) (Hn & Rb & Vb). destruct (fmul_ok a b) as [Hr Hv]; [auto..|].
  split; [lia|split; [exact Hr|]]. rewrite Hv, Va, Vb, Z.pow_add_r by lia. reflexivity.
Qed.

Lemma is_pow_square z a m n : 1 <= n < 2 ^ 64 -> is_pow z a m -> is_pow z (fsquare_times a n) (m * 2 ^ n).
Proof.
  intros Hn (Hm & Ra & Va). destruct (fsquare_times_ok a n) as [Hr Hv]; [auto..|].
  split; [lia|split; [exact Hr|]]. rewrite Hv, Va, <-Z.pow_mul_r by lia. reflexivity.
Qed.

Lemma is_pow_self z : reduced z -> is_pow z z 1.
Proof. intros H. split; [lia|split; [exact H|]]. rewrite Z.pow_1_r. reflexivity. Qed.

Lemma crecip_ok z :
  reduced z -> reduced (crecip z) /\ eqp (val (crecip z)) (val z ^ (p - 2)).
Proof.
  intros Hz. enough (H : is_pow z (crecip z) (p - 2)) by exact (proj2 H).
  apply is_pow_self in Hz. unfold crecip.
  assert (H2 := is_pow_square _ _ _ 1 ltac:(lia) Hz).
  assert (H9 := is_pow_mul _ _ _ _ _ (is_pow_square _ _ _ 2 ltac:(lia) H2) Hz).
  assert (H11 := is_pow_mul _ _ _ _ _ H9 H2).
  assert (H31 := is_pow_mul _ _ _ _ _ (is_pow_square _ _ _ 1 ltac:(lia) H11) H9).
  assert (H_10 := is_pow_mul _ _ _ _ _ (is_pow_square _ _ _ 5 ltac:(lia) H31) H31).
  assert (H_20 := is_pow_mul _ _ _ _ _ (is_pow_square _ _ _ 10 ltac:(lia) H_10) H_10).
  assert (H_40 := is_pow_mul _ _ _ _ _ (is_pow_square _ _ _ 20 ltac:(lia) H_20) H_20).
  assert (H_50 := is_pow_mul _ _ _ _ _ (is_pow_square _ _ _ 10 ltac:(lia) H_40) H_10).
  assert (H_100 := is_pow_mul _ _ _ _ _ (is_pow_square _ _ _ 50 ltac:(lia) H_50) H_50).
  assert (H_200 := is_pow_mul _ _ _ _ _ (is_pow_square _ _ _ 100 ltac:(lia) H_100) H_100).
  assert (H_250 := is_pow_mul _ _ _ _ _ (is_pow_square _ _ _ 50 ltac:(lia) H_200) H_50).
  exact (is_pow_mul _ _ _ _ _ (is_pow_square _ _ _ 5 ltac:(lia) H_250) H11).
Qed.

(** *** The ladder *)

#[local] Opaque fmul fsquare_times fsum fdifference_backwards fscalar_product.

Lemma fmonty_ok x z xp zp q :
  let '(x2, z2, x3, z3, _) := fmonty x z xp zp q in
  reduced x -> reduced z -> reduced xp -> reduced zp -> reduced q ->
  (reduced x2 /\ reduced z2 /\ reduced x3 /\ reduced z3) /\
  let X := val x in let Z := val z in let X' := val xp in let Z' := val zp in
  let AA := (X + Z) ^ 2 in let BB := (X - Z) ^ 2 in
  let DA := (X' - Z') * (X + Z) in let CB := (X' + Z') * (X - Z) in
  eqp (val x2) (AA * BB) /\ eqp (val z2) ((AA - BB) * (AA + a24 * (AA - BB))) /\
  eqp (val x3) ((DA + CB) ^ 2) /\ eqp (val z3) (val q * (DA - CB) ^ 2).
Proof.
  unfold fmonty; cbv beta zeta iota. intros Rx Rz Rxp Rzp Rq.
  assert (sum : forall a b, reduced a -> reduced b -> loose (fsum a b) /\ val (fsum a b) = val a + val b).
  { intros a b Ha Hb. destruct (fsum_ok _ _ a b Ha Hb) as [Hl Hv]; [lia|].
    split; [|exact Hv]. apply (limbs_le_weaken _ (2 ^ 54 + 2 ^ 51) _) in Hl; [exact Hl|lia]. }
  destruct (sum x z) as [Lx Vx]; [auto..|]. destruct (sum xp zp) as [Lxp Vxp]; [auto..|].
  destruct (fdifference_ok z x) as [Lz Vz]; [auto..|]. destruct (fdifference_ok zp xp) as [Lzp Vzp]; [auto..|].
  destruct (fmul_ok _ _ Lxp Lz) as [Rcb Vcb]. destruct (fmul_ok _ _ Lx Lzp) as [Rda Vda].
  rewrite Vxp, Vz in Vcb. rewrite Vx, Vzp in Vda.
  set (cb := fmul (fsum xp zp) (fdifference_backwards z x)) in *.
  set (da := fmul (fsum x z) (fdifference_backwards zp xp)) in *.
  destruct (sum cb da) as [Ls Vs]; [auto..|]. destruct (fdifference_ok da cb) as [Ld Vd]; [auto..|].
  destruct (fsquare_times_ok _ 1 Ls) as [R3 V3]; [lia|]. destruct (fsquare_times_ok _ 1 Ld) as [R3' V3']; [lia|].
  destruct (fmul_ok (fsquare_times (fdifference_backwards da cb) 1) q) as [Rz3 Vz3]; [auto..|].
  destruct (fsquare_times_ok _ 1 Lx) as [Raa Vaa]; [lia|]. destruct (fsquare_times_ok _ 1 Lz) as [Rbb Vbb]; [lia|].
  rewrite Vx in Vaa. rewrite Vz in Vbb.
  set (aa := fsquare_times (fsum x z) 1) in *. set (bb := fsquare_times (fdifference_backwards z x) 1) in *.
  destruct (fmul_ok aa bb) as [Rx2 Vx2]; [auto..|].
  destruct (fdifference_ok bb aa) as [Le Ve]; [auto..|].
  destruct (fscalar_ok _ 121665 Le) as [Lm Vm]; [lia|].
  destruct (fsum_ok _ _ _ aa Lm Raa) as [Lt Vt]; [lia|].
  apply (limbs_le_weaken _ (2 ^ 54 + 2 ^ 51) _) in Lt; [|lia].
  destruct (fmul_ok _ _ Le Lt) as [Rz2 Vz2].
  change (2 ^ 1) with 2 in *. split; [auto|]. split; [|split; [|split]].
  - rewrite Vx2, Vaa, Vbb. reflexivity.
  - rewrite Vz2, Vt, Vm, Ve, Vaa, Vbb. unfold a24. apply (eqp_by 0). ring.
  - rewrite V3, Vs, Vcb, Vda. apply (eqp_by 0). ring.
  - rewrite Vz3, V3', Vd, Vcb, Vda. apply (eqp_by 0). ring.
Qed.

Lemma swap_limb_spec (b : bool) x y :
  in_width 64 x -> in_width 64 y ->
  swap_limb (w64 (- Z.b2z b)) x y = if b then (y, x) else (x, y).
Proof.
  intros Hx Hy. unfold swap_limb. destruct b; cbn [Z.b2z].
  - change (w64 (- (1))) with (Z.ones 64). rewrite Z.land_comm, Z.land_ones by lia.
    change (Z.lxor x y mod 2 ^ 64) with (w64 (Z.lxor x y)).
    rewrite (wrap_small 64) by (apply lxor_in_width; [lia|assumption..]). f_equal; bitwise.
  - change (w64 (- (0))) with 0. rewrite Z.land_0_l, !Z.lxor_0_r. reflexivity.
Qed.

Lemma swap_conditional_spec (b : bool) x y :
  reduced x -> reduced y -> swap_conditional x y (Z.b2z b) = if b then (y, x) else (x, y).
Proof.
  intros Hx Hy. unfold swap_conditional. unfold limbs_le in Hx, Hy.
  rewrite !swap_limb_spec by (split; lia). destruct x, y, b; reflexivity.
Qed.

Lemma eqp_mod_r a b : eqp a b -> eqp a (b mod p).
Proof. intros H. rewrite eqp_mod. exact H. Qed.

(** Congruence of two expressions of the same shape, up to reductions on the right. *)
Ltac eqp_congr :=
  repeat first [assumption | apply eqp_mod_r | apply eqp_sub | apply eqp_add | apply eqp_mul
               | apply eqp_pow; [|reflexivity] | reflexivity].

(** The arrays in use represent the four numbers of the abstract ladder. *)
Definition represents (s : ladder_state) (S : Z * Z * Z * Z) : Prop :=
  let '(x_2, z_2, x_3, z_3) := S in
  (reduced (nqx s) /\ reduced (nqz s) /\ reduced (nqpqx s) /\ reduced (nqpqz s)) /\
  eqp (val (nqx s)) x_2 /\ eqp (val (nqz s)) z_2 /\ eqp (val (nqpqx s)) x_3 /\ eqp (val (nqpqz s)) z_3.

Lemma cmult_step_ok q u (b : bool) s S :
  reduced q -> eqp (val q) u -> represents s S ->
  represents (cmult_step q (Z.b2z b) s) (cswap b (step u (cswap b S))).
Proof.
  intros Rq Vq H. destruct S as [[[x_2 z_2] x_3] z_3].
  destruct H as ((R1 & R2 & R3 & R4) & V1 & V2 & V3 & V4).
  unfold cmult_step. rewrite !swap_conditional_spec by assumption.
  destruct b; cbn [cswap step];
  match goal with |- context [fmonty ?x ?z ?x' ?z' q] => generalize (fmonty_ok x z x' z' q) end;
  match goal with |- context [fmonty ?x ?z ?x' ?z' q] =>
    destruct (fmonty x z x' z' q) as [[[[x2 z2] x3] z3] [[[d1 d2] d3] d4]] end;
  intros HF; destruct HF as ((Q1 & Q2 & Q3 & Q4) & W1 & W2 & W3 & W4); try assumption;
  rewrite !swap_conditional_spec by assumption;
  cbn [represents nqx nqz nqpqx nqpqz]; (split; [split_and!; assumption|]); split_and!;
  (etransitivity; [eassumption|]); eqp_congr.
Qed.

Lemma cmult_bits_ok q u K t j : forall byte s st,
  reduced q -> eqp (val q) u -> in_width 8 byte -> (j <= 8)%nat ->
  (forall i, (i < j)%nat -> Z.testbit byte (7 - Z.of_nat i) = Z.testbit K (Z.of_nat (t + j - 1 - i))) ->
  represents s st ->
  exists st', represents (cmult_bits q j byte s) st' /\ run u K (j + t) st = run u K t st'.
Proof.
  induction j as [|j IH]; intros byte s st Rq Vq Hb Hj Hbits HS; [by exists st|].
  cbn [cmult_bits]. assert (Hbit : Z.shiftr byte 7 = Z.b2z (Z.testbit K (Z.of_nat (j + t)))).
  { assert (Hi := Hbits 0%nat ltac:(lia)). replace (t + S j - 1 - 0)%nat with (j + t)%nat in Hi by lia.
    rewrite <-Hi, Z.testbit_spec' by lia. change (7 - Z.of_nat 0) with 7.
    rewrite Z.shiftr_div_pow2 by lia. destruct Hb. rewrite Z.mod_small; lia. }
  rewrite Hbit. change (S j + t)%nat with (S (j + t)). cbn [run].
  apply IH; [done|done|apply wrap_in_width; lia|lia| |by apply cmult_step_ok].
  intros i Hi. rewrite wrap_testbit, Z.shiftl_spec by lia.
  rewrite (proj2 (Z.ltb_lt (7 - Z.of_nat i) 8)) by lia.
  assert (H := Hbits (S i) ltac:(lia)). replace (t + S j - 1 - S i)%nat with (t + j - 1 - i)%nat in H by lia.
  rewrite <-H. cbn [andb]. f_equal. lia.
Qed.

Lemma decodeLittleEndian_testbit n : forall j t,
  Forall byte_ok n -> 0 <= t < 8 ->
  Z.testbit (decodeLittleEndian n) (8 * Z.of_nat j + t) = Z.testbit (byte_at n j) t.
Proof.
  induction n as [|x n IH]; intros j t Hn Ht.
  - rewrite Z.bits_0. unfold byte_at. rewrite nth_overflow by (simpl; lia). by rewrite Z.bits_0.
  - inversion_clear Hn as [|? ? Hx Hn']. cbn [decodeLittleEndian].
    replace (x + 256 * decodeLittleEndian n) with (x + decodeLittleEndian n * 2 ^ 8) by lia.
    destruct j as [|j].
    + change (byte_at (x :: n) 0) with x. replace (8 * Z.of_nat 0 + t) with t by lia.
      rewrite <-(Z.mod_pow2_bits_low _ 8) by lia. rewrite Z_mod_plus_full, Z.mod_small; [done|].
      exact Hx.
    + change (byte_at (x :: n) (S j)) with (byte_at n j).
      rewrite <-(IH j t Hn' Ht). replace (8 * Z.of_nat (S j) + t) with (8 * Z.of_nat j + t + 8) by lia.
      rewrite <-Z.div_pow2_bits by lia. rewrite Z_div_plus by lia.
      rewrite Z.div_small by exact Hx. reflexivity.
Qed.

Lemma cmult_bytes_ok q u n k : forall s st,
  reduced q -> eqp (val q) u -> Forall byte_ok n -> (k <= 32)%nat -> represents s st ->
  represents (cmult_bytes q n (32 - k) k s) (run u (decodeLittleEndian n) (8 * k) st).
Proof.
  induction k as [|k IH]; intros s st Rq Vq Hn Hk HS; [exact HS|].
  cbn [cmult_bytes]. replace (31 - (32 - S k))%nat with k by lia.
  replace (S (32 - S k))%nat with (32 - k)%nat by lia.
  replace (8 * S k)%nat with (8 + 8 * k)%nat by lia.
  destruct (cmult_bits_ok q u (decodeLittleEndian n) (8 * k) 8 (byte_at n k) s st) as (st' & HS' & ->);
    [done|done| |lia| |done|].
  - unfold byte_at. destruct (nth_in_or_default k n 0) as [Hi| ->]; [|split; lia].
    rewrite Forall_forall in Hn. apply Hn, list_elem_of_In, Hi.
  - intros i Hi. rewrite <-decodeLittleEndian_testbit by (done || lia). f_equal. lia.
  - apply IH; [done..|lia|done].
Qed.

Lemma cmult_ok n q u :
  reduced q -> eqp (val q) u -> Forall byte_ok n ->
  let '(x, z) := cmult n q in
  let '(x_2, z_2, _, _) := run u (decodeLittleEndian n) 256 (1, 0, u, 1) in
  reduced x /\ reduced z /\ eqp (val x) x_2 /\ eqp (val z) z_2.
Proof.
  intros Rq Vq Hn. unfold cmult. cbv zeta.
  assert (H := cmult_bytes_ok q u n 32
    (mkLadder q (mkF 1 0 0 0 0) (mkF 1 0 0 0 0) (mkF 0 0 0 0 0)
       (mkF 0 0 0 0 0) (mkF 1 0 0 0 0) (mkF 0 0 0 0 0) (mkF 1 0 0 0 0)) (1, 0, u, 1) Rq Vq Hn ltac:(lia)).
  change (32 - 32)%nat with 0%nat in H. change (8 * 32)%nat with 256%nat in H.
  destruct (run u (decodeLittleEndian n) 256 (1, 0, u, 1)) as [[[x_2 z_2] x_3] z_3].
  destruct H as ((R1 & R2 & _) & V1 & V2 & _); [|auto].
  cbn [represents nqx nqz nqpqx nqpqz]. unfold limbs_le in *; cbn [f0 f1 f2 f3 f4].
  split; [lia|]. split_and!; [reflexivity|reflexivity|exact Vq|reflexivity].
Qed.

(** ** Bytes to limbs and back *)

Lemma decodeLittleEndian_bound s : Forall byte_ok s -> 0 <= decodeLittleEndian s < 2 ^ (8 * Z.of_nat (length s)).
Proof.
  induction 1 as [|x s Hx Hs IH]; [cbn; lia|]. cbn [decodeLittleEndian length]. unfold byte_ok in Hx.
  rewrite Nat2Z.inj_succ. replace (8 * Z.succ (Z.of_nat (length s))) with (8 + 8 * Z.of_nat (length s)) by lia.
  rewrite Z.pow_add_r by lia. lia.
Qed.

Lemma decodeLittleEndian_app s r :
  decodeLittleEndian (s ++ r) = decodeLittleEndian s + 2 ^ (8 * Z.of_nat (length s)) * decodeLittleEndian r.
Proof.
  induction s as [|x s IH]; cbn [decodeLittleEndian app length]; [cbn; lia|]. rewrite IH, Nat2Z.inj_succ.
  replace (8 * Z.succ (Z.of_nat (length s))) with (8 + 8 * Z.of_nat (length s)) by lia.
  rewrite Z.pow_add_r by lia. ring.
Qed.

Lemma load_limb_spec s k :
  Forall byte_ok s -> (k + 8 <= length s)%nat ->
  load_limb (drop k s) = decodeLittleEndian s / 2 ^ (8 * Z.of_nat k) mod 2 ^ 64.
Proof.
  intros Hs Hk.
  assert (E : decodeLittleEndian s / 2 ^ (8 * Z.of_nat k) = decodeLittleEndian (drop k s)).
  { rewrite <-(take_drop k s) at 1. rewrite decodeLittleEndian_app, length_take_le by lia.
    assert (B := decodeLittleEndian_bound (take k s) (Forall_take _ k _ Hs)).
    rewrite length_take_le in B by lia.
    rewrite (Z.mul_comm (2 ^ _)), Z_div_plus by lia. rewrite Z.div_small by exact B. reflexivity. }
  rewrite E. assert (Hl : (8 <= length (drop k s))%nat) by (rewrite length_drop; lia).
  assert (Hd := Forall_drop _ k _ Hs). clear E Hk Hs. generalize dependent (drop k s); clear s k.
  intros s Hl Hs. destruct s as [|b0 [|b1 [|b2 [|b3 [|b4 [|b5 [|b6 [|b7 s]]]]]]]]; try (simpl in Hl; lia).
  rewrite !Forall_cons in Hs. destruct Hs as (? & ? & ? & ? & ? & ? & ? & ? & Hs).
  unfold load_limb, byte_at. cbn [nth decodeLittleEndian]. unfold byte_ok in *.
  rewrite (lor_shiftl_add 64 b0 b1), (lor_shiftl_add 64 _ b2), (lor_shiftl_add 64 _ b3), (lor_shiftl_add 64 _ b4),
    (lor_shiftl_add 64 _ b5), (lor_shiftl_add 64 _ b6), (lor_shiftl_add 64 _ b7) by lia.
  apply Z.mod_unique_pos with (q := decodeLittleEndian s); lia.
Qed.

Lemma mod_div_mod x a b c : 0 <= b -> 0 <= c -> b + c <= a -> (x mod 2 ^ a) / 2 ^ b mod 2 ^ c = x / 2 ^ b mod 2 ^ c.
Proof.
  intros. apply Z.bits_inj'. intros i Hi. destruct (Z.lt_ge_cases i c).
  - rewrite !Z.mod_pow2_bits_low, !Z.div_pow2_bits, Z.mod_pow2_bits_low by lia. reflexivity.
  - rewrite !Z.mod_pow2_bits_high by lia. reflexivity.
Qed.

Lemma fexpand_ok s :
  length s = 32%nat -> Forall byte_ok s -> reduced (fexpand s) /\ val (fexpand s) = decodeUCoordinate s.
Proof.
  intros Hl Hs. unfold fexpand, decodeUCoordinate. rewrite !mask51_mod, !Z.shiftr_div_pow2 by lia.
  change (load_limb s) with (load_limb (drop 0 s)). rewrite !load_limb_spec by (done || lia). set (V := decodeLittleEndian s).
  assert (E : forall k b, 0 <= k -> 0 <= b <= 13 ->
            V / 2 ^ k mod 2 ^ 64 / 2 ^ b mod 2 ^ 51 = V / 2 ^ (k + b) mod 2 ^ 51).
  { intros k b Hk Hb. rewrite mod_div_mod, Z.div_div, <-Z.pow_add_r by lia. reflexivity. }
  rewrite !E by lia. rewrite (Z.mod_mod_divide _ (2 ^ 64)) by (by exists (2 ^ 13)).
  split.
  - unfold limbs_le; cbn [f0 f1 f2 f3 f4].
    assert (B : forall x, 0 <= x mod 2 ^ 51 <= 2 ^ 51) by (intros x; assert (H := Z.mod_pos_bound x (2 ^ 51)); lia).
    split_and!; apply B.
  - unfold val; cbn [f0 f1 f2 f3 f4].
    change (8 * Z.of_nat 6 + 3) with (51 * 1). change (8 * Z.of_nat 12 + 6) with (51 * 2).
    change (8 * Z.of_nat 19 + 1) with (51 * 3). change (8 * Z.of_nat 24 + 12) with (51 * 4).
    change (2 ^ (8 * Z.of_nat 0)) with 1. rewrite Z.div_1_r.
    rewrite !Z.mod_eq, !Z.div_div, <-!Z.pow_add_r by lia.
    change (51 * 1 + 51) with (51 * 2). change (51 * 2 + 51) with (51 * 3). change (51 * 3 + 51) with (51 * 4).
    change (51 * 4 + 51) with 255. change (2 ^ (51 * 1)) with (2 ^ 51). ring.
Qed.

Lemma encodeLittleEndian_app n m : forall v, 0 <= v ->
  encodeLittleEndian (n + m) v = encodeLittleEndian n v ++ encodeLittleEndian m (v / 2 ^ (8 * Z.of_nat n)).
Proof.
  induction n as [|n IH]; intros v Hv.
  - change (2 ^ (8 * Z.of_nat 0)) with 1. by rewrite Z.div_1_r.
  - cbn [encodeLittleEndian app Nat.add]. f_equal. rewrite IH by (apply Z.div_pos; lia).
    rewrite Nat2Z.inj_succ. replace (8 * Z.succ (Z.of_nat n)) with (8 + 8 * Z.of_nat n) by lia.
    rewrite Z.pow_add_r, <-Z.div_div by lia. reflexivity.
Qed.

Lemma store_limb_spec x : store_limb x = encodeLittleEndian 8 x.
Proof.
  assert (M : forall y, Z.land y 0xff = y mod 256) by (intros y; exact (Z.land_ones y 8 ltac:(lia))).
  unfold store_limb. cbn [encodeLittleEndian]. rewrite !M, !Z.shiftr_div_pow2, !Z.div_div by lia. reflexivity.
Qed.

Lemma encodeLittleEndian_mod n : forall m v, 0 <= m -> 8 * Z.of_nat n <= m ->
  encodeLittleEndian n (v mod 2 ^ m) = encodeLittleEndian n v.
Proof.
  induction n as [|n IH]; intros m v Hm Hn; [done|]. cbn [encodeLittleEndian]. f_equal.
  - apply Z.mod_mod_divide. exists (2 ^ (m - 8)). change 256 with (2 ^ 8). rewrite <-Z.pow_add_r by lia. f_equal. lia.
  - rewrite <-(IH (m - 8) (v / 256)) by lia. f_equal. change 256 with (2 ^ 8).
    apply Z.bits_inj'. intros i Hi. destruct (Z.lt_ge_cases i (m - 8)).
    + rewrite Z.mod_pow2_bits_low, !Z.div_pow2_bits, Z.mod_pow2_bits_low by lia. reflexivity.
    + rewrite Z.mod_pow2_bits_high, Z.div_pow2_bits, Z.mod_pow2_bits_high by lia. reflexivity.
Qed.

(** The limbs of a carried number below [2^255], and the words they make up. *)
Lemma words_of_limbs t0 t1 t2 t3 t4 :
  let t := mkF t0 t1 t2 t3 t4 in limbs_le (2 ^ 51 - 1) t ->
  store_limb (w64 (Z.lor t0 (w128 (Z.shiftl t1 51)))) ++
  store_limb (w64 (Z.lor (Z.shiftr t1 13) (w128 (Z.shiftl t2 38)))) ++
  store_limb (w64 (Z.lor (Z.shiftr t2 26) (w128 (Z.shiftl t3 25)))) ++
  store_limb (w64 (Z.lor (Z.shiftr t3 39) (w128 (Z.shiftl t4 12)))) = encodeLittleEndian 32 (val t).
Proof.
  intros t (H0 & H1 & H2 & H3 & H4); unfold t, val in *; cbn [f0 f1 f2 f3 f4] in *. clear t.
  rewrite !Z.shiftr_div_pow2 by lia. rewrite !lor_shiftl_add by lia. rewrite !store_limb_spec.
  unfold wrap. rewrite !encodeLittleEndian_mod by lia. set (V := _ + 2 ^ 204 * t4).
  change 32%nat with (8 + (8 + (8 + 8)))%nat.
  rewrite !encodeLittleEndian_app by (repeat apply Z.div_pos; lia).
  rewrite !Z.div_div by lia. rewrite <-!Z.pow_add_r by lia.
  change (8 * Z.of_nat 8) with 64. change (64 + 64) with 128. change (128 + 64) with 192.
  rewrite <-(encodeLittleEndian_mod 8 64 V), <-(encodeLittleEndian_mod 8 64 (V / 2 ^ 64)) by lia.
  rewrite <-(encodeLittleEndian_mod 8 64 (V / 2 ^ 128)) by lia.
  rewrite <-(encodeLittleEndian_mod 8 64 (t0 + _)), <-(encodeLittleEndian_mod 8 64 (t1 / _ + _)) by lia.
  rewrite <-(encodeLittleEndian_mod 8 64 (t2 / _ + _)) by lia.
  assert (E1 : V / 2 ^ 64 = t1 / 2 ^ 13 + 2 ^ 38 * t2 + 2 ^ 64 * (2 ^ 25 * t3 + 2 ^ 76 * t4)).
  { symmetry. apply (Z.div_unique_pos _ _ _ (t0 + 2 ^ 51 * (t1 mod 2 ^ 13))); unfold V; lia. }
  assert (E2 : V / 2 ^ 128 = t2 / 2 ^ 26 + 2 ^ 25 * t3 + 2 ^ 64 * (2 ^ 12 * t4)).
  { symmetry. apply (Z.div_unique_pos _ _ _ (t0 + 2 ^ 51 * t1 + 2 ^ 102 * (t2 mod 2 ^ 26))); unfold V; lia. }
  assert (E3 : V / 2 ^ 192 = t3 / 2 ^ 39 + 2 ^ 12 * t4).
  { symmetry. apply (Z.div_unique_pos _ _ _ (t0 + 2 ^ 51 * t1 + 2 ^ 102 * t2 + 2 ^ 153 * (t3 mod 2 ^ 39))); unfold V; lia. }
  rewrite E1, E2, E3, !(Z.mul_comm (2 ^ 64)), !Z_mod_plus_full.
  replace V with (t0 + 2 ^ 51 * t1 + (2 ^ 38 * t2 + 2 ^ 89 * t3 + 2 ^ 140 * t4) * 2 ^ 64) by (unfold V; lia).
  rewrite Z_mod_plus_full. reflexivity.
Qed.

Lemma carry_limbs_ok t :
  limbs_le (2 ^ 60) t ->
  let t' := carry_limbs t in
  val t' = val t /\ 0 <= f4 t' /\
  0 <= f0 t' < 2 ^ 51 /\ 0 <= f1 t' < 2 ^ 51 /\ 0 <= f2 t' < 2 ^ 51 /\ 0 <= f3 t' < 2 ^ 51.
Proof.
  destruct t as [t0 t1 t2 t3 t4]; intros (H0 & H1 & H2 & H3 & H4); cbn [f0 f1 f2 f3 f4] in *.
  unfold carry_limbs, val; cbv zeta; cbn [f0 f1 f2 f3 f4]. rewrite !mask51_mod, !Z.shiftr_div_pow2 by lia.
  rewrite (wrap_le 128 (t1 + t0 / 2 ^ 51) (2 ^ 61)) by lia. set (s1 := t1 + t0 / 2 ^ 51).
  assert (B1 : 0 <= s1 <= 2 ^ 61) by lia. rewrite (wrap_le 128 (t2 + s1 / 2 ^ 51) (2 ^ 61)) by lia.
  set (s2 := t2 + s1 / 2 ^ 51). assert (B2 : 0 <= s2 <= 2 ^ 61) by lia.
  rewrite (wrap_le 128 (t3 + s2 / 2 ^ 51) (2 ^ 61)) by lia.
  set (s3 := t3 + s2 / 2 ^ 51). assert (B3 : 0 <= s3 <= 2 ^ 61) by lia.
  rewrite (wrap_le 128 (t4 + s3 / 2 ^ 51) (2 ^ 61)) by lia.
  split; [|lia]. rewrite !Z.mod_eq by discriminate. unfold s3, s2, s1. ring.
Qed.

(** A carry round replaces the bits above [2^255] by 19 times their value. *)
Lemma carry_round_ok t :
  limbs_le (2 ^ 60) t ->
  let t' := carry_round t in let c := val t / 2 ^ 255 in
  val t' = val t mod 2 ^ 255 + 19 * c /\
  0 <= f0 t' < 2 ^ 51 + 19 * c /\ 0 <= f1 t' < 2 ^ 51 /\ 0 <= f2 t' < 2 ^ 51 /\ 0 <= f3 t' < 2 ^ 51 /\
  0 <= f4 t' < 2 ^ 51.
Proof.
  intros H. destruct (carry_limbs_ok t H) as (V & B4 & B0 & B1 & B2 & B3).
  assert (VB : 0 <= val t < 2 ^ 265) by (unfold limbs_le, val in *; lia). clear H.
  unfold carry_round. destruct (carry_limbs t) as [t0 t1 t2 t3 t4].
  unfold val at 1 in V. cbn [f0 f1 f2 f3 f4] in *. cbv zeta. rewrite mask51_mod, !Z.shiftr_div_pow2 by lia.
  assert (C : val t / 2 ^ 255 = t4 / 2 ^ 51).
  { symmetry. apply (Z.div_unique_pos _ _ _ (t0 + 2 ^ 51 * t1 + 2 ^ 102 * t2 + 2 ^ 153 * t3 + 2 ^ 204 * (t4 mod 2 ^ 51)));
      lia. }
  rewrite (Z.mod_eq (val t)), C by lia.
  rewrite (wrap_le 128 (19 * (t4 / 2 ^ 51)) (2 ^ 100)), (wrap_le 128 (t0 + 19 * (t4 / 2 ^ 51)) (2 ^ 101)) by lia.
  unfold val at 1; cbn [f0 f1 f2 f3 f4]. split; [|lia]. rewrite <-V, (Z.mod_eq t4) by lia. ring.
Qed.

Lemma fcontract_ok a : reduced a -> fcontract a = encodeUCoordinate (val a).
Proof.
  intros Ha. unfold fcontract.
  assert (V0 : 0 <= val a < 2 * 2 ^ 255) by (unfold limbs_le, val in *; lia).
  apply (limbs_le_weaken _ (2 ^ 60)) in Ha; [|lia].
  destruct (carry_round_ok a Ha) as (V1 & B1); cbv zeta in *. clear Ha. set (a1 := carry_round a) in *.
  assert (L1 : limbs_le (2 ^ 60) a1) by (unfold limbs_le; lia).
  destruct (carry_round_ok a1 L1) as (V2 & B2); cbv zeta in *. clear L1. set (a2 := carry_round a1) in *.
  assert (C1 : val a1 < 2 ^ 255 + 19) by lia.
  assert (W2 : 0 <= val a2 < 2 ^ 255 /\ eqp (val a2) (val a)).
  { split; [lia|]. apply (eqp_by (- (val a / 2 ^ 255 + val a1 / 2 ^ 255))). unfold p. lia. }
  destruct W2 as [W2 E2].
  rewrite (wrap_le 128 (f0 a2 + 19) (2 ^ 60)) by lia.
  set (a2' := mkF (f0 a2 + 19) (f1 a2) (f2 a2) (f3 a2) (f4 a2)).
  assert (V2' : val a2' = val a2 + 19) by (unfold val; cbn [f0 f1 f2 f3 f4 a2']; lia).
  destruct (carry_round_ok a2') as (V3 & B3); [unfold limbs_le; cbn [f0 f1 f2 f3 f4 a2']; lia|]; cbv zeta in *.
  set (a3 := carry_round a2') in *.
  assert (W3 : val a3 = val a mod p + 19).
  { rewrite <-(proj1 (eqp_spec _ _) E2). rewrite V3, V2'. unfold p. lia. }
  assert (R := Z.mod_pos_bound (val a) p eq_refl).
  assert (F : 0 <= f0 a3 < 2 ^ 52) by lia.
  rewrite (wrap_le 128 (f0 a3 + _) (2 ^ 53)), (wrap_le 128 (f1 a3 + _) (2 ^ 53)), (wrap_le 128 (f2 a3 + _) (2 ^ 53)),
    (wrap_le 128 (f3 a3 + _) (2 ^ 53)), (wrap_le 128 (f4 a3 + _) (2 ^ 53)) by lia.
  match goal with |- context [carry_limbs ?t] => set (a4 := t) end.
  assert (V4 : val a4 = val a mod p + 2 ^ 255) by (unfold val in *; cbn [f0 f1 f2 f3 f4 a4] in *; lia).
  destruct (carry_limbs_ok a4) as (V5 & B5); [unfold limbs_le; cbn [f0 f1 f2 f3 f4 a4]; lia|]. cbv zeta in *.
  rewrite V4 in V5. destruct (carry_limbs a4) as [t0 t1 t2 t3 t4]. unfold val at 1 in V5. cbn [f0 f1 f2 f3 f4] in *.
  rewrite words_of_limbs; rewrite mask51_mod.
  - unfold encodeUCoordinate. f_equal. unfold val at 1; cbn [f0 f1 f2 f3 f4]. clear - V5 B5 R.
    generalize dependent (val a mod p). intros v [R0 R1] V5. unfold p in R1.
    assert (E : t4 / 2 ^ 51 = 1) by (symmetry; apply (Z.div_unique_pos _ _ _ (t4 - 2 ^ 51)); lia).
    rewrite Z.mod_eq, E by lia. lia.
  - unfold limbs_le; cbn [f0 f1 f2 f3 f4]. lia.
Qed.

Lemma clamp_bytes b :
  byte_ok b -> Z.land b 248 = b - b mod 8 /\ Z.lor (Z.land b 127) 64 = b mod 64 + 64.
Proof.
  intros [H0 H1].
  assert (C : forallb (fun b => (Z.land b 248 =? b - b mod 8) && (Z.lor (Z.land b 127) 64 =? b mod 64 + 64))
                (Z.of_nat <$> seq 0 256) = true) by reflexivity.
  rewrite forallb_forall in C. specialize (C b).
  rewrite andb_true_iff, !Z.eqb_eq in C. apply C, list_elem_of_In, list_elem_of_fmap.
  exists (Z.to_nat b). rewrite elem_of_seq. lia.
Qed.

Lemma clamp_ok k :
  length k = 32%nat -> Forall byte_ok k ->
  Forall byte_ok (clamp k) /\ decodeLittleEndian (clamp k) = decodeScalar25519 k.
Proof.
  intros Hl Hk. destruct k as [|b0 k]; [done|]. simpl in Hl.
  destruct k as [|b31 mid _] using rev_ind; [done|]. rewrite length_app in Hl. simpl in Hl.
  assert (Lm : length mid = 30%nat) by lia. apply Forall_cons in Hk as [H0 Hk].
  apply Forall_app in Hk as [Hm H31]. apply Forall_cons in H31 as [H31 _].
  destruct (clamp_bytes b0 H0) as [E0 _]. destruct (clamp_bytes b31 H31) as [_ E31].
  assert (E : clamp (b0 :: mid ++ [b31]) = (b0 - b0 mod 8) :: mid ++ [b31 mod 64 + 64]).
  { unfold clamp. rewrite take_ge by (simpl; rewrite length_app, Lm; simpl; lia).
    change (byte_at (b0 :: mid ++ [b31]) 0) with b0. rewrite E0.
    change (<[0%nat := b0 - b0 mod 8]> (b0 :: mid ++ [b31])) with ((b0 - b0 mod 8 :: mid) ++ [b31]).
    assert (I : forall x y, <[31%nat := y]> ((b0 - b0 mod 8 :: mid) ++ [x]) = (b0 - b0 mod 8 :: mid) ++ [y]).
    { intros x y. rewrite insert_app_r_alt by (simpl; lia). simpl length. rewrite Lm. reflexivity. }
    assert (N : forall x, byte_at ((b0 - b0 mod 8 :: mid) ++ [x]) 31 = x).
    { intros x. unfold byte_at. rewrite app_nth2 by (simpl; lia). simpl length. rewrite Lm. reflexivity. }
    rewrite N, !I, N, E31. reflexivity. }
  rewrite E. split.
  - unfold byte_ok in *. constructor; [lia|]. apply Forall_app. split; [exact Hm|]. constructor; [lia|constructor].
  - unfold decodeScalar25519. cbn [decodeLittleEndian]. rewrite !decodeLittleEndian_app, Lm. cbn [decodeLittleEndian].
    assert (B := decodeLittleEndian_bound mid Hm). rewrite Lm in B. change (8 * Z.of_nat 30) with 240 in *.
    unfold byte_ok in *. generalize dependent (decodeLittleEndian mid). intros m B. clear - B H0 H31. lia.
Qed.

(** ** The 256 iterations of the code and the 255 of the standard

    The first iteration, on a clear bit, multiplies the coordinates of the
    second point by [4 * u].  The ladder is homogeneous, and a non-zero factor
    disappears in the final division. *)

Abbreviation point_pair := (Z * Z * Z * Z)%type.

(** The iteration as polynomials, without the reductions. *)
Definition pstep (x_1 : Z) (s : point_pair) : point_pair :=
  let '(x_2, z_2, x_3, z_3) := s in
  let A := x_2 + z_2 in let AA := A ^ 2 in let B := x_2 - z_2 in let BB := B ^ 2 in
  let E := AA - BB in let DA := (x_3 - z_3) * A in let CB := (x_3 + z_3) * B in
  (AA * BB, E * (AA + a24 * E), (DA + CB) ^ 2, x_1 * (DA - CB) ^ 2).

Definition eqp4 (s t : point_pair) : Prop :=
  let '(x_2, z_2, x_3, z_3) := s in let '(x_2', z_2', x_3', z_3') := t in
  eqp x_2 x_2' /\ eqp z_2 z_2' /\ eqp x_3 x_3' /\ eqp z_3 z_3'.

Definition scale4 (a b : Z) (s : point_pair) : point_pair :=
  let '(x_2, z_2, x_3, z_3) := s in (a * x_2, a * z_2, b * x_3, b * z_3).

Lemma pstep_step u s t : eqp4 s t -> eqp4 (pstep u s) (step u t).
Proof.
  destruct s as [[[x_2 z_2] x_3] z_3], t as [[[x_2' z_2'] x_3'] z_3'].
  intros (H1 & H2 & H3 & H4). cbn [pstep step eqp4]. split_and!; eqp_congr.
Qed.

#[global] Instance eqp4_equivalence : Equivalence eqp4.
Proof.
  split.
  - intros [[[? ?] ?] ?]; cbn; split_and!; reflexivity.
  - intros [[[? ?] ?] ?] [[[? ?] ?] ?] (? & ? & ? & ?); cbn; split_and!; symmetry; assumption.
  - intros [[[? ?] ?] ?] [[[? ?] ?] ?] [[[? ?] ?] ?] (? & ? & ? & ?) (? & ? & ? & ?); cbn;
      split_and!; etransitivity; eassumption.
Qed.

Lemma step_eqp4 u s t : eqp4 s t -> eqp4 (step u s) (step u t).
Proof. intros H. rewrite <-(pstep_step u s s (reflexivity s)). by apply pstep_step. Qed.

Lemma scale4_eqp4 a b s t : eqp4 s t -> eqp4 (scale4 a b s) (scale4 a b t).
Proof.
  destruct s as [[[x_2 z_2] x_3] z_3], t as [[[x_2' z_2'] x_3'] z_3'].
  intros (H1 & H2 & H3 & H4). cbn [scale4 eqp4]. split_and!; eqp_congr.
Qed.

Lemma step_scale u a b s : eqp4 (step u (scale4 a b s)) (scale4 (a ^ 4) ((a * b) ^ 2) (step u s)).
Proof.
  rewrite <-(pstep_step u _ _ (reflexivity (scale4 a b s))).
  etransitivity; [|apply scale4_eqp4, pstep_step; reflexivity].
  destruct s as [[[x_2 z_2] x_3] z_3]. cbn [scale4 pstep eqp4].
  split_and!; apply (eqp_by 0); unfold a24; ring.
Qed.

Lemma cswap_scale c a b s : cswap c (scale4 a b s) = scale4 (if c then b else a) (if c then a else b) (cswap c s).
Proof. destruct s as [[[x_2 z_2] x_3] z_3], c; reflexivity. Qed.

Lemma cswap_eqp4 c s t : eqp4 s t -> eqp4 (cswap c s) (cswap c t).
Proof.
  destruct s as [[[x_2 z_2] x_3] z_3], t as [[[x_2' z_2'] x_3'] z_3'].
  intros (H1 & H2 & H3 & H4). destruct c; cbn; auto.
Qed.

Lemma run_scale u k l bits : forall s t m n,
  0 <= m -> 0 <= n -> eqp4 t (scale4 (l ^ m) (l ^ n) s) ->
  exists m' n', 0 <= m' /\ eqp4 (run u k bits t) (scale4 (l ^ m') (l ^ n') (run u k bits s)).
Proof.
  induction bits as [|bits IH]; intros s t m n Hm Hn H; [by exists m, n|]. cbn [run].
  set (c := Z.testbit k (Z.of_nat bits)).
  set (m1 := if c then n else m). set (n1 := if c then m else n).
  set (m2 := if c then 2 * (m1 + n1) else 4 * m1). set (n2 := if c then 4 * m1 else 2 * (m1 + n1)).
  apply (IH _ _ m2 n2); [destruct c; lia..|].
  apply (cswap_eqp4 c) in H. rewrite cswap_scale in H. apply (step_eqp4 u) in H. rewrite step_scale in H.
  apply (cswap_eqp4 c) in H. rewrite cswap_scale in H. rewrite H.
  assert (E4 : forall x, 0 <= x -> (l ^ x) ^ 4 = l ^ (4 * x)) by (intros x Hx; rewrite <-Z.pow_mul_r by lia; f_equal; lia).
  assert (E2 : forall x y, 0 <= x -> 0 <= y -> (l ^ x * l ^ y) ^ 2 = l ^ (2 * (x + y))).
  { intros x y Hx Hy. rewrite <-Z.pow_add_r, <-Z.pow_mul_r by lia. f_equal. lia. }
  subst m2 n2 m1 n1. destruct c; rewrite E4, E2 by lia; reflexivity.
Qed.

(** The numbers that decide the result are zero. *)
Definition vanishes (s : point_pair) : Prop := let '(x_2, z_2, _, _) := s in eqp x_2 0 /\ eqp z_2 0.

Lemma vanishes_eqp4 s t : eqp4 s t -> vanishes t -> vanishes s.
Proof.
  destruct s as [[[x_2 z_2] x_3] z_3], t as [[[x_2' z_2'] x_3'] z_3'].
  intros (H1 & H2 & _) [V1 V2]. split; etransitivity; eassumption.
Qed.

(** An iteration from a known state, computed with the polynomials. *)
Lemma round_vanishes u c s t :
  eqp4 s t -> vanishes (cswap c (pstep u (cswap c t))) -> vanishes (cswap c (step u (cswap c s))).
Proof.
  intros H. apply vanishes_eqp4, cswap_eqp4. symmetry. apply pstep_step, cswap_eqp4. symmetry. exact H.
Qed.

Lemma run_vanishes u k bits : forall s, vanishes s -> vanishes (run u k bits s).
Proof.
  induction bits as [|bits IH]; intros [[[x_2 z_2] x_3] z_3] [H1 H2]; [done|]. cbn [run]. apply IH.
  apply (round_vanishes _ _ _ (0, 0, x_3, z_3)); [split_and!; [done|done|reflexivity..]|].
  destruct (Z.testbit k (Z.of_nat bits)); cbn [cswap pstep vanishes]; split; apply (eqp_by 0); ring.
Qed.

(** On a point congruent to 0, the first set bit makes the result vanish. *)
Lemma run_zero u k t s z :
  Z.testbit k (Z.of_nat t) = true -> eqp u 0 -> eqp4 s (1, 0, 0, z) -> z = 0 \/ z = 1 ->
  vanishes (run u k (S t) s).
Proof.
  intros Hk [c Hu] Hs Hz. cbn [run]. rewrite Hk. apply run_vanishes.
  apply (round_vanishes _ _ _ _ Hs). rewrite Z.sub_0_r in Hu. rewrite Hu.
  destruct Hz as [-> | ->]; cbn [cswap pstep vanishes]; split; first [apply (eqp_by 0); ring | apply (eqp_by (4 * c)); ring].
Qed.

(** The division that ends the ladder. *)
Definition quotient (s : point_pair) : Z := let '(x_2, z_2, _, _) := s in (x_2 * (z_2 ^ (p - 2) mod p)) mod p.

Lemma quotient_vanishes s : vanishes s -> quotient s = 0.
Proof.
  destruct s as [[[x_2 z_2] x_3] z_3]. intros [H _]. apply eqp_spec in H. unfold quotient.
  rewrite Zmult_mod, H. reflexivity.
Qed.

Lemma fermat_25519 l e : ~ eqp l 0 -> 0 <= e -> eqp ((l ^ e) ^ (p - 1)) 1.
Proof.
  intros Hl He. rewrite <-Z.pow_mul_r, Z.mul_comm, Z.pow_mul_r by (unfold p; lia).
  assert (H : eqp (l ^ (p - 1)) 1).
  { apply eqp_spec. rewrite (fermat p l prime_25519); [reflexivity|].
    intros [c Hc]. apply Hl, (eqp_by c). rewrite Hc. ring. }
  rewrite H, Z.pow_1_l by lia. reflexivity.
Qed.

Lemma four_times_nonzero u : ~ eqp u 0 -> ~ eqp (4 * u) 0.
Proof.
  intros Hu [c Hc]. rewrite Z.sub_0_r in Hc. apply Hu. apply (eqp_by (u - (2 ^ 253 - 5) * c)).
  transitivity (p * u - (2 ^ 253 - 5) * (c * p)); [rewrite <-Hc; unfold p; ring|ring].
Qed.

Lemma quotient_scale l m n s t :
  ~ eqp l 0 -> 0 <= m -> eqp4 t (scale4 (l ^ m) (l ^ n) s) -> quotient t = quotient s.
Proof.
  intros Hl Hm H. destruct s as [[[x_2 z_2] x_3] z_3], t as [[[x_2' z_2'] x_3'] z_3'].
  destruct H as (H1 & H2 & _ & _). unfold quotient. apply eqp_spec. rewrite H1.
  assert (E : eqp (z_2' ^ (p - 2) mod p) ((l ^ m) ^ (p - 2) * (z_2 ^ (p - 2) mod p))).
  { rewrite !eqp_mod, H2, Z.pow_mul_l. reflexivity. }
  rewrite E. transitivity ((l ^ m) ^ (p - 1) * (x_2 * (z_2 ^ (p - 2) mod p))).
  - replace (p - 1) with (Z.succ (p - 2)) by lia. rewrite Z.pow_succ_r by (unfold p; lia). apply (eqp_by 0). ring.
  - rewrite fermat_25519 by done. apply (eqp_by 0). ring.
Qed.

Lemma cswap_false s : cswap false s = s.
Proof. by destruct s as [[[? ?] ?] ?]. Qed.

(** One more iteration on a leading clear bit does not change the result. *)
Lemma leading_zero u k t :
  Z.testbit k (Z.of_nat (S t)) = false -> Z.testbit k (Z.of_nat t) = true ->
  quotient (run u k (S (S t)) (1, 0, u, 1)) = quotient (run u k (S t) (1, 0, u, 1)).
Proof.
  intros H1 H0. change (run u k (S (S t))) with (fun s => run u k (S t) (let b := Z.testbit k (Z.of_nat (S t)) in cswap b (step u (cswap b s)))).
  cbv beta zeta. rewrite H1, !cswap_false.
  assert (F : eqp4 (step u (1, 0, u, 1)) (scale4 1 (4 * u) (1, 0, u, 1))).
  { rewrite <-(pstep_step u _ _ (reflexivity (1, 0, u, 1))). cbn [pstep scale4 eqp4]. split_and!; apply (eqp_by 0); ring. }
  destruct (decide (u mod p = 0 mod p)) as [Hu|Hu]; rewrite <-eqp_spec in Hu.
  - rewrite (quotient_vanishes (run u k (S t) (1, 0, u, 1))), quotient_vanishes; [reflexivity|..].
    + apply (run_zero u k t _ 0 H0 Hu); [|by left]. rewrite F. cbn [scale4 eqp4].
      split_and!; [reflexivity|reflexivity|rewrite Hu at 1; apply (eqp_by 0); ring|rewrite Hu; apply (eqp_by 0); ring].
    + apply (run_zero u k t _ 1 H0 Hu); [|by right]. cbn [eqp4]. split_and!; [reflexivity|reflexivity|exact Hu|reflexivity].
  - destruct (run_scale u k (4 * u) (S t) (1, 0, u, 1) (step u (1, 0, u, 1)) 0 1) as (m & n & Hm & H); [lia|lia| |].
    + rewrite Z.pow_0_r, Z.pow_1_r. exact F.
    + apply (quotient_scale _ _ _ _ _ (four_times_nonzero u Hu) Hm H).
Qed.

Lemma scalar_bits k : Z.testbit (decodeScalar25519 k) 255 = false /\ Z.testbit (decodeScalar25519 k) 254 = true.
Proof.
  unfold decodeScalar25519. set (x := decodeLittleEndian k).
  assert (B : 0 <= x mod 2 ^ 254 - x mod 8 < 2 ^ 254).
  { assert (E : x mod 8 = x mod 2 ^ 254 mod 8) by (symmetry; apply Z.mod_mod_divide; by exists (2 ^ 251)).
    assert (H := Z.mod_pos_bound x (2 ^ 254) eq_refl). rewrite E.
    assert (H8 := Z.mod_pos_bound (x mod 2 ^ 254) 8 eq_refl). assert (L := Z.mod_le (x mod 2 ^ 254) 8). lia. }
  set (y := x mod 2 ^ 254 - x mod 8) in *. clearbody y. split.
  - apply (in_width_high_bits 255); [split; lia|lia].
  - apply Z.testbit_true; [lia|]. replace ((y + 2 ^ 254) / 2 ^ 254) with 1 by (apply (Z.div_unique_pos _ _ _ y); lia). reflexivity.
Qed.

Lemma curve25519_donna_spec (secret basepoint : bytes) :
  length secret = 32%nat -> length basepoint = 32%nat ->
  Forall byte_ok secret -> Forall byte_ok basepoint ->
  curve25519_donna secret basepoint = (0, X25519 secret basepoint).
Proof.
  intros Ls Lb Hs Hb. destruct (clamp_ok secret Ls Hs) as [Hc Dc].
  destruct (fexpand_ok basepoint Lb Hb) as [Rb Vb]. unfold curve25519_donna, X25519.
  assert (Eb : eqp (val (fexpand basepoint)) (decodeUCoordinate basepoint)) by (rewrite Vb; reflexivity).
  assert (M := cmult_ok (clamp secret) _ (decodeUCoordinate basepoint) Rb Eb Hc).
  rewrite Dc in M. set (k := decodeScalar25519 secret) in *. set (u := decodeUCoordinate basepoint) in *.
  destruct (scalar_bits secret) as [B1 B0]. assert (Q := leading_zero u k 254 B1 B0).
  change (S (S 254)) with 256%nat in Q. change (S 254) with 255%nat in Q.
  change (ladder k u 255) with (quotient (run u k 255 (1, 0, u, 1))). rewrite <-Q; clear Q.
  destruct (cmult (clamp secret) (fexpand basepoint)) as [x z].
  destruct (run u k 256 (1, 0, u, 1)) as [[[x_2 z_2] x_3] z_3]. destruct M as (Rx & Rz & Vx & Vz).
  destruct (crecip_ok z Rz) as [Ri Vi]. destruct (fmul_ok x (crecip z)) as [Rr Vr]; [auto..|].
  rewrite (fcontract_ok _ Rr). f_equal. unfold encodeUCoordinate. f_equal. unfold quotient.
  rewrite Z.mod_mod by discriminate. apply eqp_spec. rewrite Vr, Vx, Vi, Vz, eqp_mod. reflexivity.
Qed.

(** C9: [curve25519_donna] is the function X25519 of RFC 7748.  For every
    32-byte scalar and every 32-byte point, whatever their bits, the code
    returns 0 and the encoding of the u-coordinate that the standard's ladder
    over 255 bits computes modulo [2^255 - 19]: the limbs never overflow, the
    extra iteration of the code over the clear top bit changes nothing, and
    the output is the canonical representative. *)
Theorem curve25519_donna_rfc7748 (secret basepoint : bytes) :
  length secret = 32%nat -> length basepoint = 32%nat ->
  Forall byte_ok secret -> Forall byte_ok basepoint ->
  curve25519_donna secret basepoint = (0, X25519 secret basepoint).
Proof. apply curve25519_donna_spec. Qed.

Lemma curve25519_donna_rfc7748_witness :
  curve25519_donna (replicate 32 7) (replicate 32 9) = (0, X25519 (replicate 32 7) (replicate 32 9)).
Proof.
  apply (curve25519_donna_rfc7748 (replicate 32 7) (replicate 32 9)); try reflexivity;
    apply Forall_replicate; unfold byte_ok; lia.
Defined.

(** C40: The limbs of field elements stay in bounds.  Sums and differences of
    elements whose limbs are at most [2^51] have limbs at most
    [2^54 + 2^51]; products, squares and scaled values of such elements are
    right modulo [p], and products and squares have limbs at most [2^51]
    again.  The bound [2^55] that the comment of [fmul] gives for its operands
    is not enough: the first carry is cut to 64 bits there. *)
Theorem field_bounds (a b x y : felem) (n : Z) :
  reduced a -> reduced b -> loose x -> loose y -> 1 <= n < 2 ^ 64 ->
  (loose (fsum a b) /\ val (fsum a b) = val a + val b) /\
  (loose (fdifference_backwards a b) /\ eqp (val (fdifference_backwards a b)) (val b - val a)) /\
  (reduced (fmul x y) /\ eqp (val (fmul x y)) (val x * val y)) /\
  (reduced (fsquare_times x n) /\ eqp (val (fsquare_times x n)) (val x ^ 2 ^ n)) /\
  (loose (fscalar_product x 121665) /\ eqp (val (fscalar_product x 121665)) (val x * 121665)) /\
  (exists z, limbs_le (2 ^ 55 - 1) z /\ ~ eqp (val (fmul z z)) (val z * val z)).
Proof.
  intros Ha Hb Hx Hy Hn. split_and!.
  - destruct (fsum_ok _ _ a b Ha Hb) as [Hl _]; [lia|]. eapply limbs_le_weaken; [|exact Hl]. lia.
  - apply (fsum_ok _ _ a b Ha Hb). lia.
  - by apply fdifference_ok.
  - by apply fdifference_ok.
  - by apply fmul_ok.
  - by apply fmul_ok.
  - by apply fsquare_times_ok.
  - by apply fsquare_times_ok.
  - destruct (fscalar_ok x 121665 Hx) as [Hl _]; [lia|]. eapply limbs_le_weaken; [|exact Hl]. lia.
  - apply (fscalar_ok x 121665 Hx). lia.
  - set (m := 2 ^ 55 - 1). exists (mkF m m m m m). split; [unfold limbs_le, m; cbn [f0 f1 f2 f3 f4]; lia|].
    rewrite eqp_spec. vm_compute. discriminate.
Qed.

Lemma field_bounds_witness :
  let a := mkF 1 2 3 4 5 in let x := fsum a a in
  loose x /\ reduced (fmul x x) /\ eqp (val (fmul x x)) (val x * val x).
Proof.
  set (a := mkF 1 2 3 4 5). assert (Ha : reduced a) by (unfold limbs_le, a; cbn [f0 f1 f2 f3 f4]; lia).
  assert (Hx : loose (mkF 2 4 6 8 10)) by (unfold limbs_le; cbn [f0 f1 f2 f3 f4]; lia).
  destruct (field_bounds a a (mkF 2 4 6 8 10) (mkF 2 4 6 8 10) 1 Ha Ha Hx Hx) as (H1 & _ & H3 & _); [lia|].
  exact (conj (proj1 H1) H3).
Defined.
