(* ===== verification/SgxsdKeys.v ===== *)
(** * Key derivation of the attested server (bearssl/src/sgxsd-enclave.c)

    The hash, the keyed hash and the key expansion with which the enclave
    turns shared secrets into message keys.  A buffer descriptor is the list
    of the bytes it points to; the first buffer of the keyed hash is its key. *)
From S2P Require Import Prelude Inner Hash Hmac.
Local Open Scope Z_scope.

Definition SGXSD_SHA256_HASH_SIZE : nat := 32.

(** [sgxsd_enclave_sha256]: [sc] is the uninitialised context on the stack. *)
Definition sgxsd_enclave_sha256 (sc : hash_context) (bufs : list bytes) : bytes :=
  br_sha256_out (foldl sha2small_update (br_sha256_init sc) bufs).

(** The loop that xors the key into a pad. *)
Fixpoint xor_key (pad key : bytes) : bytes :=
  match pad, key with
  | x :: pad, k :: key => Z.lxor x k :: xor_key pad key
  | _, _ => pad
  end.

Definition sgxsd_enclave_hmac_sha256 (sc : hash_context) (key : bytes) (data : list bytes) : bytes :=
  let key := if (64 <? length key)%nat then sgxsd_enclave_sha256 sc [key] else key in
  let i_key_pad := xor_key (replicate 64 0x36) key in
  let o_key_pad := xor_key (replicate 64 0x5c) key in
  let p_hash := sgxsd_enclave_sha256 sc (i_key_pad :: data) in
  sgxsd_enclave_sha256 sc [o_key_pad; p_hash].

(** [sgxsd_ra_hkdf_buf_t] *)
Record ra_hkdf_buf := mkHkdfBuf { t_n : bytes; hkdf_n : Z }.

Definition sgxsd_enclave_ra_hkdf_round (sc : hash_context) (prk : bytes) (buf : ra_hkdf_buf) : ra_hkdf_buf :=
  let n := w8 (hkdf_n buf + 1) in
  let hmac_data_buf := if n =? 1 then [n] else t_n buf ++ [n] in
  mkHkdfBuf (sgxsd_enclave_hmac_sha256 sc prk [hmac_data_buf]) n.

(** [hkdf_buf = { .n = 0 }]; the other field is zero as well. *)
Definition hkdf_start : ra_hkdf_buf := mkHkdfBuf (replicate SGXSD_SHA256_HASH_SIZE 0) 0.

(** [sgxsd_enclave_derive_request_keys]: the client's and the server's key.  A
    null pointer only drops a result; the keys have the size of the hash. *)
Definition sgxsd_enclave_derive_request_keys (sc : hash_context) (hkdf_prk : bytes) : bytes * bytes :=
  let buf := sgxsd_enclave_ra_hkdf_round sc hkdf_prk hkdf_start in
  let client_key := t_n buf in
  let buf := sgxsd_enclave_ra_hkdf_round sc hkdf_prk buf in
  (client_key, t_n buf).

(** ** Specification *)

(** HMAC-SHA256 of RFC 2104. *)
Definition HMAC_SHA256 (key m : bytes) : bytes := HMAC FIPS.sha256 64 key m.

(** The output blocks of HKDF-Expand of RFC 5869 with an empty info. *)
Fixpoint HKDF_T (prk : bytes) (i : nat) : bytes :=
  match i with
  | O => []
  | S j => HMAC_SHA256 prk (HKDF_T prk j ++ [Z.of_nat i])
  end.

(** ** Correctness *)

Lemma sha256_length m : length (FIPS.sha256 m) = 32%nat.
Proof. assert (H := hash_length (dig := br_sha256_vtable) m). change (br_digest_size br_sha256_vtable) with 32 in H. lia. Qed.

Lemma sha256_bytes m : Forall byte_ok (FIPS.sha256 m).
Proof. exact (hash_bytes (dig := br_sha256_vtable) m). Qed.

Section keys_proofs.
Context (sc : hash_context) (sc_ok : length (buf sc) = 64%nat).

Lemma sha256_spec bufs : sgxsd_enclave_sha256 sc bufs = FIPS.sha256 (concat bufs).
Proof using sc_ok.
  unfold sgxsd_enclave_sha256.
  assert (A := updates_absorbed br_sha256_vtable FIPS.sha256 bufs [] _ (init_absorbed sc sc_ok)).
  exact (out_hash _ _ A).
Qed.

Lemma xor_key_spec bb n key :
  byte_ok bb -> Forall byte_ok key -> (length key <= n)%nat ->
  xor_key (replicate n bb) key = xor_byte bb <$> (key ++ replicate (n - length key) 0).
Proof.
  intros Hb Hk. revert n. induction Hk as [|k key Hk0 Hk IH]; intros n Hn.
  - assert (E : xor_key (replicate n bb) [] = replicate n bb) by (destruct n; reflexivity).
    simpl length. rewrite E, Nat.sub_0_r. simpl app. rewrite fmap_replicate. f_equal.
    unfold xor_byte. rewrite Z.lxor_0_l. symmetry. by apply wrap_small.
  - simpl in Hn. destruct n as [|n]; [lia|]. cbn [replicate xor_key length app fmap list_fmap Nat.sub].
    rewrite IH by lia. f_equal. unfold xor_byte. rewrite Z.lxor_comm. symmetry. apply wrap_small.
    apply lxor_in_width; [lia|assumption..].
Qed.

Lemma hmac_sha256_spec key data :
  Forall byte_ok key -> sgxsd_enclave_hmac_sha256 sc key data = HMAC_SHA256 key (concat data).
Proof using sc_ok.
  intros Hk. unfold sgxsd_enclave_hmac_sha256, HMAC_SHA256, HMAC. rewrite !sha256_spec.
  assert (K : Forall byte_ok (if (64 <? length key)%nat then FIPS.sha256 key else key) /\
              (length (if (64 <? length key)%nat then FIPS.sha256 key else key) <= 64)%nat).
  { destruct (Nat.ltb_spec 64 (length key)); [split; [apply sha256_bytes|rewrite sha256_length; lia]|done]. }
  cbn [concat]. rewrite !app_nil_r.
  set (k := if (64 <? length key)%nat then FIPS.sha256 key else key) in *. destruct K as [K1 K2].
  rewrite !xor_key_spec by (done || (unfold byte_ok; lia)). reflexivity.
Qed.

Lemma HMAC_SHA256_length key m : length (HMAC_SHA256 key m) = 32%nat.
Proof. apply sha256_length. Qed.
Lemma HMAC_SHA256_bytes key m : Forall byte_ok (HMAC_SHA256 key m).
Proof. apply sha256_bytes. Qed.

Lemma hkdf_round_spec prk i b :
  Forall byte_ok prk -> Z.of_nat i < 255 -> hkdf_n b = Z.of_nat i -> (i <> 0%nat -> t_n b = HKDF_T prk i) ->
  sgxsd_enclave_ra_hkdf_round sc prk b = mkHkdfBuf (HKDF_T prk (S i)) (Z.of_nat (S i)).
Proof using sc_ok.
  intros Hp Hi Hn Ht. unfold sgxsd_enclave_ra_hkdf_round. rewrite Hn, wrap_small by (split; lia).
  rewrite hmac_sha256_spec by done. cbn [concat]. rewrite app_nil_r.
  replace (Z.of_nat i + 1) with (Z.of_nat (S i)) by lia. f_equal. cbn [HKDF_T]. f_equal.
  destruct i as [|i]; [reflexivity|]. rewrite Ht by done.
  destruct (Z.eqb_spec (Z.of_nat (S (S i))) 1); [lia|reflexivity].
Qed.

Lemma derive_request_keys_spec prk :
  Forall byte_ok prk -> sgxsd_enclave_derive_request_keys sc prk = (HKDF_T prk 1, HKDF_T prk 2).
Proof using sc_ok.
  intros Hp. unfold sgxsd_enclave_derive_request_keys.
  rewrite (hkdf_round_spec prk 0 hkdf_start) by done. cbn [t_n].
  rewrite (hkdf_round_spec prk 1) by done. reflexivity.
Qed.
End keys_proofs.

(** The key derivation of the server is built from the standard functions.
    The hash of a list of buffers is SHA-256 of their concatenation, the keyed
    hash is HMAC-SHA256 of RFC 2104 for keys of any length, and the client's
    and the server's message keys are the first two output blocks of HKDF of
    RFC 5869 with empty info, each of 32 bytes. *)
Theorem sgxsd_keys_rfc (sc : hash_context) (bufs data : list bytes) (key prk : bytes) :
  length (buf sc) = 64%nat -> Forall byte_ok key -> Forall byte_ok prk ->
  sgxsd_enclave_sha256 sc bufs = FIPS.sha256 (concat bufs) /\
  sgxsd_enclave_hmac_sha256 sc key data = HMAC_SHA256 key (concat data) /\
  sgxsd_enclave_derive_request_keys sc prk = (HKDF_T prk 1, HKDF_T prk 2) /\
  length (HKDF_T prk 1) = 32%nat /\ length (HKDF_T prk 2) = 32%nat.
Proof.
  intros Hs Hk Hp. split; [by apply sha256_spec|]. split; [by apply hmac_sha256_spec|].
  split; [by apply derive_request_keys_spec|]. split; apply sha256_length.
Qed.

Lemma sgxsd_keys_rfc_witness :
  sgxsd_enclave_hmac_sha256 (mkHash (replicate 64 0) 0 []) [1; 2; 3] [[4]; [5; 6]] = HMAC_SHA256 [1; 2; 3] [4; 5; 6].
Proof.
  assert (B : forall l, forallb (fun b => (0 <=? b) && (b <? 256)) l = true -> Forall byte_ok l).
  { intros l Hl. apply Forall_forall. intros x Hx%list_elem_of_In. rewrite forallb_forall in Hl.
    specialize (Hl x Hx). unfold byte_ok. lia. }
  apply (sgxsd_keys_rfc (mkHash (replicate 64 0) 0 []) [] [[4]; [5; 6]] [1; 2; 3] [1; 2; 3]);
    [reflexivity|apply B; reflexivity|apply B; reflexivity].
Defined.
