(* ===== verification/SgxsdEnclave.v ===== *)
(** * The attested server of the enclave (bearssl/src/sgxsd-enclave.c)

    The globals of the file are a record that every entry point threads.  What
    is not in the repository is a parameter: the SDK's random numbers, reports
    and allocation, the call that hands a reply to the untrusted side, the
    server's own callbacks, and the memory layout of a request id, whose type
    is declared in a missing header.  An entry point returns its status, its
    output buffers, the callback it made, and the new globals.

    [sgxsd_aes_gcm_run], [sgxsd_aes_gcm_encrypt] and [sgxsd_aes_gcm_decrypt] of
    the file are, statement by statement, those of encutils.cpp: the model
    calls [EncUtils.sgxsd_aes_gcm_run].  Locks other than a server's are taken
    and released around straight-line code and leave no trace here. *)
From S2P Require Import Prelude Inner Hash Simd Aes AesCtr Gf2 Ghash Gcm EncUtils Curve25519 SgxsdKeys.
Local Open Scope Z_scope.

(** ** Data *)

(** [sgxsd_curve25519_key_pair_t] *)
Record key_pair := mkKeyPair { privkey : bytes; pubkey : bytes }.

(** [sgxsd_pending_request_t] *)
Record pending_request := mkPending { id_val : Z; hkdf_prk : bytes }.

(** [sgxsd_pending_request_id_t] *)
Record pending_request_id := mkRequestId { rid_data : bytes; rid_iv : bytes; rid_mac : bytes }.

(** [sgxsd_msg_header_t] *)
Record msg_header := mkHeader { hdr_iv : bytes; hdr_mac : bytes; hdr_id : pending_request_id }.

(** [sgxsd_msg_from_t]; the tag is an opaque word. *)
Record msg_from := mkFrom { from_valid : bool; from_tag : Z; from_server_key : bytes }.

(** [sgxsd_request_negotiation_response_t] *)
Record negotiation_response := mkResponse {
  resp_data : bytes; resp_iv : bytes; resp_mac : bytes;
  server_static_pubkey : bytes; server_ephemeral_pubkey : bytes }.

(** [sgxsd_server_state_desc_t] *)
Record server_desc (T : Type) := mkDesc { valid : bool; lock : Z; p_state : option T }.
Arguments mkDesc {T}. Arguments valid {T}. Arguments lock {T}. Arguments p_state {T}.

Definition SGXSD_ENCLAVE_MAX_SERVERS : Z := 256.

(** The globals, and the number of calls to [sgx_read_rand] made so far. *)
Record enclave (T : Type) := mkEnclave {
  node_initialized : bool;
  read_rand_state : bytes;
  dh_keypair : key_pair;
  new_dh_keypair : key_pair;
  pending_requests : list pending_request;
  table_order : Z;
  last_id : Z;
  id_key : bytes;
  server_states : list (server_desc T);
  rand_calls : nat }.
Arguments mkEnclave {T}. Arguments node_initialized {T}. Arguments read_rand_state {T}. Arguments dh_keypair {T}.
Arguments new_dh_keypair {T}. Arguments pending_requests {T}. Arguments table_order {T}. Arguments last_id {T}.
Arguments id_key {T}. Arguments server_states {T}. Arguments rand_calls {T}.

(** What a callback is given, with the lock word of its server at that time. *)
Inductive event (T : Type) :=
| EvInit (lock : Z)
| EvCall (lock : Z) (msg : bytes) (from : msg_from)
| EvFingerprint (lock : Z) (msg : bytes) (from : msg_from)
| EvTerminate (lock : Z) (state : option T)
| EvReply (header : option msg_header) (data : option bytes) (size : Z) (tag : Z).
Arguments EvInit {T}. Arguments EvCall {T}. Arguments EvFingerprint {T}. Arguments EvTerminate {T}. Arguments EvReply {T}.

Section setters.
Context {T : Type}.
Implicit Type e : enclave T.

Definition set_initialized b e : enclave T := mkEnclave b (read_rand_state e) (dh_keypair e) (new_dh_keypair e) (pending_requests e)
  (table_order e) (last_id e) (id_key e) (server_states e) (rand_calls e).
Definition set_read_rand_state s e : enclave T := mkEnclave (node_initialized e) s (dh_keypair e) (new_dh_keypair e) (pending_requests e)
  (table_order e) (last_id e) (id_key e) (server_states e) (rand_calls e).
Definition set_dh_keypair k e : enclave T := mkEnclave (node_initialized e) (read_rand_state e) k (new_dh_keypair e) (pending_requests e)
  (table_order e) (last_id e) (id_key e) (server_states e) (rand_calls e).
Definition set_new_dh_keypair k e : enclave T := mkEnclave (node_initialized e) (read_rand_state e) (dh_keypair e) k (pending_requests e)
  (table_order e) (last_id e) (id_key e) (server_states e) (rand_calls e).
Definition set_pending t e : enclave T := mkEnclave (node_initialized e) (read_rand_state e) (dh_keypair e) (new_dh_keypair e) t
  (table_order e) (last_id e) (id_key e) (server_states e) (rand_calls e).
Definition set_table_order o e : enclave T := mkEnclave (node_initialized e) (read_rand_state e) (dh_keypair e) (new_dh_keypair e)
  (pending_requests e) o (last_id e) (id_key e) (server_states e) (rand_calls e).
Definition set_last_id i e : enclave T := mkEnclave (node_initialized e) (read_rand_state e) (dh_keypair e) (new_dh_keypair e)
  (pending_requests e) (table_order e) i (id_key e) (server_states e) (rand_calls e).
Definition set_id_key k e : enclave T := mkEnclave (node_initialized e) (read_rand_state e) (dh_keypair e) (new_dh_keypair e)
  (pending_requests e) (table_order e) (last_id e) k (server_states e) (rand_calls e).
Definition set_servers s e : enclave T := mkEnclave (node_initialized e) (read_rand_state e) (dh_keypair e) (new_dh_keypair e)
  (pending_requests e) (table_order e) (last_id e) (id_key e) s (rand_calls e).
Definition set_rand_calls n e : enclave T := mkEnclave (node_initialized e) (read_rand_state e) (dh_keypair e) (new_dh_keypair e)
  (pending_requests e) (table_order e) (last_id e) (id_key e) (server_states e) n.
End setters.

(** Static storage: every byte zero. *)
Definition initial_enclave (T : Type) : enclave T :=
  mkEnclave false (replicate 32 0) (mkKeyPair (replicate 32 0) (replicate 32 0))
    (mkKeyPair (replicate 32 0) (replicate 32 0)) [] 0 0 (replicate 32 0)
    (replicate (Z.to_nat SGXSD_ENCLAVE_MAX_SERVERS) (mkDesc false 0 None)) 0.

Section enclave.
Context {T : Type}.
Implicit Type e : enclave T.

(** Contents of uninitialised stack variables. *)
Variables (sc : hash_context) (gc : gcm_ctx).

(** [sgx_read_rand(buf, size)]: status and the bytes in [buf] after the
    [n]-th call. *)
Variable sgx_read_rand : nat -> nat -> sgx_status_t * bytes.

(** The memory image of a request id. *)
Variable id_image : pending_request_id -> bytes.

Definition read_rand_call (size : nat) e : sgx_status_t * bytes * enclave T :=
  (sgx_read_rand (rand_calls e) size, set_rand_calls (S (rand_calls e)) e).

(** ** Randomness and keys *)

Definition sgxsd_enclave_read_rand e : sgx_status_t * bytes * enclave T :=
  let '(res, x, e) := read_rand_call 32 e in
  match res with
  | SGX_SUCCESS =>
      let prk := sgxsd_enclave_hmac_sha256 sc (read_rand_state e) [x] in
      let buf := sgxsd_enclave_ra_hkdf_round sc prk hkdf_start in
      let e := set_read_rand_state (t_n buf) e in
      let buf := sgxsd_enclave_ra_hkdf_round sc prk buf in
      (SGX_SUCCESS, t_n buf, e)
  | err => (err, x, e)
  end.

Definition BASEPOINT : bytes := 9 :: replicate 31 0.

(** [kp] is what the structure held before. *)
Definition sgxsd_enclave_generate_curve25519_keypair (kp : key_pair) e : sgx_status_t * key_pair * enclave T :=
  let '(res, x, e) := sgxsd_enclave_read_rand e in
  match res with
  | SGX_SUCCESS =>
      let x := clamp x in (SGX_SUCCESS, mkKeyPair x (curve25519_donna x BASEPOINT).2, e)
  | err => (err, mkKeyPair x (pubkey kp), e)
  end.

(** ** Node *)

(** [null_outside], [max_outside]: what [sgx_is_outside_enclave] says of the
    first and the last address; [calloc_ok]: whether the allocation succeeds.
    The argument structure holds the order of the table. *)
Definition sgxsd_enclave_node_init_locked (null_outside max_outside : Z) (calloc_ok : bool) (p_args : option Z) e
    : sgx_status_t * enclave T :=
  if node_initialized e then (SGX_ERROR_INVALID_STATE, e) else
  if negb (1 =? null_outside) then (SGX_ERROR_UNEXPECTED, e) else
  if negb (1 =? max_outside) then (SGX_ERROR_UNEXPECTED, e) else
  match p_args with
  | None => (SGX_ERROR_INVALID_PARAMETER, e)
  | Some order =>
      if 63 <? order then (SGX_ERROR_INVALID_PARAMETER, e) else
      let '(res, kp, e) := sgxsd_enclave_generate_curve25519_keypair (dh_keypair e) e in
      let e := set_dh_keypair kp e in
      match res with
      | SGX_SUCCESS =>
          let '(res, kp, e) := sgxsd_enclave_generate_curve25519_keypair (new_dh_keypair e) e in
          let e := set_new_dh_keypair kp e in
          match res with
          | SGX_SUCCESS =>
              let '(res, k, e) := read_rand_call 32 e in
              let e := set_id_key k e in
              match res with
              | SGX_SUCCESS =>
                  let e := set_table_order order e in
                  if calloc_ok then
                    let e := set_pending (replicate (Z.to_nat (w64 (Z.shiftl 1 order))) (mkPending 0 (replicate 32 0))) e in
                    (SGX_SUCCESS, set_initialized true e)
                  else (SGX_ERROR_OUT_OF_MEMORY, set_pending [] e)
              | err => (err, e)
              end
          | err => (err, e)
          end
      | err => (err, e)
      end
  end.

(** The lock is taken and released around the call. *)
Definition sgxsd_enclave_node_init (null_outside max_outside : Z) (calloc_ok : bool) (p_args : option Z) e
    : sgx_status_t * enclave T :=
  sgxsd_enclave_node_init_locked null_outside max_outside calloc_ok p_args e.

(** [create_report target data]: the status and the report of [sgx_create_report]. *)
Definition sgxsd_enclave_get_next_report (create_report : bytes -> bytes -> sgx_status_t * bytes)
    (qe_target_info : bytes) (p_report : option bytes) e : sgx_status_t * option bytes * enclave T :=
  if negb (node_initialized e) then (SGX_ERROR_INVALID_STATE, p_report, e) else
  match p_report with
  | None => (SGX_ERROR_INVALID_PARAMETER, p_report, e)
  | Some _ =>
      let '(res, kp, e) := sgxsd_enclave_generate_curve25519_keypair (mkKeyPair [] []) e in
      match res with
      | SGX_SUCCESS =>
          let report_data := memcpy_at 0 (pubkey kp) (replicate 64 0) in
          let '(res, report) := create_report qe_target_info report_data in
          match res with
          | SGX_SUCCESS => (SGX_SUCCESS, Some report, set_new_dh_keypair kp e)
          | err => (err, Some report, e)
          end
      | err => (err, p_report, e)
      end
  end.

Definition sgxsd_enclave_set_current_quote e : sgx_status_t * enclave T :=
  if negb (node_initialized e) then (SGX_ERROR_INVALID_STATE, e) else
  (SGX_SUCCESS, set_dh_keypair (new_dh_keypair e) e).

(** ** Pending requests *)

(** [pending_request_id_val & pending_request_count_mask] *)
Definition table_index (id : Z) e : nat :=
  Z.to_nat (Z.land id (w64 (w64 (Z.shiftl 1 (table_order e)) - 1))).

Definition empty_pending : pending_request := mkPending 0 (replicate 32 0).

(** The part of [sgxsd_enclave_add_pending_request] under the lock: the new id. *)
Definition store_pending_request (p : pending_request) e : Z * enclave T :=
  let e := set_last_id (w64 (last_id e + 1)) e in
  let v := last_id e in
  (v, set_pending (<[table_index v e := mkPending v (hkdf_prk p)]> (pending_requests e)) e).

(** [rid] is what the structure held before. *)
Definition sgxsd_enclave_add_pending_request (rid : pending_request_id) (p : pending_request) e
    : sgx_status_t * pending_request_id * enclave T :=
  let '(v, e) := store_pending_request p e in
  let '(res, iv, e) := read_rand_call 12 e in
  match res with
  | SGX_SUCCESS =>
      let '(res, data, mac) :=
        sgxsd_aes_gcm_run gc true (Some (id_key e)) (Some (br_enc64le v)) 8 (Some (rid_data rid)) (Some iv) None 0
          (Some (rid_mac rid)) in
      let rid := mkRequestId (contents data) iv (contents mac) in
      match res with
      | SGX_SUCCESS => (SGX_SUCCESS, rid, e)
      | _ => (SGX_ERROR_UNEXPECTED, rid, e)
      end
  | err => (err, mkRequestId (rid_data rid) iv (rid_mac rid), e)
  end.

(** The first step of looking a request up and of removing it. *)
Definition decrypt_request_id (rid : pending_request_id) e : sgx_status_t * Z :=
  let '(res, v, _) :=
    sgxsd_aes_gcm_run gc false (Some (id_key e)) (Some (rid_data rid)) 8 (Some (replicate 8 0)) (Some (rid_iv rid)) None 0
      (Some (rid_mac rid)) in
  (res, br_dec64le (contents v)).

(** The request, when one is copied out. *)
Definition sgxsd_enclave_get_pending_request (rid : pending_request_id) e : sgx_status_t * option pending_request :=
  let '(res, v) := decrypt_request_id rid e in
  match res with
  | SGX_SUCCESS =>
      let found := nth (table_index v e) (pending_requests e) empty_pending in
      if id_val found =? v then (SGX_SUCCESS, Some found) else (SGXSD_ERROR_PENDING_REQUEST_NOT_FOUND, None)
  | err => (err, None)
  end.

Definition sgxsd_enclave_remove_pending_request (rid : pending_request_id) e
    : sgx_status_t * option pending_request * enclave T :=
  let '(res, v) := decrypt_request_id rid e in
  match res with
  | SGX_SUCCESS =>
      let found := nth (table_index v e) (pending_requests e) empty_pending in
      if id_val found =? v then
        (SGX_SUCCESS, Some found, set_pending (<[table_index v e := empty_pending]> (pending_requests e)) e)
      else (SGXSD_ERROR_PENDING_REQUEST_NOT_FOUND, None, e)
  | err => (err, None, e)
  end.

(** The Diffie-Hellman secrets and the key material derived from them. *)
Definition negotiated_prk (client_pubkey : bytes) (ephemeral static : key_pair) : bytes :=
  let ephemeral_dh_key := (curve25519_donna (privkey ephemeral) client_pubkey).2 in
  let static_dh_key := (curve25519_donna (privkey static) client_pubkey).2 in
  let hkdf_salt := sgxsd_enclave_sha256 sc [client_pubkey; pubkey ephemeral; pubkey static] in
  sgxsd_enclave_hmac_sha256 sc hkdf_salt [ephemeral_dh_key; static_dh_key].

Definition uninitialised_id : pending_request_id := mkRequestId (replicate 8 0) (replicate 12 0) (replicate 16 0).

Definition sgxsd_enclave_negotiate_request (p_request : option bytes) (p_response : option negotiation_response) e
    : sgx_status_t * option negotiation_response * enclave T :=
  if negb (node_initialized e) then (SGX_ERROR_INVALID_STATE, p_response, e) else
  match p_request, p_response with
  | None, _ => (SGX_ERROR_INVALID_PARAMETER, p_response, e)
  | _, None => (SGX_ERROR_INVALID_PARAMETER, p_response, e)
  | Some client_pubkey, Some resp =>
      let '(res, ephemeral, e) := sgxsd_enclave_generate_curve25519_keypair (mkKeyPair [] []) e in
      match res with
      | SGX_SUCCESS =>
          let static := dh_keypair e in
          let prk := negotiated_prk client_pubkey ephemeral static in
          let resp := mkResponse (resp_data resp) (replicate 12 0) (resp_mac resp)
                        (server_static_pubkey resp) (server_ephemeral_pubkey resp) in
          let server_key := (sgxsd_enclave_derive_request_keys sc prk).2 in
          let '(res, rid, e) := sgxsd_enclave_add_pending_request uninitialised_id (mkPending 0 prk) e in
          match res with
          | SGX_SUCCESS =>
              let image := id_image rid in
              let '(res, data, mac) :=
                sgxsd_aes_gcm_run gc true (Some server_key) (Some image) (Z.of_nat (length image)) (Some (resp_data resp))
                  (Some (resp_iv resp)) None 0 (Some (resp_mac resp)) in
              let resp := mkResponse (contents data) (resp_iv resp) (contents mac)
                            (server_static_pubkey resp) (server_ephemeral_pubkey resp) in
              match res with
              | SGX_SUCCESS =>
                  (SGX_SUCCESS,
                   Some (mkResponse (resp_data resp) (resp_iv resp) (resp_mac resp) (pubkey static) (pubkey ephemeral)), e)
              | _ => (SGX_ERROR_UNEXPECTED, Some resp, e)
              end
          | err => (err, Some resp, e)
          end
      | err => (err, p_response, e)
      end
  end.

(** ** Replies *)

(** [sgxsd_ocall_reply]: the status of the call and the status it returns. *)
Variable ocall_reply : option msg_header -> option bytes -> Z -> Z -> sgx_status_t * sgx_status_t.

Definition reply_status (r : sgx_status_t * sgx_status_t) : sgx_status_t :=
  match r.1 with SGX_SUCCESS => r.2 | err => err end.

(** [h0]: the uninitialised header on the stack.  The reply is encrypted in
    place. *)
Definition sgxsd_enclave_server_reply_noerase (h0 : msg_header) (data : option bytes) (size : Z) (p_from : option msg_from) e
    : sgx_status_t * option bytes * option (event T) * enclave T :=
  match p_from with
  | None => (SGX_ERROR_INVALID_PARAMETER, data, None, e)
  | Some from =>
      if negb (from_valid from) then (SGX_ERROR_INVALID_STATE, data, None, e) else
      if is_null data && negb (size =? 0) then (SGX_ERROR_INVALID_PARAMETER, data, None, e) else
      let '(res, iv, e) := read_rand_call 12 e in
      match res with
      | SGX_SUCCESS =>
          let iv := <[0%nat := Z.lor (byte_at iv 0) 1]> iv in
          let '(res, data, mac) :=
            sgxsd_aes_gcm_run gc true (Some (from_server_key from)) data (w32 size) data (Some iv) None 0
              (Some (hdr_mac h0)) in
          match res with
          | SGX_SUCCESS =>
              let h := mkHeader iv (contents mac) (hdr_id h0) in
              (reply_status (ocall_reply (Some h) data size (from_tag from)), data,
               Some (EvReply (Some h) data size (from_tag from)), e)
          | _ => (SGX_ERROR_UNEXPECTED, data, None, e)
          end
      | err => (err, data, None, e)
      end
  end.

Definition erased_from : msg_from := mkFrom false 0 (replicate 32 0).

(** [memset_s(p, n, 0, n)] *)
Definition erase (n : Z) (p : option bytes) : option bytes :=
  (fun d => replicate (Z.to_nat n) 0 ++ drop (Z.to_nat n) d) <$> p.

Definition sgxsd_enclave_server_reply (h0 : msg_header) (data : option bytes) (size : Z) (p_from : option msg_from) e
    : sgx_status_t * option bytes * option msg_from * option (event T) * enclave T :=
  let '(res, data, ev, e) := sgxsd_enclave_server_reply_noerase h0 data size p_from e in
  (res, erase size data, (fun _ => erased_from) <$> p_from, ev, e).

Definition sgxsd_enclave_server_noreply (p_from : option msg_from)
    : sgx_status_t * option msg_from * option (event T) :=
  match p_from with
  | None => (SGX_ERROR_INVALID_PARAMETER, p_from, None)
  | Some from =>
      if negb (from_valid from) then (SGX_ERROR_INVALID_STATE, p_from, None) else
      (reply_status (ocall_reply None None 0 (from_tag from)), Some erased_from,
       Some (EvReply None None 0 (from_tag from)))
  end.

(** ** Servers *)

(** The callbacks: a server's initialisation writes its state; handling a call
    may change the state and draw random numbers for its reply. *)
Context {InitArgs CallArgs TerminateArgs : Type}.
Variable server_init : InitArgs -> option T -> sgx_status_t * option T.
Variable server_handle_call : CallArgs -> bytes -> Z -> msg_from -> option T -> nat -> sgx_status_t * option T * nat.
Variable server_terminate : TerminateArgs -> option T -> sgx_status_t.
Variable create_ratelimit_fingerprint : bytes -> CallArgs -> bytes -> Z -> msg_from -> bytes -> Z -> sgx_status_t * bytes.

Definition no_server : server_desc T := mkDesc false 0 None.
Definition set_lock (l : Z) (d : server_desc T) : server_desc T := mkDesc (valid d) l (p_state d).

(** The checks and the locking that every entry point of a server makes:
    [body] runs with the lock taken. *)
Definition with_server {A} (state_handle : Z) (refused : sgx_status_t -> A) (e : enclave T)
    (body : server_desc T -> enclave T -> A * server_desc T * enclave T) : A * enclave T :=
  if negb (node_initialized e) then (refused SGX_ERROR_INVALID_STATE, e) else
  if SGXSD_ENCLAVE_MAX_SERVERS <=? state_handle then (refused SGX_ERROR_INVALID_PARAMETER, e) else
  let i := Z.to_nat state_handle in
  let d := set_lock 1 (nth i (server_states e) no_server) in
  let '(r, d, e) := body d e in
  (r, set_servers (<[i := set_lock 0 d]> (server_states e)) e).

Definition sgxsd_enclave_server_start_locked (p_args : InitArgs) (d : server_desc T)
    : sgx_status_t * option (event T) * server_desc T :=
  if valid d then (SGX_ERROR_INVALID_STATE, None, d) else
  let '(res, p) := server_init p_args (p_state d) in
  let ev := Some (EvInit (lock d)) in
  let d := mkDesc (valid d) (lock d) p in
  match res with
  | SGX_SUCCESS => (SGX_SUCCESS, ev, mkDesc true (lock d) (p_state d))
  | err => (err, ev, d)
  end.

Definition sgxsd_enclave_server_start (p_args : InitArgs) (state_handle : Z) e
    : sgx_status_t * option (event T) * enclave T :=
  with_server state_handle (fun st => (st, None)) e
    (fun d e => let '(res, ev, d) := sgxsd_enclave_server_start_locked p_args d in (res, ev, d, e)).

(** Decrypting a message under the key of a pending request, in place: the
    status, the buffer, and the sender.  Shared by the two entry points that
    take messages. *)
Definition open_message (p : pending_request) (h : msg_header) (msg_data : bytes) (msg_data_size : Z) (msg_tag : Z)
    : sgx_status_t * bytes * msg_from :=
  let '(client_key, server_key) := sgxsd_enclave_derive_request_keys sc (hkdf_prk p) in
  let image := id_image (hdr_id h) in
  let '(res, data, _) :=
    sgxsd_aes_gcm_run gc false (Some client_key) (Some msg_data) (w32 msg_data_size) (Some msg_data) (Some (hdr_iv h))
      (Some image) (Z.of_nat (length image)) (Some (hdr_mac h)) in
  (match res with SGX_ERROR_INVALID_PARAMETER => SGX_ERROR_UNEXPECTED | _ => res end,
   contents data, mkFrom true msg_tag server_key).

Definition sgxsd_enclave_server_call_locked (p_args : CallArgs) (p_msg_header : option msg_header)
    (msg_data : option bytes) (msg_data_size msg_tag : Z) (d : server_desc T) e
    : sgx_status_t * option bytes * option (event T) * server_desc T * enclave T :=
  if negb (valid d) then (SGX_ERROR_INVALID_STATE, msg_data, None, d, e) else
  match p_msg_header, msg_data with
  | Some h, Some data =>
      if msg_data_size =? 0 then (SGX_ERROR_INVALID_PARAMETER, msg_data, None, d, e) else
      let '(res, p, e) := sgxsd_enclave_remove_pending_request (hdr_id h) e in
      match res, p with
      | SGX_SUCCESS, Some p =>
          let '(res, data, from) := open_message p h data msg_data_size msg_tag in
          match res with
          | SGX_SUCCESS =>
              let '(res, s, n) := server_handle_call p_args data msg_data_size from (p_state d) (rand_calls e) in
              (res, erase msg_data_size (Some data), Some (EvCall (lock d) data from),
               mkDesc (valid d) (lock d) s, set_rand_calls n e)
          | err => (err, Some data, None, d, e)
          end
      | err, _ => (err, msg_data, None, d, e)
      end
  | _, _ => (SGX_ERROR_INVALID_PARAMETER, msg_data, None, d, e)
  end.

Definition sgxsd_enclave_server_call (p_args : CallArgs) (p_msg_header : option msg_header) (msg_data : option bytes)
    (msg_data_size msg_tag state_handle : Z) e : sgx_status_t * option bytes * option (event T) * enclave T :=
  with_server state_handle (fun st => (st, msg_data, None)) e
    (fun d e => sgxsd_enclave_server_call_locked p_args p_msg_header msg_data msg_data_size msg_tag d e).

(** [memset_s] clears the whole descriptor, the lock included, before the
    server is told to terminate. *)
Definition sgxsd_enclave_server_stop_locked (p_args : TerminateArgs) (d : server_desc T)
    : sgx_status_t * option (event T) * server_desc T :=
  if negb (valid d) then (SGX_ERROR_INVALID_STATE, None, d) else
  let s := p_state d in
  let d := no_server in
  (server_terminate p_args s, Some (EvTerminate (lock d) s), d).

Definition sgxsd_enclave_server_stop (p_args : TerminateArgs) (state_handle : Z) e
    : sgx_status_t * option (event T) * enclave T :=
  with_server state_handle (fun st => (st, None)) e
    (fun d e => let '(res, ev, d) := sgxsd_enclave_server_stop_locked p_args d in (res, ev, d, e)).

Definition sgxsd_enclave_ratelimit_fingerprint_locked (fingerprint_key : bytes) (call_args : CallArgs)
    (p_msg_header : option msg_header) (msg_data : option bytes) (msg_data_size msg_tag : Z) (fingerprint : bytes)
    (fingerprint_size : Z) (d : server_desc T) e
    : sgx_status_t * option bytes * bytes * option (event T) * server_desc T * enclave T :=
  if negb (valid d) then (SGX_ERROR_INVALID_STATE, msg_data, fingerprint, None, d, e) else
  match p_msg_header, msg_data with
  | Some h, Some data =>
      if msg_data_size =? 0 then (SGX_ERROR_INVALID_PARAMETER, msg_data, fingerprint, None, d, e) else
      match sgxsd_enclave_get_pending_request (hdr_id h) e with
      | (SGX_SUCCESS, Some p) =>
          let '(res, data, from) := open_message p h data msg_data_size msg_tag in
          match res with
          | SGX_SUCCESS =>
              let '(res, fp) := create_ratelimit_fingerprint fingerprint_key call_args data msg_data_size from
                                  fingerprint fingerprint_size in
              (res, erase msg_data_size (Some data), fp, Some (EvFingerprint (lock d) data from), d, e)
          | err => (err, Some data, fingerprint, None, d, e)
          end
      | (err, _) => (err, msg_data, fingerprint, None, d, e)
      end
  | _, _ => (SGX_ERROR_INVALID_PARAMETER, msg_data, fingerprint, None, d, e)
  end.

Definition sgxsd_enclave_ratelimit_fingerprint (fingerprint_key : bytes) (call_args : CallArgs)
    (p_msg_header : option msg_header) (msg_data : option bytes) (msg_data_size msg_tag state_handle : Z)
    (fingerprint : bytes) (fingerprint_size : Z) e
    : sgx_status_t * option bytes * bytes * option (event T) * enclave T :=
  with_server state_handle (fun st => (st, msg_data, fingerprint, None)) e
    (fun d e => sgxsd_enclave_ratelimit_fingerprint_locked fingerprint_key call_args p_msg_header msg_data msg_data_size
                  msg_tag fingerprint fingerprint_size d e).
End enclave.
