(* ===== verification/SgxsdServer.v ===== *)
(** * Negotiation, replies and servers

    The entry points of the attested server, call by call and over every
    sequence of calls. *)
From S2P Require Import Prelude Inner Hash Hmac Simd Aes AesCtr Gf2 Ghash Gcm EncUtils Curve25519 SgxsdKeys SgxsdEnclave.
From S2P Require Import SgxsdCorrect.
Local Open Scope Z_scope.

#[local] Opaque gcm_cipher gcm_mac.

(** The fields of a message header have the sizes of their types. *)
Definition header_ok (h : msg_header) : Prop := iv_ok (hdr_iv h) /\ mac_ok (hdr_mac h).

(** The bytes of every key in the table. *)
Definition keys_ok {T} (e : enclave T) : Prop := Forall (fun q => Forall byte_ok (hkdf_prk q)) (pending_requests e).

Lemma slot_keys {T} v (e : enclave T) : keys_ok e -> Forall byte_ok (hkdf_prk (slot v e)).
Proof.
  intros H. unfold slot. rewrite nth_lookup. destruct (pending_requests e !! _) eqn:E; cbn [default].
  - exact (Forall_lookup_1 _ _ _ _ H E).
  - apply Forall_replicate. unfold byte_ok. lia.
Qed.

Lemma HKDF_key_ok prk i : key_ok (HKDF_T prk (S i)).
Proof. split; [apply HMAC_SHA256_length|apply HMAC_SHA256_bytes]. Qed.

(** ** Messages *)

Section messages.
Context (sc : hash_context) (sc_ok : length (buf sc) = 64%nat) (gc : gcm_ctx) (gc_ok : length (gbuf gc) = 16%nat).
Context (id_image : pending_request_id -> bytes) (image_len : forall i, Z.of_nat (length (id_image i)) < 2 ^ 32).

(** How many bytes of a message are decrypted and authenticated: its size
    passes through a [uint32_t]. *)
Definition checked (data : bytes) : nat := Z.to_nat (w32 (Z.of_nat (length data))).

Lemma checked_le data : (checked data <= length data)%nat /\ Z.of_nat (checked data) = w32 (Z.of_nat (length data)) /\ Z.of_nat (checked data) < 2 ^ 32.
Proof.
  clear. unfold checked, w32. pose proof (Z.mod_pos_bound (Z.of_nat (length data)) (2 ^ 32) ltac:(lia)).
  pose proof (Z.mod_le (Z.of_nat (length data)) (2 ^ 32) ltac:(lia) ltac:(lia)). lia.
Qed.

Lemma checked_all data : Z.of_nat (length data) < 2 ^ 32 -> checked data = length data.
Proof. clear. intros H. unfold checked. rewrite wrap_small by (split; lia). by rewrite Nat2Z.id. Qed.

Lemma open_message_spec p h data tag :
  Forall byte_ok (hkdf_prk p) -> header_ok h -> Forall byte_ok data ->
  let k := HKDF_T (hkdf_prk p) 1 in let n := checked data in
  open_message sc gc id_image p h data (Z.of_nat (length data)) tag =
  (if bool_decide (hdr_mac h = gcm_mac k (hdr_iv h) (id_image (hdr_id h)) (take n data))
   then (SGX_SUCCESS, gcm_cipher k (hdr_iv h) (take n data) ++ drop n data) else (SGX_ERROR_MAC_MISMATCH, replicate n 0 ++ drop n data),
   mkFrom true tag (HKDF_T (hkdf_prk p) 2)).
Proof using sc_ok gc_ok image_len.
  intros Hp [Hi Hm] Hd k n. unfold open_message. rewrite (derive_request_keys_spec sc sc_ok) by exact Hp. fold k.
  destruct (checked_le data) as (C1 & <- & C3). fold n in C1, C3 |- *.
  assert (S := decrypt_part_spec gc gc_ok k (hdr_iv h) (hdr_mac h) (id_image (hdr_id h)) data n (HKDF_key_ok _ 0) Hi Hm Hd C1 C3
    (image_len (hdr_id h))).
  rewrite S. destruct (bool_decide _); reflexivity.
Qed.

End messages.

(** ** Calls *)

Section calls.
Context {T CallArgs : Type}.
Context (sc : hash_context) (sc_ok : length (buf sc) = 64%nat) (gc : gcm_ctx) (gc_ok : length (gbuf gc) = 16%nat).
Context (id_image : pending_request_id -> bytes) (image_len : forall i, Z.of_nat (length (id_image i)) < 2 ^ 32).
Context (handle_call : CallArgs -> bytes -> Z -> msg_from -> option T -> nat -> sgx_status_t * option T * nat).
Implicit Type e : enclave T.

Abbreviation call := (sgxsd_enclave_server_call sc gc id_image handle_call).
Abbreviation remove := (sgxsd_enclave_remove_pending_request gc).

(** C16: What reaches a server, and how often.  A call, with a message of any
    size, runs the server's callback only when the node is initialised, the
    server is started, the id in the header opens to a request of the table and
    the tag of the header is the tag of the first [checked] bytes of the
    message, with the id as additional data, under the first key derived from
    that request.  The callback then sees the plaintext of these bytes, followed
    by the rest of the message as it came in, and the second derived key; the
    request leaves the table, and the message buffer ends as zeros.  A replay of
    the id is answered with not-found.  In every other case the callback does
    not run, the status is an error, and the buffer is untouched or its checked
    part is zero.  A message of less than 4 GiB is checked as a whole, so the
    callback sees authentic bytes only; of a larger one only the size modulo
    2^32 is checked, and the rest reaches the callback unauthenticated. *)
Theorem server_call_authentic (args args' : CallArgs) (h h' : msg_header) (data : bytes) (data' : option bytes)
    (size' tag tag' handle handle' : Z) (e : enclave T) :
  header_ok h -> Forall byte_ok data -> pending_ok e -> keys_ok e -> let n := checked data in
  (Z.of_nat (length data) < 2 ^ 32 -> take n data = data /\ drop n data = []) /\
  let '(res, out, ev, e') := call args (Some h) (Some data) (Z.of_nat (length data)) tag handle e in
  match ev with
  | Some ev =>
      exists v, decrypt_request_id gc (hdr_id h) e = (SGX_SUCCESS, v) /\ id_val (slot v e) = v /\
      node_initialized e = true /\ valid (nth (Z.to_nat handle) (server_states e) no_server) = true /\
      let prk := hkdf_prk (slot v e) in let k := HKDF_T prk 1 in
      hdr_mac h = gcm_mac k (hdr_iv h) (id_image (hdr_id h)) (take n data) /\
      ev = EvCall 1 (gcm_cipher k (hdr_iv h) (take n data) ++ drop n data) (mkFrom true tag (HKDF_T prk 2)) /\
      out = Some (replicate (length data) 0) /\
      (v <> 0 -> hdr_id h' = hdr_id h -> remove (hdr_id h') e' = (SGXSD_ERROR_PENDING_REQUEST_NOT_FOUND, None, e') /\
         (call args' (Some h') data' size' tag' handle' e').1.2 = None)
  | None => res <> SGX_SUCCESS /\ (out = Some data \/ out = Some (replicate n 0 ++ drop n data))
  end.
Proof using sc_ok gc_ok image_len.
  intros Hh Hd Hp Hk n. split.
  { intros Hw. unfold n. rewrite checked_all by done. by rewrite take_ge, drop_ge. }
  unfold sgxsd_enclave_server_call at 1, with_server.
  destruct (node_initialized e) eqn:En; cbn [negb]; [|split; [done|by left]].
  destruct (SGXSD_ENCLAVE_MAX_SERVERS <=? handle); [split; [done|by left]|].
  unfold sgxsd_enclave_server_call_locked at 1. cbn [set_lock valid lock p_state].
  destruct (valid (nth (Z.to_nat handle) (server_states e) no_server)) eqn:Ev; cbn [negb]; [|split; [done|by left]].
  destruct (Z.of_nat (length data) =? 0); [split; [done|by left]|].
  destruct (decrypt_request_id gc (hdr_id h) e) as [st v] eqn:Ed.
  destruct st; try (unfold sgxsd_enclave_remove_pending_request at 1; rewrite Ed; split; [done|by left]).
  rewrite (remove_slot gc _ v) by done.
  destruct (Z.eqb_spec (id_val (slot v e)) v) as [Es|Es]; [|split; [done|by left]].
  rewrite (open_message_spec sc sc_ok gc gc_ok id_image image_len) by (first [exact Hh | exact Hd | by apply slot_keys]). fold n.
  destruct (bool_decide_reflect (hdr_mac h = gcm_mac (HKDF_T (hkdf_prk (slot v e)) 1) (hdr_iv h) (id_image (hdr_id h)) (take n data)))
    as [Em|Em]; [|split; [done|by right]].
  destruct (handle_call _ _ _ _ _ _) as [[r s] cnt].
  cbn [fst snd erase fmap option_fmap option_map]. rewrite Nat2Z.id, (drop_ge (gcm_cipher _ _ _ ++ _)), app_nil_r
    by (rewrite length_app, gcm_cipher_length, length_take, length_drop; lia).
  exists v. do 4 (split; [done|]). cbv zeta. do 3 (split; [done|]). intros Hv Eid.
  set (e' := set_servers _ _).
  assert (Sv : slot v e' = empty_pending) by exact (slot_clear v e Hp).
  assert (R : remove (hdr_id h') e' = (SGXSD_ERROR_PENDING_REQUEST_NOT_FOUND, None, e')).
  { rewrite Eid, (remove_slot gc _ v), Sv by (rewrite <-Ed; by apply decrypt_request_id_key).
    cbn [empty_pending id_val]. by rewrite (proj2 (Z.eqb_neq 0 v)) by lia. }
  split; [exact R|]. clearbody e'. clear - R. unfold sgxsd_enclave_server_call, with_server.
  destruct (negb (node_initialized e')); [done|]. destruct (SGXSD_ENCLAVE_MAX_SERVERS <=? handle'); [done|].
  unfold sgxsd_enclave_server_call_locked. destruct (negb _); [done|]. destruct data'; [|done].
  destruct (size' =? 0); [done|]. rewrite R. reflexivity.
Qed.
End calls.

Lemma server_call_authentic_witness :
  let h := mkHeader (replicate 12 1) (replicate 16 2) uninitialised_id in
  let '(res, _, ev, _) := sgxsd_enclave_server_call (mkHash (replicate 64 0) 0 []) test_context (fun i => take 8 (rid_data i))
    (fun (_ : unit) _ _ _ s n => (SGX_SUCCESS, s, n)) tt (Some h) (Some [1; 2; 3]) 3 9 0 test_node in
  ev = None -> res <> SGX_SUCCESS.
Proof.
  set (h := mkHeader (replicate 12 1) (replicate 16 2) uninitialised_id).
  assert (Hh : header_ok h).
  { split; (split; [reflexivity|]; apply Forall_replicate; unfold byte_ok; lia). }
  assert (Hd : Forall byte_ok [1; 2; 3]) by (repeat (constructor; [unfold byte_ok; lia|]); constructor).
  assert (Hk : keys_ok test_node) by (apply Forall_replicate, Forall_replicate; unfold byte_ok; lia).
  assert (Hl : forall i, Z.of_nat (length (take 8 (rid_data i))) < 2 ^ 32) by (intros i; rewrite length_take; lia).
  assert (W := server_call_authentic (mkHash (replicate 64 0) 0 []) eq_refl test_context eq_refl
    (fun i => take 8 (rid_data i)) Hl (fun (_ : unit) _ _ _ s n => (SGX_SUCCESS, s, n)) tt tt h h [1; 2; 3] None
    0 9 9 0 0 test_node Hh Hd test_node_ok Hk). apply proj2 in W.
  change (Z.of_nat (length [1; 2; 3])) with 3 in W.
  cbv zeta. revert W. destruct (sgxsd_enclave_server_call _ _ _ _ _ _ _ _ _ _ _) as [[[res out] ev] e'].
  intros W Hev. rewrite Hev in W. exact (proj1 W).
Defined.

(** ** Refusals and locks *)

Section lifecycle.
Context {T InitArgs CallArgs TerminateArgs : Type}.
Context (sc : hash_context) (gc : gcm_ctx) (rd : nat -> nat -> sgx_status_t * bytes).
Context (id_image : pending_request_id -> bytes).
Context (server_init : InitArgs -> option T -> sgx_status_t * option T).
Context (handle_call : CallArgs -> bytes -> Z -> msg_from -> option T -> nat -> sgx_status_t * option T * nat).
Context (server_terminate : TerminateArgs -> option T -> sgx_status_t).
Context (fingerprint_of : bytes -> CallArgs -> bytes -> Z -> msg_from -> bytes -> Z -> sgx_status_t * bytes).
Implicit Type e : enclave T.

Abbreviation node_init := (sgxsd_enclave_node_init sc rd).
Abbreviation start := (sgxsd_enclave_server_start server_init).
Abbreviation call := (sgxsd_enclave_server_call sc gc id_image handle_call).
Abbreviation stop := (sgxsd_enclave_server_stop server_terminate).
Abbreviation fingerprint := (sgxsd_enclave_ratelimit_fingerprint sc gc id_image fingerprint_of).

(** C33: Nothing works before the node is initialised, and it is initialised
    once.  On a node that is not initialised every entry point returns an
    invalid-state error, writes no output, makes no callback and leaves the
    globals as they are.  On a node that is initialised, initialising again
    is refused the same way.  Initialising fails unless both ends of the
    address space lie outside the enclave and the order of the table is at
    most 63, and the node counts as initialised exactly when the call
    succeeded. *)
Theorem uninitialised_refuses (e : enclave T) create_report target report request response iargs cargs targs hdr msg size tag
    handle key fp fpsize (no mo : Z) (alloc : bool) (args : option Z) :
  (node_initialized e = false ->
   sgxsd_enclave_get_next_report sc rd create_report target report e = (SGX_ERROR_INVALID_STATE, report, e) /\
   sgxsd_enclave_set_current_quote e = (SGX_ERROR_INVALID_STATE, e) /\
   sgxsd_enclave_negotiate_request sc gc rd id_image request response e = (SGX_ERROR_INVALID_STATE, response, e) /\
   start iargs handle e = (SGX_ERROR_INVALID_STATE, None, e) /\
   call cargs hdr msg size tag handle e = (SGX_ERROR_INVALID_STATE, msg, None, e) /\
   stop targs handle e = (SGX_ERROR_INVALID_STATE, None, e) /\
   fingerprint key cargs hdr msg size tag handle fp fpsize e = (SGX_ERROR_INVALID_STATE, msg, fp, None, e)) /\
  let '(res, e') := node_init no mo alloc args e in
  (node_initialized e = true -> res = SGX_ERROR_INVALID_STATE /\ e' = e) /\
  (node_initialized e = false -> (node_initialized e' = true <-> res = SGX_SUCCESS)) /\
  (res = SGX_SUCCESS -> no = 1 /\ mo = 1 /\ alloc = true /\ exists o, args = Some o /\ o <= 63).
Proof.
  split.
  - intros H. unfold sgxsd_enclave_get_next_report, sgxsd_enclave_set_current_quote, sgxsd_enclave_negotiate_request,
      sgxsd_enclave_server_start, sgxsd_enclave_server_call, sgxsd_enclave_server_stop, sgxsd_enclave_ratelimit_fingerprint,
      with_server.
    rewrite H. cbn [negb]. split_and!; reflexivity.
  - unfold sgxsd_enclave_node_init, sgxsd_enclave_node_init_locked, sgxsd_enclave_generate_curve25519_keypair,
      sgxsd_enclave_read_rand, read_rand_call.
    destruct (node_initialized e) eqn:En; [done|].
    destruct (Z.eqb_spec 1 no) as [Hno|]; cbn [negb]; [|by rewrite En].
    destruct (Z.eqb_spec 1 mo) as [Hmo|]; cbn [negb]; [|by rewrite En].
    destruct args as [o|]; [|by rewrite En]. destruct (Z.ltb_spec 63 o); [by rewrite En|].
    assert (G : forall (e1 : enclave T) st, node_initialized e1 = false -> st <> SGX_SUCCESS ->
      (false = true -> st = SGX_ERROR_INVALID_STATE /\ e1 = e) /\ (false = false -> (node_initialized e1 = true <-> st = SGX_SUCCESS)) /\
      (st = SGX_SUCCESS -> no = 1 /\ mo = 1 /\ alloc = true /\ exists o', Some o = Some o' /\ o' <= 63)).
    { intros e1 st H1 H2. rewrite H1. split_and!; done. }
    destruct (rd _ _) as [st x]. destruct st; try (apply G; [exact En|discriminate]).
    cbn [set_dh_keypair set_read_rand_state set_rand_calls read_rand_state rand_calls new_dh_keypair].
    destruct (rd _ _) as [st y]. destruct st; try (apply G; [exact En|discriminate]).
    cbn [set_new_dh_keypair set_dh_keypair set_read_rand_state set_rand_calls rand_calls].
    destruct (rd _ _) as [st z]. destruct st; try (apply G; [exact En|discriminate]).
    destruct alloc; [|apply G; [exact En|discriminate]].
    split_and!; [done|done|]. intros _. split_and!; [done|done|done|]. by exists o.
Qed.

Lemma remove_servers rid (e : enclave T) :
  server_states (sgxsd_enclave_remove_pending_request gc rid e).2 = server_states e.
Proof.
  unfold sgxsd_enclave_remove_pending_request. destruct (decrypt_request_id gc rid e) as [st v].
  destruct st; try done. by destruct (id_val _ =? v).
Qed.

(** A server of the table, and the table apart from it. *)
Definition server_at (i : nat) (e : enclave T) : server_desc T := nth i (server_states e) no_server.
Definition same_others (i : nat) (e e' : enclave T) : Prop := forall j, j <> i -> server_states e' !! j = server_states e !! j.

Section one_server.
Context (e : enclave T) (handle : Z) (cargs : CallArgs) (hdr : option msg_header) (msg : option bytes) (size tag : Z).
Hypotheses (En : node_initialized e = true) (Hh : 0 <= handle < SGXSD_ENCLAVE_MAX_SERVERS) (Hlen : length (server_states e) = 256%nat).
Let i : nat := Z.to_nat handle.
Let d : server_desc T := server_at i e.

Lemma handle_in_range : (SGXSD_ENCLAVE_MAX_SERVERS <=? handle) = false.
Proof using Hh. clear -Hh. lia. Qed.

Lemma unlock_spec (e1 : enclave T) d1 : server_states e1 = server_states e ->
  let e' := set_servers (<[i := set_lock 0 d1]> (server_states e1)) e1 in
  server_at i e' = set_lock 0 d1 /\ same_others i e e'.
Proof using Hh Hlen.
  intros E1. assert (Hi : (i < length (server_states e))%nat).
  { clear -i Hh Hlen. unfold i, SGXSD_ENCLAVE_MAX_SERVERS in *. lia. }
  unfold server_at, same_others. cbn [set_servers server_states]. rewrite E1. split.
  - by rewrite nth_lookup, list_lookup_insert_eq.
  - intros j Hj. by rewrite list_lookup_insert_ne.
Qed.

Lemma start_cycle iargs : let '(res, ev, e') := start iargs handle e in
  lock (server_at i e') = 0 /\ same_others i e e' /\
  (forall x, ev = Some x -> x = EvInit 1) /\
  (valid d = true -> res = SGX_ERROR_INVALID_STATE /\ ev = None) /\
  (valid d = false -> (valid (server_at i e') = true <-> res = SGX_SUCCESS)).
Proof using En Hh Hlen.
  pose proof handle_in_range as Hge.
  unfold sgxsd_enclave_server_start, with_server. rewrite En, Hge. cbn [negb]. fold i. fold (server_at i e). fold d.
  unfold sgxsd_enclave_server_start_locked. cbn [set_lock valid lock p_state]. destruct (valid d) eqn:Ev.
  - destruct (unlock_spec e (set_lock 1 d) eq_refl) as [Us Uo]. cbn [fst snd]. rewrite Us. split_and!; done.
  - destruct (server_init iargs (p_state d)) as [res s].
    destruct res; match goal with |- context [set_lock 0 ?x] => destruct (unlock_spec e x eq_refl) as [Us Uo] end;
      rewrite Us; split_and!; try done; by intros x [= <-].
Qed.

(** What a call that runs no callback leaves behind. *)
Lemma call_refused st (e1 : enclave T) : (valid d = false -> st = SGX_ERROR_INVALID_STATE) -> server_states e1 = server_states e ->
  let ev := None : option (event T) in
  let e' := set_servers (<[i := set_lock 0 (set_lock 1 d)]> (server_states e1)) e1 in
  lock (server_at i e') = 0 /\ same_others i e e' /\ valid (server_at i e') = valid d /\
  (forall x, ev = Some x -> exists m from, x = EvCall 1 m from) /\
  (valid d = false -> st = SGX_ERROR_INVALID_STATE /\ ev = None).
Proof using Hh Hlen.
  intros Hst E1. cbv zeta. destruct (unlock_spec e1 (set_lock 1 d) E1) as [Us Uo]. rewrite Us. split_and!; try done. auto.
Qed.

Lemma call_cycle : let '(res, _, ev, e') := call cargs hdr msg size tag handle e in
  lock (server_at i e') = 0 /\ same_others i e e' /\ valid (server_at i e') = valid d /\
  (forall x, ev = Some x -> exists m from, x = EvCall 1 m from) /\
  (valid d = false -> res = SGX_ERROR_INVALID_STATE /\ ev = None).
Proof using En Hh Hlen.
  pose proof handle_in_range as Hge.
  unfold sgxsd_enclave_server_call, with_server. rewrite En, Hge. cbn [negb]. fold i. fold (server_at i e). fold d.
  unfold sgxsd_enclave_server_call_locked. cbn [set_lock valid lock p_state].
  pose proof call_refused as Refuse.
  destruct (valid d) eqn:Ev; cbn [negb]; [|by apply Refuse].
  destruct hdr as [h|]; [|by apply Refuse]. destruct msg as [m|]; [|by apply Refuse].
  destruct (size =? 0); [by apply Refuse|].
  assert (R := remove_servers (hdr_id h) e).
  destruct (sgxsd_enclave_remove_pending_request gc (hdr_id h) e) as [[st p] e1]. cbn [snd] in R.
  destruct st; try (by apply Refuse). destruct p as [p|].
  2: { destruct (unlock_spec e1 (set_lock 1 d) R) as [Us Uo]. cbn [fst snd]. rewrite Us. split_and!; done. }
  destruct (open_message sc gc id_image p h m size tag) as [[st out] from].
  destruct st; try (by apply Refuse).
  destruct (handle_call cargs out size from (p_state d) (rand_calls e1)) as [[st s] n].
  destruct (unlock_spec (set_rand_calls n e1) (mkDesc true 1 s) R) as [Us Uo].
  cbn [set_lock valid lock p_state] in *. rewrite Us. split_and!; try done. intros x [= <-]. eauto.
Qed.

Lemma fingerprint_cycle key fp fpsize : let '(res, _, _, ev, e') := fingerprint key cargs hdr msg size tag handle fp fpsize e in
  server_at i e' = set_lock 0 d /\ same_others i e e' /\ (forall x, ev = Some x -> exists m from, x = EvFingerprint 1 m from) /\
  (valid d = false -> res = SGX_ERROR_INVALID_STATE /\ ev = None).
Proof using En Hh Hlen.
  pose proof handle_in_range as Hge.
  unfold sgxsd_enclave_ratelimit_fingerprint, with_server. rewrite En, Hge. cbn [negb]. fold i. fold (server_at i e). fold d.
  unfold sgxsd_enclave_ratelimit_fingerprint_locked. cbn [set_lock valid lock p_state].
  destruct (unlock_spec e (set_lock 1 d) eq_refl) as [Us Uo].
  assert (Refuse : forall st, (valid d = false -> st = SGX_ERROR_INVALID_STATE) ->
    let ev := None : option (event T) in
    let e' := set_servers (<[i:=set_lock 0 (set_lock 1 d)]> (server_states e)) e in
    server_at i e' = set_lock 0 d /\ same_others i e e' /\ (forall x, ev = Some x -> exists m from, x = EvFingerprint 1 m from) /\
    (valid d = false -> st = SGX_ERROR_INVALID_STATE /\ ev = None)).
  { intros st Hst. cbv zeta. rewrite Us. split_and!; try done. auto. }
  destruct (valid d) eqn:Ev; cbn [negb]; [|by apply Refuse].
  destruct hdr as [h|]; [|by apply Refuse]. destruct msg as [m|]; [|by apply Refuse].
  destruct (size =? 0); [by apply Refuse|].
  destruct (sgxsd_enclave_get_pending_request gc (hdr_id h) e) as [st [p|]]; [|by destruct st; apply Refuse].
  destruct st; try (by apply Refuse).
  destruct (open_message sc gc id_image p h m size tag) as [[st out] from].
  destruct st; try (by apply Refuse).
  destruct (fingerprint_of _ _ _ _ _ _ _) as [st f]. rewrite Us. split_and!; try done. intros x [= <-]. eauto.
Qed.

Lemma stop_cycle targs : let '(res, ev, e') := stop targs handle e in
  lock (server_at i e') = 0 /\ same_others i e e' /\ valid (server_at i e') = false /\
  (valid d = true -> ev = Some (EvTerminate 0 (p_state d)) /\ res = server_terminate targs (p_state d)) /\
  (valid d = false -> res = SGX_ERROR_INVALID_STATE /\ ev = None).
Proof using En Hh Hlen.
  pose proof handle_in_range as Hge.
  unfold sgxsd_enclave_server_stop, with_server. rewrite En, Hge. cbn [negb]. fold i. fold (server_at i e). fold d.
  unfold sgxsd_enclave_server_stop_locked. cbn [set_lock valid lock p_state]. destruct (valid d) eqn:Ev; cbn [negb].
  - destruct (unlock_spec e no_server eq_refl) as [Us Uo]. cbn [fst snd]. rewrite Us. split_and!; done.
  - destruct (unlock_spec e (set_lock 1 d) eq_refl) as [Us Uo]. cbn [fst snd]. rewrite Us. split_and!; done.
Qed.
End one_server.

(** C31: Servers follow their lifecycle, but the lock does not cover its end.
    Starting, calling and fingerprinting run their callbacks with the lock of
    the server taken; stopping clears the descriptor, the lock included,
    before the termination callback runs, so that this callback runs with the
    lock free.  After each of the four the lock is free, and no other server
    has changed.  A start is refused on a started server; it makes the server
    started exactly when it succeeds.  A stop hands over the server's state
    and leaves it stopped, and a call or a stop of a stopped server is
    refused. *)
Theorem server_lifecycle (e : enclave T) iargs cargs targs hdr msg size tag handle key fp fpsize :
  node_initialized e = true -> 0 <= handle < SGXSD_ENCLAVE_MAX_SERVERS -> length (server_states e) = 256%nat ->
  let i := Z.to_nat handle in let d := server_at i e in
  (let '(res, ev, e') := start iargs handle e in
   lock (server_at i e') = 0 /\ same_others i e e' /\
   (forall x, ev = Some x -> x = EvInit 1) /\
   (valid d = true -> res = SGX_ERROR_INVALID_STATE /\ ev = None) /\
   (valid d = false -> (valid (server_at i e') = true <-> res = SGX_SUCCESS))) /\
  (let '(res, _, ev, e') := call cargs hdr msg size tag handle e in
   lock (server_at i e') = 0 /\ same_others i e e' /\ valid (server_at i e') = valid d /\
   (forall x, ev = Some x -> exists m from, x = EvCall 1 m from) /\
   (valid d = false -> res = SGX_ERROR_INVALID_STATE /\ ev = None)) /\
  (let '(res, _, _, ev, e') := fingerprint key cargs hdr msg size tag handle fp fpsize e in
   server_at i e' = set_lock 0 d /\ same_others i e e' /\ (forall x, ev = Some x -> exists m from, x = EvFingerprint 1 m from) /\
   (valid d = false -> res = SGX_ERROR_INVALID_STATE /\ ev = None)) /\
  (let '(res, ev, e') := stop targs handle e in
   lock (server_at i e') = 0 /\ same_others i e e' /\ valid (server_at i e') = false /\
   (valid d = true -> ev = Some (EvTerminate 0 (p_state d)) /\ res = server_terminate targs (p_state d)) /\
   (valid d = false -> res = SGX_ERROR_INVALID_STATE /\ ev = None)).
Proof.
  intros En Hh Hlen i d. split_and!.
  - by apply start_cycle.
  - by apply call_cycle.
  - by apply fingerprint_cycle.
  - by apply stop_cycle.
Qed.
End lifecycle.

Lemma server_lifecycle_witness :
  let init := fun (_ : unit) (_ : option unit) => (SGX_SUCCESS, Some tt) in
  let '(_, ev, e') := sgxsd_enclave_server_start init tt 3 test_node in
  lock (nth (Z.to_nat 3) (server_states e') no_server) = 0 /\ (forall x, ev = Some x -> x = EvInit 1).
Proof.
  destruct (server_lifecycle (TerminateArgs := unit) (mkHash (replicate 64 0) 0 []) test_context (fun _ => [])
    (fun (_ : unit) (_ : option unit) => (SGX_SUCCESS, Some tt)) (fun (_ : unit) _ _ _ s n => (SGX_SUCCESS, s, n))
    (fun _ _ => SGX_SUCCESS) (fun _ _ _ _ _ f _ => (SGX_SUCCESS, f)) test_node tt tt tt None None 0 0 3 [] [] 0
    eq_refl ltac:(unfold SGXSD_ENCLAVE_MAX_SERVERS; lia) eq_refl) as (W & _).
  cbv zeta. destruct (sgxsd_enclave_server_start _ _ _ _) as [[st ev] e']. exact (conj (proj1 W) (proj1 (proj2 (proj2 W)))).
Defined.

(** ** Replies *)

Section replies.
Context {T : Type} (gc : gcm_ctx) (gc_ok : length (gbuf gc) = 16%nat).
Context (rd : nat -> nat -> sgx_status_t * bytes) (Hrd : rand_ok rd).
Context (ocall_reply : option msg_header -> option bytes -> Z -> Z -> sgx_status_t * sgx_status_t).
Implicit Type e : enclave T.

Abbreviation reply := (sgxsd_enclave_server_reply (T := T) gc rd ocall_reply).

Lemma odd_iv_ok iv : iv_ok iv -> iv_ok (<[0%nat := Z.lor (byte_at iv 0) 1]> iv).
Proof.
  intros [Hl Ho]. split; [by rewrite length_insert|]. apply Forall_insert; [done|].
  change (in_width 8 (Z.lor (byte_at iv 0) 1)). apply lor_in_width; [lia|by apply (byte_at_ok iv 0)|split; lia].
Qed.

Lemma odd_byte_nonzero x : 0 <= x -> Z.lor x 1 <> 0.
Proof. intros Hx H. apply Z.lor_eq_0_iff in H. lia. Qed.

(** C32: A reply is sent at most once, and its buffers are erased.  Whatever
    the outcome, the plaintext buffer ends as zeros and the sender's record as
    invalid, so that a second reply and a refusal to reply both fail without
    another call to the outside.  The message that is sent is encrypted under
    the sender's key with a nonce that is never the all-zero one of the
    negotiation; of a message of [2^32] bytes or more, only the first
    [size mod 2^32] bytes are encrypted and the rest is sent as it is, and the
    request id in the header that is sent is whatever the stack held. *)
Theorem server_reply_once (h0 : msg_header) (data data2 : option bytes) (msg : bytes) (from : msg_from) (size2 : Z) (e : enclave T) :
  mac_ok (hdr_mac h0) -> key_ok (from_server_key from) -> Forall byte_ok msg ->
  let size := Z.of_nat (length msg) in
  let '(res, out, from', ev, e') := reply h0 (Some msg) size (Some from) e in
  out = Some (replicate (length msg) 0) /\ from' = Some erased_from /\
  reply h0 data2 size2 from' e' =
    (SGX_ERROR_INVALID_STATE, erase size2 data2, from', None, e') /\
  sgxsd_enclave_server_noreply (T := T) ocall_reply from' = (SGX_ERROR_INVALID_STATE, from', None) /\
  (forall x, ev = Some x -> exists iv, iv_ok iv /\ iv <> replicate 12 0 /\
     let n := Z.to_nat (size mod 2 ^ 32) in
     let ct := gcm_cipher (from_server_key from) iv (take n msg) in
     let h := mkHeader iv (gcm_mac (from_server_key from) iv [] ct) (hdr_id h0) in
     x = EvReply (Some h) (Some (ct ++ drop n msg)) size (from_tag from) /\
     res = reply_status (ocall_reply (Some h) (Some (ct ++ drop n msg)) size (from_tag from))) /\
  (from_valid from = false -> ev = None) /\ (ev = None -> res <> SGX_SUCCESS).
Proof using gc_ok Hrd.
  intros Hm Hk Hb size. unfold sgxsd_enclave_server_reply at 1.
  destruct (sgxsd_enclave_server_reply_noerase gc rd ocall_reply h0 (Some msg) size (Some from) e)
    as [[[res out] ev] e'] eqn:E.
  cbn [fmap option_fmap option_map].
  assert (G : (exists o, out = Some o /\ length o = length msg) /\
    (forall x, ev = Some x -> exists iv, iv_ok iv /\ iv <> replicate 12 0 /\
     let n := Z.to_nat (size mod 2 ^ 32) in
     let ct := gcm_cipher (from_server_key from) iv (take n msg) in
     let h := mkHeader iv (gcm_mac (from_server_key from) iv [] ct) (hdr_id h0) in
     x = EvReply (Some h) (Some (ct ++ drop n msg)) size (from_tag from) /\
     res = reply_status (ocall_reply (Some h) (Some (ct ++ drop n msg)) size (from_tag from))) /\
    (from_valid from = false -> ev = None) /\ (ev = None -> res <> SGX_SUCCESS)).
  { revert E. unfold sgxsd_enclave_server_reply_noerase. cbn [is_null andb].
    destruct (from_valid from) eqn:Ev; cbn [negb].
    2: { intros [= <- <- <- <-]. split_and!; [by eexists|done|done|done]. }
    unfold read_rand_call. destruct (Hrd (rand_calls e) 12%nat) as [Li Oi].
    destruct (rd (rand_calls e) 12%nat) as [st iv0]. cbn [snd] in *.
    destruct st; try (intros [= <- <- <- <-]; split_and!; [by eexists|done|done|done]).
    set (iv := <[0%nat := Z.lor (byte_at iv0 0) 1]> iv0).
    assert (Hi : iv_ok iv) by (apply odd_iv_ok; split; assumption).
    assert (Hn : iv <> replicate 12 0).
    { intros Hz. apply (f_equal (fun l => byte_at l 0)) in Hz. unfold byte_at, iv in Hz.
      rewrite nth_lookup, list_lookup_insert_eq in Hz by lia. cbn in Hz.
      apply odd_byte_nonzero in Hz; [done|]. apply (byte_at_ok iv0 0 Oi). }
    set (n := Z.to_nat (size mod 2 ^ 32)). assert (Hs : 0 <= size mod 2 ^ 32 < 2 ^ 32) by (apply Z.mod_pos_bound; lia).
    assert (Hle : (n <= length msg)%nat) by (assert (L := Z.mod_le size (2 ^ 32)); unfold n, size in *; lia).
    assert (S := gcm_run_spec gc true (from_server_key from) iv (hdr_mac h0) msg [] msg n 0 gc_ok
      (gcm_args_of _ _ _ _ [] Hk Hi Hm Hb n 0%nat Hle ltac:(lia) (Nat.le_0_l _) eq_refl)).
    cbv zeta in S. rewrite no_aad. unfold wrap. replace (size mod 2 ^ 32) with (Z.of_nat n) by lia. rewrite S.
    rewrite memcpy_mac; [|by apply gcm_mac_ok|done]. cbn [contents take].
    intros [= <- <- <- <-]. split_and!; [|intros x [= <-]; exists iv; split_and!; done|done|done].
    eexists. split; [reflexivity|]. rewrite length_app, gcm_cipher_length, length_take, length_drop. lia. }
  destruct G as ((o & -> & Lo) & G). unfold erase at 1. cbn [fmap option_fmap option_map].
  unfold size at 1 2. rewrite Nat2Z.id, drop_ge, app_nil_r by lia. split_and!; try done; apply G.
Qed.
End replies.

Lemma server_reply_once_witness :
  let h0 := mkHeader [] (replicate 16 0) uninitialised_id in let from := mkFrom true 7 (replicate 32 1) in
  let '(_, out, from', ev, e') := sgxsd_enclave_server_reply test_context test_rand
    (fun _ _ _ _ => (SGX_SUCCESS, SGX_SUCCESS)) h0 (Some [1; 2]) 2 (Some from) test_node in
  out = Some [0; 0] /\ from' = Some erased_from.
Proof.
  assert (B : forall n x, 0 <= x < 256 -> length (replicate n x) = n /\ Forall byte_ok (replicate n x)).
  { intros n x Hx. split; [apply length_replicate|]. by apply Forall_replicate. }
  assert (W := server_reply_once test_context eq_refl test_rand test_rand_ok (fun _ _ _ _ => (SGX_SUCCESS, SGX_SUCCESS))
    (mkHeader [] (replicate 16 0) uninitialised_id) None None [1; 2] (mkFrom true 7 (replicate 32 1)) 0 test_node
    (B 16%nat 0 ltac:(lia)) (B 32%nat 1 ltac:(lia)) ltac:(repeat (constructor; [unfold byte_ok; lia|]); constructor)).
  cbv zeta in *. change (Z.of_nat (length [1; 2])) with 2 in W.
  destruct (sgxsd_enclave_server_reply _ _ _ _ _ _ _ _) as [[[[res out] from'] ev] e'].
  exact (conj (proj1 W) (proj1 (proj2 W))).
Defined.

(** ** Negotiation *)

Section negotiation.
Context {T : Type} (sc : hash_context) (sc_ok : length (buf sc) = 64%nat).
Context (rd : nat -> nat -> sgx_status_t * bytes) (Hrd : rand_ok rd).
Implicit Type e : enclave T.

(** The private key drawn from the hashed state [st] and fresh bytes [x], and
    the state that replaces [st]. *)
Definition drawn_key (st x : bytes) : bytes := clamp (HKDF_T (HMAC_SHA256 st x) 2).
Definition next_rand_state (st x : bytes) : bytes := HKDF_T (HMAC_SHA256 st x) 1.

Lemma clamp_key_ok k : key_ok k -> key_ok (clamp k).
Proof.
  intros [Hl Ho]. split; [|by apply clamp_ok]. unfold clamp. rewrite !length_insert, length_take. lia.
Qed.

Lemma BASEPOINT_ok : key_ok BASEPOINT.
Proof. split; [reflexivity|]. constructor; [unfold byte_ok; lia|]. apply Forall_replicate. unfold byte_ok. lia. Qed.

Lemma donna_key_ok k u : key_ok k -> key_ok u -> (curve25519_donna k u).2 = RFC7748.X25519 k u.
Proof. intros [? ?] [? ?]. by rewrite curve25519_donna_spec. Qed.

Lemma generate_keypair_spec kp e :
  Forall byte_ok (read_rand_state e) ->
  let '(res, kp', e') := sgxsd_enclave_generate_curve25519_keypair sc rd kp e in
  let '(st, x) := rd (rand_calls e) 32%nat in
  res = st /\
  (st = SGX_SUCCESS ->
    let k := drawn_key (read_rand_state e) x in
    key_ok k /\ kp' = mkKeyPair k (RFC7748.X25519 k BASEPOINT) /\
    e' = set_read_rand_state (next_rand_state (read_rand_state e) x) (set_rand_calls (S (rand_calls e)) e)) /\
  (st <> SGX_SUCCESS -> e' = set_rand_calls (S (rand_calls e)) e).
Proof using sc_ok Hrd.
  intros Hs. unfold sgxsd_enclave_generate_curve25519_keypair, sgxsd_enclave_read_rand, read_rand_call.
  destruct (Hrd (rand_calls e) 32%nat) as [Lx Ox]. destruct (rd (rand_calls e) 32%nat) as [st x]. cbn [snd] in *.
  destruct st; try (split_and!; done).
  cbn [set_rand_calls read_rand_state]. rewrite (hmac_sha256_spec sc sc_ok) by done. cbn [concat]. rewrite app_nil_r.
  set (prk := HMAC_SHA256 (read_rand_state e) x).
  assert (Hp : Forall byte_ok prk) by apply HMAC_SHA256_bytes.
  rewrite (hkdf_round_spec sc sc_ok prk 0 hkdf_start) by done. cbn [t_n].
  rewrite (hkdf_round_spec sc sc_ok prk 1) by done. cbn [t_n].
  split; [done|]. split; [|done]. intros _. cbv zeta. unfold drawn_key, next_rand_state. fold prk.
  assert (K : key_ok (clamp (HKDF_T prk 2))) by (apply clamp_key_ok, HKDF_key_ok).
  split; [exact K|]. split; [|reflexivity]. by rewrite donna_key_ok by (done || apply BASEPOINT_ok).
Qed.

Context (gc : gcm_ctx) (gc_ok : length (gbuf gc) = 16%nat) (id_image : pending_request_id -> bytes).

(** The key material of a negotiation, from the standard functions. *)
Definition protocol_prk (client ephemeral_priv static_priv ephemeral_pub static_pub : bytes) : bytes :=
  HMAC_SHA256 (FIPS.sha256 (client ++ ephemeral_pub ++ static_pub))
    (RFC7748.X25519 ephemeral_priv client ++ RFC7748.X25519 static_priv client).

Lemma negotiated_prk_spec client k static :
  key_ok client -> key_ok k -> key_ok (privkey static) ->
  negotiated_prk sc client (mkKeyPair k (RFC7748.X25519 k BASEPOINT)) static =
  protocol_prk client k (privkey static) (RFC7748.X25519 k BASEPOINT) (pubkey static).
Proof using sc_ok.
  intros Hc Hk Hs. unfold negotiated_prk, protocol_prk. cbn [privkey pubkey].
  rewrite (sha256_spec sc sc_ok), (hmac_sha256_spec sc sc_ok) by apply sha256_bytes.
  rewrite !donna_key_ok by done. cbn [concat]. by rewrite !app_nil_r.
Qed.

(** The request that is stored for a new key. *)
Lemma stored_negotiation (e : enclave T) prk : pending_ok e -> Forall byte_ok prk ->
  let '(res, rid, e') := sgxsd_enclave_add_pending_request gc rd uninitialised_id (mkPending 0 prk) e in
  let '(st, iv) := rd (rand_calls e) 12%nat in let v := w64 (last_id e + 1) in
  res = st /\
  (st = SGX_SUCCESS -> rid = request_id_of (id_key e) iv v /\ decrypt_request_id gc rid e' = (SGX_SUCCESS, v) /\
    slot v e' = mkPending v prk /\ last_id e' = v /\ read_rand_state e' = read_rand_state e).
Proof using gc_ok Hrd.
  clear sc_ok sc id_image. intros Hp Hprk.
  assert (M0 : mac_ok (rid_mac uninitialised_id)).
  { split; [reflexivity|]. apply Forall_replicate. unfold byte_ok. lia. }
  assert (A := add_pending_request_spec gc gc_ok rd Hrd uninitialised_id (mkPending 0 prk) e
    (proj2 (proj2 (proj2 Hp))) eq_refl M0).
  destruct (sgxsd_enclave_add_pending_request gc rd uninitialised_id (mkPending 0 prk) e) as [[res rid] e2].
  destruct (store_pending_request (mkPending 0 prk) e) as [v e1'] eqn:Es.
  destruct (Hrd (rand_calls e) 12%nat) as [Li Oi]. destruct (rd (rand_calls e) 12%nat) as [st iv].
  cbn [fst snd] in *. destruct A as (-> & E2 & Hid). split; [done|]. intros ->. specialize (Hid eq_refl).
  assert (Ev : v = w64 (last_id e + 1)) by (injection Es as <- _; reflexivity). rewrite <-Ev.
  assert (Ek2 : id_key e2 = id_key e) by (rewrite E2; injection Es as _ <-; reflexivity). split_and!.
  - exact Hid.
  - rewrite Hid, <-Ek2. apply (decrypt_request_id_spec gc gc_ok); [rewrite Ek2; apply Hp|split; assumption|].
    rewrite Ev. apply wrap_in_width. lia.
  - assert (Sl := slot_store v (mkPending 0 prk) e Hp). rewrite Es in Sl. cbn [snd hkdf_prk] in Sl. rewrite <-Ev in Sl.
    rewrite Z.sub_diag, Z.mod_0_l in Sl by (apply Z.pow_nonzero; destruct Hp; lia).
    rewrite decide_True in Sl by done. rewrite E2. exact Sl.
  - rewrite E2. injection Es as <- <-. reflexivity.
  - rewrite E2. injection Es as _ <-. reflexivity.
Qed.

(** C17: A negotiation follows the protocol.  On an initialised node, the
    answer to a client's key succeeds exactly when both random calls do.  The
    ephemeral key is then drawn from the hashed state, which moves on; the
    response carries the static and the ephemeral public key and, under the
    second HKDF key and the zero nonce, the image of a fresh request id; that
    id opens to the next number, and the table holds for it the secret
    derived by HKDF from X25519 of the client's key with both private keys,
    salted with the hash of the three public keys.  A client that knows the
    secret decrypts the id. *)
Theorem negotiate_protocol (client : bytes) (resp : negotiation_response) (e : enclave T) :
  node_initialized e = true -> pending_ok e -> Forall byte_ok (read_rand_state e) -> key_ok (privkey (dh_keypair e)) ->
  key_ok client -> mac_ok (resp_mac resp) ->
  (forall i, Forall byte_ok (id_image i) /\ length (id_image i) = length (resp_data resp)) ->
  Z.of_nat (length (resp_data resp)) < 2 ^ 32 ->
  let '(res, out, e') := sgxsd_enclave_negotiate_request sc gc rd id_image (Some client) (Some resp) e in
  let '(st1, x) := rd (rand_calls e) 32%nat in let '(st2, iv) := rd (S (rand_calls e)) 12%nat in
  (res = SGX_SUCCESS <-> st1 = SGX_SUCCESS /\ st2 = SGX_SUCCESS) /\
  (res = SGX_SUCCESS ->
   let static := dh_keypair e in
   let k := drawn_key (read_rand_state e) x in let pub := RFC7748.X25519 k BASEPOINT in
   let prk := protocol_prk client k (privkey static) pub (pubkey static) in
   let v := w64 (last_id e + 1) in let rid := request_id_of (id_key e) iv v in
   let ct := gcm_cipher (HKDF_T prk 2) (replicate 12 0) (id_image rid) in
   out = Some (mkResponse ct (replicate 12 0) (gcm_mac (HKDF_T prk 2) (replicate 12 0) [] ct) (pubkey static) pub) /\
   gcm_cipher (HKDF_T prk 2) (replicate 12 0) ct = id_image rid /\
   decrypt_request_id gc rid e' = (SGX_SUCCESS, v) /\ slot v e' = mkPending v prk /\ last_id e' = v /\
   read_rand_state e' = next_rand_state (read_rand_state e) x).
Proof using sc_ok Hrd gc_ok.
  intros En Hp Hs Hst Hc Hm Him Hl. unfold sgxsd_enclave_negotiate_request. rewrite En. cbn [negb].
  assert (K := generate_keypair_spec (mkKeyPair [] []) e Hs).
  destruct (sgxsd_enclave_generate_curve25519_keypair sc rd (mkKeyPair [] []) e) as [[res kp] e1].
  destruct (rd (rand_calls e) 32%nat) as [st1 x]. destruct K as (-> & K & _).
  destruct (decide (st1 = SGX_SUCCESS)) as [->|Hne].
  2: { destruct (rd (S (rand_calls e)) 12%nat) as [st2 iv]. destruct st1; try done; (split; [split; [done|by intros [? _]]|done]). }
  destruct (K eq_refl) as (Kk & -> & E1). clear K. set (k := drawn_key (read_rand_state e) x) in *.
  assert (Ed : dh_keypair e1 = dh_keypair e) by (rewrite E1; reflexivity). rewrite Ed.
  rewrite negotiated_prk_spec by done. cbn [resp_data resp_iv resp_mac pubkey server_static_pubkey server_ephemeral_pubkey].
  set (prk := protocol_prk _ _ _ _ _).
  assert (Hprk : Forall byte_ok prk) by apply HMAC_SHA256_bytes.
  rewrite (derive_request_keys_spec sc sc_ok) by done. cbn [snd].
  assert (Hp1 : pending_ok e1) by (rewrite E1; exact Hp).
  assert (A := stored_negotiation e1 prk Hp1 Hprk).
  destruct (sgxsd_enclave_add_pending_request gc rd uninitialised_id (mkPending 0 prk) e1) as [[res rid] e2].
  assert (Er : rand_calls e1 = S (rand_calls e)) by (rewrite E1; reflexivity). rewrite Er in A.
  destruct (rd (S (rand_calls e)) 12%nat) as [st2 iv]. destruct A as (-> & A).
  destruct (decide (st2 = SGX_SUCCESS)) as [->|Hne].
  2: { destruct st2; try done; (split; [split; [done|by intros [_ ?]]|done]). }
  destruct (A eq_refl) as (Hid & A1 & A2 & A3 & A4). destruct (Him rid) as [Ob Lb].
  assert (Z0 : iv_ok (replicate 12 0)) by (split; [reflexivity|]; apply Forall_replicate; unfold byte_ok; lia).
  assert (S := encrypt_spec gc gc_ok (HKDF_T prk 2) (replicate 12 0) (resp_mac resp) (id_image rid) _ (resp_data resp)
    (HKDF_key_ok _ 1) Z0 Hm Ob eq_refl ltac:(rewrite Lb; exact Hl) ltac:(by rewrite Lb)).
  rewrite S. cbn [contents resp_data resp_iv resp_mac server_static_pubkey server_ephemeral_pubkey].
  assert (El : last_id e1 = last_id e) by (rewrite E1; reflexivity). rewrite El in *.
  assert (Ek : id_key e1 = id_key e) by (rewrite E1; reflexivity). rewrite Ek in Hid.
  split; [done|]. intros _. cbv zeta. fold prk. rewrite <-Hid. split_and!; try done.
  - apply gcm_cipher_involutive.
  - rewrite A4, E1. reflexivity.
Qed.
End negotiation.

Lemma negotiate_protocol_witness :
  let resp := mkResponse (replicate 36 0) (replicate 12 0) (replicate 16 0) (replicate 32 0) (replicate 32 0) in
  (sgxsd_enclave_negotiate_request (mkHash (replicate 64 0) 0 []) test_context test_rand (fun _ => replicate 36 1)
    (Some (replicate 32 9)) (Some resp) test_node).1.1 = SGX_SUCCESS.
Proof.
  cbv zeta. set (resp := mkResponse _ _ _ _ _).
  assert (B : forall n x, 0 <= x < 256 -> Forall byte_ok (replicate n x)) by (intros; by apply Forall_replicate).
  assert (W := negotiate_protocol (mkHash (replicate 64 0) 0 []) eq_refl test_rand test_rand_ok test_context eq_refl
    (fun _ => replicate 36 1) (replicate 32 9) resp test_node eq_refl test_node_ok
    (B 32%nat 0 ltac:(lia)) (conj eq_refl (B 32%nat 0 ltac:(lia))) (conj eq_refl (B 32%nat 9 ltac:(lia)))
    (conj eq_refl (B 16%nat 0 ltac:(lia))) (fun _ => conj (B 36%nat 1 ltac:(lia)) eq_refl) ltac:(cbn; lia)).
  clearbody resp.
  destruct (sgxsd_enclave_negotiate_request _ _ _ _ _ _ _) as [[res out] e']. cbn [fst].
  unfold test_rand in W. cbn [rand_calls test_node] in W. destruct W as [W _].
  apply W. split; reflexivity.
Defined.
