(* ===== verification/SgxsdInvariant.v ===== *)
(** * The invariant of the enclave's globals

    The entry points as a step relation on the globals, and the invariant that
    holds in every state they reach from static storage. *)
From stdpp Require Import relations.
From S2P Require Import Prelude Inner Hash Hmac Simd Aes AesCtr Gf2 Ghash Gcm EncUtils Curve25519 SgxsdKeys SgxsdEnclave.
From S2P Require Import SgxsdCorrect SgxsdServer.
Local Open Scope Z_scope.

Section invariant.
Context {T InitArgs CallArgs TerminateArgs : Type}.
Context (sc : hash_context) (gc : gcm_ctx) (rd : nat -> nat -> sgx_status_t * bytes).
Context (id_image : pending_request_id -> bytes).
Context (create_report : bytes -> bytes -> sgx_status_t * bytes).
Context (ocall_reply : option msg_header -> option bytes -> Z -> Z -> sgx_status_t * sgx_status_t).
Context (server_init : InitArgs -> option T -> sgx_status_t * option T).
Context (handle_call : CallArgs -> bytes -> Z -> msg_from -> option T -> nat -> sgx_status_t * option T * nat).
Context (server_terminate : TerminateArgs -> option T -> sgx_status_t).
Context (fingerprint_of : bytes -> CallArgs -> bytes -> Z -> msg_from -> bytes -> Z -> sgx_status_t * bytes).
Implicit Type e : enclave T.

(** A call of an entry point.  The order of the table is a [uint8_t], a server
    handle is unsigned. *)
Inductive api_step e : enclave T -> Prop :=
| step_node_init no mo calloc_ok args :
    (forall o, args = Some o -> 0 <= o < 256) ->
    api_step e (sgxsd_enclave_node_init sc rd no mo calloc_ok args e).2
| step_get_next_report target report : api_step e (sgxsd_enclave_get_next_report sc rd create_report target report e).2
| step_set_current_quote : api_step e (sgxsd_enclave_set_current_quote e).2
| step_negotiate_request request response :
    api_step e (sgxsd_enclave_negotiate_request sc gc rd id_image request response e).2
| step_server_reply h0 data size from : api_step e (sgxsd_enclave_server_reply gc rd ocall_reply h0 data size from e).2
| step_server_start args handle : api_step e (sgxsd_enclave_server_start server_init args handle e).2
| step_server_call args hdr msg size tag handle :
    api_step e (sgxsd_enclave_server_call sc gc id_image handle_call args hdr msg size tag handle e).2
| step_server_stop args handle : api_step e (sgxsd_enclave_server_stop server_terminate args handle e).2
| step_fingerprint key args hdr msg size tag handle fp fpsize :
    api_step e (sgxsd_enclave_ratelimit_fingerprint sc gc id_image fingerprint_of key args hdr msg size tag handle fp fpsize e).2.

(** A key pair of the curve. *)
Definition key_pair_ok (k : key_pair) : Prop :=
  key_ok (privkey k) /\ pubkey k = RFC7748.X25519 (privkey k) BASEPOINT.

(** Every entry of the table is empty or in the place of its id. *)
Definition table_ok e : Prop :=
  forall i q, pending_requests e !! i = Some q -> id_val q = 0 \/ table_index (id_val q) e = i.

Record enclave_inv e : Prop := {
  inv_rand : key_ok (read_rand_state e);
  inv_last_id : in_width 64 (last_id e);
  inv_servers : length (server_states e) = 256%nat;
  inv_locks : Forall (fun d => lock d = 0 /\ (valid d = true -> node_initialized e = true)) (server_states e);
  inv_node : node_initialized e = true ->
    pending_ok e /\ keys_ok e /\ table_ok e /\ key_pair_ok (dh_keypair e) /\ key_pair_ok (new_dh_keypair e)
}.

Lemma initial_inv : enclave_inv (initial_enclave T).
Proof.
  split; [|split; cbn; lia|reflexivity| |discriminate].
  - split; [reflexivity|]. apply Forall_replicate. unfold byte_ok. lia.
  - apply Forall_replicate. by split.
Qed.

(** ** Changes that keep the invariant *)

Lemma inv_rand_calls n e : enclave_inv e -> enclave_inv (set_rand_calls n e).
Proof. intros [? ? ? ? H]. by split. Qed.

Lemma inv_read_rand_state s e : key_ok s -> enclave_inv e -> enclave_inv (set_read_rand_state s e).
Proof. intros Hs [? ? ? ? H]. by split. Qed.

Lemma inv_server i d e :
  node_initialized e = true -> enclave_inv e -> enclave_inv (set_servers (<[i:=set_lock 0 d]> (server_states e)) e).
Proof.
  intros En [? ? Hl Hk H]. split; try done; cbn [set_servers server_states].
  - by rewrite length_insert.
  - apply Forall_insert; [exact Hk|]. by split.
Qed.

Lemma inv_clear v e :
  node_initialized e = true -> enclave_inv e ->
  enclave_inv (set_pending (<[table_index v e := empty_pending]> (pending_requests e)) e).
Proof.
  intros En [? ? ? ? H]. split; try done. intros _. destruct (H En) as (Hp & Hk & Ht & Hd & Hn).
  split_and!; try done; [by apply clear_pending_ok| |].
  - unfold keys_ok. cbn [set_pending pending_requests]. apply Forall_insert; [exact Hk|].
    apply Forall_replicate. unfold byte_ok. lia.
  - intros i q Hi. cbn [set_pending pending_requests] in Hi.
    apply list_lookup_insert_Some in Hi as [(_ & <- & _)|[_ Hi]]; [by left|]. exact (Ht i q Hi).
Qed.

Lemma inv_store p e :
  node_initialized e = true -> Forall byte_ok (hkdf_prk p) -> enclave_inv e -> enclave_inv (store_pending_request p e).2.
Proof.
  intros En Hb [Hr Hw Hs Hl H]. destruct (H En) as (Hp & Hk & Ht & Hd & Hn). unfold store_pending_request.
  cbn [snd set_last_id last_id]. set (v := w64 (last_id e + 1)).
  split; try done; [apply wrap_in_width; lia|]. intros _. split_and!; try done.
  - destruct Hp as (H1 & H2 & _ & H4). split; [exact H1|]. split; [|split; [apply wrap_in_width; lia|exact H4]].
    cbn [set_pending set_last_id pending_requests]. rewrite length_insert. exact H2.
  - unfold keys_ok. cbn [set_pending set_last_id pending_requests]. by apply Forall_insert.
  - intros i q Hi. cbn [set_pending set_last_id pending_requests] in Hi.
    apply list_lookup_insert_Some in Hi as [(<- & <- & _)|[_ Hi]]; [by right|]. exact (Ht i q Hi).
Qed.

(** ** The entry points *)

Context (sc_ok : length (buf sc) = 64%nat) (gc_ok : length (gbuf gc) = 16%nat) (Hrd : rand_ok rd).

Lemma inv_generate kp e :
  enclave_inv e ->
  let '(res, kp', e') := sgxsd_enclave_generate_curve25519_keypair sc rd kp e in
  enclave_inv e' /\ node_initialized e' = node_initialized e /\ (res = SGX_SUCCESS -> key_pair_ok kp') /\
  dh_keypair e' = dh_keypair e.
Proof using All.
  intros Hi. assert (K := generate_keypair_spec sc sc_ok rd Hrd kp e (proj2 (inv_rand _ Hi))).
  destruct (sgxsd_enclave_generate_curve25519_keypair sc rd kp e) as [[res kp'] e'].
  destruct (rd (rand_calls e) 32%nat) as [st x]. destruct K as (-> & K1 & K2).
  destruct (decide (st = SGX_SUCCESS)) as [Hst|Hst].
  - destruct (K1 Hst) as (Hk & -> & ->). split_and!; [|reflexivity|by split|reflexivity].
    apply inv_read_rand_state; [apply HKDF_key_ok|]. by apply inv_rand_calls.
  - rewrite (K2 Hst). split_and!; [by apply inv_rand_calls|reflexivity|done|reflexivity].
Qed.

(** A change of fields that only an initialised node relies on. *)
Lemma inv_uninitialised e e' :
  enclave_inv e -> node_initialized e = false -> node_initialized e' = false ->
  read_rand_state e' = read_rand_state e -> last_id e' = last_id e -> server_states e' = server_states e -> enclave_inv e'.
Proof.
  intros [H1 H2 H3 H4 _] En En' E1 E2 E3. split; rewrite ?E1, ?E2, ?E3; try done; [|by rewrite En'].
  apply (Forall_impl _ _ _ H4). intros d [Hd Hv]. split; [exact Hd|]. intros V. rewrite (Hv V) in En. discriminate.
Qed.

Lemma step_init_inv no mo alloc args e :
  (forall o, args = Some o -> 0 <= o < 256) -> enclave_inv e -> enclave_inv (sgxsd_enclave_node_init sc rd no mo alloc args e).2.
Proof using All.
  intros Ho Hi. unfold sgxsd_enclave_node_init, sgxsd_enclave_node_init_locked.
  destruct (node_initialized e) eqn:En; [exact Hi|].
  destruct (negb (1 =? no)); [exact Hi|]. destruct (negb (1 =? mo)); [exact Hi|].
  destruct args as [o|]; [|exact Hi]. destruct (Z.ltb_spec 63 o); [exact Hi|]. specialize (Ho o eq_refl).
  assert (G1 := inv_generate (dh_keypair e) e Hi).
  destruct (sgxsd_enclave_generate_curve25519_keypair sc rd (dh_keypair e) e) as [[st1 kp1] e1].
  destruct G1 as (I1 & N1 & K1 & _). rewrite En in N1.
  assert (I1' : enclave_inv (set_dh_keypair kp1 e1)) by (apply (inv_uninitialised e1); assumption || reflexivity).
  destruct (decide (st1 = SGX_SUCCESS)) as [->|]; [|destruct st1; first [exact I1' | congruence]].
  assert (G2 := inv_generate (new_dh_keypair (set_dh_keypair kp1 e1)) _ I1').
  destruct (sgxsd_enclave_generate_curve25519_keypair sc rd _ (set_dh_keypair kp1 e1)) as [[st2 kp2] e2] eqn:E2.
  destruct G2 as (I2 & N2 & K2 & D2). change (dh_keypair e2 = kp1) in D2. cbn [set_dh_keypair node_initialized] in N2. rewrite N1 in N2.
  assert (I2' : enclave_inv (set_new_dh_keypair kp2 e2)) by (apply (inv_uninitialised e2); assumption || reflexivity).
  destruct (decide (st2 = SGX_SUCCESS)) as [->|]; [|destruct st2; first [exact I2' | congruence]].
  unfold read_rand_call. destruct (Hrd (rand_calls (set_new_dh_keypair kp2 e2)) 32%nat) as [Lk Ok].
  destruct (rd _ 32%nat) as [st3 k]. cbn [snd] in Lk, Ok.
  set (e3 := set_rand_calls _ (set_new_dh_keypair kp2 e2)).
  assert (I3 : enclave_inv e3) by (by apply inv_rand_calls).
  destruct (decide (st3 = SGX_SUCCESS)) as [->|]; [|assert (I4 : enclave_inv (set_id_key k e3)) by (apply (inv_uninitialised e3); assumption || reflexivity);
    destruct st3; first [exact I4 | congruence]].
  destruct alloc; [|apply (inv_uninitialised e3); assumption || reflexivity].
  cbn [snd]. destruct I3 as [H1 H2 H3 H4 _].
  split; [exact H1|exact H2|exact H3| |].
  - apply (Forall_impl _ _ _ H4). intros d [Hd _]. by split.
  - intros _. assert (P : 0 < 2 ^ o < 2 ^ 64) by (split; [apply Z.pow_pos_nonneg|apply Z.pow_lt_mono_r]; lia).
    split_and!; [|apply Forall_replicate, Forall_replicate; unfold byte_ok; lia| | |by apply K2].
    + split; [cbn; lia|]. split; [|split; [exact H2|by split]].
      cbn [set_initialized set_pending set_table_order pending_requests table_order]. rewrite length_replicate, Z.shiftl_1_l.
      rewrite wrap_small by (split; lia). lia.
    + intros i q Hq. left. cbn [set_initialized set_pending pending_requests] in Hq.
      apply lookup_replicate in Hq as [-> _]. reflexivity.
    + cbn [set_initialized set_pending set_table_order set_id_key dh_keypair]. unfold e3. cbn [set_rand_calls set_new_dh_keypair dh_keypair].
      rewrite D2. by apply K1.
Qed.

Lemma step_negotiate_inv request response e :
  enclave_inv e -> enclave_inv (sgxsd_enclave_negotiate_request sc gc rd id_image request response e).2.
Proof using All.
  intros Hi. unfold sgxsd_enclave_negotiate_request. destruct (node_initialized e) eqn:En; [|exact Hi]. cbn [negb].
  destruct request as [client|]; [|exact Hi]. destruct response as [resp|]; [|exact Hi].
  assert (G := inv_generate (mkKeyPair [] []) e Hi).
  destruct (sgxsd_enclave_generate_curve25519_keypair sc rd (mkKeyPair [] []) e) as [[st kp] e1].
  destruct G as (I1 & N1 & _). rewrite En in N1. destruct (decide (st = SGX_SUCCESS)) as [->|]; [|by destruct st].
  set (prk := negotiated_prk sc client kp (dh_keypair e1)).
  assert (Hprk : Forall byte_ok prk).
  { unfold prk, negotiated_prk. rewrite (sha256_spec sc sc_ok), (hmac_sha256_spec sc sc_ok) by apply sha256_bytes.
    apply HMAC_SHA256_bytes. }
  destruct (inv_node _ I1 N1) as (Hp & _).
  assert (M0 : mac_ok (rid_mac uninitialised_id)).
  { split; [reflexivity|]. apply Forall_replicate. unfold byte_ok. lia. }
  assert (A := add_pending_request_spec gc gc_ok rd Hrd uninitialised_id (mkPending 0 prk) e1
    (proj2 (proj2 (proj2 Hp))) eq_refl M0).
  assert (I2 := inv_store (mkPending 0 prk) e1 N1 Hprk I1).
  destruct (sgxsd_enclave_add_pending_request gc rd uninitialised_id (mkPending 0 prk) e1) as [[st rid] e2].
  destruct (store_pending_request (mkPending 0 prk) e1) as [v e1']. destruct A as (_ & -> & _). cbn [snd] in I2.
  apply (inv_rand_calls (S (rand_calls e1))) in I2.
  destruct st; try exact I2.
  destruct (sgxsd_aes_gcm_run _ _ _ _ _ _ _ _ _ _) as [[st data] mac]. by destruct st.
Qed.

Lemma with_server_inv {A} handle (refused : sgx_status_t -> A) body e :
  enclave_inv e ->
  (forall d, node_initialized e = true ->
     enclave_inv (body d e).2 /\ node_initialized (body d e).2 = true /\ server_states (body d e).2 = server_states e) ->
  enclave_inv (with_server handle refused e body).2.
Proof.
  intros Hi Hb. unfold with_server. destruct (node_initialized e) eqn:En; [|exact Hi]. cbn [negb].
  destruct (SGXSD_ENCLAVE_MAX_SERVERS <=? handle); [exact Hi|].
  specialize (Hb (set_lock 1 (nth (Z.to_nat handle) (server_states e) no_server)) eq_refl).
  destruct (body _ e) as [[r d] e']. cbn [fst snd] in *. destruct Hb as (I & N & _). by apply inv_server.
Qed.

Lemma step_call_inv args hdr msg size tag handle e :
  enclave_inv e -> enclave_inv (sgxsd_enclave_server_call sc gc id_image handle_call args hdr msg size tag handle e).2.
Proof.
  intros Hi. apply with_server_inv; [exact Hi|]. intros d En. unfold sgxsd_enclave_server_call_locked.
  destruct (negb (valid d)); [done|]. destruct hdr as [h|]; [|done]. destruct msg as [m|]; [|done].
  destruct (size =? 0); [done|].
  assert (R : let e' := (sgxsd_enclave_remove_pending_request gc (hdr_id h) e).2 in
    enclave_inv e' /\ node_initialized e' = true /\ server_states e' = server_states e).
  { cbv zeta. unfold sgxsd_enclave_remove_pending_request. destruct (decrypt_request_id gc (hdr_id h) e) as [st v].
    destruct st; try done. destruct (id_val _ =? v); [|done]. cbn [snd]. split; [by apply inv_clear|done]. }
  destruct (sgxsd_enclave_remove_pending_request gc (hdr_id h) e) as [[st p] e']. cbv zeta in R. cbn [snd] in R.
  destruct st; try exact R. destruct p as [p|]; [|exact R].
  destruct (open_message sc gc id_image p h m size tag) as [[st out] from]. destruct st; try exact R.
  destruct (handle_call _ _ _ _ _ _) as [[st s] n]. cbn [snd]. destruct R as (R1 & R2 & R3).
  split; [by apply inv_rand_calls|done].
Qed.

Lemma step_fingerprint_inv key args hdr msg size tag handle fp fpsize e :
  enclave_inv e ->
  enclave_inv (sgxsd_enclave_ratelimit_fingerprint sc gc id_image fingerprint_of key args hdr msg size tag handle fp fpsize e).2.
Proof.
  intros Hi. apply with_server_inv; [exact Hi|]. intros d En. unfold sgxsd_enclave_ratelimit_fingerprint_locked.
  destruct (negb (valid d)); [done|]. destruct hdr as [h|]; [|done]. destruct msg as [m|]; [|done].
  destruct (size =? 0); [done|]. destruct (sgxsd_enclave_get_pending_request gc (hdr_id h) e) as [st [p|]]; [|by destruct st].
  destruct st; try done. destruct (open_message sc gc id_image p h m size tag) as [[st out] from]. destruct st; try done.
  by destruct (fingerprint_of _ _ _ _ _ _ _).
Qed.

Lemma step_inv e e' : api_step e e' -> enclave_inv e -> enclave_inv e'.
Proof using All.
  intros Hs Hi. destruct Hs as [no mo alloc args Ho|target report| |request response|h0 data size from|args handle|
    args hdr msg size tag handle|args handle|key args hdr msg size tag handle fp fpsize].
  - by apply step_init_inv.
  - unfold sgxsd_enclave_get_next_report. destruct (node_initialized e) eqn:En; [|exact Hi]. cbn [negb].
    destruct report as [r|]; [|exact Hi]. assert (G := inv_generate (mkKeyPair [] []) e Hi).
    destruct (sgxsd_enclave_generate_curve25519_keypair sc rd (mkKeyPair [] []) e) as [[st kp] e1].
    destruct G as (I1 & N1 & K1 & _). destruct st; try exact I1.
    destruct (create_report _ _) as [st r']. destruct st; try exact I1.
    destruct I1 as [? ? ? ? H]. split; try done. intros N. destruct (H N) as (? & ? & ? & ? & ?). split_and!; try done; by apply K1.
  - unfold sgxsd_enclave_set_current_quote. destruct (node_initialized e) eqn:En; [|exact Hi]. cbn [negb snd].
    destruct Hi as [? ? ? ? H]. split; try done. intros N. destruct (H N) as (? & ? & ? & ? & ?). by split_and!.
  - by apply step_negotiate_inv.
  - unfold sgxsd_enclave_server_reply.
    assert (R : (sgxsd_enclave_server_reply_noerase gc rd ocall_reply h0 data size from e).2 = e \/
      (sgxsd_enclave_server_reply_noerase gc rd ocall_reply h0 data size from e).2 = set_rand_calls (S (rand_calls e)) e).
    { unfold sgxsd_enclave_server_reply_noerase. destruct from as [from|]; [|by left].
      destruct (negb (from_valid from)); [by left|]. destruct (is_null data && negb (size =? 0)); [by left|].
      right. unfold read_rand_call. destruct (rd _ _) as [st iv]. destruct st; try done.
      destruct (sgxsd_aes_gcm_run _ _ _ _ _ _ _ _ _ _) as [[st d] m]. by destruct st. }
    destruct (sgxsd_enclave_server_reply_noerase gc rd ocall_reply h0 data size from e) as [[[st d] ev] e']. cbn [snd] in *.
    destruct R as [-> | ->]; [exact Hi|by apply inv_rand_calls].
  - apply with_server_inv; [exact Hi|]. intros d En.
    by destruct (sgxsd_enclave_server_start_locked server_init args d) as [[st ev] d'].
  - by apply step_call_inv.
  - apply with_server_inv; [exact Hi|]. intros d En.
    by destruct (sgxsd_enclave_server_stop_locked server_terminate args d) as [[st ev] d'].
  - by apply step_fingerprint_inv.
Qed.

(** C18: The globals keep their invariant.  In every state that any sequence of
    calls of the entry points reaches from static storage, whatever the random
    numbers, reports, callbacks and inputs are: the state of the generator is
    32 bytes; there are 256 servers, none of them locked, and none started
    unless the node is initialised; and when it is initialised, the table has
    [2^order] entries with order at most 63, each empty or at the index of its
    id, their secrets and the id key are bytes, and both key pairs consist of
    a 32-byte private key and the X25519 public key that belongs to it. *)
Theorem enclave_invariant (e : enclave T) : rtc api_step (initial_enclave T) e -> enclave_inv e.
Proof using All.
  intros H. assert (G : enclave_inv (initial_enclave T)) by apply initial_inv.
  induction H as [|e1 e2 e3 Hs _ IH]; [exact G|]. apply IH, (step_inv e1); assumption.
Qed.
End invariant.

Lemma enclave_invariant_witness :
  enclave_inv (sgxsd_enclave_node_init (T := unit) (mkHash (replicate 64 0) 0 []) test_rand 1 1 true (Some 3) (initial_enclave unit)).2.
Proof.
  apply (enclave_invariant (mkHash (replicate 64 0) 0 []) test_context test_rand (fun _ => []) (fun _ r => (SGX_SUCCESS, r))
    (fun _ _ _ _ => (SGX_SUCCESS, SGX_SUCCESS)) (fun (_ : unit) s => (SGX_SUCCESS, s))
    (fun (_ : unit) _ _ _ s n => (SGX_SUCCESS, s, n)) (fun (_ : unit) _ => SGX_SUCCESS)
    (fun _ _ _ _ _ f _ => (SGX_SUCCESS, f)) eq_refl eq_refl test_rand_ok).
  apply rtc_once. apply step_node_init. intros o [= <-]. lia.
Defined.
